(* ===== verification/_CoqProject ===== *)
-Q . S2P
Prelude.v
Types.v
Serialization.v
Message.v
KeyValue.v
ReplicaState.v
Replica.v
Execution.v
Handlers.v
Queue.v
ViewChange.v
Recovery.v
Normal.v
Framing.v
Network.v
EventLoop.v
Client.v
Node.v
Cluster.v
Protocol.v
Exchange.v
Refinement.v
Agreement.v
Machine.v
Store.v
Replies.v
Session.v
