(* ===== verification/Prelude.v ===== *)
(** * A verification development for vsr-kv

    vsr-kv is a key-value store replicated with Viewstamped Replication.  A server
    process runs one replica; replicas and clients exchange messages over TCP.  This
    library models the program and proves properties of the model.  File names below
    are relative to the repository's source directory.

    ** The program and its parts

    - A message ([src/common/vsr_message.cpp]) is a packed 128-byte header with two
      BLAKE3 checksums, and a payload.  Payloads of view change and recovery messages
      carry a whole log ([src/server/serialization.cpp], [view_change_messages.cpp],
      [recovery_messages.cpp]).
    - The replica ([src/server/replica.cpp], state in [replica_state.hpp]) queues
      incoming messages, takes from the front of the queue what its guards allow,
      runs one handler per message, and reacts to a front that cannot be processed by
      starting a view change or a recovery.  Committed operations are executed on a
      string map.
    - [ProtocolHandler] cuts the bytes of a connection into messages; [TcpServer]
      identifies connections by a handshake; [ReplicaManager] keeps one connection per
      peer; [IoUringLoop] runs callbacks and posted tasks one at a time.
    - The client ([src/client/client_main.cpp], [src/common/tcp_client.cpp]) numbers
      its requests and fails over between reconnecting connections.

    ** Files

    - [Prelude]: machine integers as [Z] with their wrap-around, record update
      notation, bytes, ordered iteration over maps.
    - [Types]: 128-bit identifiers and nonces ([utilities.cpp]), header, message, log
      entry, client table entry.
    - [Serialization]: [read_pod]/[write_pod], the log format and the four payloads.
    - [Message]: header layout, checksums, [serialize], [deserialize].  BLAKE3 is a
      parameter; that its output has 32 bytes is a hypothesis.
    - [KeyValue]: stream extraction and the interpreter of get and set.
    - [ReplicaState]: class [ReplicaState], quorums and primaries.
    - [Replica]: class [Replica].  A handler maps the replica to the replica afterwards
      and the messages it sends.  Clock readings and the content of uninitialised
      integers come from an environment [Env].
    - [Execution]: the loops that execute and commit, and their specification.
    - [Handlers]: what handlers preserve; the type invariant of the replica state.
    - [Queue]: the queue as a sequence of micro steps, termination, the invariant of
      all events, and fronts of the queue that block it for good.
    - [ViewChange], [Recovery], [Normal]: functional properties of the handlers of the
      three protocols.
    - [Framing]: [TcpConnection] and the reassembly loop of [ProtocolHandler].
    - [Network]: [ReplicaManager] and [TcpServer].  Connection objects are shared, so
      they live in a heap and are referred to by address; what is asked of the event
      loop is returned as a list of effects, and results of system calls are arguments.
    - [EventLoop]: [IoUringLoop]: requests, submissions, [post] and [run] as a program that
      interleaves with the kernel and with other threads.  liburing is a parameter, a
      class with its documented laws; an instance shows that they can hold.
    - [Client]: [TcpClient] as a step relation over the requests in flight, and the
      client program.
    - [Node]: a server process: [server_main.cpp], [Replica::setup_networking], and the
      replica and the network layer together.
    - [Cluster]: the three replicas of [server_main.cpp] and the messages between them;
      a run is a list of deliveries, losses, client messages, queue processing, timer
      events and restarts.
    - [Protocol]: the replication protocol as an abstract transition system: logs are
      lists, sent messages stay visible, and every step is enabled by what was sent.  Its
      invariant gives the agreement of committed prefixes, for any set of replicas whose
      quorums intersect.
    - [Exchange]: an invariant of [Cluster]: no replica sends the messages that are
      counted towards a quorum twice in a view, or a recovery response twice for a nonce.
    - [Refinement]: the simulation relation between [Cluster] and [Protocol], and one
      lemma per handler of [Replica] that it is preserved.
    - [Agreement]: the theorems about whole runs of the cluster.
    - [Machine]: what handlers do to the store and the client table, and which replies
      they send.
    - [Store]: the store of a replica as the replay of committed operations, and a run in
      which stores come apart.
    - [Replies]: what clients are told, explained by one sequence of operations, and a run
      in which a replica contradicts what it told a client.
    - [Session]: a session of the client program with its connections, and the cluster that
      it drives.

    ** What the theorems show

    - The cluster: without restarts, the replicas implement the abstract protocol
      ([Agreement.cluster_refines_protocol]); what one of them has committed all others
      commit, now and later ([committed_operations_agree]), and a client asked for it
      ([committed_operations_requested]); no counter wraps around
      ([counters_bounded_by_events]).  If moreover no client sends a request twice, the
      store of a replica is the replay of its executed operations and stores agree
      ([Store.store_is_replay], [stores_agree]); the exception are replicas that a recovery
      has set back behind what they executed before, until they have caught up.  A request
      that is prepared twice is executed once or twice, depending on how far a replica was
      ([prepared_twice_diverges]), and after a view change a client that sends its request
      again brings this about ([stores_diverge]).  Under the same
      conditions replies are linearizable: one sequence of requested operations extends what
      every replica has executed and explains every reply ([Replies.replies_linearizable]);
      a replica that a recovery has set back can contradict an earlier reply
      ([recovered_replica_contradicts_reply]).  One client process numbers its requests
      from 1 and sends none twice, so in a cluster that it drives alone the stores agree
      ([Session.session_stores_agree]) and hold nothing that was not typed
      ([stored_values_were_typed]), and replies are explained by the commands typed
      ([session_replies_linearizable]).  A restart breaks agreement, because a restarted replica
      does not recover ([Cluster.restart_loses_committed_operation]), and a replica that
      joins a view change leaves the message that made it join in its queue
      ([Queue.joining_message_left_in_queue]), so that a view change can stop half way
      ([Cluster.view_change_stops_half_way]).
    - Execution: the execution loop implements the abstract execution of the ready log
      entries ([Execution.execute_refines_spec]), each new request once
      ([execute_applies_each_once]); the primary commits exactly the contiguous
      operations a quorum acknowledged ([advance_commits_exactly_acked]); a request is
      committed, executed and answered at the [f]-th backup's acknowledgement
      ([Normal.request_commits_at_quorum]); a Prepare keeps the logs of primary and
      backup equal ([Normal.prepare_keeps_logs_equal]).
    - View change and recovery: which state is adopted
      ([ViewChange.do_view_change_selects_best], [start_view_adopts_and_acks],
      [Recovery.recovery_adopts_best]); replay after recovery rebuilds the store
      ([recovery_rebuilds_store]).
    - Queue: it terminates ([Queue.process_queue_terminates]), refines micro steps, and
      every event preserves the invariant and never decreases the view
      ([event_preserves_inv_and_view]).
    - Formats: logs, payloads and messages round-trip; truncated logs and every buffer
      that is not a serialization are rejected ([Message.deserialize_sound]); reading a
      log takes no more rounds than the buffer has room for.
    - Streams: cutting a stream into reads does not matter
      ([Framing.framing_split_invariant], [stream_reassembled], [framing_sound]), up to
      the replica's queue ([Node.wire_to_queue]); the peer tables stay consistent
      ([Network.net_event_safe]); no send on a null connection ([Node.sends_never_null]).
    - Event loop: requests are well-formed and the wake-up read is outstanding exactly
      once ([EventLoop.event_loop_invariant]); a post wakes a blocked loop
      ([post_wakes_waiting_loop]) and tasks run once each and in the order of posting
      ([tasks_run_in_posting_order]); what happens when the submission queue is full
      ([submissions_beyond_depth_dropped], [loop_crashes_iff_full]).
    - Client: connections keep retrying while the event loop has free entries, and not
      after an attempt that finds none ([Client.client_keeps_trying]); failover picks the
      first connected replica, commands mean what they say.
    - Behaviour one would not expect, each proved of the model: queues that block for
      good ([Queue.request_wedges_backup], [heartbeat_wedges_recovery],
      [late_view_change_wedges_primary]), operations that a majority stores but that
      never commit after a view change ([ViewChange.adopted_log_needs_fresh_quorum]),
      even-sized clusters ([ReplicaState.quorums_intersect_iff_odd],
      [primaries_agree_iff_odd]), messages over 64 KiB, bytes lost after a handshake,
      connections never re-established, a null dereference in the client, posted work
      that the event loop leaves in its queue ([EventLoop.posted_work_stranded]), and an
      idle loop that never sleeps ([idle_loop_spins]).

    ** Fuel

    Loops that are not structural take fuel, and a theorem shows that more fuel would
    not change the result: the execution and commit loops visit a new log entry per
    round (size of the log plus one); the queue loops remove a message per round, and
    every pass but the last removes one (length of the queue plus one); the framing
    loop removes at least a header per round (length of the buffer plus one);
    [read_entries] stops where the buffer ends; [retroactive_oks] runs once per
    operation number, which is exact unless the operation number is the largest 64-bit
    one, where the code does not terminate.

    ** Not modelled

    Console output; reference counts and destructors of connections; undefined
    behaviour such as the pointer overflow in the bounds check of [read_log_from_buffer]
    (positions are compared instead).  The results of system calls are arguments;
    [io_uring_submit_and_wait], whose result the code ignores, is assumed to submit
    everything and to wait for a completion, not to be interrupted.  In
    [Cluster] messages between replicas travel whole: that bytes become exactly these
    messages is shown for one connection ([Node.wire_to_queue]), and the agreement
    theorems are about the three replicas that [server_main.cpp] configures, about
    fewer than [2 ^ 32] events. *)
From Stdlib Require Export ZArith Lia.
From coqutil Require Byte Word.LittleEndianList.
From stdpp Require Export base tactics list gmap strings sorting relations.

#[global] Open Scope Z_scope.
#[global] Set Warnings "-clear-no-such-hyp".

(** ** Machine integers

    The C++ code computes with [uint8_t], [uint32_t], [uint64_t] and [int].
    A value of such a type is a [Z]; the functions below are the conversions
    the language performs on assignment and arithmetic. *)

Definition u8 (z : Z) : Z := z mod 2 ^ 8.
Definition u32 (z : Z) : Z := z mod 2 ^ 32.
Definition u64 (z : Z) : Z := z mod 2 ^ 64.
Definition i32 (z : Z) : Z := (z + 2 ^ 31) mod 2 ^ 32 - 2 ^ 31.

Definition is_u8 (z : Z) : Prop := 0 ≤ z < 2 ^ 8.
Definition is_u32 (z : Z) : Prop := 0 ≤ z < 2 ^ 32.
Definition is_u64 (z : Z) : Prop := 0 ≤ z < 2 ^ 64.

Lemma u8_range z : is_u8 (u8 z).
Proof. unfold is_u8, u8. apply Z.mod_pos_bound. lia. Qed.
Lemma u32_range z : is_u32 (u32 z).
Proof. unfold is_u32, u32. apply Z.mod_pos_bound. lia. Qed.
Lemma u64_range z : is_u64 (u64 z).
Proof. unfold is_u64, u64. apply Z.mod_pos_bound. lia. Qed.
Lemma u8_small z : is_u8 z → u8 z = z.
Proof. unfold is_u8, u8. apply Z.mod_small. Qed.
Lemma u32_small z : is_u32 z → u32 z = z.
Proof. unfold is_u32, u32. apply Z.mod_small. Qed.
Lemma u64_small z : is_u64 z → u64 z = z.
Proof. unfold is_u64, u64. apply Z.mod_small. Qed.
Lemma i32_small z : - 2 ^ 31 ≤ z < 2 ^ 31 → i32 z = z.
Proof. intros H. unfold i32. rewrite Z.mod_small; lia. Qed.

(** [unfold_ranges] turns the range predicates into inequalities [lia] can use. *)
Ltac unfold_ranges := unfold is_u8, is_u32, is_u64 in *.
Ltac rlia := unfold_ranges; lia.

Create HintDb vsr.
#[export] Hint Resolve u8_range u32_range u64_range : vsr.

(** ** Record update

    [r <| f := v |>] is [r] with field [f] replaced.  A record type opts in by
    giving its eta expansion as a [Settable] instance; the setter of a field is
    then computed by abstracting the projection in that expansion. *)

Class Settable (R : Type) := eta_expand : R → R.
Class Setter {R E : Type} (proj : R → E) := setf : E → R → R.
Arguments setf {R E} proj {_} v r /.

Ltac solve_setter :=
  match goal with
  | |- @Setter ?R ?E ?proj =>
      let i := constr:(_ : Settable R) in
      let t := eval red in i in
      match eval pattern proj in t with
      | ?upd _ => let s := eval cbv beta in (fun (v : E) => upd (fun _ => v)) in exact s
      end
  end.
#[export] Hint Extern 1 (Setter _) => solve_setter : typeclass_instances.

Declare Scope vsr_scope.
#[global] Open Scope vsr_scope.
Notation "r <| f := v |>" := (setf f v r)
  (at level 1, left associativity, f constr at level 0, v at level 200) : vsr_scope.

(** ** Bytes and strings

    [std::vector<byte>], [std::vector<char>] and [std::string] are all
    sequences of octets, modelled as lists of [Byte.byte]. *)

Abbreviation byte := Init.Byte.byte.

#[export] Instance byte_eq_dec : EqDecision byte.
Proof. intros x y. exact (Byte.byte_eq_dec x y). Defined.
#[export] Program Instance byte_countable : Countable byte :=
  inj_countable Byte.to_N Byte.of_N _.
Next Obligation. intros x. apply Byte.of_to_N. Qed.

Abbreviation le_split := LittleEndianList.le_split.
Abbreviation le_combine := LittleEndianList.le_combine.
#[global] Arguments LittleEndianList.le_split : simpl never.
#[global] Arguments LittleEndianList.le_combine : simpl never.
Abbreviation lit s := (String.list_byte_of_string s%string).

Lemma length_le_split n z : length (le_split n z) = n.
Proof. apply LittleEndianList.length_le_split. Qed.

Lemma le_combine_split_small n z :
  0 ≤ z < 2 ^ (Z.of_nat n * 8) → le_combine (le_split n z) = z.
Proof. intros H. rewrite LittleEndianList.le_combine_split. by apply Z.mod_small. Qed.

Lemma le_combine_range l : 0 ≤ le_combine l < 2 ^ (8 * Z.of_nat (length l)).
Proof. apply LittleEndianList.le_combine_bound. Qed.

Lemma le_split_combine n l : length l = n → le_split n (le_combine l) = l.
Proof. intros <-. apply LittleEndianList.split_le_combine. Qed.

(** ** Ordered iteration of [std::map<uint64_t, _>] and [std::map<int, _>]

    [std::map] iterates in increasing key order.  The content is a [gmap]; the
    iteration order is [items]. *)

Definition key_le {A} (p q : Z * A) : Prop := p.1 ≤ q.1.
#[export] Instance key_le_dec {A} : RelDecision (@key_le A).
Proof. intros p q. unfold key_le. apply _. Defined.
#[export] Instance key_le_total {A} : Total (@key_le A).
Proof. intros p q. unfold key_le. lia. Qed.
#[export] Instance key_le_trans {A} : Transitive (@key_le A).
Proof. intros p q r. unfold key_le. lia. Qed.

Definition items {A} (m : gmap Z A) : list (Z * A) := merge_sort key_le (map_to_list m).

Section items.
Context {A : Type}.
Implicit Types m : gmap Z A.

Lemma items_perm m : items m ≡ₚ map_to_list m.
Proof. apply merge_sort_Permutation. Qed.

Lemma items_nodup m : NoDup (items m).*1.
Proof. rewrite items_perm. apply NoDup_fst_map_to_list. Qed.

Lemma items_to_map m : list_to_map (items m) = m.
Proof.
  rewrite (list_to_map_proper (items m) (map_to_list m)).
  - apply list_to_map_to_list.
  - apply items_nodup.
  - apply items_perm.
Qed.

Lemma length_items m : length (items m) = size m.
Proof. rewrite items_perm. apply length_map_to_list. Qed.

Lemma elem_of_items m k x : (k, x) ∈ items m ↔ m !! k = Some x.
Proof. rewrite items_perm. apply elem_of_map_to_list. Qed.

Lemma items_sorted m : StronglySorted key_le (items m).
Proof. apply StronglySorted_merge_sort; apply _. Qed.

(** Inserting the pairs of a list one after the other, as a reader does. *)
Definition insert_all (l : list (Z * A)) m : gmap Z A :=
  foldl (λ acc p, <[p.1 := p.2]> acc) m l.

Lemma insert_all_spec l m : NoDup l.*1 → insert_all l m = list_to_map l ∪ m.
Proof.
  revert m. induction l as [|[k x] l IH]; intros m; simpl.
  - intros _. by rewrite (left_id_L ∅ (∪)).
  - intros [Hk Hl]%NoDup_cons. rewrite IH by done.
    rewrite <- insert_union_r by (by apply not_elem_of_list_to_map_1).
    by rewrite insert_union_l.
Qed.

Lemma insert_all_items m : insert_all (items m) ∅ = m.
Proof. rewrite insert_all_spec by apply items_nodup. by rewrite (right_id_L ∅ (∪)), items_to_map. Qed.
End items.
