(* ===== verification/Types.v ===== *)
(** * Wire and log data types

    [src/common/utilities.hpp], [src/common/utilities.cpp],
    [src/common/vsr_message.hpp] and [src/server/replica_types.hpp]: the 128-bit
    identifiers with their ordering, the nonce generator, the two enumerations,
    the packed message header, messages, log entries and client-table entries. *)
From S2P Require Import Prelude.

(** ** [utilities::uint128_t] *)

Record uint128_t := U128 { high : Z; low : Z }.

#[export] Instance uint128_eq_dec : EqDecision uint128_t.
Proof. solve_decision. Defined.
#[export] Program Instance uint128_countable : Countable uint128_t :=
  inj_countable' (λ x, (high x, low x)) (λ p, U128 p.1 p.2) _.
Next Obligation. by intros []. Qed.

Definition uint128_eqb (a b : uint128_t) : bool :=
  (high a =? high b) && (low a =? low b).

Definition uint128_ltb (a b : uint128_t) : bool :=
  if high a <? high b then true
  else if high b <? high a then false
  else low a <? low b.

Definition uint128_zero : uint128_t := U128 0 0.
Definition is_u128 (x : uint128_t) : Prop := is_u64 (high x) ∧ is_u64 (low x).

(** [utilities::generate_nonce]: [ts] is the reading of
    [clock_gettime(CLOCK_MONOTONIC_RAW)] as (seconds, nanoseconds), [counter]
    the static atomic counter; the incremented counter is returned too. *)
Definition generate_nonce (replica_id : Z) (ts : Z * Z) (counter : Z) : uint128_t * Z :=
  let hi := u64 (ts.1 * 1000000000 + ts.2) in
  let lo := Z.lor (u64 (Z.shiftl (u64 replica_id) 32)) counter in
  (U128 hi lo, u32 (counter + 1)).

(** ** Enumerations

    Both have a fixed underlying type [byte], so every byte is a value of the
    enumeration; the values without an enumerator are [other]. *)

Module command.
Inductive t :=
  | reserved | ping | pong | request | prepare | prepare_ok | reply | commit
  | start_view_change | do_view_change | start_view | recovery
  | recovery_response | other (b : Z).

Definition to_Z (c : t) : Z :=
  match c with
  | reserved => 0 | ping => 1 | pong => 2 | request => 3 | prepare => 4
  | prepare_ok => 5 | reply => 6 | commit => 7 | start_view_change => 8
  | do_view_change => 9 | start_view => 10 | recovery => 11
  | recovery_response => 12 | other b => b
  end.

Definition of_Z (z : Z) : t :=
  match z with
  | 0 => reserved | 1 => ping | 2 => pong | 3 => request | 4 => prepare
  | 5 => prepare_ok | 6 => reply | 7 => commit | 8 => start_view_change
  | 9 => do_view_change | 10 => start_view | 11 => recovery
  | 12 => recovery_response | _ => other z
  end.

Definition wf (c : t) : Prop :=
  match c with other b => 13 ≤ b < 256 | _ => True end.
End command.

Module operation.
Inductive t := reserved | set | update | get | other (b : Z).

Definition to_Z (o : t) : Z :=
  match o with reserved => 0 | set => 1 | update => 2 | get => 3 | other b => b end.

Definition of_Z (z : Z) : t :=
  match z with 0 => reserved | 1 => set | 2 => update | 3 => get | _ => other z end.

Definition wf (o : t) : Prop :=
  match o with other b => 4 ≤ b < 256 | _ => True end.
End operation.

#[export] Instance command_eq_dec : EqDecision command.t.
Proof. solve_decision. Defined.
#[export] Instance operation_eq_dec : EqDecision operation.t.
Proof. solve_decision. Defined.

(** ** [vsr_header] and [vsr_message] *)

Record vsr_header := {
  h_checksum : uint128_t;
  h_checksum_body : uint128_t;
  h_parent : uint128_t;
  h_client : uint128_t;
  h_context : uint128_t;
  h_size : Z;
  h_request : Z;
  h_cluster : Z;
  h_epoch : Z;
  h_view : Z;
  h_op : Z;
  h_commit : Z;
  h_offset : Z;
  h_replica : Z;
  h_command : command.t;
  h_operation : operation.t;
  h_version : Z }.

#[export] Instance vsr_header_eta : Settable vsr_header :=
  λ h, Build_vsr_header (h_checksum h) (h_checksum_body h) (h_parent h) (h_client h)
    (h_context h) (h_size h) (h_request h) (h_cluster h) (h_epoch h) (h_view h)
    (h_op h) (h_commit h) (h_offset h) (h_replica h) (h_command h) (h_operation h)
    (h_version h).

(** The value-initialised header of the constructor [vsr_message() : header{}]. *)
Definition zero_header : vsr_header := {|
  h_checksum := uint128_zero; h_checksum_body := uint128_zero;
  h_parent := uint128_zero; h_client := uint128_zero; h_context := uint128_zero;
  h_size := 0; h_request := 0; h_cluster := 0; h_epoch := 0; h_view := 0;
  h_op := 0; h_commit := 0; h_offset := 0; h_replica := 0;
  h_command := command.reserved; h_operation := operation.reserved; h_version := 0 |}.

Record vsr_message := { header : vsr_header; payload : list byte }.

#[export] Instance vsr_message_eta : Settable vsr_message :=
  λ m, Build_vsr_message (header m) (payload m).

(** Every field of the header holds a value of its C++ type. *)
Record header_wf (h : vsr_header) : Prop := {
  wf_checksum : is_u128 (h_checksum h);
  wf_checksum_body : is_u128 (h_checksum_body h);
  wf_parent : is_u128 (h_parent h);
  wf_client : is_u128 (h_client h);
  wf_context : is_u128 (h_context h);
  wf_size : is_u32 (h_size h);
  wf_request : is_u32 (h_request h);
  wf_cluster : is_u32 (h_cluster h);
  wf_epoch : is_u32 (h_epoch h);
  wf_view : is_u32 (h_view h);
  wf_op : is_u64 (h_op h);
  wf_commit : is_u64 (h_commit h);
  wf_offset : is_u64 (h_offset h);
  wf_replica : is_u8 (h_replica h);
  wf_command : command.wf (h_command h);
  wf_operation : operation.wf (h_operation h);
  wf_version : is_u8 (h_version h) }.

(** ** [log_entry] and [client_table_entry] *)

Record log_entry := {
  le_view : Z;
  le_op_type : operation.t;
  le_client_id : uint128_t;
  le_request_num : Z;
  le_payload : list byte;
  le_acks : gset Z }.

#[export] Instance log_entry_eta : Settable log_entry :=
  λ e, Build_log_entry (le_view e) (le_op_type e) (le_client_id e) (le_request_num e)
    (le_payload e) (le_acks e).

#[export] Instance log_entry_eq_dec : EqDecision log_entry.
Proof. solve_decision. Defined.

Record entry_wf (e : log_entry) : Prop := {
  wf_le_view : is_u32 (le_view e);
  wf_le_op_type : operation.wf (le_op_type e);
  wf_le_client_id : is_u128 (le_client_id e);
  wf_le_request_num : is_u32 (le_request_num e) }.

Record client_table_entry := {
  request_number : Z;
  executed : bool;
  result : list byte }.

#[export] Instance client_table_entry_eta : Settable client_table_entry :=
  λ e, Build_client_table_entry (request_number e) (executed e) (result e).

(** The value [std::map::operator[]] inserts for an absent client. *)
Definition default_client_entry : client_table_entry :=
  {| request_number := 0; executed := false; result := [] |}.

(** A log with the acknowledgements of every entry forgotten. *)
Definition strip_entry (e : log_entry) : log_entry := e <| le_acks := ∅ |>.
Definition strip_acks (log : gmap Z log_entry) : gmap Z log_entry := strip_entry <$> log.

(** ** Lemmas *)

Lemma command_of_to c : command.wf c → command.of_Z (command.to_Z c) = c.
Proof.
  destruct c as [| | | | | | | | | | | | |b]; try done. simpl. intros Hb.
  unfold command.of_Z. repeat case_match; try done; lia.
Qed.

Lemma command_to_Z_range c : command.wf c → is_u8 (command.to_Z c).
Proof. destruct c; simpl; unfold_ranges; lia. Qed.

Lemma command_of_Z_wf z : is_u8 z → command.wf (command.of_Z z).
Proof. intros Hz. unfold command.of_Z. unfold_ranges. repeat case_match; simpl; try done; lia. Qed.

Lemma command_to_of z : command.to_Z (command.of_Z z) = z.
Proof. unfold command.of_Z. repeat case_match; done. Qed.

Lemma operation_to_of z : operation.to_Z (operation.of_Z z) = z.
Proof. unfold operation.of_Z. repeat case_match; done. Qed.

Lemma operation_of_to o : operation.wf o → operation.of_Z (operation.to_Z o) = o.
Proof.
  destruct o as [| | | |b]; try done. simpl. intros Hb.
  unfold operation.of_Z. repeat case_match; try done; lia.
Qed.

Lemma operation_to_Z_range o : operation.wf o → is_u8 (operation.to_Z o).
Proof. destruct o; simpl; unfold_ranges; lia. Qed.

Lemma operation_of_Z_wf z : is_u8 z → operation.wf (operation.of_Z z).
Proof. intros Hz. unfold operation.of_Z. unfold_ranges. repeat case_match; simpl; try done; lia. Qed.

Lemma uint128_eqb_eq a b : uint128_eqb a b = true ↔ a = b.
Proof.
  unfold uint128_eqb. rewrite andb_true_iff, !Z.eqb_eq.
  destruct a, b; simpl. split; [intros []; congruence|by intros [= -> ->]].
Qed.

Lemma strip_acks_idemp log : strip_acks (strip_acks log) = strip_acks log.
Proof. unfold strip_acks. rewrite <- map_fmap_compose. by apply map_fmap_ext. Qed.

#[export] Hint Resolve command_of_to command_to_Z_range command_of_Z_wf operation_of_to
  operation_to_Z_range operation_of_Z_wf : vsr.

(** ** Properties *)

(** [operator<] on 128-bit identifiers is a strict total order that agrees with
    [operator==], as [std::map] requires of its keys. *)
Theorem uint128_strict_total_order :
  (∀ a, uint128_ltb a a = false) ∧
  (∀ a b c, uint128_ltb a b = true → uint128_ltb b c = true → uint128_ltb a c = true) ∧
  (∀ a b, uint128_ltb a b = true ∨ uint128_eqb a b = true ∨ uint128_ltb b a = true).
Proof.
  unfold uint128_ltb, uint128_eqb. split_and!.
  - intros [h l]. simpl. by rewrite !Z.ltb_irrefl.
  - intros [h1 l1] [h2 l2] [h3 l3]. simpl. repeat case_match; try done;
      rewrite ?Z.ltb_lt, ?Z.ltb_ge in *; lia.
  - intros [h1 l1] [h2 l2]. simpl. repeat case_match;
      rewrite ?Z.ltb_lt, ?Z.ltb_ge, ?andb_true_iff, ?Z.eqb_eq in *; lia.
Qed.

Lemma nonce_low_parts id c :
  is_u32 id → is_u32 c →
  let n := Z.lor (u64 (Z.shiftl (u64 id) 32)) c in Z.shiftr n 32 = id ∧ n mod 2 ^ 32 = c.
Proof.
  intros Hi Hc. simpl. rewrite (u64_small id) by rlia.
  rewrite u64_small by (rewrite Z.shiftl_mul_pow2 by lia; rlia).
  split.
  - rewrite Z.shiftr_lor, Z.shiftr_shiftl_l by lia. rewrite Z.sub_diag, Z.shiftl_0_r.
    rewrite (Z.shiftr_div_pow2 c), Z.div_small by rlia. apply Z.lor_0_r.
  - rewrite <- Z.land_ones by lia. rewrite Z.land_lor_distr_l, !Z.land_ones by lia.
    rewrite Z.shiftl_mul_pow2, Z.mod_mul by lia. rewrite Z.lor_0_l.
    apply Z.mod_small. rlia.
Qed.

(** Recovery nonces are distinct across replicas and, until the 32-bit counter
    wraps around, across the calls of one replica, even if the clocks agree. *)
Theorem nonces_distinct id1 id2 ts1 ts2 c1 c2 :
  is_u32 id1 → is_u32 id2 → is_u32 c1 → is_u32 c2 → (id1, c1) ≠ (id2, c2) →
  (generate_nonce id1 ts1 c1).1 ≠ (generate_nonce id2 ts2 c2).1.
Proof.
  intros H1 H2 H3 H4 Hne. unfold generate_nonce. intros [= _ Hlow]. apply Hne.
  destruct (nonce_low_parts id1 c1) as [Ha Hb]; [done..|].
  destruct (nonce_low_parts id2 c2) as [Hc Hd]; [done..|].
  rewrite Hlow in Ha, Hb. simpl in *. congruence.
Qed.

Lemma nonces_distinct_witness :
  (generate_nonce 1 (5, 6) 7).1 ≠ (generate_nonce 2 (5, 6) 7).1.
Proof.
  apply (nonces_distinct 1 2 (5, 6) (5, 6) 7 7);
    first [congruence | split; vm_compute; congruence].
Defined.
