(* ===== verification/Serialization.v ===== *)
(** * Binary serialization of logs and payloads

    [src/server/serialization.hpp], [src/server/serialization.cpp],
    [src/server/view_change_messages.cpp] and
    [src/server/recovery_messages.cpp].  A reader position [ptr] (with its [end])
    is the list of bytes that are left; integers are little-endian, as on the
    x86-64 hosts the io_uring server runs on.  A reader returns the position
    after it ([None] stands for [false]) together with what it stored. *)
From S2P Require Import Prelude Types.

(** ** Plain-old-data values *)

Record pod (T : Type) := Pod {
  pod_sizeof : nat;
  pod_encode : T → list byte;
  pod_decode : list byte → T }.
Arguments Pod {T}.
Arguments pod_sizeof {T}.
Arguments pod_encode {T}.
Arguments pod_decode {T}.

(** What the template functions rely on: the object representation has the
    declared size, and encoding and decoding are inverse to each other. *)
Class PodOk {T} (p : pod T) (wf : T → Prop) := {
  pod_length v : length (pod_encode p v) = pod_sizeof p;
  pod_round v : wf v → pod_decode p (pod_encode p v) = v;
  pod_decode_wf l : length l = pod_sizeof p → wf (pod_decode p l);
  pod_encode_decode l : length l = pod_sizeof p → pod_encode p (pod_decode p l) = l }.

Definition uint8 : pod Z := Pod 1 (le_split 1) le_combine.
Definition uint32 : pod Z := Pod 4 (le_split 4) le_combine.
Definition uint64 : pod Z := Pod 8 (le_split 8) le_combine.
Definition uint128 : pod uint128_t :=
  Pod 16 (λ x, le_split 8 (high x) ++ le_split 8 (low x))
         (λ l, U128 (le_combine (take 8 l)) (le_combine (drop 8 l))).
Definition pod_operation : pod operation.t :=
  Pod 1 (λ o, le_split 1 (operation.to_Z o)) (λ l, operation.of_Z (le_combine l)).
Definition pod_command : pod command.t :=
  Pod 1 (λ c, le_split 1 (command.to_Z c)) (λ l, command.of_Z (le_combine l)).

Section pod.
Context {T : Type} (p : pod T).

Definition write_pod (buffer : list byte) (value : T) : list byte :=
  buffer ++ pod_encode p value.

Definition read_pod (ptr : list byte) : option (T * list byte) :=
  if (length ptr <? pod_sizeof p)%nat then None
  else Some (pod_decode p (take (pod_sizeof p) ptr), drop (pod_sizeof p) ptr).
End pod.

(** ** Logs *)

Definition write_entry (buffer : list byte) (kv : Z * log_entry) : list byte :=
  let '(op_num, entry) := kv in
  let buffer := write_pod uint64 buffer op_num in
  let buffer := write_pod uint32 buffer (le_view entry) in
  let buffer := write_pod pod_operation buffer (le_op_type entry) in
  let buffer := write_pod uint128 buffer (le_client_id entry) in
  let buffer := write_pod uint32 buffer (le_request_num entry) in
  let buffer := write_pod uint64 buffer (Z.of_nat (length (le_payload entry))) in
  buffer ++ le_payload entry.

Definition write_log_to_buffer (buffer : list byte) (log : gmap Z log_entry) : list byte :=
  foldl write_entry (write_pod uint64 buffer (Z.of_nat (size log))) (items log).

(** The body of the reading loop: one key and one entry.  The entry is
    default-constructed, so its acknowledgement set is empty. *)
Definition read_entry (ptr : list byte) : option (Z * log_entry * list byte) :=
  '(op_num, ptr) ← read_pod uint64 ptr;
  '(view, ptr) ← read_pod uint32 ptr;
  '(op_type, ptr) ← read_pod pod_operation ptr;
  '(client_id, ptr) ← read_pod uint128 ptr;
  '(request_num, ptr) ← read_pod uint32 ptr;
  '(payload_size, ptr) ← read_pod uint64 ptr;
  if Z.of_nat (length ptr) <? payload_size then None
  else
    let n := Z.to_nat payload_size in
    Some (op_num, {| le_view := view; le_op_type := op_type; le_client_id := client_id;
                     le_request_num := request_num; le_payload := take n ptr;
                     le_acks := ∅ |}, drop n ptr).

(** The loop [for (i = 0; i < log_size; ++i)].  Every round consumes input or
    fails, so one unit of fuel per remaining byte and one more suffices
    ([read_entries_fuel] below); running out of fuel never happens. *)
Fixpoint read_entries (fuel : nat) (i log_size : Z) (ptr : list byte)
    (log : gmap Z log_entry) : option (list byte) * gmap Z log_entry :=
  if i <? log_size then
    match fuel with
    | O => (None, log)
    | S fuel =>
        match read_entry ptr with
        | None => (None, log)
        | Some (op_num, entry, ptr) =>
            read_entries fuel (i + 1) log_size ptr (<[op_num := entry]> log)
        end
    end
  else (Some ptr, log).

Definition read_log_from_buffer (ptr : list byte) (log : gmap Z log_entry)
    : option (list byte) * gmap Z log_entry :=
  match read_pod uint64 ptr with
  | None => (None, log)
  | Some (log_size, ptr) => read_entries (S (length ptr)) 0 log_size ptr log
  end.

(** ** Payloads

    [deserialize] receives the object the caller declared and returns it as the
    reader left it, also when it fails halfway. *)

Record do_view_change_payload := { dvc_last_normal_view : Z; dvc_log : gmap Z log_entry }.
Record start_view_payload := { sv_log : gmap Z log_entry }.
Record recovery_request_payload := { rq_nonce : uint128_t }.
Record recovery_response_payload := { rr_nonce : uint128_t; rr_log : gmap Z log_entry }.

Definition dvc_serialize (p : do_view_change_payload) : list byte :=
  write_log_to_buffer (write_pod uint32 [] (dvc_last_normal_view p)) (dvc_log p).

Definition dvc_deserialize (data : list byte) (msg : do_view_change_payload)
    : bool * do_view_change_payload :=
  match read_pod uint32 data with
  | None => (false, msg)
  | Some (v, ptr) =>
      let '(r, log) := read_log_from_buffer ptr (dvc_log msg) in
      (bool_decide (is_Some r), {| dvc_last_normal_view := v; dvc_log := log |})
  end.

Definition sv_serialize (p : start_view_payload) : list byte :=
  write_log_to_buffer [] (sv_log p).

Definition sv_deserialize (data : list byte) (msg : start_view_payload)
    : bool * start_view_payload :=
  let '(r, log) := read_log_from_buffer data (sv_log msg) in
  (bool_decide (is_Some r), {| sv_log := log |}).

Definition rq_serialize (p : recovery_request_payload) : list byte :=
  write_pod uint128 [] (rq_nonce p).

Definition rq_deserialize (data : list byte) (msg : recovery_request_payload)
    : bool * recovery_request_payload :=
  match read_pod uint128 data with
  | None => (false, msg)
  | Some (n, _) => (true, {| rq_nonce := n |})
  end.

Definition rr_serialize (p : recovery_response_payload) : list byte :=
  write_log_to_buffer (write_pod uint128 [] (rr_nonce p)) (rr_log p).

Definition rr_deserialize (data : list byte) (msg : recovery_response_payload)
    : bool * recovery_response_payload :=
  match read_pod uint128 data with
  | None => (false, msg)
  | Some (n, ptr) =>
      let '(r, log) := read_log_from_buffer ptr (rr_log msg) in
      (bool_decide (is_Some r), {| rr_nonce := n; rr_log := log |})
  end.

(** ** Well-formed logs: what the C++ types, and the memory of a 64-bit host, can hold *)

Definition log_item_wf (k : Z) (e : log_entry) : Prop :=
  is_u64 k ∧ entry_wf e ∧ is_u64 (Z.of_nat (length (le_payload e))).

Record log_wf (log : gmap Z log_entry) : Prop := {
  wf_log_size : is_u64 (Z.of_nat (size log));
  wf_log_entries : map_Forall log_item_wf log }.

(** ** Plain-old-data lemmas *)

Lemma le_pod_ok n :
  PodOk (Pod n (le_split n) le_combine) (λ z, 0 ≤ z < 2 ^ (Z.of_nat n * 8)).
Proof.
  split; simpl.
  - intros v. by rewrite ?length_le_split.
  - intros v. apply le_combine_split_small.
  - intros l <-. rewrite (Z.mul_comm (Z.of_nat _)). apply le_combine_range.
  - intros l. apply le_split_combine.
Qed.

#[export] Instance uint8_ok : PodOk uint8 is_u8 := le_pod_ok 1.
#[export] Instance uint32_ok : PodOk uint32 is_u32 := le_pod_ok 4.
#[export] Instance uint64_ok : PodOk uint64 is_u64 := le_pod_ok 8.

#[export] Instance uint128_ok : PodOk uint128 is_u128.
Proof.
  split; cbn [uint128 pod_encode pod_decode pod_sizeof].
  - intros v. by rewrite length_app, !length_le_split.
  - intros [hi lo] [Hh Hl]. cbn [high low] in *.
    rewrite take_app_length', drop_app_length' by (by rewrite length_le_split).
    by rewrite !le_combine_split_small.
  - intros l Hl. split; cbn [high low].
    + pose proof (le_combine_range (take 8 l)) as H. rewrite length_take, Hl in H. exact H.
    + pose proof (le_combine_range (drop 8 l)) as H. rewrite length_drop, Hl in H. exact H.
  - intros l Hl. cbn [high low].
    rewrite !le_split_combine by (rewrite ?length_take, ?length_drop; lia). apply take_drop.
Qed.

Lemma le_combine_byte l : length l = 1%nat → is_u8 (le_combine l).
Proof. intros Hl. pose proof (le_combine_range l) as H. rewrite Hl in H. exact H. Qed.

#[export] Instance pod_operation_ok : PodOk pod_operation operation.wf.
Proof.
  split; simpl.
  - intros v. by rewrite ?length_le_split.
  - intros v Hv. rewrite le_combine_split_small; [by apply operation_of_to|].
    by apply operation_to_Z_range.
  - intros l Hl. by apply operation_of_Z_wf, le_combine_byte.
  - intros l Hl. rewrite operation_to_of. by apply le_split_combine.
Qed.

#[export] Instance pod_command_ok : PodOk pod_command command.wf.
Proof.
  split; simpl.
  - intros v. by rewrite ?length_le_split.
  - intros v Hv. rewrite le_combine_split_small; [by apply command_of_to|].
    by apply command_to_Z_range.
  - intros l Hl. by apply command_of_Z_wf, le_combine_byte.
  - intros l Hl. rewrite command_to_of. by apply le_split_combine.
Qed.

Section pod_lemmas.
Context {T : Type} (p : pod T) {wf : T → Prop} `{!PodOk p wf}.

Lemma read_pod_write v t : wf v → read_pod p (pod_encode p v ++ t) = Some (v, t).
Proof.
  intros Hv. unfold read_pod. rewrite length_app, pod_length.
  rewrite (proj2 (Nat.ltb_ge _ _)) by lia.
  rewrite take_app_length', drop_app_length' by (by rewrite pod_length).
  by rewrite pod_round.
Qed.

Lemma read_pod_inv l v r :
  read_pod p l = Some (v, r) →
  l = pod_encode p v ++ r ∧ length l = (pod_sizeof p + length r)%nat ∧ wf v.
Proof.
  unfold read_pod. case_match eqn:Hlt; [done|]. intros [= <- <-].
  apply Nat.ltb_ge in Hlt. split_and!.
  - rewrite pod_encode_decode by (rewrite length_take; lia). by rewrite take_drop.
  - rewrite length_drop. lia.
  - apply pod_decode_wf. rewrite length_take. lia.
Qed.

Lemma read_pod_app l t v r :
  read_pod p l = Some (v, r) → read_pod p (l ++ t) = Some (v, r ++ t).
Proof.
  unfold read_pod. case_match eqn:Hlt; [done|]. intros [= <- <-].
  apply Nat.ltb_ge in Hlt. rewrite length_app, (proj2 (Nat.ltb_ge _ _)) by lia.
  by rewrite take_app_le, drop_app_le by done.
Qed.

Lemma read_pod_None l : read_pod p l = None ↔ (length l < pod_sizeof p)%nat.
Proof. unfold read_pod. case_match eqn:Hlt; [apply Nat.ltb_lt in Hlt|apply Nat.ltb_ge in Hlt]; naive_solver lia. Qed.
End pod_lemmas.

(** ** Entry lemmas *)

#[global] Arguments write_entry : simpl never.
#[global] Arguments read_entry : simpl never.

Lemma write_entry_app b kv : write_entry b kv = b ++ write_entry [] kv.
Proof. destruct kv as [k e]. unfold write_entry, write_pod. by rewrite <- !(assoc_L (++)). Qed.

Lemma foldl_write_entry l b : foldl write_entry b l = b ++ foldl write_entry [] l.
Proof.
  revert b. induction l as [|kv l IH]; intros b; simpl; [by rewrite app_nil_r|].
  rewrite IH, (IH (write_entry [] kv)), write_entry_app. by rewrite (assoc_L (++)).
Qed.

(** Reading chains are resolved one [read_pod] at a time. *)
Ltac read_pods :=
  repeat match goal with
  | |- context [read_pod ?p (pod_encode _ _ ++ _)] =>
      rewrite (read_pod_write p) by done; cbn [mbind option_bind]
  end.

Lemma read_write_entry k e t :
  log_item_wf k e →
  read_entry (write_entry [] (k, e) ++ t) = Some (k, strip_entry e, t).
Proof.
  intros (Hk & [Hv Ho Hc Hr] & Hp). unfold write_entry, write_pod, read_entry.
  rewrite app_nil_l, <- !(assoc_L (++)). read_pods.
  rewrite (proj2 (Z.ltb_ge _ _)) by (rewrite length_app; lia).
  rewrite Nat2Z.id, take_app_length, drop_app_length. by destruct e.
Qed.

(** Inverting a successful chain of reads. *)
Ltac destruct_reads H :=
  repeat (let E := fresh "E" in
    match type of H with
    | context [read_pod ?p ?l] => destruct (read_pod p l) as [[? ?]|] eqn:E; simpl in H; [|done]
    end).

Lemma read_entry_app l t k e r :
  read_entry l = Some (k, e, r) → read_entry (l ++ t) = Some (k, e, r ++ t).
Proof.
  unfold read_entry. intros H. destruct_reads H. case_match eqn:Hlt; [done|].
  repeat match goal with
  | E : read_pod ?p _ = Some _ |- _ => apply (read_pod_app p _ t) in E; rewrite E; clear E; simpl
  end.
  apply Z.ltb_ge in Hlt. rewrite (proj2 (Z.ltb_ge _ _)) by (rewrite length_app; lia).
  simplify_eq. by rewrite take_app_le, drop_app_le by lia.
Qed.

(** Each entry takes at least 41 bytes, and what it holds fits the types. *)
Lemma read_entry_inv l k e r :
  read_entry l = Some (k, e, r) →
  (41 + length r ≤ length l)%nat ∧ is_u64 k ∧ le_acks e = ∅ ∧ entry_wf e.
Proof.
  unfold read_entry. intros H. destruct_reads H. case_match eqn:Hlt; [done|].
  repeat match goal with E : read_pod ?p _ = Some _ |- _ =>
    apply (read_pod_inv p) in E as (_ & ? & ?) end.
  apply Z.ltb_ge in Hlt. simplify_eq. cbn [pod_sizeof uint64 uint32 uint128 pod_operation] in *.
  rewrite length_drop.
  split_and!; [lia|done|done|]. by split.
Qed.

(** ** Log lemmas *)

Lemma read_entries_fuel fuel fuel' i n ptr log :
  (length ptr < fuel)%nat → (length ptr < fuel')%nat →
  read_entries fuel i n ptr log = read_entries fuel' i n ptr log.
Proof.
  revert fuel' i ptr log. induction fuel as [|fuel IH]; intros [|fuel'] i ptr log H H'; try lia.
  simpl. destruct (i <? n); [|done].
  destruct (read_entry ptr) as [[[k e] r]|] eqn:He; [|done].
  apply read_entry_inv in He as [Hlen _]. apply IH; lia.
Qed.

Lemma read_entries_app fuel i n l t log r log' :
  read_entries fuel i n l log = (Some r, log') →
  read_entries fuel i n (l ++ t) log = (Some (r ++ t), log').
Proof.
  revert i l log. induction fuel as [|fuel IH]; intros i l log; simpl; destruct (i <? n); try done.
  1, 3: by intros [= <- <-].
  destruct (read_entry l) as [[[k e] r']|] eqn:He; [|done].
  intros H. by rewrite (read_entry_app _ t _ _ _ He), (IH _ _ _ H).
Qed.

Lemma read_write_entries fuel i n kvs t log :
  Forall (λ kv, log_item_wf kv.1 kv.2) kvs →
  (length kvs ≤ fuel)%nat → i + Z.of_nat (length kvs) = n →
  read_entries fuel i n (foldl write_entry [] kvs ++ t) log
  = (Some t, insert_all (prod_map id strip_entry <$> kvs) log).
Proof.
  intros Hwf. revert fuel i log. induction Hwf as [|[k e] kvs He _ IH]; simpl.
  { intros fuel i log _ Hi. destruct fuel; simpl; by rewrite (proj2 (Z.ltb_ge _ _)) by lia. }
  intros [|fuel] i log Hf Hi; [lia|]. simpl.
  rewrite (proj2 (Z.ltb_lt _ _)) by lia.
  rewrite foldl_write_entry, <- (assoc_L (++)), read_write_entry by done.
  rewrite IH by lia. done.
Qed.

Lemma length_foldl_write_entry kvs : (length kvs ≤ length (foldl write_entry [] kvs))%nat.
Proof.
  assert (∀ kv, 1 ≤ length (write_entry [] kv))%nat as Hpos.
  { intros [k e]. unfold write_entry, write_pod. rewrite !length_app.
    cbn [pod_encode uint64]. rewrite length_le_split. lia. }
  induction kvs as [|kv kvs IH]; simpl; [lia|].
  rewrite foldl_write_entry, length_app. specialize (Hpos kv). lia.
Qed.

Lemma write_log_app b log : write_log_to_buffer b log = b ++ write_log_to_buffer [] log.
Proof.
  unfold write_log_to_buffer. rewrite foldl_write_entry, (foldl_write_entry _ (write_pod _ [] _)).
  unfold write_pod. by rewrite <- !(assoc_L (++)).
Qed.

Lemma insert_all_strip log :
  insert_all (prod_map id strip_entry <$> items log) ∅ = strip_acks log.
Proof.
  rewrite insert_all_spec.
  - rewrite (right_id_L ∅ (∪)), (list_to_map_fmap (M:=gmap Z)). unfold strip_acks. f_equal. apply items_to_map.
  - rewrite <- list_fmap_compose. simpl. exact (items_nodup log).
Qed.

Lemma items_wf log : log_wf log → Forall (λ kv, log_item_wf kv.1 kv.2) (items log).
Proof.
  intros [_ Hwf]. apply Forall_forall. intros [k e] Hin%elem_of_items. by apply Hwf.
Qed.

Lemma read_write_log log t :
  log_wf log →
  read_log_from_buffer (write_log_to_buffer [] log ++ t) ∅ = (Some t, strip_acks log).
Proof.
  intros Hwf. unfold read_log_from_buffer, write_log_to_buffer.
  rewrite foldl_write_entry. unfold write_pod. rewrite app_nil_l, <- (assoc_L (++)).
  rewrite (read_pod_write uint64) by apply Hwf.
  rewrite read_write_entries.
  - by rewrite insert_all_strip.
  - by apply items_wf.
  - rewrite length_app. pose proof (length_foldl_write_entry (items log)). lia.
  - rewrite length_items. lia.
Qed.

Lemma read_log_app l t log r log' :
  read_log_from_buffer l log = (Some r, log') →
  read_log_from_buffer (l ++ t) log = (Some (r ++ t), log').
Proof.
  unfold read_log_from_buffer. destruct (read_pod uint64 l) as [[n p]|] eqn:Hr; [|done].
  rewrite (read_entries_fuel _ (S (length (p ++ t)))) by (rewrite ?length_app; lia).
  intros H. by rewrite (read_pod_app _ _ t _ _ Hr), (read_entries_app _ _ _ _ t _ _ _ H).
Qed.

Lemma read_log_acks l r log : read_log_from_buffer l ∅ = (r, log) → strip_acks log = log.
Proof.
  assert (∀ fuel i n l log r log', strip_acks log = log →
    read_entries fuel i n l log = (r, log') → strip_acks log' = log') as Hent.
  { induction fuel as [|fuel IH]; intros i n l' log0 r' log' Hs; simpl; destruct (i <? n).
    1, 2, 4: by intros [= <- <-].
    destruct (read_entry l') as [[[k e] p]|] eqn:He; [|by intros [= <- <-]].
    apply IH. apply read_entry_inv in He as (_ & _ & He & _).
    unfold strip_acks. rewrite fmap_insert. f_equal; [|exact Hs].
    destruct e; simpl in *; by subst. }
  unfold read_log_from_buffer. case_match; [|intros [= <- <-]; by apply fmap_empty].
  case_match. apply Hent. apply fmap_empty.
Qed.

Lemma read_entries_work fuel i n l log r log' :
  read_entries fuel i n l log = (r, log') → (41 * size log' ≤ 41 * size log + length l)%nat.
Proof.
  revert i l log. induction fuel as [|fuel IH]; intros i l log; simpl; destruct (i <? n).
  1, 2, 4: intros [= <- <-]; lia.
  destruct (read_entry l) as [[[k e] p]|] eqn:He; [|intros [= <- <-]; lia].
  intros H%IH. apply read_entry_inv in He as [Hlen _].
  assert (size (<[k:=e]> log) ≤ S (size log))%nat; [|lia].
  rewrite map_size_insert. case_match; unfold id; lia.
Qed.

(** *** Payloads *)

Section payloads.
Context (log : gmap Z log_entry) (Hlog : log_wf log).

Lemma read_write_whole_log : read_log_from_buffer (write_log_to_buffer [] log) ∅ = (Some [], strip_acks log).
Proof. pose proof (read_write_log log [] Hlog) as Hrw. by rewrite app_nil_r in Hrw. Qed.

Lemma dvc_round v v0 :
  is_u32 v →
  dvc_deserialize (dvc_serialize {| dvc_last_normal_view := v; dvc_log := log |})
    {| dvc_last_normal_view := v0; dvc_log := ∅ |}
  = (true, {| dvc_last_normal_view := v; dvc_log := strip_acks log |}).
Proof.
  intros Hv. unfold dvc_deserialize, dvc_serialize, write_pod. cbn [dvc_last_normal_view dvc_log].
  by rewrite app_nil_l, write_log_app, (read_pod_write uint32), read_write_whole_log.
Qed.

Lemma sv_round :
  sv_deserialize (sv_serialize {| sv_log := log |}) {| sv_log := ∅ |} = (true, {| sv_log := strip_acks log |}).
Proof. unfold sv_deserialize, sv_serialize. cbn [sv_log]. by rewrite read_write_whole_log. Qed.

Lemma rr_round nonce n0 :
  is_u128 nonce →
  rr_deserialize (rr_serialize {| rr_nonce := nonce; rr_log := log |}) {| rr_nonce := n0; rr_log := ∅ |}
  = (true, {| rr_nonce := nonce; rr_log := strip_acks log |}).
Proof.
  intros Hn. unfold rr_deserialize, rr_serialize, write_pod. cbn [rr_nonce rr_log].
  by rewrite app_nil_l, write_log_app, (read_pod_write uint128), read_write_whole_log.
Qed.
End payloads.

Lemma rq_round nonce m :
  is_u128 nonce → rq_deserialize (rq_serialize {| rq_nonce := nonce |}) m = (true, {| rq_nonce := nonce |}).
Proof.
  intros Hn. unfold rq_deserialize, rq_serialize, write_pod. cbn [rq_nonce].
  by rewrite app_nil_l, <- (app_nil_r (pod_encode _ _)), (read_pod_write uint128).
Qed.

(** ** Properties *)

(** Writing a log and reading it back, with anything after it in the buffer,
    consumes exactly the written bytes and yields the same log except that the
    acknowledgement sets, which are never written, come back empty. *)
Theorem log_roundtrip log t :
  log_wf log →
  read_log_from_buffer (write_log_to_buffer [] log ++ t) ∅ = (Some t, strip_acks log).
Proof. apply read_write_log. Qed.

(** C21: Each of the four payloads (DoViewChange, StartView, Recovery,
    RecoveryResponse) deserializes to what was serialized, logs losing their
    acknowledgement sets, whatever the declared target object held besides an
    empty log. *)
Theorem payloads_roundtrip v nonce log :
  is_u32 v → is_u128 nonce → log_wf log →
  (∀ v0, dvc_deserialize (dvc_serialize {| dvc_last_normal_view := v; dvc_log := log |})
     {| dvc_last_normal_view := v0; dvc_log := ∅ |}
   = (true, {| dvc_last_normal_view := v; dvc_log := strip_acks log |})) ∧
  sv_deserialize (sv_serialize {| sv_log := log |}) {| sv_log := ∅ |}
   = (true, {| sv_log := strip_acks log |}) ∧
  (∀ n0, rq_deserialize (rq_serialize {| rq_nonce := nonce |}) {| rq_nonce := n0 |}
   = (true, {| rq_nonce := nonce |})) ∧
  (∀ n0, rr_deserialize (rr_serialize {| rr_nonce := nonce; rr_log := log |})
     {| rr_nonce := n0; rr_log := ∅ |}
   = (true, {| rr_nonce := nonce; rr_log := strip_acks log |})).
Proof.
  intros Hv Hn Hlog. split_and!; intros;
    [by apply dvc_round|by apply sv_round|by apply rq_round|by apply rr_round].
Qed.

(** A serialized log that was cut short is always rejected: no proper prefix
    of the bytes of a log deserializes successfully. *)
Theorem truncated_log_rejected log l t :
  log_wf log → write_log_to_buffer [] log = l ++ t → t ≠ [] →
  (read_log_from_buffer l ∅).1 = None.
Proof.
  intros Hlog Heq Ht. destruct (read_log_from_buffer l ∅) as [[r|] log'] eqn:Hr; [|done].
  apply (read_log_app _ t) in Hr. rewrite <- Heq in Hr.
  pose proof (read_write_log log [] Hlog) as Hrw. rewrite app_nil_r in Hrw.
  rewrite Hrw in Hr. injection Hr as Hr _. by destruct (app_eq_nil _ _ (eq_sym Hr)).
Qed.

(** Reading a log terminates after at most one round per 41 bytes of input,
    whatever entry count the buffer announces: the loop gives the same result
    with every amount of fuel above the number of bytes left, and the log read
    never has more entries than [bytes / 41]. *)
Theorem read_log_work_bounded ptr n rest fuel :
  read_pod uint64 ptr = Some (n, rest) → (length rest < fuel)%nat →
  read_entries fuel 0 n rest ∅ = read_log_from_buffer ptr ∅ ∧
  (41 * size (read_log_from_buffer ptr ∅).2 ≤ length ptr)%nat.
Proof.
  intros Hr Hf. unfold read_log_from_buffer. rewrite Hr. split.
  - apply read_entries_fuel; lia.
  - destruct (read_entries _ _ _ _ _) as [r log'] eqn:He.
    apply read_entries_work in He. apply (read_pod_inv uint64) in Hr as (_ & Hlen & _).
    rewrite map_size_empty in He. simpl. lia.
Qed.

(** ** Witnesses *)

Definition sample_entry : log_entry := {|
  le_view := 7; le_op_type := operation.set; le_client_id := U128 3735928559 3405705229;
  le_request_num := 2; le_payload := lit "k v"; le_acks := {[0; 1]} |}.
Definition sample_log : gmap Z log_entry :=
  <[2 := sample_entry]> (<[1 := sample_entry <| le_request_num := 1 |>]> ∅).

Lemma sample_log_wf : log_wf sample_log.
Proof.
  split; [vm_compute; split; congruence|].
  intros k e Hk. apply elem_of_map_to_list in Hk. revert Hk.
  change (map_to_list sample_log) with (ltac:(let l := eval vm_compute in (map_to_list sample_log) in exact l)).
  intros [[= -> ->]|[[= -> ->]|[]%not_elem_of_nil]%elem_of_cons]%elem_of_cons;
    (split_and!; [|split|]); vm_compute; try done; split; done.
Qed.

Lemma log_roundtrip_witness :
  read_log_from_buffer (write_log_to_buffer [] sample_log ++ lit "tail") ∅
  = (Some (lit "tail"), strip_acks sample_log).
Proof. exact (log_roundtrip _ _ sample_log_wf). Defined.

Lemma payloads_roundtrip_witness :
  sv_deserialize (sv_serialize {| sv_log := sample_log |}) {| sv_log := ∅ |}
  = (true, {| sv_log := strip_acks sample_log |}).
Proof.
  refine (proj1 (proj2 (payloads_roundtrip 3 (U128 5 6) sample_log _ _ sample_log_wf)));
    vm_compute; try done; split; done.
Defined.

Lemma truncated_log_rejected_witness :
  (read_log_from_buffer (take 90 (write_log_to_buffer [] sample_log)) ∅).1 = None.
Proof.
  apply (truncated_log_rejected sample_log _ (drop 90 (write_log_to_buffer [] sample_log))
    sample_log_wf); [by rewrite take_drop|].
  vm_compute. discriminate.
Defined.

Lemma read_log_work_bounded_witness :
  (41 * size (read_log_from_buffer (le_split 8 (2 ^ 60)) ∅).2
   ≤ length (le_split 8 (2 ^ 60)))%nat.
Proof.
  apply (read_log_work_bounded (le_split 8 (2 ^ 60)) (2 ^ 60) [] 1); [reflexivity|]. simpl. lia.
Defined.
