(* ===== verification/Message.v ===== *)
(** * Messages on the wire

    [src/common/vsr_message.cpp] and [src/common/checksum.cpp]: the packed
    128-byte header, the two checksums, serialization and validated
    deserialization.  The BLAKE3 library is a parameter; the code relies on its
    output being [BLAKE3_OUT_LEN] = 32 bytes long. *)
From S2P Require Import Prelude Types Serialization.

(** [sizeof(vsr_header)]: the struct is packed. *)
Definition sizeof_header : nat := 128.

(** The object representation of a header, in declaration order. *)
Definition encode_header (h : vsr_header) : list byte :=
  pod_encode uint128 (h_checksum h) ++ pod_encode uint128 (h_checksum_body h) ++
  pod_encode uint128 (h_parent h) ++ pod_encode uint128 (h_client h) ++
  pod_encode uint128 (h_context h) ++
  pod_encode uint32 (h_size h) ++ pod_encode uint32 (h_request h) ++
  pod_encode uint32 (h_cluster h) ++ pod_encode uint32 (h_epoch h) ++
  pod_encode uint32 (h_view h) ++
  pod_encode uint64 (h_op h) ++ pod_encode uint64 (h_commit h) ++
  pod_encode uint64 (h_offset h) ++
  pod_encode uint8 (h_replica h) ++ pod_encode pod_command (h_command h) ++
  pod_encode pod_operation (h_operation h) ++ pod_encode uint8 (h_version h).

Definition read_header (ptr : list byte) : option (vsr_header * list byte) :=
  '(checksum, ptr) ← read_pod uint128 ptr;
  '(checksum_body, ptr) ← read_pod uint128 ptr;
  '(parent, ptr) ← read_pod uint128 ptr;
  '(client, ptr) ← read_pod uint128 ptr;
  '(context, ptr) ← read_pod uint128 ptr;
  '(size, ptr) ← read_pod uint32 ptr;
  '(request, ptr) ← read_pod uint32 ptr;
  '(cluster, ptr) ← read_pod uint32 ptr;
  '(epoch, ptr) ← read_pod uint32 ptr;
  '(view, ptr) ← read_pod uint32 ptr;
  '(op, ptr) ← read_pod uint64 ptr;
  '(commit, ptr) ← read_pod uint64 ptr;
  '(offset, ptr) ← read_pod uint64 ptr;
  '(replica, ptr) ← read_pod uint8 ptr;
  '(cmd, ptr) ← read_pod pod_command ptr;
  '(operation, ptr) ← read_pod pod_operation ptr;
  '(version, ptr) ← read_pod uint8 ptr;
  Some ({| h_checksum := checksum; h_checksum_body := checksum_body; h_parent := parent;
           h_client := client; h_context := context; h_size := size; h_request := request;
           h_cluster := cluster; h_epoch := epoch; h_view := view; h_op := op;
           h_commit := commit; h_offset := offset; h_replica := replica;
           h_command := cmd; h_operation := operation; h_version := version |}, ptr).

(** [std::memcpy(&header, data, sizeof(vsr_header))], used after a length check. *)
Definition memcpy_header (data : list byte) : vsr_header :=
  match read_header data with Some (h, _) => h | None => zero_header end.

Section checksum.
Variable blake3 : list byte → list byte.

Definition calculate_checksum_128 (data : list byte) : uint128_t :=
  pod_decode uint128 (take 16 (blake3 data)).

Definition calculate_and_set_body_checksum (m : vsr_message) : vsr_message :=
  m <| header := (header m) <| h_checksum_body :=
    match payload m with
    | [] => U128 0 0
    | _ => calculate_checksum_128 (payload m)
    end |> |>.

Definition calculate_and_set_header_checksum (m : vsr_message) : vsr_message :=
  let h := (header m) <| h_checksum := U128 0 0 |> in
  m <| header := h <| h_checksum := calculate_checksum_128 (encode_header h) |> |>.

Definition verify_body_checksum (m : vsr_message) : bool :=
  match payload m with
  | [] => (high (h_checksum_body (header m)) =? 0) && (low (h_checksum_body (header m)) =? 0)
  | _ => uint128_eqb (calculate_checksum_128 (payload m)) (h_checksum_body (header m))
  end.

Definition verify_header_checksum (m : vsr_message) : bool :=
  let header_copy := (header m) <| h_checksum := U128 0 0 |> in
  uint128_eqb (calculate_checksum_128 (encode_header header_copy)) (h_checksum (header m)).

(** The header fields [serialize] fills in before copying anything. *)
Definition prepare_message (m : vsr_message) : vsr_message :=
  let m := calculate_and_set_body_checksum m in
  let m := m <| header := (header m) <| h_size :=
    u32 (Z.of_nat sizeof_header + Z.of_nat (length (payload m))) |> |> in
  calculate_and_set_header_checksum m.

(** [vsr_message::serialize].  The buffer has [header.size] bytes, a 32-bit
    number; [None] is the case where that is not the size of what is copied into
    it, and the copy runs out of bounds. *)
Definition vsr_serialize (m : vsr_message) : option (list byte) :=
  let m := prepare_message m in
  let bytes := encode_header (header m) ++ payload m in
  if Z.of_nat (length bytes) =? h_size (header m) then Some bytes else None.

(** [vsr_message::deserialize]: the result and the message object afterwards. *)
Definition vsr_deserialize (data : list byte) (msg : vsr_message) : bool * vsr_message :=
  if (length data <? sizeof_header)%nat then (false, msg)
  else
    let msg := msg <| header := memcpy_header data |> in
    if negb (h_size (header msg) =? Z.of_nat (length data)) then (false, msg)
    else
      let payload_size := h_size (header msg) - Z.of_nat sizeof_header in
      let msg := if 0 <? payload_size
                 then msg <| payload := drop sizeof_header data |> else msg in
      if negb (verify_header_checksum msg) then (false, msg)
      else if negb (verify_body_checksum msg) then (false, msg)
      else (true, msg).
End checksum.

(** [vsr_message msg;] *)
Definition fresh_message : vsr_message := {| header := zero_header; payload := [] |}.

(** ** Header lemmas *)

Ltac app_norm := rewrite <- ?(assoc_L (++)).

Lemma length_encode_header h : length (encode_header h) = sizeof_header.
Proof.
  unfold encode_header. rewrite !length_app.
  rewrite !(pod_length (p := uint128)), !(pod_length (p := uint32)), !(pod_length (p := uint64)),
    !(pod_length (p := uint8)), (pod_length (p := pod_command)), (pod_length (p := pod_operation)).
  reflexivity.
Qed.

Lemma read_encode_header h t : header_wf h → read_header (encode_header h ++ t) = Some (h, t).
Proof.
  intros []. unfold read_header, encode_header. app_norm. read_pods. by destruct h.
Qed.

Lemma read_header_inv l h r :
  read_header l = Some (h, r) → header_wf h ∧ l = encode_header h ++ r.
Proof.
  unfold read_header. intros H. destruct_reads H. injection H as <- <-.
  repeat match goal with E : read_pod ?p _ = Some _ |- _ =>
    apply (read_pod_inv p) in E as (-> & _ & ?) end.
  split; [by split|]. unfold encode_header. by app_norm.
Qed.

Lemma read_header_Some l : (sizeof_header ≤ length l)%nat → is_Some (read_header l).
Proof.
  intros Hl. destruct (read_header l) as [|] eqn:H; [done|]. exfalso. revert H.
  unfold read_header.
  repeat match goal with
  | |- context [read_pod ?p ?l] =>
      let E := fresh "E" in
      destruct (read_pod p l) as [[? ?]|] eqn:E; cbn [mbind option_bind];
      [apply (read_pod_inv p) in E as (_ & E & _)
      |apply (read_pod_None p) in E]
  end; try done; intros _;
  cbn [pod_sizeof uint64 uint32 uint128 uint8 pod_operation pod_command] in *;
  unfold sizeof_header in *; lia.
Qed.

Lemma memcpy_header_spec data :
  (sizeof_header ≤ length data)%nat →
  header_wf (memcpy_header data) ∧
  data = encode_header (memcpy_header data) ++ drop sizeof_header data.
Proof.
  intros [[h r] Hr]%read_header_Some. unfold memcpy_header. rewrite Hr.
  apply read_header_inv in Hr as [Hwf ->]. split; [done|].
  by rewrite drop_app_length' by (by rewrite length_encode_header).
Qed.

(** ** Checksums, serialization and deserialization *)

Section message_lemmas.
Variable blake3 : list byte → list byte.
Hypothesis blake3_out_len : ∀ l, length (blake3 l) = 32%nat.

Lemma checksum_wf data : is_u128 (calculate_checksum_128 blake3 data).
Proof.
  apply (pod_decode_wf (p := uint128)). rewrite length_take, blake3_out_len. reflexivity.
Qed.

Lemma prepare_message_wf m : header_wf (header m) → header_wf (header (prepare_message blake3 m)).
Proof.
  intros []. unfold prepare_message, calculate_and_set_header_checksum,
    calculate_and_set_body_checksum.
  split; simpl; try done; try apply checksum_wf; try apply u32_range.
  case_match; [done|apply checksum_wf].
Qed.

Lemma verify_prepared m :
  verify_header_checksum blake3 (prepare_message blake3 m) = true ∧
  verify_body_checksum blake3 (prepare_message blake3 m) = true.
Proof.
  split.
  - unfold verify_header_checksum, prepare_message, calculate_and_set_header_checksum. simpl.
    by apply uint128_eqb_eq.
  - unfold verify_body_checksum, prepare_message, calculate_and_set_header_checksum. simpl.
    case_match eqn:Hp; rewrite ?Hp; [done|]. by apply uint128_eqb_eq.
Qed.

(** A message whose checksums verify and whose size field is right is a fixed
    point of [prepare_message]. *)
Lemma prepare_verified m :
  verify_header_checksum blake3 m = true → verify_body_checksum blake3 m = true →
  h_size (header m) = Z.of_nat sizeof_header + Z.of_nat (length (payload m)) →
  is_u32 (h_size (header m)) →
  prepare_message blake3 m = m.
Proof.
  intros Hh%uint128_eqb_eq Hb Hs Hu.
  assert (calculate_and_set_body_checksum blake3 m = m) as Hbody.
  { unfold verify_body_checksum, calculate_and_set_body_checksum in *.
    destruct m as [[? [bh bl] ? ? ? ? ? ? ? ? ? ? ? ? ? ? ?] p]. simpl in *. destruct p.
    - by apply andb_true_iff in Hb as [->%Z.eqb_eq ->%Z.eqb_eq].
    - apply uint128_eqb_eq in Hb. by rewrite Hb. }
  unfold prepare_message. rewrite Hbody. simpl.
  rewrite <- Hs, u32_small by done.
  destruct m as [[] p]. unfold calculate_and_set_header_checksum. simpl in *. by rewrite Hh.
Qed.

Lemma serialize_Some m :
  Z.of_nat sizeof_header + Z.of_nat (length (payload m)) < 2 ^ 32 →
  vsr_serialize blake3 m
  = Some (encode_header (header (prepare_message blake3 m)) ++ payload m).
Proof.
  intros Hsz. unfold vsr_serialize. cbv zeta.
  assert (payload (prepare_message blake3 m) = payload m) as Hp by done.
  rewrite Hp, length_app, length_encode_header.
  rewrite (proj2 (Z.eqb_eq _ _)); [done|].
  unfold prepare_message, calculate_and_set_header_checksum. simpl. unfold sizeof_header in *.
  rewrite u32_small by rlia. lia.
Qed.

Lemma serialize_inv m b :
  vsr_serialize blake3 m = Some b →
  b = encode_header (header (prepare_message blake3 m)) ++ payload m ∧
  Z.of_nat (length b) = h_size (header (prepare_message blake3 m)).
Proof.
  unfold vsr_serialize. cbv zeta. destruct (_ =? _) eqn:Hsz; [|done].
  intros [= <-]. by apply Z.eqb_eq in Hsz.
Qed.

Lemma deserialize_encoded h p :
  header_wf h → h_size h = Z.of_nat sizeof_header + Z.of_nat (length p) →
  verify_header_checksum blake3 {| header := h; payload := p |} = true →
  verify_body_checksum blake3 {| header := h; payload := p |} = true →
  vsr_deserialize blake3 (encode_header h ++ p) fresh_message
  = (true, {| header := h; payload := p |}).
Proof.
  intros Hwf Hs Hh Hb. unfold vsr_deserialize.
  rewrite length_app, length_encode_header, (proj2 (Nat.ltb_ge _ _)) by lia.
  rewrite Nat2Z.inj_add, <- Hs. unfold memcpy_header. rewrite read_encode_header by done.
  cbn [setf header payload fresh_message]. rewrite Z.eqb_refl, Hs. cbn [negb].
  rewrite drop_app_length' by (by rewrite length_encode_header).
  destruct p as [|b p].
  - rewrite (proj2 (Z.ltb_ge _ _)) by (simpl; lia). by rewrite Hh, Hb.
  - rewrite (proj2 (Z.ltb_lt _ _)) by (rewrite length_cons; lia). by rewrite Hh, Hb.
Qed.

Lemma deserialize_inv data m :
  vsr_deserialize blake3 data fresh_message = (true, m) →
  header_wf (header m) ∧ data = encode_header (header m) ++ payload m ∧
  h_size (header m) = Z.of_nat sizeof_header + Z.of_nat (length (payload m)) ∧
  verify_header_checksum blake3 m = true ∧ verify_body_checksum blake3 m = true.
Proof.
  unfold vsr_deserialize. case_match eqn:Hlen; [done|]. apply Nat.ltb_ge in Hlen.
  destruct (memcpy_header_spec data Hlen) as [Hwf Heq].
  set (msg := fresh_message <| header := memcpy_header data |>).
  set (msg' := if 0 <? _ then _ else _).
  case_match eqn:Hsz; [done|]. apply negb_false_iff, Z.eqb_eq in Hsz.
  assert (msg' = {| header := memcpy_header data; payload := drop sizeof_header data |}) as ->.
  { unfold msg'. case_match eqn:Hpos; [done|]. apply Z.ltb_ge in Hpos.
    rewrite drop_ge by (rewrite Hsz in Hpos; lia). done. }
  case_match eqn:Hh; [done|]. case_match eqn:Hb; [done|].
  apply negb_false_iff in Hh, Hb. intros [= <-]. simpl in *.
  split_and!; try done. rewrite Hsz, length_drop. lia.
Qed.
End message_lemmas.

(** ** Properties *)

(** C20: A message that fits the 32-bit size field survives the wire: serializing
    succeeds, and deserializing the bytes succeeds and yields the same message
    with its size and its two checksums filled in. *)
Theorem message_roundtrip (blake3 : list byte → list byte) m :
  (∀ l, length (blake3 l) = 32%nat) → header_wf (header m) →
  Z.of_nat sizeof_header + Z.of_nat (length (payload m)) < 2 ^ 32 →
  ∃ bytes, vsr_serialize blake3 m = Some bytes ∧
    vsr_deserialize blake3 bytes fresh_message = (true, prepare_message blake3 m).
Proof.
  intros Hlen Hwf Hsz. eexists. split; [by apply serialize_Some|].
  destruct (verify_prepared blake3 m) as [Hh Hb].
  assert (prepare_message blake3 m
    = {| header := header (prepare_message blake3 m); payload := payload m |}) as Heq by done.
  rewrite Heq in Hh, Hb |- * at 2. apply deserialize_encoded; try done.
  - by apply prepare_message_wf.
  - unfold prepare_message, calculate_and_set_header_checksum. simpl. rewrite u32_small; [done|].
    unfold_ranges. lia.
Qed.

(** C11: Deserialization accepts nothing but serializations: if bytes are accepted
    as the message [m], then serializing [m] gives exactly those bytes back, so
    every byte of an accepted buffer is accounted for by a field, a checksum that
    verified or the payload. *)
Theorem deserialize_sound (blake3 : list byte → list byte) data m :
  vsr_deserialize blake3 data fresh_message = (true, m) →
  vsr_serialize blake3 m = Some data ∧ header_wf (header m).
Proof.
  intros (Hwf & Hdata & Hs & Hh & Hb)%deserialize_inv. split; [|done].
  pose proof (wf_size _ Hwf) as Hu.
  rewrite serialize_Some by (rewrite <- Hs; apply Hu).
  by rewrite (prepare_verified blake3 m), Hdata.
Qed.

(** Two serialized messages in one buffer are rejected as a whole: a receiver
    that hands a coalesced read to [deserialize] loses both messages. *)
Theorem coalesced_rejected (blake3 : list byte → list byte) m1 m2 b1 b2 :
  header_wf (header m1) → (∀ l, length (blake3 l) = 32%nat) →
  vsr_serialize blake3 m1 = Some b1 → vsr_serialize blake3 m2 = Some b2 →
  (vsr_deserialize blake3 (b1 ++ b2) fresh_message).1 = false.
Proof.
  intros Hwf Hlen Hb1 Hb2.
  destruct (vsr_deserialize blake3 (b1 ++ b2) fresh_message) as [[] m] eqn:Hd; [|done].
  apply deserialize_inv in Hd as (Hwf' & Hdata & Hs & _).
  apply serialize_inv in Hb1 as [Heq1 Hsz1], Hb2 as [Heq2 _].
  assert (sizeof_header ≤ length b2)%nat as Hb2 by (rewrite Heq2, length_app, length_encode_header; lia).
  clear Heq2.
  pose proof (prepare_message_wf blake3 Hlen m1 Hwf) as Hp1.
  rewrite Heq1, <- (assoc_L (++)) in Hdata.
  generalize dependent (header (prepare_message blake3 m1)). intros h1 Heq1 Hsz1 Hdata Hp1.
  apply (f_equal read_header) in Hdata. rewrite !read_encode_header in Hdata by done.
  injection Hdata as Hhd Hp. rewrite Hhd, Hs, <- Hp, Heq1 in Hsz1.
  rewrite !length_app, length_encode_header in Hsz1. unfold sizeof_header in *. lia.
Qed.

(** ** Witnesses: a concrete hash with 32-byte output *)

Definition toy_hash (l : list byte) : list byte :=
  le_split 32 (Z.of_nat (length l) + 257 * le_combine l).

Lemma toy_hash_len l : length (toy_hash l) = 32%nat.
Proof. apply length_le_split. Qed.

Definition sample_message : vsr_message := {|
  header := zero_header <| h_client := U128 3735928559 3405705229 |> <| h_request := 1 |>
    <| h_command := command.request |> <| h_operation := operation.set |>;
  payload := lit "k v" |}.

Lemma sample_message_wf : header_wf (header sample_message).
Proof. split; vm_compute; try done; split; done. Qed.

Lemma message_roundtrip_witness :
  ∃ bytes, vsr_serialize toy_hash sample_message = Some bytes ∧
    vsr_deserialize toy_hash bytes fresh_message
    = (true, prepare_message toy_hash sample_message).
Proof.
  apply (message_roundtrip toy_hash sample_message toy_hash_len sample_message_wf).
  reflexivity.
Defined.

Lemma deserialize_sound_witness :
  vsr_serialize toy_hash (prepare_message toy_hash sample_message)
  = Some (encode_header (header (prepare_message toy_hash sample_message))
            ++ payload sample_message).
Proof. refine (proj1 (deserialize_sound toy_hash _ _ _)). vm_compute. reflexivity. Defined.

Lemma coalesced_rejected_witness :
  let b := encode_header (header (prepare_message toy_hash sample_message))
             ++ payload sample_message in
  (vsr_deserialize toy_hash (b ++ b) fresh_message).1 = false.
Proof.
  apply (coalesced_rejected toy_hash sample_message sample_message _ _
    sample_message_wf toy_hash_len); vm_compute; reflexivity.
Defined.
