(* ===== verification/KeyValue.v ===== *)
(** * The replicated key-value state machine

    The operation interpreter inside [Replica::execute_commited_ops]
    ([src/server/replica.cpp], lines 651-663) and the payload format of the
    client ([src/client/client_main.cpp], lines 146-169).  Formatted extraction
    [ss >> s] from a [std::stringstream] is modelled by [extract]. *)
From S2P Require Import Prelude Types.

(** ** [std::istream >> std::string]

    Leading white space is skipped; the characters up to the next white space
    are extracted; at the end of the input the stream fails and the target string
    is left as it was. *)

Definition isspace (c : byte) : bool :=
  match c with
  | Byte.x09 | Byte.x0a | Byte.x0b | Byte.x0c | Byte.x0d | Byte.x20 => true
  | _ => false
  end.

Fixpoint skip_ws (s : list byte) : list byte :=
  match s with
  | c :: s' => if isspace c then skip_ws s' else s
  | [] => []
  end.

Fixpoint word (s : list byte) : list byte * list byte :=
  match s with
  | c :: s' => if isspace c then ([], s) else let '(w, r) := word s' in (c :: w, r)
  | [] => ([], [])
  end.

(** One extraction into a variable holding [old]: its new value and the stream. *)
Definition extract (s old : list byte) : list byte * list byte :=
  match skip_ws s with
  | [] => (old, [])
  | s' => word s'
  end.

(** ** One operation on the store *)

Definition apply_operation (op_type : operation.t) (payload : list byte)
    (sm : gmap (list byte) (list byte)) : gmap (list byte) (list byte) * list byte :=
  match op_type with
  | operation.set =>
      let '(key, ss) := extract payload [] in
      let '(value, _) := extract ss [] in
      (<[key := value]> sm, lit "SET " ++ key ++ lit "=" ++ value)
  | operation.get =>
      let '(key, _) := extract payload [] in
      (sm, match sm !! key with Some v => v | None => lit "NOT_FOUND" end)
  | _ => (sm, [])
  end.

(** The payloads the client builds for [get <key>] and [set <key> <value>]. *)
Definition get_payload (key : list byte) : list byte := key.
Definition set_payload (key value : list byte) : list byte := key ++ lit " " ++ value.

(** What the client can put in a payload: the result of an extraction, that is a
    non-empty string without white space. *)
Definition is_token (s : list byte) : Prop := s ≠ [] ∧ Forall (λ c, isspace c = false) s.

(** ** Lemmas *)

Lemma word_token w r :
  Forall (λ c, isspace c = false) w →
  match r with [] => True | c :: _ => isspace c = true end → word (w ++ r) = (w, r).
Proof.
  intros Hw Hr. induction Hw as [|c w Hc _ IH]; simpl.
  - destruct r; simpl; [done|]. by rewrite Hr.
  - by rewrite Hc, IH.
Qed.

Lemma skip_ws_token w r : is_token w → skip_ws (w ++ r) = w ++ r.
Proof. intros [Hne Hw]. destruct Hw as [|c w Hc]; [done|]. simpl. by rewrite Hc. Qed.

Lemma extract_token w r old :
  is_token w → match r with [] => True | c :: _ => isspace c = true end →
  extract (w ++ r) old = (w, r).
Proof.
  intros Hw Hr. unfold extract. rewrite skip_ws_token by done.
  destruct Hw as [Hne Hw]. pose proof (word_token w r Hw Hr) as E. by destruct w.
Qed.

Lemma extract_last w old : is_token w → extract w old = (w, []).
Proof. intros Hw. rewrite <- (app_nil_r w) at 1. by apply extract_token. Qed.

Lemma extract_space_token w old : is_token w → extract (lit " " ++ w) old = (w, []).
Proof. intros Hw. unfold extract. simpl. exact (extract_last w old Hw). Qed.

Lemma apply_set key value sm :
  is_token key → is_token value →
  apply_operation operation.set (set_payload key value) sm
  = (<[key := value]> sm, lit "SET " ++ key ++ lit "=" ++ value).
Proof.
  intros Hk Hv. unfold apply_operation, set_payload.
  by rewrite extract_token, extract_space_token.
Qed.

Lemma apply_get key sm :
  is_token key →
  apply_operation operation.get (get_payload key) sm
  = (sm, default (lit "NOT_FOUND") (sm !! key)).
Proof. intros Hk. unfold apply_operation, get_payload. by rewrite extract_last. Qed.

(** ** Properties *)

(** What the client sends is what the store does: after the payload of
    [set k v] is executed, executing the payload of [get k] returns [v], every
    other key reads as before, and reads leave the store unchanged. *)
Theorem set_get_payload k v k' sm :
  is_token k → is_token v → is_token k' →
  let sm' := (apply_operation operation.set (set_payload k v) sm).1 in
  apply_operation operation.get (get_payload k) sm' = (sm', v) ∧
  (k' ≠ k → (apply_operation operation.get (get_payload k') sm').2
            = (apply_operation operation.get (get_payload k') sm).2).
Proof.
  intros Hk Hv Hk'. rewrite apply_set by done. cbn [fst]. rewrite !apply_get by done. split.
  - by rewrite lookup_insert_eq.
  - intros Hne. simpl. by rewrite lookup_insert_ne.
Qed.

Lemma set_get_payload_witness :
  let sm := (apply_operation operation.set (set_payload (lit "lang") (lit "c++")) ∅).1 in
  apply_operation operation.get (get_payload (lit "lang")) sm = (sm, lit "c++").
Proof.
  apply (set_get_payload (lit "lang") (lit "c++") (lit "x") ∅);
    (split; [done|repeat constructor]).
Defined.
