(* ===== verification/ReplicaState.v ===== *)
(** * The state of one replica

    [src/server/replica_state.hpp]: class [ReplicaState] with its constructor,
    the two ways of computing a view's primary and [enter_new_view]. *)
From S2P Require Import Prelude Types.

Module ReplicaStatus.
Inductive t := NORMAL | VIEW_CHANGE | RECOVERY.
End ReplicaStatus.

#[export] Instance replica_status_eq_dec : EqDecision ReplicaStatus.t.
Proof. solve_decision. Defined.

Record peer_config := { pc_id : Z; pc_host : list byte; pc_port : Z }.

Record ReplicaState := {
  id_ : Z;
  fault_tolerance_f_ : Z;
  cluster_config_ : gmap Z peer_config;
  status_ : ReplicaStatus.t;
  view_ : Z;
  op_ : Z;
  commit_ : Z;
  last_executed_op_ : Z;
  log_ : gmap Z log_entry;
  client_table_ : gmap uint128_t client_table_entry;
  state_machine_ : gmap (list byte) (list byte);
  recovery_nonce_ : uint128_t;
  recovery_responses_ : list vsr_message;
  last_normal_view_ : Z;
  start_view_change_received_ : gset Z;
  do_view_change_received_ : list vsr_message }.

#[export] Instance ReplicaState_eta : Settable ReplicaState :=
  λ s, Build_ReplicaState (id_ s) (fault_tolerance_f_ s) (cluster_config_ s) (status_ s)
    (view_ s) (op_ s) (commit_ s) (last_executed_op_ s) (log_ s) (client_table_ s)
    (state_machine_ s) (recovery_nonce_ s) (recovery_responses_ s) (last_normal_view_ s)
    (start_view_change_received_ s) (do_view_change_received_ s).

(** The constructor: [fault_tolerance_f_((config.size() - 1) / 2)] is computed on
    [size_t] and converted to [int]; later peers with an equal id win. *)
Definition new_replica_state (id : Z) (config : list peer_config) : ReplicaState := {|
  id_ := id;
  fault_tolerance_f_ := i32 (u64 (Z.of_nat (length config) - 1) / 2);
  cluster_config_ := foldl (λ m peer, <[pc_id peer := peer]> m) ∅ config;
  status_ := ReplicaStatus.NORMAL;
  view_ := 0; op_ := 0; commit_ := 0; last_executed_op_ := 0;
  log_ := ∅; client_table_ := ∅; state_machine_ := ∅;
  recovery_nonce_ := U128 0 0; recovery_responses_ := [];
  last_normal_view_ := 0;
  start_view_change_received_ := ∅; do_view_change_received_ := [] |}.

(** [view_ % (2 * fault_tolerance_f_ + 1)]: the [int] divisor is converted to
    [uint32_t], the remainder back to [int]. *)
Definition get_primary_id (s : ReplicaState) : Z :=
  i32 (view_ s mod u32 (2 * fault_tolerance_f_ s + 1)).

Definition is_primary (s : ReplicaState) : bool := id_ s =? get_primary_id s.

Definition enter_new_view (new_view : Z) (s : ReplicaState) : ReplicaState :=
  let s := if bool_decide (status_ s = ReplicaStatus.NORMAL)
           then s <| last_normal_view_ := view_ s |> else s in
  s <| view_ := new_view |>
    <| status_ := ReplicaStatus.VIEW_CHANGE |>
    <| start_view_change_received_ := {[id_ s]} |>
    <| do_view_change_received_ := [] |>.

Definition get_primary_id_for_view (view_num : Z) (s : ReplicaState) : Z :=
  let cluster_size := Z.of_nat (size (cluster_config_ s)) in
  if cluster_size =? 0 then -1 else i32 (view_num mod cluster_size).

(** [container.size() >= fault_tolerance_f_ + 1], compared as [size_t]. *)
Definition quorum (n : nat) (s : ReplicaState) : bool :=
  u64 (fault_tolerance_f_ s + 1) <=? Z.of_nat n.

(** The cluster of [src/server/server_main.cpp]. *)
Definition main_cluster_config : list peer_config := [
  {| pc_id := 0; pc_host := lit "localhost"; pc_port := 8080 |};
  {| pc_id := 1; pc_host := lit "localhost"; pc_port := 8081 |};
  {| pc_id := 2; pc_host := lit "localhost"; pc_port := 8082 |}].

(** ** Cluster arithmetic *)

Lemma cluster_config_size id config :
  NoDup (pc_id <$> config) → size (cluster_config_ (new_replica_state id config)) = length config.
Proof.
  simpl.
  assert (∀ l (m : gmap Z peer_config), NoDup (pc_id <$> l) → (∀ p, p ∈ l → m !! pc_id p = None) →
    size (foldl (λ m peer, <[pc_id peer := peer]> m) m l) = (size m + length l)%nat) as Hgen.
  { induction l as [|p l IH]; intros m; simpl; [lia|].
    intros [Hp Hnd]%NoDup_cons Hm. rewrite IH; [|done|].
    - rewrite map_size_insert_None by (apply Hm; set_solver). lia.
    - intros q Hq. rewrite lookup_insert_ne; [apply Hm; set_solver|].
      intros Heq. apply Hp. apply list_elem_of_fmap. eauto. }
  intros Hnd. rewrite Hgen; [by rewrite map_size_empty|done|]. intros p _. apply lookup_empty.
Qed.

Lemma fault_tolerance_value id config :
  (0 < length config)%nat → Z.of_nat (length config) < 2 ^ 31 →
  fault_tolerance_f_ (new_replica_state id config) = (Z.of_nat (length config) - 1) / 2.
Proof.
  intros H0 H1. simpl. rewrite u64_small by rlia.
  pose proof (Z.div_pos (Z.of_nat (length config) - 1) 2).
  pose proof (Z.div_le_upper_bound (Z.of_nat (length config) - 1) 2 (2 ^ 31 - 1)).
  rewrite i32_small; lia.
Qed.

Lemma quorum_value id config n :
  (0 < length config)%nat → Z.of_nat (length config) < 2 ^ 31 →
  quorum n (new_replica_state id config) = true ↔
  (Z.of_nat (length config) - 1) / 2 + 1 ≤ Z.of_nat n.
Proof.
  intros H0 H1. unfold quorum. rewrite fault_tolerance_value by done.
  pose proof (Z.div_pos (Z.of_nat (length config) - 1) 2).
  pose proof (Z.div_le_upper_bound (Z.of_nat (length config) - 1) 2 (2 ^ 31 - 1)).
  rewrite u64_small by rlia. apply Z.leb_le.
Qed.

Lemma half_odd n : 0 < n → Z.odd n = true → 2 * ((n - 1) / 2) + 1 = n.
Proof.
  intros H0 Hodd. apply Zodd_bool_iff, Zodd_ex_iff in Hodd as [m ->].
  replace (2 * m + 1 - 1) with (m * 2) by lia. rewrite Z.div_mul by lia. lia.
Qed.

Lemma half_even n : 0 < n → Z.odd n = false → 2 * ((n - 1) / 2) + 2 = n.
Proof.
  intros H0 Hodd. rewrite <- Z.negb_even, negb_false_iff in Hodd.
  apply Zeven_bool_iff, Zeven_ex_iff in Hodd as [m ->].
  replace (2 * m - 1) with (1 + (m - 1) * 2) by lia. rewrite Z.div_add by lia. simpl.
  rewrite Z.div_small by lia. lia.
Qed.

(** ** Properties *)

(** The two ways of computing the primary of a view, [get_primary_id] modulo
    [2f + 1] and [get_primary_id_for_view] modulo the cluster size, agree on every
    view exactly when the cluster has an odd number of replicas. *)
Theorem primaries_agree_iff_odd id config :
  NoDup (pc_id <$> config) → (0 < length config)%nat → Z.of_nat (length config) < 2 ^ 31 →
  (∀ v, is_u32 v →
     let s := (new_replica_state id config) <| view_ := v |> in
     get_primary_id s = get_primary_id_for_view v s) ↔
  Z.odd (Z.of_nat (length config)) = true.
Proof.
  intros Hnd H0 H1.
  assert (∀ v, get_primary_id ((new_replica_state id config) <| view_ := v |>)
    = i32 (v mod (2 * ((Z.of_nat (length config) - 1) / 2) + 1))) as Hp.
  { intros v. unfold get_primary_id. cbn [view_ setf fault_tolerance_f_].
    rewrite (fault_tolerance_value id) by done. rewrite u32_small; [done|].
    pose proof (Z.div_pos (Z.of_nat (length config) - 1) 2).
    pose proof (Z.mul_div_le (Z.of_nat (length config) - 1) 2). rlia. }
  assert (∀ v, get_primary_id_for_view v ((new_replica_state id config) <| view_ := v |>)
    = i32 (v mod Z.of_nat (length config))) as Hq.
  { intros v. unfold get_primary_id_for_view.
    change (cluster_config_ (_ <| view_ := v |>)) with (cluster_config_ (new_replica_state id config)).
    rewrite cluster_config_size by done. by rewrite (proj2 (Z.eqb_neq _ _)) by lia. }
  split.
  - intros Hall. destruct (Z.odd _) eqn:Hodd; [done|]. exfalso.
    pose proof (half_even (Z.of_nat (length config)) ltac:(lia) Hodd) as Hev.
    specialize (Hall (Z.of_nat (length config) - 1) ltac:(rlia)). cbv zeta in Hall.
    rewrite Hp, Hq in Hall. rewrite (Z.mod_small _ (Z.of_nat (length config))) in Hall by lia.
    replace (2 * ((Z.of_nat (length config) - 1) / 2) + 1) with (Z.of_nat (length config) - 1)
      in Hall by lia.
    rewrite Z.mod_same in Hall by lia. rewrite !i32_small in Hall by lia. lia.
  - intros Hodd v _. cbv zeta. rewrite Hp, Hq, half_odd; [done|lia|done].
Qed.

(** C22: With the quorum size [f + 1] and [f = (n - 1) / 2], any two quorums of the
    cluster share a replica exactly when the cluster size [n] is odd; an even-sized
    cluster has two disjoint quorums. *)
Theorem quorums_intersect_iff_odd id config :
  NoDup (pc_id <$> config) → (0 < length config)%nat → Z.of_nat (length config) < 2 ^ 31 →
  let s := new_replica_state id config in
  let ids : gset Z := list_to_set (pc_id <$> config) in
  (∀ A B, A ⊆ ids → B ⊆ ids → quorum (size A) s = true → quorum (size B) s = true →
     A ∩ B ≠ ∅) ↔
  Z.odd (Z.of_nat (length config)) = true.
Proof.
  intros Hnd H0 H1 s ids.
  assert (size ids = length config) as Hids.
  { unfold ids. by rewrite size_list_to_set, length_fmap by done. }
  split.
  - intros Hall. destruct (Z.odd _) eqn:Hodd; [done|]. exfalso.
    pose proof (half_even (Z.of_nat (length config)) ltac:(lia) Hodd) as Hev.
    set (h := Z.to_nat ((Z.of_nat (length config) - 1) / 2 + 1)).
    assert (Z.of_nat h = (Z.of_nat (length config) - 1) / 2 + 1) as Hh by lia.
    set (l := pc_id <$> config) in *.
    assert (length l = length config) as Hl by apply length_fmap.
    pose proof Hnd as Hnd'. rewrite <- (take_drop h l) in Hnd'.
    apply NoDup_app in Hnd' as (Hn1 & Hdis & Hn2).
    apply (Hall (list_to_set (take h l)) (list_to_set (drop h l))).
    + intros x. unfold ids. rewrite !elem_of_list_to_set. intros Hx.
      rewrite <- (take_drop h l). apply elem_of_app. by left.
    + intros x. unfold ids. rewrite !elem_of_list_to_set. intros Hx.
      rewrite <- (take_drop h l). apply elem_of_app. by right.
    + apply quorum_value; [done|done|]. rewrite size_list_to_set, length_take by done. lia.
    + apply quorum_value; [done|done|]. rewrite size_list_to_set, length_drop by done. lia.
    + apply set_eq. intros x. rewrite elem_of_intersection, !elem_of_list_to_set.
      split; [|set_solver]. intros [Hx1 Hx2]. by apply Hdis in Hx1.
  - intros Hodd A B HA HB HqA HqB Hemp. apply quorum_value in HqA, HqB; [|done..].
    pose proof (half_odd (Z.of_nat (length config)) ltac:(lia) Hodd) as Hhalf.
    assert (A ## B) as Hdis by set_solver.
    pose proof (size_union A B Hdis) as Hsz.
    assert (size (A ∪ B) ≤ size ids)%nat as Hle by (apply subseteq_size; set_solver). lia.
Qed.

(** ** Witnesses *)

Lemma main_cluster_nodup : NoDup (pc_id <$> main_cluster_config).
Proof. simpl. repeat constructor; set_solver. Qed.

Lemma primaries_agree_iff_odd_witness :
  let s := (new_replica_state 0 main_cluster_config) <| view_ := 5 |> in
  get_primary_id s = get_primary_id_for_view 5 s.
Proof.
  apply (proj2 (primaries_agree_iff_odd 0 main_cluster_config main_cluster_nodup
    ltac:(simpl; lia) ltac:(reflexivity))); [reflexivity|]. split; vm_compute; congruence.
Defined.

Lemma quorums_intersect_iff_odd_witness :
  ({[0; 1]} : gset Z) ∩ {[1; 2]} ≠ ∅.
Proof.
  apply (proj2 (quorums_intersect_iff_odd 0 main_cluster_config main_cluster_nodup
    ltac:(simpl; lia) ltac:(reflexivity))); first [reflexivity | simpl; set_solver].
Defined.
