(* ===== verification/Replica.v ===== *)
(** * The replica: message handlers and the message queue

    [src/server/replica.hpp] and [src/server/replica.cpp].  A handler takes the
    replica and returns the replica afterwards together with the messages it
    handed to the [ProtocolHandler], in order.  Console output is not modelled.
    The readings of the clocks and the content of uninitialised memory come from
    the environment [Env]; the last three fields of [Replica] count the queue
    processing tasks posted to the event loop that have not run yet, the clock
    readings so far, and the calls of the nonce generator. *)
From S2P Require Import Prelude Types Serialization KeyValue ReplicaState.

(** A [std::shared_ptr<TcpConnection>]: [None] is [nullptr]. *)
Abbreviation conn := (option Z).

Record inbound_message := { ib_connection : conn; ib_message : vsr_message }.

Module StateAction.
Inductive t := PROCESS_NORMALLY | INITIATE_VIEW_CHANGE | INITIATE_RECOVERY.
End StateAction.

Record Replica := {
  state_ : ReplicaState;
  last_primary_contact_ : Z;
  client_connections_ : gmap uint128_t conn;
  message_queue_ : list inbound_message;
  posted : nat;
  clock_reads : nat;
  nonce_counter : Z }.

#[export] Instance Replica_eta : Settable Replica :=
  λ r, Build_Replica (state_ r) (last_primary_contact_ r) (client_connections_ r)
    (message_queue_ r) (posted r) (clock_reads r) (nonce_counter r).

(** Calls to [ProtocolHandler]. *)
Inductive output :=
  | send_message (connection : conn) (msg : vsr_message)
  | send_to_peer (peer_id : Z) (msg : vsr_message)
  | broadcast_to_peers (msg : vsr_message).

(** The environment: the n-th readings of [steady_clock::now()] (nanoseconds) and
    of [clock_gettime], and the value found in an uninitialised integer. *)
Record Env := { steady_now : nat → Z; raw_ts : nat → Z * Z; garbage : Z }.

(** [const std::chrono::milliseconds primary_timeout_{2000}] *)
Definition primary_timeout_ : Z := 2000.

Definition new_replica (id : Z) (cluster_config : list peer_config) : Replica := {|
  state_ := new_replica_state id cluster_config;
  last_primary_contact_ := 0; client_connections_ := ∅; message_queue_ := [];
  posted := 0; clock_reads := 0; nonce_counter := 0 |}.

Section Replica.
Context (env : Env).

(** [last_primary_contact_ = std::chrono::steady_clock::now()] *)
Definition touch_primary_contact (r : Replica) : Replica :=
  r <| last_primary_contact_ := steady_now env (clock_reads r) |>
    <| clock_reads := S (clock_reads r) |>.

(** [state_.client_table_[client]], inserting the default entry if needed. *)
Definition client_entry (client : uint128_t) (s : ReplicaState) : client_table_entry :=
  default default_client_entry (client_table_ s !! client).
Definition set_client_entry (client : uint128_t) (e : client_table_entry) (s : ReplicaState)
    : ReplicaState :=
  s <| client_table_ := <[client := e]> (client_table_ s) |>.

(** ** Execution *)

(** The reply of a primary to a client whose connection it knows. *)
Definition reply_outputs (r : Replica) (s : ReplicaState) (entry : log_entry)
    (res : list byte) : list output :=
  if is_primary s then
    match client_connections_ r !! le_client_id entry with
    | Some (Some c) =>
        [send_message (Some c) {|
           header := zero_header <| h_command := command.reply |>
             <| h_view := view_ s |> <| h_client := le_client_id entry |>
             <| h_request := le_request_num entry |>;
           payload := res |}]
    | _ => []
    end
  else [].

(** The loop body for the entry found at [op_to_execute]. *)
Definition execute_op (op_to_execute : Z) (entry : log_entry) (r : Replica)
    : Replica * list output :=
  let s := state_ r in
  let ce := client_entry (le_client_id entry) s in
  let '(s, out) :=
    if negb (request_number ce =? le_request_num entry) || negb (executed ce) then
      let '(sm, res) := apply_operation (le_op_type entry) (le_payload entry) (state_machine_ s) in
      let s := s <| state_machine_ := sm |> in
      let s := set_client_entry (le_client_id entry)
                 {| request_number := le_request_num entry; executed := true; result := res |} s in
      (s, reply_outputs r s entry res)
    else (set_client_entry (le_client_id entry) ce s, []) in
  (r <| state_ := s <| last_executed_op_ := op_to_execute |> |>, out).

(** [while (last_executed_op_ < commit_)].  Every round executes another entry of
    the log, so the size of the log bounds the rounds. *)
Fixpoint execute_loop (fuel : nat) (r : Replica) : Replica * list output :=
  match fuel with
  | O => (r, [])
  | S fuel =>
      if last_executed_op_ (state_ r) <? commit_ (state_ r) then
        let op_to_execute := u64 (last_executed_op_ (state_ r) + 1) in
        match log_ (state_ r) !! op_to_execute with
        | None => (r, [])
        | Some entry =>
            let '(r, out) := execute_op op_to_execute entry r in
            let '(r, out') := execute_loop fuel r in
            (r, out ++ out')
        end
      else (r, [])
  end.

Definition execute_commited_ops (r : Replica) : Replica * list output :=
  execute_loop (S (size (log_ (state_ r)))) r.

(** The [while (true)] of [advance_primary_commit_number], on the commit number. *)
Fixpoint advance_loop (fuel : nat) (s : ReplicaState) : ReplicaState :=
  match fuel with
  | O => s
  | S fuel =>
      let next_op_to_commit := u64 (commit_ s + 1) in
      match log_ s !! next_op_to_commit with
      | None => s
      | Some entry =>
          if negb (quorum (size (le_acks entry)) s) then s
          else advance_loop fuel (s <| commit_ := next_op_to_commit |>)
      end
  end.

Definition advance_primary_commit_number (r : Replica) : Replica * list output :=
  if negb (is_primary (state_ r)) then (r, [])
  else
    execute_commited_ops
      (r <| state_ := advance_loop (S (size (log_ (state_ r)))) (state_ r) |>).

(** ** View change and recovery initiation *)

Definition initiate_view_change (r : Replica) : Replica * list output :=
  let s := enter_new_view (u32 (view_ (state_ r) + 1)) (state_ r) in
  (r <| state_ := s |>,
   [broadcast_to_peers {|
      header := zero_header <| h_command := command.start_view_change |>
        <| h_view := view_ s |> <| h_replica := u8 (id_ s) |>;
      payload := [] |}]).

Definition initiate_recovery (r : Replica) : Replica * list output :=
  let s := state_ r in
  if bool_decide (status_ s = ReplicaStatus.RECOVERY) then (r, [])
  else
    let s := s <| status_ := ReplicaStatus.RECOVERY |> in
    let '(nonce, counter) := generate_nonce (id_ s) (raw_ts env (clock_reads r)) (nonce_counter r) in
    let s := s <| recovery_nonce_ := nonce |> <| recovery_responses_ := [] |> in
    (r <| state_ := s |> <| clock_reads := S (clock_reads r) |> <| nonce_counter := counter |>,
     [broadcast_to_peers {|
        header := zero_header <| h_command := command.recovery |> <| h_replica := u8 (id_ s) |>;
        payload := rq_serialize {| rq_nonce := nonce |} |}]).

(** ** Normal operation *)

Definition handle_ping (inb : inbound_message) (r : Replica) : Replica * list output :=
  let ping_msg := header (ib_message inb) in
  let s := state_ r in
  (r, [send_message (ib_connection inb) {|
         header := zero_header <| h_command := command.pong |> <| h_view := view_ s |>
           <| h_replica := u8 (id_ s) |> <| h_client := h_client ping_msg |>
           <| h_request := h_request ping_msg |>;
         payload := [] |}]).

Definition handle_request (inb : inbound_message) (r : Replica) : Replica * list output :=
  let msg := ib_message inb in
  let h := header msg in
  let s := state_ r in
  let ce := client_entry (h_client h) s in
  if h_request h <? request_number ce then
    (r <| state_ := set_client_entry (h_client h) ce s |>, [])
  else if request_number ce =? h_request h then
    (r <| state_ := set_client_entry (h_client h) ce s |>,
     [send_message (ib_connection inb) {|
        header := zero_header <| h_command := command.reply |>
          <| h_client := h_client h |> <| h_request := h_request h |>;
        payload := result ce |}])
  else
    let s := s <| op_ := u64 (op_ s + 1) |> in
    let s := s <| log_ := <[op_ s := {|
        le_view := view_ s; le_op_type := h_operation h; le_client_id := h_client h;
        le_request_num := h_request h; le_payload := payload msg;
        le_acks := {[id_ s]} |}]> (log_ s) |> in
    let s := set_client_entry (h_client h)
               {| request_number := h_request h; executed := false; result := [] |} s in
    (r <| client_connections_ := <[h_client h := ib_connection inb]> (client_connections_ r) |>
       <| state_ := s |>,
     [broadcast_to_peers {|
        header := zero_header <| h_command := command.prepare |>
          <| h_operation := h_operation h |> <| h_replica := u8 (id_ s) |>
          <| h_client := h_client h |> <| h_request := h_request h |>
          <| h_view := view_ s |> <| h_op := op_ s |> <| h_commit := commit_ s |>;
        payload := payload msg |}]).

(** The [prepare_ok] message for [op] in the current view. *)
Definition prepare_ok_msg (op : Z) (s : ReplicaState) : vsr_message := {|
  header := zero_header <| h_command := command.prepare_ok |> <| h_view := view_ s |>
    <| h_op := op |> <| h_replica := u8 (id_ s) |>;
  payload := [] |}.

Definition handle_prepare (inb : inbound_message) (r : Replica) : Replica * list output :=
  let r := touch_primary_contact r in
  let msg := ib_message inb in
  let h := header msg in
  let s := state_ r in
  let s := s <| op_ := u64 (op_ s + 1) |> in
  let s := s <| log_ := <[op_ s := {|
      le_view := view_ s; le_op_type := h_operation h; le_client_id := h_client h;
      le_request_num := h_request h; le_payload := payload msg; le_acks := ∅ |}]> (log_ s) |> in
  let s := set_client_entry (h_client h)
             {| request_number := h_request h; executed := false; result := [] |} s in
  let out := [send_message (ib_connection inb) (prepare_ok_msg (op_ s) s)] in
  if commit_ s <? h_commit h then
    let s := s <| commit_ := h_commit h |> in
    let '(r, out') := execute_commited_ops (r <| state_ := s |>) in
    (r, out ++ out')
  else (r <| state_ := s |>, out).

Definition handle_prepare_ok (inb : inbound_message) (r : Replica) : Replica * list output :=
  let h := header (ib_message inb) in
  let s := state_ r in
  match log_ s !! h_op h with
  | None => (r, [])
  | Some entry =>
      let entry := entry <| le_acks := {[h_replica h]} ∪ le_acks entry |> in
      advance_primary_commit_number
        (r <| state_ := s <| log_ := <[h_op h := entry]> (log_ s) |> |>)
  end.

Definition handle_commit (inb : inbound_message) (r : Replica) : Replica * list output :=
  let r := touch_primary_contact r in
  let h := header (ib_message inb) in
  if commit_ (state_ r) <? h_commit h then
    execute_commited_ops (r <| state_ := (state_ r) <| commit_ := h_commit h |> |>)
  else (r, []).

(** ** View change *)

(** The selection loop of [handle_do_view_change]: the best payload so far, its
    operation number and the largest commit number. *)
Definition select_step (acc : do_view_change_payload * Z * Z) (current_msg : vsr_message)
    : do_view_change_payload * Z * Z :=
  let '(best_payload, best_op, max_commit) := acc in
  let '(ok, current_payload) := dvc_deserialize (payload current_msg)
    {| dvc_last_normal_view := garbage env; dvc_log := ∅ |} in
  let h := header current_msg in
  if ok then
    let '(best_payload, best_op) :=
      if dvc_last_normal_view best_payload <? dvc_last_normal_view current_payload then
        (current_payload, h_op h)
      else if (dvc_last_normal_view current_payload =? dvc_last_normal_view best_payload)
              && (best_op <? h_op h) then
        (current_payload, h_op h)
      else (best_payload, best_op) in
    (best_payload, best_op, Z.max max_commit (h_commit h))
  else (best_payload, best_op, max_commit).

Definition select_log (s : ReplicaState) (first : vsr_message) (rest : list vsr_message)
    : do_view_change_payload * Z * Z :=
  let '(_, best_payload) := dvc_deserialize (payload first)
    {| dvc_last_normal_view := garbage env; dvc_log := ∅ |} in
  foldl select_step
    (best_payload, h_op (header first), Z.max (commit_ s) (h_commit (header first))) rest.

Definition start_view_msg (s : ReplicaState) : vsr_message := {|
  header := zero_header <| h_command := command.start_view |> <| h_view := view_ s |>
    <| h_op := op_ s |> <| h_commit := commit_ s |> <| h_replica := u8 (id_ s) |>;
  payload := sv_serialize {| sv_log := log_ s |} |}.

Definition handle_do_view_change (inb : inbound_message) (r : Replica) : Replica * list output :=
  let s := state_ r in
  let s := s <| do_view_change_received_ := do_view_change_received_ s ++ [ib_message inb] |> in
  if quorum (length (do_view_change_received_ s)) s then
    match do_view_change_received_ s with
    | [] => (r <| state_ := s |>, [])
    | first :: rest =>
        let s := s <| do_view_change_received_ := [] |> in
        let '(best_payload, best_op, max_commit) := select_log s first rest in
        let s := s <| log_ := dvc_log best_payload |> <| op_ := best_op |>
                   <| commit_ := max_commit |> <| status_ := ReplicaStatus.NORMAL |> in
        let '(r, out) := execute_commited_ops (r <| state_ := s |>) in
        (r, broadcast_to_peers (start_view_msg s) :: out)
    end
  else (r <| state_ := s |>, []).

Definition do_view_change_msg (s : ReplicaState) : vsr_message := {|
  header := zero_header <| h_command := command.do_view_change |> <| h_view := view_ s |>
    <| h_op := op_ s |> <| h_commit := commit_ s |> <| h_replica := u8 (id_ s) |>;
  payload := dvc_serialize
    {| dvc_last_normal_view := last_normal_view_ s; dvc_log := log_ s |} |}.

Definition handle_start_view_change (inb : inbound_message) (r : Replica)
    : Replica * list output :=
  let h := header (ib_message inb) in
  let s := state_ r in
  let s := s <| start_view_change_received_ :=
                  {[h_replica h]} ∪ start_view_change_received_ s |> in
  if quorum (size (start_view_change_received_ s)) s then
    let s := s <| start_view_change_received_ := ∅ |> in
    let msg := do_view_change_msg s in
    let new_primary_id := get_primary_id_for_view (view_ s) s in
    if new_primary_id =? id_ s then
      handle_do_view_change {| ib_connection := None; ib_message := msg |} (r <| state_ := s |>)
    else (r <| state_ := s |>, [send_to_peer new_primary_id msg])
  else (r <| state_ := s |>, []).

(** The loop over the log that refreshes the client table after a log was
    adopted ([handle_start_view] and [handle_recovery_response]). *)
Definition refresh_client (s : ReplicaState) (kv : Z * log_entry) : ReplicaState :=
  let entry := kv.2 in
  let ce := client_entry (le_client_id entry) s in
  set_client_entry (le_client_id entry)
    (if request_number ce <? le_request_num entry then
       ce <| request_number := le_request_num entry |> <| executed := false |>
     else ce) s.

Definition refresh_client_table (s : ReplicaState) : ReplicaState :=
  foldl refresh_client s (items (log_ s)).

(** [for (op_num = start; op_num <= op_; ++op_num)]: one prepare_ok per
    operation in the log. *)
Fixpoint retroactive_oks (fuel : nat) (op_num : Z) (primary_id : Z) (s : ReplicaState)
    : list output :=
  match fuel with
  | O => []
  | S fuel =>
      if op_num <=? op_ s then
        (match log_ s !! op_num with
         | Some _ => [send_to_peer primary_id (prepare_ok_msg op_num s)]
         | None => []
         end) ++ retroactive_oks fuel (u64 (op_num + 1)) primary_id s
      else []
  end.

Definition handle_start_view (inb : inbound_message) (r : Replica) : Replica * list output :=
  let msg := ib_message inb in
  let h := header msg in
  let '(ok, sv_payload) := sv_deserialize (payload msg) {| sv_log := ∅ |} in
  if negb ok then (r, [])
  else
    let new_primary_commit_number := h_commit h in
    let s := (state_ r) <| view_ := h_view h |> <| op_ := h_op h |> <| commit_ := h_commit h |>
               <| log_ := sv_log sv_payload |> <| status_ := ReplicaStatus.NORMAL |> in
    let r := touch_primary_contact (r <| state_ := s |>) in
    let r := r <| state_ := refresh_client_table (state_ r) |> in
    let '(r, out) := execute_commited_ops r in
    let s := state_ r in
    let start := u64 (new_primary_commit_number + 1) in
    (r, out ++ retroactive_oks (Z.to_nat (op_ s + 1 - start)) start (get_primary_id s) s).

(** ** Recovery *)

Definition handle_recovery_request (inb : inbound_message) (r : Replica)
    : Replica * list output :=
  let msg := ib_message inb in
  let recovering_replica_id := h_replica (header msg) in
  let s := state_ r in
  let '(ok, req_payload) := rq_deserialize (payload msg)
    {| rq_nonce := U128 (garbage env) (garbage env) |} in
  if negb ok then (r, [])
  else
    (r, [send_to_peer recovering_replica_id {|
           header := zero_header <| h_command := command.recovery_response |>
             <| h_replica := u8 (id_ s) |> <| h_view := view_ s |> <| h_op := op_ s |>
             <| h_commit := commit_ s |>;
           payload := rr_serialize {| rr_nonce := rq_nonce req_payload; rr_log := log_ s |} |}]).

(** The response with the largest view and, within it, the largest op. *)
Definition better_response (best current : vsr_message) : vsr_message :=
  if h_view (header best) <? h_view (header current) then current
  else if (h_view (header current) =? h_view (header best))
          && (h_op (header best) <? h_op (header current)) then current
  else best.

Definition handle_recovery_response (inb : inbound_message) (r : Replica)
    : Replica * list output :=
  let response_msg := ib_message inb in
  let s := state_ r in
  let fresh := {| rr_nonce := U128 (garbage env) (garbage env); rr_log := ∅ |} in
  let '(ok, res_payload) := rr_deserialize (payload response_msg) fresh in
  if negb ok then (r, [])
  else if negb (uint128_eqb (rr_nonce res_payload) (recovery_nonce_ s)) then (r, [])
  else
    let s := s <| recovery_responses_ := recovery_responses_ s ++ [response_msg] |> in
    if quorum (length (recovery_responses_ s)) s then
      match recovery_responses_ s with
      | [] => (r <| state_ := s |>, [])
      | first :: rest =>
          let best_response := foldl better_response first rest in
          let '(_, best_payload) := rr_deserialize (payload best_response) fresh in
          let h := header best_response in
          let s := s <| view_ := h_view h |> <| op_ := h_op h |> <| commit_ := h_commit h |>
                     <| log_ := rr_log best_payload |> <| last_executed_op_ := 0 |> in
          let r := touch_primary_contact (r <| state_ := s |>) in
          let s := (state_ r) <| status_ := ReplicaStatus.NORMAL |> <| client_table_ := ∅ |> in
          let r := r <| state_ := refresh_client_table s |> in
          let '(r, out) := execute_commited_ops r in
          (r <| state_ := (state_ r) <| recovery_nonce_ := U128 0 0 |>
                                     <| recovery_responses_ := [] |> |>, out)
      end
    else (r <| state_ := s |>, []).

(** ** Guards: which messages can be processed now *)

Definition check_can_process_request (msg : vsr_message) (s : ReplicaState) : bool :=
  bool_decide (status_ s = ReplicaStatus.NORMAL) && is_primary s.

Definition check_can_process_prepare (msg : vsr_message) (s : ReplicaState) : bool :=
  bool_decide (status_ s = ReplicaStatus.NORMAL) && negb (is_primary s)
  && (h_view (header msg) =? view_ s) && (h_op (header msg) =? u64 (op_ s + 1)).

Definition check_can_process_prepare_ok (msg : vsr_message) (s : ReplicaState) : bool :=
  bool_decide (status_ s = ReplicaStatus.NORMAL) && is_primary s
  && (h_view (header msg) =? view_ s).

Definition check_can_process_commit (msg : vsr_message) (s : ReplicaState) : bool :=
  bool_decide (status_ s = ReplicaStatus.NORMAL) && negb (is_primary s)
  && (h_view (header msg) =? view_ s).

Definition check_can_process_start_view_change (msg : vsr_message) (s : ReplicaState) : bool :=
  (h_view (header msg) =? view_ s) && bool_decide (status_ s = ReplicaStatus.VIEW_CHANGE).

Definition check_can_process_do_view_change (msg : vsr_message) (s : ReplicaState) : bool :=
  if negb (h_view (header msg) =? view_ s) then false
  else if negb (bool_decide (status_ s = ReplicaStatus.VIEW_CHANGE)) then false
  else if negb (get_primary_id_for_view (view_ s) s =? id_ s) then false
  else true.

Definition check_can_process_start_view (msg : vsr_message) (s : ReplicaState) : bool :=
  if negb (h_view (header msg) =? view_ s) then false
  else if negb (bool_decide (status_ s = ReplicaStatus.VIEW_CHANGE)) then false
  else if negb (h_replica (header msg) =? get_primary_id_for_view (view_ s) s) then false
  else true.

Definition check_can_process_recovery_request (msg : vsr_message) (s : ReplicaState) : bool :=
  bool_decide (status_ s = ReplicaStatus.NORMAL).

Definition check_can_process_recovery_response (msg : vsr_message) (s : ReplicaState) : bool :=
  bool_decide (status_ s = ReplicaStatus.RECOVERY).

Definition can_process (inb : inbound_message) (s : ReplicaState) : bool :=
  let msg := ib_message inb in
  match h_command (header msg) with
  | command.ping => true
  | command.pong => true
  | command.request => check_can_process_request msg s
  | command.prepare => check_can_process_prepare msg s
  | command.prepare_ok => check_can_process_prepare_ok msg s
  | command.commit => check_can_process_commit msg s
  | command.start_view_change => check_can_process_start_view_change msg s
  | command.do_view_change => check_can_process_do_view_change msg s
  | command.start_view => check_can_process_start_view msg s
  | command.recovery => check_can_process_recovery_request msg s
  | command.recovery_response => check_can_process_recovery_response msg s
  | _ =>
      if bool_decide (status_ s = ReplicaStatus.VIEW_CHANGE) && (view_ s <? h_view (header msg))
      then false else false
  end.

Definition determine_state_action (stuck_msg : vsr_message) (s : ReplicaState) : StateAction.t :=
  let h := header stuck_msg in
  if view_ s <? h_view h then
    if (h_view h =? u32 (view_ s + 1))
       && (bool_decide (h_command h = command.start_view_change)
           || bool_decide (h_command h = command.do_view_change))
    then StateAction.INITIATE_VIEW_CHANGE
    else StateAction.INITIATE_RECOVERY
  else if negb (is_primary s) && bool_decide (h_command h = command.prepare)
          && (h_view h =? view_ s) && (u64 (op_ s + 1) <? h_op h)
  then StateAction.INITIATE_RECOVERY
  else StateAction.PROCESS_NORMALLY.

(** ** The message queue *)

(** The switch of [process_message_queue]; [pong], [reply], [reserved] and unknown
    commands fall to the default case, which only prints a warning. *)
Definition dispatch (inb : inbound_message) (r : Replica) : Replica * list output :=
  match h_command (header (ib_message inb)) with
  | command.ping => handle_ping inb r
  | command.request => handle_request inb r
  | command.prepare => handle_prepare inb r
  | command.prepare_ok => handle_prepare_ok inb r
  | command.commit => handle_commit inb r
  | command.start_view_change => handle_start_view_change inb r
  | command.do_view_change => handle_do_view_change inb r
  | command.start_view => handle_start_view inb r
  | command.recovery => handle_recovery_request inb r
  | command.recovery_response => handle_recovery_response inb r
  | _ => (r, [])
  end.

(** A server message of a past view: requests and recovery messages are exempt. *)
Definition is_stale (msg : vsr_message) (s : ReplicaState) : bool :=
  negb (bool_decide (h_command (header msg) = command.request))
  && negb (bool_decide (h_command (header msg) = command.recovery))
  && (h_view (header msg) <? view_ s).

(** The inner loop [while (!message_queue_.empty())]; it returns
    [processed_in_pass] too.  Every round removes the front of the queue or
    breaks, and no handler adds to the queue. *)
Fixpoint drain (fuel : nat) (processed : bool) (r : Replica) : Replica * list output * bool :=
  match fuel with
  | O => (r, [], processed)
  | S fuel =>
      match message_queue_ r with
      | [] => (r, [], processed)
      | front :: rest =>
          if is_stale (ib_message front) (state_ r) then
            drain fuel true (r <| message_queue_ := rest |>)
          else if can_process front (state_ r) then
            let '(r, out) := dispatch front (r <| message_queue_ := rest |>) in
            let '(r, out', p) := drain fuel true r in
            (r, out ++ out', p)
          else (r, [], processed)
      end
  end.

(** What happens after the inner loop when a message is stuck at the front. *)
Definition handle_stuck (r : Replica) : Replica * list output :=
  match message_queue_ r with
  | [] => (r, [])
  | front :: _ =>
      if bool_decide (status_ (state_ r) = ReplicaStatus.NORMAL) then
        match determine_state_action (ib_message front) (state_ r) with
        | StateAction.INITIATE_RECOVERY =>
            let '(r, out) := initiate_recovery r in
            (r <| message_queue_ := [] |>, out)
        | StateAction.INITIATE_VIEW_CHANGE => initiate_view_change r
        | StateAction.PROCESS_NORMALLY => (r, [])
        end
      else (r, [])
  end.

(** The outer loop [do ... while (processed_in_pass)]. *)
Fixpoint passes (fuel : nat) (r : Replica) : Replica * list output :=
  match fuel with
  | O => (r, [])
  | S fuel =>
      let '(r, out1, processed) := drain (S (length (message_queue_ r))) false r in
      let '(r, out2) := handle_stuck r in
      if processed then
        let '(r, out3) := passes fuel r in (r, out1 ++ out2 ++ out3)
      else (r, out1 ++ out2)
  end.

Definition process_message_queue (r : Replica) : Replica * list output :=
  passes (S (length (message_queue_ r))) r.

(** ** Entry points of the event loop *)

(** The message is queued and a task that processes the queue is posted. *)
Definition enqueue_message (connection : conn) (message : vsr_message) (r : Replica) : Replica :=
  r <| message_queue_ := message_queue_ r ++
         [{| ib_connection := connection; ib_message := message |}] |>
    <| posted := S (posted r) |>.

Definition send_commit_message_if_needed (r : Replica) : list output :=
  let s := state_ r in
  if negb (is_primary s) || negb (bool_decide (status_ s = ReplicaStatus.NORMAL)) then []
  else [broadcast_to_peers {|
          header := zero_header <| h_command := command.commit |> <| h_view := view_ s |>
            <| h_commit := commit_ s |>;
          payload := [] |}].

Definition check_primary_liveness (r : Replica) : Replica * list output :=
  let s := state_ r in
  if negb (is_primary s) && bool_decide (status_ s = ReplicaStatus.NORMAL) then
    let now := steady_now env (clock_reads r) in
    let duration_since_contact := Z.quot (now - last_primary_contact_ r) 1000000 in
    let r := r <| clock_reads := S (clock_reads r) |> in
    if primary_timeout_ <? duration_since_contact then initiate_view_change r else (r, [])
  else (r, []).

(** [Replica::run] up to the event loop: the first reading of the clock. *)
Definition run (r : Replica) : Replica := touch_primary_contact r.

(** The callbacks the event loop runs: a message read from a connection, a posted
    queue processing task (if there is one), the heartbeat timer and the liveness
    timer. *)
Inductive event :=
  | ev_message (connection : conn) (message : vsr_message)
  | ev_process_queue
  | ev_heartbeat
  | ev_liveness.

Definition handle_event (e : event) (r : Replica) : Replica * list output :=
  match e with
  | ev_message c m => (enqueue_message c m r, [])
  | ev_process_queue =>
      match posted r with
      | O => (r, [])
      | S n => process_message_queue (r <| posted := n |>)
      end
  | ev_heartbeat => (r, send_commit_message_if_needed r)
  | ev_liveness => check_primary_liveness r
  end.

Fixpoint handle_events (es : list event) (r : Replica) : Replica * list output :=
  match es with
  | [] => (r, [])
  | e :: es =>
      let '(r, out) := handle_event e r in
      let '(r, out') := handle_events es r in
      (r, out ++ out')
  end.
End Replica.
