(* ===== verification/Execution.v ===== *)
(** * Executing committed operations

    The loops [execute_commited_ops] and [advance_primary_commit_number] of
    [src/server/replica.cpp]: termination, the abstract specification of what
    execution does to the store and the client table, and the refinement of that
    specification by the loop. *)
From S2P Require Import Prelude Types Serialization KeyValue ReplicaState Replica.

(** ** Abstract specification

    Executing one log entry on a pair of a store and a client table, and the
    entries that are ready: the longest run of log entries from [k + 1] up to
    [commit] without a gap. *)

Definition machine : Type := gmap (list byte) (list byte) * gmap uint128_t client_table_entry.

Definition exec_entry (m : machine) (e : log_entry) : machine :=
  let ce := default default_client_entry (m.2 !! le_client_id e) in
  if negb (request_number ce =? le_request_num e) || negb (executed ce) then
    let '(sm, res) := apply_operation (le_op_type e) (le_payload e) m.1 in
    (sm, <[le_client_id e := {| request_number := le_request_num e; executed := true;
                                result := res |}]> m.2)
  else (m.1, <[le_client_id e := ce]> m.2).

Fixpoint ready (fuel : nat) (log : gmap Z log_entry) (k commit : Z) : list log_entry :=
  match fuel with
  | O => []
  | S fuel =>
      if k <? commit then
        match log !! (k + 1) with
        | None => []
        | Some e => e :: ready fuel log (k + 1) commit
        end
      else []
  end.

(** The entries the next call of [execute_commited_ops] executes. *)
Definition ready_entries (s : ReplicaState) : list log_entry :=
  ready (S (size (log_ s))) (log_ s) (last_executed_op_ s) (commit_ s).

Definition machine_of (s : ReplicaState) : machine := (state_machine_ s, client_table_ s).

(** [r] with the state machine, client table and execution counter replaced. *)
Definition with_machine (r : Replica) (m : machine) (last : Z) : Replica :=
  r <| state_ := (state_ r) <| state_machine_ := m.1 |> <| client_table_ := m.2 |>
                            <| last_executed_op_ := last |> |>.

(** ** Counting log entries *)

Lemma keys_le_size {A} (log : gmap Z A) (f : nat → Z) (n : nat) :
  (∀ i j, (i < n)%nat → (j < n)%nat → f i = f j → i = j) →
  (∀ i, (i < n)%nat → is_Some (log !! f i)) → (n ≤ size log)%nat.
Proof.
  intros Hinj Hin.
  assert (NoDup (f <$> seq 0 n)) as Hnd.
  { apply NoDup_fmap_2_strong; [|apply NoDup_seq].
    intros i j Hi%elem_of_seq Hj%elem_of_seq. apply Hinj; lia. }
  assert (size (list_to_set (f <$> seq 0 n) : gset Z) = n) as <-
    by (by rewrite size_list_to_set, length_fmap, length_seq).
  rewrite <- (size_dom log). apply subseteq_size. intros k [i [-> Hi%elem_of_seq]]%elem_of_list_to_set%list_elem_of_fmap.
  apply elem_of_dom, Hin. lia.
Qed.

(** ** [ready] *)

Lemma ready_lookup fuel log k commit (i : nat) e :
  ready fuel log k commit !! i = Some e →
  log !! (k + 1 + Z.of_nat i) = Some e ∧ k + 1 + Z.of_nat i ≤ commit.
Proof.
  revert k i. induction fuel as [|fuel IH]; intros k i; simpl; [done|].
  case_match eqn:Hlt; [|done]. apply Z.ltb_lt in Hlt. case_match eqn:Hl; [|done].
  destruct i as [|i]; simpl.
  - intros [= <-]. rewrite Z.add_0_r. split; [done|lia].
  - intros H%IH. replace (k + 1 + Z.of_nat (S i)) with (k + 1 + 1 + Z.of_nat i) by lia. done.
Qed.

Lemma ready_length fuel log k commit :
  k ≤ commit → k + Z.of_nat (length (ready fuel log k commit)) ≤ commit.
Proof.
  intros Hk. destruct (length (ready fuel log k commit)) as [|n] eqn:Hn; [lia|].
  destruct (lookup_lt_is_Some_2 (ready fuel log k commit) n) as [e He]; [lia|].
  apply ready_lookup in He as [_ He]. lia.
Qed.

Lemma ready_size fuel log k commit : (length (ready fuel log k commit) ≤ size log)%nat.
Proof.
  apply (keys_le_size log (λ i, k + 1 + Z.of_nat i)); [lia|].
  intros i [e He]%lookup_lt_is_Some_2. apply ready_lookup in He as [He _]. eauto.
Qed.

(** With enough fuel the run is maximal: it stops at the commit number or at a gap. *)
Lemma ready_maximal fuel log k commit :
  k ≤ commit → (length (ready fuel log k commit) < fuel)%nat →
  let k' := k + Z.of_nat (length (ready fuel log k commit)) in
  k' = commit ∨ log !! (k' + 1) = None.
Proof.
  revert k. induction fuel as [|fuel IH]; intros k Hk; simpl; [lia|].
  case_match eqn:Hlt; [apply Z.ltb_lt in Hlt|apply Z.ltb_ge in Hlt; simpl; left; lia].
  case_match eqn:Hl; simpl.
  - intros Hlen. destruct (IH (k + 1)) as [IH'|IH']; [lia|lia|left; lia|right].
    rewrite <- IH'. f_equal. lia.
  - intros _. right. by rewrite Z.add_0_r.
Qed.

Lemma ready_more_fuel fuel fuel' log k commit :
  (size log < fuel)%nat → (size log < fuel')%nat →
  ready fuel log k commit = ready fuel' log k commit.
Proof.
  assert (∀ fuel fuel' k, (fuel ≤ fuel')%nat →
    (length (ready fuel log k commit) < fuel)%nat →
    ready fuel log k commit = ready fuel' log k commit) as Hle.
  { clear. induction fuel as [|fuel IH]; intros [|fuel'] k Hle; simpl; try lia.
    case_match; [|done]. case_match; [|done]. simpl. intros Hlen. f_equal. apply IH; lia. }
  intros H H'. destruct (decide (fuel ≤ fuel')%nat).
  - apply Hle; [done|]. pose proof (ready_size fuel log k commit). lia.
  - symmetry. apply Hle; [lia|]. pose proof (ready_size fuel' log k commit). lia.
Qed.

(** ** The execution loop refines the specification *)

Lemma execute_op_spec op e r :
  (execute_op op e r).1 = with_machine r (exec_entry (machine_of (state_ r)) e) op.
Proof.
  unfold execute_op, with_machine, exec_entry, machine_of, client_entry, set_client_entry. simpl.
  destruct (negb _ || negb _); [|done]. by destruct (apply_operation _ _ _).
Qed.

Lemma execute_op_outputs op e r o :
  o ∈ (execute_op op e r).2 →
  is_primary (state_ r) = true ∧
  ∃ c res, o = send_message (Some c) {|
    header := zero_header <| h_command := command.reply |> <| h_view := view_ (state_ r) |>
      <| h_client := le_client_id e |> <| h_request := le_request_num e |>;
    payload := res |} ∧
  client_connections_ r !! le_client_id e = Some (Some c) ∧
  client_table_ (state_ (execute_op op e r).1) !! le_client_id e
    = Some {| request_number := le_request_num e; executed := true; result := res |}.
Proof.
  unfold execute_op, reply_outputs, set_client_entry. simpl.
  destruct (negb _ || negb _); [|by intros ?%not_elem_of_nil].
  destruct (apply_operation _ _ _) as [sm res]. simpl.
  unfold is_primary, get_primary_id. simpl.
  case_match eqn:Hp; [|by intros ?%not_elem_of_nil].
  destruct (client_connections_ r !! le_client_id e) as [[c|]|] eqn:Hc;
    [|by intros ?%not_elem_of_nil..].
  intros ->%list_elem_of_singleton. split; [done|]. exists c, res.
  split_and!; [done|done|apply lookup_insert_eq].
Qed.

Lemma machine_of_with r m k : machine_of (state_ (with_machine r m k)) = m.
Proof. by destruct m. Qed.

Lemma with_machine_with r m k m' k' :
  with_machine (with_machine r m k) m' k' = with_machine r m' k'.
Proof. done. Qed.

Lemma with_machine_id r :
  with_machine r (machine_of (state_ r)) (last_executed_op_ (state_ r)) = r.
Proof. by destruct r as [[] ? ? ? ? ? ?]. Qed.

Lemma execute_loop_spec fuel r :
  is_u64 (last_executed_op_ (state_ r)) → is_u64 (commit_ (state_ r)) →
  let es := ready fuel (log_ (state_ r)) (last_executed_op_ (state_ r)) (commit_ (state_ r)) in
  (execute_loop fuel r).1
  = with_machine r (foldl exec_entry (machine_of (state_ r)) es)
      (last_executed_op_ (state_ r) + Z.of_nat (length es)).
Proof.
  revert r. induction fuel as [|fuel IH]; intros r Hl Hc; simpl.
  { by rewrite Z.add_0_r, with_machine_id. }
  case_match eqn:Hlt; simpl; [|by rewrite Z.add_0_r, with_machine_id].
  apply Z.ltb_lt in Hlt. rewrite u64_small by rlia.
  case_match eqn:He; simpl; [|by rewrite Z.add_0_r, with_machine_id].
  destruct (execute_op _ _ r) as [r1 o1] eqn:Hop.
  pose proof (execute_op_spec (last_executed_op_ (state_ r) + 1) l r) as Hr1.
  rewrite Hop in Hr1. simpl in Hr1. subst r1.
  destruct (execute_loop fuel _) as [r2 o2] eqn:Hloop. simpl.
  specialize (IH (with_machine r (exec_entry (machine_of (state_ r)) l)
    (last_executed_op_ (state_ r) + 1))). rewrite Hloop in IH. cbv zeta in IH.
  rewrite machine_of_with, with_machine_with in IH. simpl in IH.
  rewrite IH by rlia. f_equal. lia.
Qed.

Lemma execute_commited_ops_spec r :
  is_u64 (last_executed_op_ (state_ r)) → is_u64 (commit_ (state_ r)) →
  (execute_commited_ops r).1
  = with_machine r (foldl exec_entry (machine_of (state_ r)) (ready_entries (state_ r)))
      (last_executed_op_ (state_ r) + Z.of_nat (length (ready_entries (state_ r)))).
Proof. apply execute_loop_spec. Qed.

(** ** Advancing the commit number *)

(** [n] operations above [commit_] are in the log, each acknowledged by a quorum. *)
Definition acked (s : ReplicaState) (k : Z) : Prop :=
  ∃ e, log_ s !! k = Some e ∧ quorum (size (le_acks e)) s = true.

(** Operation numbers of log entries start at 1. *)
Definition log_keys (log : gmap Z log_entry) : Prop :=
  ∀ k e, log !! k = Some e → 1 ≤ k < 2 ^ 64.

Lemma log_keys_next log k :
  log_keys log → is_u64 k → log !! u64 (k + 1) = log !! (k + 1).
Proof.
  intros Hlog Hk. destruct (decide (k + 1 = 2 ^ 64)) as [->|Hne].
  - change (u64 (2 ^ 64)) with 0.
    destruct (log !! 0) as [e|] eqn:He; [apply Hlog in He; lia|].
    destruct (log !! (2 ^ 64)) as [e|] eqn:He'; [apply Hlog in He'; lia|done].
  - by rewrite u64_small by rlia.
Qed.

Lemma advance_loop_spec fuel s :
  is_u64 (commit_ s) → log_keys (log_ s) →
  ∃ n : nat, advance_loop fuel s = s <| commit_ := commit_ s + Z.of_nat n |> ∧
    is_u64 (commit_ s + Z.of_nat n) ∧
    (∀ k, commit_ s < k ≤ commit_ s + Z.of_nat n → acked s k) ∧
    ((n < fuel)%nat → ¬ acked s (commit_ s + Z.of_nat n + 1)) ∧ (n ≤ fuel)%nat.
Proof.
  revert s. induction fuel as [|fuel IH]; intros s Hc Hk; simpl.
  { exists 0%nat. rewrite Z.add_0_r. split_and!; try lia; [by destruct s|done]. }
  rewrite log_keys_next by done.
  destruct (log_ s !! (commit_ s + 1)) as [e|] eqn:He; last first.
  { exists 0%nat. rewrite Z.add_0_r. split_and!; try lia; [by destruct s|done|].
    intros _ (e & He' & _). congruence. }
  destruct (quorum _ s) eqn:Hq; simpl; last first.
  { exists 0%nat. rewrite Z.add_0_r. split_and!; try lia; [by destruct s|done|].
    intros _ (e' & He' & Hq'). congruence. }
  pose proof (Hk _ _ He) as Hr. rewrite u64_small by rlia.
  destruct (IH (s <| commit_ := commit_ s + 1 |>)) as (n & Heq & Hu & Ha & Hs & Hn);
    [simpl; rlia|done|].
  simpl in *. rewrite Heq. unfold acked in *. simpl in *. exists (S n).
  rewrite Nat2Z.inj_succ. unfold Z.succ. split_and!; [by f_equal; lia|rlia| | |lia].
  - intros k Hk'. destruct (decide (k = commit_ s + 1)) as [->|]; [by eauto|]. apply Ha. lia.
  - intros Hlt Hex. apply Hs; [lia|].
    by replace (commit_ s + 1 + Z.of_nat n + 1) with (commit_ s + (Z.of_nat n + 1) + 1) by lia.
Qed.

(** The fuel [S (size log)] is enough. *)
Lemma advance_loop_full s :
  is_u64 (commit_ s) → log_keys (log_ s) →
  ∃ n : nat, advance_loop (S (size (log_ s))) s = s <| commit_ := commit_ s + Z.of_nat n |> ∧
    is_u64 (commit_ s + Z.of_nat n) ∧
    (∀ k, commit_ s < k ≤ commit_ s + Z.of_nat n → acked s k) ∧
    ¬ acked s (commit_ s + Z.of_nat n + 1).
Proof.
  intros Hc Hk. destruct (advance_loop_spec (S (size (log_ s))) s Hc Hk)
    as (n & Heq & Hu & Ha & Hs & _).
  exists n. split_and!; [done|done|done|]. apply Hs.
  assert (n ≤ size (log_ s))%nat; [|lia].
  apply (keys_le_size _ (λ i, commit_ s + 1 + Z.of_nat i)); [lia|].
  intros i Hi. destruct (Ha (commit_ s + 1 + Z.of_nat i)) as (e & He & _); [lia|eauto].
Qed.

(** ** Fuel and determinism *)

Lemma execute_loop_fuel_le fuel fuel' r :
  (fuel ≤ fuel')%nat → is_u64 (last_executed_op_ (state_ r)) → is_u64 (commit_ (state_ r)) →
  (length (ready fuel (log_ (state_ r)) (last_executed_op_ (state_ r)) (commit_ (state_ r)))
    < fuel)%nat →
  execute_loop fuel r = execute_loop fuel' r.
Proof.
  revert fuel' r. induction fuel as [|fuel IH]; intros [|fuel'] r Hle Hl Hc; simpl; try lia.
  case_match eqn:Hlt; [|done]. apply Z.ltb_lt in Hlt. rewrite u64_small by rlia.
  case_match eqn:He; [|done]. simpl. intros Hlen.
  destruct (execute_op _ _ r) as [r1 o1] eqn:Hop.
  pose proof (execute_op_spec (last_executed_op_ (state_ r) + 1) l r) as Hr1.
  rewrite Hop in Hr1. simpl in Hr1. subst r1. rewrite (IH fuel'); simpl; [done|lia|rlia|done|lia].
Qed.

Lemma execute_loop_fuel fuel r :
  (size (log_ (state_ r)) < fuel)%nat →
  is_u64 (last_executed_op_ (state_ r)) → is_u64 (commit_ (state_ r)) →
  execute_loop fuel r = execute_commited_ops r.
Proof.
  intros Hf Hl Hc. symmetry. apply execute_loop_fuel_le; [lia|done|done|].
  pose proof (ready_size (S (size (log_ (state_ r)))) (log_ (state_ r))
    (last_executed_op_ (state_ r)) (commit_ (state_ r))). lia.
Qed.

Lemma exec_entry_skip m e ce :
  m.2 !! le_client_id e = Some ce → request_number ce = le_request_num e → executed ce = true →
  exec_entry m e = m.
Proof.
  intros Hce Hn Hx. unfold exec_entry. rewrite Hce. simpl. rewrite Hn, Z.eqb_refl, Hx. simpl.
  rewrite insert_id by done. by destruct m.
Qed.

Lemma exec_entry_executed m e :
  ∃ ce, (exec_entry m e).2 !! le_client_id e = Some ce ∧
        request_number ce = le_request_num e ∧ executed ce = true.
Proof.
  unfold exec_entry. destruct (negb _ || negb _) eqn:Hb.
  - destruct (apply_operation _ _ _) as [sm res]. simpl. rewrite lookup_insert_eq. eauto.
  - simpl. rewrite lookup_insert_eq. eexists. split; [done|].
    apply orb_false_iff in Hb as [H1%negb_false_iff H2%negb_false_iff].
    by apply Z.eqb_eq in H1.
Qed.

Lemma exec_entry_idemp m e : exec_entry (exec_entry m e) e = exec_entry m e.
Proof. destruct (exec_entry_executed m e) as (ce & ? & ? & ?). by eapply exec_entry_skip. Qed.

(** An entry whose request is marked executed is passed over without effect. *)
Lemma execute_op_skip op e r ce :
  client_table_ (state_ r) !! le_client_id e = Some ce → request_number ce = le_request_num e →
  executed ce = true → last_executed_op_ (state_ r) = op → execute_op op e r = (r, []).
Proof.
  intros Hce Hn Hx Hop. unfold execute_op, client_entry, set_client_entry. rewrite Hce. simpl.
  rewrite Hn, Z.eqb_refl, Hx. cbn. rewrite insert_id by done. subst op. by destruct r as [[] ? ? ? ? ? ?].
Qed.

(** Only a primary answers clients. *)
Lemma execute_loop_backup fuel r :
  is_primary (state_ r) = false → (execute_loop fuel r).2 = [].
Proof.
  revert r. induction fuel as [|fuel IH]; intros r Hp; [done|]. cbn [execute_loop].
  case_match; [|done]. case_match eqn:He; [|done].
  destruct (execute_op _ _ r) as [r1 o1] eqn:Hop.
  pose proof (execute_op_spec (u64 (last_executed_op_ (state_ r) + 1)) l r) as Hr1.
  pose proof (execute_op_outputs (u64 (last_executed_op_ (state_ r) + 1)) l r) as Ho1.
  rewrite Hop in Hr1, Ho1. simpl in Hr1, Ho1. specialize (IH r1).
  destruct (execute_loop fuel r1) as [r2 o2]. simpl in IH |- *.
  rewrite IH by (by rewrite Hr1). rewrite app_nil_r.
  destruct o1 as [|o o1]; [done|]. destruct (Ho1 o) as [Hp' _]; [set_solver|congruence].
Qed.

Lemma execute_backup r : is_primary (state_ r) = false → (execute_commited_ops r).2 = [].
Proof. apply execute_loop_backup. Qed.

(** The client table entry that makes execution skip an entry. *)
Definition executed_already (ct : gmap uint128_t client_table_entry) (e : log_entry) : Prop :=
  ∃ ce, ct !! le_client_id e = Some ce ∧ request_number ce = le_request_num e ∧
        executed ce = true.

Lemma exec_entry_fresh m e :
  ¬ executed_already m.2 e →
  (exec_entry m e).1 = (apply_operation (le_op_type e) (le_payload e) m.1).1 ∧
  (∀ e', executed_already (exec_entry m e).2 e' →
     (le_client_id e', le_request_num e') = (le_client_id e, le_request_num e) ∨
     executed_already m.2 e').
Proof.
  intros Hne. unfold exec_entry. destruct (negb _ || negb _) eqn:Hb.
  - destruct (apply_operation _ _ _) as [sm res]. simpl. split; [done|].
    intros e' (ce & Hce & Hn & Hx). destruct (decide (le_client_id e' = le_client_id e)) as [Heq|Hd].
    + rewrite Heq, lookup_insert_eq in Hce. injection Hce as <-. simpl in Hn. left. congruence.
    + rewrite lookup_insert_ne in Hce by done. right. exists ce. done.
  - exfalso. apply orb_false_iff in Hb as [H1%negb_false_iff H2%negb_false_iff].
    apply Z.eqb_eq in H1. destruct (m.2 !! le_client_id e) as [ce|] eqn:Hl; simpl in *; [|done].
    apply Hne. exists ce. done.
Qed.

Lemma exec_entries_fresh es m :
  NoDup ((λ e, (le_client_id e, le_request_num e)) <$> es) →
  Forall (λ e, ¬ executed_already m.2 e) es →
  (foldl exec_entry m es).1
  = foldl (λ sm e, (apply_operation (le_op_type e) (le_payload e) sm).1) m.1 es.
Proof.
  revert m. induction es as [|e es IH]; intros m; simpl; [done|].
  intros [Hni Hnd]%NoDup_cons [He Hes]%Forall_cons.
  destruct (exec_entry_fresh m e He) as [Hsm Hct]. rewrite IH, Hsm; [done|done|].
  apply Forall_forall. intros e' He' [Heq|Hx]%Hct.
  - apply Hni, list_elem_of_fmap. by exists e'.
  - rewrite Forall_forall in Hes. by apply (Hes e').
Qed.

(** ** Properties *)

(** C9: [execute_commited_ops] terminates and implements the abstract
    specification: it runs exactly the entries that are ready, in log order, on
    the store and the client table, advances [last_executed_op_] over them and
    changes nothing else; it stops only at the commit number or at a missing
    entry; and no amount of extra iterations would change the result. *)
Theorem execute_refines_spec r fuel :
  is_u64 (last_executed_op_ (state_ r)) → is_u64 (commit_ (state_ r)) →
  last_executed_op_ (state_ r) ≤ commit_ (state_ r) →
  (size (log_ (state_ r)) < fuel)%nat →
  let es := ready_entries (state_ r) in
  let last := last_executed_op_ (state_ r) + Z.of_nat (length es) in
  (execute_commited_ops r).1
    = with_machine r (foldl exec_entry (machine_of (state_ r)) es) last ∧
  (∀ i : nat, (i < length es)%nat →
     log_ (state_ r) !! (last_executed_op_ (state_ r) + 1 + Z.of_nat i) = es !! i) ∧
  last ≤ commit_ (state_ r) ∧
  (last = commit_ (state_ r) ∨ log_ (state_ r) !! (last + 1) = None) ∧
  execute_loop fuel r = execute_commited_ops r.
Proof.
  intros Hl Hc Hle Hf es last. split_and!.
  - by apply execute_commited_ops_spec.
  - intros i [e He]%lookup_lt_is_Some_2. rewrite He. by apply ready_lookup in He as [? _].
  - by apply ready_length.
  - apply ready_maximal; [done|].
    pose proof (ready_size (S (size (log_ (state_ r)))) (log_ (state_ r))
      (last_executed_op_ (state_ r)) (commit_ (state_ r))). lia.
  - by apply execute_loop_fuel.
Qed.

(** Execution is idempotent per request: executing the same log entry a second
    time right after the first changes nothing, neither the store nor the client
    table, and sends no second reply. *)
Theorem execute_idempotent op e r :
  let r1 := (execute_op op e r).1 in execute_op op e r1 = (r1, []).
Proof.
  cbv zeta. rewrite execute_op_spec.
  destruct (exec_entry_executed (machine_of (state_ r)) e) as (ce & Hce & Hn & Hx).
  by apply (execute_op_skip _ _ _ ce).
Qed.

(** When the ready entries are pairwise different requests, none of them
    executed before, every one of them is applied to the store exactly once and in
    log order. *)
Theorem execute_applies_each_once r :
  is_u64 (last_executed_op_ (state_ r)) → is_u64 (commit_ (state_ r)) →
  NoDup ((λ e, (le_client_id e, le_request_num e)) <$> ready_entries (state_ r)) →
  Forall (λ e, ¬ executed_already (client_table_ (state_ r)) e) (ready_entries (state_ r)) →
  state_machine_ (state_ (execute_commited_ops r).1)
  = foldl (λ sm e, (apply_operation (le_op_type e) (le_payload e) sm).1)
      (state_machine_ (state_ r)) (ready_entries (state_ r)).
Proof.
  intros Hl Hc Hnd Hfresh. rewrite execute_commited_ops_spec by done. simpl.
  by rewrite exec_entries_fresh.
Qed.

(** C10: [advance_primary_commit_number] on a primary terminates with the commit
    number advanced over exactly the operations above it that are in the log with
    acknowledgements from a quorum: each one passed has them, the next one has
    not. *)
Theorem advance_commits_exactly_acked r :
  is_u64 (commit_ (state_ r)) → is_u64 (last_executed_op_ (state_ r)) →
  log_keys (log_ (state_ r)) → is_primary (state_ r) = true →
  let r' := (advance_primary_commit_number r).1 in
  commit_ (state_ r) ≤ commit_ (state_ r') ∧
  (∀ k, commit_ (state_ r) < k ≤ commit_ (state_ r') → acked (state_ r) k) ∧
  ¬ acked (state_ r) (commit_ (state_ r') + 1) ∧
  log_ (state_ r') = log_ (state_ r).
Proof.
  intros Hc Hl Hk Hp. unfold advance_primary_commit_number. rewrite Hp. cbn [negb].
  destruct (advance_loop_full (state_ r) Hc Hk) as (n & Heq & Hu & Ha & Hs).
  rewrite Heq. rewrite execute_commited_ops_spec by done. simpl.
  split_and!; [lia|done|done|done].
Qed.

(** ** Witnesses *)

(** Clocks that count their readings, and zeroed memory. *)
Definition sample_env : Env :=
  {| steady_now := λ n, Z.of_nat n; raw_ts := λ n, (Z.of_nat n, 0); garbage := 0 |}.

(** A primary of the three-replica cluster with two operations in its log: the
    first acknowledged by a quorum, the second only by the primary itself. *)
Definition sample_op (n : Z) (acks : gset Z) (p : list byte) : log_entry := {|
  le_view := 0; le_op_type := operation.set; le_client_id := U128 1 2;
  le_request_num := n; le_payload := p; le_acks := acks |}.

Definition sample_primary : Replica :=
  let s := new_replica_state 0 main_cluster_config in
  (new_replica 0 main_cluster_config) <| state_ :=
    s <| op_ := 2 |>
      <| log_ := <[2 := sample_op 2 {[0]} (lit "k w")]>
                   (<[1 := sample_op 1 {[0; 1]} (lit "k v")]> ∅) |> |>.

Lemma sample_primary_log_keys : log_keys (log_ (state_ sample_primary)).
Proof.
  intros k e. unfold sample_primary. simpl. rewrite !lookup_insert_Some, lookup_empty.
  naive_solver lia.
Qed.

(** The same replica once both operations are committed. *)
Definition sample_committed : Replica :=
  sample_primary <| state_ := (state_ sample_primary) <| commit_ := 2 |> |>.

Lemma execute_refines_spec_witness :
  execute_loop 10 sample_committed = execute_commited_ops sample_committed ∧
  last_executed_op_ (state_ (execute_commited_ops sample_committed).1) = 2.
Proof.
  split; [|vm_compute; reflexivity].
  refine (proj2 (proj2 (proj2 (proj2 (execute_refines_spec sample_committed 10 _ _ _ _)))));
    vm_compute; first [split; congruence | lia | congruence].
Defined.

Lemma execute_applies_each_once_witness :
  state_machine_ (state_ (execute_commited_ops sample_committed).1)
  = {[ lit "k" := lit "w" ]}.
Proof.
  rewrite (execute_applies_each_once sample_committed); [reflexivity| | | |].
  - vm_compute. split; congruence.
  - vm_compute. split; congruence.
  - vm_compute. repeat constructor; set_solver.
  - repeat (constructor; [intros (ce & Hce & _); vm_compute in Hce; congruence|]). constructor.
Defined.

Lemma advance_commits_exactly_acked_witness :
  commit_ (state_ (advance_primary_commit_number sample_primary).1) = 1 ∧
  log_ (state_ (advance_primary_commit_number sample_primary).1) = log_ (state_ sample_primary).
Proof.
  split; [vm_compute; reflexivity|].
  refine (proj2 (proj2 (proj2 (advance_commits_exactly_acked sample_primary _ _
    sample_primary_log_keys _)))); vm_compute; first [reflexivity | split; congruence].
Defined.
