(* ===== verification/Handlers.v ===== *)
(** * What handlers preserve

    Frame facts about every handler of [src/server/replica.cpp] (identity,
    configuration, queue), the type invariant of the replica state, and its
    preservation by every event. *)
From S2P Require Import Prelude Types Serialization KeyValue ReplicaState Replica Execution.

#[global] Arguments execute_commited_ops : simpl never.
#[global] Arguments advance_primary_commit_number : simpl never.
#[global] Arguments refresh_client_table : simpl never.
#[global] Arguments select_log : simpl never.
#[global] Arguments is_primary : simpl never.
#[global] Arguments get_primary_id : simpl never.
#[global] Arguments get_primary_id_for_view : simpl never.
#[global] Arguments quorum : simpl never.

(** ** Loops, as record updates *)

Lemma execute_loop_shape fuel r : ∃ m k, (execute_loop fuel r).1 = with_machine r m k.
Proof.
  revert r. induction fuel as [|fuel IH]; intros r; simpl.
  { do 2 eexists. symmetry. apply with_machine_id. }
  destruct (_ <? _); [|do 2 eexists; symmetry; apply with_machine_id].
  destruct (log_ _ !! _) as [e|]; [|do 2 eexists; symmetry; apply with_machine_id].
  pose proof (execute_op_spec (u64 (last_executed_op_ (state_ r) + 1)) e r) as H.
  destruct (execute_op _ e r) as [r1 o1]. simpl in H. subst r1.
  match goal with |- context [execute_loop fuel ?r1] => destruct (IH r1) as (m & k & Hr) end.
  destruct (execute_loop fuel _) as [r2 o2]. simpl in *. subst. eauto.
Qed.

Lemma execute_shape r : ∃ m k, (execute_commited_ops r).1 = with_machine r m k.
Proof. apply execute_loop_shape. Qed.

Lemma advance_loop_shape fuel s : ∃ c, advance_loop fuel s = s <| commit_ := c |>.
Proof.
  revert s. induction fuel as [|fuel IH]; intros s; simpl.
  { exists (commit_ s). by destruct s. }
  case_match; [|exists (commit_ s); by destruct s].
  destruct (quorum _ s); simpl; [|exists (commit_ s); by destruct s].
  match goal with |- context [advance_loop fuel ?s1] => destruct (IH s1) as (c & ->) end.
  simpl. eauto.
Qed.

Lemma advance_shape r :
  ∃ m k c, (advance_primary_commit_number r).1
    = with_machine (r <| state_ := (state_ r) <| commit_ := c |> |>) m k.
Proof.
  unfold advance_primary_commit_number. destruct (is_primary _); cbn [negb].
  - destruct (advance_loop_shape (S (size (log_ (state_ r)))) (state_ r)) as [c ->].
    destruct (execute_shape (r <| state_ := (state_ r) <| commit_ := c |> |>)) as (m & k & H).
    eauto.
  - exists (machine_of (state_ r)), (last_executed_op_ (state_ r)), (commit_ (state_ r)).
    by destruct r as [[] ? ? ? ? ? ?].
Qed.

Lemma refresh_shape l s : ∃ ct, foldl refresh_client s l = s <| client_table_ := ct |>.
Proof.
  revert s. induction l as [|kv l IH]; intros s; simpl.
  { exists (client_table_ s). by destruct s. }
  destruct (IH (refresh_client s kv)) as [ct ->]. eauto.
Qed.

Lemma refresh_client_table_shape s : ∃ ct, refresh_client_table s = s <| client_table_ := ct |>.
Proof. apply refresh_shape. Qed.

(** Replace every loop call in the goal by the record update it amounts to. *)
Ltac reshape :=
  repeat match goal with
  | |- context [execute_commited_ops ?r] =>
      let m := fresh "m" in let k := fresh "k" in let H := fresh "Hshape" in
      destruct (execute_shape r) as (m & k & H);
      let o := fresh "out" in let r' := fresh "r" in
      destruct (execute_commited_ops r) as [r' o]; simpl in H; subst r'
  | |- context [advance_primary_commit_number ?r] =>
      let m := fresh "m" in let k := fresh "k" in let c := fresh "c" in let H := fresh "Hshape" in
      destruct (advance_shape r) as (m & k & c & H);
      let o := fresh "out" in let r' := fresh "r" in
      destruct (advance_primary_commit_number r) as [r' o]; simpl in H; subst r'
  | |- context [refresh_client_table ?s] =>
      let ct := fresh "ct" in let H := fresh "Hshape" in
      destruct (refresh_client_table_shape s) as [ct H]; rewrite H; clear H
  end.

(** ** Frame: identity, configuration and queue *)

Record frame (r r' : Replica) : Prop := {
  frame_id : id_ (state_ r') = id_ (state_ r);
  frame_f : fault_tolerance_f_ (state_ r') = fault_tolerance_f_ (state_ r);
  frame_config : cluster_config_ (state_ r') = cluster_config_ (state_ r);
  frame_queue : message_queue_ r' = message_queue_ r;
  frame_posted : posted r' = posted r;
  frame_counter : nonce_counter r' = nonce_counter r }.

#[export] Instance frame_preorder : PreOrder frame.
Proof. split; [by split|]. intros r1 r2 r3 [] []. split; congruence. Qed.

Section frame.
Context (env : Env).

Lemma handle_do_view_change_frame inb r : frame r (handle_do_view_change env inb r).1.
Proof.
  unfold handle_do_view_change. simpl. case_match; [|by split].
  destruct (do_view_change_received_ (state_ r) ++ [ib_message inb]) as [|first rest]; [by split|].
  destruct (select_log _ _ first rest) as [[bp bo] mc]. reshape. by split.
Qed.

Lemma dispatch_frame inb r : frame r (dispatch env inb r).1.
Proof.
  unfold dispatch. destruct (h_command _); try by split.
  - unfold handle_request. simpl. repeat case_match; by split.
  - unfold handle_prepare. simpl. case_match; [reshape|]; by split.
  - unfold handle_prepare_ok. case_match; [reshape|]; by split.
  - unfold handle_commit. simpl. case_match; [reshape|]; by split.
  - unfold handle_start_view_change. simpl. case_match; [|by split].
    case_match; [|by split].
    etrans; [|apply handle_do_view_change_frame]. by split.
  - apply handle_do_view_change_frame.
  - unfold handle_start_view. destruct (sv_deserialize _ _) as [[] p]; simpl; [|by split].
    reshape. simpl. by split.
  - unfold handle_recovery_request. destruct (rq_deserialize _ _) as [[] p]; simpl; by split.
  - unfold handle_recovery_response. destruct (rr_deserialize _ _) as [[] p]; simpl; [|by split].
    case_match; simpl; [by split|]. case_match; [|by split].
    destruct (recovery_responses_ (state_ r) ++ [ib_message inb]) as [|first rest]; [by split|].
    destruct (rr_deserialize _ _) as [b bp]. reshape. simpl. by split.
Qed.

Lemma initiate_view_change_frame r : frame r (initiate_view_change r).1.
Proof. unfold initiate_view_change, enter_new_view. simpl. case_match; by split. Qed.
End frame.

(** ** The type invariant: every member holds a value of its C++ type *)

Definition message_wf (m : vsr_message) : Prop := header_wf (header m).

Definition log_entries_wf (log : gmap Z log_entry) : Prop :=
  map_Forall (λ k e, is_u64 k ∧ entry_wf e) log.

Record state_wf (s : ReplicaState) : Prop := {
  swf_view : is_u32 (view_ s);
  swf_op : is_u64 (op_ s);
  swf_commit : is_u64 (commit_ s);
  swf_last : is_u64 (last_executed_op_ s);
  swf_normal : is_u32 (last_normal_view_ s);
  swf_log : log_entries_wf (log_ s);
  swf_clients : map_Forall (λ _ ce, is_u32 (request_number ce)) (client_table_ s);
  swf_nonce : is_u128 (recovery_nonce_ s);
  swf_responses : Forall message_wf (recovery_responses_ s);
  swf_dvcs : Forall message_wf (do_view_change_received_ s) }.

Record replica_wf (r : Replica) : Prop := {
  rwf_state : state_wf (state_ r);
  rwf_queue : Forall (λ inb, message_wf (ib_message inb)) (message_queue_ r);
  rwf_counter : is_u32 (nonce_counter r) }.

(** *** Parsed logs are well-formed *)

Lemma read_log_wf l r log : read_log_from_buffer l ∅ = (r, log) → log_entries_wf log.
Proof.
  assert (∀ fuel i n l log r log', log_entries_wf log →
    read_entries fuel i n l log = (r, log') → log_entries_wf log') as Hent.
  { induction fuel as [|fuel IH]; intros i n l' log0 r' log' Hw; simpl; destruct (i <? n).
    1, 2, 4: by intros [= <- <-].
    destruct (read_entry l') as [[[k e] p]|] eqn:He; [|by intros [= <- <-]].
    apply read_entry_inv in He as (_ & Hk & _ & Hwf). apply IH. by apply map_Forall_insert_2. }
  unfold read_log_from_buffer.
  destruct (read_pod uint64 l) as [[n p]|]; [|intros [= <- <-]; apply map_Forall_empty].
  apply Hent. apply map_Forall_empty.
Qed.

Lemma dvc_log_wf d v :
  log_entries_wf (dvc_log (dvc_deserialize d {| dvc_last_normal_view := v; dvc_log := ∅ |}).2).
Proof.
  unfold dvc_deserialize. destruct (read_pod uint32 d) as [[n p]|]; simpl; [|apply map_Forall_empty].
  destruct (read_log_from_buffer p ∅) eqn:Hl. by eapply read_log_wf.
Qed.

Lemma sv_log_wf d : log_entries_wf (sv_log (sv_deserialize d {| sv_log := ∅ |}).2).
Proof.
  unfold sv_deserialize. simpl. destruct (read_log_from_buffer d ∅) eqn:Hl. by eapply read_log_wf.
Qed.

Lemma rr_log_wf d n :
  log_entries_wf (rr_log (rr_deserialize d {| rr_nonce := n; rr_log := ∅ |}).2).
Proof.
  unfold rr_deserialize. destruct (read_pod uint128 d) as [[n' p]|]; simpl; [|apply map_Forall_empty].
  destruct (read_log_from_buffer p ∅) eqn:Hl. by eapply read_log_wf.
Qed.

Lemma rr_nonce_wf d m : (rr_deserialize d m).1 = true → is_u128 (rr_nonce (rr_deserialize d m).2).
Proof.
  unfold rr_deserialize. destruct (read_pod uint128 d) as [[n' p]|] eqn:Hr; simpl; [|done].
  apply (read_pod_inv uint128) in Hr as (_ & _ & Hn). by destruct (read_log_from_buffer p _).
Qed.

(** *** Loops *)

Lemma client_entry_wf c s : state_wf s → is_u32 (request_number (client_entry c s)).
Proof.
  intros Hs. unfold client_entry. destruct (client_table_ s !! c) as [ce|] eqn:Hc; simpl.
  - exact (swf_clients _ Hs _ _ Hc).
  - rlia.
Qed.

Lemma exec_entry_wf m e :
  map_Forall (λ _ ce, is_u32 (request_number ce)) m.2 → entry_wf e →
  map_Forall (λ _ ce, is_u32 (request_number ce)) (exec_entry m e).2.
Proof.
  intros Hm He. unfold exec_entry. destruct (negb _ || negb _).
  - destruct (apply_operation _ _ _). simpl. apply map_Forall_insert_2; [apply He|done].
  - simpl. apply map_Forall_insert_2; [|done].
    destruct (m.2 !! le_client_id e) eqn:Hl; simpl; [exact (Hm _ _ Hl)|rlia].
Qed.

Lemma ready_wf s : state_wf s → Forall entry_wf (ready_entries s).
Proof.
  intros Hs. apply Forall_forall. intros e [i Hi]%list_elem_of_lookup.
  apply ready_lookup in Hi as [Hi _]. by apply (swf_log _ Hs) in Hi as [_ ?].
Qed.

Lemma execute_wf r : state_wf (state_ r) → state_wf (state_ (execute_commited_ops r).1).
Proof.
  intros Hs. rewrite execute_commited_ops_spec by apply Hs.
  split; simpl; try apply Hs.
  - pose proof (swf_last _ Hs). pose proof (swf_commit _ Hs). unfold ready_entries.
    destruct (decide (last_executed_op_ (state_ r) ≤ commit_ (state_ r))) as [Hle|Hgt].
    + pose proof (ready_length (S (size (log_ (state_ r)))) (log_ (state_ r)) _ _ Hle). rlia.
    + cbn [ready]. rewrite (proj2 (Z.ltb_ge _ _)) by lia. simpl. rlia.
  - pose proof (ready_wf _ Hs) as Hes. pose proof (swf_clients _ Hs) as Hct.
    change (client_table_ (state_ r)) with (machine_of (state_ r)).2 in Hct.
    revert Hct. generalize (machine_of (state_ r)).
    induction Hes as [|e es He _ IH]; simpl; [done|]. intros m Hm. by apply IH, exec_entry_wf.
Qed.

Lemma advance_loop_wf fuel s : state_wf s → state_wf (advance_loop fuel s).
Proof.
  revert s. induction fuel as [|fuel IH]; intros s Hs; simpl; [done|].
  case_match; [|done]. destruct (quorum _ s); simpl; [|done].
  apply IH. destruct Hs. split; simpl; try done. apply u64_range.
Qed.

Lemma advance_wf r : state_wf (state_ r) → state_wf (state_ (advance_primary_commit_number r).1).
Proof.
  intros Hs. unfold advance_primary_commit_number. destruct (is_primary _); cbn [negb]; [|done].
  apply execute_wf. cbn [state_ setf]. by apply advance_loop_wf.
Qed.

Lemma set_client_entry_wf c ce s :
  state_wf s → is_u32 (request_number ce) → state_wf (set_client_entry c ce s).
Proof. intros [] H. split; simpl; try done. by apply map_Forall_insert_2. Qed.

Lemma refresh_wf s : state_wf s → state_wf (refresh_client_table s).
Proof.
  assert (∀ l s, Forall (λ kv, entry_wf kv.2) l → state_wf s →
    state_wf (foldl refresh_client s l)) as Hl.
  { intros l s0 Hl. revert s0. induction Hl as [|kv l He _ IH]; intros s0 Hs; simpl; [done|].
    apply IH, set_client_entry_wf; [done|]. case_match; [apply He|by apply client_entry_wf]. }
  intros Hs. apply Hl; [|done]. apply Forall_forall. intros [k e] He%elem_of_items.
  by apply (swf_log _ Hs) in He as [_ ?].
Qed.

(** *** Handlers *)

Lemma lor_u64 a b : is_u64 a → is_u64 b → is_u64 (Z.lor a b).
Proof.
  intros Ha Hb. unfold_ranges. split; [apply Z.lor_nonneg; lia|].
  destruct (decide (Z.lor a b = 0)) as [->|Hne]; [lia|].
  apply Z.log2_lt_pow2; [pose proof (proj2 (Z.lor_nonneg a b)); lia|].
  rewrite Z.log2_lor by lia.
  assert (∀ x, 0 ≤ x < 2 ^ 64 → Z.log2 x < 64) as Hlog.
  { intros x Hx. destruct (decide (x = 0)) as [->|]; [simpl; lia|]. apply Z.log2_lt_pow2; lia. }
  pose proof (Hlog a Ha). pose proof (Hlog b Hb). lia.
Qed.

Section wf.
Context (env : Env).

(** Closes the goals about members a handler leaves alone. *)
Ltac wf_fields Hs :=
  destruct Hs; split; simpl; try assumption; try apply u64_range; try apply u32_range;
  try apply Forall_nil_2.

Lemma select_log_wf s first rest :
  state_wf s → message_wf first → Forall message_wf rest →
  let '(bp, bo, mc) := select_log env s first rest in
  log_entries_wf (dvc_log bp) ∧ is_u64 bo ∧ is_u64 mc.
Proof.
  intros Hs Hh Hrest. unfold select_log.
  destruct (dvc_deserialize _ _) as [b bp] eqn:Hd.
  pose proof (dvc_log_wf (payload first) (garbage env)) as Hlog. rewrite Hd in Hlog. simpl in Hlog.
  assert (is_u64 (h_op (header first))) as Hop by apply Hh.
  assert (is_u64 (Z.max (commit_ s) (h_commit (header first)))) as Hc.
  { pose proof (swf_commit _ Hs). pose proof (wf_commit _ Hh). rlia. }
  clear Hd Hh. revert bp Hlog Hop Hc.
  generalize (h_op (header first)) (Z.max (commit_ s) (h_commit (header first))).
  induction Hrest as [|m rest Hh _ IH]; intros bo mc bp Hlog Hop Hc; simpl; [done|].
  destruct (dvc_deserialize (payload m) _) as [ok cp] eqn:Hd.
  pose proof (dvc_log_wf (payload m) (garbage env)) as Hlog'. rewrite Hd in Hlog'. simpl in Hlog'.
  pose proof (wf_op _ Hh). pose proof (wf_commit _ Hh).
  destruct ok; [|by apply IH].
  destruct (_ <? _); [apply IH; done || rlia|].
  destruct (_ && _); apply IH; done || rlia.
Qed.

(** The messages a handler builds on the zero header are well-formed. *)
Lemma zero_based_wf cmd view op commit rep p :
  command.wf cmd → is_u32 view → is_u64 op → is_u64 commit → is_u8 rep →
  message_wf {| header := zero_header <| h_command := cmd |> <| h_view := view |> <| h_op := op |>
                  <| h_commit := commit |> <| h_replica := rep |>; payload := p |}.
Proof. intros. split; simpl; try done; rlia. Qed.

Lemma better_response_wf first rest :
  message_wf first → Forall message_wf rest → message_wf (foldl better_response first rest).
Proof.
  intros Hf Hr. revert first Hf. induction Hr as [|m rest Hm _ IH]; intros first Hf; simpl; [done|].
  apply IH. unfold better_response. by repeat case_match.
Qed.

Lemma handle_do_view_change_wf inb r :
  state_wf (state_ r) → message_wf (ib_message inb) →
  state_wf (state_ (handle_do_view_change env inb r).1).
Proof.
  intros Hs Hm. unfold handle_do_view_change. simpl.
  assert (Forall message_wf (do_view_change_received_ (state_ r) ++ [ib_message inb])) as Hall.
  { apply Forall_app. split; [apply Hs|]. by constructor. }
  destruct (quorum _ _); [|wf_fields Hs]. destruct (_ ++ _) as [|first rest]; [by wf_fields Hs|].
  apply Forall_cons in Hall as [Hf Hr].
  match goal with |- context [select_log env ?s first rest] =>
    pose proof (select_log_wf s first rest) as Hsel; destruct (select_log env s first rest)
      as [[bp bo] mc] end.
  destruct Hsel as (Hl & Ho & Hc); [wf_fields Hs|done|done|].
  match goal with |- context [execute_commited_ops ?r'] =>
    pose proof (execute_wf r') as Hex; destruct (execute_commited_ops r') as [r1 o1] end.
  apply Hex. wf_fields Hs.
Qed.

Lemma dispatch_wf inb r :
  state_wf (state_ r) → message_wf (ib_message inb) →
  state_wf (state_ (dispatch env inb r).1).
Proof.
  intros Hs Hm. pose proof Hm as Hh. unfold dispatch.
  destruct (h_command (header (ib_message inb))); try done.
  - unfold handle_request. cbv zeta. case_match; [|case_match].
    1, 2: apply set_client_entry_wf; [done|by apply client_entry_wf].
    apply set_client_entry_wf; [|apply Hh]. wf_fields Hs.
    apply map_Forall_insert_2; [|done]. split; [apply u64_range|]. split; simpl; try done; apply Hh.
  - unfold handle_prepare. cbv zeta.
    match goal with |- context [set_client_entry ?c ?ce ?s] =>
      assert (state_wf (set_client_entry c ce s)) as Hs' end.
    { apply set_client_entry_wf; [|apply Hh]. wf_fields Hs.
      apply map_Forall_insert_2; [|done]. split; [apply u64_range|]. split; simpl; try done; apply Hh. }
    case_match; [|done].
    match goal with |- context [execute_commited_ops ?r'] =>
      pose proof (execute_wf r') as Hex; destruct (execute_commited_ops r') as [r1 o1] end.
    apply Hex. wf_fields Hs'. apply Hh.
  - unfold handle_prepare_ok. case_match eqn:He; [|done]. apply advance_wf. wf_fields Hs.
    apply map_Forall_insert_2; [|done]. destruct (swf_log0 _ _ He) as [Hk []]. by split.
  - unfold handle_commit. case_match; [|done]. apply execute_wf. wf_fields Hs. apply Hh.
  - unfold handle_start_view_change. simpl. case_match; [|wf_fields Hs].
    case_match; [|wf_fields Hs].
    apply handle_do_view_change_wf; [wf_fields Hs|]. 
    apply zero_based_wf; simpl; [done|apply Hs|apply Hs|apply Hs|apply u8_range].
  - by apply handle_do_view_change_wf.
  - unfold handle_start_view. pose proof (sv_log_wf (payload (ib_message inb))) as Hlog.
    destruct (sv_deserialize _ _) as [[] p]; simpl in *; [|done].
    match goal with |- context [execute_commited_ops ?r'] =>
      pose proof (execute_wf r') as Hex; destruct (execute_commited_ops r') as [r1 o1] end.
    apply Hex. simpl. apply refresh_wf. wf_fields Hs; apply Hh.
  - unfold handle_recovery_request. by destruct (rq_deserialize _ _) as [[] p].
  - unfold handle_recovery_response. destruct (rr_deserialize _ _) as [[] p]; simpl; [|done].
    destruct (uint128_eqb _ _); simpl; [|done].
    assert (Forall message_wf (recovery_responses_ (state_ r) ++ [ib_message inb])) as Hall.
    { apply Forall_app. split; [apply Hs|]. by constructor. }
    case_match; [|wf_fields Hs].
    destruct (_ ++ _) as [|first rest]; [by wf_fields Hs|].
    apply Forall_cons in Hall as [Hf Hr]. pose proof (better_response_wf first rest Hf Hr) as Hb.
    match goal with |- context [rr_deserialize ?d ?m0] =>
      pose proof (rr_log_wf d (U128 (garbage env) (garbage env))) as Hlog;
      destruct (rr_deserialize d m0) as [b bp] end.
    match goal with |- context [execute_commited_ops ?r'] =>
      pose proof (execute_wf r') as Hex; destruct (execute_commited_ops r') as [r1 o1] end.
    simpl in *.
    assert (state_wf (state_ r1)) as Hr1.
    { apply Hex. apply refresh_wf. wf_fields Hs; try apply Hb; [rlia|apply map_Forall_empty|].
      by constructor. }
    wf_fields Hr1. done.
Qed.

Lemma initiate_view_change_wf r :
  replica_wf r → replica_wf (initiate_view_change r).1.
Proof.
  intros [Hs Hq Hc]. split; [|done|done]. unfold initiate_view_change, enter_new_view. simpl.
  case_match; wf_fields Hs.
Qed.

Lemma initiate_recovery_wf r : replica_wf r → replica_wf (initiate_recovery env r).1.
Proof.
  intros [Hs Hq Hc]. unfold initiate_recovery. case_match; [done|]. simpl.
  split; simpl; [|done|apply u32_range]. wf_fields Hs.
  split; simpl; [apply u64_range|]. apply lor_u64; [apply u64_range|rlia].
Qed.
End wf.
