(* ===== verification/Queue.v ===== *)
(** * The message queue

    [Replica::process_message_queue] ([src/server/replica.cpp], lines 87-168) as a
    sequence of micro steps (discard a stale message, handle a message, react to
    a stuck message), its termination, and what happens to messages that can
    neither be processed nor discarded. *)
From S2P Require Import Prelude Types Serialization KeyValue ReplicaState Replica Execution Handlers.

#[global] Arguments is_stale : simpl never.
#[global] Arguments can_process : simpl never.
#[global] Arguments determine_state_action : simpl never.
#[global] Arguments dispatch : simpl never.

(** The front of the queue neither expires nor can be processed. *)
Definition stuck (r : Replica) : Prop :=
  match message_queue_ r with
  | [] => True
  | front :: _ =>
      is_stale (ib_message front) (state_ r) = false ∧ can_process front (state_ r) = false
  end.

Section queue.
Context (env : Env).

(** ** Micro steps *)

Inductive micro : Replica → list output → Replica → Prop :=
  | micro_discard r front rest :
      message_queue_ r = front :: rest →
      is_stale (ib_message front) (state_ r) = true →
      micro r [] (r <| message_queue_ := rest |>)
  | micro_dispatch r front rest r' out :
      message_queue_ r = front :: rest →
      is_stale (ib_message front) (state_ r) = false →
      can_process front (state_ r) = true →
      dispatch env front (r <| message_queue_ := rest |>) = (r', out) →
      micro r out r'
  | micro_stuck r front rest r' out :
      message_queue_ r = front :: rest →
      is_stale (ib_message front) (state_ r) = false →
      can_process front (state_ r) = false →
      status_ (state_ r) = ReplicaStatus.NORMAL →
      handle_stuck env r = (r', out) →
      micro r out r'.

Inductive micros : Replica → list output → Replica → Prop :=
  | micros_refl r : micros r [] r
  | micros_step r o r1 o' r2 : micro r o r1 → micros r1 o' r2 → micros r (o ++ o') r2.

Lemma micros_trans r o r1 o' r2 : micros r o r1 → micros r1 o' r2 → micros r (o ++ o') r2.
Proof.
  induction 1 as [|r o r1' o1 r1'' Hm _ IH]; [done|]. intros H%IH.
  rewrite <- (assoc_L (++)). by econstructor.
Qed.

Lemma micros_invariant (P : Replica → Prop) r o r' :
  (∀ r o r', micro r o r' → P r → P r') → micros r o r' → P r → P r'.
Proof. intros HP. induction 1; eauto. Qed.

(** ** The inner loop *)

Lemma dispatch_queue inb r : message_queue_ (dispatch env inb r).1 = message_queue_ r.
Proof. apply dispatch_frame. Qed.

Lemma drain_micros fuel p r r' o p' : drain env fuel p r = (r', o, p') → micros r o r'.
Proof.
  revert p r r' o p'. induction fuel as [|fuel IH]; intros p r r' o p'; simpl.
  { intros [= <- <- <-]. constructor. }
  destruct (message_queue_ r) as [|front rest] eqn:Hq; [intros [= <- <- <-]; constructor|].
  destruct (is_stale _ _) eqn:Hs.
  { intros H%IH. eapply (micros_step _ []); [by eapply micro_discard|done]. }
  destruct (can_process _ _) eqn:Hc; [|intros [= <- <- <-]; constructor].
  destruct (dispatch _ _ _) as [r1 o1] eqn:Hd. destruct (drain _ _ _ r1) as [[r2 o2] p2] eqn:Hr.
  intros [= <- <- <-]. eapply micros_step; [by eapply micro_dispatch|by eapply IH].
Qed.

Lemma drain_post fuel p r r' o p' :
  (length (message_queue_ r) < fuel)%nat → drain env fuel p r = (r', o, p') →
  stuck r' ∧ (length (message_queue_ r') ≤ length (message_queue_ r))%nat ∧
  (p' = true → p = true ∨ (length (message_queue_ r') < length (message_queue_ r))%nat) ∧
  (p = true → p' = true) ∧ (p' = false → r' = r ∧ o = []).
Proof.
  revert p r r' o p'. induction fuel as [|fuel IH]; intros p r r' o p' Hf; simpl; [lia|].
  unfold stuck at 1.
  destruct (message_queue_ r) as [|front rest] eqn:Hq.
  { intros [= <- <- <-]. rewrite Hq. naive_solver lia. }
  destruct (is_stale _ _) eqn:Hs.
  { intros H%IH; [|simpl in *; lia]. simpl in *. naive_solver lia. }
  destruct (can_process _ _) eqn:Hc; last first.
  { intros [= <- <- <-]. rewrite Hq. naive_solver lia. }
  pose proof (dispatch_queue front (r <| message_queue_ := rest |>)) as Hdq.
  destruct (dispatch _ _ _) as [r1 o1] eqn:Hd. destruct (drain _ _ _ r1) as [[r2 o2] p2] eqn:Hr.
  simpl in *. intros [= <- <- <-]. apply IH in Hr; [|rewrite Hdq; lia].
  rewrite Hdq in Hr. naive_solver lia.
Qed.

Lemma drain_fuel fuel fuel' p r :
  (length (message_queue_ r) < fuel)%nat → (length (message_queue_ r) < fuel')%nat →
  drain env fuel p r = drain env fuel' p r.
Proof.
  revert fuel' p r. induction fuel as [|fuel IH]; intros [|fuel'] p r H H'; simpl; try lia.
  destruct (message_queue_ r) as [|front rest]; [done|]. simpl in *.
  destruct (is_stale _ _); [apply IH; simpl; lia|].
  destruct (can_process _ _); [|done].
  pose proof (dispatch_queue front (r <| message_queue_ := rest |>)) as Hdq.
  destruct (dispatch _ _ _) as [r1 o1]. simpl in Hdq. rewrite (IH fuel'); [done|rewrite Hdq; lia..].
Qed.

(** ** Stuck messages and the outer loop *)

Lemma handle_stuck_micros r r' o : stuck r → handle_stuck env r = (r', o) → micros r o r'.
Proof.
  intros Hst H. pose proof H as H0. unfold handle_stuck in H. unfold stuck in Hst.
  destruct (message_queue_ r) as [|front rest] eqn:Hq; [injection H as <- <-; constructor|].
  destruct Hst as [Hs Hc]. case_bool_decide as Hn; [|injection H as <- <-; constructor].
  rewrite <- (app_nil_r o). econstructor; [by eapply micro_stuck|constructor].
Qed.

Lemma handle_stuck_queue r :
  message_queue_ (handle_stuck env r).1 = message_queue_ r ∨
  message_queue_ (handle_stuck env r).1 = [].
Proof.
  unfold handle_stuck. destruct (message_queue_ r) as [|front rest] eqn:Hq; [by left|].
  case_bool_decide; [|by left]. destruct (determine_state_action _ _); [by left| |].
  - left. rewrite <- Hq. apply initiate_view_change_frame.
  - right. by destruct (initiate_recovery env r).
Qed.

Lemma passes_micros fuel r r' o : passes env fuel r = (r', o) → micros r o r'.
Proof.
  revert r r' o. induction fuel as [|fuel IH]; intros r r' o; [intros [= <- <-]; constructor|].
  cbn [passes]. destruct (drain _ _ _ r) as [[r1 o1] p] eqn:Hd.
  destruct (handle_stuck _ r1) as [r2 o2] eqn:Hh.
  pose proof (drain_micros _ _ _ _ _ _ Hd) as Hm1.
  apply drain_post in Hd as (Hst & _); [|lia].
  pose proof (handle_stuck_micros _ _ _ Hst Hh) as Hm2.
  destruct p; [|intros [= <- <-]; by eapply micros_trans].
  destruct (passes _ fuel r2) as [r3 o3] eqn:Hp. intros [= <- <-].
  eapply micros_trans; [done|]. eapply micros_trans; [done|]. by apply IH.
Qed.

Lemma process_micros r r' o : process_message_queue env r = (r', o) → micros r o r'.
Proof. apply passes_micros. Qed.

Lemma passes_fuel fuel fuel' r :
  (length (message_queue_ r) < fuel)%nat → (length (message_queue_ r) < fuel')%nat →
  passes env fuel r = passes env fuel' r.
Proof.
  revert fuel' r. induction fuel as [|fuel IH]; intros [|fuel'] r H H'; try lia.
  cbn [passes]. destruct (drain _ _ _ r) as [[r1 o1] p] eqn:Hd.
  pose proof (handle_stuck_queue r1) as Hq. destruct (handle_stuck _ r1) as [r2 o2].
  destruct p; [|done]. apply drain_post in Hd as (_ & _ & Hlt & _); [|lia].
  destruct (Hlt eq_refl) as [?|Hlen]; [done|]. simpl in Hq.
  rewrite (IH fuel'); [done|..]; destruct Hq as [->| ->]; simpl; lia.
Qed.
End queue.

(** ** Blocked queues *)

(** Nothing will happen to the front of the queue in the current state. *)
Definition blocked (r : Replica) : Prop :=
  ∃ front rest, message_queue_ r = front :: rest ∧
    is_stale (ib_message front) (state_ r) = false ∧ can_process front (state_ r) = false ∧
    (status_ (state_ r) = ReplicaStatus.NORMAL →
     determine_state_action (ib_message front) (state_ r) = StateAction.PROCESS_NORMALLY).

(** A blocked replica whose liveness timer does not act. *)
Definition frozen (r : Replica) : Prop :=
  blocked r ∧
  (is_primary (state_ r) = true ∨ status_ (state_ r) ≠ ReplicaStatus.NORMAL).

Section blocked.
Context (env : Env).

Lemma blocked_process r : blocked r → process_message_queue env r = (r, []).
Proof.
  intros (front & rest & Hq & Hs & Hc & Hd). unfold process_message_queue. cbn [passes].
  assert (drain env (S (length (message_queue_ r))) false r = (r, [], false)) as ->.
  { rewrite Hq. cbn [drain]. by rewrite Hq, Hs, Hc. }
  assert (handle_stuck env r = (r, [])) as ->; [|done].
  unfold handle_stuck. rewrite Hq. case_bool_decide as Hn; [|done]. by rewrite (Hd Hn).
Qed.

Lemma blocked_same r r' :
  state_ r' = state_ r → head (message_queue_ r') = head (message_queue_ r) →
  blocked r → blocked r'.
Proof.
  intros Hst Hh (front & rest & Hq & H). rewrite Hq in Hh. unfold blocked. rewrite Hst.
  destruct (message_queue_ r') as [|front' rest']; simplify_eq/=. eauto.
Qed.

Lemma frozen_event e r :
  frozen r →
  let r' := (handle_event env e r).1 in
  frozen r' ∧ state_ r' = state_ r ∧ head (message_queue_ r') = head (message_queue_ r).
Proof.
  intros [Hb Hl]. assert (message_queue_ r ≠ []) as Hne.
  { destruct Hb as (? & ? & Hq & _). by rewrite Hq. }
  assert (∀ r', state_ r' = state_ r → head (message_queue_ r') = head (message_queue_ r) →
    frozen r' ∧ state_ r' = state_ r ∧ head (message_queue_ r') = head (message_queue_ r)) as Hdone.
  { intros r' Hst Hh. split_and!; try done. split; [by eapply blocked_same|by rewrite Hst]. }
  destruct e as [c m| | |]; simpl.
  - apply Hdone; [done|]. simpl. by destruct (message_queue_ r).
  - destruct (posted r) as [|n]; [by apply Hdone|].
    rewrite blocked_process by (by eapply blocked_same). by apply Hdone.
  - by apply Hdone.
  - unfold check_primary_liveness.
    destruct Hl as [->|Hn]; [by apply Hdone|]. rewrite (bool_decide_eq_false_2 _ Hn), andb_false_r.
    by apply Hdone.
Qed.

Lemma frozen_events es r :
  frozen r → state_ (handle_events env es r).1 = state_ r ∧ frozen (handle_events env es r).1.
Proof.
  revert r. induction es as [|e es IH]; intros r Hr; simpl; [done|].
  destruct (handle_event env e r) as [r1 o1] eqn:He.
  pose proof (frozen_event e r Hr) as H. rewrite He in H. destruct H as (Hf & Hst & _).
  specialize (IH r1 Hf). destruct (handle_events env es r1) as [r2 o2]. simpl in *.
  destruct IH as [-> IH]. by rewrite Hst.
Qed.

(** During a view change, with no task posted, only a message makes a difference. *)
Definition no_message (e : event) : Prop := match e with ev_message _ _ => False | _ => True end.

Lemma quiet_events es r :
  status_ (state_ r) = ReplicaStatus.VIEW_CHANGE → posted r = 0%nat → Forall no_message es →
  handle_events env es r = (r, []).
Proof.
  intros Hst Hpo. induction 1 as [|e es He _ IH]; [done|]. cbn [handle_events].
  assert (handle_event env e r = (r, [])) as ->; [|by rewrite IH].
  destruct e; [done|..]; simpl; unfold send_commit_message_if_needed, check_primary_liveness; rewrite ?Hpo, ?Hst; try done.
  - by rewrite orb_true_r.
  - by rewrite andb_false_r.
Qed.

Lemma join_process r front rest :
  let s := state_ r in let h := header (ib_message front) in
  message_queue_ r = front :: rest → posted r = 1%nat → status_ s = ReplicaStatus.NORMAL →
  h_command h = command.start_view_change → h_view h = u32 (view_ s + 1) → view_ s < h_view h →
  handle_event env ev_process_queue r = initiate_view_change (r <| posted := 0%nat |>).
Proof.
  cbv zeta. intros Hq Hpo Hst Hc Hv Hlt. cbn [handle_event]. rewrite Hpo. set (r0 := r <| posted := 0%nat |>).
  assert (message_queue_ r0 = front :: rest ∧ state_ r0 = state_ r) as [Hq0 Hs0] by done. clearbody r0.
  unfold process_message_queue. cbn [passes].
  assert (drain env (S (length (message_queue_ r0))) false r0 = (r0, [], false)) as ->.
  { rewrite Hq0. cbn [drain]. rewrite Hq0, Hs0. unfold is_stale, can_process, check_can_process_start_view_change.
    rewrite Hc, (proj2 (Z.ltb_ge _ _)), (proj2 (Z.eqb_neq _ _)) by lia. by rewrite andb_false_r. }
  assert (handle_stuck env r0 = initiate_view_change r0) as ->; [|by destruct (initiate_view_change r0)].
  unfold handle_stuck. rewrite Hq0, Hs0, Hst. simpl. unfold determine_state_action.
  rewrite (proj2 (Z.ltb_lt _ _) Hlt), Hv, Z.eqb_refl, Hc. done.
Qed.

(** A backup, or a replica in a view change, behind a client request. *)
Definition behind_request (r : Replica) : Prop :=
  (∃ front rest, message_queue_ r = front :: rest ∧
     h_command (header (ib_message front)) = command.request ∧
     h_view (header (ib_message front)) = 0) ∧
  0 ≤ view_ (state_ r) ∧
  (is_primary (state_ r) = false ∨ status_ (state_ r) ≠ ReplicaStatus.NORMAL).

Lemma behind_request_blocked r : behind_request r → blocked r.
Proof.
  intros ((front & rest & Hq & Hc & Hv) & Hview & Hnp). exists front, rest. split_and!.
  - done.
  - unfold is_stale. by rewrite Hc.
  - unfold can_process, check_can_process_request. rewrite Hc.
    destruct Hnp as [->|Hn]; [by rewrite andb_false_r|]. by rewrite (bool_decide_eq_false_2 _ Hn).
  - intros _. unfold determine_state_action. rewrite Hc, Hv.
    rewrite (proj2 (Z.ltb_ge _ _)) by done.
    by rewrite (bool_decide_eq_false_2 (command.request = command.prepare)), andb_false_r by done.
Qed.

(** The members the protocol exists to maintain. *)
Definition same_data (s s' : ReplicaState) : Prop :=
  log_ s' = log_ s ∧ op_ s' = op_ s ∧ commit_ s' = commit_ s ∧
  last_executed_op_ s' = last_executed_op_ s ∧ client_table_ s' = client_table_ s ∧
  state_machine_ s' = state_machine_ s.

Lemma behind_request_event e r :
  behind_request r →
  behind_request (handle_event env e r).1 ∧ same_data (state_ r) (state_ (handle_event env e r).1).
Proof.
  intros Hr. pose proof Hr as ((front & rest & Hq & Hc & Hv) & Hview & Hnp).
  destruct e as [c m| | |]; simpl.
  - split; [|done]. split_and!; try done. exists front, (rest ++ [{| ib_connection := c; ib_message := m |}]).
    simpl. by rewrite Hq.
  - destruct (posted r) as [|n]; [done|].
    rewrite blocked_process; [done|]. apply (blocked_same r); try done. by apply behind_request_blocked.
  - done.
  - unfold check_primary_liveness. destruct (negb _ && _); [|done].
    destruct (_ <? _); [|done]. unfold initiate_view_change, enter_new_view. simpl.
    destruct (bool_decide _) eqn:Hst; simpl.
    all: split; [|done]; split_and!; [by eauto 10|apply u32_range|by right].
Qed.

Lemma behind_request_events es r :
  behind_request r →
  behind_request (handle_events env es r).1 ∧ same_data (state_ r) (state_ (handle_events env es r).1).
Proof.
  revert r. induction es as [|e es IH]; intros r Hr; simpl; [done|].
  destruct (handle_event env e r) as [r1 o1] eqn:He.
  pose proof (behind_request_event e r Hr) as H. rewrite He in H. destruct H as [H1 H2].
  specialize (IH r1 H1). destruct (handle_events env es r1) as [r2 o2]. simpl in *.
  destruct IH as [H3 H4]. split; [done|]. unfold same_data in *. intuition congruence.
Qed.
End blocked.

(** ** The replica invariant and the view *)

(** Responses are collected only while recovering, and none is older than the
    current view. *)
Record recovery_inv (s : ReplicaState) : Prop := {
  ri_idle : status_ s ≠ ReplicaStatus.RECOVERY → recovery_responses_ s = [];
  ri_views : Forall (λ m, view_ s ≤ h_view (header m)) (recovery_responses_ s) }.

Record replica_inv (r : Replica) : Prop := {
  inv_wf : replica_wf r;
  inv_recovery : recovery_inv (state_ r) }.

Definition event_wf (e : event) : Prop :=
  match e with ev_message _ m => message_wf m | _ => True end.

Section view.
Context (env : Env).

Lemma better_response_view first rest m :
  m ∈ first :: rest → h_view (header m) ≤ h_view (header (foldl better_response first rest)).
Proof.
  revert first m. induction rest as [|x rest IH]; intros first m; simpl.
  { intros ->%list_elem_of_singleton. lia. }
  assert (h_view (header first) ≤ h_view (header (better_response first x)) ∧
          h_view (header x) ≤ h_view (header (better_response first x))) as [H1 H2].
  { unfold better_response. destruct (_ <? _) eqn:Hlt; [apply Z.ltb_lt in Hlt; lia|].
    apply Z.ltb_ge in Hlt. destruct (_ =? _) eqn:He; simpl; [|lia].
    apply Z.eqb_eq in He. destruct (_ <? _); lia. }
  intros [->|[->|Hm]%elem_of_cons]%elem_of_cons.
  - etrans; [exact H1|]. apply IH. set_solver.
  - etrans; [exact H2|]. apply IH. set_solver.
  - apply IH. set_solver.
Qed.

(** Handlers that touch neither the view nor the collected responses. *)
Lemma recovery_inv_same s s' :
  view_ s' = view_ s → recovery_responses_ s' = recovery_responses_ s →
  status_ s' = status_ s ∨ status_ s ≠ ReplicaStatus.RECOVERY →
  recovery_inv s → recovery_inv s'.
Proof.
  intros Hv Hr Hst [Hi Hf]. split; rewrite ?Hv, ?Hr; [|done].
  intros Hn. apply Hi. destruct Hst; congruence.
Qed.

Ltac same_inv Hi := eapply recovery_inv_same, Hi; simpl; [done|done|by left].

Lemma handle_do_view_change_view inb r :
  status_ (state_ r) = ReplicaStatus.VIEW_CHANGE → recovery_inv (state_ r) →
  recovery_inv (state_ (handle_do_view_change env inb r).1) ∧
  view_ (state_ (handle_do_view_change env inb r).1) = view_ (state_ r).
Proof.
  intros Hst Hi. unfold handle_do_view_change. simpl.
  destruct (quorum _ _); [|split; [same_inv Hi|done]].
  destruct (_ ++ _) as [|first rest];
    [split; [same_inv Hi|done]|].
  destruct (select_log _ _ first rest) as [[bp bo] mc]. reshape. simpl.
  split; [|done]. eapply recovery_inv_same, Hi; simpl; [done|done|]. right. by rewrite Hst.
Qed.

Lemma dispatch_view inb r :
  is_stale (ib_message inb) (state_ r) = false → can_process inb (state_ r) = true →
  recovery_inv (state_ r) →
  recovery_inv (state_ (dispatch env inb r).1) ∧
  view_ (state_ r) ≤ view_ (state_ (dispatch env inb r).1).
Proof.
  intros Hs Hc Hi. unfold dispatch, can_process, is_stale in *.
  destruct (h_command (header (ib_message inb))); try done.
  - unfold handle_request. simpl. repeat case_match; simpl;
      (split; [same_inv Hi|done]).
  - unfold handle_prepare. simpl. case_match; [reshape|]; simpl;
      (split; [same_inv Hi|done]).
  - unfold handle_prepare_ok. case_match; [reshape|]; simpl;
      (split; [same_inv Hi|done]).
  - unfold handle_commit. simpl. case_match; [reshape|]; simpl;
      (split; [same_inv Hi|done]).
  - unfold check_can_process_start_view_change in Hc.
    apply andb_true_iff in Hc as [_ Hst%bool_decide_eq_true].
    unfold handle_start_view_change. simpl.
    destruct (quorum _ _); [|split; [same_inv Hi|done]].
    destruct (_ =? _); [|split; [same_inv Hi|done]].
    match goal with |- context [handle_do_view_change env ?i ?r0] =>
      destruct (handle_do_view_change_view i r0) as [H1 H2] end; [done| |by rewrite H2].
    same_inv Hi.
  - unfold check_can_process_do_view_change in Hc. repeat case_match; try done.
    destruct (handle_do_view_change_view inb r) as [Hri Hrv]; [|done|by rewrite Hrv].
    rename select (negb (bool_decide _) = false) into Hst.
    by apply negb_false_iff, bool_decide_eq_true in Hst.
  - unfold check_can_process_start_view in Hc. repeat case_match; try done.
    rename select (negb (bool_decide _) = false) into Hst.
    apply negb_false_iff, bool_decide_eq_true in Hst.
    rename select (negb (h_view _ =? _) = false) into Hv.
    apply negb_false_iff, Z.eqb_eq in Hv.
    unfold handle_start_view. destruct (sv_deserialize _ _) as [[] p]; simpl; [|done].
    reshape. simpl. rewrite Hv. split; [|done].
    eapply recovery_inv_same, Hi; simpl; [done|done|]. right. by rewrite Hst.
  - unfold handle_recovery_request. by destruct (rq_deserialize _ _) as [[] p].
  - simpl in Hs. apply Z.ltb_ge in Hs. unfold check_can_process_recovery_response in Hc.
    apply bool_decide_eq_true in Hc.
    unfold handle_recovery_response. destruct (rr_deserialize _ _) as [[] p]; simpl; [|done].
    destruct (uint128_eqb _ _); simpl; [|done].
    assert (Forall (λ m, view_ (state_ r) ≤ h_view (header m))
      (recovery_responses_ (state_ r) ++ [ib_message inb])) as Hall.
    { apply Forall_app. split; [apply Hi|]. by constructor. }
    destruct (quorum _ _); simpl; [|by split].
    destruct (_ ++ _) as [|first rest] eqn:Happ; [by destruct (recovery_responses_ (state_ r))|].
    destruct (rr_deserialize _ _) as [b bp]. reshape. simpl. split; [by split|].
    etrans; [by apply Forall_cons in Hall as [? _]|]. apply better_response_view. set_solver.
Qed.

Lemma micro_inv r o r' :
  micro env r o r' → replica_inv r → replica_inv r' ∧ view_ (state_ r) ≤ view_ (state_ r').
Proof.
  destruct 1 as [r front rest Hq Hst|r front rest r' o Hq Hst Hc Hd|r front rest r' o Hq Hst Hc Hn Hh];
    intros [[Hs Hw Hk] Hi].
  - rewrite Hq in Hw. apply Forall_cons in Hw as [_ Hw]. split; [|done]. by split.
  - rewrite Hq in Hw. apply Forall_cons in Hw as [Hm Hw].
    set (r0 := r <| message_queue_ := rest |>) in Hd.
    pose proof (dispatch_wf env front r0 Hs Hm) as Hwf.
    pose proof (dispatch_view front r0 Hst Hc Hi) as [Hi' Hv].
    pose proof (dispatch_frame env front r0) as [_ _ _ Hq' _ Hk'].
    rewrite Hd in Hwf, Hi', Hv, Hq', Hk'. cbn [fst] in *. split; [|done]. split; [|done].
    split; [done|by rewrite Hq'|by rewrite Hk'].
  - unfold handle_stuck in Hh. rewrite Hq, (bool_decide_eq_true_2 _ Hn) in Hh.
    destruct (determine_state_action _ _) eqn:Ha; [by injection Hh as <- <-| |].
    + assert (view_ (state_ r) < h_view (header (ib_message front))) as Hlt.
      { unfold determine_state_action in Ha. repeat case_match; try done. by apply Z.ltb_lt. }
      rewrite Hq in Hw. apply Forall_cons in Hw as [Hm Hw'].
      pose proof (wf_view _ Hm) as Hu. pose proof (swf_view _ Hs) as Hu'.
      assert (replica_wf (initiate_view_change r).1) as Hwf.
      { apply initiate_view_change_wf. split; [done|by rewrite Hq; constructor|done]. }
      rewrite Hh in Hwf. unfold initiate_view_change, enter_new_view in Hh.
      rewrite (bool_decide_eq_true_2 _ Hn) in Hh. simpl in Hh. injection Hh as <- <-.
      simpl in *. rewrite u32_small by rlia. split; [|lia]. split; [by rewrite u32_small in Hwf by rlia|].
      destruct Hi as [Hidle _]. split; simpl; rewrite Hidle by (by rewrite Hn); [done|constructor].
    + pose proof (initiate_recovery_wf env r) as Hwf.
      destruct (initiate_recovery env r) as [r1 o1] eqn:Hrec. injection Hh as <- <-. simpl in *.
      destruct Hwf as [Hs' _ Hk']; [by split|].
      unfold initiate_recovery in Hrec. rewrite (bool_decide_eq_false_2 (status_ _ = _)) in Hrec
        by (by rewrite Hn). simpl in Hrec. injection Hrec as <- <-. simpl in *.
      split; [|done]. split; [split; [done|constructor|done]|]. split; simpl; [done|constructor].
Qed.

Lemma micros_inv r o r' :
  micros env r o r' → replica_inv r → replica_inv r' ∧ view_ (state_ r) ≤ view_ (state_ r').
Proof.
  induction 1 as [|r o r1 o' r2 Hm _ IH]; [done|].
  intros Hr. destruct (micro_inv _ _ _ Hm Hr) as [H1 H2]. destruct (IH H1) as [H3 H4].
  split; [done|lia].
Qed.

Lemma event_inv e r :
  replica_inv r → event_wf e → (e = ev_liveness → view_ (state_ r) < 2 ^ 32 - 1) →
  let r' := (handle_event env e r).1 in
  replica_inv r' ∧ view_ (state_ r) ≤ view_ (state_ r').
Proof.
  intros Hr He Hlive. destruct e as [c m| | |]; cbn [handle_event].
  - destruct Hr as [[Hs Hq Hk] Hi]. split; [|done]. split; [|done]. split; [done| |done].
    simpl. apply Forall_app. split; [done|]. by constructor.
  - destruct (posted r) as [|n]; [done|].
    destruct (process_message_queue env (r <| posted := n |>)) as [r' o] eqn:Hp.
    apply process_micros, micros_inv in Hp; [done|]. destruct Hr as [[] []]. by split; split.
  - by split.
  - unfold check_primary_liveness. destruct (is_primary _); [done|].
    case_bool_decide as Hn; [|done]. cbn [negb andb].
    assert (replica_inv (r <| clock_reads := S (clock_reads r) |>)) as Hr' by (destruct Hr as [[] []]; by split; split).
    case_match; [|done].
    pose proof (initiate_view_change_wf (r <| clock_reads := S (clock_reads r) |>)
      (inv_wf _ Hr')) as Hwf.
    pose proof (swf_view _ (rwf_state _ (inv_wf _ Hr))) as Hu. specialize (Hlive eq_refl).
    split; [split; [done|]|]; unfold initiate_view_change, enter_new_view in *; simpl in *;
      rewrite (bool_decide_eq_true_2 _ Hn) in *; simpl in *.
    + destruct Hr as [_ [Hidle _]].
      split; simpl; rewrite Hidle by (by rewrite Hn); [done|constructor].
    + rewrite u32_small by rlia. lia.
Qed.
End view.

(** ** Properties *)

(** C14: [process_message_queue] terminates: no number of passes beyond one per
    queued message changes its result, and when it returns the queue is empty, or
    its front can be neither discarded nor processed, or the last thing done was to
    start a view change because of the front. *)
Theorem process_queue_terminates env r fuel :
  (length (message_queue_ r) < fuel)%nat →
  let r' := (process_message_queue env r).1 in
  passes env fuel r = process_message_queue env r ∧
  (stuck r' ∨ ∃ r1, stuck r1 ∧ r' = (initiate_view_change r1).1).
Proof.
  intros Hf r'. split; [apply passes_fuel; lia|]. subst r'.
  assert (∀ fuel r, (length (message_queue_ r) < fuel)%nat →
    stuck (passes env fuel r).1 ∨
    ∃ r1, stuck r1 ∧ (passes env fuel r).1 = (initiate_view_change r1).1) as Hpost; [|apply Hpost; lia].
  clear. induction fuel as [|fuel IH]; intros r Hlen; [lia|]. cbn [passes].
  destruct (drain _ _ _ r) as [[r1 o1] p] eqn:Hd.
  pose proof (handle_stuck_queue env r1) as Hq.
  destruct (handle_stuck env r1) as [r2 o2] eqn:Hh. cbn [fst] in Hq.
  apply drain_post in Hd as (Hst & Hle & Hlt & _); [|lia].
  destruct p.
  - destruct (Hlt eq_refl) as [?|Hl]; [done|]. specialize (IH r2).
    destruct (passes env fuel r2) as [r3 o3]. apply IH. destruct Hq as [-> | ->]; simpl; lia.
  - cbn [fst]. unfold handle_stuck in Hh. destruct (message_queue_ r1) as [|front rest] eqn:Hq1.
    { injection Hh as <- _. by left. }
    case_bool_decide; [|injection Hh as <- _; by left].
    destruct (determine_state_action _ _); [injection Hh as <- _; by left| |].
    + right. exists r1. by rewrite Hh.
    + left. destruct (initiate_recovery env r1). injection Hh as <- _. done.
Qed.

(** Processing the queue is a sequence of micro steps, each of which discards
    the front because it is stale, hands it to its handler because its guard holds,
    or reacts to a stuck front; the messages sent are those of the steps, in order. *)
Theorem process_queue_refines_micros env r :
  micros env r (process_message_queue env r).2 (process_message_queue env r).1.
Proof. destruct (process_message_queue env r) as [r' o] eqn:H. by apply process_micros. Qed.

(** C16: Every event preserves the replica invariant (each member holds a value of
    its C++ type; recovery responses are collected only in recovery and are not
    older than the view), and the view never decreases, except when the liveness
    timer increments the largest 32-bit view. *)
Theorem event_preserves_inv_and_view env e r :
  replica_inv r → event_wf e → (e = ev_liveness → view_ (state_ r) < 2 ^ 32 - 1) →
  replica_inv (handle_event env e r).1 ∧
  view_ (state_ r) ≤ view_ (state_ (handle_event env e r).1).
Proof. apply event_inv. Qed.

(** C24: A client request at the front of the queue of a replica that cannot process
    it (a backup, or any replica during a view change) stops that replica for good:
    whatever messages arrive and timers fire afterwards, its log, counters, client
    table and store never change again. *)
Theorem request_wedges_backup env es r front rest :
  message_queue_ r = front :: rest →
  h_command (header (ib_message front)) = command.request →
  h_view (header (ib_message front)) = 0 → 0 ≤ view_ (state_ r) →
  is_primary (state_ r) = false ∨ status_ (state_ r) ≠ ReplicaStatus.NORMAL →
  same_data (state_ r) (state_ (handle_events env es r).1).
Proof. intros Hq Hc Hv Hw Hp. apply behind_request_events. split_and!; eauto. Qed.

(** A recovering replica that has any replica-to-replica message of its own or a
    later view at the front of its queue (a heartbeat, say) never leaves recovery:
    the recovery responses queued behind it are never looked at. *)
Theorem heartbeat_wedges_recovery env es r front rest :
  message_queue_ r = front :: rest → status_ (state_ r) = ReplicaStatus.RECOVERY →
  h_command (header (ib_message front)) ∈
    [command.request; command.prepare; command.prepare_ok; command.commit;
     command.start_view_change; command.do_view_change; command.start_view] →
  view_ (state_ r) ≤ h_view (header (ib_message front)) →
  state_ (handle_events env es r).1 = state_ r.
Proof.
  intros Hq Hst Hc Hv. apply frozen_events. split; [|right; by rewrite Hst].
  exists front, rest. split_and!; [done| | |by rewrite Hst].
  - unfold is_stale. rewrite (proj2 (Z.ltb_ge _ _)) by done. by rewrite andb_false_r.
  - unfold can_process, check_can_process_request, check_can_process_prepare,
      check_can_process_prepare_ok, check_can_process_commit, check_can_process_start_view_change,
      check_can_process_do_view_change, check_can_process_start_view. rewrite Hst.
    destruct (h_command _); try done; simpl; try (by rewrite andb_false_r); try (by destruct (_ =? _));
      set_solver.
Qed.

(** A primary in normal operation stops processing messages for good once a
    StartViewChange, DoViewChange or StartView of its own view reaches the front of
    its queue, as happens when the last replica joins a view change that a quorum
    has already completed. *)
Theorem late_view_change_wedges_primary env es r front rest :
  message_queue_ r = front :: rest → status_ (state_ r) = ReplicaStatus.NORMAL →
  is_primary (state_ r) = true →
  h_command (header (ib_message front)) ∈
    [command.start_view_change; command.do_view_change; command.start_view] →
  h_view (header (ib_message front)) = view_ (state_ r) →
  state_ (handle_events env es r).1 = state_ r.
Proof.
  intros Hq Hst Hp Hc Hv. apply frozen_events. split; [|by left].
  exists front, rest. split_and!; [done| | |].
  - unfold is_stale. rewrite Hv, Z.ltb_irrefl. by rewrite andb_false_r.
  - unfold can_process, check_can_process_start_view_change,
      check_can_process_do_view_change, check_can_process_start_view. rewrite Hst, Hv, Z.eqb_refl.
    destruct (h_command _); try done; set_solver.
  - intros _. unfold determine_state_action. by rewrite Hv, Z.ltb_irrefl, Hp.
Qed.

(** C33: A replica that joins a view change because of a StartViewChange at the front of its
    queue leaves that message there: it enters the new view and says so, but the loop ends,
    because the pass processed nothing.  The message could be processed now, and its
    sender's vote would count, but with no other task posted and until another message
    arrives, neither timers nor tasks change the replica or make it send anything. *)
Theorem joining_message_left_in_queue env es r front rest :
  let s := state_ r in let h := header (ib_message front) in
  message_queue_ r = front :: rest → posted r = 1%nat → status_ s = ReplicaStatus.NORMAL →
  h_command h = command.start_view_change → h_view h = u32 (view_ s + 1) → view_ s < h_view h →
  Forall no_message es →
  let r1 := (handle_event env ev_process_queue r).1 in
  message_queue_ r1 = front :: rest ∧ status_ (state_ r1) = ReplicaStatus.VIEW_CHANGE ∧
  view_ (state_ r1) = h_view h ∧ start_view_change_received_ (state_ r1) = {[id_ s]} ∧
  can_process front (state_ r1) = true ∧
  handle_events env (ev_process_queue :: es) r = (r1, (handle_event env ev_process_queue r).2).
Proof.
  cbv zeta. intros Hq Hpo Hst Hc Hv Hlt Hes.
  pose proof (join_process env r front rest Hq Hpo Hst Hc Hv Hlt) as Hr1.
  cbn [handle_events]. destruct (handle_event env ev_process_queue r) as [r1 o1]. cbn [fst snd] in *.
  injection Hr1 as Hr1 _. rewrite (quiet_events env es r1) by (by subst r1). rewrite app_nil_r. subst r1.
  unfold enter_new_view. rewrite Hst, <- Hv. split_and!; try done. unfold can_process. rewrite Hc.
  unfold check_can_process_start_view_change. simpl. by rewrite Z.eqb_refl.
Qed.

(** After the first view change a replica discards every ping of a client,
    whose header carries view 0, as a stale server message: no pong is sent. *)
Theorem ping_discarded_after_view_change env r inb :
  message_queue_ r = [inb] → h_command (header (ib_message inb)) = command.ping →
  h_view (header (ib_message inb)) = 0 → 0 < view_ (state_ r) →
  process_message_queue env r = (r <| message_queue_ := [] |>, []).
Proof.
  intros Hq Hc Hv Hw. unfold process_message_queue. rewrite Hq. cbn [length passes]. rewrite Hq.
  cbn [length drain]. rewrite Hq. unfold is_stale. rewrite Hc, Hv, (proj2 (Z.ltb_lt _ _)) by done.
  cbn. done.
Qed.

(** ** Witnesses *)

Definition sample_inbound (cmd : command.t) (view : Z) : inbound_message := {|
  ib_connection := Some 100;
  ib_message := {| header := zero_header <| h_command := cmd |> <| h_view := view |>
                     <| h_client := U128 1 2 |> <| h_request := 1 |>;
                   payload := lit "k v" |} |}.

(** Replica [id] of the three-replica cluster with messages queued. *)
Definition sample_queued (id : Z) (q : list inbound_message) : Replica :=
  (new_replica id main_cluster_config) <| message_queue_ := q |> <| posted := length q |>.

Lemma sample_queued_inv id q :
  Forall (λ inb, message_wf (ib_message inb)) q → replica_inv (sample_queued id q).
Proof.
  intros Hq. split; [split; [|done|done]|by split].
  split; cbn; try done; by intros k x; rewrite lookup_empty.
Qed.

Lemma process_queue_terminates_witness :
  passes sample_env 7 (sample_queued 0 [sample_inbound command.request 0])
  = process_message_queue sample_env (sample_queued 0 [sample_inbound command.request 0]).
Proof. apply (process_queue_terminates sample_env _ 7). simpl. lia. Defined.

Lemma event_preserves_inv_and_view_witness :
  replica_inv (handle_event sample_env ev_liveness (sample_queued 1 [])).1.
Proof.
  apply (event_preserves_inv_and_view sample_env ev_liveness (sample_queued 1 [])).
  - apply sample_queued_inv. constructor.
  - exact I.
  - intros _. vm_compute. reflexivity.
Defined.

Lemma request_wedges_backup_witness :
  same_data (state_ (sample_queued 1 [sample_inbound command.request 0]))
    (state_ (handle_events sample_env
       [ev_process_queue; ev_message (Some 0) (ib_message (sample_inbound command.prepare 0));
        ev_process_queue; ev_liveness; ev_process_queue]
       (sample_queued 1 [sample_inbound command.request 0])).1).
Proof.
  apply (request_wedges_backup sample_env _ _ (sample_inbound command.request 0) []);
    first [reflexivity | left; reflexivity | vm_compute; congruence].
Defined.

Definition sample_recovering : Replica :=
  let r := sample_queued 1 [sample_inbound command.commit 0; sample_inbound command.recovery_response 0] in
  r <| state_ := (state_ r) <| status_ := ReplicaStatus.RECOVERY |> |>.

Lemma heartbeat_wedges_recovery_witness :
  state_ (handle_events sample_env [ev_process_queue; ev_process_queue; ev_liveness]
            sample_recovering).1 = state_ sample_recovering.
Proof.
  apply (heartbeat_wedges_recovery sample_env _ _ (sample_inbound command.commit 0)
    [sample_inbound command.recovery_response 0]);
    first [reflexivity | set_solver | vm_compute; congruence].
Defined.

Lemma late_view_change_wedges_primary_witness :
  state_ (handle_events sample_env [ev_process_queue; ev_message (Some 100)
            (ib_message (sample_inbound command.request 0)); ev_process_queue; ev_liveness]
            (sample_queued 0 [sample_inbound command.start_view_change 0])).1
  = state_ (sample_queued 0 [sample_inbound command.start_view_change 0]).
Proof.
  apply (late_view_change_wedges_primary sample_env _ _
    (sample_inbound command.start_view_change 0) []); first [reflexivity | set_solver].
Defined.

Definition sample_in_view (v : Z) (q : list inbound_message) : Replica :=
  let r := sample_queued 1 q in r <| state_ := (state_ r) <| view_ := v |> |>.

(** Replica 2 learns of view 1. *)
Lemma joining_message_left_in_queue_witness :
  let r := sample_queued 2 [sample_inbound command.start_view_change 1] in
  let r1 := (handle_event sample_env ev_process_queue r).1 in
  message_queue_ r1 = [sample_inbound command.start_view_change 1] ∧
  (handle_events sample_env [ev_process_queue; ev_liveness; ev_process_queue; ev_heartbeat] r).1 = r1.
Proof.
  intros r r1. destruct (joining_message_left_in_queue sample_env [ev_liveness; ev_process_queue; ev_heartbeat] r
    (sample_inbound command.start_view_change 1) []) as (H1 & _ & _ & _ & _ & H6);
    [reflexivity..|vm_compute; reflexivity|by repeat constructor|].
  split; [exact H1|]. by rewrite H6.
Defined.

Lemma ping_discarded_after_view_change_witness :
  process_message_queue sample_env (sample_in_view 1 [sample_inbound command.ping 0])
  = ((sample_in_view 1 [sample_inbound command.ping 0]) <| message_queue_ := [] |>, []).
Proof.
  apply (ping_discarded_after_view_change sample_env _ (sample_inbound command.ping 0));
    try reflexivity.
Defined.
