(* ===== verification/ViewChange.v ===== *)
(** * View change and recovery

    Functional properties of [handle_do_view_change], [handle_start_view] and
    [handle_recovery_response] of [src/server/replica.cpp]: which state is adopted,
    which acknowledgements are sent, and what happens to acknowledgements that were
    collected before. *)
From S2P Require Import Prelude Types Serialization KeyValue ReplicaState Replica Execution Handlers.

(** ** Selecting the log of the new view *)

(** The payload a DoViewChange message carries, when it parses. *)
Definition dvc_parsed (env : Env) (m : vsr_message) (p : do_view_change_payload) : Prop :=
  dvc_deserialize (payload m) {| dvc_last_normal_view := garbage env; dvc_log := ∅ |} = (true, p).

(** The order in which candidates are preferred. *)
Definition dvc_le (p : do_view_change_payload) (op : Z) (p' : do_view_change_payload) (op' : Z)
    : Prop :=
  dvc_last_normal_view p < dvc_last_normal_view p' ∨
  (dvc_last_normal_view p = dvc_last_normal_view p' ∧ op ≤ op').

Section select.
Context (env : Env).

Lemma select_step_spec bp bo mc m p :
  dvc_parsed env m p →
  ∃ q b, select_step env (bp, bo, mc) m = (q, b, mc `max` h_commit (header m)) ∧
    dvc_le bp bo q b ∧ dvc_le p (h_op (header m)) q b ∧
    ((q, b) = (bp, bo) ∨ (q, b) = (p, h_op (header m))).
Proof.
  unfold dvc_parsed, select_step, dvc_le. intros ->.
  destruct (_ <? _) eqn:H1; [apply Z.ltb_lt in H1|apply Z.ltb_ge in H1].
  { do 2 eexists. split_and!; [done|lia|lia|by right]. }
  destruct ((_ =? _) && _) eqn:H2.
  - apply andb_true_iff in H2 as [H2%Z.eqb_eq H3%Z.ltb_lt].
    do 2 eexists. split_and!; [done|lia|lia|by right].
  - apply andb_false_iff in H2. rewrite Z.eqb_neq, Z.ltb_ge in H2.
    do 2 eexists. split_and!; [done|lia|lia|by left].
Qed.

Lemma select_fold rest bp bo mc bp' bo' mc' :
  Forall (λ m, ∃ p, dvc_parsed env m p) rest →
  foldl (select_step env) (bp, bo, mc) rest = (bp', bo', mc') →
  ((bp', bo') = (bp, bo) ∨ ∃ m, m ∈ rest ∧ dvc_parsed env m bp' ∧ bo' = h_op (header m)) ∧
  dvc_le bp bo bp' bo' ∧
  (∀ m p, m ∈ rest → dvc_parsed env m p → dvc_le p (h_op (header m)) bp' bo') ∧
  mc' = foldl Z.max mc ((λ m, h_commit (header m)) <$> rest).
Proof.
  intros Hall. revert bp bo mc. induction Hall as [|m rest [p Hp] _ IH]; intros bp bo mc.
  { simpl. intros [= <- <- <-]. unfold dvc_le. split_and!; [by left|lia| |done].
    intros m p Hm. by apply not_elem_of_nil in Hm. }
  cbn [foldl]. destruct (select_step_spec bp bo mc m p Hp) as (q & b & -> & Hle1 & Hle2 & Horig).
  intros (H1 & H2 & H3 & H4)%IH. split_and!.
  - destruct H1 as [[= -> ->]|(m' & Hm' & Hp' & Ho')]; [|right; exists m'; set_solver].
    destruct Horig as [->|[= -> ->]]; [by left|]. right. exists m. split_and!; [set_solver|done|done].
  - unfold dvc_le in *. lia.
  - intros m' p' [->|Hm']%elem_of_cons Hp'; [|by apply (H3 m')].
    unfold dvc_parsed in Hp, Hp'. rewrite Hp in Hp'. injection Hp' as <-. unfold dvc_le in *. lia.
  - exact H4.
Qed.

Lemma foldl_max_le l z : z ≤ foldl Z.max z l ∧ (∀ x, x ∈ l → x ≤ foldl Z.max z l).
Proof.
  revert z. induction l as [|y l IH]; intros z; simpl; [split; [lia|set_solver]|].
  destruct (IH (z `max` y)) as [H1 H2]. split; [lia|]. intros x [->|Hx]%elem_of_cons; [lia|auto].
Qed.

Lemma foldl_max_in l z : foldl Z.max z l = z ∨ foldl Z.max z l ∈ l.
Proof.
  revert z. induction l as [|y l IH]; intros z; simpl; [by left|].
  destruct (IH (z `max` y)) as [->|H]; [|right; set_solver].
  destruct (Z.max_spec z y) as [[_ ->]|[_ ->]]; [right; set_solver|by left].
Qed.
End select.

(** ** Acknowledgements after an adopted log *)

(** Only members of [B] have acknowledged anything in the log. *)
Definition acks_within (B : gset Z) (log : gmap Z log_entry) : Prop :=
  ∀ k e, log !! k = Some e → le_acks e ⊆ B.

(** The next operation to commit has acknowledgements from [B] only. *)
Definition unackable (B : gset Z) (s : ReplicaState) : Prop :=
  0 ≤ commit_ s < op_ s ∧
  ∃ e, log_ s !! (commit_ s + 1) = Some e ∧ le_acks e ⊆ B.

(** The messages [msgs], handled one after the other. *)
Definition dispatch_all (env : Env) (msgs : list inbound_message) (r : Replica) : Replica :=
  foldl (λ r inb, (dispatch env inb r).1) r msgs.

(** A client request, or an acknowledgement sent by a member of [B]. *)
Definition request_or_ok_from (B : gset Z) (m : vsr_message) : Prop :=
  h_command (header m) = command.request ∨
  (h_command (header m) = command.prepare_ok ∧ h_replica (header m) ∈ B).

Section unackable.
Context (env : Env) (B : gset Z).

Lemma advance_loop_unackable fuel s :
  0 ≤ fault_tolerance_f_ s < 2 ^ 31 → Z.of_nat (size B) ≤ fault_tolerance_f_ s →
  unackable B s → op_ s < 2 ^ 64 → advance_loop fuel s = s.
Proof.
  intros Hf HB (Hc & e & He & Hsub) Ho. destruct fuel as [|fuel]; [done|]. cbn [advance_loop].
  rewrite u64_small, He by rlia. unfold quorum. rewrite u64_small by rlia.
  pose proof (subseteq_size _ _ Hsub). by rewrite (proj2 (Z.leb_gt _ _)) by lia.
Qed.

Lemma unackable_step inb r :
  0 ≤ fault_tolerance_f_ (state_ r) < 2 ^ 31 →
  Z.of_nat (size B) ≤ fault_tolerance_f_ (state_ r) →
  unackable B (state_ r) → op_ (state_ r) + 1 < 2 ^ 64 → request_or_ok_from B (ib_message inb) →
  let s' := state_ (dispatch env inb r).1 in
  unackable B s' ∧ commit_ s' = commit_ (state_ r) ∧ op_ s' ≤ op_ (state_ r) + 1.
Proof.
  intros Hf HB Hun Ho [Hcmd|[Hcmd Hin]]; unfold dispatch; rewrite Hcmd.
  - destruct Hun as (Hc & e & He & Hsub). unfold handle_request, unackable. cbv zeta.
    case_match; [simpl; split_and!; try lia; eauto|].
    case_match; [simpl; split_and!; try lia; eauto|]. simpl. rewrite u64_small by rlia.
    rewrite lookup_insert_ne by lia. split_and!; try lia; eauto.
  - unfold handle_prepare_ok. case_match eqn:Hl; [|simpl; split_and!; [done|done|lia]].
    match goal with |- context [advance_primary_commit_number ?r1] => set (r1' := r1) end.
    assert (unackable B (state_ r1')) as Hun'.
    { destruct Hun as (Hc & e & He & Hsub). split; [done|]. simpl.
      destruct (decide (h_op (header (ib_message inb)) = commit_ (state_ r) + 1)) as [Heq|Hne].
      - rewrite Heq, lookup_insert_eq. eexists. split; [done|]. simpl.
        rewrite Heq in Hl. assert (e = l) as -> by congruence. set_solver.
      - rewrite lookup_insert_ne by done. eauto. }
    unfold advance_primary_commit_number. destruct (is_primary _); cbn [negb];
      [|simpl; split_and!; [done|done|lia]].
    rewrite advance_loop_unackable; [|done|done|done|simpl; lia]. reshape. simpl. split_and!; [done|done|lia].
Qed.

Lemma unackable_all msgs r :
  0 ≤ fault_tolerance_f_ (state_ r) < 2 ^ 31 →
  Z.of_nat (size B) ≤ fault_tolerance_f_ (state_ r) →
  unackable B (state_ r) → op_ (state_ r) + Z.of_nat (length msgs) < 2 ^ 64 →
  Forall (λ inb, request_or_ok_from B (ib_message inb)) msgs →
  commit_ (state_ (dispatch_all env msgs r)) = commit_ (state_ r).
Proof.
  intros Hf HB Hun Ho Hall. revert r Hf HB Hun Ho.
  induction Hall as [|inb msgs Hin _ IH]; intros r Hf HB Hun Ho; [done|]. cbn in *.
  pose proof (frame_f _ _ (dispatch_frame env inb r)) as Hf'.
  destruct (unackable_step inb r) as (Hun' & Hc & Ho'); [done..|lia|done|].
  etrans; [apply IH|done]; rewrite ?Hf'; try done. lia.
Qed.
End unackable.

Lemma read_log_no_acks l r log B : read_log_from_buffer l ∅ = (r, log) → acks_within B log.
Proof.
  intros Hl%read_log_acks k e He. rewrite <- Hl in He. unfold strip_acks in He.
  rewrite lookup_fmap in He. destruct (log !! k) as [e'|]; simplify_eq/=. set_solver.
Qed.

Lemma dvc_no_acks B d v :
  acks_within B (dvc_log (dvc_deserialize d {| dvc_last_normal_view := v; dvc_log := ∅ |}).2).
Proof.
  unfold dvc_deserialize. destruct (read_pod uint32 d) as [[n p]|]; simpl.
  - destruct (read_log_from_buffer p ∅) eqn:Hl. by eapply read_log_no_acks.
  - intros k e. by rewrite lookup_empty.
Qed.

Lemma select_log_no_acks env B s first rest : acks_within B (dvc_log (select_log env s first rest).1.1).
Proof.
  unfold select_log. destruct (dvc_deserialize _ _) as [b bp] eqn:Hd.
  pose proof (dvc_no_acks B (payload first) (garbage env)) as Hb. rewrite Hd in Hb. simpl in Hb.
  clear Hd. revert bp Hb. generalize (h_op (header first)) (commit_ s `max` h_commit (header first)).
  induction rest as [|m rest IH]; intros bo mc bp Hb; simpl; [done|].
  pose proof (dvc_no_acks B (payload m) (garbage env)) as Hm.
  destruct (dvc_deserialize (payload m) _) as [[] cp]; [|by apply IH]. simpl in Hm.
  destruct (_ <? _); [by apply IH|]. destruct (_ && _); by apply IH.
Qed.

Lemma adopted_no_acks env B inb r :
  quorum (S (length (do_view_change_received_ (state_ r)))) (state_ r) = true →
  acks_within B (log_ (state_ (handle_do_view_change env inb r).1)).
Proof.
  intros Hq. unfold handle_do_view_change. simpl. rewrite length_app, Nat.add_1_r.
  unfold quorum in *. simpl. rewrite Hq.
  destruct (_ ++ _) as [|first rest] eqn:Happ; [by destruct (do_view_change_received_ (state_ r))|].
  match goal with |- context [select_log env ?s first rest] =>
    pose proof (select_log_no_acks env B s first rest) as Hb; destruct (select_log env s first rest)
      as [[bp bo] mc] end.
  reshape. exact Hb.
Qed.

(** ** Retroactive acknowledgements *)

(** The operations in [(lo, hi]] that are in the log, in order. *)
Definition logged_between (log : gmap Z log_entry) (lo hi : Z) : list Z :=
  filter (λ k, is_Some (log !! k)) (seqZ (lo + 1) (hi - lo)).

Lemma retroactive_oks_spec fuel k p s :
  0 ≤ k → op_ s < 2 ^ 64 - 1 → (Z.to_nat (op_ s + 1 - k) ≤ fuel)%nat →
  retroactive_oks fuel k p s
  = (λ j, send_to_peer p (prepare_ok_msg j s)) <$> logged_between (log_ s) (k - 1) (op_ s).
Proof.
  intros Hk Ho. revert k Hk. unfold logged_between.
  induction fuel as [|fuel IH]; intros k Hk Hf; cbn [retroactive_oks].
  { rewrite seqZ_nil by lia. done. }
  case_match eqn:Hle; [apply Z.leb_le in Hle|apply Z.leb_gt in Hle; by rewrite seqZ_nil by lia].
  rewrite u64_small by rlia. rewrite IH by lia.
  replace (k - 1 + 1) with k by lia. rewrite (seqZ_cons k) by lia.
  replace (k + 1 - 1 + 1) with (Z.succ k) by lia.
  replace (Z.pred (op_ s - (k - 1))) with (op_ s - (k + 1 - 1)) by lia.
  rewrite filter_cons. destruct (log_ s !! k) as [e|]; [by rewrite decide_True by eauto|].
  rewrite decide_False; [done|]. by intros [? [=]].
Qed.

Lemma logged_between_elem log lo hi k :
  k ∈ logged_between log lo hi ↔ lo < k ≤ hi ∧ is_Some (log !! k).
Proof. unfold logged_between. rewrite list_elem_of_filter, elem_of_seqZ. intuition lia. Qed.

(** ** Properties *)

(** C13: When the DoViewChange message that completes a quorum arrives, the new
    primary adopts the log and operation number of a received message that is
    maximal in the order (last normal view, operation number), the largest commit
    number it has seen, and returns to normal operation with an empty collection. *)
Theorem do_view_change_selects_best env inb r first rest :
  do_view_change_received_ (state_ r) ++ [ib_message inb] = first :: rest →
  quorum (S (length rest)) (state_ r) = true →
  Forall (λ m, ∃ p, dvc_parsed env m p) (first :: rest) →
  let s' := state_ (handle_do_view_change env inb r).1 in
  (∃ m p, m ∈ first :: rest ∧ dvc_parsed env m p ∧ log_ s' = dvc_log p ∧
     op_ s' = h_op (header m) ∧
     ∀ m' p', m' ∈ first :: rest → dvc_parsed env m' p' →
       dvc_le p' (h_op (header m')) p (h_op (header m))) ∧
  (∀ m, m ∈ first :: rest → h_commit (header m) ≤ commit_ s') ∧
  commit_ (state_ r) ≤ commit_ s' ∧
  (commit_ s' = commit_ (state_ r) ∨ ∃ m, m ∈ first :: rest ∧ commit_ s' = h_commit (header m)) ∧
  status_ s' = ReplicaStatus.NORMAL ∧ do_view_change_received_ s' = [].
Proof.
  intros Happ Hq Hall. unfold handle_do_view_change. simpl. rewrite Happ. simpl.
  destruct (quorum _ _) eqn:Hq'; [|by unfold quorum in *; simpl in *; congruence].
  unfold select_log. apply Forall_cons in Hall as [[p0 Hp0] Hrest].
  unfold dvc_parsed in Hp0. rewrite Hp0.
  destruct (foldl _ _ rest) as [[bp bo] mc] eqn:Hfold.
  apply select_fold in Hfold as (Horig & Hle0 & Hle & Hmc); [|done]. reshape. simpl in *.
  pose proof (foldl_max_le ((λ m, h_commit (header m)) <$> rest)
    (commit_ (state_ r) `max` h_commit (header first))) as [Hmax0 Hmax].
  pose proof (foldl_max_in ((λ m, h_commit (header m)) <$> rest)
    (commit_ (state_ r) `max` h_commit (header first))) as Hin.
  rewrite <- Hmc in Hmax0, Hmax, Hin. split_and!; [| |lia| |done|done].
  - destruct Horig as [[= -> ->]|(x & Hx & Hp & ->)].
    + exists first, p0. split_and!; [set_solver|done|done|done|].
      intros m' p' [->|Hm']%elem_of_cons Hp'; [|by apply (Hle m')].
      unfold dvc_parsed in Hp'. rewrite Hp0 in Hp'. by injection Hp' as <-.
    + exists x, bp. split_and!; [set_solver|done|done|done|].
      intros m' p' [->|Hm']%elem_of_cons Hp'; [|by apply (Hle m')].
      unfold dvc_parsed in Hp'. rewrite Hp0 in Hp'. by injection Hp' as <-.
  - intros x [->|Hx]%elem_of_cons; [lia|]. apply Hmax. apply list_elem_of_fmap. eauto.
  - destruct Hin as [->|(x & -> & Hx)%list_elem_of_fmap]; [|right; exists x; set_solver].
    destruct (Z.max_spec (commit_ (state_ r)) (h_commit (header first))) as [[_ ->]|[_ ->]];
      [right; exists first; set_solver|by left].
Qed.

(** C23: Acknowledgements do not survive a view change: once a new primary has
    adopted a log with an operation above its commit number, client requests and
    acknowledgements from at most [f] replicas, in any order and number, never
    advance its commit number, although the primary and those replicas are a
    majority that stores the operation. *)
Theorem adopted_log_needs_fresh_quorum env inb r msgs B :
  quorum (S (length (do_view_change_received_ (state_ r)))) (state_ r) = true →
  0 ≤ fault_tolerance_f_ (state_ r) < 2 ^ 31 →
  Z.of_nat (size B) ≤ fault_tolerance_f_ (state_ r) →
  Forall (λ inb, request_or_ok_from B (ib_message inb)) msgs →
  let r' := (handle_do_view_change env inb r).1 in
  0 ≤ commit_ (state_ r') < op_ (state_ r') →
  is_Some (log_ (state_ r') !! (commit_ (state_ r') + 1)) →
  op_ (state_ r') + Z.of_nat (length msgs) < 2 ^ 64 →
  commit_ (state_ (dispatch_all env msgs r')) = commit_ (state_ r').
Proof.
  intros Hq Hf HB Hmsgs r'. subst r'. intros Hc [e He] Ho.
  pose proof (frame_f _ _ (handle_do_view_change_frame env inb r)) as Hf'.
  apply (unackable_all env B); [by rewrite Hf'|by rewrite Hf'| |done|done].
  split; [done|]. exists e. split; [done|]. by eapply adopted_no_acks.
Qed.

(** C19: A backup that receives a StartView adopts the view, operation number,
    commit number and log of the new primary, returns to normal operation, restarts
    its failure timer, and acknowledges to the primary exactly the operations above
    the commit number that are in the log, each once and in order. *)
Theorem start_view_adopts_and_acks env inb r log :
  let h := header (ib_message inb) in
  sv_deserialize (payload (ib_message inb)) {| sv_log := ∅ |} = (true, {| sv_log := log |}) →
  0 ≤ h_commit h < 2 ^ 64 - 1 → h_op h < 2 ^ 64 - 1 →
  is_primary ((state_ r) <| view_ := h_view h |>) = false →
  let r' := (handle_start_view env inb r).1 in
  (view_ (state_ r'), op_ (state_ r'), commit_ (state_ r'), log_ (state_ r'))
    = (h_view h, h_op h, h_commit h, log) ∧
  status_ (state_ r') = ReplicaStatus.NORMAL ∧
  last_primary_contact_ r' = steady_now env (clock_reads r) ∧
  (handle_start_view env inb r).2
    = (λ k, send_to_peer (get_primary_id (state_ r')) (prepare_ok_msg k (state_ r')))
        <$> logged_between log (h_commit h) (h_op h).
Proof.
  intros h Hd Hc Ho Hp. subst h. unfold handle_start_view. rewrite Hd. cbn [negb]. cbv zeta.
  match goal with |- context [execute_commited_ops ?r0] => pose proof (execute_backup r0) as Hout end.
  revert Hout. reshape. cbn [snd]. intros Hout. rewrite (Hout Hp). simpl.
  split_and!; [done..|]. rewrite u64_small by rlia. rewrite retroactive_oks_spec; simpl; [|lia..].
  f_equal. f_equal. lia.
Qed.

(** ** Witnesses *)

(** Replica [id] of the three-replica cluster in the change to view 1, with one
    uncommitted operation in its log. *)
Definition changing (id : Z) : ReplicaState :=
  (enter_new_view 1 (new_replica_state id main_cluster_config))
    <| op_ := 1 |> <| log_ := {[1 := sample_op 1 {[0]} (lit "k v")]} |>.

(** Replica 1, the primary of view 1, with its own DoViewChange message. *)
Definition sample_new_primary : Replica :=
  (new_replica 1 main_cluster_config)
    <| state_ := (changing 1) <| do_view_change_received_ := [do_view_change_msg (changing 1)] |> |>.

Definition sample_dvc : inbound_message :=
  {| ib_connection := Some 2;
     ib_message := do_view_change_msg ((changing 2) <| op_ := 0 |> <| log_ := ∅ |>) |}.

Lemma do_view_change_selects_best_witness :
  status_ (state_ (handle_do_view_change sample_env sample_dvc sample_new_primary).1)
    = ReplicaStatus.NORMAL ∧
  op_ (state_ (handle_do_view_change sample_env sample_dvc sample_new_primary).1) = 1.
Proof.
  split; [|vm_compute; reflexivity].
  refine (proj1 (proj2 (proj2 (proj2 (proj2 (do_view_change_selects_best sample_env sample_dvc
    sample_new_primary (do_view_change_msg (changing 1)) [ib_message sample_dvc] _ _ _))))));
    [reflexivity|reflexivity|].
  repeat (constructor; [eexists; vm_compute; reflexivity|]). constructor.
Defined.

(** Replica 2, the only other live replica, acknowledges operation 1 twice and a
    client sends a request in between. *)
Definition sample_ok (id : Z) : inbound_message :=
  {| ib_connection := Some id; ib_message := prepare_ok_msg 1 (changing id) |}.
Definition sample_request : inbound_message :=
  {| ib_connection := Some 100;
     ib_message := {| header := zero_header <| h_command := command.request |>
                        <| h_client := U128 5 6 |> <| h_request := 1 |>; payload := lit "a b" |} |}.

Lemma adopted_log_needs_fresh_quorum_witness :
  let r' := (handle_do_view_change sample_env sample_dvc sample_new_primary).1 in
  commit_ (state_ (dispatch_all sample_env [sample_ok 2; sample_request; sample_ok 2] r')) = 0 ∧
  commit_ (state_ (dispatch_all sample_env [sample_ok 2; sample_ok 0] r')) = 1.
Proof.
  split; [|vm_compute; reflexivity].
  refine (adopted_log_needs_fresh_quorum sample_env sample_dvc sample_new_primary
    [sample_ok 2; sample_request; sample_ok 2] {[2]} _ _ _ _ _ _ _); cycle 3.
  - do 3 (apply Forall_cons; split; [first [left; reflexivity | right; split; [reflexivity|set_solver]]|]).
    apply Forall_nil. exact I.
  - vm_compute. split; congruence.
  - eexists. vm_compute. reflexivity.
  - vm_compute. reflexivity.
  - reflexivity.
  - vm_compute. split; congruence.
  - vm_compute. congruence.
Defined.

Definition sample_start_view : inbound_message :=
  {| ib_connection := Some 1; ib_message := start_view_msg (changing 1) |}.
Definition sample_backup : Replica :=
  (new_replica 2 main_cluster_config) <| state_ := changing 2 |>.

Lemma start_view_adopts_and_acks_witness :
  op_ (state_ (handle_start_view sample_env sample_start_view sample_backup).1) = 1 ∧
  (handle_start_view sample_env sample_start_view sample_backup).2
    = [send_to_peer 1 (prepare_ok_msg 1 (state_ (handle_start_view sample_env sample_start_view
         sample_backup).1))].
Proof.
  split; [vm_compute; reflexivity|].
  refine (proj2 (proj2 (proj2 (start_view_adopts_and_acks sample_env sample_start_view sample_backup
    {[1 := sample_op 1 ∅ (lit "k v")]} _ _ _ _)))); vm_compute;
    first [reflexivity | split; congruence].
Defined.
