(* ===== verification/Recovery.v ===== *)
(** * Recovery

    Functional properties of [handle_recovery_response] ([src/server/replica.cpp],
    lines 567-629): which responses count, which one is adopted, and that replaying
    the adopted log over the store the replica still holds gives the store of a
    fresh replay. *)
From S2P Require Import Prelude Types Serialization KeyValue ReplicaState Replica Execution Handlers.

(** ** Replaying operations *)

Definition replay (sm : gmap (list byte) (list byte)) (es : list log_entry)
    : gmap (list byte) (list byte) :=
  foldl (λ sm e, (apply_operation (le_op_type e) (le_payload e) sm).1) sm es.

(** An operation writes the same key and value whatever the store holds. *)
Lemma apply_operation_union (ty : operation.t) (p : list byte) (t s : gmap (list byte) (list byte)) :
  (apply_operation ty p (t ∪ s)).1 = (apply_operation ty p t).1 ∪ s.
Proof.
  destruct ty; simpl; try done.
  - destruct (extract p []) as [k ss], (extract ss []) as [v ?]. simpl. by rewrite insert_union_l.
  - by destruct (extract p []).
Qed.

Lemma replay_union (es : list log_entry) (t s : gmap (list byte) (list byte)) : replay (t ∪ s) es = replay t es ∪ s.
Proof.
  revert t. induction es as [|e es IH]; intros t; [done|]. cbn.
  rewrite apply_operation_union. apply IH.
Qed.

Lemma replay_dom (es : list log_entry) (sm : gmap (list byte) (list byte)) : dom sm ⊆ dom (replay sm es).
Proof.
  revert sm. induction es as [|e es IH]; intros sm; [done|]. cbn. etrans; [|apply IH].
  destruct (le_op_type e); simpl; try done.
  - destruct (extract _ _) as [k ss], (extract ss _) as [v ?]. simpl. set_solver.
  - by destruct (extract _ _).
Qed.

(** Replaying a log over the store left by one of its prefixes is replaying it
    from scratch. *)
Lemma replay_over_prefix es1 es2 : replay (replay ∅ es1) (es1 ++ es2) = replay ∅ (es1 ++ es2).
Proof.
  rewrite <- (map_empty_union (replay ∅ es1)) at 1. rewrite replay_union.
  apply map_eq. intros k. rewrite lookup_union.
  destruct (replay ∅ (es1 ++ es2) !! k) as [v|] eqn:Hk; [by destruct (replay ∅ es1 !! k)|].
  unfold replay in Hk. rewrite foldl_app in Hk. apply not_elem_of_dom in Hk.
  rewrite (proj1 (not_elem_of_dom (replay ∅ es1) k)); [done|]. intros Hin. apply Hk.
  by apply (replay_dom es2).
Qed.

(** ** The client table after recovery *)

Definition unexecuted (s : ReplicaState) : Prop :=
  map_Forall (λ _ ce, executed ce = false) (client_table_ s).

Lemma refresh_unexecuted s : unexecuted s → unexecuted (refresh_client_table s).
Proof.
  unfold refresh_client_table. generalize (items (log_ s)) as l. intros l. revert s.
  induction l as [|kv l IH]; intros s Hs; [done|]. apply IH.
  apply map_Forall_insert_2; [|done]. case_match; [done|]. unfold client_entry.
  destruct (client_table_ s !! _) as [ce|] eqn:Hce; [|done]. exact (Hs _ _ Hce).
Qed.

Lemma unexecuted_fresh s es :
  unexecuted s → Forall (λ e, ¬ executed_already (client_table_ s) e) es.
Proof.
  intros Hs. apply Forall_forall. intros e _ (ce & Hce & _ & Hx).
  specialize (Hs _ _ Hce). simpl in Hs. congruence.
Qed.

(** ** The best response *)

Definition response_le (a b : vsr_message) : Prop :=
  h_view (header a) < h_view (header b) ∨
  (h_view (header a) = h_view (header b) ∧ h_op (header a) ≤ h_op (header b)).

#[export] Instance response_le_preorder : PreOrder response_le.
Proof. split; [intros m|intros a b c]; unfold response_le; lia. Qed.

Lemma better_response_spec a b :
  (better_response a b = a ∨ better_response a b = b) ∧
  response_le a (better_response a b) ∧ response_le b (better_response a b).
Proof.
  unfold better_response, response_le. destruct (_ <? _) eqn:H1; [apply Z.ltb_lt in H1; auto with lia|].
  apply Z.ltb_ge in H1. destruct (_ =? _) eqn:H2; simpl.
  - apply Z.eqb_eq in H2. destruct (_ <? _) eqn:H3; [apply Z.ltb_lt in H3|apply Z.ltb_ge in H3]; auto with lia.
  - apply Z.eqb_neq in H2. auto with lia.
Qed.

Lemma best_response_spec first rest :
  foldl better_response first rest ∈ first :: rest ∧
  ∀ m, m ∈ first :: rest → response_le m (foldl better_response first rest).
Proof.
  revert first. induction rest as [|x rest IH]; intros first; simpl.
  { split; [set_solver|]. by intros m ->%list_elem_of_singleton. }
  destruct (better_response_spec first x) as (Hor & H1 & H2), (IH (better_response first x)) as [Hin Hle].
  split; [destruct Hor as [Hb|Hb]; rewrite Hb in *; set_solver|].
  assert (response_le (better_response first x) (foldl better_response (better_response first x) rest))
    by (apply Hle; set_solver).
  intros m [->|[->|Hm]%elem_of_cons]%elem_of_cons; [by etrans|by etrans|apply Hle; set_solver].
Qed.

(** The payload a recovery response carries, when it parses. *)
Definition fresh_response (env : Env) : recovery_response_payload :=
  {| rr_nonce := U128 (garbage env) (garbage env); rr_log := ∅ |}.
Definition rr_parsed (env : Env) (m : vsr_message) (p : recovery_response_payload) : Prop :=
  rr_deserialize (payload m) (fresh_response env) = (true, p).

(** The entries a replica executes from scratch with log [log] and commit number [c]. *)
Definition committed_prefix (log : gmap Z log_entry) (c : Z) : list log_entry :=
  ready (S (size log)) log 0 c.

(** Everything [handle_recovery_response] does once a quorum has answered. *)
Lemma recovery_quorum_spec env inb r p first rest bp :
  rr_parsed env (ib_message inb) p → rr_nonce p = recovery_nonce_ (state_ r) →
  recovery_responses_ (state_ r) ++ [ib_message inb] = first :: rest →
  quorum (S (length rest)) (state_ r) = true →
  let best := foldl better_response first rest in
  rr_parsed env best bp →
  ∃ s1, unexecuted s1 ∧
    (view_ s1, op_ s1, commit_ s1, log_ s1, last_executed_op_ s1, status_ s1, state_machine_ s1)
    = (h_view (header best), h_op (header best), h_commit (header best), rr_log bp, 0,
       ReplicaStatus.NORMAL, state_machine_ (state_ r)) ∧
    let r1 := (touch_primary_contact env r) <| state_ := s1 |> in
    state_ (handle_recovery_response env inb r).1
    = (state_ (execute_commited_ops r1).1) <| recovery_nonce_ := U128 0 0 |>
                                           <| recovery_responses_ := [] |>.
Proof.
  intros Hp Hn Happ Hq best Hb. unfold rr_parsed, fresh_response in Hp, Hb. unfold handle_recovery_response.
  rewrite Hp. cbn [negb]. rewrite (proj2 (uint128_eqb_eq _ _) Hn). cbn [negb]. cbv zeta.
  simpl. rewrite Happ. simpl. unfold quorum in *. simpl. rewrite Hq.
  fold best. rewrite Hb.
  match goal with |- context [refresh_client_table ?s] =>
    pose proof (refresh_unexecuted s) as Hun; destruct (refresh_client_table_shape s) as [ct Hct];
    rewrite Hct in *; exists (s <| client_table_ := ct |>) end.
  split_and!; [apply Hun; apply map_Forall_empty|done|]. simpl.
  by destruct (execute_commited_ops _) as [r2 o2].
Qed.

(** ** Properties *)

(** A recovery response that does not parse, or that answers another recovery
    attempt (its nonce is not the current one), changes nothing and sends nothing;
    one that answers the current attempt is only collected until a quorum has
    answered. *)
Theorem recovery_response_collects env inb r :
  ((∀ p, rr_parsed env (ib_message inb) p → rr_nonce p ≠ recovery_nonce_ (state_ r)) →
     handle_recovery_response env inb r = (r, [])) ∧
  (∀ p, rr_parsed env (ib_message inb) p → rr_nonce p = recovery_nonce_ (state_ r) →
     quorum (S (length (recovery_responses_ (state_ r)))) (state_ r) = false →
     handle_recovery_response env inb r
     = (r <| state_ := (state_ r) <| recovery_responses_ :=
               recovery_responses_ (state_ r) ++ [ib_message inb] |> |>, [])).
Proof.
  unfold rr_parsed, handle_recovery_response, fresh_response. split.
  - intros Hne. destruct (rr_deserialize _ _) as [[] p]; [|done]. cbn [negb].
    destruct (uint128_eqb _ _) eqn:Heq; [|done].
    apply uint128_eqb_eq in Heq. by destruct (Hne p).
  - intros p -> Hn Hq. cbn [negb]. rewrite (proj2 (uint128_eqb_eq _ _) Hn). cbn [negb]. simpl.
    rewrite length_app, Nat.add_1_r. unfold quorum in *. simpl. by rewrite Hq.
Qed.

(** C17: The response that completes a quorum makes the replica adopt view,
    operation number, commit number and log of a response that is maximal in the
    order (view, operation number) among those collected, and return to normal
    operation with its nonce and collection cleared. *)
Theorem recovery_adopts_best env inb r p first rest :
  rr_parsed env (ib_message inb) p → rr_nonce p = recovery_nonce_ (state_ r) →
  recovery_responses_ (state_ r) ++ [ib_message inb] = first :: rest →
  quorum (S (length rest)) (state_ r) = true →
  Forall (λ m, ∃ p, rr_parsed env m p) (first :: rest) →
  let s' := state_ (handle_recovery_response env inb r).1 in
  (∃ m bp, m ∈ first :: rest ∧ rr_parsed env m bp ∧
     (∀ m', m' ∈ first :: rest → response_le m' m) ∧
     (view_ s', op_ s', commit_ s', log_ s')
     = (h_view (header m), h_op (header m), h_commit (header m), rr_log bp)) ∧
  status_ s' = ReplicaStatus.NORMAL ∧ recovery_nonce_ s' = U128 0 0 ∧ recovery_responses_ s' = [].
Proof.
  intros Hp Hn Happ Hq Hall s'. subst s'. destruct (best_response_spec first rest) as [Hin Hle].
  rewrite Forall_forall in Hall. destruct (Hall _ Hin) as [bp Hbp].
  destruct (recovery_quorum_spec env inb r p first rest bp) as (s1 & _ & Hs1 & ->); [done..|].
  reshape. simpl. injection Hs1 as ? ? ? ? ? ? ?. split_and!; [|done..].
  eexists _, bp. split_and!; [exact Hin|done|exact Hle|congruence].
Qed.

(** Recovery rebuilds the store although it replays the adopted log over the
    store it still holds: if that store came from executing a prefix of the
    adopted log, and the committed operations are different requests, the result is
    the store of a fresh replay of the committed operations, and execution has
    reached them all. *)
Theorem recovery_rebuilds_store env inb r p first rest bp es0 :
  rr_parsed env (ib_message inb) p → rr_nonce p = recovery_nonce_ (state_ r) →
  recovery_responses_ (state_ r) ++ [ib_message inb] = first :: rest →
  quorum (S (length rest)) (state_ r) = true →
  let best := foldl better_response first rest in
  let es := committed_prefix (rr_log bp) (h_commit (header best)) in
  rr_parsed env best bp → is_u64 (h_commit (header best)) →
  NoDup ((λ e, (le_client_id e, le_request_num e)) <$> es) →
  es0 `prefix_of` es → state_machine_ (state_ r) = replay ∅ es0 →
  let s' := state_ (handle_recovery_response env inb r).1 in
  state_machine_ s' = replay ∅ es ∧ last_executed_op_ s' = Z.of_nat (length es).
Proof.
  intros Hp Hn Happ Hq best es Hbp Hc Hnd [es1 Hes] Hsm s'. subst s'.
  destruct (recovery_quorum_spec env inb r p first rest bp) as (s1 & Hun & Hs1 & ->); [done..|].
  fold best in Hs1. injection Hs1 as ? ? Hc1 Hl1 Hlast ? Hsm1.
  rewrite execute_commited_ops_spec by (simpl; rewrite ?Hlast, ?Hc1; (done || rlia)). simpl.
  assert (ready_entries s1 = es) as ->.
  { unfold ready_entries, es, committed_prefix. by rewrite Hl1, Hlast, Hc1. }
  rewrite exec_entries_fresh; [|done|by apply unexecuted_fresh].
  rewrite Hlast. split; [|done]. simpl. rewrite Hsm1, Hsm.
  change (replay (replay ∅ es0) es = replay ∅ es). rewrite Hes. apply replay_over_prefix.
Qed.

(** ** Witnesses *)

Definition sample_log : gmap Z log_entry :=
  <[2 := sample_op 2 ∅ (lit "k w")]> {[1 := sample_op 1 ∅ (lit "k v")]}.

(** The answer of replica [id], whose view, operation and commit number are given. *)
Definition sample_response (nonce : uint128_t) (id view op commit : Z) (log : gmap Z log_entry)
    : inbound_message :=
  {| ib_connection := Some id;
     ib_message := {|
       header := zero_header <| h_command := command.recovery_response |> <| h_replica := id |>
         <| h_view := view |> <| h_op := op |> <| h_commit := commit |>;
       payload := rr_serialize {| rr_nonce := nonce; rr_log := log |} |} |}.

(** Replica 2 in recovery, having executed operation 1 before, with the answer of
    replica 0. *)
Definition first_response : inbound_message :=
  sample_response (U128 3 4) 0 0 1 1 {[1 := sample_op 1 ∅ (lit "k v")]}.
Definition second_response : inbound_message :=
  sample_response (U128 3 4) 1 0 2 2 sample_log.

Definition sample_recovering_replica : Replica :=
  (new_replica 2 main_cluster_config) <| state_ :=
    (new_replica_state 2 main_cluster_config) <| status_ := ReplicaStatus.RECOVERY |>
      <| recovery_nonce_ := U128 3 4 |> <| state_machine_ := {[lit "k" := lit "v"]} |>
      <| recovery_responses_ := [ib_message first_response] |> |>.

Lemma recovery_response_collects_witness :
  handle_recovery_response sample_env (sample_response (U128 9 9) 1 0 2 2 ∅)
    sample_recovering_replica = (sample_recovering_replica, []).
Proof.
  apply recovery_response_collects. intros p Hp. vm_compute in Hp. injection Hp as <-.
  vm_compute. congruence.
Defined.

Lemma recovery_adopts_best_witness :
  status_ (state_ (handle_recovery_response sample_env second_response
    sample_recovering_replica).1) = ReplicaStatus.NORMAL ∧
  op_ (state_ (handle_recovery_response sample_env second_response
    sample_recovering_replica).1) = 2.
Proof.
  split; [|vm_compute; reflexivity].
  refine (proj1 (proj2 (recovery_adopts_best sample_env second_response sample_recovering_replica
    {| rr_nonce := U128 3 4; rr_log := sample_log |}
    (ib_message first_response) [ib_message second_response] _ _ _ _ _)));
    [vm_compute; reflexivity|reflexivity|reflexivity|reflexivity|].
  repeat (constructor; [eexists; vm_compute; reflexivity|]). constructor.
Defined.

Lemma recovery_rebuilds_store_witness :
  state_machine_ (state_ (handle_recovery_response sample_env second_response
    sample_recovering_replica).1) = {[lit "k" := lit "w"]}.
Proof.
  refine (proj1 (recovery_rebuilds_store sample_env second_response sample_recovering_replica
    {| rr_nonce := U128 3 4; rr_log := sample_log |}
    (ib_message first_response) [ib_message second_response]
    {| rr_nonce := U128 3 4; rr_log := sample_log |} [sample_op 1 ∅ (lit "k v")]
    _ _ _ _ _ _ _ _ _)); try (vm_compute; reflexivity).
  - vm_compute. split; congruence.
  - vm_compute. repeat constructor; set_solver.
  - exists [sample_op 2 ∅ (lit "k w")]. vm_compute. reflexivity.
Defined.
