(* ===== verification/Normal.v ===== *)
(** * Normal operation

    The path of a client request through [handle_request], [handle_prepare] and
    [handle_prepare_ok] of [src/server/replica.cpp], and what happens to a request
    that a client repeats. *)
From S2P Require Import Prelude Types Serialization KeyValue ReplicaState Replica Execution Handlers.

(** The request is newer than what the client table knows of its client. *)
Definition new_request (m : vsr_message) (s : ReplicaState) : Prop :=
  request_number (client_entry (h_client (header m)) s) < h_request (header m).

(** The log entry for a client request in view [view]. *)
Definition entry_of (view : Z) (m : vsr_message) (acks : gset Z) : log_entry := {|
  le_view := view; le_op_type := h_operation (header m); le_client_id := h_client (header m);
  le_request_num := h_request (header m); le_payload := payload m; le_acks := acks |}.

(** The Prepare message the primary broadcasts for the request [m] as operation [op]. *)
Definition prepare_of (s : ReplicaState) (op : Z) (m : vsr_message) : vsr_message := {|
  header := zero_header <| h_command := command.prepare |>
    <| h_operation := h_operation (header m) |> <| h_replica := u8 (id_ s) |>
    <| h_client := h_client (header m) |> <| h_request := h_request (header m) |>
    <| h_view := view_ s |> <| h_op := op |> <| h_commit := commit_ s |>;
  payload := payload m |}.

(** ** Handling a new request *)

Lemma handle_request_new inb r :
  new_request (ib_message inb) (state_ r) → is_u64 (op_ (state_ r) + 1) →
  let s := state_ r in let op := op_ s + 1 in let m := ib_message inb in
  handle_request inb r =
  (r <| client_connections_ := <[h_client (header m) := ib_connection inb]> (client_connections_ r) |>
     <| state_ := s <| op_ := op |> <| log_ := <[op := entry_of (view_ s) m {[id_ s]}]> (log_ s) |>
          <| client_table_ := <[h_client (header m) := {| request_number := h_request (header m);
               executed := false; result := [] |}]> (client_table_ s) |> |>,
   [broadcast_to_peers (prepare_of s op m)]).
Proof.
  unfold new_request. intros Hn Ho. unfold handle_request. cbv zeta.
  rewrite (proj2 (Z.ltb_ge _ _)) by lia. rewrite (proj2 (Z.eqb_neq _ _)) by lia.
  rewrite u64_small by done. done.
Qed.

(** ** Collecting acknowledgements *)

(** Acknowledgements of operation [op] from the replicas [ids], handled in order. *)
Definition ok_from (view op id : Z) : inbound_message := {|
  ib_connection := Some id;
  ib_message := {| header := zero_header <| h_command := command.prepare_ok |> <| h_view := view |>
                     <| h_op := op |> <| h_replica := id |>; payload := [] |} |}.

(** The messages [msgs], handled one after the other, with everything sent. *)
Fixpoint handle_all (env : Env) (msgs : list inbound_message) (r : Replica)
    : Replica * list output :=
  match msgs with
  | [] => (r, [])
  | inb :: msgs =>
      let '(r, out) := dispatch env inb r in
      let '(r, out') := handle_all env msgs r in (r, out ++ out')
  end.

Section acks.
Context (env : Env).

(** A primary that waits for one operation: everything below is executed and the
    operation itself has no quorum yet. *)
Record waiting (r : Replica) (op : Z) (e : log_entry) : Prop := {
  wt_primary : is_primary (state_ r) = true;
  wt_f : 0 ≤ fault_tolerance_f_ (state_ r) < 2 ^ 31;
  wt_op : 0 < op < 2 ^ 64 - 1;
  wt_commit : commit_ (state_ r) = op - 1;
  wt_last : last_executed_op_ (state_ r) = op - 1;
  wt_entry : log_ (state_ r) !! op = Some e;
  wt_last_entry : log_ (state_ r) !! (op + 1) = None;
  wt_size : Z.of_nat (size (le_acks e)) ≤ fault_tolerance_f_ (state_ r) }.

Lemma quorum_spec n s :
  0 ≤ fault_tolerance_f_ s < 2 ^ 31 → quorum n s = (fault_tolerance_f_ s <? Z.of_nat n).
Proof.
  intros Hf. unfold quorum. rewrite u64_small by rlia.
  destruct (Z.ltb_spec (fault_tolerance_f_ s) (Z.of_nat n)); [apply Z.leb_le|apply Z.leb_gt]; lia.
Qed.

(** An acknowledgement that does not complete the quorum is only recorded. *)
Lemma waiting_ok_more r op e view id :
  waiting r op e → Z.of_nat (size ({[id]} ∪ le_acks e)) ≤ fault_tolerance_f_ (state_ r) →
  let e' := e <| le_acks := {[id]} ∪ le_acks e |> in
  dispatch env (ok_from view op id) r
  = (r <| state_ := (state_ r) <| log_ := <[op := e']> (log_ (state_ r)) |> |>, []) ∧
  waiting (dispatch env (ok_from view op id) r).1 op e'.
Proof.
  destruct r as [s c cc q n k x]. destruct s. intros [Hp Hf Hop Hc Hl He Hn Hs] Hsz e'. simpl in *. subst.
  unfold dispatch. simpl. unfold handle_prepare_ok. simpl.
  rewrite He. unfold advance_primary_commit_number. simpl. unfold is_primary, get_primary_id in *.
  simpl in *. rewrite Hp. simpl. rewrite u64_small by rlia.
  replace (op - 1 + 1) with op by lia. rewrite lookup_insert_eq. simpl.
  rewrite quorum_spec by done. simpl. rewrite (proj2 (Z.ltb_ge _ _)) by lia. simpl.
  unfold execute_commited_ops. simpl. rewrite Z.ltb_irrefl.
  split; [done|]. split; simpl; try done; try lia.
  - apply lookup_insert_eq.
  - by rewrite lookup_insert_ne by lia.
Qed.

(** The acknowledgement that completes the quorum commits and executes. *)
Lemma waiting_ok_last r op e view id :
  waiting r op e → fault_tolerance_f_ (state_ r) < Z.of_nat (size ({[id]} ∪ le_acks e)) →
  let e' := e <| le_acks := {[id]} ∪ le_acks e |> in
  dispatch env (ok_from view op id) r
  = execute_op op e' (r <| state_ := (state_ r) <| log_ := <[op := e']> (log_ (state_ r)) |>
                                                <| commit_ := op |> |>).
Proof.
  destruct r as [s c cc q n k x]. destruct s. intros [Hp Hf Hop Hc Hl He Hn Hs] Hsz e'. simpl in *. subst.
  unfold dispatch. simpl. unfold handle_prepare_ok. simpl.
  rewrite He. unfold advance_primary_commit_number. simpl. unfold is_primary, get_primary_id in *.
  simpl in *. rewrite Hp. simpl. rewrite u64_small by rlia.
  replace (op - 1 + 1) with op by lia. rewrite lookup_insert_eq. simpl.
  rewrite quorum_spec by done. simpl. rewrite (proj2 (Z.ltb_lt _ _)) by lia. simpl.
  destruct (size (<[op := _]> log_)) as [|fuel] eqn:Hsize.
  { apply map_size_empty_inv in Hsize. by apply insert_non_empty in Hsize. }
  cbn [advance_loop]. simpl. rewrite u64_small by rlia.
  rewrite lookup_insert_ne, Hn by lia. unfold execute_commited_ops. simpl. rewrite Hsize.
  cbn [execute_loop]. simpl. rewrite (proj2 (Z.ltb_lt _ _)) by lia. rewrite u64_small by rlia.
  replace (op - 1 + 1) with op by lia. rewrite lookup_insert_eq. fold e'.
  match goal with |- context [execute_op op e' ?r0] =>
    pose proof (execute_op_spec op e' r0) as Hspec; destruct (execute_op op e' r0) as [r1 o1] end.
  simpl in Hspec. subst r1. simpl. by rewrite Z.ltb_irrefl, app_nil_r.
Qed.

Lemma handle_all_app msgs1 msgs2 r :
  handle_all env (msgs1 ++ msgs2) r
  = (let '(r1, o1) := handle_all env msgs1 r in
     let '(r2, o2) := handle_all env msgs2 r1 in (r2, o1 ++ o2)).
Proof.
  revert r. induction msgs1 as [|m msgs1 IH]; intros r; simpl; [by destruct (handle_all _ _ _)|].
  destruct (dispatch env m r) as [r1 o1]. rewrite IH. destruct (handle_all env msgs1 r1) as [r2 o2].
  destruct (handle_all env msgs2 r2) as [r3 o3]. by rewrite (assoc_L (++)).
Qed.

(** Fewer acknowledgements than a quorum: nothing is sent, only the acknowledgements
    change. *)
Lemma waiting_oks r op e view ids :
  waiting r op e →
  Z.of_nat (size (list_to_set ids ∪ le_acks e)) ≤ fault_tolerance_f_ (state_ r) →
  let e' := e <| le_acks := list_to_set ids ∪ le_acks e |> in
  let r' := r <| state_ := (state_ r) <| log_ := <[op := e']> (log_ (state_ r)) |> |> in
  handle_all env (ok_from view op <$> ids) r = (r', []) ∧ waiting r' op e'.
Proof.
  revert r e. induction ids as [|id ids IH]; intros r e Hw Hsz.
  - simpl in *. rewrite (left_id_L ∅ (∪)) in *. pose proof (wt_entry _ _ _ Hw) as He.
    destruct e, r as [[] ? ? ? ? ? ?]. simpl in *. by rewrite insert_id by done.
  - destruct (waiting_ok_more r op e view id Hw) as [Hd Hw'].
    { etrans; [|exact Hsz]. apply inj_le, subseteq_size. set_solver. }
    rewrite fmap_cons. cbn [handle_all]. rewrite Hd in *. cbn [fst] in Hw'.
    destruct (IH _ _ Hw') as [Ha Hw''].
    { simpl. etrans; [|exact Hsz]. apply inj_le, subseteq_size. set_solver. }
    rewrite Ha. simpl in *. rewrite insert_insert_eq in *.
    replace (list_to_set ids ∪ ({[id]} ∪ le_acks e)) with ({[id]} ∪ list_to_set ids ∪ le_acks e) in *
      by set_solver. done.
Qed.
End acks.

(** Executing an entry whose request is in the client table but not executed. *)
Lemma execute_op_pending op e r ce :
  client_table_ (state_ r) !! le_client_id e = Some ce → executed ce = false →
  let res := (apply_operation (le_op_type e) (le_payload e) (state_machine_ (state_ r))).2 in
  let s' := (state_ r) <| state_machine_ :=
      (apply_operation (le_op_type e) (le_payload e) (state_machine_ (state_ r))).1 |>
    <| client_table_ := <[le_client_id e := {| request_number := le_request_num e;
         executed := true; result := res |}]> (client_table_ (state_ r)) |> in
  execute_op op e r = (r <| state_ := s' <| last_executed_op_ := op |> |>, reply_outputs r s' e res).
Proof.
  intros Hce Hx. unfold execute_op, client_entry, set_client_entry. rewrite Hce. simpl. rewrite Hx.
  rewrite orb_true_r. by destruct (apply_operation _ _ _).
Qed.

(** A primary without pending operations. *)
Record quiescent (r : Replica) : Prop := {
  qs_primary : is_primary (state_ r) = true;
  qs_f : 0 ≤ fault_tolerance_f_ (state_ r) < 2 ^ 31;
  qs_op : 0 ≤ op_ (state_ r) < 2 ^ 64 - 2;
  qs_commit : commit_ (state_ r) = op_ (state_ r);
  qs_last : last_executed_op_ (state_ r) = op_ (state_ r);
  qs_log : ∀ k e, log_ (state_ r) !! k = Some e → k ≤ op_ (state_ r) }.

Lemma request_waiting inb r :
  quiescent r → 0 < fault_tolerance_f_ (state_ r) → new_request (ib_message inb) (state_ r) →
  waiting (handle_request inb r).1 (op_ (state_ r) + 1)
    (entry_of (view_ (state_ r)) (ib_message inb) {[id_ (state_ r)]}).
Proof.
  intros [Hp Hf Ho Hc Hl Hk] Hpos Hn. rewrite handle_request_new by (done || rlia).
  split; try (simpl; (done || lia)).
  - apply lookup_insert_eq.
  - simpl. rewrite lookup_insert_ne by lia. destruct (log_ (state_ r) !! _) eqn:He; [|done].
    apply Hk in He. lia.
  - cbn [le_acks entry_of]. rewrite size_singleton. simpl. lia.
Qed.

(** The reply to a client connected through [c]. *)
Definition reply_to (c : conn) (view : Z) (m : vsr_message) (res : list byte) : list output :=
  match c with
  | Some c => [send_message (Some c) {|
      header := zero_header <| h_command := command.reply |> <| h_view := view |>
        <| h_client := h_client (header m) |> <| h_request := h_request (header m) |>;
      payload := res |}]
  | None => []
  end.

(** ** Properties *)

(** C12: A new request handled by a primary without pending operations becomes the
    next operation.  With the acknowledgements of fewer than [f] backups nothing is
    committed, executed or answered; the [f]-th acknowledgement, from whichever
    backup, commits the operation, executes it on the store and answers the client,
    once. *)
Theorem request_commits_at_quorum env inb r ids last :
  quiescent r → h_command (header (ib_message inb)) = command.request →
  new_request (ib_message inb) (state_ r) →
  NoDup (id_ (state_ r) :: ids ++ [last]) →
  Z.of_nat (length (ids ++ [last])) = fault_tolerance_f_ (state_ r) →
  let s := state_ r in let m := ib_message inb in let op := op_ s + 1 in
  let oks ids := ok_from (view_ s) op <$> ids in
  let prepare := broadcast_to_peers (prepare_of s op m) in
  let before := handle_all env (inb :: oks ids) r in
  let after := handle_all env (inb :: oks (ids ++ [last])) r in
  (commit_ (state_ before.1) = commit_ s ∧ state_machine_ (state_ before.1) = state_machine_ s ∧
   before.2 = [prepare]) ∧
  (commit_ (state_ after.1) = op ∧ last_executed_op_ (state_ after.1) = op ∧
   state_machine_ (state_ after.1)
     = (apply_operation (h_operation (header m)) (payload m) (state_machine_ s)).1 ∧
   after.2 = prepare :: reply_to (ib_connection inb) (view_ s) m
     (apply_operation (h_operation (header m)) (payload m) (state_machine_ s)).2).
Proof.
  intros Hqs Hcmd Hn Hnd Hlen. cbv zeta. rewrite length_app in Hlen. simpl in Hlen.
  pose proof (request_waiting inb r Hqs ltac:(lia) Hn) as Hw.
  apply NoDup_cons in Hnd as [Hid (Hnd & Hlast & _)%NoDup_app].
  assert (size (list_to_set ids ∪ {[id_ (state_ r)]} : gset Z) = S (length ids)) as Hsz.
  { rewrite size_union, size_list_to_set, size_singleton by (done || set_solver). lia. }
  rewrite fmap_app. cbn [handle_all].
  assert (dispatch env inb r = handle_request inb r) as -> by (unfold dispatch; by rewrite Hcmd).
  rewrite handle_request_new in * by (done || (destruct Hqs; rlia)). cbn [fst] in Hw.
  rewrite handle_all_app.
  destruct (waiting_oks env _ _ _ (view_ (state_ r)) ids Hw) as [Ha Hw'].
  { cbn [le_acks entry_of]. rewrite Hsz. simpl. lia. }
  rewrite Ha. split; [done|].
  pose proof (waiting_ok_last env _ _ _ (view_ (state_ r)) last Hw') as Hd.
  rewrite fmap_cons. cbn [handle_all]. rewrite Hd.
  - erewrite execute_op_pending; [|apply lookup_insert_eq|done]. unfold reply_outputs.
    pose proof (qs_primary _ Hqs) as Hp. unfold is_primary, get_primary_id in *. simpl. rewrite Hp.
    simpl. rewrite lookup_insert_eq. split_and!; [done..|]. by destruct (ib_connection inb).
  - cbn [le_acks setf entry_of]. rewrite size_union, Hsz, size_singleton by set_solver.
    simpl. lia.
Qed.

(** C18: Replication of one operation: when a primary and a backup agree on view,
    operation number and log (up to acknowledgements), the backup can process the
    Prepare the primary broadcasts for a new request, and afterwards they agree
    again; the acknowledgement it returns names the new operation and is accepted
    by the primary's guard. *)
Theorem prepare_keeps_logs_equal env inb r b :
  let s := state_ r in let t := state_ b in
  new_request (ib_message inb) s → is_u64 (op_ s + 1) →
  is_primary s = true → status_ s = ReplicaStatus.NORMAL →
  is_primary t = false → status_ t = ReplicaStatus.NORMAL →
  (view_ t, op_ t, strip_acks (log_ t)) = (view_ s, op_ s, strip_acks (log_ s)) →
  ∃ prep ok out,
    let r' := (handle_request inb r).1 in
    let pinb := {| ib_connection := Some (id_ s); ib_message := prep |} in
    let b' := (handle_prepare env pinb b).1 in
    (handle_request inb r).2 = [broadcast_to_peers prep] ∧
    can_process pinb t = true ∧
    (handle_prepare env pinb b).2 = send_message (Some (id_ s)) ok :: out ∧
    h_op (header ok) = op_ s + 1 ∧
    can_process {| ib_connection := Some (id_ t); ib_message := ok |} (state_ r') = true ∧
    (view_ (state_ b'), op_ (state_ b'), strip_acks (log_ (state_ b')))
      = (view_ (state_ r'), op_ (state_ r'), strip_acks (log_ (state_ r'))).
Proof.
  cbv zeta. intros Hn Ho Hp Hst Hp' Hst' [= Hv Hop Hlog].
  rewrite handle_request_new by done.
  exists (prepare_of (state_ r) (op_ (state_ r) + 1) (ib_message inb)),
    (prepare_ok_msg (op_ (state_ r) + 1) (state_ b)).
  unfold handle_prepare, can_process, check_can_process_prepare, check_can_process_prepare_ok,
    prepare_ok_msg.
  simpl. rewrite Hop, u64_small by done. unfold is_primary, get_primary_id in *. simpl in *.
  rewrite Hp, Hp', Hst, Hst', Hv, !Z.eqb_refl. simpl.
  unfold strip_acks in *.
  case_match; [reshape|]; eexists; (split_and!; [done..|]); simpl; by rewrite !fmap_insert, Hlog.
Qed.

(** A client that repeats a request before the operation is committed is
    answered at once with a reply whose result is empty, although the operation has
    been executed nowhere: the entry of the client table is read without looking at
    its [executed] flag.  The same holds for the very first request of a client if
    its number is 0, which moreover never enters the log. *)
Theorem duplicate_answered_before_execution inb r :
  (new_request (ib_message inb) (state_ r) → is_u64 (op_ (state_ r) + 1) →
   let r1 := (handle_request inb r).1 in
   handle_request inb r1
   = (r1, [send_message (ib_connection inb) {|
        header := zero_header <| h_command := command.reply |>
          <| h_client := h_client (header (ib_message inb)) |>
          <| h_request := h_request (header (ib_message inb)) |>; payload := [] |}])) ∧
  (h_request (header (ib_message inb)) = 0 →
   client_table_ (state_ r) !! h_client (header (ib_message inb)) = None →
   log_ (state_ (handle_request inb r).1) = log_ (state_ r) ∧
   (handle_request inb r).2 = [send_message (ib_connection inb) {|
        header := zero_header <| h_command := command.reply |>
          <| h_client := h_client (header (ib_message inb)) |>; payload := [] |}]).
Proof.
  split.
  - intros Hn Ho. cbv zeta. rewrite (handle_request_new inb r) by done. unfold handle_request, client_entry.
    simpl. rewrite lookup_insert_eq. simpl. rewrite Z.ltb_irrefl, Z.eqb_refl.
    unfold set_client_entry. simpl. by rewrite insert_insert_eq.
  - intros Hz Hc. unfold handle_request, client_entry. rewrite Hc, Hz. split; reflexivity.
Qed.

(** ** Witnesses *)

Definition set_request (n : Z) : inbound_message :=
  {| ib_connection := Some 100;
     ib_message := {| header := zero_header <| h_command := command.request |>
                        <| h_operation := operation.set |> <| h_client := U128 1 2 |>
                        <| h_request := n |>; payload := lit "k v" |} |}.

Lemma request_commits_at_quorum_witness :
  let r := new_replica 0 main_cluster_config in
  state_machine_ (state_ (handle_all sample_env [set_request 1; ok_from 0 1 2] r).1)
  = {[lit "k" := lit "v"]}.
Proof.
  refine (proj1 (proj2 (proj2 (proj2 (request_commits_at_quorum sample_env (set_request 1)
    (new_replica 0 main_cluster_config) [] 2 _ _ _ _ _))))); try reflexivity.
  - split; first [reflexivity | vm_compute; split; congruence |
      intros k e; vm_compute; congruence].
  - vm_compute. repeat constructor; set_solver.
Defined.

Lemma prepare_keeps_logs_equal_witness :
  ∃ prep, (handle_request (set_request 1) (new_replica 0 main_cluster_config)).2
          = [broadcast_to_peers prep] ∧ h_op (header prep) = 1.
Proof.
  destruct (prepare_keeps_logs_equal sample_env (set_request 1) (new_replica 0 main_cluster_config)
    (new_replica 1 main_cluster_config)) as (prep & ok & out & Hp & _);
    [reflexivity|vm_compute; split; congruence|reflexivity..|].
  exists prep. split; [exact Hp|]. vm_compute in Hp. injection Hp as <-. reflexivity.
Defined.

Lemma duplicate_answered_before_execution_witness :
  let r1 := (handle_request (set_request 1) (new_replica 0 main_cluster_config)).1 in
  (handle_request (set_request 1) r1).1 = r1 ∧ log_ (state_ r1) !! 1 ≠ None.
Proof.
  split; [|vm_compute; congruence].
  rewrite (proj1 (duplicate_answered_before_execution (set_request 1)
    (new_replica 0 main_cluster_config))); [reflexivity|reflexivity|vm_compute; split; congruence].
Defined.
