(* ===== verification/Framing.v ===== *)
(** * Connections and message framing

    [src/common/tcp_connection.cpp] and [src/server/protocol_handler.cpp]: the
    connection object, and the reassembly of messages from the bytes that reads
    return.  The messages a call hands to [on_message_received_] are returned as a
    list. *)
From S2P Require Import Prelude Types Serialization Message.

Module TcpState.
Inductive t := UNIDENTIFIED | PEER | CLIENT.
End TcpState.

#[export] Instance tcp_state_eq_dec : EqDecision TcpState.t.
Proof. solve_decision. Defined.

(** The read buffer of a connection only carries the bytes of one read to its
    callback; they are arguments here. *)
Record TcpConnection := { socket_fd_ : Z; conn_state_ : TcpState.t }.

#[export] Instance TcpConnection_eta : Settable TcpConnection :=
  λ c, Build_TcpConnection (socket_fd_ c) (conn_state_ c).

Definition new_connection (socket : Z) : TcpConnection :=
  {| socket_fd_ := socket; conn_state_ := TcpState.UNIDENTIFIED |}.

Definition close_socket (c : TcpConnection) : TcpConnection :=
  if negb (socket_fd_ c =? -1) then c <| socket_fd_ := -1 |> else c.

Definition set_state (new_state : TcpState.t) (c : TcpConnection) : TcpConnection :=
  c <| conn_state_ := new_state |>.

Section framing.
Variable blake3 : list byte → list byte.

(** The loop of [handle_raw_data]: the messages delivered, and the rest of the
    buffer or [None] if the connection was closed.  Every round that continues
    removes a message, that is at least a header, from the buffer. *)
Fixpoint frame_loop (fuel : nat) (buffer : list byte) : list vsr_message * option (list byte) :=
  match fuel with
  | O => ([], Some buffer)
  | S fuel =>
      if (length buffer <? sizeof_header)%nat then ([], Some buffer)
      else
        let expected_size := h_size (memcpy_header buffer) in
        if (expected_size =? 0) || (65536 <? expected_size) then ([], None)
        else if Z.of_nat (length buffer) <? expected_size then ([], Some buffer)
        else
          let full_message_data := take (Z.to_nat expected_size) buffer in
          let '(ok, msg) := vsr_deserialize blake3 full_message_data fresh_message in
          if ok then
            let '(msgs, rest) := frame_loop fuel (drop (Z.to_nat expected_size) buffer) in
            (msg :: msgs, rest)
          else ([], None)
  end.

(** [handle_raw_data], on the connection object and [connection_buffers_]. *)
Definition handle_raw_data (connection : TcpConnection) (data : list byte)
    (connection_buffers_ : gmap Z (list byte))
    : TcpConnection * gmap Z (list byte) * list vsr_message :=
  let socket_fd := socket_fd_ connection in
  if socket_fd =? -1 then (connection, connection_buffers_, [])
  else
    let buffer := default [] (connection_buffers_ !! socket_fd) ++ data in
    let '(msgs, rest) := frame_loop (S (length buffer)) buffer in
    match rest with
    | Some buffer => (connection, <[socket_fd := buffer]> connection_buffers_, msgs)
    | None => (close_socket connection, delete socket_fd connection_buffers_, msgs)
    end.

(** [ProtocolHandler::on_disconnect] *)
Definition ph_on_disconnect (connection : option TcpConnection)
    (connection_buffers_ : gmap Z (list byte)) : gmap Z (list byte) :=
  match connection with
  | Some c => delete (socket_fd_ c) connection_buffers_
  | None => connection_buffers_
  end.

(** The reads [chunks] of one connection, one after the other. *)
Fixpoint handle_reads (c : TcpConnection) (chunks : list (list byte))
    (bufs : gmap Z (list byte)) : TcpConnection * gmap Z (list byte) * list vsr_message :=
  match chunks with
  | [] => (c, bufs, [])
  | data :: chunks =>
      let '(c, bufs, msgs) := handle_raw_data c data bufs in
      let '(c, bufs, msgs') := handle_reads c chunks bufs in
      (c, bufs, msgs ++ msgs')
  end.

(** ** One round of the loop *)

Inductive round := Wait | Close | Deliver (msg : vsr_message) (rest : list byte).

Definition frame_round (buffer : list byte) : round :=
  if (length buffer <? sizeof_header)%nat then Wait
  else
    let n := h_size (memcpy_header buffer) in
    if (n =? 0) || (65536 <? n) then Close
    else if Z.of_nat (length buffer) <? n then Wait
    else match vsr_deserialize blake3 (take (Z.to_nat n) buffer) fresh_message with
         | (true, msg) => Deliver msg (drop (Z.to_nat n) buffer)
         | (false, _) => Close
         end.

Lemma frame_loop_round fuel b :
  frame_loop (S fuel) b =
  match frame_round b with
  | Wait => ([], Some b)
  | Close => ([], None)
  | Deliver m b' => let '(ms, rest) := frame_loop fuel b' in (m :: ms, rest)
  end.
Proof.
  cbn [frame_loop]. unfold frame_round. destruct (_ <? _)%nat; [done|].
  destruct ((_ =? _) || _); [done|]. destruct (_ <? _); [done|].
  destruct (vsr_deserialize _ _ _) as [[] m]; done.
Qed.

Lemma memcpy_header_app b d :
  (sizeof_header ≤ length b)%nat → memcpy_header (b ++ d) = memcpy_header b.
Proof.
  intros Hb. destruct (memcpy_header_spec b Hb) as [Hwf Heq].
  rewrite Heq at 1. rewrite <- (assoc_L (++)). unfold memcpy_header at 1.
  by rewrite read_encode_header by done.
Qed.

(** A round decides on a prefix of the buffer: bytes that follow do not matter. *)
Lemma frame_round_app b d :
  match frame_round b with
  | Wait => True
  | Close => frame_round (b ++ d) = Close
  | Deliver m b' => frame_round (b ++ d) = Deliver m (b' ++ d)
  end.
Proof.
  unfold frame_round. destruct (Nat.ltb_spec (length b) sizeof_header) as [|Hh]; [done|].
  rewrite length_app, (proj2 (Nat.ltb_ge _ _)) by lia. rewrite memcpy_header_app by done.
  destruct ((_ =? _) || _); [done|].
  destruct (Z.ltb_spec (Z.of_nat (length b)) (h_size (memcpy_header b))) as [|Hn]; [done|].
  rewrite (proj2 (Z.ltb_ge _ _)) by lia.
  rewrite take_app_le by lia. destruct (vsr_deserialize _ _ _) as [[] m]; [|done].
  by rewrite drop_app_le by lia.
Qed.

(** A delivered message is the one whose serialization was at the front. *)
Lemma frame_round_deliver b m b' :
  frame_round b = Deliver m b' →
  ∃ s, vsr_serialize blake3 m = Some s ∧ b = s ++ b' ∧ (sizeof_header ≤ length s)%nat ∧
    Z.of_nat (length s) ≤ 65536 ∧ prepare_message blake3 m = m ∧ header_wf (header m).
Proof.
  unfold frame_round. destruct (_ <? _)%nat; [done|].
  destruct ((_ =? _) || _) eqn:Hsz; [done|]. apply orb_false_iff in Hsz as [_ Hmax%Z.ltb_ge].
  destruct (Z.ltb_spec (Z.of_nat (length b)) (h_size (memcpy_header b))) as [|Hn]; [done|].
  destruct (vsr_deserialize _ _ _) as [[] m'] eqn:Hd; [|done]. intros [= -> <-].
  apply deserialize_inv in Hd as (Hwf & Hdata & Hs & Hh & Hb).
  pose proof (wf_size _ Hwf) as Hu.
  assert (prepare_message blake3 m = m) as Hp by (apply prepare_verified; done).
  exists (take (Z.to_nat (h_size (memcpy_header b))) b). split_and!; [| |  | |done|done].
  - rewrite serialize_Some by (rewrite <- Hs; apply Hu). by rewrite Hp, Hdata.
  - by rewrite take_drop.
  - rewrite Hdata, length_app, length_encode_header. lia.
  - rewrite length_take. lia.
Qed.

Lemma frame_round_shorter b m b' :
  frame_round b = Deliver m b' → (length b' < length b)%nat.
Proof.
  intros (s & _ & -> & Hs & _)%frame_round_deliver. rewrite length_app.
  unfold sizeof_header in Hs. lia.
Qed.

(** More fuel than bytes is enough. *)
Lemma frame_loop_fuel fuel fuel' b :
  (length b < fuel)%nat → (length b < fuel')%nat → frame_loop fuel b = frame_loop fuel' b.
Proof.
  revert fuel' b. induction fuel as [|fuel IH]; intros [|fuel'] b Hf Hf'; try lia.
  rewrite !frame_loop_round. destruct (frame_round b) as [| |m b'] eqn:Hr; [done|done|].
  apply frame_round_shorter in Hr. by rewrite (IH fuel') by lia.
Qed.

Definition frames (b : list byte) : list vsr_message * option (list byte) :=
  frame_loop (S (length b)) b.

Lemma frames_unfold b :
  frames b =
  match frame_round b with
  | Wait => ([], Some b)
  | Close => ([], None)
  | Deliver m b' => let '(ms, rest) := frames b' in (m :: ms, rest)
  end.
Proof.
  unfold frames at 1. rewrite frame_loop_round. destruct (frame_round b) as [| |m b'] eqn:Hr; try done.
  apply frame_round_shorter in Hr. unfold frames. by rewrite (frame_loop_fuel _ (S (length b'))) by lia.
Qed.

(** Framing a stream in two parts. *)
Lemma frames_app b d :
  frames (b ++ d) =
  match frames b with
  | (ms, None) => (ms, None)
  | (ms, Some b') => let '(ms', rest) := frames (b' ++ d) in (ms ++ ms', rest)
  end.
Proof.
  revert b. refine (well_founded_ind (well_founded_ltof _ length) _ _). intros b IH.
  rewrite (frames_unfold b). pose proof (frame_round_app b d) as Happ.
  destruct (frame_round b) as [| |m b'] eqn:Hr.
  - simpl. by destruct (frames (b ++ d)).
  - rewrite frames_unfold. by rewrite Happ.
  - rewrite frames_unfold, Happ. apply frame_round_shorter in Hr.
    rewrite IH by done. destruct (frames b') as [ms [b''|]]; [|done].
    by destruct (frames (b'' ++ d)).
Qed.

(** What is delivered is the front of the stream, and what is kept is the rest. *)
Lemma frames_sound b ms rest :
  frames b = (ms, rest) →
  ∃ ss b', Forall2 (λ m s, vsr_serialize blake3 m = Some s) ms ss ∧ b = concat ss ++ b' ∧
    (rest = Some b' ∨ rest = None).
Proof.
  revert b ms rest. refine (well_founded_ind (well_founded_ltof _ length) _ _).
  intros b IH ms rest. rewrite frames_unfold. destruct (frame_round b) as [| |m c] eqn:Hr.
  - intros [= <- <-]. exists [], b. eauto.
  - intros [= <- <-]. exists [], b. eauto.
  - pose proof (frame_round_shorter _ _ _ Hr) as Hlt.
    apply frame_round_deliver in Hr as (s & Hs & -> & _).
    destruct (frames c) as [ms' rest'] eqn:Hc. intros [= <- <-].
    destruct (IH c Hlt _ _ Hc) as (ss & b' & Hall & -> & Hor).
    exists (s :: ss), b'. split_and!; [by constructor| |done]. simpl. by rewrite (assoc_L (++)).
Qed.

(** The front of the stream is a message: it is delivered. *)
Lemma frame_round_message m s d :
  (∀ l, length (blake3 l) = 32%nat) → header_wf (header m) → vsr_serialize blake3 m = Some s →
  frame_round (s ++ d) =
  if 65536 <? Z.of_nat (length s) then Close else Deliver (prepare_message blake3 m) d.
Proof.
  intros Hlen Hwf Hser. pose proof (serialize_inv blake3 m s Hser) as [Hs Hsz].
  pose proof (prepare_message_wf blake3 Hlen m Hwf) as Hpwf.
  assert (sizeof_header ≤ length s)%nat as Hmin by (rewrite Hs, length_app, length_encode_header; lia).
  unfold frame_round. rewrite length_app, (proj2 (Nat.ltb_ge _ _)) by lia.
  assert (memcpy_header s = header (prepare_message blake3 m)) as Hhd.
  { unfold memcpy_header. by rewrite Hs, read_encode_header. }
  rewrite memcpy_header_app, Hhd, <- Hsz by done.
  rewrite (proj2 (Z.eqb_neq _ _)) by (unfold sizeof_header in *; lia). simpl.
  destruct (_ <? Z.of_nat (length s)); [done|]. rewrite (proj2 (Z.ltb_ge _ _)) by lia.
  rewrite Nat2Z.id, take_app_length, drop_app_length.
  destruct (verify_prepared blake3 m) as [Hh Hb].
  rewrite Hs, (deserialize_encoded blake3 (header (prepare_message blake3 m)) (payload m));
    [done|done| |exact Hh|exact Hb].
  rewrite <- Hsz, Hs, length_app, length_encode_header. lia.
Qed.

Lemma frames_messages ms ss d :
  (∀ l, length (blake3 l) = 32%nat) → Forall (λ m, header_wf (header m)) ms →
  Forall2 (λ m s, vsr_serialize blake3 m = Some s ∧ Z.of_nat (length s) ≤ 65536) ms ss →
  frames (concat ss ++ d)
  = (let '(ms', rest) := frames d in ((prepare_message blake3 <$> ms) ++ ms', rest)).
Proof.
  intros Hlen Hwf Hall. revert Hwf. induction Hall as [|m s ms ss [Hs Hmax] _ IH]; simpl.
  { intros _. by destruct (frames d). }
  intros [Hm Hwf]%Forall_cons. rewrite <- (assoc_L (++)), frames_unfold.
  rewrite (frame_round_message m s), (proj2 (Z.ltb_ge _ _)) by done.
  rewrite IH by done. by destruct (frames d).
Qed.

(** ** Reads *)

Lemma handle_raw_data_app c d1 d2 bufs :
  handle_raw_data c (d1 ++ d2) bufs =
  (let '(c, bufs, ms1) := handle_raw_data c d1 bufs in
   let '(c, bufs, ms2) := handle_raw_data c d2 bufs in (c, bufs, ms1 ++ ms2)).
Proof.
  unfold handle_raw_data. destruct (Z.eqb_spec (socket_fd_ c) (-1)) as [Hfd|Hfd].
  { by rewrite (proj2 (Z.eqb_eq _ _) Hfd). }
  rewrite (assoc_L (++)). fold (frames (default [] (bufs !! socket_fd_ c) ++ d1)).
  fold (frames ((default [] (bufs !! socket_fd_ c) ++ d1) ++ d2)). rewrite frames_app.
  destruct (frames (default [] (bufs !! socket_fd_ c) ++ d1)) as [ms1 [b'|]].
  - rewrite (proj2 (Z.eqb_neq _ _) Hfd), lookup_insert_eq. cbn [default from_option id].
    fold (frames (b' ++ d2)). destruct (frames (b' ++ d2)) as [ms2 [b''|]].
    + by rewrite insert_insert_eq.
    + by rewrite delete_insert_eq.
  - unfold close_socket. rewrite (proj2 (Z.eqb_neq _ _) Hfd). simpl. by rewrite app_nil_r.
Qed.

Lemma handle_reads_concat c chunks bufs :
  chunks ≠ [] → handle_reads c chunks bufs = handle_raw_data c (concat chunks) bufs.
Proof.
  revert c bufs. induction chunks as [|d chunks IH]; intros c bufs Hne; [done|]. simpl.
  destruct chunks as [|d' chunks].
  - simpl. rewrite app_nil_r. destruct (handle_raw_data c d bufs) as [[c1 bufs1] ms1].
    by rewrite app_nil_r.
  - rewrite handle_raw_data_app. destruct (handle_raw_data c d bufs) as [[c1 bufs1] ms1].
    by rewrite IH by done.
Qed.

(** The first reads of an open connection. *)
Lemma handle_reads_fresh c chunks bufs :
  chunks ≠ [] → socket_fd_ c ≠ -1 → bufs !! socket_fd_ c = None →
  handle_reads c chunks bufs =
  match frames (concat chunks) with
  | (ms, Some b) => (c, <[socket_fd_ c := b]> bufs, ms)
  | (ms, None) => (c <| socket_fd_ := -1 |>, bufs, ms)
  end.
Proof.
  intros Hne Hfd Hb. rewrite handle_reads_concat by done. unfold handle_raw_data.
  rewrite (proj2 (Z.eqb_neq _ _) Hfd), Hb. cbn [default from_option id app]. fold (frames (concat chunks)).
  destruct (frames (concat chunks)) as [ms [b|]]; [done|]. unfold close_socket.
  rewrite (proj2 (Z.eqb_neq _ _) Hfd). simpl. by rewrite delete_id.
Qed.
End framing.

(** ** Properties *)

(** C26: How the network cuts the byte stream of a connection into reads does not
    matter: handling two reads one after the other delivers the same messages and
    leaves the same buffers and connection as handling them at once, also when the
    bytes are malformed and the connection is closed on the way. *)
Theorem framing_split_invariant (blake3 : list byte → list byte) c d1 d2 bufs :
  handle_raw_data blake3 c (d1 ++ d2) bufs =
  (let '(c, bufs, ms1) := handle_raw_data blake3 c d1 bufs in
   let '(c, bufs, ms2) := handle_raw_data blake3 c d2 bufs in (c, bufs, ms1 ++ ms2)).
Proof. apply handle_raw_data_app. Qed.

(** C25: Whatever a sender serializes, if no message exceeds 64 KiB, the receiver
    delivers exactly these messages, in order, however the stream is cut into
    reads; the connection stays open with an empty buffer. *)
Theorem stream_reassembled (blake3 : list byte → list byte) c chunks bufs ms ss :
  (∀ l, length (blake3 l) = 32%nat) → Forall (λ m, header_wf (header m)) ms →
  Forall2 (λ m s, vsr_serialize blake3 m = Some s ∧ Z.of_nat (length s) ≤ 65536) ms ss →
  concat chunks = concat ss → chunks ≠ [] →
  socket_fd_ c ≠ -1 → bufs !! socket_fd_ c = None →
  handle_reads blake3 c chunks bufs
  = (c, <[socket_fd_ c := []]> bufs, prepare_message blake3 <$> ms).
Proof.
  intros Hlen Hwf Hall Hcat Hne Hfd Hb. rewrite handle_reads_fresh by done.
  rewrite Hcat, <- (app_nil_r (concat ss)), (frames_messages blake3 ms) by done.
  rewrite frames_unfold. simpl. by rewrite app_nil_r.
Qed.

(** Nothing is invented: the messages delivered from a connection are, in
    order, exactly the messages whose serializations are the front of the bytes
    read so far, and while the connection is open the buffer holds the bytes that
    follow them. *)
Theorem framing_sound (blake3 : list byte → list byte) c chunks bufs c' bufs' ms :
  chunks ≠ [] → socket_fd_ c ≠ -1 → bufs !! socket_fd_ c = None →
  handle_reads blake3 c chunks bufs = (c', bufs', ms) →
  ∃ ss rest, Forall2 (λ m s, vsr_serialize blake3 m = Some s) ms ss ∧
    concat chunks = concat ss ++ rest ∧
    (c' = c ∧ bufs' !! socket_fd_ c = Some rest ∨ socket_fd_ c' = -1 ∧ bufs' = bufs).
Proof.
  intros Hne Hfd Hb. rewrite handle_reads_fresh by done.
  destruct (frames blake3 (concat chunks)) as [ms0 rest0] eqn:Hf.
  apply frames_sound in Hf as (ss & rest & Hall & Hcat & Hor).
  destruct rest0 as [b|]; intros [= <- <- <-]; exists ss, rest; split_and!; try done.
  - left. destruct Hor as [[= ->]|]; [|done]. by rewrite lookup_insert_eq.
  - by right.
Qed.

(** A message of more than 64 KiB is sent without complaint but never received:
    as soon as its header has been read the receiver closes the connection, and
    nothing that follows on it is delivered. *)
Theorem oversized_message_closes (blake3 : list byte → list byte) c chunks bufs m s more :
  (∀ l, length (blake3 l) = 32%nat) → header_wf (header m) →
  vsr_serialize blake3 m = Some s → 65536 < Z.of_nat (length s) →
  concat chunks = s ++ more → chunks ≠ [] →
  socket_fd_ c ≠ -1 → bufs !! socket_fd_ c = None →
  handle_reads blake3 c chunks bufs = (c <| socket_fd_ := -1 |>, bufs, []).
Proof.
  intros Hlen Hwf Hs Hbig Hcat Hne Hfd Hb. rewrite handle_reads_fresh by done.
  rewrite Hcat, frames_unfold, (frame_round_message blake3 m s), (proj2 (Z.ltb_lt _ _)) by done.
  done.
Qed.

(** ** Witnesses *)

Definition sample_bytes : list byte :=
  encode_header (header (prepare_message toy_hash sample_message)) ++ payload sample_message.

Lemma stream_reassembled_witness :
  handle_reads toy_hash (new_connection 7)
    [take 100 sample_bytes; drop 100 sample_bytes ++ take 5 sample_bytes; drop 5 sample_bytes] ∅
  = (new_connection 7, {[7 := []]},
     [prepare_message toy_hash sample_message; prepare_message toy_hash sample_message]).
Proof.
  apply (stream_reassembled toy_hash (new_connection 7) _ ∅ [sample_message; sample_message]
    [sample_bytes; sample_bytes]).
  - apply toy_hash_len.
  - repeat (constructor; [apply sample_message_wf|]). constructor.
  - repeat (constructor; [split; [vm_compute; reflexivity|vm_compute; congruence]|]). constructor.
  - vm_compute. reflexivity.
  - congruence.
  - vm_compute. congruence.
  - reflexivity.
Defined.

Lemma framing_sound_witness :
  ∃ ss rest, Forall2 (λ m s, vsr_serialize toy_hash m = Some s)
    [prepare_message toy_hash sample_message] ss ∧
    sample_bytes ++ take 9 sample_bytes = concat ss ++ rest.
Proof.
  destruct (framing_sound toy_hash (new_connection 7)
    [take 30 sample_bytes; drop 30 sample_bytes ++ take 9 sample_bytes] ∅
    (new_connection 7) {[7 := take 9 sample_bytes]} [prepare_message toy_hash sample_message])
    as (ss & rest & Hall & Hcat & _).
  - congruence.
  - vm_compute. congruence.
  - reflexivity.
  - vm_compute. reflexivity.
  - exists ss, rest. split; [exact Hall|]. rewrite <- Hcat. vm_compute. reflexivity.
Defined.

(** A payload one byte too long. *)
Definition big_message : vsr_message := sample_message <| payload := replicate (Z.to_nat 65409) Byte.x00 |>.

Lemma oversized_message_closes_witness :
  ∃ s, vsr_serialize toy_hash big_message = Some s ∧
    handle_reads toy_hash (new_connection 7) [s] ∅ = (new_connection (-1), ∅, []).
Proof.
  assert (Z.of_nat (length (payload big_message)) = 65409) as Hl.
  { unfold big_message. cbn [payload setf]. rewrite length_replicate. apply Z2Nat.id. lia. }
  eexists. split; [apply serialize_Some; rewrite Hl; reflexivity|].
  apply (oversized_message_closes toy_hash (new_connection 7) _ ∅ big_message _ []
    toy_hash_len sample_message_wf (serialize_Some _ _ ltac:(rewrite Hl; reflexivity))).
  - rewrite length_app, length_encode_header, Nat2Z.inj_add, Hl. reflexivity.
  - apply concat_cons.
  - congruence.
  - vm_compute. congruence.
  - reflexivity.
Defined.
