(* ===== verification/Network.v ===== *)
(** * Peers and the server

    [src/server/replica_manager.cpp] and [src/server/tcp_server.cpp]: which
    connection belongs to which peer, who connects to whom, the handshake, and what
    a read or a failed write does.  Connection objects are shared between the
    server, the manager and pending callbacks, so they live in a heap and are
    referred to by their address.  The requests handed to the event loop and the
    messages handed to the application are returned as a list of effects; the
    results of system calls are arguments of the callbacks. *)
From S2P Require Import Prelude Types Serialization KeyValue Message Framing.

(** ** [std::to_string] and [std::stoi] *)

Definition digit (d : Z) : byte := default Byte.x30 (Byte.of_N (Z.to_N (48 + d))).
Definition digit_value (b : byte) : option Z :=
  let v := Z.of_N (Byte.to_N b) - 48 in
  if (0 <=? v) && (v <=? 9) then Some v else None.

(** Decimal digits, most significant first.  A positive number has at most one
    digit per bit. *)
Fixpoint decimal (fuel : nat) (n : Z) (acc : list byte) : list byte :=
  match fuel with
  | O => acc
  | S fuel => if n <? 10 then digit n :: acc else decimal fuel (n / 10) (digit (n mod 10) :: acc)
  end.

Definition to_string (n : Z) : list byte :=
  let digits := decimal (S (Z.to_nat (Z.log2 (Z.abs n)))) (Z.abs n) [] in
  if n <? 0 then Byte.x2d :: digits else digits.

(** The longest run of digits at the front, added to [acc]; [None] without one. *)
Fixpoint parse_digits (s : list byte) (acc : option Z) : option Z :=
  match s with
  | b :: s' =>
      match digit_value b with
      | Some d => parse_digits s' (Some (10 * default 0 acc + d))
      | None => acc
      end
  | [] => acc
  end.

(** [std::stoi]: white space, an optional sign, digits; the rest is ignored.
    [None] is [std::invalid_argument] or [std::out_of_range]. *)
Definition stoi (s : list byte) : option Z :=
  let v := match skip_ws s with
           | Byte.x2d :: s' => Z.opp <$> parse_digits s' None
           | Byte.x2b :: s' => parse_digits s' None
           | s' => parse_digits s' None
           end in
  match v with
  | Some z => if (- 2 ^ 31 <=? z) && (z <? 2 ^ 31) then Some z else None
  | None => None
  end.

(** ** State *)

Module PeerState.
Inductive t := DISCONNECTED | CONNECTING | CONNECTED.
End PeerState.

#[export] Instance peer_state_eq_dec : EqDecision PeerState.t.
Proof. solve_decision. Defined.

Record Peer := {
  peer_id : Z; peer_host : list byte; peer_port : Z;
  peer_state : PeerState.t; peer_connection : option Z }.

#[export] Instance Peer_eta : Settable Peer :=
  λ p, Build_Peer (peer_id p) (peer_host p) (peer_port p) (peer_state p) (peer_connection p).

Record ReplicaManager := {
  self_id_ : Z;
  peers_by_id_ : gmap Z Peer;
  socket_to_peer_id_ : gmap Z Z;
  port_to_peer_id_ : gmap Z Z }.

#[export] Instance ReplicaManager_eta : Settable ReplicaManager :=
  λ m, Build_ReplicaManager (self_id_ m) (peers_by_id_ m) (socket_to_peer_id_ m) (port_to_peer_id_ m).

(** The networking state of one process: the manager, the server's table of
    connections, the reassembly buffers and the heap of connection objects. *)
Record Net := {
  replica_manager_ : ReplicaManager;
  connections_ : gmap Z Z;
  connection_buffers_ : gmap Z (list byte);
  heap : gmap Z TcpConnection;
  next_address : Z }.

#[export] Instance Net_eta : Settable Net :=
  λ n, Build_Net (replica_manager_ n) (connections_ n) (connection_buffers_ n) (heap n) (next_address n).

(** What is asked of the event loop ([io_accept], [io_write], [io_read], [io_connect],
    [io_timeout]) and of the kernel ([io_close]), and messages for the application. *)
Inductive effect :=
  | io_accept
  | io_write (connection : Z) (data : list byte)
  | io_read (connection : Z)
  | io_connect (peer sock : Z)
  | io_timeout (peer : Z)
  | io_close (sock : Z)
  | deliver (connection : Z) (msg : vsr_message).

(** ** The replica manager *)

Definition new_replica_manager (self_id : Z) (peers : list Peer) : ReplicaManager := {|
  self_id_ := self_id;
  peers_by_id_ := foldl (λ m p, match m !! peer_id p with
                                | Some _ => m | None => <[peer_id p := p]> m end) ∅ peers;
  socket_to_peer_id_ := ∅;
  port_to_peer_id_ := foldl (λ m p, <[peer_port p := peer_id p]> m) ∅ peers |}.

Definition set_peer (id : Z) (p : Peer) (n : Net) : Net :=
  n <| replica_manager_ := (replica_manager_ n)
         <| peers_by_id_ := <[id := p]> (peers_by_id_ (replica_manager_ n)) |> |>.

(** The object a connection pointer refers to. *)
Definition conn_at (c : Z) (n : Net) : TcpConnection := default (new_connection (-1)) (heap n !! c).
Definition set_conn (c : Z) (o : TcpConnection) (n : Net) : Net := n <| heap := <[c := o]> (heap n) |>.

(** [std::make_shared<TcpConnection>(sock)] *)
Definition make_connection (sock : Z) (n : Net) : Z * Net :=
  (next_address n, n <| heap := <[next_address n := new_connection sock]> (heap n) |>
                     <| next_address := next_address n + 1 |>).

Definition attempt_connection (id : Z) (sock : Z) (n : Net) : Net * list effect :=
  match peers_by_id_ (replica_manager_ n) !! id with
  | None => (n, [])
  | Some peer =>
      if negb (bool_decide (peer_state peer = PeerState.DISCONNECTED)) then (n, [])
      else if sock <? 0 then (n, [io_timeout id])
      else (set_peer id (peer <| peer_state := PeerState.CONNECTING |>) n, [io_connect id sock])
  end.

(** The loop of [connect_to_peers] in key order; [socks] are the results of
    [socket()] for the successive attempts. *)
Fixpoint connect_loop (ids : list Z) (socks : list Z) (n : Net) : Net * list effect :=
  match ids with
  | [] => (n, [])
  | id :: ids =>
      if id <? self_id_ (replica_manager_ n) then
        let '(n, e) := attempt_connection id (hd (-1) socks) n in
        let '(n, e') := connect_loop ids (tl socks) n in (n, e ++ e')
      else connect_loop ids socks n
  end.

Definition connect_to_peers (socks : list Z) (n : Net) : Net * list effect :=
  connect_loop (fst <$> items (peers_by_id_ (replica_manager_ n))) socks n.

(** [TcpServer::register_new_connection] *)
Definition register_new_connection (c : Z) (n : Net) : Net * list effect :=
  (n <| connections_ := <[socket_fd_ (conn_at c n) := c]> (connections_ n) |>, [io_read c]).

Definition handshake_msg (self_id : Z) : list byte := lit "HANDSHAKE_ID:" ++ to_string self_id.

Definition send_handshake (id : Z) (n : Net) : list effect :=
  match peers_by_id_ (replica_manager_ n) !! id with
  | Some peer =>
      match peer_connection peer with
      | Some c => [io_write c (handshake_msg (self_id_ (replica_manager_ n)))]
      | None => []
      end
  | None => []
  end.

(** The callback of the connect request for [sock]. *)
Definition on_connect_result (id sock result : Z) (n : Net) : Net * list effect :=
  match peers_by_id_ (replica_manager_ n) !! id with
  | None => (n, [])
  | Some peer =>
      if 0 <=? result then
        let '(c, n) := make_connection sock n in
        let n := set_peer id (peer <| peer_state := PeerState.CONNECTED |>
                                   <| peer_connection := Some c |>) n in
        let n := n <| replica_manager_ := (replica_manager_ n) <| socket_to_peer_id_ :=
                        <[sock := peer_id peer]> (socket_to_peer_id_ (replica_manager_ n)) |> |> in
        let '(n, e) := register_new_connection c n in
        (n, e ++ send_handshake id n)
      else
        (set_peer id (peer <| peer_state := PeerState.DISCONNECTED |>) n,
         [io_close sock; io_timeout id])
  end.

(** The callback of the reconnect timer. *)
Definition on_reconnect_timer (id sock : Z) (n : Net) : Net * list effect :=
  attempt_connection id sock n.

Definition register_identified_peer (id : Z) (c : Z) (n : Net) : Net :=
  match peers_by_id_ (replica_manager_ n) !! id with
  | None => set_conn c (close_socket (conn_at c n)) n
  | Some peer =>
      let n := set_peer id (peer <| peer_state := PeerState.CONNECTED |>
                                 <| peer_connection := Some c |>) n in
      n <| replica_manager_ := (replica_manager_ n) <| socket_to_peer_id_ :=
             <[socket_fd_ (conn_at c n) := peer_id peer]>
               (socket_to_peer_id_ (replica_manager_ n)) |> |>
  end.

(** [ReplicaManager::on_disconnect]; [None] is the exception of [map::at]. *)
Definition rm_on_disconnect (c : Z) (n : Net) : option (Net * list effect) :=
  let socket_fd := socket_fd_ (conn_at c n) in
  let m := replica_manager_ n in
  match socket_to_peer_id_ m !! socket_fd with
  | None => Some (n, [])
  | Some id =>
      peer ← peers_by_id_ m !! id;
      let n := set_peer id (peer <| peer_state := PeerState.DISCONNECTED |>
                                 <| peer_connection := None |>) n in
      let n := n <| replica_manager_ := (replica_manager_ n) <| socket_to_peer_id_ :=
                      delete socket_fd (socket_to_peer_id_ (replica_manager_ n)) |> |> in
      Some (n, if peer_id peer <? self_id_ m then [io_timeout id] else [])
  end.

Definition rm_send_to_peer (id : Z) (data : list byte) (n : Net) : list effect :=
  match peers_by_id_ (replica_manager_ n) !! id with
  | None => []
  | Some peer =>
      if bool_decide (peer_state peer = PeerState.CONNECTED) then
        match peer_connection peer with Some c => [io_write c data] | None => [] end
      else []
  end.

Definition rm_broadcast_to_peers (data : list byte) (exclude_id : Z) (n : Net) : list effect :=
  concat ((λ kv, if kv.1 =? exclude_id then [] else rm_send_to_peer kv.1 data n)
            <$> items (peers_by_id_ (replica_manager_ n))).

Definition add_peer (new_peer : Peer) (sock : Z) (n : Net) : Net * list effect :=
  match peers_by_id_ (replica_manager_ n) !! peer_id new_peer with
  | Some _ => (n, [])
  | None =>
      let n := n <| replica_manager_ := (replica_manager_ n) <| port_to_peer_id_ :=
        <[peer_port new_peer := peer_id new_peer]> (port_to_peer_id_ (replica_manager_ n)) |> |> in
      let n := set_peer (peer_id new_peer) new_peer n in
      if peer_id new_peer <? self_id_ (replica_manager_ n)
      then attempt_connection (peer_id new_peer) sock n else (n, [])
  end.

Definition remove_peer (id : Z) (n : Net) : Net :=
  match peers_by_id_ (replica_manager_ n) !! id with
  | None => n
  | Some peer =>
      let n := match peer_connection peer with
               | Some c => set_conn c (close_socket (conn_at c n)) n
               | None => n
               end in
      n <| replica_manager_ := (replica_manager_ n)
             <| port_to_peer_id_ := delete (peer_port peer) (port_to_peer_id_ (replica_manager_ n)) |>
             <| peers_by_id_ := delete id (peers_by_id_ (replica_manager_ n)) |> |>
  end.

Definition is_peer_connection (c : option Z) (n : Net) : bool :=
  match c with
  | None => false
  | Some c => bool_decide (is_Some (socket_to_peer_id_ (replica_manager_ n) !! socket_fd_ (conn_at c n)))
  end.

(** ** The server *)

Section server.
Variable blake3 : list byte → list byte.

Definition handle_new_connection (client_socket : Z) (n : Net) : Net * list effect :=
  let '(c, n) := make_connection client_socket n in
  (n <| connections_ := <[client_socket := c]> (connections_ n) |>, [io_read c]).

(** Posts the request for the next connection. *)
Definition start_accept : list effect := [io_accept].

(** Its callback.  [server_socket_] is -1 only after an exception of the constructor. *)
Definition on_accept (client_socket : Z) (n : Net) : Net * list effect :=
  let '(n, e) := if 0 <=? client_socket then handle_new_connection client_socket n else (n, []) in
  (n, e ++ start_accept).

(** [on_message_], the protocol handler's [handle_raw_data]. *)
Definition on_message (c : Z) (data : list byte) (n : Net) : Net * list effect :=
  let '(o, bufs, msgs) := handle_raw_data blake3 (conn_at c n) data (connection_buffers_ n) in
  ((set_conn c o n) <| connection_buffers_ := bufs |>, deliver c <$> msgs).

Definition remove_connection (c : Z) (n : Net) : option (Net * list effect) :=
  '(n, e) ← rm_on_disconnect c n;
  Some (n <| connections_ := delete (socket_fd_ (conn_at c n)) (connections_ n) |>, e).

(** The first read of a connection: a handshake makes it a peer, anything else a
    client. *)
Definition identify (c : Z) (data : list byte) (n : Net) : Net * list effect :=
  let as_client := on_message c data (set_conn c (set_state TcpState.CLIENT (conn_at c n)) n) in
  if bool_decide (lit "HANDSHAKE_ID:" `prefix_of` data) then
    match stoi (drop 13 data) with
    | Some id =>
        (register_identified_peer id c (set_conn c (set_state TcpState.PEER (conn_at c n)) n), [])
    | None => as_client
    end
  else as_client.

(** The callback of a read that returned [data]; no data is an error or the end of
    the stream. *)
Definition on_read (c : Z) (data : list byte) (n : Net) : option (Net * list effect) :=
  match data with
  | [] =>
      let n := n <| connection_buffers_ :=
                      ph_on_disconnect (Some (conn_at c n)) (connection_buffers_ n) |> in
      remove_connection c n
  | _ =>
      let '(n, e) :=
        if bool_decide (conn_state_ (conn_at c n) = TcpState.UNIDENTIFIED)
        then identify c data n else on_message c data n in
      Some (n, e ++ [io_read c])
  end.

(** The callback of a write. *)
Definition on_write (c result : Z) (n : Net) : option (Net * list effect) :=
  if result <? 0 then remove_connection c n else Some (n, []).

(** [TcpServer::start] *)
Definition server_start (socks : list Z) (n : Net) : Net * list effect :=
  let '(n, e) := connect_to_peers socks n in (n, start_accept ++ e).

(** The callbacks the event loop runs. *)
Inductive net_event :=
  | ne_accept (client_socket : Z)
  | ne_connect (id sock result : Z)
  | ne_timer (id sock : Z)
  | ne_read (c : Z) (data : list byte)
  | ne_write (c result : Z).

Definition handle_net_event (e : net_event) (n : Net) : option (Net * list effect) :=
  match e with
  | ne_accept s => Some (on_accept s n)
  | ne_connect id sock result => Some (on_connect_result id sock result n)
  | ne_timer id sock => Some (on_reconnect_timer id sock n)
  | ne_read c data => on_read c data n
  | ne_write c result => on_write c result n
  end.
End server.

(** ** Numbers and their decimal notation *)

Lemma digit_value_digit d : 0 ≤ d < 10 → digit_value (digit d) = Some d.
Proof.
  intros Hd. assert (d = 0 ∨ d = 1 ∨ d = 2 ∨ d = 3 ∨ d = 4 ∨ d = 5 ∨ d = 6 ∨ d = 7 ∨ d = 8 ∨ d = 9)
    as H by lia. by repeat destruct H as [->|H]; try subst d.
Qed.

Lemma parse_digits_decimal fuel n acc v :
  0 ≤ n < 10 ^ Z.of_nat fuel → default 0 v = 0 →
  parse_digits (decimal fuel n acc) v
  = match fuel with O => parse_digits acc v | _ => parse_digits acc (Some n) end.
Proof.
  revert n acc. induction fuel as [|fuel IH]; intros n acc Hn Hv; [done|]. cbn [decimal].
  rewrite Nat2Z.inj_succ, Z.pow_succ_r in Hn by lia.
  destruct (Z.ltb_spec n 10).
  - cbn [parse_digits]. rewrite digit_value_digit, Hv by lia. by rewrite Z.mul_0_r, Z.add_0_l.
  - rewrite IH; [|split; [apply Z.div_pos; lia|apply Z.div_lt_upper_bound; lia]|done].
    destruct fuel as [|fuel]; [simpl in Hn; lia|]. cbn [parse_digits].
    rewrite digit_value_digit by (apply Z.mod_pos_bound; lia). cbn [default from_option id].
    by rewrite <- Z.div_mod by lia.
Qed.

Lemma log2_digits n : 0 ≤ n → n < 10 ^ Z.of_nat (S (Z.to_nat (Z.log2 n))).
Proof.
  intros Hn. rewrite Nat2Z.inj_succ, Z2Nat.id by apply Z.log2_nonneg.
  destruct (decide (n = 0)) as [->|Hne]; [simpl; lia|].
  eapply Z.lt_le_trans; [apply Z.log2_spec; lia|]. apply Z.pow_le_mono_l. lia.
Qed.

Lemma decimal_head fuel n acc : (∃ d, 0 ≤ d < 10 ∧ head (decimal (S fuel) n acc) = Some (digit d))
  ∨ ¬ 0 ≤ n.
Proof.
  destruct (decide (0 ≤ n)) as [Hn|]; [left|by right].
  revert n acc Hn. induction fuel as [|fuel IH]; intros n acc Hn; cbn [decimal].
  - destruct (Z.ltb_spec n 10); [exists n; simpl; split; [lia|done]|].
    exists (n mod 10). split; [apply Z.mod_pos_bound; lia|done].
  - destruct (Z.ltb_spec n 10); [exists n; simpl; split; [lia|done]|].
    apply IH. apply Z.div_pos; lia.
Qed.

Lemma digit_not_space d : 0 ≤ d < 10 → isspace (digit d) = false ∧ digit d ≠ Byte.x2d ∧ digit d ≠ Byte.x2b.
Proof.
  intros Hd. assert (d = 0 ∨ d = 1 ∨ d = 2 ∨ d = 3 ∨ d = 4 ∨ d = 5 ∨ d = 6 ∨ d = 7 ∨ d = 8 ∨ d = 9)
    as H by lia. by repeat destruct H as [->|H]; try subst d.
Qed.

Lemma decimal_app fuel n acc rest : decimal fuel n acc ++ rest = decimal fuel n (acc ++ rest).
Proof.
  revert n acc. induction fuel as [|fuel IH]; intros n acc; [done|]. cbn [decimal].
  destruct (n <? 10); [done|]. apply IH.
Qed.

Lemma parse_number n rest :
  0 ≤ n → match rest with [] => True | b :: _ => digit_value b = None end →
  parse_digits (decimal (S (Z.to_nat (Z.log2 n))) n [] ++ rest) None = Some n.
Proof.
  intros Hn Hrest. rewrite decimal_app, parse_digits_decimal; [|split; [done|by apply log2_digits]|done].
  destruct rest as [|b rest]; [done|]. simpl. by rewrite Hrest.
Qed.

(** Without white space or a sign at the front, the digits start there. *)
Lemma stoi_unsigned b s :
  isspace b = false → b ≠ Byte.x2d → b ≠ Byte.x2b →
  stoi (b :: s) = match parse_digits (b :: s) None with
                  | Some z => if (- 2 ^ 31 <=? z) && (z <? 2 ^ 31) then Some z else None
                  | None => None
                  end.
Proof. intros Hs H1 H2. unfold stoi. cbn [skip_ws]. rewrite Hs. by destruct b. Qed.

(** Reading back a printed number, whatever follows it that is not a digit. *)
Lemma stoi_to_string n rest :
  - 2 ^ 31 ≤ n < 2 ^ 31 → match rest with [] => True | b :: _ => digit_value b = None end →
  stoi (to_string n ++ rest) = Some n.
Proof.
  intros Hn Hrest. unfold to_string. destruct (Z.ltb_spec n 0) as [Hneg|Hpos].
  - unfold stoi. rewrite <- app_comm_cons. cbn [skip_ws isspace].
    rewrite parse_number by (done || lia). cbn [fmap option_fmap option_map].
    replace (- Z.abs n) with n by lia. by rewrite (proj2 (Z.leb_le _ _)), (proj2 (Z.ltb_lt _ _)) by lia.
  - rewrite Z.abs_eq by done. pose proof (parse_number n rest Hpos Hrest) as Hp.
    destruct (decimal_head (Z.to_nat (Z.log2 n)) n []) as [(d & Hd & Hhead)|]; [|done].
    destruct (decimal (S (Z.to_nat (Z.log2 n))) n []) as [|b l]; [done|]. injection Hhead as ->.
    rewrite <- app_comm_cons in *. destruct (digit_not_space d Hd) as (Hs & H1 & H2).
    rewrite stoi_unsigned, Hp by done. by rewrite (proj2 (Z.leb_le _ _)), (proj2 (Z.ltb_lt _ _)) by lia.
Qed.

(** ** Invariant of the tables *)

Definition peers (n : Net) : gmap Z Peer := peers_by_id_ (replica_manager_ n).
Definition sockets (n : Net) : gmap Z Z := socket_to_peer_id_ (replica_manager_ n).

Record net_inv (n : Net) : Prop := {
  ni_ids : ∀ id p, peers n !! id = Some p → peer_id p = id;
  ni_sockets : ∀ s id, sockets n !! s = Some id → is_Some (peers n !! id);
  ni_connected : ∀ id p, peers n !! id = Some p → peer_state p = PeerState.CONNECTED →
                   is_Some (peer_connection p);
  ni_heap : ∀ c, is_Some (heap n !! c) → c < next_address n }.

(** Replacing a peer's record by a sane one. *)
Lemma set_peer_inv id p q n :
  net_inv n → peers n !! id = Some p → peer_id q = peer_id p →
  (peer_state q = PeerState.CONNECTED → is_Some (peer_connection q)) → net_inv (set_peer id q n).
Proof.
  intros [Hid Hs Hc Hh] Hp Hq Hconn. split; unfold peers, sockets in *; simpl.
  - intros id' p'. rewrite lookup_insert_Some. intros [[<- <-]|[_ H]]; [|by apply Hid].
    rewrite Hq. by apply Hid.
  - intros s id' H. apply lookup_insert_is_Some. destruct (decide (id = id')); [by left|].
    right. split; [done|]. by apply (Hs s).
  - intros id' p'. rewrite lookup_insert_Some. intros [[<- <-]|[_ H]]; [done|]. by apply (Hc id').
  - done.
Qed.

(** Adding a socket of a known peer, or removing one. *)
Lemma set_sockets_inv ss n :
  net_inv n → (∀ s id, ss !! s = Some id → is_Some (peers n !! id)) →
  net_inv (n <| replica_manager_ := (replica_manager_ n) <| socket_to_peer_id_ := ss |> |>).
Proof. intros [Hid Hs Hc Hh] Hss. split; unfold peers, sockets in *; simpl; done. Qed.

Lemma insert_socket_known s id n :
  net_inv n → is_Some (peers n !! id) →
  ∀ s' id', <[s := id]> (sockets n) !! s' = Some id' → is_Some (peers n !! id').
Proof.
  intros Hn Hid s' id' [[<- <-]|[_ H]]%lookup_insert_Some; [done|]. by eapply ni_sockets.
Qed.

(** Changes outside the manager that keep the heap below the next address. *)
Lemma net_inv_frame n n' :
  net_inv n → replica_manager_ n' = replica_manager_ n →
  (∀ c, is_Some (heap n' !! c) → c < next_address n') → net_inv n'.
Proof. intros [] Hm Hh. split; unfold peers, sockets in *; rewrite ?Hm; done. Qed.

Lemma set_conn_inv c o n : net_inv n → c < next_address n → net_inv (set_conn c o n).
Proof.
  intros Hn Hc. eapply net_inv_frame; [done..|]. simpl. intros c'.
  rewrite lookup_insert_is_Some. intros [<-|[_ H]]; [done|]. by apply (ni_heap n).
Qed.

Lemma make_connection_inv sock n : net_inv n → net_inv (make_connection sock n).2.
Proof.
  intros Hn. eapply net_inv_frame; [done..|]. simpl. intros c.
  rewrite lookup_insert_is_Some. intros [<-|[_ H]]; [lia|]. apply (ni_heap n) in H; [lia|done].
Qed.

Lemma attempt_connection_inv id sock n : net_inv n → net_inv (attempt_connection id sock n).1.
Proof.
  intros Hn. unfold attempt_connection. destruct (_ !! id) as [p|] eqn:Hp; [|done].
  destruct (negb _); [done|]. destruct (sock <? 0); [done|]. by eapply set_peer_inv.
Qed.

Lemma register_identified_inv id c n :
  net_inv n → c < next_address n → net_inv (register_identified_peer id c n).
Proof.
  intros Hn Hc. unfold register_identified_peer. destruct (_ !! id) as [p|] eqn:Hp.
  - assert (net_inv (set_peer id (p <| peer_state := PeerState.CONNECTED |>
                                    <| peer_connection := Some c |>) n)) as Hn'
      by (eapply set_peer_inv; eauto).
    apply set_sockets_inv; [done|]. apply (insert_socket_known _ _ _ Hn').
    rewrite (ni_ids _ Hn _ _ Hp). unfold peers. simpl. by rewrite lookup_insert_eq.
  - by apply set_conn_inv.
Qed.

Lemma on_connect_result_inv id sock result n :
  net_inv n → net_inv (on_connect_result id sock result n).1.
Proof.
  intros Hn. unfold on_connect_result. destruct (_ !! id) as [p|] eqn:Hp; [|done].
  destruct (0 <=? result); [|by eapply set_peer_inv].
  pose proof (make_connection_inv sock n Hn) as Hn1.
  destruct (make_connection sock n) as [c n1] eqn:Hmk. cbn [snd] in Hn1.
  assert (peers n1 !! id = Some p) as Hp1 by (injection Hmk as _ <-; exact Hp).
  assert (net_inv (set_peer id (p <| peer_state := PeerState.CONNECTED |>
                                  <| peer_connection := Some c |>) n1)) as Hn2
    by (eapply set_peer_inv; eauto).
  cbn. eapply net_inv_frame;
    [apply (set_sockets_inv (<[sock := peer_id p]> (sockets n1)) _ Hn2)|reflexivity|apply (ni_heap _ Hn2)].
  apply (insert_socket_known sock (peer_id p) _ Hn2).
  rewrite (ni_ids _ Hn1 _ _ Hp1). unfold peers. simpl. by rewrite lookup_insert_eq.
Qed.

Lemma rm_on_disconnect_inv c n :
  net_inv n → ∃ n' e, rm_on_disconnect c n = Some (n', e) ∧ net_inv n' ∧
    heap n' = heap n ∧ next_address n' = next_address n.
Proof.
  intros Hn. unfold rm_on_disconnect. cbv zeta.
  destruct (socket_to_peer_id_ _ !! _) as [id|] eqn:Hs; [|by do 2 eexists].
  destruct (ni_sockets _ Hn _ _ Hs) as [p Hp]. unfold peers in Hp. rewrite Hp. cbn.
  do 2 eexists. split_and!; [done| |done|done].
  assert (net_inv (set_peer id (p <| peer_state := PeerState.DISCONNECTED |>
                                  <| peer_connection := None |>) n)) as Hn'
    by (eapply set_peer_inv; eauto; done).
  apply (set_sockets_inv _ _ Hn'). intros s id' [_ H]%lookup_delete_Some.
  by eapply ni_sockets.
Qed.

(** A callback holds a pointer to an existing connection object. *)
Definition net_event_wf (e : net_event) (n : Net) : Prop :=
  match e with ne_read c _ | ne_write c _ => is_Some (heap n !! c) | _ => True end.

Section server_lemmas.
Variable blake3 : list byte → list byte.

Lemma on_message_inv c data n :
  net_inv n → c < next_address n → net_inv (on_message blake3 c data n).1.
Proof.
  intros Hn Hc. unfold on_message. destruct (handle_raw_data _ _ _ _) as [[o bufs] ms].
  cbn [fst]. eapply net_inv_frame; [apply (set_conn_inv c o n Hn Hc)|done|].
  apply (ni_heap _ (set_conn_inv c o n Hn Hc)).
Qed.

Lemma remove_connection_inv c n :
  net_inv n → ∃ n' e, remove_connection c n = Some (n', e) ∧ net_inv n'.
Proof.
  intros Hn. unfold remove_connection.
  destruct (rm_on_disconnect_inv c n Hn) as (n' & e & -> & Hn' & _). cbn. do 2 eexists.
  split; [done|]. eapply net_inv_frame; [done|done|apply (ni_heap _ Hn')].
Qed.

Lemma identify_inv c data n :
  net_inv n → c < next_address n → net_inv (identify blake3 c data n).1.
Proof.
  intros Hn Hc. unfold identify.
  assert (∀ st, net_inv (set_conn c (set_state st (conn_at c n)) n)) as Hst
    by (intros; by apply set_conn_inv).
  case_bool_decide; [|by apply on_message_inv]. destruct (stoi _); [|by apply on_message_inv].
  by apply register_identified_inv.
Qed.

Lemma handle_net_event_inv e n :
  net_inv n → net_event_wf e n → ∃ n' eff, handle_net_event blake3 e n = Some (n', eff) ∧ net_inv n'.
Proof.
  intros Hn He. destruct e as [s|id sock result|id sock|c data|c result]; cbn [handle_net_event].
  - unfold on_accept. destruct (0 <=? s); [|by do 2 eexists]. unfold handle_new_connection.
    pose proof (make_connection_inv s n Hn) as Hn1. destruct (make_connection s n) as [c n1].
    do 2 eexists. split; [done|]. eapply net_inv_frame; [done|done|apply (ni_heap _ Hn1)].
  - pose proof (on_connect_result_inv id sock result n Hn).
    destruct (on_connect_result id sock result n) as [n' eff]. eauto.
  - pose proof (attempt_connection_inv id sock n Hn). unfold on_reconnect_timer.
    destruct (attempt_connection id sock n) as [n' eff]. eauto.
  - apply (ni_heap _ Hn) in He. unfold on_read. destruct data as [|b data].
    + apply remove_connection_inv. eapply net_inv_frame; [done|done|apply (ni_heap _ Hn)].
    + pose proof (identify_inv c (b :: data) n Hn He). pose proof (on_message_inv c (b :: data) n Hn He).
      case_bool_decide; [destruct (identify _ _ _ _)|destruct (on_message _ _ _ _)]; eauto.
  - unfold on_write. destruct (result <? 0); [by apply remove_connection_inv|eauto].
Qed.
End server_lemmas.

(** ** Who connects *)

Definition all_disconnected (n : Net) : Prop :=
  map_Forall (λ _ p, peer_state p = PeerState.DISCONNECTED) (peers n).

(** The ids below one's own. *)
Definition lower (self : Z) (ids : list Z) : list Z := filter (λ id, id < self) ids.

Lemma connect_loop_spec (ids socks : list Z) n :
  NoDup ids → (∀ id, id ∈ ids → ∃ p, peers n !! id = Some p ∧ peer_state p = PeerState.DISCONNECTED) →
  Forall (λ s, 0 ≤ s) socks →
  (length (lower (self_id_ (replica_manager_ n)) ids) ≤ length socks)%nat →
  (connect_loop ids socks n).2
  = zip_with io_connect (lower (self_id_ (replica_manager_ n)) ids) socks.
Proof.
  unfold lower. revert socks n. induction ids as [|id ids IH]; intros socks n Hnd Hids Hs Hlen; [done|].
  apply NoDup_cons in Hnd as [Hni Hnd]. cbn [connect_loop]. rewrite filter_cons in *.
  destruct (Z.ltb_spec id (self_id_ (replica_manager_ n))).
  - rewrite decide_True in * by done. destruct socks as [|s socks]; [simpl in Hlen; lia|].
    apply Forall_cons in Hs as [Hs0 Hs]. destruct (Hids id) as (p & Hp & Hst); [set_solver|].
    unfold attempt_connection. unfold peers in Hp. rewrite Hp. cbn [hd tl].
    rewrite bool_decide_eq_true_2 by done. cbn [negb]. rewrite (proj2 (Z.ltb_ge _ _)) by lia.
    set (n1 := set_peer id _ n). specialize (IH socks n1 Hnd).
    destruct (connect_loop ids socks n1) as [n2 e2]. cbn [snd zip_with app] in *. f_equal.
    apply IH; [|done|simpl in Hlen |- *; lia].
    intros id' Hid'. destruct (Hids id') as (p' & Hp' & Hst'); [set_solver|]. exists p'.
    split; [|done]. unfold peers. simpl. rewrite lookup_insert_ne by (intros ->; done). exact Hp'.
  - rewrite decide_False in * by lia. apply IH; [done| |done|done].
    intros id' Hid'. apply Hids. set_solver.
Qed.

Definition new_net (self : Z) (ps : list Peer) : Net := {|
  replica_manager_ := new_replica_manager self ps;
  connections_ := ∅; connection_buffers_ := ∅; heap := ∅; next_address := 0 |}.

Lemma new_peers_lookup ps (m : gmap Z Peer) id p :
  foldl (λ m p, match m !! peer_id p with Some _ => m | None => <[peer_id p := p]> m end) m ps !! id
    = Some p → m !! id = Some p ∨ p ∈ ps ∧ peer_id p = id.
Proof.
  revert m. induction ps as [|q ps IH]; intros m; simpl; [by left|]. intros [H|[H <-]]%IH.
  - destruct (m !! peer_id q); [by left|].
    apply lookup_insert_Some in H as [[<- <-]|[_ H]]; [right; set_solver|by left].
  - right. set_solver.
Qed.

Lemma new_peers_dom ps (m : gmap Z Peer) :
  dom (foldl (λ m p, match m !! peer_id p with Some _ => m | None => <[peer_id p := p]> m end) m ps)
  = dom m ∪ list_to_set (peer_id <$> ps).
Proof.
  revert m. induction ps as [|q ps IH]; intros m; simpl; [set_solver|]. rewrite IH.
  destruct (m !! peer_id q) eqn:Hq; [|set_solver]. apply elem_of_dom_2 in Hq. set_solver.
Qed.

(** ** Properties *)

(** C29: The callbacks of the event loop keep the peer tables consistent (peers are
    filed under their id, sockets refer to known peers, connected peers have a
    connection), and therefore the lookup [peers_by_id_.at] never throws. *)
Theorem net_event_safe (blake3 : list byte → list byte) e n :
  net_inv n → net_event_wf e n →
  ∃ n' eff, handle_net_event blake3 e n = Some (n', eff) ∧ net_inv n'.
Proof. apply handle_net_event_inv. Qed.

(** The handshake of replica [id], read on a new connection, identifies it:
    the peer becomes connected through that connection and its socket is recorded.
    Bytes read together with the handshake are dropped: nothing of [rest] is
    delivered or buffered. *)
Theorem handshake_registers_peer (blake3 : list byte → list byte) n c id p rest :
  conn_state_ (conn_at c n) = TcpState.UNIDENTIFIED → - 2 ^ 31 ≤ id < 2 ^ 31 →
  peers n !! id = Some p → peer_id p = id →
  match rest with [] => True | b :: _ => digit_value b = None end →
  ∃ n', on_read blake3 c (handshake_msg id ++ rest) n = Some (n', [io_read c]) ∧
    peers n' !! id = Some (p <| peer_state := PeerState.CONNECTED |>
                             <| peer_connection := Some c |>) ∧
    sockets n' !! socket_fd_ (conn_at c n) = Some id ∧
    conn_state_ (conn_at c n') = TcpState.PEER ∧
    connection_buffers_ n' = connection_buffers_ n.
Proof.
  intros Hst Hid Hp Hpid Hrest. unfold on_read, handshake_msg. rewrite <- (assoc_L (++)).
  set (data := lit "HANDSHAKE_ID:" ++ to_string id ++ rest).
  assert (∃ b d, data = b :: d) as (b & d & Hdata) by (do 2 eexists; reflexivity).
  rewrite Hdata, <- Hdata, bool_decide_eq_true_2 by done. unfold identify.
  rewrite bool_decide_eq_true_2 by (by eexists).
  change (drop 13 data) with (to_string id ++ rest). rewrite stoi_to_string by done.
  unfold register_identified_peer. simpl. unfold peers in Hp. rewrite Hp.
  eexists. split; [reflexivity|]. unfold peers, sockets, conn_at. simpl.
  rewrite !lookup_insert_eq. simpl. rewrite Hpid. by split_and!.
Qed.

(** Of two replicas that know each other, the one with the higher id connects:
    at start a replica asks for incoming connections and opens one to exactly the peers with
    a lower id, once each and in increasing order. *)
Theorem higher_id_connects self ps socks :
  Forall (λ p, peer_state p = PeerState.DISCONNECTED) ps → Forall (λ s, 0 ≤ s) socks →
  (length ps ≤ length socks)%nat →
  let ids := (items (peers (new_net self ps))).*1 in
  (server_start socks (new_net self ps)).2 = io_accept :: zip_with io_connect (lower self ids) socks ∧
  (∀ id, id ∈ lower self ids ↔ id ∈ peer_id <$> ps ∧ id < self) ∧ NoDup (lower self ids).
Proof.
  intros Hps Hs Hlen ids.
  assert (∀ id, id ∈ ids ↔ id ∈ peer_id <$> ps) as Hids.
  { intros id. unfold ids. rewrite list_elem_of_fmap. split.
    - intros ([k p] & -> & Hp%elem_of_items). simpl.
      apply new_peers_lookup in Hp as [Hp|[Hp <-]]; [by rewrite lookup_empty in Hp|].
      apply list_elem_of_fmap. eauto.
    - intros Hid. assert (id ∈ dom (peers (new_net self ps))) as [p Hp]%elem_of_dom.
      { unfold peers. simpl. rewrite new_peers_dom. set_solver. }
      exists (id, p). split; [done|]. by apply elem_of_items. }
  assert (NoDup ids) as Hnd by apply items_nodup.
  split_and!.
  - unfold server_start. destruct (connect_to_peers _ _) as [n e] eqn:Hc. simpl. f_equal.
    change e with (n, e).2. rewrite <- Hc. apply connect_loop_spec; [done| |done|].
    + intros id (kp & -> & Hkp)%list_elem_of_fmap. destruct kp as [k p]. apply elem_of_items in Hkp.
      exists p. split; [done|]. apply new_peers_lookup in Hkp as [Hp|[Hp _]]; [by rewrite lookup_empty in Hp|].
      rewrite Forall_forall in Hps. by apply Hps.
    + etrans; [apply length_filter|]. etrans; [|exact Hlen].
      rewrite <- (length_fmap peer_id ps). apply submseteq_length, NoDup_submseteq; [done|].
      intros id. apply Hids.
  - intros id. unfold lower. rewrite list_elem_of_filter, Hids. tauto.
  - by apply NoDup_filter.
Qed.

(** A peer connection that the protocol handler closes because of malformed
    bytes is never repaired: its socket is then -1, so the failing read that follows
    finds no peer for it; the peer stays marked as connected through the dead
    connection, its socket stays registered, and no reconnection is scheduled. *)
Theorem closed_peer_never_reconnects (blake3 : list byte → list byte) n c data n1 e1 :
  on_message blake3 c data n = (n1, e1) → socket_fd_ (conn_at c n1) = -1 →
  sockets n !! (-1) = None →
  ∃ n2, on_read blake3 c [] n1 = Some (n2, []) ∧ peers n2 = peers n ∧ sockets n2 = sockets n.
Proof.
  intros Hm Hfd Hs. assert (replica_manager_ n1 = replica_manager_ n) as Hman.
  { unfold on_message in Hm. destruct (handle_raw_data _ _ _ _) as [[o bufs] ms].
    by injection Hm as <- _. }
  unfold on_read, remove_connection, rm_on_disconnect. cbn. unfold conn_at in *. simpl.
  rewrite Hfd, Hman. unfold sockets, peers in *. rewrite Hs. cbn. eexists. split; [done|].
  simpl. by rewrite ?Hman.
Qed.

(** ** Witnesses *)

Definition sample_peer (id : Z) : Peer := {|
  peer_id := id; peer_host := lit "localhost"; peer_port := 8080 + id;
  peer_state := PeerState.DISCONNECTED; peer_connection := None |}.

(** Replica 0 of the cluster after accepting a connection on socket 9. *)
Definition sample_net : Net :=
  (handle_new_connection 9 (new_net 0 [sample_peer 1; sample_peer 2])).1.

Lemma sample_net_inv : net_inv sample_net.
Proof.
  split; unfold peers, sockets, sample_net; simpl.
  - intros id p H. repeat (apply lookup_insert_Some in H as [[<- <-]|[_ H]]; [done|]).
    by rewrite lookup_empty in H.
  - intros s id H. by rewrite lookup_empty in H.
  - intros id p H. repeat (apply lookup_insert_Some in H as [[<- <-]|[_ H]]; [done|]).
    by rewrite lookup_empty in H.
  - intros c H. apply lookup_insert_is_Some in H as [<-|[_ [? H]]]; [lia|by rewrite lookup_empty in H].
Qed.

Lemma net_event_safe_witness :
  ∃ n' eff, handle_net_event toy_hash (ne_read 0 (handshake_msg 2)) sample_net = Some (n', eff) ∧
    net_inv n'.
Proof. apply (net_event_safe toy_hash); [apply sample_net_inv|eexists; reflexivity]. Defined.

Lemma handshake_registers_peer_witness :
  ∃ n', on_read toy_hash 0 (handshake_msg 2 ++ lit "x") sample_net = Some (n', [io_read 0]) ∧
    sockets n' !! 9 = Some 2.
Proof.
  destruct (handshake_registers_peer toy_hash sample_net 0 2 (sample_peer 2) (lit "x"))
    as (n' & Hr & _ & Hs & _); try reflexivity; [lia|]. exists n'. split; [exact Hr|exact Hs].
Defined.

Lemma higher_id_connects_witness :
  (server_start [5; 6] (new_net 1 [sample_peer 0; sample_peer 2])).2 = [io_accept; io_connect 0 5].
Proof.
  rewrite (proj1 (higher_id_connects 1 [sample_peer 0; sample_peer 2] [5; 6]
    ltac:(repeat constructor) ltac:(repeat constructor; lia) ltac:(simpl; lia))).
  vm_compute. reflexivity.
Defined.

(** Peer 2 identified on socket 9, and 128 zero bytes read from it: a header with
    size 0. *)
Definition sample_identified : Net :=
  register_identified_peer 2 0 (set_conn 0 (set_state TcpState.PEER (conn_at 0 sample_net)) sample_net).

Lemma closed_peer_never_reconnects_witness :
  let n1 := (on_message toy_hash 0 (replicate 128 Byte.x00) sample_identified).1 in
  ∃ n2, on_read toy_hash 0 [] n1 = Some (n2, []) ∧
    peer_state <$> peers n2 !! 2 = Some PeerState.CONNECTED.
Proof.
  destruct (closed_peer_never_reconnects toy_hash sample_identified 0 (replicate 128 Byte.x00)
    (on_message toy_hash 0 (replicate 128 Byte.x00) sample_identified).1
    (on_message toy_hash 0 (replicate 128 Byte.x00) sample_identified).2)
    as (n2 & Hr & Hp & _); [by destruct (on_message _ _ _ _)|vm_compute; reflexivity..|].
  exists n2. split; [exact Hr|]. rewrite Hp. vm_compute. reflexivity.
Defined.
