(* ===== verification/EventLoop.v ===== *)
(** * The event loop

    [src/common/io_uring_loop.hpp] and [.cpp].  Requests are objects that the loop hands
    to the kernel as the user data of a submission queue entry, and gets back with the
    completion.  [run] is a program with a counter ([phase]) that interleaves with the
    kernel, which completes requests in any order, and with other threads, which post
    tasks.  liburing is a parameter ([Liburing]) with its documented laws; callbacks and
    tasks are closures of the application: running one changes the application's state
    and makes a list of calls of the loop, none of which returns anything. *)
From S2P Require Import Prelude Framing.

Module RequestType.
Inductive t := ACCEPT | READ | WRITE | CONNECT | TIMEOUT | EVENTFD.
End RequestType.

#[export] Instance request_type_eq_dec : EqDecision RequestType.t.
Proof. solve_decision. Defined.

Record sockaddr_in := { sin_addr : Z; sin_port : Z }.
Definition no_address : sockaddr_in := {| sin_addr := 0; sin_port := 0 |}.

(** [submit_timeout]: [tv_sec] and [tv_nsec] of a duration in nanoseconds, with the
    truncating division of [std::chrono]. *)
Definition timeout_spec (duration : Z) : Z * Z :=
  (Z.quot duration 1000000000, Z.rem duration 1000000000).

(** ** Requests and submission queue entries

    [K] is the type of an [IoCallback], [A] of an [AcceptCallback].  The variant of a
    new request holds an empty [IoCallback]. *)
Inductive callback_t (K A : Type) :=
  | io_callback (k : option K)
  | accept_callback (a : A).
Arguments io_callback {K A} k.
Arguments accept_callback {K A} a.

Record IORequest (K A : Type) := {
  req_type : RequestType.t;
  callback : callback_t K A;
  connection : option Z;
  write_buffer : list byte;
  remote_address : sockaddr_in;
  req_timeout : Z * Z }.
Arguments req_type {K A} _.
Arguments callback {K A} _.
Arguments connection {K A} _.
Arguments write_buffer {K A} _.
Arguments remote_address {K A} _.
Arguments req_timeout {K A} _.

#[export] Instance IORequest_eta {K A} : Settable (IORequest K A) :=
  λ r, Build_IORequest K A (req_type r) (callback r) (connection r) (write_buffer r)
         (remote_address r) (req_timeout r).

(** [std::make_unique<IORequest>()] initialises every member to zero. *)
Definition new_request {K A} : IORequest K A := {|
  req_type := RequestType.ACCEPT; callback := io_callback None; connection := None;
  write_buffer := []; remote_address := no_address; req_timeout := (0, 0) |}.

(** What an entry asks the kernel to do ([io_uring_prep_...]). *)
Inductive prepared_op :=
  | prep_accept (sock : Z)
  | prep_read (sock : Z) (buffer : Z) (size : nat)
  | prep_read_eventfd (fd : Z) (size : nat)
  | prep_write (sock : Z) (data : list byte)
  | prep_connect (sock : Z) (address : sockaddr_in)
  | prep_timeout (spec : Z * Z).

Record sqe (K A : Type) := { sqe_op : prepared_op; user_data : option (IORequest K A) }.
Arguments sqe_op {K A} _.
Arguments user_data {K A} _.
Arguments Build_sqe {K A} _ _.

Record cqe (K A : Type) := { cqe_data : option (IORequest K A); cqe_res : Z }.
Arguments cqe_data {K A} _.
Arguments cqe_res {K A} _.
Arguments Build_cqe {K A} _ _.

(** ** liburing

    [io_uring_get_sqe] returns [NULL] or a slot, which the caller fills.  [queued] are
    the entries filled since the last submission and [sq_entries] the size of the
    submission queue: they only serve to state the laws. *)
Class Liburing (E : Type) := {
  io_uring : Type;
  io_uring_queue_init : Z → option io_uring;
  io_uring_get_sqe : io_uring → option (E → io_uring);
  io_uring_submit : io_uring → list E * io_uring;
  queued : io_uring → list E;
  sq_entries : io_uring → nat }.
#[global] Hint Mode Liburing - : typeclass_instances.

Class LiburingLaws E `{L : Liburing E} := {
  init_empty d r : io_uring_queue_init d = Some r → queued r = [];
  init_entries d r : io_uring_queue_init d = Some r → Z.of_nat (sq_entries r) = 2 ^ Z.log2_up d;
  get_sqe_full r : (sq_entries r ≤ length (queued r))%nat → io_uring_get_sqe r = None;
  get_sqe_room r : (length (queued r) < sq_entries r)%nat →
    ∃ fill, io_uring_get_sqe r = Some fill ∧
      ∀ e, queued (fill e) = queued r ++ [e] ∧ sq_entries (fill e) = sq_entries r;
  submit_all r : (io_uring_submit r).1 = queued r;
  submit_empties r : queued (io_uring_submit r).2 = [];
  submit_entries r : sq_entries (io_uring_submit r).2 = sq_entries r }.

(** Connection objects, as far as the loop uses them. *)
Class Connections (St : Type) := {
  get_socket : Z → St → Z;
  get_buffer : Z → St → list byte;
  set_buffer : Z → list byte → St → St }.

(** Calls that tasks and callbacks make; [call_notify] is the second half of a
    [post], the write to the event file descriptor. *)
Inductive call (K A T : Type) :=
  | call_post (work : T)
  | call_notify
  | call_accept (server_socket : Z) (cb : A)
  | call_read (conn : Z) (size : nat) (cb : K)
  | call_write (conn : Z) (buffer : list byte) (cb : K)
  | call_connect (sock : Z) (address : sockaddr_in) (cb : K)
  | call_timeout (duration : Z) (cb : K).
Arguments call_post {K A T} _.
Arguments call_notify {K A T}.
Arguments call_accept {K A T} _ _.
Arguments call_read {K A T} _ _ _.
Arguments call_write {K A T} _ _ _.
Arguments call_connect {K A T} _ _ _.
Arguments call_timeout {K A T} _ _.

(** Where the loop's thread is in [run]: before [io_uring_submit_and_wait], inside it,
    in [process_work_queue] with the calls that the current task still makes and the
    tasks after it, or going through the completions, of which [count] were taken. *)
Inductive phase (K A T : Type) :=
  | Ready
  | Waiting
  | Working (calls : list (call K A T)) (current_work : list T)
  | Completing (calls : list (call K A T)) (count : nat)
  | Stopped
  | Crashed.
Arguments Ready {K A T}.
Arguments Waiting {K A T}.
Arguments Working {K A T} _ _.
Arguments Completing {K A T} _ _.
Arguments Stopped {K A T}.
Arguments Crashed {K A T}.

Section loop.
Context {St K A T : Type}.
Context `{C : Connections St} `{L : Liburing (sqe K A)}.
Context (run_task : T → St → St * list (call K A T)).
Context (run_io : K → Z → St → St * list (call K A T)).
Context (run_accept : A → Z → sockaddr_in → St → St * list (call K A T)).
(** Whether the kernel fails the read of an empty non-blocking event file descriptor
    with [EAGAIN], or keeps it waiting. *)
Context (nonblocking_reads : bool).

(** The members of [IoUringLoop]; [event_fd_buffer_], into which the kernel writes what
    it read from the event file descriptor and which nothing reads, is left out. *)
Record Loop := {
  ring_ : io_uring (E := sqe K A);
  is_running_ : bool;
  event_fd_ : Z;
  work_queue_ : list T }.

#[export] Instance Loop_eta : Settable Loop :=
  λ l, Build_Loop (ring_ l) (is_running_ l) (event_fd_ l) (work_queue_ l).

(** The loop, the application, the requests the kernel has, the completion queue, the
    counter of the event file descriptor, and how many other threads are between
    the two halves of a [post]. *)
Record World := {
  loop : Loop;
  app : St;
  phase_ : phase K A T;
  inflight : list (sqe K A);
  cq : list (cqe K A);
  event_count : Z;
  posting : nat }.

#[export] Instance World_eta : Settable World :=
  λ w, Build_World (loop w) (app w) (phase_ w) (inflight w) (cq w) (event_count w) (posting w).

(** The constructor; [fd] is what [eventfd] returned.  [None]: an exception. *)
Definition new_loop (queue_depth fd : Z) : option Loop :=
  match io_uring_queue_init queue_depth with
  | None => None
  | Some ring =>
      if fd =? -1 then None
      else Some {| ring_ := ring; is_running_ := true; event_fd_ := fd; work_queue_ := [] |}
  end.

(** ** [post] *)

Definition push_work (work : T) (w : World) : World :=
  w <| loop := (loop w) <| work_queue_ := work_queue_ (loop w) ++ [work] |> |>.

(** The write fails, with a message only, when the counter would overflow. *)
Definition write_event (w : World) : World :=
  w <| event_count := if event_count w <? 2 ^ 64 - 2 then event_count w + 1 else event_count w |>.

Definition post (work : T) (w : World) : World := write_event (push_work work w).

(** ** Submissions

    Without a free entry a submission returns silently. *)

Definition enqueue (op : prepared_op) (request : IORequest K A) (fill : sqe K A → io_uring) (w : World) : World :=
  w <| loop := (loop w) <| ring_ := fill (Build_sqe op (Some request)) |> |>.

(** The length of the address is passed as a pointer to a local variable of
    [submit_accept]; the kernel reads it later, see the list of findings. *)
Definition submit_accept (server_socket : Z) (cb : A) (w : World) : World :=
  match io_uring_get_sqe (ring_ (loop w)) with
  | None => w
  | Some fill =>
      let request := new_request <| req_type := RequestType.ACCEPT |> <| callback := accept_callback cb |> in
      enqueue (prep_accept server_socket) request fill w
  end.

Definition resize (size : nat) (l : list byte) : list byte :=
  take size l ++ replicate (size - length l) Byte.x00.

Definition submit_read (conn : Z) (size : nat) (cb : K) (w : World) : World :=
  match io_uring_get_sqe (ring_ (loop w)) with
  | None => w
  | Some fill =>
      let request := new_request <| req_type := RequestType.READ |> <| callback := io_callback (Some cb) |>
        <| connection := Some conn |> in
      let w := w <| app := set_buffer conn (resize size (get_buffer conn (app w))) (app w) |> in
      enqueue (prep_read (get_socket conn (app w)) conn size) request fill w
  end.

Definition submit_write (conn : Z) (buffer : list byte) (cb : K) (w : World) : World :=
  match io_uring_get_sqe (ring_ (loop w)) with
  | None => w
  | Some fill =>
      let request := new_request <| req_type := RequestType.WRITE |> <| callback := io_callback (Some cb) |>
        <| connection := Some conn |> <| write_buffer := buffer |> in
      enqueue (prep_write (get_socket conn (app w)) (write_buffer request)) request fill w
  end.

Definition submit_connect (sock : Z) (address : sockaddr_in) (cb : K) (w : World) : World :=
  match io_uring_get_sqe (ring_ (loop w)) with
  | None => w
  | Some fill =>
      let request := new_request <| req_type := RequestType.CONNECT |> <| callback := io_callback (Some cb) |>
        <| remote_address := address |> in
      enqueue (prep_connect sock (remote_address request)) request fill w
  end.

Definition submit_timeout (duration : Z) (cb : K) (w : World) : World :=
  match io_uring_get_sqe (ring_ (loop w)) with
  | None => w
  | Some fill =>
      let request := new_request <| req_type := RequestType.TIMEOUT |> <| callback := io_callback (Some cb) |>
        <| req_timeout := timeout_spec duration |> in
      enqueue (prep_timeout (req_timeout request)) request fill w
  end.

(** No test for a missing entry: [io_uring_prep_read] dereferences it. *)
Definition post_eventfd_read (w : World) : World :=
  match io_uring_get_sqe (ring_ (loop w)) with
  | None => w <| phase_ := Crashed |>
  | Some fill =>
      let request := new_request <| req_type := RequestType.EVENTFD |> in
      enqueue (prep_read_eventfd (event_fd_ (loop w)) 8) request fill w
  end.

(** ** [run] *)

(** A call made by the loop's own thread. *)
Definition do_call (c : call K A T) (w : World) : World :=
  match c with
  | call_post work => push_work work w
  | call_notify => write_event w
  | call_accept server_socket cb => submit_accept server_socket cb w
  | call_read conn size cb => submit_read conn size cb w
  | call_write conn buffer cb => submit_write conn buffer cb w
  | call_connect sock address cb => submit_connect sock address cb w
  | call_timeout duration cb => submit_timeout duration cb w
  end.

(** What remains to be done of the calls after the first. *)
Definition rest_of (c : call K A T) (cs : list (call K A T)) : list (call K A T) :=
  match c with call_post _ => call_notify :: cs | _ => cs end.

(** Handling one completion; calling an empty function throws. *)
Definition handle_completion (e : cqe K A) (n : nat) (w : World) : World :=
  match cqe_data e with
  | None => w <| phase_ := Completing [] n |>
  | Some request =>
      if decide (req_type request = RequestType.EVENTFD) then
        post_eventfd_read (w <| phase_ := Completing [] n |>)
      else match callback request with
           | accept_callback cb =>
               let '(s, cs) := run_accept cb (cqe_res e) (remote_address request) (app w) in
               w <| app := s |> <| phase_ := Completing cs n |>
           | io_callback (Some cb) =>
               let '(s, cs) := run_io cb (cqe_res e) (app w) in
               w <| app := s |> <| phase_ := Completing cs n |>
           | io_callback None => w <| phase_ := Crashed |>
           end
  end.

(** [process_work_queue] takes the whole queue at once, under its lock. *)
Definition swap_work_queue (w : World) : World :=
  w <| phase_ := Working [] (work_queue_ (loop w)) |> <| loop := (loop w) <| work_queue_ := [] |> |>.

(** [process_work_queue], after the swap of the queues: the current task still makes the
    calls [cs], and the tasks [q] come after it. *)
Definition process_work_queue (cs : list (call K A T)) (q : list T) (w : World) : World :=
  match cs, q with
  | c :: cs, _ => do_call c (w <| phase_ := Working (rest_of c cs) q |>)
  | [], work_item :: q =>
      let '(s, cs) := run_task work_item (app w) in w <| app := s |> <| phase_ := Working cs q |>
  | [], [] => w <| phase_ := Completing [] 0 |>
  end.

(** The next action of the loop's thread.  [io_uring_submit_and_wait] returns when
    there is a completion (that it is not interrupted by a signal is assumed, the code does
    not look at its result); [io_uring_for_each_cqe] also sees those that arrive while it
    runs, and [io_uring_cq_advance] removes the ones that were seen. *)
Definition loop_step (w : World) : World :=
  match phase_ w with
  | Ready =>
      if is_running_ (loop w) then
        let '(es, ring) := io_uring_submit (ring_ (loop w)) in
        w <| loop := (loop w) <| ring_ := ring |> |> <| inflight := inflight w ++ es |> <| phase_ := Waiting |>
      else w <| phase_ := Stopped |>
  | Waiting =>
      match cq w with
      | [] => w
      | _ => swap_work_queue w
      end
  | Working cs q => process_work_queue cs q w
  | Completing (c :: cs) n => do_call c (w <| phase_ := Completing (rest_of c cs) n |>)
  | Completing [] n =>
      match cq w !! n with
      | Some e => handle_completion e (n + 1) w
      | None => w <| cq := drop n (cq w) |> <| phase_ := Ready |>
      end
  | Stopped | Crashed => w
  end.

(** ** The kernel and other threads *)

(** The kernel completes the [i]-th of its requests.  A read of the event file
    descriptor returns and clears the counter; every other request may have any result,
    an accept any address, and a read any bytes that fit. *)
Definition kernel_complete (i : nat) (res : Z) (address : sockaddr_in) (data : list byte) (w : World) : World :=
  match inflight w !! i with
  | None => w
  | Some e =>
      let w' := w <| inflight := delete i (inflight w) |> in
      match sqe_op e with
      | prep_read_eventfd _ _ =>
          if 0 <? event_count w then
            w' <| event_count := 0 |> <| cq := cq w ++ [Build_cqe (user_data e) 8] |>
          else if nonblocking_reads then w' <| cq := cq w ++ [Build_cqe (user_data e) (-11)] |>
          else w
      | prep_accept _ =>
          w' <| cq := cq w ++ [Build_cqe ((λ r, r <| remote_address := address |>) <$> user_data e) res] |>
      | prep_read _ conn size =>
          let data := take size data in
          w' <| app := set_buffer conn (data ++ drop (length data) (get_buffer conn (app w))) (app w) |>
             <| cq := cq w ++ [Build_cqe (user_data e) res] |>
      | prep_write _ _ | prep_connect _ _ | prep_timeout _ =>
          w' <| cq := cq w ++ [Build_cqe (user_data e) res] |>
      end
  end.

Inductive event :=
  | ev_loop
  | ev_complete (i : nat) (res : Z) (address : sockaddr_in) (data : list byte)
  | ev_push (work : T)
  | ev_write.

Definition step (e : event) (w : World) : World :=
  match e with
  | ev_loop => loop_step w
  | ev_complete i res address data => kernel_complete i res address data w
  | ev_push work => (push_work work w) <| posting := S (posting w) |>
  | ev_write => match posting w with
                | O => w
                | S n => (write_event w) <| posting := n |>
                end
  end.

Definition run_events (es : list event) (w : World) : World := foldl (λ w e, step e w) w es.

(** Calls in one step. *)
Definition do_calls (cs : list (call K A T)) (w : World) : World :=
  foldl (λ w c, match c with call_post work => post work w | _ => do_call c w end) w cs.

(** The start of [run] on a new loop, after the program made the calls [cs]. *)
Definition start (cs : list (call K A T)) (l : Loop) (s : St) : World :=
  post_eventfd_read (do_calls cs
    {| loop := l; app := s; phase_ := Ready; inflight := []; cq := []; event_count := 0; posting := 0 |}).

(** ** The invariant *)

(** Requests whose object the loop has handed out and not yet taken back. *)
Definition taken (p : phase K A T) : nat := match p with Completing _ n => n | _ => 0%nat end.
Definition outstanding (w : World) : list (option (IORequest K A)) :=
  (user_data <$> queued (ring_ (loop w))) ++ (user_data <$> inflight w) ++ (cqe_data <$> drop (taken (phase_ w)) (cq w)).

Definition is_wake (o : option (IORequest K A)) : Prop := req_type <$> o = Some RequestType.EVENTFD.
#[local] Instance is_wake_dec o : Decision (is_wake o).
Proof. unfold is_wake. apply _. Defined.
Definition wakes (l : list (option (IORequest K A))) : nat := length (filter is_wake l).

(** The type of a request says which alternative its callback holds and which
    members are set. *)
Definition request_ok (o : option (IORequest K A)) : Prop :=
  match o with
  | None => False
  | Some r =>
      match req_type r with
      | RequestType.ACCEPT => ∃ a, callback r = accept_callback a
      | RequestType.READ | RequestType.WRITE => is_Some (connection r) ∧ ∃ k, callback r = io_callback (Some k)
      | RequestType.CONNECT | RequestType.TIMEOUT => ∃ k, callback r = io_callback (Some k)
      | RequestType.EVENTFD => True
      end
  end.

Definition op_type (op : prepared_op) : RequestType.t :=
  match op with
  | prep_accept _ => RequestType.ACCEPT
  | prep_read _ _ _ => RequestType.READ
  | prep_read_eventfd _ _ => RequestType.EVENTFD
  | prep_write _ _ => RequestType.WRITE
  | prep_connect _ _ => RequestType.CONNECT
  | prep_timeout _ => RequestType.TIMEOUT
  end.

Definition entry_ok (e : sqe K A) : Prop :=
  request_ok (user_data e) ∧ req_type <$> user_data e = Some (op_type (sqe_op e)).

Record loop_inv_at (n : nat) (w : World) : Prop := {
  li_room : (length (queued (ring_ (loop w))) ≤ sq_entries (ring_ (loop w)))%nat;
  li_queued : Forall entry_ok (queued (ring_ (loop w)));
  li_inflight : Forall entry_ok (inflight w);
  li_cq : Forall request_ok (cqe_data <$> cq w);
  li_submitted : phase_ w = Waiting → queued (ring_ (loop w)) = [];
  li_count : 0 ≤ event_count w;
  li_taken : (taken (phase_ w) ≤ length (cq w))%nat;
  li_wake : phase_ w ≠ Crashed → wakes (outstanding w) = n }.

(** [n] reads of the event file descriptor are outstanding: one, once [run] has started. *)
Definition loop_inv : World → Prop := loop_inv_at 1.

#[local] Instance wakes_proper : Proper ((≡ₚ) ==> (=)) wakes.
Proof. intros l1 l2 H. unfold wakes. by rewrite H. Qed.
Lemma wakes_app l1 l2 : wakes (l1 ++ l2) = (wakes l1 + wakes l2)%nat.
Proof. unfold wakes. by rewrite filter_app, length_app. Qed.
Lemma wakes_cons o l : wakes (o :: l) = (wakes [o] + wakes l)%nat.
Proof. apply (wakes_app [o] l). Qed.
Lemma wakes_one o : is_wake o → wakes [o] = 1%nat.
Proof. intros H. unfold wakes. by rewrite filter_cons_True. Qed.
Lemma wakes_none o : ¬ is_wake o → wakes [o] = 0%nat.
Proof. intros H. unfold wakes. by rewrite filter_cons_False. Qed.

Context `{HL : !LiburingLaws (sqe K A)}.

(** ** What calls submit *)

(** The request a call submits, if it submits one. *)
Definition request_of (c : call K A T) : option (IORequest K A) :=
  match c with
  | call_post _ | call_notify => None
  | call_accept _ cb => Some (new_request <| req_type := RequestType.ACCEPT |> <| callback := accept_callback cb |>)
  | call_read conn _ cb => Some (new_request <| req_type := RequestType.READ |>
      <| callback := io_callback (Some cb) |> <| connection := Some conn |>)
  | call_write conn buffer cb => Some (new_request <| req_type := RequestType.WRITE |>
      <| callback := io_callback (Some cb) |> <| connection := Some conn |> <| write_buffer := buffer |>)
  | call_connect _ address cb => Some (new_request <| req_type := RequestType.CONNECT |>
      <| callback := io_callback (Some cb) |> <| remote_address := address |>)
  | call_timeout duration cb => Some (new_request <| req_type := RequestType.TIMEOUT |>
      <| callback := io_callback (Some cb) |> <| req_timeout := timeout_spec duration |>)
  end.

(** A call that submits nothing only changes the work queue and the counter; any other
    call fills the next entry if there is one, and otherwise does nothing. *)
Lemma do_call_spec c w :
  match request_of c with
  | None => ∃ q n, do_call c w = w <| loop := (loop w) <| work_queue_ := q |> |> <| event_count := n |> ∧
                   (0 ≤ event_count w → 0 ≤ n)
  | Some r => ∃ op s,
      do_call c w = match io_uring_get_sqe (ring_ (loop w)) with
                    | None => w
                    | Some fill => enqueue op r fill (w <| app := s |>)
                    end ∧ entry_ok (Build_sqe op (Some r)) ∧ ¬ is_wake (Some r)
  end.
Proof.
  destruct w as [[ring b fd q] s p fl q' n ps]. destruct c as [t| |sock cb|conn size cb|conn buf cb|sock addr cb|d cb]; simpl.
  1: by eexists _, n.
  1: { eexists _, _. split; [reflexivity|]. simpl. case_match; lia. }
  all: eexists _, _; split; [reflexivity|]; split; [split; [simpl; eauto|reflexivity]|by unfold is_wake].
Qed.

Lemma set_phase_inv p w :
  loop_inv w → phase_ w ≠ Crashed → taken p = taken (phase_ w) → p ≠ Waiting → loop_inv (w <| phase_ := p |>).
Proof.
  intros [H1 H2 H3 H4 H5 H6 H8 H7] Hc Ht Hp. split; try done; [simpl; lia|]. intros _. unfold outstanding. simpl. rewrite Ht. by apply H7.
Qed.

Lemma set_app_inv s w : loop_inv w → loop_inv (w <| app := s |>).
Proof. by intros [H1 H2 H3 H4 H5 H6 H8 H7]. Qed.

(** Filling an entry adds its request to the outstanding ones. *)
Lemma enqueue_inv m op r fill w :
  io_uring_get_sqe (ring_ (loop w)) = Some fill → entry_ok (Build_sqe op (Some r)) →
  phase_ w ≠ Waiting → phase_ w ≠ Crashed → loop_inv_at m w →
  loop_inv_at (wakes [Some r] + m) (enqueue op r fill w).
Proof.
  intros Hg He Hp Hc [H1 H2 H3 H4 H5 H6 H8 H7].
  destruct (decide (length (queued (ring_ (loop w))) < sq_entries (ring_ (loop w)))%nat) as [Hlt|Hge];
    [|by rewrite get_sqe_full in Hg by lia].
  destruct (get_sqe_room _ Hlt) as (fill' & Hg' & Hfill). rewrite Hg in Hg'. injection Hg' as <-.
  destruct (Hfill (Build_sqe op (Some r))) as [Hq Hs].
  split; simpl; rewrite ?Hq, ?Hs; try done.
  - rewrite length_app. simpl. lia.
  - apply Forall_app. split; [done|]. by apply Forall_singleton.
  - intros _. rewrite <- (H7 Hc). unfold outstanding. simpl. rewrite Hq, fmap_app, !wakes_app. simpl. lia.
Qed.

Lemma do_call_inv m c w :
  loop_inv_at m w → phase_ w ≠ Waiting → phase_ w ≠ Crashed → loop_inv_at m (do_call c w).
Proof.
  intros Hw Hp Hc. pose proof (do_call_spec c w) as H. destruct (request_of c) as [r|].
  - destruct H as (op & s & -> & He & Hn). destruct (io_uring_get_sqe _) as [fill|] eqn:Hg; [|done].
    rewrite <- (Nat.add_0_l m), <- (wakes_none (Some r) Hn). apply enqueue_inv; try done. by destruct Hw.
  - destruct H as (q & n & -> & Hn). destruct Hw. split; simpl; auto.
Qed.

(** Re-arming the read of the event file descriptor either crashes or makes it
    outstanding. *)
Lemma rearm_inv w :
  phase_ w ≠ Waiting → phase_ w ≠ Crashed → loop_inv_at 0 w → loop_inv (post_eventfd_read w).
Proof.
  intros Hp Hc Hw. unfold post_eventfd_read. destruct (io_uring_get_sqe _) as [fill|] eqn:Hg.
  - pose proof (enqueue_inv 0 (prep_read_eventfd (event_fd_ (loop w)) 8)
      (new_request <| req_type := RequestType.EVENTFD |>) fill w Hg) as H. rewrite wakes_one in H by done. by apply H.
  - destruct Hw. split; try done. simpl. lia.
Qed.

(** Taking one completion removes its request from the outstanding ones. *)
Lemma outstanding_take w n e cs cs' :
  phase_ w = Completing cs n → cq w !! n = Some e →
  wakes (outstanding w) = (wakes [cqe_data e] + wakes (outstanding (w <| phase_ := Completing cs' (n + 1) |>)))%nat.
Proof.
  intros Hp He. unfold outstanding. simpl. rewrite Hp. simpl.
  rewrite (drop_S _ _ _ He), Nat.add_1_r. rewrite fmap_cons, !wakes_app, (wakes_cons (cqe_data e)). lia.
Qed.

Lemma handle_completion_inv n e w :
  loop_inv w → phase_ w = Completing [] n → cq w !! n = Some e → loop_inv (handle_completion e (n + 1) w).
Proof.
  intros Hw Hp He. pose proof Hw as [H1 H2 H3 H4 H5 H6 H8 H7].
  assert (request_ok (cqe_data e)) as Hok.
  { rewrite Forall_fmap, Forall_lookup in H4. by apply (H4 n). }
  assert (∀ m s cs, (wakes [cqe_data e] + m = 1)%nat →
    loop_inv_at m (w <| app := s |> <| phase_ := Completing cs (n + 1) |>)) as Htake.
  { intros m s cs Hm. split; try done; [apply lookup_lt_Some in He; simpl; lia|]. intros _.
    rewrite Hp in H7. specialize (H7 ltac:(done)). rewrite (outstanding_take w n e [] cs Hp He) in H7.
    change (wakes (outstanding (w <| phase_ := Completing cs (n + 1) |>)) = m). lia. }
  unfold handle_completion. destruct (cqe_data e) as [r|] eqn:Hr; [|done]. case_decide as Ht.
  - apply rearm_inv; [done|done|]. apply (Htake 0%nat (app w) []).
    rewrite wakes_one; [done|]. unfold is_wake. simpl. by rewrite Ht.
  - assert (wakes [Some r] + 1 = 1)%nat as H0 by (rewrite wakes_none; [done|]; unfold is_wake; simpl; congruence).
    simpl in Hok. destruct (callback r) as [[k|]|a].
    + destruct (run_io k (cqe_res e) (app w)). by apply Htake.
    + destruct (req_type r); naive_solver.
    + destruct (run_accept a (cqe_res e) (remote_address r) (app w)). by apply Htake.
Qed.

Lemma loop_step_inv w : loop_inv w → loop_inv (loop_step w).
Proof.
  intros Hw. pose proof Hw as [H1 H2 H3 H4 H5 H6 H8 H7]. unfold loop_step, swap_work_queue, process_work_queue.
  destruct (phase_ w) as [| |cs q|cs n| |] eqn:Hp.
  - destruct (is_running_ _); [|by apply set_phase_inv; rewrite ?Hp].
    pose proof (submit_all (ring_ (loop w))) as E1. pose proof (submit_empties (ring_ (loop w))) as E2.
    destruct (io_uring_submit (ring_ (loop w))) as [es ring']. simpl in E1, E2. subst es.
    split; simpl; rewrite ?E2; try done; [simpl; lia|by apply Forall_app|].
    intros _. specialize (H7 ltac:(done)). rewrite <- H7. unfold outstanding. simpl. rewrite Hp, E2, fmap_app. simpl.
    rewrite !wakes_app. lia.
  - destruct (cq w) as [|c l] eqn:Hcq; [done|]. split; simpl; rewrite ?Hcq; try done.
    intros _. rewrite <- H7 by discriminate. unfold outstanding. simpl. by rewrite Hp, Hcq.
  - destruct cs as [|c cs].
    + destruct q as [|t q]; [by apply set_phase_inv; rewrite ?Hp|]. destruct (run_task t (app w)) as [s cs].
      apply set_phase_inv; [by apply set_app_inv|..]; simpl; by rewrite ?Hp.
    + apply do_call_inv; [|done|done]. by apply set_phase_inv; rewrite ?Hp.
  - destruct cs as [|c cs].
    + destruct (cq w !! n) as [e|] eqn:He; [by apply handle_completion_inv|].
      split; simpl; try done; [by rewrite fmap_drop; apply Forall_drop|lia|].
      intros _. rewrite <- H7 by discriminate. unfold outstanding. simpl. by rewrite Hp, drop_0.
    + apply do_call_inv; [|done|done]. by apply set_phase_inv; rewrite ?Hp.
  - done.
  - done.
Qed.

(** Moving a request from the kernel to the completion queue. *)
Lemma completed_inv i e o s n res w :
  loop_inv w → inflight w !! i = Some e → request_ok o → (is_wake o ↔ is_wake (user_data e)) → 0 ≤ n →
  loop_inv (Build_World (loop w) s (phase_ w) (delete i (inflight w)) (cq w ++ [Build_cqe o res]) n (posting w)).
Proof.
  intros [H1 H2 H3 H4 H5 H6 H8 H7] He Ho Hiff Hn. split; simpl; try done.
  - by apply Forall_delete.
  - rewrite fmap_app. apply Forall_app. split; [done|]. by apply Forall_singleton.
  - rewrite length_app. lia.
  - intros Hc. rewrite <- (H7 Hc). unfold outstanding. simpl. rewrite drop_app_le, fmap_app by done. simpl.
    rewrite (delete_Permutation _ _ _ He) at 2. rewrite fmap_cons, !wakes_app, (wakes_cons (user_data e)).
    assert (wakes [o] = wakes [user_data e]) as ->; [|lia].
    destruct (decide (is_wake o)).
    + by rewrite !wakes_one by naive_solver.
    + by rewrite !wakes_none by naive_solver.
Qed.

Lemma kernel_complete_inv i res address data w : loop_inv w → loop_inv (kernel_complete i res address data w).
Proof.
  intros Hw. pose proof Hw as [H1 H2 H3 H4 H5 H6 H8 H7]. unfold kernel_complete.
  destruct (inflight w !! i) as [e|] eqn:He; [|done].
  assert (entry_ok e) as [Hok Hty] by (by apply (Forall_lookup_1 _ _ _ _ H3 He)).
  destruct (sqe_op e) as [sock|sock conn size|fd size|sock d|sock addr|spec]; simpl.
  - apply (completed_inv i e); try done; destruct (user_data e) as [r|]; done.
  - by apply (completed_inv i e).
  - destruct (0 <? event_count w); [by apply (completed_inv i e)|].
    destruct nonblocking_reads; [|done]. by apply (completed_inv i e).
  - by apply (completed_inv i e).
  - by apply (completed_inv i e).
  - by apply (completed_inv i e).
Qed.

Lemma step_inv e w : loop_inv w → loop_inv (step e w).
Proof.
  intros Hw. destruct e as [|i res address data|t|]; simpl.
  - by apply loop_step_inv.
  - by apply kernel_complete_inv.
  - by destruct Hw.
  - destruct (posting w); [done|]. destruct Hw as [H1 H2 H3 H4 H5 H6 H8 H7]. split; try done. simpl. case_match; lia.
Qed.

Lemma run_events_inv es w : loop_inv w → loop_inv (run_events es w).
Proof. revert w. induction es as [|e es IH]; intros w Hw; [done|]. apply IH. by apply step_inv. Qed.

(** ** Calls and tasks in one step *)

Lemma do_call_phase c p w : do_call c (w <| phase_ := p |>) = (do_call c w) <| phase_ := p |>.
Proof.
  destruct c; simpl; try done; unfold submit_accept, submit_read, submit_write, submit_connect, submit_timeout;
    simpl; by destruct (io_uring_get_sqe _).
Qed.

Lemma do_calls_phase cs p w : do_calls cs (w <| phase_ := p |>) = (do_calls cs w) <| phase_ := p |>.
Proof.
  revert w. induction cs as [|c cs IH]; intros w; [done|].
  destruct c as [t|  |? ?|? ? ?|? ? ?|? ? ?|? ?]; [exact (IH (post t w))|..];
    exact (eq_trans (f_equal (do_calls cs) (do_call_phase _ p w)) (IH _)).
Qed.

Lemma do_call_phase_same c w : phase_ (do_call c w) = phase_ w.
Proof.
  assert (w = w <| phase_ := phase_ w |>) as Hw by (by destruct w). rewrite Hw at 1. by rewrite do_call_phase.
Qed.

Lemma do_calls_inv m cs w :
  loop_inv_at m w → phase_ w = Ready → loop_inv_at m (do_calls cs w) ∧ phase_ (do_calls cs w) = Ready.
Proof.
  revert w. induction cs as [|c cs IH]; intros w Hw Hp; [done|].
  assert (loop_inv_at m (do_call c w) ∧ phase_ (do_call c w) = Ready) as [Hw' Hp'].
  { rewrite do_call_phase_same. split; [apply do_call_inv|]; by rewrite ?Hp. }
  destruct c as [t|  |? ?|? ? ?|? ? ?|? ? ?|? ?]; [|by apply IH..]. apply (IH (post t w)); [|done].
  assert (loop_inv_at m (do_call call_notify (do_call (call_post t) w))); [|done].
  apply do_call_inv; [done|..]; by rewrite Hp'.
Qed.

Lemma start_inv depth fd l cs s : new_loop depth fd = Some l → loop_inv (start cs l s).
Proof.
  unfold new_loop. intros Hl. destruct (io_uring_queue_init depth) as [r|] eqn:Hr; [|done].
  destruct (fd =? -1); [done|]. injection Hl as <-. unfold start.
  match goal with |- context [do_calls cs ?w0] => destruct (do_calls_inv 0 cs w0) as [Hw Hp] end; [|done|].
  - split; unfold outstanding; simpl; rewrite ?(init_empty _ _ Hr); try done; simpl; lia.
  - apply rearm_inv; [by rewrite Hp..|done].
Qed.

Definition iterate (n : nat) (w : World) : World := Nat.iter n loop_step w.

Lemma iterate_add n m w : iterate (n + m) w = iterate n (iterate m w).
Proof. apply Nat.iter_add. Qed.

Lemma iterate_succ n w : iterate (S n) w = iterate n (loop_step w).
Proof. unfold iterate. by rewrite Nat.iter_succ_r. Qed.

(** The loop's thread makes the calls of a task one after the other. *)
Lemma working_calls cs q w :
  ∃ n, iterate n (w <| phase_ := Working cs q |>) = (do_calls cs w) <| phase_ := Working [] q |>.
Proof.
  revert w. induction cs as [|c cs IH]; intros w; [by exists 0%nat|].
  destruct (IH (match c with call_post work => post work w | _ => do_call c w end)) as [n Hn].
  destruct c as [t|  |? ?|? ? ?|? ? ?|? ? ?|? ?]; [exists (S (S n)); rewrite !iterate_succ; exact Hn|..];
    exists (S n); rewrite iterate_succ; exact (eq_trans (f_equal (iterate n) (do_call_phase _ _ w)) Hn).
Qed.

(** The requests that a sequence of calls leaves in the submission queue. *)
Lemma do_call_queued c w :
  (length (queued (ring_ (loop w))) ≤ sq_entries (ring_ (loop w)))%nat →
  sq_entries (ring_ (loop (do_call c w))) = sq_entries (ring_ (loop w)) ∧
  user_data <$> queued (ring_ (loop (do_call c w)))
  = take (sq_entries (ring_ (loop w)))
      ((user_data <$> queued (ring_ (loop w))) ++ (Some <$> option_list (request_of c))).
Proof.
  intros Hle. pose proof (do_call_spec c w) as H. destruct (request_of c) as [r|]; simpl.
  - destruct H as (op & s & -> & _).
    destruct (decide (length (queued (ring_ (loop w))) < sq_entries (ring_ (loop w)))%nat) as [Hlt|Hge].
    + destruct (get_sqe_room _ Hlt) as (fill & -> & Hfill). destruct (Hfill (Build_sqe op (Some r))) as [Hq Hs].
      simpl. rewrite Hq, Hs, fmap_app. split; [done|]. rewrite take_ge; [done|].
      rewrite length_app, length_fmap. simpl. lia.
    + rewrite get_sqe_full by lia. split; [done|]. rewrite take_app_le by (rewrite length_fmap; lia).
      by rewrite take_ge by (rewrite length_fmap; lia).
  - destruct H as (q & n & -> & _). simpl. rewrite app_nil_r. split; [done|].
    by rewrite take_ge by (rewrite length_fmap; lia).
Qed.

(** A request that is to be completed exists and is unique, so a blocked loop has the
    read of the event file descriptor in the kernel. *)
Lemma waiting_armed w :
  loop_inv w → phase_ w = Waiting → cq w = [] →
  ∃ i e fd size, inflight w !! i = Some e ∧ sqe_op e = prep_read_eventfd fd size.
Proof.
  intros [H1 H2 H3 H4 H5 H6 H8 H7] Hp Hcq. specialize (H7 ltac:(by rewrite Hp)). specialize (H5 Hp).
  unfold outstanding in H7. rewrite H5, Hcq, drop_nil, app_nil_r in H7. simpl in H7.
  destruct (filter is_wake (user_data <$> inflight w)) as [|o os] eqn:Hf; [unfold wakes in H7; by rewrite Hf in H7|].
  assert (o ∈ filter is_wake (user_data <$> inflight w)) as Ho by (rewrite Hf; left).
  apply list_elem_of_filter in Ho as [Ho Hin]. apply list_elem_of_fmap in Hin as (e & -> & He).
  apply list_elem_of_lookup in He as [i Hi]. pose proof (Forall_lookup_1 _ _ _ _ H3 Hi) as [_ Hty].
  unfold is_wake in Ho. rewrite Ho in Hty. destruct e as [[] ?]; try done. by eexists i, _, _, _.
Qed.

Lemma crash_full w :
  loop_inv w → phase_ w ≠ Crashed → phase_ (loop_step w) = Crashed →
  ∃ n e, phase_ w = Completing [] n ∧ cq w !! n = Some e ∧ is_wake (cqe_data e) ∧
         length (queued (ring_ (loop w))) = sq_entries (ring_ (loop w)).
Proof.
  intros [H1 H2 H3 H4 H5 H6 H8 H7] Hc. unfold loop_step, swap_work_queue, process_work_queue. destruct (phase_ w) as [| |cs q|cs n| |] eqn:Hp.
  - destruct (is_running_ _); [|done]. by destruct (io_uring_submit _).
  - destruct (cq w); simpl; by rewrite ?Hp.
  - destruct cs; [|by rewrite do_call_phase_same]. destruct q; [done|]. by destruct (run_task _ _).
  - destruct cs; [|by rewrite do_call_phase_same]. destruct (cq w !! n) as [e|] eqn:He; [|done].
    intros Hcr. exists n, e. split; [done|]. split; [done|].
    assert (request_ok (cqe_data e)) as Hok by (rewrite Forall_fmap, Forall_lookup in H4; by apply (H4 n)).
    unfold handle_completion in Hcr. destruct (cqe_data e) as [r|] eqn:Hr; [|done]. case_decide as Ht.
    + split; [by unfold is_wake; simpl; rewrite Ht|]. unfold post_eventfd_read in Hcr. simpl in Hcr.
      destruct (decide (length (queued (ring_ (loop w))) < sq_entries (ring_ (loop w)))%nat) as [Hlt|]; [|lia].
      destruct (get_sqe_room _ Hlt) as (fill & Hg & _). by rewrite Hg in Hcr.
    + simpl in Hok. destruct (callback r) as [[k|]|a].
      * by destruct (run_io k _ _).
      * destruct (req_type r); naive_solver.
      * by destruct (run_accept a _ _ _).
  - by rewrite Hp.
  - by rewrite Hp.
Qed.

Definition internal (e : event) : Prop :=
  match e with ev_loop | ev_complete _ _ _ _ => True | ev_push _ | ev_write => False end.

(** ** Properties *)

(** C36: In every reachable state of the loop the submission queue is within its size,
    every request handed to the kernel or received from it carries the callback and the
    members that its type calls for, and, unless the loop has crashed, the read of the
    event file descriptor is outstanding exactly once. *)
Theorem event_loop_invariant depth fd l cs s es :
  new_loop depth fd = Some l → loop_inv (run_events es (start cs l s)).
Proof. intros Hl. apply run_events_inv. by eapply start_inv. Qed.

(** Of the requests that calls submit between two submissions to the kernel, those
    beyond the size of the submission queue are dropped: nothing of them is left, and
    the caller is not told. *)
Theorem submissions_beyond_depth_dropped cs w :
  (length (queued (ring_ (loop w))) ≤ sq_entries (ring_ (loop w)))%nat →
  user_data <$> queued (ring_ (loop (do_calls cs w)))
  = take (sq_entries (ring_ (loop w)))
      ((user_data <$> queued (ring_ (loop w))) ++ (Some <$> omap request_of cs)).
Proof.
  revert w. induction cs as [|c cs IH]; intros w Hle.
  { simpl. by rewrite app_nil_r, take_ge by (rewrite length_fmap; lia). }
  assert (∀ w', do_call c w = w' → user_data <$> queued (ring_ (loop (do_calls cs w')))
    = take (sq_entries (ring_ (loop w)))
        ((user_data <$> queued (ring_ (loop w))) ++ (Some <$> omap request_of (c :: cs)))) as Hstep.
  { intros w' <-. destruct (do_call_queued c w Hle) as [Hs Hq].
    rewrite IH, Hs, Hq; [|rewrite Hs, <- (length_fmap user_data), Hq, length_take; lia].
    assert (omap request_of (c :: cs) = option_list (request_of c) ++ omap request_of cs) as ->
      by (simpl; by destruct (request_of c)).
    rewrite fmap_app, (assoc_L (++)).
    set (l1 := (user_data <$> queued (ring_ (loop w))) ++ (Some <$> option_list (request_of c))).
    destruct (decide (length l1 ≤ sq_entries (ring_ (loop w)))%nat) as [Hl|Hl].
    - by rewrite (take_ge l1) by done.
    - rewrite !take_app_le, take_take by (rewrite ?length_take; lia). f_equal. lia. }
  destruct c as [t|  |? ?|? ? ?|? ? ?|? ? ?|? ?]; [exact (IH (post t w) Hle)|..]; exact (Hstep _ eq_refl).
Qed.

(** C40: The loop crashes exactly when it takes the completion of the event file
    descriptor while the submission queue is full, because the re-armed read then has
    no entry; no completion ever calls an empty function. *)
Theorem loop_crashes_iff_full depth fd l cs s es :
  new_loop depth fd = Some l →
  let w := run_events es (start cs l s) in
  phase_ w ≠ Crashed →
  phase_ (loop_step w) = Crashed ↔
  ∃ n e, phase_ w = Completing [] n ∧ cq w !! n = Some e ∧ is_wake (cqe_data e) ∧
         length (queued (ring_ (loop w))) = sq_entries (ring_ (loop w)).
Proof.
  intros Hl w Hc. assert (loop_inv w) as Hw by (apply run_events_inv; by eapply start_inv). clearbody w.
  split; [by apply crash_full|]. intros (n & e & Hp & He & Hwake & Hfull).
  unfold loop_step, swap_work_queue, process_work_queue. rewrite Hp, He. unfold handle_completion. unfold is_wake in Hwake.
  destruct (cqe_data e) as [r|]; [|done]. injection Hwake as Hr. rewrite decide_True by done.
  unfold post_eventfd_read. simpl. by rewrite get_sqe_full by lia.
Qed.

(** C37: A task that another thread posts while the loop is blocked wakes it: the kernel
    can complete a request, and when the loop continues, the task is the last of those
    it is about to run. *)
Theorem post_wakes_waiting_loop depth fd l cs s es work :
  new_loop depth fd = Some l →
  let w := run_events es (start cs l s) in
  phase_ w = Waiting →
  ∃ es', Forall internal es' ∧
    phase_ (run_events ([ev_push work; ev_write] ++ es') w) = Working [] (work_queue_ (loop w) ++ [work]).
Proof.
  intros Hl w Hp. assert (loop_inv w) as Hw by (apply run_events_inv; by eapply start_inv). clearbody w.
  destruct (cq w) as [|c q] eqn:Hcq.
  - destruct (waiting_armed w Hw Hp Hcq) as (i & e & fd' & size & Hi & Hop).
    exists [ev_complete i 0 no_address []; ev_loop]. split; [by repeat constructor|].
    simpl. unfold kernel_complete. simpl. rewrite Hi, Hop. simpl. pose proof (li_count _ _ Hw) as Hn.
    assert ((0 <? (if event_count w <? 2 ^ 64 - 2 then event_count w + 1 else event_count w)) = true) as Hpos.
    { apply Z.ltb_lt. destruct (event_count w <? _) eqn:Hlt; [lia|]. apply Z.ltb_ge in Hlt. lia. }
    rewrite Hpos. unfold loop_step, swap_work_queue, process_work_queue. simpl. rewrite Hp. simpl. destruct (cq w ++ _) eqn:H; [|done]. by destruct (cq w).
  - exists [ev_loop]. split; [by repeat constructor|]. simpl. unfold loop_step, swap_work_queue, process_work_queue. simpl. by rewrite Hp, Hcq.
Qed.

(** *** The order of tasks

    What follows is about any application that keeps a record of the tasks it ran. *)
Context (ran : St → list T).
Context (ran_task : ∀ t s, ran (run_task t s).1 = ran s ++ [t]).
Context (ran_io : ∀ k res s, ran (run_io k res s).1 = ran s).
Context (ran_accept : ∀ a res address s, ran (run_accept a res address s).1 = ran s).
Context (ran_buffer : ∀ c b s, ran (set_buffer c b s) = ran s).

(** The tasks that are still to be run: those the loop has taken, and the queue. *)
Definition to_run (w : World) : list T :=
  match phase_ w with Working _ q => q | _ => [] end ++ work_queue_ (loop w).

(** The tasks posted in an event, by another thread or by the loop's own, and in a run. *)
Definition posted_by (e : event) (w : World) : list T :=
  match e, phase_ w with
  | ev_push t, _ => [t]
  | ev_loop, (Working (call_post t :: _) _ | Completing (call_post t :: _) _) => [t]
  | _, _ => []
  end.

Fixpoint posts (es : list event) (w : World) : list T :=
  match es with [] => [] | e :: es => posted_by e w ++ posts es (step e w) end.

Lemma do_call_ran c w : ran (app (do_call c w)) = ran (app w).
Proof.
  destruct c; simpl; try done; unfold submit_accept, submit_read, submit_write, submit_connect, submit_timeout;
    destruct (io_uring_get_sqe _); simpl; try done.
Qed.

Lemma do_call_work c w :
  work_queue_ (loop (do_call c w)) = work_queue_ (loop w) ++ match c with call_post t => [t] | _ => [] end.
Proof.
  destruct c; simpl; try done; rewrite ?app_nil_r; try done;
    unfold submit_accept, submit_read, submit_write, submit_connect, submit_timeout; by destruct (io_uring_get_sqe _).
Qed.

(** A call in the middle of a task or of a callback. *)
Lemma called_order c p w :
  (match p with Working _ q => q | _ => [] end = match phase_ w with Working _ q => q | _ => [] end) →
  ran (app (do_call c (w <| phase_ := p |>))) ++ to_run (do_call c (w <| phase_ := p |>))
  = ran (app w) ++ to_run w ++ match c with call_post t => [t] | _ => [] end.
Proof.
  intros Hp. unfold to_run. rewrite do_call_ran, do_call_phase_same, do_call_work. simpl. by rewrite Hp, !(assoc_L (++)).
Qed.

Lemma handle_completion_order e n w :
  phase_ w = Completing [] n →
  ran (app (handle_completion e (n + 1) w)) ++ to_run (handle_completion e (n + 1) w) = ran (app w) ++ to_run w.
Proof.
  intros Hp. unfold to_run, handle_completion. rewrite Hp. destruct (cqe_data e) as [r|]; [|done]. case_decide.
  { unfold post_eventfd_read. by destruct (io_uring_get_sqe _). }
  destruct (callback r) as [[k|]|a]; [|done|].
  - pose proof (ran_io k (cqe_res e) (app w)) as H0. by destruct (run_io _ _ _); simpl in *; rewrite H0.
  - pose proof (ran_accept a (cqe_res e) (remote_address r) (app w)) as H0. by destruct (run_accept _ _ _ _); simpl in *; rewrite H0.
Qed.

Lemma loop_step_order w :
  ran (app (loop_step w)) ++ to_run (loop_step w) = ran (app w) ++ to_run w ++ posted_by ev_loop w.
Proof.
  unfold loop_step, swap_work_queue, process_work_queue, posted_by. destruct (phase_ w) as [| |cs q|cs n| |] eqn:Hp; rewrite ?app_nil_r; try done.
  - unfold to_run. rewrite Hp. destruct (is_running_ _); [|done]. by destruct (io_uring_submit _).
  - unfold to_run. rewrite Hp. destruct (cq w); simpl; [by rewrite Hp|by rewrite app_nil_r].
  - destruct cs as [|c cs].
    + rewrite app_nil_r. unfold to_run. rewrite Hp. destruct q as [|t q]; [done|]. simpl.
      pose proof (ran_task t (app w)) as H0. destruct (run_task _ _) as [s cs]. simpl in *. by rewrite H0, <- (assoc_L (++)).
    + rewrite called_order by (by rewrite Hp). by destruct c.
  - destruct cs as [|c cs].
    + rewrite app_nil_r. destruct (cq w !! n); [by apply handle_completion_order|]. unfold to_run. by rewrite Hp.
    + rewrite called_order by (by rewrite Hp). by destruct c.
Qed.

Lemma step_order e w : ran (app (step e w)) ++ to_run (step e w) = ran (app w) ++ to_run w ++ posted_by e w.
Proof.
  destruct e as [|i res address data|t|]; [apply loop_step_order|..]; simpl; rewrite ?app_nil_r.
  - unfold kernel_complete, to_run. destruct (inflight w !! i) as [e|]; [|done].
    destruct (sqe_op e); simpl; rewrite ?ran_buffer; try done. destruct (0 <? event_count w); [done|]. by destruct nonblocking_reads.
  - unfold to_run. simpl. by rewrite !(assoc_L (++)).
  - unfold to_run. by destruct (posting w).
Qed.

Lemma run_events_order es w :
  ran (app (run_events es w)) ++ to_run (run_events es w) = ran (app w) ++ to_run w ++ posts es w.
Proof.
  revert w. induction es as [|e es IH]; intros w; [simpl; by rewrite app_nil_r|].
  change (run_events (e :: es) w) with (run_events es (step e w)). rewrite IH.
  cbn [posts]. rewrite (assoc_L (++)), step_order. by rewrite <- !(assoc_L (++)).
Qed.

Lemma do_calls_ran cs w : ran (app (do_calls cs w)) = ran (app w).
Proof.
  revert w. induction cs as [|c cs IH]; intros w; [done|].
  destruct c as [t|  |? ?|? ? ?|? ? ?|? ? ?|? ?]; [exact (IH (post t w))|..];
    exact (eq_trans (IH _) (do_call_ran _ w)).
Qed.

(** Taken tasks are run in finitely many steps. *)
Lemma working_tasks q w :
  phase_ w = Working [] q →
  ∃ n, phase_ (iterate n w) = Completing [] 0 ∧ ran (app (iterate n w)) = ran (app w) ++ q.
Proof.
  revert w. induction q as [|t q IH]; intros w Hp.
  { exists 1%nat. unfold iterate, loop_step. simpl. rewrite Hp. simpl. by rewrite app_nil_r. }
  pose proof (ran_task t (app w)) as H0. destruct (run_task t (app w)) as [s cs] eqn:Hrun. simpl in H0.
  destruct (working_calls cs q (w <| app := s |>)) as [n1 Hn1].
  destruct (IH ((do_calls cs (w <| app := s |>)) <| phase_ := Working [] q |>)) as (n2 & H1 & H2); [done|].
  assert (iterate (n2 + S n1) w = iterate n2 ((do_calls cs (w <| app := s |>)) <| phase_ := Working [] q |>)) as Hit.
  { rewrite iterate_add, iterate_succ. rewrite <- Hn1. do 2 f_equal. unfold loop_step, swap_work_queue, process_work_queue. rewrite Hp. simpl. by rewrite Hrun. }
  exists (n2 + S n1)%nat. rewrite Hit. split; [done|]. rewrite H2. simpl.
  by rewrite do_calls_ran; simpl; rewrite H0, <- (assoc_L (++)).
Qed.

(** C39: Tasks run once each and in the order in which they were posted: whatever the
    loop, the kernel and other threads do, the tasks run so far, followed by those that
    the loop has taken and those in its queue, are the tasks there were and the tasks
    posted since, in that order.  And once the wait returns, the loop takes finitely many
    steps to run every task that is then in the queue, and no other. *)
Theorem tasks_run_in_posting_order es w :
  ran (app (run_events es w)) ++ to_run (run_events es w) = ran (app w) ++ to_run w ++ posts es w ∧
  (phase_ w = Waiting → cq w ≠ [] →
   ∃ n, phase_ (iterate n w) = Completing [] 0 ∧ ran (app (iterate n w)) = ran (app w) ++ work_queue_ (loop w)).
Proof.
  split; [apply run_events_order|]. intros Hp Hcq.
  destruct (working_tasks (work_queue_ (loop w)) (loop_step w)) as (n & H1 & H2).
  - unfold loop_step, swap_work_queue, process_work_queue. rewrite Hp. by destruct (cq w).
  - exists (S n). rewrite iterate_succ. split; [done|]. rewrite H2. f_equal.
    unfold loop_step, swap_work_queue, process_work_queue. rewrite Hp. by destruct (cq w).
Qed.
End loop.

(** The timespec handed to the kernel for a non-negative duration is valid
    (nanoseconds below one second) and denotes exactly that duration. *)
Theorem timeout_spec_exact d :
  0 ≤ d → let '(sec, nsec) := timeout_spec d in
  0 ≤ sec ∧ 0 ≤ nsec < 1000000000 ∧ sec * 1000000000 + nsec = d.
Proof.
  intros Hd. unfold timeout_spec. rewrite Z.quot_div_nonneg, Z.rem_mod_nonneg by lia.
  pose proof (Z.mod_pos_bound d 1000000000). pose proof (Z.div_mod d 1000000000).
  pose proof (Z.div_pos d 1000000000). lia.
Qed.

(** ** An instance of liburing and a small application *)

Record list_ring (E : Type) := { lr_entries : nat; lr_queue : list E }.
Arguments lr_entries {E} _.
Arguments lr_queue {E} _.

#[export] Instance list_liburing (E : Type) : Liburing E := {|
  io_uring := list_ring E;
  io_uring_queue_init d :=
    if (0 <? d) && (d <=? 32768) then Some {| lr_entries := Z.to_nat (2 ^ Z.log2_up d); lr_queue := [] |} else None;
  io_uring_get_sqe r :=
    if (length (lr_queue r) <? lr_entries r)%nat
    then Some (λ e, {| lr_entries := lr_entries r; lr_queue := lr_queue r ++ [e] |}) else None;
  io_uring_submit r := (lr_queue r, {| lr_entries := lr_entries r; lr_queue := [] |});
  queued := lr_queue;
  sq_entries := lr_entries |}.

#[export] Instance list_liburing_laws E : LiburingLaws E.
Proof.
  split; simpl; intros.
  - by repeat case_match; simplify_eq.
  - repeat case_match; simplify_eq. simpl. rewrite Z2Nat.id; [done|]. apply Z.pow_nonneg. lia.
  - by rewrite (proj2 (Nat.ltb_ge _ _)).
  - rewrite (proj2 (Nat.ltb_lt _ _)) by done. by eexists.
  - done.
  - done.
  - done.
Qed.

(** Task [n] arms [n] timers of 200 ms; their callbacks do nothing. *)
#[export] Instance connection_heap : Connections (gmap Z (TcpConnection * list byte)) := {|
  get_socket c h := socket_fd_ (default (new_connection (-1), []) (h !! c)).1;
  get_buffer c h := (default (new_connection (-1), []) (h !! c)).2;
  set_buffer c b h := alter (λ o, (o.1, b)) c h |}.

Definition arm_timers (n : nat) (h : gmap Z (TcpConnection * list byte)) :
    gmap Z (TcpConnection * list byte) * list (call Z Z nat) :=
  (h, replicate n (call_timeout 200000000 0)).
Definition ignore_result (k res : Z) (h : gmap Z (TcpConnection * list byte)) :
    gmap Z (TcpConnection * list byte) * list (call Z Z nat) := (h, []).
Definition ignore_accept (k res : Z) (address : sockaddr_in) (h : gmap Z (TcpConnection * list byte)) :
    gmap Z (TcpConnection * list byte) * list (call Z Z nat) := (h, []).

Definition sample_loop : Loop (K := Z) (A := Z) (T := nat) := {|
  ring_ := {| lr_entries := 256; lr_queue := [] |} : io_uring; is_running_ := true; event_fd_ := 3;
  work_queue_ := [] |}.
Definition sample_run (nonblocking : bool) (works : list nat) (es : list (event (T := nat))) :=
  run_events arm_timers ignore_result ignore_accept nonblocking es (start (call_post <$> works) sample_loop ∅).

(** The kernel completes its first request, successfully. *)
Definition ev_first : event (T := nat) := ev_complete 0 0 no_address [].

(** The loop starts, runs the task that arms one timer, and waits again. *)
Definition armed_events : list (event (T := nat)) := [ev_loop; ev_first] ++ replicate 7 ev_loop.

(** The timer completes and the loop has passed its (empty) work queue; now a task is
    posted, the read of the event file descriptor completes at once, and the loop takes
    both completions. *)
Definition stranding_events : list (event (T := nat)) :=
  armed_events ++ [ev_first; ev_loop; ev_loop] ++ [ev_push 5%nat; ev_write; ev_first] ++ replicate 4 ev_loop.

(** A loop that waits with nothing but the read of the empty event file descriptor. *)
Lemma blocked_for_good {St K A T : Type} `{Connections St} `{Liburing (sqe K A)}
    (rt : T → St → St * list (call K A T)) ri ra es w e fd size :
  phase_ w = Waiting → cq w = [] → inflight w = [e] → sqe_op e = prep_read_eventfd fd size → event_count w = 0 →
  Forall internal es → run_events rt ri ra false es w = w.
Proof.
  intros Hp Hcq Hfl Hop Hn. induction 1 as [|ev es He _ IH]; [done|].
  refine (eq_trans (f_equal (run_events rt ri ra false es) _) IH).
  destruct ev as [|i res address data| |]; try done.
  - simpl. unfold loop_step, swap_work_queue, process_work_queue. by rewrite Hp, Hcq.
  - simpl. unfold kernel_complete. rewrite Hfl. destruct i as [|i]; [|done]. simpl. by rewrite Hop, Hn.
Qed.

(** C38: Posted work can be stranded where reads of the event file descriptor block: if
    the task is posted after the loop went through its work queue, and the completion
    of the event file descriptor is taken in the same iteration, the loop then waits
    with the task in its queue, and neither the loop nor the kernel can take a step. *)
Theorem posted_work_stranded :
  let w := sample_run false [1%nat] stranding_events in
  phase_ w = Waiting ∧ work_queue_ (loop w) = [5%nat] ∧ posting w = 0%nat ∧
  ∀ es, Forall internal es → run_events arm_timers ignore_result ignore_accept false es w = w.
Proof.
  split_and!; [vm_compute; reflexivity..|]. intros es.
  eapply blocked_for_good; vm_compute; reflexivity.
Qed.

(** One iteration of an idle loop whose event file descriptor was read. *)
Definition idle_iteration : list (event (T := nat)) := [ev_loop; ev_first] ++ replicate 4 ev_loop.

(** Where such reads fail with [EAGAIN] instead, as the descriptor is non-blocking, an
    idle loop never sleeps: without any outside event it goes through whole iterations
    for ever. *)
Theorem idle_loop_spins n :
  sample_run true [] (concat (replicate n idle_iteration)) = sample_run true [] [].
Proof.
  induction n as [|n IH]; [done|]. refine (eq_trans _ IH). unfold sample_run, run_events.
  cbn [replicate concat]. rewrite foldl_app. f_equal.
Qed.

(** ** Witnesses *)

Lemma event_loop_invariant_witness :
  new_loop 256 3 = Some sample_loop ∧
  wakes (outstanding (sample_run false [1%nat] armed_events)) = 1%nat.
Proof.
  split; [reflexivity|].
  refine (li_wake _ _ (event_loop_invariant arm_timers ignore_result ignore_accept false 256 3 sample_loop [call_post 1%nat] ∅
    armed_events _) _); [reflexivity|vm_compute; discriminate].
Defined.

(** A task that arms 300 timers leaves 256 of them. *)
Lemma submissions_beyond_depth_dropped_witness :
  let w := {| loop := sample_loop; app := ∅; phase_ := Ready; inflight := []; cq := []; event_count := 0; posting := 0 |} in
  length (user_data <$> queued (ring_ (loop (do_calls (replicate 300 (call_timeout 200000000 0)) w)))) = 256%nat.
Proof.
  intros w. rewrite (submissions_beyond_depth_dropped (replicate 300 (call_timeout 200000000 0)) w); vm_compute; lia.
Defined.

(** 256 posted tasks that submit one request each fill the queue. *)
Definition full_events : list (event (T := nat)) := [ev_loop; ev_first] ++ replicate 514 ev_loop.

Lemma loop_crashes_iff_full_witness :
  let w := sample_run false (replicate 256 1%nat) full_events in
  phase_ (loop_step arm_timers ignore_result ignore_accept w) = Crashed.
Proof.
  refine (proj2 (loop_crashes_iff_full arm_timers ignore_result ignore_accept false 256 3 sample_loop
    (call_post <$> replicate 256 1%nat) ∅ full_events _ _) _); [reflexivity|vm_compute; discriminate|].
  eexists 0%nat, _. split_and!; vm_compute; reflexivity.
Defined.

Lemma post_wakes_waiting_loop_witness :
  let w := sample_run false [1%nat] armed_events in
  ∃ es', Forall internal es' ∧
    phase_ (run_events arm_timers ignore_result ignore_accept false ([ev_push 5%nat; ev_write] ++ es') w)
    = Working [] (work_queue_ (loop w) ++ [5%nat]).
Proof.
  refine (post_wakes_waiting_loop arm_timers ignore_result ignore_accept false 256 3 sample_loop [call_post 1%nat] ∅
    armed_events 5%nat _ _); [reflexivity|vm_compute; reflexivity].
Defined.

(** An application that records its tasks, the first of which posts another one. *)
#[export] Instance record_connections : Connections (list nat) := {|
  get_socket _ _ := -1; get_buffer _ _ := []; set_buffer _ _ s := s |}.

Definition record_task (t : nat) (s : list nat) : list nat * list (call Z Z nat) :=
  (s ++ [t], match t with 1%nat => [call_post 7%nat] | _ => [] end).
Definition record_io (k res : Z) (s : list nat) : list nat * list (call Z Z nat) := (s, []).
Definition record_accept (k res : Z) (address : sockaddr_in) (s : list nat) : list nat * list (call Z Z nat) := (s, []).

Lemma tasks_run_in_posting_order_witness :
  let w := run_events record_task record_io record_accept false [ev_loop; ev_first]
             (start (call_post <$> [1; 2; 3]%nat) sample_loop []) in
  app (run_events record_task record_io record_accept false (replicate 5 ev_loop) w) = [1; 2]%nat ∧
  to_run (run_events record_task record_io record_accept false (replicate 5 ev_loop) w) = [3; 7]%nat ∧
  [1; 2]%nat ++ [3; 7]%nat = app w ++ to_run w ++ posts record_task record_io record_accept false (replicate 5 ev_loop) w ∧
  ∃ n, app (iterate record_task record_io record_accept n w) = [1; 2; 3]%nat.
Proof.
  intros w. destruct (tasks_run_in_posting_order record_task record_io record_accept false id
    ltac:(done) ltac:(done) ltac:(done) ltac:(done) (replicate 5 ev_loop) w) as [H1 H2].
  split; [vm_compute; reflexivity|]. split; [vm_compute; reflexivity|]. split; [exact H1|].
  destruct H2 as (n & _ & Hn); [reflexivity|vm_compute; discriminate|]. exists n. exact Hn.
Defined.

(** [heartbeat_interval_] is 200 ms. *)
Lemma timeout_spec_exact_witness : timeout_spec 200000000 = (0, 200000000) ∧ 0 * 1000000000 + 200000000 = 200000000.
Proof.
  split; [reflexivity|]. exact (proj2 (proj2 (timeout_spec_exact 200000000 ltac:(lia)))).
Defined.
