(* ===== verification/Client.v ===== *)
(** * The client

    [src/common/tcp_client.cpp] (one reconnecting connection per replica) and
    [src/client/client_main.cpp] (request numbering, failover, the command line).
    Console output is not modelled. *)
From S2P Require Import Prelude Types Serialization KeyValue Message ReplicaState Replica.

(** ** One connection: [TcpClient] *)

Module ClientState.
Inductive t := DISCONNECTED | CONNECTING | CONNECTED.
End ClientState.

#[export] Instance client_state_eq_dec : EqDecision ClientState.t.
Proof. solve_decision. Defined.

(** The tasks posted to the event loop and the requests submitted to it that have
    not completed yet. *)
Inductive pending :=
  | connect_task | connect_request (sock : Z)
  | write_task (data : list byte) | write_request (data : list byte)
  | read_request
  | timer_task | timer_request.

#[export] Instance pending_eq_dec : EqDecision pending.
Proof. solve_decision. Defined.

Record TcpClient := {
  cl_state_ : ClientState.t;
  connection_ : option Z;
  in_flight : list pending }.

#[export] Instance TcpClient_eta : Settable TcpClient :=
  λ c, Build_TcpClient (cl_state_ c) (connection_ c) (in_flight c).

Definition new_client : TcpClient :=
  {| cl_state_ := ClientState.DISCONNECTED; connection_ := None; in_flight := [] |}.

(** [IoUringLoop::post]. *)
Definition post_task (p : pending) (c : TcpClient) : TcpClient :=
  c <| in_flight := in_flight c ++ [p] |>.

(** [IoUringLoop::submit_...]: without a free entry in the submission queue ([room])
    nothing is submitted, and the caller is not told. *)
Definition submit (room : bool) (p : pending) (c : TcpClient) : TcpClient :=
  if room then c <| in_flight := in_flight c ++ [p] |> else c.

Definition connect (c : TcpClient) : TcpClient :=
  if negb (bool_decide (cl_state_ c = ClientState.DISCONNECTED)) then c
  else post_task connect_task (c <| cl_state_ := ClientState.CONNECTING |>).

Definition is_connected (c : TcpClient) : bool := bool_decide (cl_state_ c = ClientState.CONNECTED).

Definition schedule_reconnect (c : TcpClient) : TcpClient := post_task timer_task c.

Definition send (data : list byte) (c : TcpClient) : TcpClient :=
  match connection_ c with
  | Some _ => if is_connected c then post_task (write_task data) c else c
  | None => c
  end.

Definition handle_disconnect (c : TcpClient) : TcpClient :=
  if is_connected c then
    schedule_reconnect (c <| cl_state_ := ClientState.DISCONNECTED |> <| connection_ := None |>)
  else c.

(** Results the kernel reports: a socket or result code, and the bytes of a read. *)
Record io_result := { res : Z; bytes : list byte }.

(** The callback of [p], already removed from [in_flight]; it submits at most one request,
    for which there is [room] or not.  [None] is the dereference of a null
    [connection_]. *)
Definition complete (room : bool) (p : pending) (r : io_result) (c : TcpClient) : option TcpClient :=
  match p with
  | connect_task =>
      Some (if res r <? 0 then schedule_reconnect (c <| cl_state_ := ClientState.DISCONNECTED |>)
            else submit room (connect_request (res r)) c)
  | connect_request sock =>
      Some (if 0 <=? res r then
              submit room read_request (c <| connection_ := Some sock |> <| cl_state_ := ClientState.CONNECTED |>)
            else schedule_reconnect (c <| cl_state_ := ClientState.DISCONNECTED |>))
  | write_task data =>
      Some (match connection_ c with None => c | Some _ => submit room (write_request data) c end)
  | write_request _ => Some (if res r <? 0 then handle_disconnect c else c)
  | read_request =>
      match bytes r with
      | [] => Some (handle_disconnect c)
      | _ => match connection_ c with
             | None => None
             | Some _ => Some (submit room read_request c)
             end
      end
  | timer_task => Some (submit room timer_request c)
  | timer_request => Some (connect c)
  end.

(** The user's thread sends; the loop's thread completes what is in flight, in any
    order and with any result.  With [entries] set, there is always a free entry for what
    callbacks submit. *)
Inductive client_step (entries : bool) : TcpClient → option TcpClient → Prop :=
  | step_send c data : client_step entries c (Some (send data c))
  | step_complete c l1 p l2 room r :
      in_flight c = l1 ++ p :: l2 → (entries = true → room = true) →
      client_step entries c (complete room p r (c <| in_flight := l1 ++ l2 |>)).

Inductive client_run (entries : bool) (c0 : TcpClient) : TcpClient → Prop :=
  | run_start : client_run entries c0 c0
  | run_step c c' : client_run entries c0 c → client_step entries c (Some c') → client_run entries c0 c'.

(** ** The client program *)

Record Client := {
  clients : gmap Z TcpClient;
  current_target_replica_id : Z;
  next_request_number : Z }.

#[export] Instance Client_eta : Settable Client :=
  λ c, Build_Client (clients c) (current_target_replica_id c) (next_request_number c).

(** [self_client_id = {0xDEADBEEF, 0xCAFEF00D}], the same in every client. *)
Definition self_client_id : uint128_t := U128 3735928559 3405705229.

Definition CLUSTER_CONFIG : list peer_config := [
  {| pc_id := 0; pc_host := lit "localhost"; pc_port := 8080 |};
  {| pc_id := 1; pc_host := lit "localhost"; pc_port := 8081 |};
  {| pc_id := 2; pc_host := lit "localhost"; pc_port := 8082 |}].

(** [main] up to the command loop. *)
Definition client_main : Client := {|
  clients := list_to_map ((λ p, (pc_id p, connect new_client)) <$> CLUSTER_CONFIG);
  current_target_replica_id := 0;
  next_request_number := 1 |}.

Definition advance_to_next_replica (total_replicas : Z) (c : Client) : Client :=
  c <| current_target_replica_id := Z.rem (current_target_replica_id c + 1) total_replicas |>.

Definition target_connected (id : Z) (c : Client) : bool :=
  match clients c !! id with Some cl => is_connected cl | None => false end.

Section client.
Variable blake3 : list byte → list byte.

(** The retry loop; the replica the message was sent to, if any. *)
Fixpoint send_loop (attempts : nat) (msg : vsr_message) (total_replicas : Z) (c : Client)
    : Client * option Z :=
  match attempts with
  | O => (c, None)
  | S attempts =>
      let target_id := current_target_replica_id c in
      match clients c !! target_id with
      | Some cl =>
          if is_connected cl then
            let data := default [] (vsr_serialize blake3 msg) in
            (c <| clients := <[target_id := send data cl]> (clients c) |>, Some target_id)
          else send_loop attempts msg total_replicas (advance_to_next_replica total_replicas c)
      | None => send_loop attempts msg total_replicas (advance_to_next_replica total_replicas c)
      end
  end.

(** The message as [send_message] completes it. *)
Definition numbered (msg : vsr_message) (c : Client) : vsr_message :=
  msg <| header := (header msg) <| h_client := self_client_id |>
                                <| h_request := next_request_number c |> |>.

Definition client_send_message (msg : vsr_message) (total_replicas : Z) (c : Client)
    : Client * option Z :=
  let m := numbered msg c in
  let c := c <| next_request_number := u32 (next_request_number c + 1) |> in
  send_loop (Z.to_nat total_replicas) m total_replicas c.

(** [ss >> s] with its success: the word and the rest of the stream. *)
Definition read_word (ss : list byte) : option (list byte * list byte) :=
  match skip_ws ss with [] => None | s => Some (word s) end.

Definition ping_message : vsr_message :=
  {| header := zero_header <| h_command := command.ping |>; payload := [] |}.
Definition get_message (key : list byte) : vsr_message :=
  {| header := zero_header <| h_command := command.request |> <| h_operation := operation.get |>;
     payload := get_payload key |}.
Definition set_message (key value : list byte) : vsr_message :=
  {| header := zero_header <| h_command := command.request |> <| h_operation := operation.set |>;
     payload := set_payload key value |}.

(** One line of input; [None] leaves the command loop.  The message built and where
    it went are returned for the commands that send one. *)
Definition handle_line (line : list byte) (c : Client)
    : option (Client * option (vsr_message * option Z)) :=
  let total_replicas := Z.of_nat (length CLUSTER_CONFIG) in
  let send_it msg := let '(c', to) := client_send_message msg total_replicas c in
                     Some (c', Some (numbered msg c, to)) in
  if bool_decide (line = lit "exit") || bool_decide (line = lit "quit") then None
  else match read_word line with
  | None => Some (c, None)
  | Some (cmd, ss) =>
      if bool_decide (cmd = lit "help") then Some (c, None)
      else if bool_decide (cmd = lit "status") then Some (c, None)
      else if bool_decide (cmd = lit "ping") then send_it ping_message
      else if bool_decide (cmd = lit "get") then
        match read_word ss with
        | None => Some (c, None)
        | Some (key, _) => send_it (get_message key)
        end
      else if bool_decide (cmd = lit "set") then
        match read_word ss with
        | None => Some (c, None)
        | Some (key, ss) =>
            match read_word ss with
            | None => Some (c, None)
            | Some (value, _) => send_it (set_message key value)
            end
        end
      else Some (c, None)
  end.
End client.

(** ** The connection never gives up *)

(** The connection attempts in flight, and whether a reconnect timer is. *)
Definition is_connect (p : pending) : bool :=
  match p with connect_task | connect_request _ => true | _ => false end.
Definition attempts (l : list pending) : nat := length (filter (λ p, is_connect p = true) l).
Definition retrying (l : list pending) : Prop := timer_task ∈ l ∨ timer_request ∈ l.

(** The members agree with the state. *)
Definition members_ok (c : TcpClient) : Prop :=
  match cl_state_ c with
  | ClientState.DISCONNECTED => attempts (in_flight c) = 0%nat ∧ connection_ c = None
  | ClientState.CONNECTING => (attempts (in_flight c) ≤ 1)%nat ∧ connection_ c = None
  | ClientState.CONNECTED => attempts (in_flight c) = 0%nat ∧ is_Some (connection_ c)
  end.

(** Something is in flight that drives the connection on. *)
Definition driven_on (c : TcpClient) : Prop :=
  match cl_state_ c with
  | ClientState.DISCONNECTED => retrying (in_flight c)
  | ClientState.CONNECTING => attempts (in_flight c) = 1%nat
  | ClientState.CONNECTED => read_request ∈ in_flight c
  end.

(** A connection attempt is under way according to the state, and there is none. *)
Definition abandoned (c : TcpClient) : Prop :=
  cl_state_ c = ClientState.CONNECTING ∧ attempts (in_flight c) = 0%nat ∧ connection_ c = None.

Lemma attempts_app l1 l2 : attempts (l1 ++ l2) = (attempts l1 + attempts l2)%nat.
Proof. unfold attempts. by rewrite filter_app, length_app. Qed.

Lemma attempts_cons p l : attempts (p :: l) = ((if is_connect p then 1 else 0) + attempts l)%nat.
Proof. unfold attempts. rewrite filter_cons. by destruct (is_connect p). Qed.

(** Solves what is left of an invariant after a callback. *)
Ltac client_solve :=
  unfold members_ok, driven_on, abandoned, retrying in *; simpl in *;
  rewrite ?attempts_app, ?attempts_cons, ?elem_of_app, ?elem_of_cons in *;
  change (attempts []) with 0%nat in *; simpl in *;
  repeat match goal with H : _ ∧ _ |- _ => destruct H end; subst; simpl;
  intuition (eauto; try done; try lia; try set_solver).

Lemma complete_keeps room l1 p l2 r c c' :
  in_flight c = l1 ++ p :: l2 → complete room p r (c <| in_flight := l1 ++ l2 |>) = Some c' →
  (members_ok c → members_ok c') ∧ (abandoned c → abandoned c') ∧
  (room = true → members_ok c → driven_on c → driven_on c').
Proof.
  destruct c as [st conn fl]. simpl. intros ->.
  destruct p as [|sock|data|data| | |]; simpl; [..|intros [= <-]|intros [= <-]].
  - intros [= <-]. destruct (res r <? 0), room, st; client_solve.
  - intros [= <-]. destruct (0 <=? res r), room, st; client_solve.
  - intros [= <-]. destruct conn, room, st; client_solve.
  - intros [= <-]. destruct (res r <? 0), st; client_solve.
  - destruct (bytes r); [intros [= <-]|destruct conn; [intros [= <-]|done]]; destruct room, st; client_solve.
  - destruct room, st; client_solve.
  - destruct st; client_solve.
Qed.

Lemma send_keeps data c :
  (members_ok c → members_ok (send data c)) ∧ (abandoned c → abandoned (send data c)) ∧
  (members_ok c → driven_on c → driven_on (send data c)).
Proof.
  destruct c as [st conn fl]. unfold send, is_connected. simpl. destruct conn, st; simpl; client_solve.
Qed.

Lemma run_keeps entries c0 c :
  client_run entries c0 c →
  (members_ok c0 → members_ok c) ∧ (abandoned c0 → abandoned c) ∧
  (entries = true → members_ok c0 → driven_on c0 → driven_on c).
Proof.
  induction 1 as [|c c' _ (IH1 & IH2 & IH3) Hstep]; [done|].
  remember (Some c') as oc eqn:Heq. destruct Hstep as [c data|c l1 p l2 room r Hfl Hroom].
  - injection Heq as <-. destruct (send_keeps data c) as (H1 & H2 & H3). auto.
  - destruct (complete_keeps room l1 p l2 r c c' Hfl Heq) as (H1 & H2 & H3). auto 10.
Qed.

Lemma connect_ok : members_ok (connect new_client) ∧ driven_on (connect new_client).
Proof. client_solve. Qed.

Lemma run_complete entries room c0 c l1 p l2 r c' :
  client_run entries c0 c → in_flight c = l1 ++ p :: l2 → (entries = true → room = true) →
  complete room p r (c <| in_flight := l1 ++ l2 |>) = Some c' → client_run entries c0 c'.
Proof.
  intros Hc Hfl Hroom Heq. eapply run_step; [exact Hc|]. rewrite <- Heq. by apply step_complete.
Qed.

(** ** Failover *)

(** The replicas [send_message] tries, in order. *)
Definition try_order (target total : Z) (n : nat) : list Z :=
  (λ k, (target + Z.of_nat k) mod total) <$> seq 0 n.

Lemma try_order_S target total n :
  0 ≤ target < total →
  try_order target total (S n) = target :: try_order ((target + 1) mod total) total n.
Proof.
  intros Ht. unfold try_order. cbn [seq fmap list_fmap]. rewrite Z.add_0_r, Z.mod_small by done.
  f_equal. rewrite <- fmap_S_seq, <- list_fmap_compose. apply list_fmap_ext. intros i k _. simpl.
  rewrite Zplus_mod_idemp_l. f_equal. lia.
Qed.

Lemma find_ext {A} (f g : A → bool) l : (∀ x, f x = g x) → List.find f l = List.find g l.
Proof. intros H. induction l as [|x l IH]; simpl; [done|]. rewrite H. by destruct (g x). Qed.

Section failover.
Variable blake3 : list byte → list byte.

Lemma send_loop_spec n msg total c :
  0 < total → 0 ≤ current_target_replica_id c < total →
  let c' := (send_loop blake3 n msg total c).1 in
  let to := (send_loop blake3 n msg total c).2 in
  to = List.find (λ id, target_connected id c) (try_order (current_target_replica_id c) total n) ∧
  match to with
  | Some id =>
      current_target_replica_id c' = id ∧
      ∃ cl, clients c !! id = Some cl ∧
        clients c' = <[id := send (default [] (vsr_serialize blake3 msg)) cl]> (clients c)
  | None =>
      clients c' = clients c ∧
      current_target_replica_id c' = (current_target_replica_id c + Z.of_nat n) mod total
  end.
Proof.
  intros Htot. revert c. induction n as [|n IH]; intros c Ht.
  { simpl. rewrite Z.add_0_r, Z.mod_small by done. done. }
  rewrite try_order_S by done. cbn [send_loop List.find].
  assert (∃ c1, advance_to_next_replica total c = c1 ∧ clients c1 = clients c ∧
    current_target_replica_id c1 = (current_target_replica_id c + 1) mod total) as (c1 & -> & H1 & H2).
  { eexists. split_and!; [done|done|]. simpl. apply Z.rem_mod_nonneg; lia. }
  destruct (IH c1) as [IH1 IH2]; [rewrite H2; apply Z.mod_pos_bound; lia|].
  assert (∀ id, target_connected id c1 = target_connected id c) as Htc
    by (intros; unfold target_connected; by rewrite H1).
  rewrite H2, H1 in *. unfold target_connected at 1 2.
  destruct (clients c !! current_target_replica_id c) as [cl|] eqn:Hcl;
    [destruct (is_connected cl) eqn:Hconn|].
  { cbn. split_and!; eauto. }
  all: split; [rewrite IH1; by apply find_ext|]; destruct (send_loop blake3 n msg total c1).2;
    [exact IH2|]; destruct IH2 as [-> ->]; split; [done|]; rewrite Zplus_mod_idemp_l; f_equal; lia.
Qed.
End failover.

(** ** Reading commands *)

Lemma read_word_token w r :
  is_token w → match r with [] => True | c :: _ => isspace c = true end →
  read_word (w ++ r) = Some (w, r).
Proof.
  intros Hw Hr. unfold read_word. rewrite skip_ws_token by done. destruct Hw as [Hne Hw].
  pose proof (word_token w r Hw Hr) as E. destruct w; [done|]. simpl in *. by rewrite E.
Qed.

Lemma read_word_space w r :
  is_token w → match r with [] => True | c :: _ => isspace c = true end →
  read_word (lit " " ++ w ++ r) = Some (w, r).
Proof. intros Hw Hr. exact (read_word_token w r Hw Hr). Qed.

(** ** Properties *)

(** C34: A client connection keeps trying as long as the event loop has entries: in every
    state that sends and completions, in any order and with any results, can lead to, a
    disconnected client has a reconnect timer running, a connecting one has exactly one
    attempt in flight, and a connected one has a read in flight.  But a submission
    queue that is full at one connection attempt ends it: the state stays CONNECTING with
    no attempt in flight, whatever completes or is sent after that. *)
Theorem client_keeps_trying :
  (∀ c, client_run true (connect new_client) c → members_ok c ∧ driven_on c) ∧
  (∀ c l1 l2 r c', client_run false (connect new_client) c → in_flight c = l1 ++ connect_task :: l2 → 0 ≤ res r →
     complete false connect_task r (c <| in_flight := l1 ++ l2 |>) = Some c' →
     ∀ c'', client_run false c' c'' →
       cl_state_ c'' = ClientState.CONNECTING ∧ attempts (in_flight c'') = 0%nat ∧ is_connected c'' = false).
Proof.
  destruct connect_ok as [H1 H2]. split.
  - intros c Hc. destruct (run_keeps _ _ _ Hc) as (K1 & _ & K3). auto.
  - intros c l1 l2 r c' Hc Hfl Hr Heq c'' Hrun. destruct (run_keeps _ _ _ Hc) as (K1 & _). specialize (K1 H1).
    assert (abandoned c') as Ha.
    { simpl in Heq. rewrite (proj2 (Z.ltb_ge _ _) Hr) in Heq. injection Heq as <-.
      destruct c as [st conn fl]. simpl in *. subst fl. destruct st; client_solve. }
    destruct (run_keeps _ _ _ Hrun) as (_ & K2 & _). destruct (K2 Ha) as (E1 & E2 & _).
    unfold is_connected. by rewrite E1.
Qed.

(** A read that completes with data after a failed write has already torn the
    connection down dereferences a null pointer: a state from which the next
    callback crashes the client is reachable. *)
Theorem late_read_crashes : ∃ c, client_run true (connect new_client) c ∧ client_step true c None.
Proof.
  pose (ok := {| res := 5; bytes := [] |}). pose (fail := {| res := -32; bytes := [] |}).
  pose (at_ st conn l := {| cl_state_ := st; connection_ := conn; in_flight := l |}).
  set (run := client_run true (connect new_client)).
  assert (run (at_ ClientState.CONNECTING None [connect_request 5])) as H1
    by (by apply (run_complete true true _ _ [] connect_task [] ok _ (run_start _ _))).
  assert (run (at_ ClientState.CONNECTED (Some 5) [read_request])) as H2
    by (by apply (run_complete true true _ _ [] (connect_request 5) [] ok _ H1)).
  pose proof (run_step _ _ _ _ H2 (step_send _ _ [])) as H3.
  assert (run (at_ ClientState.CONNECTED (Some 5) [read_request; write_request []])) as H4
    by (by apply (run_complete true true _ _ [read_request] (write_task []) [] ok _ H3)).
  assert (run (at_ ClientState.DISCONNECTED None [read_request; timer_task])) as H5
    by (by apply (run_complete true true _ _ [read_request] (write_request []) [] fail _ H4)).
  eexists. split; [exact H5|].
  by apply (step_complete true (at_ ClientState.DISCONNECTED None [read_request; timer_task])
    [] read_request [timer_task] true {| res := 1; bytes := [Byte.x00] |}).
Qed.

(** [send_message] numbers the message and sends it to exactly one replica: the
    first connected one in cyclic order from the current target, which becomes the
    new target; if no replica is connected nothing is sent and the target is where it
    was.  The request number is consumed either way. *)
Theorem send_message_failover (blake3 : list byte → list byte) msg total c :
  0 < total → 0 ≤ current_target_replica_id c < total →
  let c1 := c <| next_request_number := u32 (next_request_number c + 1) |> in
  let c' := (client_send_message blake3 msg total c).1 in
  let to := (client_send_message blake3 msg total c).2 in
  to = List.find (λ id, target_connected id c)
         (try_order (current_target_replica_id c) total (Z.to_nat total)) ∧
  match to with
  | Some id =>
      current_target_replica_id c' = id ∧
      ∃ cl, clients c !! id = Some cl ∧
        clients c' = <[id := send (default [] (vsr_serialize blake3 (numbered msg c))) cl]> (clients c)
  | None => clients c' = clients c ∧ current_target_replica_id c' = current_target_replica_id c
  end.
Proof.
  intros Htot Ht c1 c' to. subst c' to. unfold client_send_message.
  destruct (send_loop_spec blake3 (Z.to_nat total) (numbered msg c) total c1 Htot Ht) as [Hto Hm].
  split; [exact Hto|]. fold c1. destruct (send_loop blake3 _ _ _ _).2; [exact Hm|].
  destruct Hm as [H1 H2]. split; [exact H1|]. rewrite H2, Z2Nat.id by lia. simpl.
  rewrite Z.add_mod, Z.mod_same, Z.add_0_r, Z.mod_mod by lia. by apply Z.mod_small.
Qed.

(** C35: The command [set k v] becomes a request whose execution writes exactly [v]
    under [k], and [get k] one whose execution returns what is stored under [k]. *)
Theorem commands_mean_what_they_say (blake3 : list byte → list byte) k v c sm :
  is_token k → is_token v →
  (∃ c' m to, handle_line blake3 (lit "set " ++ k ++ lit " " ++ v) c = Some (c', Some (m, to)) ∧
     h_command (header m) = command.request ∧
     (apply_operation (h_operation (header m)) (payload m) sm).1 = <[k := v]> sm) ∧
  (∃ c' m to, handle_line blake3 (lit "get " ++ k) c = Some (c', Some (m, to)) ∧
     h_command (header m) = command.request ∧
     apply_operation (h_operation (header m)) (payload m) sm
     = (sm, default (lit "NOT_FOUND") (sm !! k))).
Proof.
  intros Hk Hv. unfold handle_line.
  assert (∀ w, is_token w → read_word (lit " " ++ w) = Some (w, [])) as Hlast.
  { intros w Hw. rewrite <- (app_nil_r w) at 1. by apply read_word_space. }
  split.
  - change (lit "set " ++ k ++ lit " " ++ v) with (lit "set" ++ (lit " " ++ k ++ lit " " ++ v)).
    rewrite !bool_decide_eq_false_2 by (intros [=]). cbn [orb].
    rewrite read_word_token by (done || (split; [done|repeat constructor])).
    rewrite !bool_decide_eq_false_2 by done. rewrite bool_decide_eq_true_2 by done.
    rewrite read_word_space, Hlast by done.
    destruct (client_send_message _ _ _ _) as [c' to]. do 3 eexists. split_and!; [reflexivity|done|].
    change ((apply_operation operation.set (set_payload k v) sm).1 = <[k := v]> sm). by rewrite apply_set.
  - change (lit "get " ++ k) with (lit "get" ++ (lit " " ++ k)).
    rewrite !bool_decide_eq_false_2 by (intros [=]). cbn [orb].
    rewrite read_word_token by (done || (split; [done|repeat constructor])).
    rewrite !bool_decide_eq_false_2 by done. rewrite bool_decide_eq_true_2 by done.
    rewrite Hlast by done.
    destruct (client_send_message _ _ _ _) as [c' to]. do 3 eexists. split_and!; [reflexivity|done|].
    by apply apply_get.
Qed.

(** Every client process uses the same client id and starts numbering at 1, so
    once some client has had two requests accepted, the first request of a client
    started afterwards is taken for an old one: it is not logged and not answered. *)
Theorem restarted_client_ignored msg connection r :
  1 < request_number (client_entry self_client_id (state_ r)) →
  let inb := {| ib_connection := connection; ib_message := numbered msg client_main |} in
  (handle_request inb r).2 = [] ∧ log_ (state_ (handle_request inb r).1) = log_ (state_ r).
Proof. intros Hn. unfold handle_request. simpl. by rewrite (proj2 (Z.ltb_lt _ _) Hn). Qed.

(** ** Witnesses *)

(** The attempt to connect succeeds on socket 5 and is driven on by a read; or it finds
    the submission queue full. *)
Lemma client_keeps_trying_witness :
  driven_on {| cl_state_ := ClientState.CONNECTED; connection_ := Some 5; in_flight := [read_request] |} ∧
  is_connected {| cl_state_ := ClientState.CONNECTING; connection_ := None; in_flight := [] |} = false.
Proof.
  destruct client_keeps_trying as [H1 H2]. pose (ok := {| res := 5; bytes := [] |}). split.
  - apply H1. refine (run_complete true true _ _ [] (connect_request 5) [] ok _
      (run_complete true true _ _ [] connect_task [] ok _ (run_start _ _) _ _ _) _ _ _); reflexivity || done.
  - refine (proj2 (proj2 (H2 _ [] [] ok _ (run_start _ _) _ _ _ _ (run_start _ _)))); reflexivity || done.
Defined.

(** Connected to replica 2 only. *)
Definition sample_client : Client :=
  client_main <| clients := <[2 := {| cl_state_ := ClientState.CONNECTED; connection_ := Some 5;
                                      in_flight := [read_request] |}]> (clients client_main) |>.

Lemma send_message_failover_witness :
  (client_send_message toy_hash ping_message 3 sample_client).2 = Some 2.
Proof.
  rewrite (proj1 (send_message_failover toy_hash ping_message 3 sample_client ltac:(lia)
    ltac:(vm_compute; split; congruence))). vm_compute. reflexivity.
Defined.

Lemma commands_mean_what_they_say_witness :
  ∃ c' m to, handle_line toy_hash (lit "set lang c++") sample_client = Some (c', Some (m, to)) ∧
    (apply_operation (h_operation (header m)) (payload m) ∅).1 = {[lit "lang" := lit "c++"]}.
Proof.
  destruct (commands_mean_what_they_say toy_hash (lit "lang") (lit "c++") sample_client ∅)
    as [(c' & m & to & H1 & _ & H2) _]; [split; [done|repeat constructor]..|].
  exists c', m, to. split; [exact H1|exact H2].
Defined.

Lemma restarted_client_ignored_witness :
  let r := (new_replica 0 main_cluster_config) <| state_ :=
    (new_replica_state 0 main_cluster_config) <| client_table_ :=
      {[self_client_id := {| request_number := 7; executed := true; result := lit "x" |}]} |> |> in
  (handle_request {| ib_connection := Some 1; ib_message := numbered (get_message (lit "k")) client_main |}
     r).2 = [].
Proof.
  apply (restarted_client_ignored (get_message (lit "k")) (Some 1)). vm_compute. reflexivity.
Defined.
