(* ===== verification/Node.v ===== *)
(** * One server process

    [src/server/server_main.cpp], [Replica::setup_networking] and the way the replica
    and the network layer call each other: messages read from connections are queued,
    and what the handlers send is serialized and written to connections. *)
From S2P Require Import Prelude Types Serialization KeyValue Message ReplicaState Replica Execution Handlers Queue Framing Network.

Record Node := { replica : Replica; net : Net }.

(** [Replica::setup_networking]: every other replica of the configuration is a peer. *)
Definition peers_to_connect (s : ReplicaState) : list Peer :=
  (λ kv, {| peer_id := kv.1; peer_host := pc_host kv.2; peer_port := pc_port kv.2;
            peer_state := PeerState.DISCONNECTED; peer_connection := None |})
    <$> filter (λ kv, kv.1 ≠ id_ s) (items (cluster_config_ s)).

(** What the system calls of the constructors return. *)
Record startup_results := {
  su_ring_init : Z;
  su_eventfd : Z;
  su_socket : Z;
  su_setsockopt : Z;
  su_bind : Z;
  su_listen : Z }.

(** [IoUringLoop::IoUringLoop], as far as its exceptions go. *)
Definition create_loop (su : startup_results) : list byte + Z :=
  if su_ring_init su <? 0 then inl (lit "Failed to initialize io_uring: ")
  else if su_eventfd su =? -1 then inl (lit "Failed to create eventfd: ")
  else inr (su_eventfd su).

(** The socket that the server listens on, or the exception. *)
Definition setup_listening_socket (su : startup_results) : list byte + Z :=
  if su_socket su <? 0 then inl (lit "Failed to create socket")
  else if su_setsockopt su <? 0 then inl (lit "setsockopt(SO_REUSEADDR) failed")
  else if su_bind su <? 0 then inl (lit "Bind failed")
  else if su_listen su <? 0 then inl (lit "Listen failed")
  else inr (su_socket su).

(** [Replica::Replica]: the loop is a member, then [setup_networking] runs, which throws
    where [cluster_config_.at(id)] does; [None] is an exception. *)
Definition setup_networking (su : startup_results) (id : Z) (cluster_config : list peer_config) : option Node :=
  let r := new_replica id cluster_config in
  match create_loop su with
  | inl _ => None
  | inr _ =>
      match cluster_config_ (state_ r) !! id with
      | None => None
      | Some _ =>
          match setup_listening_socket su with
          | inl _ => None
          | inr _ => Some {| replica := r; net := new_net id (peers_to_connect (state_ r)) |}
          end
      end
  end.

(** [main]: the arguments without the program name.  [inl] is the exit status, also
    for an exception of the constructor, which [main] catches; the exception of [stoi]
    it does not catch ([inr None]). *)
Definition server_main (su : startup_results) (args : list (list byte)) : Z + option Node :=
  match args with
  | [] => inl 1
  | arg :: _ =>
      match stoi arg with
      | None => inr None
      | Some self_id =>
          if existsb (λ p, pc_id p =? self_id) main_cluster_config then
            match setup_networking su self_id main_cluster_config with
            | Some nd => inr (Some nd)
            | None => inl 1
            end
          else inl 1
      end
  end.

Section node.
Context (env : Env) (blake3 : list byte → list byte).

(** The calls of [ProtocolHandler]: serialize, then write.  [None] is a null
    connection or a message too long for its size field. *)
Definition perform (o : output) (n : Net) : option (list effect) :=
  match o with
  | send_message connection msg =>
      c ← connection; data ← vsr_serialize blake3 msg; Some [io_write c data]
  | send_to_peer id msg => data ← vsr_serialize blake3 msg; Some (rm_send_to_peer id data n)
  | broadcast_to_peers msg =>
      data ← vsr_serialize blake3 msg; Some (rm_broadcast_to_peers data (-1) n)
  end.

Fixpoint perform_all (os : list output) (n : Net) : option (list effect) :=
  match os with
  | [] => Some []
  | o :: os => e ← perform o n; es ← perform_all os n; Some (e ++ es)
  end.

(** Delivered messages are queued; everything else is left to the event loop. *)
Definition enqueue_delivered (e : effect) (r : Replica) : Replica :=
  match e with deliver c m => enqueue_message (Some c) m r | _ => r end.

Definition is_io (e : effect) : bool := match e with deliver _ _ => false | _ => true end.

Inductive node_event :=
  | node_net (e : net_event)
  | node_process | node_heartbeat | node_liveness.

Definition handle_node_event (e : node_event) (nd : Node) : option (Node * list effect) :=
  let step ev :=
    let '(r, out) := handle_event env ev (replica nd) in
    effs ← perform_all out (net nd); Some ({| replica := r; net := net nd |}, effs) in
  match e with
  | node_net ne =>
      '(n, effs) ← handle_net_event blake3 ne (net nd);
      Some ({| replica := foldl (λ r e, enqueue_delivered e r) (replica nd) effs; net := n |},
            filter (λ e, is_io e = true) effs)
  | node_process => step ev_process_queue
  | node_heartbeat => step ev_heartbeat
  | node_liveness => step ev_liveness
  end.

(** ** Sends go to real connections *)

(** The connection of every queued message, and hence of every message answered, is
    not null. *)
Definition queue_connected (r : Replica) : Prop :=
  Forall (λ inb, is_Some (ib_connection inb)) (message_queue_ r).

Definition output_connected (o : output) : Prop :=
  match o with send_message c _ => is_Some c | _ => True end.

Lemma execute_loop_connected fuel r : Forall output_connected (execute_loop fuel r).2.
Proof.
  revert r. induction fuel as [|fuel IH]; intros r; [constructor|]. cbn [execute_loop].
  destruct (_ <? _); [|constructor]. destruct (_ !! _) as [e|]; [|constructor].
  pose proof (execute_op_outputs (u64 (last_executed_op_ (state_ r) + 1)) e r) as Ho.
  destruct (execute_op _ e r) as [r1 o1]. specialize (IH r1).
  destruct (execute_loop fuel r1) as [r2 o2]. simpl in *. apply Forall_app. split; [|done].
  apply Forall_forall. intros o (_ & c & res & -> & _)%Ho. by eexists.
Qed.

Lemma execute_connected r : Forall output_connected (execute_commited_ops r).2.
Proof. apply execute_loop_connected. Qed.

Lemma advance_connected r : Forall output_connected (advance_primary_commit_number r).2.
Proof.
  unfold advance_primary_commit_number. destruct (negb _); [constructor|]. apply execute_connected.
Qed.

Lemma retroactive_connected fuel k p s : Forall output_connected (retroactive_oks fuel k p s).
Proof.
  revert k. induction fuel as [|fuel IH]; intros k; [constructor|]. simpl.
  destruct (k <=? op_ s); [|constructor]. apply Forall_app. split; [|done].
  destruct (log_ s !! k); repeat constructor.
Qed.

Lemma handle_do_view_change_connected inb r :
  Forall output_connected (handle_do_view_change env inb r).2.
Proof.
  unfold handle_do_view_change. simpl. destruct (quorum _ _); [|constructor].
  destruct (_ ++ _); [constructor|]. destruct (select_log _ _ _ _) as [[bp bo] mc].
  match goal with |- context [execute_commited_ops ?r0] =>
    pose proof (execute_connected r0); destruct (execute_commited_ops r0) end.
  by constructor.
Qed.

(** Splits off the outputs of a loop and uses what is known of them. *)
Ltac connected :=
  match goal with |- context [execute_commited_ops ?r0] =>
    pose proof (execute_connected r0); destruct (execute_commited_ops r0) as [? ?] end;
  simpl in *; try done.

Lemma dispatch_connected inb r :
  is_Some (ib_connection inb) → Forall output_connected (dispatch env inb r).2.
Proof.
  intros Hc. unfold dispatch. destruct (h_command _); try constructor; try done.
  - unfold handle_request. simpl. repeat case_match; repeat constructor; done.
  - unfold handle_prepare. cbv zeta. case_match; [connected|]; by repeat constructor.
  - unfold handle_prepare_ok. case_match; [apply advance_connected|constructor].
  - unfold handle_commit. cbv zeta. case_match; [apply execute_connected|constructor].
  - unfold handle_start_view_change. simpl. case_match; [|constructor]. case_match; [|by repeat constructor].
    apply handle_do_view_change_connected.
  - apply handle_do_view_change_connected.
  - unfold handle_start_view. destruct (sv_deserialize _ _) as [[] p]; [|constructor]. cbn [negb].
    connected. apply Forall_app. split; [done|apply retroactive_connected].
  - unfold handle_recovery_request. destruct (rq_deserialize _ _) as [[] p]; by repeat constructor.
  - unfold handle_recovery_response. destruct (rr_deserialize _ _) as [[] p]; [|constructor]. cbn [negb].
    destruct (negb _); [constructor|]. simpl. destruct (quorum _ _); [|constructor].
    destruct (_ ++ _); [constructor|]. destruct (rr_deserialize _ _) as [? bp]. connected.
Qed.

Lemma handle_stuck_connected r : Forall output_connected (handle_stuck env r).2.
Proof.
  unfold handle_stuck. destruct (message_queue_ r); [constructor|].
  case_bool_decide; [|constructor]. destruct (determine_state_action _ _); [constructor|by repeat constructor|].
  unfold initiate_recovery. case_bool_decide; simpl; by repeat constructor.
Qed.

Lemma handle_stuck_queue_connected r :
  queue_connected r → queue_connected (handle_stuck env r).1.
Proof.
  intros Hq. unfold queue_connected. destruct (handle_stuck_queue env r) as [->| ->]; [done|constructor].
Qed.

Lemma micro_connected r o r' :
  micro env r o r' → queue_connected r → Forall output_connected o ∧ queue_connected r'.
Proof.
  destruct 1 as [r front rest Hq Hst|r front rest r' o Hq Hst Hc Hd|r front rest r' o Hq Hst Hc Hn Hh];
    unfold queue_connected; intros Hall.
  - rewrite Hq in Hall. apply Forall_cons in Hall as [_ Hall]. split; [constructor|done].
  - rewrite Hq in Hall. apply Forall_cons in Hall as [Hf Hall].
    pose proof (dispatch_connected front (r <| message_queue_ := rest |>) Hf) as Ho.
    pose proof (frame_queue _ _ (dispatch_frame env front (r <| message_queue_ := rest |>))) as Hq'.
    rewrite Hd in Ho, Hq'. cbn [fst] in Hq'. split; [done|]. by rewrite Hq'.
  - pose proof (handle_stuck_connected r) as Ho. pose proof (handle_stuck_queue_connected r Hall) as Hq'.
    by rewrite Hh in Ho, Hq'.
Qed.

Lemma micros_connected r o r' :
  micros env r o r' → queue_connected r → Forall output_connected o ∧ queue_connected r'.
Proof.
  induction 1 as [|r o r1 o' r2 Hm _ IH]; intros Hr; [by split|].
  destruct (micro_connected _ _ _ Hm Hr) as [H1 H2]. destruct (IH H2) as [H3 H4].
  split; [by apply Forall_app|done].
Qed.

(** ** Bytes on the wire become queued messages *)

(** The reads [chunks] from connection [c]. *)
Fixpoint node_reads (c : Z) (chunks : list (list byte)) (nd : Node) : option Node :=
  match chunks with
  | [] => Some nd
  | data :: chunks =>
      '(nd, _) ← handle_node_event (node_net (ne_read c data)) nd; node_reads c chunks nd
  end.

Definition enqueue_all (c : Z) (msgs : list vsr_message) (r : Replica) : Replica :=
  foldl (λ r m, enqueue_message (Some c) m r) r msgs.

Lemma enqueue_delivered_all c msgs e r :
  (∀ r, enqueue_delivered e r = r) →
  foldl (λ r e, enqueue_delivered e r) r ((deliver c <$> msgs) ++ [e]) = enqueue_all c msgs r.
Proof.
  intros He. revert r. induction msgs as [|m msgs IH]; intros r; simpl; [apply He|]. apply IH.
Qed.

Lemma conn_at_set c o n : conn_at c (set_conn c o n) = o.
Proof. unfold conn_at. simpl. by rewrite lookup_insert_eq. Qed.

Lemma handle_raw_data_state o d bufs :
  conn_state_ (handle_raw_data blake3 o d bufs).1.1 = conn_state_ o.
Proof.
  unfold handle_raw_data. destruct (_ =? _); [done|]. destruct (frame_loop _ _ _) as [ms [b|]]; [done|].
  simpl. unfold close_socket. by destruct (negb _).
Qed.

Lemma node_reads_spec c chunks nd :
  conn_state_ (conn_at c (net nd)) ≠ TcpState.UNIDENTIFIED → Forall (λ d, d ≠ []) chunks →
  ∃ nd', node_reads c chunks nd = Some nd' ∧
    replica nd' = enqueue_all c
      (handle_reads blake3 (conn_at c (net nd)) chunks (connection_buffers_ (net nd))).2 (replica nd) ∧
    (conn_at c (net nd'), connection_buffers_ (net nd')) =
      (handle_reads blake3 (conn_at c (net nd)) chunks (connection_buffers_ (net nd))).1.
Proof.
  intros Hst Hne. revert nd Hst. induction Hne as [|d chunks Hd _ IH]; intros nd Hst; [by eexists|].
  destruct d as [|b d]; [done|]. cbn [node_reads handle_node_event handle_net_event on_read handle_reads].
  rewrite bool_decide_eq_false_2 by done. unfold on_message.
  pose proof (handle_raw_data_state (conn_at c (net nd)) (b :: d) (connection_buffers_ (net nd))) as Hstate.
  destruct (handle_raw_data _ _ (b :: d) _) as [[o bufs] ms]. cbn [fst] in Hstate.
  cbn [mbind option_bind].
  rewrite enqueue_delivered_all by done.
  edestruct IH as (nd' & Hr & Hrep & Hnet); [|exists nd'; split; [exact Hr|]].
  - cbn [net]. unfold conn_at. simpl. rewrite lookup_insert_eq. simpl. by rewrite Hstate.
  - clear IH Hr. revert Hrep Hnet. cbn [net replica].
    assert (conn_at c ((set_conn c o (net nd)) <| connection_buffers_ := bufs |>) = o) as -> by apply conn_at_set.
    cbn [connection_buffers_ setf].
    destruct (handle_reads blake3 o chunks bufs) as [[o' bufs'] ms']. cbn [fst snd].
    intros -> ->. split; [|done]. unfold enqueue_all. by rewrite foldl_app.
Qed.
End node.

Lemma enqueue_all_queue c msgs r :
  message_queue_ (enqueue_all c msgs r)
    = message_queue_ r ++ ((λ m, {| ib_connection := Some c; ib_message := m |}) <$> msgs) ∧
  posted (enqueue_all c msgs r) = (posted r + length msgs)%nat ∧
  state_ (enqueue_all c msgs r) = state_ r.
Proof.
  revert r. induction msgs as [|m msgs IH]; intros r; simpl; [by rewrite app_nil_r, Nat.add_0_r|].
  destruct (IH (enqueue_message (Some c) m r)) as (H1 & H2 & H3). rewrite H1, H2, H3. simpl.
  rewrite <- (assoc_L (++)). split_and!; [done|lia|done].
Qed.

(** ** Properties *)

(** C28: A replica only ever answers on real connections: as long as the queued
    messages came in on connections, no event makes it send on a null connection,
    and the queue stays that way. *)
Theorem sends_never_null env e r :
  queue_connected r → match e with ev_message c _ => is_Some c | _ => True end →
  Forall output_connected (handle_event env e r).2 ∧ queue_connected (handle_event env e r).1.
Proof.
  intros Hq He. destruct e as [c m| | |]; cbn [handle_event].
  - split; [constructor|]. apply Forall_app. split; [done|]. by repeat constructor.
  - destruct (posted r) as [|n]; [split; [constructor|done]|].
    destruct (process_message_queue env (r <| posted := n |>)) as [r' o] eqn:Hp.
    apply process_micros, micros_connected in Hp; done.
  - split; [|done]. unfold send_commit_message_if_needed. simpl. case_match; by repeat constructor.
  - unfold check_primary_liveness. destruct (_ && _); [|split; [constructor|done]].
    destruct (_ <? _); [|split; [constructor|done]].
    split; [by repeat constructor|]. unfold queue_connected.
    by rewrite (frame_queue _ _ (initiate_view_change_frame _)).
Qed.

(** C27: From socket to queue: when the bytes of serialized messages of at most
    64 KiB arrive on an identified connection, cut into reads in any way, the node
    queues exactly these messages, in order and with that connection, posts one
    processing task for each, and changes nothing else of the replica's state. *)
Theorem wire_to_queue env (blake3 : list byte → list byte) nd c chunks ms ss :
  (∀ l, length (blake3 l) = 32%nat) → Forall (λ m, header_wf (header m)) ms →
  Forall2 (λ m s, vsr_serialize blake3 m = Some s ∧ Z.of_nat (length s) ≤ 65536) ms ss →
  concat chunks = concat ss → chunks ≠ [] → Forall (λ d, d ≠ []) chunks →
  conn_state_ (conn_at c (net nd)) ≠ TcpState.UNIDENTIFIED →
  socket_fd_ (conn_at c (net nd)) ≠ -1 →
  connection_buffers_ (net nd) !! socket_fd_ (conn_at c (net nd)) = None →
  ∃ nd', node_reads env blake3 c chunks nd = Some nd' ∧
    message_queue_ (replica nd') = message_queue_ (replica nd) ++
      ((λ m, {| ib_connection := Some c; ib_message := prepare_message blake3 m |}) <$> ms) ∧
    posted (replica nd') = (posted (replica nd) + length ms)%nat ∧
    state_ (replica nd') = state_ (replica nd).
Proof.
  intros Hlen Hwf Hall Hcat Hne Hchunks Hst Hfd Hb.
  destruct (node_reads_spec env blake3 c chunks nd Hst Hchunks) as (nd' & Hr & Hrep & _).
  exists nd'. split; [done|]. rewrite Hrep, handle_reads_fresh by done.
  rewrite Hcat, <- (app_nil_r (concat ss)), (frames_messages blake3 ms) by done.
  rewrite frames_unfold. simpl. rewrite app_nil_r.
  destruct (enqueue_all_queue c (prepare_message blake3 <$> ms) (replica nd)) as (H1 & H2 & H3).
  rewrite H1, H2, H3, length_fmap. split_and!; [|done|done]. by rewrite <- list_fmap_compose.
Qed.

(** All system calls of the constructors succeed. *)
Definition startup_ok (su : startup_results) : Prop :=
  0 ≤ su_ring_init su ∧ su_eventfd su ≠ -1 ∧ 0 ≤ su_socket su ∧ 0 ≤ su_setsockopt su ∧ 0 ≤ su_bind su ∧
  0 ≤ su_listen su.

Lemma setup_networking_spec su id :
  id ∈ [0; 1; 2] →
  match setup_networking su id main_cluster_config with
  | None => ¬ startup_ok su
  | Some nd => startup_ok su ∧ nd = {| replica := new_replica id main_cluster_config;
      net := new_net id (peers_to_connect (new_replica_state id main_cluster_config)) |}
  end.
Proof.
  intros Hid. unfold setup_networking, create_loop, setup_listening_socket, startup_ok.
  assert (is_Some (cluster_config_ (state_ (new_replica id main_cluster_config)) !! id)) as [p Hp].
  { assert (id = 0 ∨ id = 1 ∨ id = 2) as [->|[->| ->]] by set_solver; by eexists. }
  repeat case_match; simplify_eq; split_and?; try done; lia.
Qed.

(** [main] started with the decimal notation of an [int] runs the replica of that id
    with the other two as its peers, all disconnected, if the id is in the cluster
    configuration and the system calls of the constructors succeed, and exits with
    status 1 otherwise. *)
Theorem server_main_starts_configured_replica su id :
  - 2 ^ 31 ≤ id < 2 ^ 31 →
  match server_main su [to_string id] with
  | inl status => status = 1 ∧ ¬ (id ∈ [0; 1; 2] ∧ startup_ok su)
  | inr None => False
  | inr (Some nd) =>
      (id ∈ [0; 1; 2] ∧ startup_ok su) ∧ replica nd = new_replica id main_cluster_config ∧
      dom (peers (net nd)) = {[0; 1; 2]} ∖ {[id]} ∧ all_disconnected (net nd)
  end.
Proof.
  intros Hid. unfold server_main. rewrite <- (app_nil_r (to_string id)), stoi_to_string by done.
  destruct (decide (id ∈ [0; 1; 2])) as [Hin|Hni].
  - pose proof (setup_networking_spec su id Hin) as Hs.
    assert (existsb (λ p, pc_id p =? id) main_cluster_config = true) as ->
      by (assert (id = 0 ∨ id = 1 ∨ id = 2) as [->|[->| ->]] by set_solver; reflexivity).
    destruct (setup_networking su id main_cluster_config) as [nd|]; [|naive_solver].
    destruct Hs as [Hok ->]. split; [done|]. split; [done|].
    assert (id = 0 ∨ id = 1 ∨ id = 2) as [->|[->| ->]] by set_solver;
      (split; [vm_compute; reflexivity|]); apply (bool_decide_unpack _); vm_compute; exact I.
  - assert (0 ≠ id ∧ 1 ≠ id ∧ 2 ≠ id) as (H0 & H1 & H2) by set_solver. cbn [existsb main_cluster_config pc_id].
    rewrite !(proj2 (Z.eqb_neq _ _)) by done. naive_solver.
Qed.

(** ** Witnesses *)

Lemma sends_never_null_witness :
  Forall output_connected
    (handle_event sample_env ev_process_queue (sample_queued 0 [sample_inbound command.ping 0])).2.
Proof.
  apply (sends_never_null sample_env ev_process_queue (sample_queued 0 [sample_inbound command.ping 0]));
    [repeat constructor; by eexists|exact I].
Defined.

Definition sample_node : Node := {| replica := new_replica 0 main_cluster_config; net := sample_identified |}.

Lemma wire_to_queue_witness :
  ∃ nd', node_reads sample_env toy_hash 0 [take 50 sample_bytes; drop 50 sample_bytes] sample_node = Some nd' ∧
    message_queue_ (replica nd')
    = [{| ib_connection := Some 0; ib_message := prepare_message toy_hash sample_message |}].
Proof.
  destruct (wire_to_queue sample_env toy_hash sample_node 0 [take 50 sample_bytes; drop 50 sample_bytes]
    [sample_message] [sample_bytes]) as (nd' & Hr & Hq & _);
    [apply toy_hash_len
    |repeat (constructor; [apply sample_message_wf|]); constructor
    |constructor; [split; [vm_compute; reflexivity|vm_compute; congruence]|constructor]
    |vm_compute; reflexivity|congruence|repeat constructor; vm_compute; congruence
    |vm_compute; congruence|vm_compute; congruence|vm_compute; reflexivity|].
  exists nd'. split; [exact Hr|exact Hq].
Defined.

Lemma server_main_starts_configured_replica_witness :
  let su := {| su_ring_init := 0; su_eventfd := 3; su_socket := 4; su_setsockopt := 0; su_bind := -1; su_listen := 0 |} in
  match server_main su [to_string 1] with inl status => status = 1 | inr _ => False end.
Proof.
  intros su. pose proof (server_main_starts_configured_replica su 1 ltac:(lia)) as H.
  destruct (server_main su [to_string 1]) as [status|[nd|]]; [apply H| |exact H].
  destruct H as [[_ H] _]. unfold startup_ok in H. simpl in H. lia.
Defined.
