(* ===== verification/Cluster.v ===== *)
(** * A cluster of replicas

    The replicas of [src/server/server_main.cpp]'s configuration and the messages in
    flight between them.  [Framing] and [Node] show that what one node writes to a
    connection another one queues unchanged, so messages travel here as values; the
    connection of a peer is named by the peer's id, and client connections by other
    numbers.  A replica that gets no more events has crashed. *)
From S2P Require Import Prelude Types Serialization KeyValue ReplicaState Replica Execution Handlers Queue.

Record packet := { pk_src : Z; pk_dst : Z; pk_msg : vsr_message }.

Record Cluster := { cl_replicas : gmap Z Replica; cl_network : list packet }.

Definition cluster_ids : list Z := pc_id <$> main_cluster_config.

(** All replicas just started. *)
Definition new_cluster (env : Env) : Cluster := {|
  cl_replicas := list_to_map ((λ i, (i, run env (new_replica i main_cluster_config))) <$> cluster_ids);
  cl_network := [] |}.

(** Where an output of replica [src] goes; replies to clients leave the cluster. *)
Definition route (src : Z) (o : output) : list packet :=
  let to d m := {| pk_src := src; pk_dst := d; pk_msg := m |} in
  match o with
  | send_message (Some c) m => if bool_decide (c ∈ cluster_ids) then [to c m] else []
  | send_message None _ => []
  | send_to_peer p m => if bool_decide (p ∈ cluster_ids) && negb (p =? src) then [to p m] else []
  | broadcast_to_peers m => (λ p, to p m) <$> filter (λ p, p ≠ src) cluster_ids
  end.

Inductive cluster_event :=
  | ce_deliver (k : nat)
  | ce_lose (k : nat)
  | ce_client (dst connection : Z) (m : vsr_message)
  | ce_process (i : Z)
  | ce_heartbeat (i : Z)
  | ce_liveness (i : Z)
  | ce_restart (i : Z).

Section cluster.
Context (env : Env).

(** Replica [i] handles an event. *)
Definition on_replica (i : Z) (e : event) (c : Cluster) : Cluster :=
  match cl_replicas c !! i with
  | None => c
  | Some r =>
      let '(r, out) := handle_event env e r in
      {| cl_replicas := <[i := r]> (cl_replicas c);
         cl_network := cl_network c ++ concat (route i <$> out) |}
  end.

Definition remove_packet (k : nat) (c : Cluster) : Cluster :=
  {| cl_replicas := cl_replicas c; cl_network := take k (cl_network c) ++ drop (S k) (cl_network c) |}.

(** A restarted process has lost its memory and starts like a new one. *)
Definition cluster_step (ce : cluster_event) (c : Cluster) : Cluster :=
  match ce with
  | ce_deliver k =>
      match cl_network c !! k with
      | None => c
      | Some p => on_replica (pk_dst p) (ev_message (Some (pk_src p)) (pk_msg p)) (remove_packet k c)
      end
  | ce_lose k => remove_packet k c
  | ce_client dst connection m => on_replica dst (ev_message (Some connection) m) c
  | ce_process i => on_replica i ev_process_queue c
  | ce_heartbeat i => on_replica i ev_heartbeat c
  | ce_liveness i => on_replica i ev_liveness c
  | ce_restart i =>
      {| cl_replicas := <[i := run env (new_replica i main_cluster_config)]> (cl_replicas c);
         cl_network := cl_network c |}
  end.

(** What replica [i] sends in an event, to clients too. *)
Definition outputs_of (i : Z) (e : event) (c : Cluster) : list output :=
  match cl_replicas c !! i with None => [] | Some r => (handle_event env e r).2 end.

Definition event_outputs (i : Z) (ce : cluster_event) (c : Cluster) : list output :=
  match ce with
  | ce_process j => if decide (j = i) then outputs_of i ev_process_queue c else []
  | ce_heartbeat j => if decide (j = i) then outputs_of i ev_heartbeat c else []
  | ce_liveness j => if decide (j = i) then outputs_of i ev_liveness c else []
  | ce_deliver _ | ce_lose _ | ce_client _ _ _ | ce_restart _ => []
  end.

Definition cluster_run (ces : list cluster_event) (c : Cluster) : Cluster :=
  foldl (λ c ce, cluster_step ce c) c ces.
End cluster.

Definition state_of (i : Z) (c : Cluster) : option ReplicaState := state_ <$> cl_replicas c !! i.

(** A clock that advances ten seconds per reading. *)
Definition fast_env : Env :=
  {| steady_now := λ n, 10000000000 * Z.of_nat n; raw_ts := λ n, (Z.of_nat n, 0); garbage := 0 |}.

(** ** A view change that stops half way *)

(** The primary has crashed.  Replica 1 times out and starts the change to view 1;
    replica 2 joins because of its StartViewChange; replica 1 receives replica 2's. *)
Definition join_by_message : list cluster_event :=
  [ce_liveness 1; ce_lose 0; ce_deliver 0; ce_process 2; ce_lose 0; ce_deliver 0; ce_process 1].

Definition half_way : Cluster := cluster_run fast_env join_by_message (new_cluster fast_env).

(** Events at the two live replicas that are not contacts by a client. *)
Definition quiet (ce : cluster_event) : Prop :=
  match ce with
  | ce_deliver _ | ce_lose _ => True
  | ce_process i | ce_heartbeat i | ce_liveness i => i = 1 ∨ i = 2
  | ce_client _ _ _ | ce_restart _ => False
  end.

Lemma quiet_half_way ce : quiet ce → cluster_step fast_env ce half_way = half_way.
Proof.
  assert (cl_network half_way = []) as Hnet by (vm_compute; reflexivity).
  destruct ce as [k|k|dst conn m|i|i|i|i]; unfold quiet; [| |intros []|..|intros []].
  - intros _. unfold cluster_step. by rewrite Hnet, lookup_nil.
  - intros _. unfold cluster_step, remove_packet. revert Hnet. destruct half_way as [rs net].
    cbn [cl_network cl_replicas]. intros ->. by rewrite take_nil, drop_nil.
  - intros [->| ->]; vm_compute; reflexivity.
  - intros [->| ->]; vm_compute; reflexivity.
  - intros [->| ->]; vm_compute; reflexivity.
Qed.

(** ** A replica that forgets *)

Definition client_request (client : uint128_t) (p : list byte) : vsr_message :=
  {| header := zero_header <| h_command := command.request |> <| h_operation := operation.set |>
       <| h_client := client |> <| h_request := 1 |>; payload := p |}.

(** Replica 0 replicates a request to replica 1, commits, executes and answers it;
    the Prepare to replica 2 is still on its way when replica 0 crashes. *)
Definition commit_first : list cluster_event :=
  [ce_client 0 100 (client_request (U128 1 1) (lit "k v")); ce_process 0; ce_lose 1;
   ce_deliver 0; ce_process 1; ce_deliver 0; ce_process 0].

(** Replica 1 is restarted; replicas 1 and 2 time out, and their messages to replica 0 are
    lost. *)
Definition restart_and_time_out : list cluster_event := [ce_restart 1; ce_liveness 1; ce_lose 0; ce_liveness 2; ce_lose 1].

(** They change to view 1. *)
Definition change_without_0 : list cluster_event :=
  [ce_deliver 0; ce_deliver 0; ce_process 2; ce_process 1; ce_deliver 0; ce_process 1; ce_lose 0; ce_deliver 0; ce_process 2].

(** They serve another client. *)
Definition serve_other : list cluster_event :=
  [ce_client 1 200 (client_request (U128 2 2) (lit "k w")); ce_process 1; ce_lose 0; ce_deliver 0; ce_process 2; ce_deliver 0; ce_process 1].

(** What replica [i] has committed as operation [k]. *)
Definition committed (i k : Z) (c : Cluster) : option (uint128_t * list byte) :=
  s ← state_of i c;
  if k <=? commit_ s then e ← log_ s !! k; Some (le_client_id e, le_payload e) else None.

(** A replica that has just started. *)
Definition started (env : Env) (i : Z) : Replica := run env (new_replica i main_cluster_config).

(** The liveness timer of a started backup fires if the clock has advanced far enough
    between its first two readings. *)
Definition times_out (env : Env) : Prop :=
  primary_timeout_ < Z.quot (steady_now env 1 - steady_now env 0) 1000000.

Lemma started_times_out env i :
  times_out env → i = 1 ∨ i = 2 →
  handle_event env ev_liveness (started env i) = initiate_view_change ((started env i) <| clock_reads := 2%nat |>).
Proof.
  intros Ht Hi. cbn [handle_event]. unfold check_primary_liveness.
  assert (negb (is_primary (state_ (started env i))) && bool_decide (status_ (state_ (started env i)) = ReplicaStatus.NORMAL) = true)
    as -> by (destruct Hi as [->| ->]; vm_compute; reflexivity).
  assert ((primary_timeout_ <? Z.quot (steady_now env (clock_reads (started env i)) - last_primary_contact_ (started env i)) 1000000)
    = true) as -> by (apply Z.ltb_lt, Ht). reflexivity.
Qed.

(** The cluster after [restart_and_time_out], if nothing has reached replica 2. *)
Definition timed_out (env : Env) (r0 : Replica) : Cluster :=
  let r i := (initiate_view_change ((started env i) <| clock_reads := 2%nat |>)).1 in
  let svc i := {| header := zero_header <| h_command := command.start_view_change |> <| h_view := 1 |> <| h_replica := i |>;
                  payload := [] |} in
  {| cl_replicas := {[0 := r0; 1 := r 1; 2 := r 2]};
     cl_network := [{| pk_src := 1; pk_dst := 2; pk_msg := svc 1 |}; {| pk_src := 2; pk_dst := 1; pk_msg := svc 2 |}] |}.

Lemma cluster_run_app env ces1 ces2 c :
  cluster_run env (ces1 ++ ces2) c = cluster_run env ces2 (cluster_run env ces1 c).
Proof. apply foldl_app. Qed.

Lemma on_replica_known env i e c r r' out :
  cl_replicas c !! i = Some r → handle_event env e r = (r', out) →
  on_replica env i e c = {| cl_replicas := <[i := r']> (cl_replicas c); cl_network := cl_network c ++ concat (route i <$> out) |}.
Proof. intros Hr He. unfold on_replica. by rewrite Hr, He. Qed.

Lemma restart_times_out env r0 r1 :
  times_out env →
  cluster_run env restart_and_time_out {| cl_replicas := {[0 := r0; 1 := r1; 2 := started env 2]}; cl_network := [] |}
  = timed_out env r0.
Proof.
  intros Ht. unfold cluster_run, restart_and_time_out. cbn [foldl cluster_step].
  pose proof (started_times_out env 1 Ht (or_introl eq_refl)) as H1. pose proof (started_times_out env 2 Ht (or_intror eq_refl)) as H2.
  rewrite (surjective_pairing (initiate_view_change _)) in H1. rewrite (surjective_pairing (initiate_view_change _)) in H2.
  rewrite (on_replica_known env 1 _ _ _ _ _ (lookup_insert_eq _ _ _) H1).
  rewrite (on_replica_known env 2 _ _ (started env 2) _ _) by (exact H2 || reflexivity).
  vm_compute. reflexivity.
Qed.

(** ** Properties *)

(** A view change can stop half way for good.  After a crash of the primary, if
    the third replica learns of the view change from the second one's message rather
    than from its own timer, it leaves that message in its queue without processing
    it; both replicas then wait for each other in view 1, nothing is in flight, and no
    timer or posted task ever changes that, unless a client happens to contact them. *)
Theorem view_change_stops_half_way ces :
  Forall quiet ces →
  let c := cluster_run fast_env (join_by_message ++ ces) (new_cluster fast_env) in
  cl_network c = [] ∧
  (status_ <$> state_of 1 c) = Some ReplicaStatus.VIEW_CHANGE ∧
  (status_ <$> state_of 2 c) = Some ReplicaStatus.VIEW_CHANGE.
Proof.
  intros Hall. cbv zeta.
  assert (cluster_run fast_env (join_by_message ++ ces) (new_cluster fast_env)
    = cluster_run fast_env ces half_way) as -> by apply foldl_app.
  assert (cluster_run fast_env ces half_way = half_way) as ->.
  { unfold cluster_run. induction Hall as [|ce ces Hce _ IH]; [done|]. cbn [foldl]. by rewrite quiet_half_way. }
  vm_compute. auto.
Qed.


(** ** Witnesses *)

Lemma view_change_stops_half_way_witness :
  cl_network (cluster_run fast_env (join_by_message ++ [ce_liveness 1; ce_process 2; ce_heartbeat 1])
    (new_cluster fast_env)) = [].
Proof.
  refine (proj1 (view_change_stops_half_way [ce_liveness 1; ce_process 2; ce_heartbeat 1] _)).
  repeat (apply Forall_cons; split; [unfold quiet; auto|]). by apply Forall_nil.
Defined.

