(* ===== verification/Protocol.v ===== *)
(** * The replication protocol, abstractly

    What the handlers of [src/server/replica.cpp] promise together, as a transition
    system over logs that are lists, with the set of all messages ever sent instead of
    a network: normal operation, view changes, and recovery with nonces.  The safety
    argument is made here, once: operations that were committed are in the log of every
    later view.  [Refinement] and [Agreement] show that the replicas of a cluster
    implement this system. *)
From S2P Require Import Prelude Types.

Module Status.
Inductive t := Normal | Changing | Recovering.
End Status.

(** Operation [k] of a log is its element [k - 1]; entries carry no acknowledgements. *)
Abbreviation alog := (list log_entry).

Record arep := {
  a_status : Status.t;
  a_view : Z;
  a_last : Z;        (* last normal view *)
  a_log : alog;
  a_commit : Z;
  a_nonce : uint128_t }.   (* of the current recovery *)

(** Messages: a Prepare of operation [k]; an acknowledgement of [i]; the DoViewChange
    of [i] with its last normal view, log and commit number; a StartView; a commit
    number that the primary of a view announced; the answer of [j] to the recovery of
    [i] with nonce [n]. *)
Inductive amsg :=
  | APrepare (v : Z) (k : nat) (e : log_entry)
  | AOk (v : Z) (k : nat) (i : Z)
  | ADvc (v i w : Z) (l : alog) (c : Z)
  | ASv (v : Z) (l : alog) (c : Z)
  | ACommit (v c : Z)
  | AResp (i : Z) (n : uint128_t) (j v : Z) (l : alog) (c : Z).

Record asys := { a_reps : Z → arep; a_sent : list amsg }.

(** The view whose log the replica holds. *)
Definition log_view (s : arep) : Z :=
  match a_status s with Status.Changing => a_last s | _ => a_view s end.

Definition update (i : Z) (s : arep) (ms : list amsg) (y : asys) : asys :=
  {| a_reps := λ j, if decide (j = i) then s else a_reps y j; a_sent := a_sent y ++ ms |}.

(** A DoViewChange message as the new primary reads it, or a recovery response, where
    the view of the responder takes the place of the last normal view. *)
Record dvc := { d_from : Z; d_last : Z; d_log : alog; d_commit : Z }.

Definition dvc_better (d d' : dvc) : Prop :=
  d_last d < d_last d' ∨ (d_last d = d_last d' ∧ (length (d_log d) ≤ length (d_log d'))%nat).

Section protocol.
Context (ids : gset Z) (f : nat) (primary : Z → Z).

Definition aquorum (Q : gset Z) : Prop := Q ⊆ ids ∧ (f + 1 ≤ size Q)%nat.

Section messages.
Context (M : list amsg).

(** [i] holds the log of view [v] up to [k]: it said so, or it is the primary that
    appended [k]. *)
Definition has_acked (i v : Z) (k : nat) : Prop :=
  AOk v k i ∈ M ∨ (i = primary v ∧ ∃ e, APrepare v k e ∈ M).

Definition started (v : Z) (l : alog) : Prop := (v = 0 ∧ l = []) ∨ ∃ c, ASv v l c ∈ M.

(** A log that a replica can have in view [v]. *)
Definition valid_log (v : Z) (l : alog) : Prop :=
  ∃ l0, started v l0 ∧ l0 `prefix_of` l ∧
    ∀ j e, (length l0 ≤ j)%nat → l !! j = Some e → APrepare v (S j) e ∈ M.

Definition is_committed (v : Z) (p : alog) : Prop :=
  (∃ l, valid_log v l ∧ p `prefix_of` l) ∧
  ∃ Q, aquorum Q ∧ ∀ i, i ∈ Q → has_acked i v (length p).

Definition valid_commit (v c : Z) : Prop :=
  ∀ k : nat, 1 ≤ Z.of_nat k ≤ c → ∃ v0 p, 0 ≤ v0 ≤ v ∧ length p = k ∧ is_committed v0 p.
End messages.

(** ** Steps *)

Inductive astep : asys → asys → Prop :=
  | a_request y i s e :
      a_reps y i = s → a_status s = Status.Normal → primary (a_view s) = i →
      astep y (update i {| a_status := Status.Normal; a_view := a_view s; a_last := a_last s;
                           a_log := a_log s ++ [e]; a_commit := a_commit s; a_nonce := a_nonce s |}
                 [APrepare (a_view s) (S (length (a_log s))) e] y)
  | a_prepare y i s e :
      a_reps y i = s → a_status s = Status.Normal → primary (a_view s) ≠ i →
      APrepare (a_view s) (S (length (a_log s))) e ∈ a_sent y →
      astep y (update i {| a_status := Status.Normal; a_view := a_view s; a_last := a_last s;
                           a_log := a_log s ++ [e]; a_commit := a_commit s; a_nonce := a_nonce s |}
                 [AOk (a_view s) (S (length (a_log s))) i] y)
  | a_learn y i s c :
      a_reps y i = s → a_status s = Status.Normal → ACommit (a_view s) c ∈ a_sent y →
      astep y (update i {| a_status := Status.Normal; a_view := a_view s; a_last := a_last s;
                           a_log := a_log s; a_commit := c; a_nonce := a_nonce s |} [] y)
  | a_advance y i s Q :
      a_reps y i = s → a_status s = Status.Normal → 0 ≤ a_commit s →
      a_commit s + 1 ≤ Z.of_nat (length (a_log s)) → aquorum Q →
      (∀ j, j ∈ Q → has_acked (a_sent y) j (a_view s) (Z.to_nat (a_commit s + 1))) →
      astep y (update i {| a_status := Status.Normal; a_view := a_view s; a_last := a_last s;
                           a_log := a_log s; a_commit := a_commit s + 1; a_nonce := a_nonce s |} [] y)
  | a_announce y i s :
      a_reps y i = s → a_status s = Status.Normal →
      astep y (update i s [ACommit (a_view s) (a_commit s)] y)
  | a_timeout y i s :
      a_reps y i = s → a_status s = Status.Normal →
      astep y (update i {| a_status := Status.Changing; a_view := a_view s + 1; a_last := a_view s;
                           a_log := a_log s; a_commit := a_commit s; a_nonce := a_nonce s |} [] y)
  | a_send_dvc y i s :
      i ∈ ids → a_reps y i = s → a_status s = Status.Changing →
      astep y (update i s [ADvc (a_view s) i (a_last s) (a_log s) (a_commit s)] y)
  | a_start y i s D d c :
      a_reps y i = s → a_status s = Status.Changing → primary (a_view s) = i →
      (∀ d, d ∈ D → ADvc (a_view s) (d_from d) (d_last d) (d_log d) (d_commit d) ∈ a_sent y) →
      NoDup (d_from <$> D) → (f + 1 ≤ length D)%nat →
      d ∈ D → (∀ d', d' ∈ D → dvc_better d' d) →
      (c = a_commit s ∨ ∃ d', d' ∈ D ∧ c = d_commit d') →
      astep y (update i {| a_status := Status.Normal; a_view := a_view s; a_last := a_last s;
                           a_log := d_log d; a_commit := c; a_nonce := a_nonce s |} [ASv (a_view s) (d_log d) c] y)
  | a_adopt y i s l c ks :
      a_reps y i = s → a_status s = Status.Changing → ASv (a_view s) l c ∈ a_sent y →
      Forall (λ k, (k ≤ length l)%nat) ks →
      astep y (update i {| a_status := Status.Normal; a_view := a_view s; a_last := a_last s;
                           a_log := l; a_commit := c; a_nonce := a_nonce s |} ((λ k, AOk (a_view s) k i) <$> ks) y)
  | a_recover y i s n :
      a_reps y i = s → a_status s = Status.Normal →
      (∀ j v l c, AResp i n j v l c ∉ a_sent y) →
      (primary (a_view s) = i → ∃ j, j ∈ ids ∧ j ≠ i ∧ a_view s < a_view (a_reps y j)) →
      astep y (update i {| a_status := Status.Recovering; a_view := a_view s; a_last := a_last s;
                           a_log := a_log s; a_commit := a_commit s; a_nonce := n |} [] y)
  | a_respond y j s i n :
      a_reps y j = s → a_status s = Status.Normal →
      astep y (update j s [AResp i n j (a_view s) (a_log s) (a_commit s)] y)
  | a_recovered y i s (D : list dvc) d n :
      a_reps y i = s → a_status s = Status.Recovering →
      (∀ d, d ∈ D → a_view s ≤ d_last d ∧
         AResp i (a_nonce s) (d_from d) (d_last d) (d_log d) (d_commit d) ∈ a_sent y) →
      (∀ j, j ∈ ids → j ≠ i → j ∈ d_from <$> D) →
      d ∈ D → (∀ d', d' ∈ D → dvc_better d' d) →
      astep y (update i {| a_status := Status.Normal; a_view := d_last d; a_last := a_last s;
                           a_log := d_log d; a_commit := d_commit d; a_nonce := n |} [] y).

Definition ainit : asys :=
  {| a_reps := λ _, {| a_status := Status.Normal; a_view := 0; a_last := 0; a_log := []; a_commit := 0;
                    a_nonce := U128 0 0 |};
     a_sent := [] |}.

(** ** Monotonicity in the messages sent *)

Section mono.
Context (M M' : list amsg).
Hypothesis sub : ∀ m, m ∈ M → m ∈ M'.

Lemma has_acked_mono i v k : has_acked M i v k → has_acked M' i v k.
Proof. intros [H|[-> [e H]]]; [left; auto|right; eauto]. Qed.

Lemma started_mono v l : started M v l → started M' v l.
Proof. intros [H|[c H]]; [by left|right; eauto]. Qed.

Lemma valid_log_mono v l : valid_log M v l → valid_log M' v l.
Proof. intros (l0 & Hs & Hp & Hall). exists l0. split_and!; [by apply started_mono|done|eauto]. Qed.

Lemma is_committed_mono v p : is_committed M v p → is_committed M' v p.
Proof.
  intros [(l & Hl & Hp) (Q & HQ & Hack)]. split.
  - exists l. split; [by apply valid_log_mono|done].
  - exists Q. split; [done|]. intros i Hi. by apply has_acked_mono, Hack.
Qed.

Lemma valid_commit_mono v c : valid_commit M v c → valid_commit M' v c.
Proof.
  intros H k Hk. destruct (H k Hk) as (v0 & p & Hv & Hp & Hc). exists v0, p.
  split_and!; [lia|lia|done|by apply is_committed_mono].
Qed.
End mono.

Lemma valid_commit_le M v v' c : valid_commit M v c → v ≤ v' → valid_commit M v' c.
Proof.
  intros H Hle k Hk. destruct (H k Hk) as (v0 & p & Hv & Hp & Hc). exists v0, p. split_and!; [lia|lia|done|done].
Qed.

(** ** Invariant *)

Record ainv (y : asys) : Prop := {
  (* views *)
  ai_view : ∀ i, 0 ≤ a_last (a_reps y i) ≤ a_view (a_reps y i) ∧
     (a_status (a_reps y i) = Status.Changing → a_last (a_reps y i) < a_view (a_reps y i));
  (* logs belong to views *)
  ai_log : ∀ i, valid_log (a_sent y) (log_view (a_reps y i)) (a_log (a_reps y i));
  (* the primary holds what it prepared and started *)
  ai_prepare : ∀ v k e, APrepare v k e ∈ a_sent y →
     (0 < k)%nat ∧ 0 ≤ v ≤ log_view (a_reps y (primary v)) ∧
     (v = log_view (a_reps y (primary v)) → a_log (a_reps y (primary v)) !! pred k = Some e);
  ai_prepare_unique : ∀ v k e e', APrepare v k e ∈ a_sent y → APrepare v k e' ∈ a_sent y → e = e';
  ai_start : ∀ v l c, ASv v l c ∈ a_sent y → 0 < v ≤ log_view (a_reps y (primary v));
  ai_start_unique : ∀ v l c l' c', ASv v l c ∈ a_sent y → ASv v l' c' ∈ a_sent y → l = l';
  (* the chosen log of a new view *)
  ai_chosen : ∀ v l c, ASv v l c ∈ a_sent y → ∃ D d,
     (∀ d, d ∈ D → ADvc v (d_from d) (d_last d) (d_log d) (d_commit d) ∈ a_sent y) ∧
     NoDup (d_from <$> D) ∧ (f + 1 ≤ length D)%nat ∧ d ∈ D ∧ d_log d = l ∧
     (∀ d', d' ∈ D → dvc_better d' d);
  (* acknowledged operations stay in the log of their view, and in DoViewChange *)
  ai_acked : ∀ i v k, has_acked (a_sent y) i v k →
     v ≤ log_view (a_reps y i) ∧
     (v = log_view (a_reps y i) → (k ≤ length (a_log (a_reps y i)))%nat);
  ai_dvc : ∀ v i w l c, ADvc v i w l c ∈ a_sent y →
     i ∈ ids ∧ 0 ≤ w < v ∧ v ≤ a_view (a_reps y i) ∧
     valid_log (a_sent y) w l ∧ valid_commit (a_sent y) w c ∧
     (∀ v0 k, has_acked (a_sent y) i v0 k → v0 < v → v0 ≤ w ∧ (v0 = w → (k ≤ length l)%nat));
  (* commit numbers are justified *)
  ai_commit : ∀ i, valid_commit (a_sent y) (log_view (a_reps y i)) (a_commit (a_reps y i));
  ai_announced : ∀ v c, ACommit v c ∈ a_sent y → valid_commit (a_sent y) v c;
  ai_sv_commit : ∀ v l c, ASv v l c ∈ a_sent y → valid_commit (a_sent y) v c }.

(** What a step of replica [i] from [s] to [s'], sending [ms], has to provide. *)
Record step_ok (y : asys) (i : Z) (s' : arep) (ms : list amsg) : Prop := {
  so_view : 0 ≤ a_last s' ≤ a_view s' ∧ (a_status s' = Status.Changing → a_last s' < a_view s');
  so_grow : a_view (a_reps y i) ≤ a_view s' ∧ log_view (a_reps y i) ≤ log_view s' ∧
    (log_view (a_reps y i) = log_view s' → a_log (a_reps y i) `prefix_of` a_log s');
  so_log : valid_log (a_sent y ++ ms) (log_view s') (a_log s');
  so_commit : valid_commit (a_sent y ++ ms) (log_view s') (a_commit s');
  so_prepare : ∀ v k e, APrepare v k e ∈ ms →
    (0 < k)%nat ∧ i = primary v ∧ v = log_view s' ∧ a_status s' = Status.Normal ∧
    a_log s' !! pred k = Some e ∧ (∀ e', APrepare v k e' ∈ a_sent y ++ ms → e' = e);
  so_ok : ∀ v k j, AOk v k j ∈ ms →
    j = i ∧ v = log_view s' ∧ a_status s' = Status.Normal ∧ (k ≤ length (a_log s'))%nat;
  so_dvc : ∀ v j w l c, ADvc v j w l c ∈ ms →
    j = i ∧ i ∈ ids ∧ v = a_view s' ∧ a_status s' = Status.Changing ∧
    w = log_view s' ∧ l = a_log s' ∧ c = a_commit s';
  so_start : ∀ v l c, ASv v l c ∈ ms →
    i = primary v ∧ 0 < v ≤ log_view s' ∧ (∀ l' c', ASv v l' c' ∈ a_sent y ++ ms → l' = l) ∧
    valid_commit (a_sent y ++ ms) v c ∧
    ∃ D d, (∀ d, d ∈ D → ADvc v (d_from d) (d_last d) (d_log d) (d_commit d) ∈ a_sent y) ∧
      NoDup (d_from <$> D) ∧ (f + 1 ≤ length D)%nat ∧ d ∈ D ∧ d_log d = l ∧
      (∀ d', d' ∈ D → dvc_better d' d);
  so_announce : ∀ v c, ACommit v c ∈ ms → valid_commit (a_sent y ++ ms) v c }.

Lemma log_view_normal s : a_status s = Status.Normal → log_view s = a_view s.
Proof. unfold log_view. by intros ->. Qed.

Lemma log_view_le s : a_last s ≤ a_view s → log_view s ≤ a_view s.
Proof. unfold log_view. intros H. destruct (a_status s); lia. Qed.

Lemma sent_grows (M ms : list amsg) m : m ∈ M → m ∈ M ++ ms.
Proof. intros H. apply elem_of_app. by left. Qed.

Section preserve.
Context (y : asys) (i : Z) (s' : arep) (ms : list amsg).
Context (Hy : ainv y) (Hok : step_ok y i s' ms).

(** Old knowledge about replica [j]'s log view survives. *)
Lemma old_log_view j : log_view (a_reps y j) ≤ log_view (a_reps (update i s' ms y) j).
Proof. simpl. case_decide; [subst|lia]. apply Hok. Qed.

Lemma old_log_prefix j :
  log_view (a_reps y j) = log_view (a_reps (update i s' ms y) j) →
  a_log (a_reps y j) `prefix_of` a_log (a_reps (update i s' ms y) j).
Proof. simpl. case_decide; [subst|done]. apply Hok. Qed.

Lemma update_prepare v k e :
  APrepare v k e ∈ a_sent y ++ ms →
  let s := a_reps (update i s' ms y) (primary v) in
  (0 < k)%nat ∧ 0 ≤ v ≤ log_view s ∧ (v = log_view s → a_log s !! pred k = Some e).
Proof.
  intros [H|H]%elem_of_app.
  - destruct (ai_prepare _ Hy _ _ _ H) as (Hk & Hv & Hl). pose proof (old_log_view (primary v)).
    split_and!; [done|lia|lia|]. intros Heq. eapply prefix_lookup_Some; [apply Hl; lia|].
    apply old_log_prefix. lia.
  - destruct (so_prepare _ _ _ _ Hok _ _ _ H) as (Hk & Hi & Hv & Hst & Hl & _). simpl.
    rewrite decide_True by done. pose proof (so_view _ _ _ _ Hok) as [Hw _].
    rewrite (log_view_normal _ Hst) in *. split_and!; [done|lia|lia|done].
Qed.

Lemma update_acked j v k :
  has_acked (a_sent y ++ ms) j v k →
  has_acked (a_sent y) j v k ∨
  (j = i ∧ v = log_view s' ∧ a_status s' = Status.Normal ∧ (k ≤ length (a_log s'))%nat).
Proof.
  intros [[H|H]%elem_of_app|[-> [e [H|H]%elem_of_app]]].
  - by left; left.
  - right. by apply (so_ok _ _ _ _ Hok).
  - left; right. eauto.
  - right. destruct (so_prepare _ _ _ _ Hok _ _ _ H) as (Hk & Hi & Hv & Hst & Hl & _).
    apply lookup_lt_Some in Hl. split_and!; [done..|lia].
Qed.

Lemma update_acked_log j v k :
  has_acked (a_sent y ++ ms) j v k →
  let s := a_reps (update i s' ms y) j in
  v ≤ log_view s ∧ (v = log_view s → (k ≤ length (a_log s))%nat).
Proof.
  intros [H|(-> & -> & Hst & Hk)]%update_acked.
  - destruct (ai_acked _ Hy _ _ _ H) as [Hv Hl]. pose proof (old_log_view j). split; [lia|].
    intros Heq. etrans; [apply Hl; lia|]. apply prefix_length, old_log_prefix. lia.
  - simpl. rewrite decide_True by done. split; [lia|done].
Qed.

Lemma update_dvc v j w l c :
  ADvc v j w l c ∈ a_sent y ++ ms →
  j ∈ ids ∧ 0 ≤ w < v ∧ v ≤ a_view (a_reps (update i s' ms y) j) ∧
  valid_log (a_sent y ++ ms) w l ∧ valid_commit (a_sent y ++ ms) w c ∧
  (∀ v0 k, has_acked (a_sent y ++ ms) j v0 k → v0 < v → v0 ≤ w ∧ (v0 = w → (k ≤ length l)%nat)).
Proof.
  intros [H|H]%elem_of_app.
  - destruct (ai_dvc _ Hy _ _ _ _ _ H) as (Hj & Hw & Hv & Hl & Hc & Hack).
    pose proof (so_grow _ _ _ _ Hok) as (Hg & _).
    split_and!; [done|lia|lia| | | |].
    + simpl. case_decide; [subst|]; lia.
    + eapply valid_log_mono; [apply sent_grows|done].
    + eapply valid_commit_mono; [apply sent_grows|done].
    + intros v0 k [Ho|(-> & -> & Hst & _)]%update_acked Hlt; [by apply Hack|].
      rewrite log_view_normal in Hlt by done. lia.
  - destruct (so_dvc _ _ _ _ Hok _ _ _ _ _ H) as (-> & Hi & -> & Hst & -> & -> & ->).
    pose proof (so_view _ _ _ _ Hok) as [Hw Hlt]. simpl. rewrite decide_True by done.
    assert (log_view s' = a_last s') as Hlv by (unfold log_view; by rewrite Hst).
    split_and!; [done|lia|specialize (Hlt Hst); lia|lia|apply Hok|apply Hok|].
    intros v0 k Hack _. apply update_acked_log in Hack as [Hv Hk]. simpl in *.
    rewrite decide_True in * by done. split; [lia|done].
Qed.

Lemma update_inv : ainv (update i s' ms y).
Proof.
  split; simpl.
  - intros j. case_decide; [apply Hok|apply Hy].
  - intros j. case_decide; [apply Hok|]. eapply valid_log_mono; [apply sent_grows|apply Hy].
  - apply update_prepare.
  - intros v k e e' [H|H]%elem_of_app H'.
    + apply elem_of_app in H' as [H'|H']; [by eapply ai_prepare_unique|].
      eapply (so_prepare _ _ _ _ Hok _ _ _ H'). set_solver.
    + symmetry. by eapply (so_prepare _ _ _ _ Hok _ _ _ H).
  - intros v l c [H|H]%elem_of_app.
    + pose proof (ai_start _ Hy _ _ _ H). pose proof (old_log_view (primary v)) as Hle. simpl in Hle. lia.
    + destruct (so_start _ _ _ _ Hok _ _ _ H) as (-> & Hv & _). by rewrite decide_True.
  - intros v l c l' c' [H|H]%elem_of_app H'.
    + apply elem_of_app in H' as [H'|H']; [by eapply ai_start_unique|].
      destruct (so_start _ _ _ _ Hok _ _ _ H') as (_ & _ & Hu & _). by eapply Hu, sent_grows.
    + destruct (so_start _ _ _ _ Hok _ _ _ H) as (_ & _ & Hu & _). symmetry. by eapply Hu.
  - intros v l c [H|H]%elem_of_app;
      [destruct (ai_chosen _ Hy _ _ _ H) as (D & d & HD & ?)
      |destruct (so_start _ _ _ _ Hok _ _ _ H) as (_ & _ & _ & _ & D & d & HD & ?)];
      exists D, d; (split; [|done]); intros d' Hd'; apply sent_grows; auto.
  - apply update_acked_log.
  - apply update_dvc.
  - intros j. case_decide; [apply Hok|]. eapply valid_commit_mono; [apply sent_grows|apply Hy].
  - intros v c [H|H]%elem_of_app; [|by eapply so_announce].
    eapply valid_commit_mono; [apply sent_grows|by apply (ai_announced _ Hy)].
  - intros v l c [H|H]%elem_of_app; [|by eapply so_start].
    eapply valid_commit_mono; [apply sent_grows|by eapply (ai_sv_commit _ Hy)].
Qed.
End preserve.

(** ** Logs of the same view *)

(** Agreement at every position makes the shorter list a prefix. *)
Lemma prefix_of_agree {A} (l1 l2 : list A) :
  (length l1 ≤ length l2)%nat →
  (∀ j x1 x2, l1 !! j = Some x1 → l2 !! j = Some x2 → x1 = x2) → l1 `prefix_of` l2.
Proof.
  intros Hlen Hag. exists (drop (length l1) l2). apply list_eq. intros j.
  destruct (decide (j < length l1)%nat) as [Hj|Hj].
  - rewrite lookup_app_l by done. destruct (lookup_lt_is_Some_2 l1 j Hj) as [x1 H1].
    destruct (lookup_lt_is_Some_2 l2 j) as [x2 H2]; [lia|]. rewrite H1, H2. f_equal. symmetry. eauto.
  - rewrite lookup_app_r, lookup_drop by lia. f_equal. lia.
Qed.

Section same_view.
Context (y : asys) (Hy : ainv y).

Lemma started_unique v l l' : started (a_sent y) v l → started (a_sent y) v l' → l = l'.
Proof.
  intros [[-> ->]|[c H]] [[Hv ->]|[c' H']]; [done| | |by eapply ai_start_unique].
  - apply (ai_start _ Hy) in H'. lia.
  - apply (ai_start _ Hy) in H. lia.
Qed.

(** Two logs of the same view agree where both have an entry. *)
Lemma valid_logs_agree v l l' j e e' :
  valid_log (a_sent y) v l → valid_log (a_sent y) v l' → l !! j = Some e → l' !! j = Some e' → e = e'.
Proof.
  intros (l0 & Hs & Hp & Hall) (l0' & Hs' & Hp' & Hall') He He'.
  pose proof (started_unique _ _ _ Hs Hs') as <-.
  destruct (decide (j < length l0)%nat) as [Hj|Hj].
  - destruct (lookup_lt_is_Some_2 l0 j Hj) as [x Hx].
    rewrite (prefix_lookup_Some _ _ _ _ Hx Hp) in He. rewrite (prefix_lookup_Some _ _ _ _ Hx Hp') in He'.
    congruence.
  - eapply (ai_prepare_unique _ Hy); [apply (Hall j)|apply (Hall' j)]; done || lia.
Qed.

(** Agreement of a prefix of a log of the view with another log of it. *)
Lemma valid_prefix v l l' p :
  valid_log (a_sent y) v l → valid_log (a_sent y) v l' → p `prefix_of` l →
  (length p ≤ length l')%nat → p `prefix_of` l'.
Proof.
  intros Hl Hl' Hp Hlen. apply prefix_of_agree; [done|]. intros j x1 x2 H1 H2.
  eapply valid_logs_agree; [exact Hl|exact Hl'| |exact H2]. by eapply prefix_lookup_Some.
Qed.

(** The primary of a view that still holds its log has the longest one. *)
Lemma primary_log_longest v l :
  valid_log (a_sent y) v l → log_view (a_reps y (primary v)) = v →
  (length l ≤ length (a_log (a_reps y (primary v))))%nat.
Proof.
  intros (l0 & Hs & Hp & Hall) Hv. destruct (decide (length l ≤ length l0)%nat) as [Hle|Hgt].
  - pose proof (ai_log _ Hy (primary v)) as (l1 & Hs1 & Hp1 & _). rewrite Hv in Hs1.
    pose proof (started_unique _ _ _ Hs Hs1) as <-. apply prefix_length in Hp1. lia.
  - destruct (lookup_lt_is_Some_2 l (pred (length l))) as [e He]; [lia|].
    assert (APrepare v (S (pred (length l))) e ∈ a_sent y) as Hm by (apply Hall; [lia|done]).
    destruct (ai_prepare _ Hy _ _ _ Hm) as (_ & _ & Hlog). specialize (Hlog (eq_sym Hv)).
    apply lookup_lt_Some in Hlog. simpl in Hlog. lia.
Qed.
End same_view.

(** ** Every step preserves the invariant *)

(** A log extended by an entry its primary prepared. *)
Lemma valid_log_snoc M v l e :
  valid_log M v l → APrepare v (S (length l)) e ∈ M → valid_log M v (l ++ [e]).
Proof.
  intros (l0 & Hs & Hp & Hall) He. exists l0. split_and!; [done|by apply prefix_app_r|].
  intros j e' Hj [H|[Hlen H]]%lookup_app_Some; [by apply Hall|].
  apply list_lookup_singleton_Some in H as [Hz <-]. by replace j with (length l) by lia.
Qed.

Lemma valid_log_start M v l c : ASv v l c ∈ M → valid_log M v l.
Proof.
  intros H. exists l. split_and!; [right; eauto|done|]. intros j e Hj Hl.
  apply lookup_lt_Some in Hl. lia.
Qed.

(** Nothing new is sent or only messages of a kind that is not constrained. *)
Ltac no_msg := intros; match goal with H : _ ∈ _ |- _ =>
  first [by apply not_elem_of_nil in H | apply list_elem_of_singleton in H; discriminate H] end.

(** Recovery responses: their content is valid; while [i] recovers, none that answers
    its current nonce is too old to be adopted. *)
Record rinv (y : asys) : Prop := {
  ri_response : ∀ i n j v l c, AResp i n j v l c ∈ a_sent y →
    0 ≤ v ∧ valid_log (a_sent y) v l ∧ valid_commit (a_sent y) v c;
  ri_primary : ∀ i, a_status (a_reps y i) = Status.Recovering →
    primary (a_view (a_reps y i)) = i →
    ∃ j, j ∈ ids ∧ j ≠ i ∧ a_view (a_reps y i) < a_view (a_reps y j) ∧
      ∀ v l c, AResp i (a_nonce (a_reps y i)) j v l c ∈ a_sent y → a_view (a_reps y i) < v;
  ri_backup : ∀ i l c, a_status (a_reps y i) = Status.Recovering →
    primary (a_view (a_reps y i)) ≠ i →
    AResp i (a_nonce (a_reps y i)) (primary (a_view (a_reps y i))) (a_view (a_reps y i)) l c ∈ a_sent y →
    (length (a_log (a_reps y i)) ≤ length l)%nat }.

Section steps.
Context (y : asys) (i : Z) (Hy : ainv y).
Abbreviation s := (a_reps y i).

Lemma kept_commit ms : valid_commit (a_sent y ++ ms) (log_view s) (a_commit s).
Proof. eapply valid_commit_mono; [apply sent_grows|apply Hy]. Qed.

Lemma kept_log ms : valid_log (a_sent y ++ ms) (log_view s) (a_log s).
Proof. eapply valid_log_mono; [apply sent_grows|apply Hy]. Qed.

Lemma request_ok e :
  a_status s = Status.Normal → primary (a_view s) = i →
  step_ok y i {| a_status := Status.Normal; a_view := a_view s; a_last := a_last s;
                 a_log := a_log s ++ [e]; a_commit := a_commit s; a_nonce := a_nonce s |}
    [APrepare (a_view s) (S (length (a_log s))) e].
Proof.
  intros Hst Hp. pose proof (ai_view _ Hy i) as [Hv _].
  pose proof (kept_commit [APrepare (a_view s) (S (length (a_log s))) e]) as Hc.
  pose proof (kept_log [APrepare (a_view s) (S (length (a_log s))) e]) as Hl.
  rewrite log_view_normal in Hc, Hl by done.
  split; rewrite ?log_view_normal by done; simpl; try no_msg.
  - by split.
  - split_and!; [lia|lia|]. intros _. by apply prefix_app_r.
  - apply valid_log_snoc; [done|set_solver].
  - done.
  - intros v k e' [= -> -> ->]%list_elem_of_singleton. split_and!; [lia|done|done|done| |].
    + apply lookup_app_Some. right. simpl. split; [lia|]. by rewrite Nat.sub_diag.
    + intros e'' [H|H]%elem_of_app; [|by apply list_elem_of_singleton in H as [= ->]].
      destruct (ai_prepare _ Hy _ _ _ H) as (_ & _ & H'). rewrite Hp in H'. simpl in H'.
      rewrite log_view_normal in H' by done. specialize (H' eq_refl). apply lookup_lt_Some in H'. lia.
Qed.

Lemma prepare_ok e :
  a_status s = Status.Normal → APrepare (a_view s) (S (length (a_log s))) e ∈ a_sent y →
  step_ok y i {| a_status := Status.Normal; a_view := a_view s; a_last := a_last s;
                 a_log := a_log s ++ [e]; a_commit := a_commit s; a_nonce := a_nonce s |}
    [AOk (a_view s) (S (length (a_log s))) i].
Proof.
  intros Hst Hm. pose proof (ai_view _ Hy i) as [Hv _].
  pose proof (kept_commit [AOk (a_view s) (S (length (a_log s))) i]) as Hc.
  pose proof (kept_log [AOk (a_view s) (S (length (a_log s))) i]) as Hl.
  rewrite log_view_normal in Hc, Hl by done.
  split; rewrite ?log_view_normal by done; simpl; try no_msg.
  - by split.
  - split_and!; [lia|lia|]. intros _. by apply prefix_app_r.
  - apply valid_log_snoc; [done|set_solver].
  - done.
  - intros v k j [= -> -> ->]%list_elem_of_singleton. split_and!; [done..|]. rewrite length_app. simpl. lia.
Qed.

(** Steps that only change the commit number. *)
Lemma commit_ok c ms :
  a_status s = Status.Normal → valid_commit (a_sent y ++ ms) (a_view s) c →
  (∀ m, m ∈ ms → m = ACommit (a_view s) c) →
  step_ok y i {| a_status := Status.Normal; a_view := a_view s; a_last := a_last s;
                 a_log := a_log s; a_commit := c; a_nonce := a_nonce s |} ms.
Proof.
  intros Hst Hc Hms. pose proof (ai_view _ Hy i) as [Hv _]. pose proof (kept_log ms) as Hl.
  rewrite log_view_normal in Hl by done.
  split; rewrite ?log_view_normal by done; simpl; try done;
    try (intros; match goal with H : _ ∈ ms |- _ => apply Hms in H; discriminate H end).
  intros v c' [= -> ->]%Hms. done.
Qed.

Lemma announce_ok : a_status s = Status.Normal → step_ok y i s [ACommit (a_view s) (a_commit s)].
Proof.
  intros Hst. split; try no_msg.
  - apply Hy.
  - split_and!; [lia|lia|done].
  - apply kept_log.
  - apply kept_commit.
  - intros v c [= -> ->]%list_elem_of_singleton. rewrite <- log_view_normal by done. apply kept_commit.
Qed.

Lemma learn_ok c :
  a_status s = Status.Normal → ACommit (a_view s) c ∈ a_sent y → valid_commit (a_sent y ++ []) (a_view s) c.
Proof. intros Hst Hm. rewrite app_nil_r. by apply (ai_announced _ Hy). Qed.

Lemma advance_ok Q :
  a_status s = Status.Normal → 0 ≤ a_commit s → a_commit s + 1 ≤ Z.of_nat (length (a_log s)) →
  aquorum Q → (∀ j, j ∈ Q → has_acked (a_sent y) j (a_view s) (Z.to_nat (a_commit s + 1))) →
  valid_commit (a_sent y ++ []) (a_view s) (a_commit s + 1).
Proof.
  intros Hst Hc Hlen HQ Hack. rewrite app_nil_r. pose proof (ai_view _ Hy i) as [Hv _].
  pose proof (ai_commit _ Hy i) as Hold. pose proof (ai_log _ Hy i) as Hlog.
  rewrite log_view_normal in Hold, Hlog by done. intros k Hk.
  destruct (decide (Z.of_nat k ≤ a_commit s)); [apply Hold; lia|].
  exists (a_view s), (take k (a_log s)). split_and!; [lia|lia|rewrite length_take; lia|]. split.
  - exists (a_log s). split; [done|apply prefix_take].
  - exists Q. split; [done|]. intros j Hj. rewrite length_take, Nat.min_l by lia.
    replace k with (Z.to_nat (a_commit s + 1)) by lia. by apply Hack.
Qed.

Lemma leave_ok st v n :
  a_status s = Status.Normal →
  (st = Status.Changing ∧ v = a_view s + 1 ∨ st = Status.Recovering ∧ v = a_view s) → 
  let last := match st with Status.Changing => a_view s | _ => a_last s end in
  step_ok y i {| a_status := st; a_view := v; a_last := last; a_log := a_log s;
                 a_commit := a_commit s; a_nonce := n |} [].
Proof.
  intros Hst Hor last. pose proof (ai_view _ Hy i) as [Hv _].
  pose proof (kept_commit []) as Hc. pose proof (kept_log []) as Hl.
  rewrite log_view_normal in Hc, Hl by done.
  destruct Hor as [[-> ->]|[-> ->]]; subst last;
    (split; [..|no_msg|no_msg|no_msg|no_msg|no_msg]); rewrite ?(log_view_normal s) by done;
    unfold log_view; simpl; try done; try (split; [lia|done || lia]); split_and!; (lia || done).
Qed.

Lemma send_dvc_ok :
  i ∈ ids → a_status s = Status.Changing →
  step_ok y i s [ADvc (a_view s) i (a_last s) (a_log s) (a_commit s)].
Proof.
  intros Hi Hst. split; try no_msg.
  - apply Hy.
  - split_and!; [lia|lia|done].
  - apply kept_log.
  - apply kept_commit.
  - intros v j w l c [= -> -> -> -> ->]%list_elem_of_singleton.
    split_and!; try done. unfold log_view. by rewrite Hst.
Qed.

Lemma start_ok D d c :
  a_status s = Status.Changing → primary (a_view s) = i →
  (∀ d, d ∈ D → ADvc (a_view s) (d_from d) (d_last d) (d_log d) (d_commit d) ∈ a_sent y) →
  NoDup (d_from <$> D) → (f + 1 ≤ length D)%nat → d ∈ D → (∀ d', d' ∈ D → dvc_better d' d) →
  (c = a_commit s ∨ ∃ d', d' ∈ D ∧ c = d_commit d') →
  step_ok y i {| a_status := Status.Normal; a_view := a_view s; a_last := a_last s;
                 a_log := d_log d; a_commit := c; a_nonce := a_nonce s |} [ASv (a_view s) (d_log d) c].
Proof.
  intros Hst Hp HD Hnd Hlen Hd Hbest Hc. pose proof (ai_view _ Hy i) as [Hv Hlt]. specialize (Hlt Hst).
  assert (log_view s = a_last s) as Hlv by (unfold log_view; by rewrite Hst).
  assert (valid_commit (a_sent y ++ [ASv (a_view s) (d_log d) c]) (a_view s) c) as Hvc.
  { destruct Hc as [->|(d' & Hd' & ->)].
    - eapply valid_commit_le; [apply kept_commit|lia].
    - apply HD in Hd'. destruct (ai_dvc _ Hy _ _ _ _ _ Hd') as (_ & Hw & _ & _ & Hc & _).
      eapply valid_commit_le; [eapply valid_commit_mono; [apply sent_grows|exact Hc]|lia]. }
  split; rewrite ?log_view_normal by done; simpl; try no_msg.
  - by split.
  - rewrite Hlv. unfold log_view. simpl. split_and!; [lia|lia|intros; exfalso; lia].
  - apply (valid_log_start _ _ _ c). set_solver.
  - done.
  - intros v l c' [= -> -> ->]%list_elem_of_singleton. split_and!; [done|lia|lia| |done|].
    + intros l' c'' [H|H]%elem_of_app; [|by apply list_elem_of_singleton in H as [= -> _]].
      apply (ai_start _ Hy) in H. rewrite Hp in H. simpl in H. lia.
    + exists D, d. done.
Qed.

Lemma adopt_ok l c ks :
  a_status s = Status.Changing → ASv (a_view s) l c ∈ a_sent y →
  Forall (λ k, (k ≤ length l)%nat) ks →
  step_ok y i {| a_status := Status.Normal; a_view := a_view s; a_last := a_last s;
                 a_log := l; a_commit := c; a_nonce := a_nonce s |} ((λ k, AOk (a_view s) k i) <$> ks).
Proof.
  intros Hst Hm Hks. pose proof (ai_view _ Hy i) as [Hv Hlt]. specialize (Hlt Hst).
  assert (log_view s = a_last s) as Hlv by (unfold log_view; by rewrite Hst).
  split; rewrite ?log_view_normal by done; simpl;
    try (intros; match goal with H : _ ∈ _ <$> ks |- _ =>
           apply list_elem_of_fmap in H as (? & H & _); discriminate H end).
  - by split.
  - rewrite Hlv. unfold log_view. simpl. split_and!; [lia|lia|intros; exfalso; lia].
  - eapply valid_log_mono; [apply sent_grows|]. by eapply valid_log_start.
  - eapply valid_commit_mono; [apply sent_grows|]. by eapply (ai_sv_commit _ Hy).
  - intros v k j (k' & [= -> -> ->] & Hk')%list_elem_of_fmap. rewrite Forall_forall in Hks.
    split_and!; [done..|by apply Hks].
Qed.

Lemma respond_ok k n : a_status s = Status.Normal → step_ok y i s [AResp k n i (a_view s) (a_log s) (a_commit s)].
Proof.
  intros Hst. split; try no_msg.
  - apply Hy.
  - split_and!; [lia|lia|done].
  - apply kept_log.
  - apply kept_commit.
Qed.

Hypothesis primary_member : ∀ v, primary v ∈ ids.

(** The log adopted after a recovery extends the log of the same view. *)
Lemma recovered_prefix (D : list dvc) d :
  rinv y → a_status s = Status.Recovering →
  (∀ d, d ∈ D → a_view s ≤ d_last d ∧
     AResp i (a_nonce s) (d_from d) (d_last d) (d_log d) (d_commit d) ∈ a_sent y) →
  (∀ j, j ∈ ids → j ≠ i → j ∈ d_from <$> D) → d ∈ D → (∀ d', d' ∈ D → dvc_better d' d) →
  a_view s = d_last d → a_log s `prefix_of` d_log d.
Proof.
  intros Hr Hst HD Hall Hd Hbest Hv.
  destruct (HD d Hd) as [_ Hm]. destruct (ri_response _ Hr _ _ _ _ _ _ Hm) as (_ & Hvalid & _).
  pose proof (ai_log _ Hy i) as Hlog. unfold log_view in Hlog. rewrite Hst in Hlog.
  rewrite <- Hv in Hvalid. eapply (valid_prefix y Hy); [exact Hlog|exact Hvalid|done|].
  destruct (decide (primary (a_view s) = i)) as [Hp|Hp].
  - destruct (ri_primary _ Hr i Hst Hp) as (j & Hj & Hji & _ & Hlt).
    apply Hall, list_elem_of_fmap in Hj as (dj & -> & Hdj); [|done].
    destruct (HD dj Hdj) as [_ Hmj]. apply Hlt in Hmj.
    specialize (Hbest dj Hdj). unfold dvc_better in Hbest. lia.
  - pose proof (primary_member (a_view s)) as Hin.
    apply Hall, list_elem_of_fmap in Hin as (dp & Hdp & HdpD); [|done].
    destruct (HD dp HdpD) as [Hle Hmp]. specialize (Hbest dp HdpD). unfold dvc_better in Hbest.
    assert (d_last dp = a_view s) as Heq by lia. rewrite <- Hdp, Heq in Hmp.
    apply (ri_backup _ Hr) in Hmp; [|done|done]. lia.
Qed.

Lemma recovered_ok (D : list dvc) d n :
  rinv y → a_status s = Status.Recovering →
  (∀ d, d ∈ D → a_view s ≤ d_last d ∧
     AResp i (a_nonce s) (d_from d) (d_last d) (d_log d) (d_commit d) ∈ a_sent y) →
  (∀ j, j ∈ ids → j ≠ i → j ∈ d_from <$> D) → d ∈ D → (∀ d', d' ∈ D → dvc_better d' d) →
  step_ok y i {| a_status := Status.Normal; a_view := d_last d; a_last := a_last s;
                 a_log := d_log d; a_commit := d_commit d; a_nonce := n |} [].
Proof.
  intros Hr Hst HD Hall Hd Hbest. pose proof (recovered_prefix D d Hr Hst HD Hall Hd Hbest) as Hpre.
  destruct (HD d Hd) as [Hle Hm]. destruct (ri_response _ Hr _ _ _ _ _ _ Hm) as (_ & Hvalid & Hvc).
  pose proof (ai_view _ Hy i) as [Hv _].
  split; rewrite ?log_view_normal, ?app_nil_r by done; simpl; try no_msg; try done.
  - split; [lia|done].
  - unfold log_view. rewrite Hst. simpl. split_and!; [lia|lia|done].
Qed.
End steps.

Hypothesis primary_member : ∀ v, primary v ∈ ids.

(** A step of the system is a step of one replica that provides what is needed. *)
Lemma astep_update y y' :
  ainv y → rinv y → astep y y' → ∃ i s' ms, y' = update i s' ms y ∧ step_ok y i s' ms.
Proof.
  intros Hy Hr. destruct 1 as [y i s e <- Hst Hp|y i s e <- Hst Hp Hm|y i s c <- Hst Hm
    |y i s Q <- Hst Hc Hlen HQ Hack|y i s <- Hst|y i s <- Hst|y i s Hi <- Hst
    |y i s D d c <- Hst Hp HD Hnd Hlen Hd Hbest Hc|y i s l c ks <- Hst Hm Hks|y i s n <- Hst Hfresh Hp
    |y i s k n <- Hst|y i s D d n <- Hst HD Hall Hd Hbest];
    eexists i, _, _; (split; [reflexivity|]).
  - by apply request_ok.
  - by apply prepare_ok.
  - apply commit_ok; [done|done|by apply learn_ok|set_solver].
  - apply commit_ok; [done|done|by eapply advance_ok|set_solver].
  - by apply announce_ok.
  - apply (leave_ok y i Hy Status.Changing); [done|by left].
  - by apply send_dvc_ok.
  - by apply start_ok with D.
  - by apply adopt_ok.
  - apply (leave_ok y i Hy Status.Recovering); [done|by right].
  - by apply respond_ok.
  - by apply recovered_ok with D.
Qed.

Lemma astep_inv y y' : ainv y → rinv y → astep y y' → ainv y'.
Proof.
  intros Hy Hr Hs. destruct (astep_update y y' Hy Hr Hs) as (i & s' & ms & -> & Hok). by apply update_inv.
Qed.

(** Responses only a replica in normal operation sends. *)
Lemma update_rinv y i s' ms :
  ainv y → rinv y → step_ok y i s' ms →
  (a_status s' = Status.Recovering → a_status (a_reps y i) = Status.Normal ∧ ms = [] ∧
     (∀ j v l c, AResp i (a_nonce s') j v l c ∉ a_sent y) ∧
     a_view s' = a_view (a_reps y i) ∧
     (primary (a_view s') = i → ∃ j, j ∈ ids ∧ j ≠ i ∧ a_view s' < a_view (a_reps y j))) →
  (∀ k n j v l c, AResp k n j v l c ∈ ms →
     s' = a_reps y i ∧ a_status s' = Status.Normal ∧ j = i ∧ v = a_view s' ∧ l = a_log s' ∧ c = a_commit s') →
  rinv (update i s' ms y).
Proof.
  intros Hy Hr Hok Hrec Hms. pose proof (so_grow _ _ _ _ Hok) as (Hgrow & _).
  assert (∀ j, a_view (a_reps y j) ≤ a_view (a_reps (update i s' ms y) j)) as Hmono.
  { intros j. simpl. case_decide; [by subst|lia]. }
  split; simpl.
  - intros k n j v l c [H|H]%elem_of_app.
    + destruct (ri_response _ Hr _ _ _ _ _ _ H) as (Hv & Hl & Hc). split_and!; [done| |].
      * eapply valid_log_mono; [apply sent_grows|done].
      * eapply valid_commit_mono; [apply sent_grows|done].
    + apply Hms in H as (-> & Hst & -> & -> & -> & ->). pose proof (ai_view _ Hy i) as [Hv _].
      rewrite <- (log_view_normal _ Hst). split_and!; [rewrite log_view_normal by done; lia| |].
      * eapply valid_log_mono; [apply sent_grows|apply Hy].
      * eapply valid_commit_mono; [apply sent_grows|apply Hy].
  - intros k Hst Hp. case_decide as Hk; [subst k|].
    + destruct (Hrec Hst) as (_ & -> & Hfresh & Hv & Hex). destruct (Hex Hp) as (j & Hj & Hji & Hlt).
      exists j. rewrite decide_False by done. split_and!; [done..|]. intros v l c.
      rewrite app_nil_r. intros H. by apply Hfresh in H.
    + destruct (ri_primary _ Hr k Hst Hp) as (j & Hj & Hjk & Hlt & Hall). exists j. split_and!; [done..| |].
      * pose proof (Hmono j) as Hm. simpl in Hm. lia.
      * intros v l c [H|H]%elem_of_app; [by eapply Hall|].
        apply Hms in H as (-> & _ & -> & -> & _). done.
  - intros k l c Hst Hp. case_decide as Hk; [subst k|].
    + destruct (Hrec Hst) as (_ & -> & Hfresh & _). rewrite app_nil_r. intros H. by apply Hfresh in H.
    + intros [H|H]%elem_of_app; [by eapply (ri_backup _ Hr)|].
      apply Hms in H as (-> & Hst' & Hi & Hv & -> & _). rewrite <- Hi.
      apply (primary_log_longest y Hy).
      * pose proof (ai_log _ Hy k) as Hlog. unfold log_view in Hlog. by rewrite Hst in Hlog.
      * rewrite Hi, log_view_normal by done. by symmetry.
Qed.

Ltac no_response := intros ? ? ? ? ? ? Hresp;
  first [by apply not_elem_of_nil in Hresp | apply list_elem_of_singleton in Hresp; discriminate Hresp
        | apply list_elem_of_fmap in Hresp as (? & Hresp & _); discriminate Hresp].

Lemma astep_rinv y y' : ainv y → rinv y → astep y y' → rinv y'.
Proof.
  intros Hy Hr. destruct 1 as [y i s e <- Hst Hp|y i s e <- Hst Hp Hm|y i s c <- Hst Hm
    |y i s Q <- Hst Hc Hlen HQ Hack|y i s <- Hst|y i s <- Hst|y i s Hi <- Hst
    |y i s D d c <- Hst Hp HD Hnd Hlen Hd Hbest Hc|y i s l c ks <- Hst Hm Hks|y i s n <- Hst Hfresh Hp
    |y i s k n <- Hst|y i s D d n <- Hst HD Hall Hd Hbest];
    apply update_rinv; simpl; try done; try (rewrite Hst; done); try no_response.
  - by apply request_ok.
  - by apply prepare_ok.
  - apply commit_ok; [done|done|by apply learn_ok|set_solver].
  - apply commit_ok; [done|done|by eapply advance_ok|set_solver].
  - by apply announce_ok.
  - apply (leave_ok y i Hy Status.Changing); [done|by left].
  - by apply send_dvc_ok.
  - by apply start_ok with D.
  - by apply adopt_ok.
  - apply (leave_ok y i Hy Status.Recovering); [done|by right].
  - by apply respond_ok.
  - intros k' n' j v l c [= -> -> -> -> -> ->]%list_elem_of_singleton. done.
  - by apply recovered_ok with D.
Qed.

Lemma ainit_inv : ainv ainit.
Proof.
  split; simpl; try (intros; match goal with H : _ ∈ [] |- _ => by apply not_elem_of_nil in H end).
  - intros _. split; [lia|done].
  - intros _. exists []. split_and!; [by left|done|]. intros j e _ H. by rewrite lookup_nil in H.
  - intros i v k [H|[_ [e H]]]; by apply not_elem_of_nil in H.
  - intros _ k Hk. lia.
Qed.

Lemma ainit_rinv : rinv ainit.
Proof. split; simpl; try done; intros; match goal with H : _ ∈ [] |- _ => by apply not_elem_of_nil in H end. Qed.

(** ** Committed operations are in every later log *)

Hypothesis quorums_meet : ∀ Q1 Q2, aquorum Q1 → aquorum Q2 → ∃ i, i ∈ Q1 ∧ i ∈ Q2.

Section safety.
Context (y : asys) (Hy : ainv y).

Lemma committed_in_started v' l c v p :
  ASv v' l c ∈ a_sent y → is_committed (a_sent y) v p → 0 ≤ v < v' → p `prefix_of` l.
Proof.
  revert l c. induction (Z.lt_wf 0 v') as [v' _ IH]. intros l c Hsv Hcom Hv.
  destruct (ai_chosen _ Hy _ _ _ Hsv) as (D & d & HD & Hnd & Hlen & Hd & Hlog & Hbest).
  destruct Hcom as [(lp & Hlp & Hp) (Q & HQ & Hack)].
  destruct (quorums_meet Q (list_to_set (d_from <$> D)) HQ) as (i & HiQ & HiD).
  { split.
    - intros j (d' & -> & Hd')%elem_of_list_to_set%list_elem_of_fmap.
      apply HD, (ai_dvc _ Hy) in Hd'. apply Hd'.
    - by rewrite size_list_to_set, length_fmap by done. }
  apply elem_of_list_to_set, list_elem_of_fmap in HiD as (di & Hdi & HdiD).
  destruct (ai_dvc _ Hy _ _ _ _ _ (HD di HdiD)) as (_ & Hwi & _ & _ & _ & Hacki).
  destruct (Hacki v (length p)) as [Hvw Hvlen]; [rewrite <- Hdi; auto|lia|].
  destruct (ai_dvc _ Hy _ _ _ _ _ (HD d Hd)) as (_ & Hwd & _ & Hvalid & _ & _).
  rewrite Hlog in Hvalid. pose proof (Hbest di HdiD) as Hb. unfold dvc_better in Hb.
  destruct (decide (d_last d = v)) as [Heq|Hne].
  - rewrite Heq in *. eapply (valid_prefix y Hy); [exact Hlp|exact Hvalid|done|].
    rewrite <- Hlog. assert (v = d_last di) as E by lia. specialize (Hvlen E). lia.
  - destruct Hvalid as (l0 & [[Hz _]|[c0 Hsv0]] & Hpre & _); [lia|].
    transitivity l0; [|done]. eapply (IH (d_last d)); [lia|exact Hsv0| |lia].
    split; [by exists lp|by exists Q].
Qed.

Lemma committed_in_log w l v p :
  valid_log (a_sent y) w l → is_committed (a_sent y) v p → 0 ≤ v ≤ w →
  (v = w → (length p ≤ length l)%nat) → p `prefix_of` l.
Proof.
  intros Hl Hcom Hv Hlen. destruct (decide (v = w)) as [->|Hne].
  - destruct Hcom as [(lp & Hlp & Hp) _]. eapply (valid_prefix y Hy); eauto.
  - destruct Hl as (l0 & [[Hz _]|[c0 Hsv]] & Hpre & _); [lia|]. transitivity l0; [|done].
    eapply committed_in_started; [exact Hsv|done|lia].
Qed.

Lemma committed_agree v p v' p' :
  is_committed (a_sent y) v p → is_committed (a_sent y) v' p' → 0 ≤ v ≤ v' → length p = length p' → p = p'.
Proof.
  intros Hp Hp' Hv Hlen. destruct Hp' as [(l & Hl & Hpre) _].
  pose proof (prefix_length _ _ Hpre) as Hle.
  assert (p `prefix_of` l) as Hpre' by (eapply committed_in_log; [exact Hl|done|lia|lia]).
  destruct (prefix_weak_total p p' l) as [H|H]; [done|done| |].
  - by apply prefix_length_eq; [|lia].
  - symmetry. by apply prefix_length_eq; [|lia].
Qed.

(** What a replica holds up to its commit number was committed. *)
Lemma held_committed i (k : nat) :
  let s := a_reps y i in
  1 ≤ Z.of_nat k → Z.of_nat k ≤ a_commit s → (k ≤ length (a_log s))%nat →
  ∃ v, 0 ≤ v ≤ log_view s ∧ is_committed (a_sent y) v (take k (a_log s)).
Proof.
  cbv zeta. intros Hk Hc Hl.
  destruct (ai_commit _ Hy i k) as (v & p & Hv & Hlen & Hp); [lia|].
  assert (p `prefix_of` a_log (a_reps y i)) as [t Ht]
    by (eapply committed_in_log; [apply (ai_log _ Hy)|done|lia|lia]).
  exists v. rewrite Ht, <- Hlen, take_app_length. split; [lia|done].
Qed.
End safety.

(** ** Runs *)

Definition asteps : asys → asys → Prop := rtc astep.

Definition aok (y : asys) : Prop := ainv y ∧ rinv y.

Lemma asteps_ok y y' : aok y → asteps y y' → aok y'.
Proof.
  intros H Hs. induction Hs as [|y1 y2 y3 Hs _ IH]; [done|]. apply IH. destruct H.
  split; [by eapply astep_inv|by eapply astep_rinv].
Qed.

Lemma astep_sent y y' m : astep y y' → m ∈ a_sent y → m ∈ a_sent y'.
Proof. destruct 1; simpl; apply sent_grows. Qed.

Lemma asteps_sent y y' m : asteps y y' → m ∈ a_sent y → m ∈ a_sent y'.
Proof. induction 1 as [|y1 y2 y3 Hs _ IH]; [done|]. intros Hm. by apply IH, (astep_sent y1). Qed.

(** The view of a replica's log never decreases, and within a view its log grows. *)
Lemma asteps_grow y y' i :
  aok y → asteps y y' →
  log_view (a_reps y i) ≤ log_view (a_reps y' i) ∧
  (log_view (a_reps y i) = log_view (a_reps y' i) → a_log (a_reps y i) `prefix_of` a_log (a_reps y' i)).
Proof.
  intros Hok Hs. induction Hs as [y|y1 y2 y3 Hs Hs' IH]; [split; [lia|done]|]. destruct Hok as [Hy Hr].
  destruct (astep_update _ _ Hy Hr Hs) as (j & s' & ms & -> & Hj).
  pose proof (old_log_view y1 j s' ms Hj i) as Hv. pose proof (old_log_prefix y1 j s' ms Hj i) as Hp.
  destruct IH as [IH1 IH2]; [split; [by apply update_inv|by eapply astep_rinv]|]. split; [lia|].
  intros Heq. etrans; [apply Hp; lia|apply IH2; lia].
Qed.

(** Committed operations that a replica holds stay in its log. *)
Lemma asteps_keep y y' i v p :
  aok y → asteps y y' → is_committed (a_sent y) v p → 0 ≤ v ≤ log_view (a_reps y i) →
  p `prefix_of` a_log (a_reps y i) → p `prefix_of` a_log (a_reps y' i).
Proof.
  intros Hok Hs Hcom Hv Hp. destruct (asteps_grow y y' i Hok Hs) as [Hg1 Hg2].
  destruct (asteps_ok _ _ Hok Hs) as [Hy' _].
  destruct (decide (log_view (a_reps y i) = log_view (a_reps y' i))) as [Heq|Hne]; [etrans; [done|by apply Hg2]|].
  apply (committed_in_log y' Hy' _ _ v p (ai_log _ Hy' i)); [|lia|lia].
  eapply is_committed_mono; [|exact Hcom]. intros m. by eapply asteps_sent.
Qed.

(** What a log holds as operation [k] was prepared as operation [k] of some view. *)
Lemma valid_log_prepared y w l k e :
  ainv y → 0 ≤ w → valid_log (a_sent y) w l → l !! k = Some e → ∃ v, APrepare v (S k) e ∈ a_sent y.
Proof.
  intros Hy. revert l. induction (Z.lt_wf 0 w) as [w _ IH]. intros l Hw (l0 & Hst & Hpre & Hnew) Hk.
  destruct (decide (length l0 ≤ k)%nat) as [Hle|Hlt]; [eauto|].
  destruct Hst as [[_ ->]|[c Hsv]]; [simpl in Hlt; lia|].
  destruct (ai_chosen _ Hy _ _ _ Hsv) as (D & d & HD & _ & _ & Hd & <- & _).
  destruct (ai_dvc _ Hy _ _ _ _ _ (HD d Hd)) as (_ & Hwd & _ & Hvalid & _).
  apply (IH (d_last d)) with (d_log d); [lia|lia|done|].
  destruct (lookup_lt_is_Some_2 (d_log d) k) as [e' He']; [lia|].
  rewrite (prefix_lookup_Some _ _ _ _ He' Hpre) in Hk. congruence.
Qed.

Lemma held_prepared y i k e : ainv y → a_log (a_reps y i) !! k = Some e → ∃ v, APrepare v (S k) e ∈ a_sent y.
Proof.
  intros Hy. apply (valid_log_prepared y (log_view (a_reps y i))); [done| |apply (ai_log _ Hy)].
  pose proof (ai_view _ Hy i). unfold log_view. case_match; lia.
Qed.

(** Operations that replicas hold as committed, at the same time or one later than the
    other, are the same. *)
Lemma committed_logs_agree y y' i j (k : nat) :
  aok y → asteps y y' →
  let si := a_reps y i in let sj := a_reps y' j in
  1 ≤ Z.of_nat k → Z.of_nat k ≤ a_commit si → (k ≤ length (a_log si))%nat →
  Z.of_nat k ≤ a_commit sj → (k ≤ length (a_log sj))%nat →
  take k (a_log si) = take k (a_log sj).
Proof.
  cbv zeta. intros Hy Hs Hk Hci Hli Hcj Hlj. pose proof (asteps_ok _ _ Hy Hs) as [Hy' _]. destruct Hy as [Hy _].
  destruct (held_committed y Hy i k) as (v & Hv & Hcom); [done..|].
  destruct (held_committed y' Hy' j k) as (v' & Hv' & Hcom'); [done..|].
  eapply is_committed_mono in Hcom; [|intros m; by apply (asteps_sent y y' m)].
  assert (length (take k (a_log (a_reps y i))) = length (take k (a_log (a_reps y' j)))) as Hlen
    by (rewrite !length_take; lia).
  destruct (decide (v ≤ v')).
  - eapply (committed_agree y' Hy'); [done|done|lia|done].
  - symmetry. eapply (committed_agree y' Hy'); [done|done|lia|by symmetry].
Qed.

(** ** Lengths *)

Definition is_prepare (m : amsg) : bool := match m with APrepare _ _ _ => true | _ => false end.

(** The number of operations ever prepared. *)
Definition prepared (M : list amsg) : nat := length (filter is_prepare M).

(** The requests ever prepared: client and request number, operation and payload. *)
Definition request : Type := (uint128_t * Z) * (operation.t * list byte).
Definition request_id (e : log_entry) : uint128_t * Z := (le_client_id e, le_request_num e).
Definition request_of (e : log_entry) : request := (request_id e, (le_op_type e, le_payload e)).
Definition prepared_request (m : amsg) : option request :=
  match m with APrepare _ _ e => Some (request_of e) | _ => None end.
Definition prepared_requests (M : list amsg) : list request := omap prepared_request M.

Lemma prepared_requests_elem M q : q ∈ prepared_requests M ↔ ∃ v k e, APrepare v k e ∈ M ∧ q = request_of e.
Proof.
  unfold prepared_requests. rewrite list_elem_of_omap. split.
  - intros (m & Hm & Hq). destruct m; try done. injection Hq as <-. eauto.
  - intros (v & k & e & Hm & ->). by exists (APrepare v k e).
Qed.

Lemma prepared_requests_app M ms : prepared_requests (M ++ ms) = prepared_requests M ++ prepared_requests ms.
Proof. apply omap_app. Qed.

Lemma prepared_requests_length M : length (prepared_requests M) = prepared M.
Proof.
  unfold prepared_requests, prepared. induction M as [|m M IH]; [done|]. rewrite filter_cons.
  destruct m; simpl; [by f_equal|done..].
Qed.

(** If no request was prepared twice, a request has one operation number. *)
Lemma prepared_once M v k e v' k' e' :
  NoDup (fst <$> prepared_requests M) → APrepare v k e ∈ M → APrepare v' k' e' ∈ M → request_id e = request_id e' → k = k'.
Proof.
  induction M as [|m M IH]; [intros _ H; by apply not_elem_of_nil in H|].
  unfold prepared_requests. intros Hnd H H' Heq.
  assert (∀ v k e v0 k0 e0, APrepare v k e ∈ M → request_id e0 = request_id e → APrepare v0 k0 e0 = m → False) as Hno.
  { intros v0 k0 e0 v1 k1 e1 Hin Hid <-. simpl in Hnd. apply NoDup_cons in Hnd as [Hnin _].
    apply Hnin. rewrite Hid. change (request_id e0) with (request_of e0).1. apply list_elem_of_fmap_2.
    apply prepared_requests_elem. eauto. }
  apply elem_of_cons in H as [H|H], H' as [H'|H'].
  - congruence.
  - destruct (Hno _ _ _ v k e H'); done.
  - destruct (Hno _ _ _ v' k' e' H); done.
  - apply IH; try done. unfold prepared_requests. simpl in Hnd. destruct (prepared_request m); [|done].
    by apply NoDup_cons in Hnd as [_ ?].
Qed.

Definition msg_le (n : nat) (m : amsg) : Prop :=
  match m with
  | APrepare _ k _ | AOk _ k _ => (k ≤ n)%nat
  | ADvc _ _ _ l c | ASv _ l c | AResp _ _ _ _ l c => (length l ≤ n)%nat ∧ 0 ≤ c ≤ Z.of_nat n
  | ACommit _ c => 0 ≤ c ≤ Z.of_nat n
  end.

(** No log is longer, and no commit number larger, than that. *)
Record bounded (y : asys) : Prop := {
  bd_log : ∀ i, (length (a_log (a_reps y i)) ≤ prepared (a_sent y))%nat;
  bd_commit : ∀ i, 0 ≤ a_commit (a_reps y i) ≤ Z.of_nat (prepared (a_sent y));
  bd_msgs : Forall (msg_le (prepared (a_sent y))) (a_sent y) }.

Lemma msg_le_mono n n' m : (n ≤ n')%nat → msg_le n m → msg_le n' m.
Proof. intros H. destruct m; simpl; lia. Qed.

Lemma prepared_app M ms : prepared (M ++ ms) = (prepared M + prepared ms)%nat.
Proof. unfold prepared. by rewrite filter_app, length_app. Qed.

Lemma prepared_one v k e : prepared [APrepare v k e] = 1%nat.
Proof. done. Qed.

Lemma update_bounded y i s' ms :
  bounded y →
  let n := prepared (a_sent y ++ ms) in
  (length (a_log s') ≤ n)%nat → 0 ≤ a_commit s' ≤ Z.of_nat n → Forall (msg_le n) ms →
  bounded (update i s' ms y).
Proof.
  intros [Hl Hc Hm] n Hl' Hc' Hm'. assert (prepared (a_sent y) ≤ n)%nat as Hle by (subst n; rewrite prepared_app; lia).
  split; simpl; fold n.
  - intros j. case_decide; [done|]. specialize (Hl j). lia.
  - intros j. case_decide; [done|]. specialize (Hc j). lia.
  - apply Forall_app. split; [|done]. eapply Forall_impl; [exact Hm|]. intros m. by apply msg_le_mono.
Qed.

Lemma astep_bounded y y' : bounded y → astep y y' → bounded y'.
Proof.
  intros Hb. pose proof Hb as [Hl Hc Hm]. rewrite Forall_forall in Hm.
  destruct 1 as [y i s e <- Hst Hp|y i s e <- Hst Hp Hmsg|y i s c <- Hst Hmsg
    |y i s Q <- Hst Hc0 Hlen HQ Hack|y i s <- Hst|y i s <- Hst|y i s Hi <- Hst
    |y i s D d c <- Hst Hp HD Hnd Hlen Hd Hbest Hcs|y i s l c ks <- Hst Hmsg Hks|y i s n <- Hst Hfresh Hp
    |y i s k n <- Hst|y i s D d n <- Hst HD Hall Hd Hbest];
    pose proof (Hl i) as Hli; pose proof (Hc i) as Hci; apply update_bounded; try done;
    rewrite ?prepared_app, ?prepared_one; simpl; rewrite ?length_app; simpl; try lia;
    try (apply Forall_singleton; simpl; lia); try (by apply Forall_nil).
  1, 3, 7, 8: apply Hm in Hmsg; cbn in Hmsg; lia.
  { apply Hm in Hmsg. cbn in Hmsg. apply Forall_singleton. cbn. lia. }
  - apply HD, Hm in Hd. simpl in Hd. lia.
  - destruct Hcs as [->|(d' & Hd' & ->)]; [lia|]. apply HD, Hm in Hd'. simpl in Hd'. lia.
  - apply HD, Hm in Hd. simpl in Hd. apply Forall_singleton. simpl.
    destruct Hcs as [->|(d' & Hd' & ->)]; [lia|]. apply HD, Hm in Hd'. simpl in Hd'. lia.
  - apply Hm in Hmsg. cbn in Hmsg. apply Forall_fmap. eapply Forall_impl; [exact Hks|]. intros k Hk. cbn in Hk |- *. lia.
  - apply HD in Hd as [_ Hd%Hm]. simpl in Hd. lia.
  - apply HD in Hd as [_ Hd%Hm]. simpl in Hd. lia.
Qed.

Lemma asteps_bounded y y' : bounded y → asteps y y' → bounded y'.
Proof. intros Hb. induction 1; eauto using astep_bounded. Qed.

(** ** Entries *)

(** Every entry in a log or a message was prepared, so what holds of the prepared
    entries holds of all. *)
Section entries.
Context (P : log_entry → Prop).

Definition msg_entries (m : amsg) : Prop :=
  match m with
  | APrepare _ _ e => P e
  | ADvc _ _ _ l _ | ASv _ l _ | AResp _ _ _ _ l _ => Forall P l
  | _ => True
  end.

Record entries_ok (y : asys) : Prop := {
  en_log : ∀ i, Forall P (a_log (a_reps y i));
  en_msgs : ∀ m, m ∈ a_sent y → msg_entries m }.

Lemma update_entries y i s' ms :
  entries_ok y → Forall P (a_log s') → Forall msg_entries ms → entries_ok (update i s' ms y).
Proof.
  intros [Hl Hm] Hl' Hm'. split; simpl.
  - intros j. by case_decide.
  - intros m [H|H]%elem_of_app; [by apply Hm|]. rewrite Forall_forall in Hm'. by apply Hm'.
Qed.

Lemma astep_entries y y' :
  entries_ok y → astep y y' → (∀ v k e, APrepare v k e ∈ a_sent y' → P e) → entries_ok y'.
Proof.
  intros Hy. pose proof Hy as [Hl Hm].
  destruct 1 as [y i s e <- Hst Hp|y i s e <- Hst Hp Hmsg|y i s c <- Hst Hmsg
    |y i s Q <- Hst Hc0 Hlen HQ Hack|y i s <- Hst|y i s <- Hst|y i s Hi <- Hst
    |y i s D d c <- Hst Hp HD Hnd Hlen Hd Hbest Hcs|y i s l c ks <- Hst Hmsg Hks|y i s n <- Hst Hfresh Hp
    |y i s k n <- Hst|y i s D d n <- Hst HD Hall Hd Hbest]; intros HP;
    pose proof (Hl i) as Hli; apply update_entries; try done; simpl;
    try (by apply Forall_singleton); try (by apply Forall_nil).
  - apply Forall_app. split; [done|]. apply Forall_singleton. eapply HP, elem_of_app. right.
    by apply list_elem_of_singleton.
  - apply Forall_singleton. eapply HP, elem_of_app. right. by apply list_elem_of_singleton.
  - apply Forall_app. split; [done|]. apply Forall_singleton. by apply (Hm _ Hmsg).
  - exact (Hm _ (HD d Hd)).
  - apply Forall_singleton. exact (Hm _ (HD d Hd)).
  - exact (Hm _ Hmsg).
  - by apply Forall_fmap, Forall_forall.
  - destruct (HD d Hd) as [_ Hr]. exact (Hm _ Hr).
Qed.

Lemma asteps_entries y y' :
  entries_ok y → asteps y y' → (∀ v k e, APrepare v k e ∈ a_sent y' → P e) → entries_ok y'.
Proof.
  intros Hy Hs. revert Hy. induction Hs as [|y1 y2 y3 Hs Hs' IH]; [done|]. intros Hy HP.
  apply IH; [|done]. eapply astep_entries; [done|done|]. intros v k e H. eapply HP, asteps_sent; done.
Qed.
End entries.

(** ** Several steps of one replica *)

(** Replica [i] has moved to [s'] and sent [ms]. *)
Record moves (i : Z) (y : asys) (s' : arep) (ms : list amsg) (y' : asys) : Prop := {
  mv_steps : asteps y y';
  mv_self : a_reps y' i = s';
  mv_other : ∀ j, j ≠ i → a_reps y' j = a_reps y j;
  mv_sent : a_sent y' = a_sent y ++ ms }.

Lemma moves_none i y : moves i y (a_reps y i) [] y.
Proof. split; [apply rtc_refl|done|done|by rewrite app_nil_r]. Qed.

Lemma moves_one i y s' ms : astep y (update i s' ms y) → moves i y s' ms (update i s' ms y).
Proof.
  intros Hs. split; simpl; [by apply rtc_once|by rewrite decide_True| |done].
  intros j Hj. by rewrite decide_False.
Qed.

Lemma moves_trans i y s1 m1 y1 s2 m2 y2 :
  moves i y s1 m1 y1 → moves i y1 s2 m2 y2 → moves i y s2 (m1 ++ m2) y2.
Proof.
  intros [H1 H2 H3 H4] [J1 J2 J3 J4]. split; [by etrans|done| |by rewrite J4, H4, (assoc_L (++))].
  intros j Hj. by rewrite J3, H3.
Qed.

Lemma moves_old i y s' ms y' m : moves i y s' ms y' → m ∈ a_sent y → m ∈ a_sent y'.
Proof. intros [_ _ _ ->]. apply sent_grows. Qed.

Lemma moves_new i y s' ms y' m : moves i y s' ms y' → m ∈ ms → m ∈ a_sent y'.
Proof. intros [_ _ _ ->] H. apply elem_of_app. by right. Qed.

(** [n] commits in a row. *)
Lemma moves_advance i y s n :
  a_reps y i = s → a_status s = Status.Normal → 0 ≤ a_commit s →
  (∀ k, a_commit s < k ≤ a_commit s + Z.of_nat n →
     k ≤ Z.of_nat (length (a_log s)) ∧
     ∃ Q, aquorum Q ∧ ∀ j, j ∈ Q → has_acked (a_sent y) j (a_view s) (Z.to_nat k)) →
  ∃ y', moves i y {| a_status := Status.Normal; a_view := a_view s; a_last := a_last s; a_log := a_log s;
                     a_commit := a_commit s + Z.of_nat n; a_nonce := a_nonce s |} [] y'.
Proof.
  revert y s. induction n as [|n IH]; intros y s Hs Hst Hc Hall.
  - exists y. rewrite Z.add_0_r. destruct s; simpl in *; subst. rewrite <- Hs. apply moves_none.
  - destruct (Hall (a_commit s + 1)) as (Hlen & Q & HQ & Hack); [lia|].
    pose proof (moves_one i y _ _ (a_advance y i s Q Hs Hst Hc Hlen HQ Hack)) as H1.
    match type of H1 with moves _ _ ?s1 _ ?y1 => destruct (IH y1 s1) as [y2 H2] end.
    + apply H1.
    + done.
    + simpl. lia.
    + intros k Hk. simpl in Hk. destruct (Hall k) as (Hlen' & Q' & HQ' & Hack'); [lia|].
      split; [done|]. exists Q'. split; [done|]. simpl. by rewrite app_nil_r.
    + exists y2. pose proof (moves_trans _ _ _ _ _ _ _ _ H1 H2) as H. simpl in H.
      by replace (a_commit s + Z.of_nat (S n)) with (a_commit s + 1 + Z.of_nat n) by lia.
Qed.
End protocol.
