(* ===== verification/Exchange.v ===== *)
(** * Messages that are sent once

    [handle_do_view_change] and [handle_recovery_response] of [src/server/replica.cpp]
    collect messages in vectors and count them, without looking at the senders.  Here
    it is shown for the cluster of [src/server/server_main.cpp] that the messages they
    count come from different replicas nevertheless: every replica sends at most one
    StartViewChange to each peer and one DoViewChange per view, and answers a recovery
    request once.  Process restarts are excluded; messages may be lost and delayed. *)
From S2P Require Import Prelude Types Serialization KeyValue ReplicaState Replica Execution Handlers Queue Recovery Cluster.

(** ** The messages that are counted *)

Inductive mkey :=
  | KSvc (v j : Z)                  (* StartViewChange of [j] for view [v] *)
  | KDvc (v j : Z)                  (* DoViewChange *)
  | KRec (n : uint128_t) (j : Z)    (* recovery request of [j] with nonce [n] *)
  | KResp (n : uint128_t) (j : Z).  (* answer of [j] to the nonce [n] *)

Definition rec_nonce (m : vsr_message) : uint128_t :=
  rq_nonce (rq_deserialize (payload m) {| rq_nonce := U128 0 0 |}).2.
Definition resp_nonce (m : vsr_message) : uint128_t :=
  rr_nonce (rr_deserialize (payload m) {| rr_nonce := U128 0 0; rr_log := ∅ |}).2.

Definition key (m : vsr_message) : option mkey :=
  let h := header m in
  match h_command h with
  | command.start_view_change => Some (KSvc (h_view h) (h_replica h))
  | command.do_view_change => Some (KDvc (h_view h) (h_replica h))
  | command.recovery => Some (KRec (rec_nonce m) (h_replica h))
  | command.recovery_response => Some (KResp (resp_nonce m) (h_replica h))
  | _ => None
  end.

Definition keys (l : list vsr_message) : list mkey := omap key l.

Lemma keys_app l1 l2 : keys (l1 ++ l2) = keys l1 ++ keys l2.
Proof. apply omap_app. Qed.

Lemma keys_submseteq l1 l2 : l1 ⊆+ l2 → keys l1 ⊆+ keys l2.
Proof.
  unfold keys. induction 1 as [|m l1 l2 _ IH|m m' l|m l1 l2 _ IH|l1 l2 l3 _ IH1 _ IH2]; simpl.
  - done.
  - destruct (key m); [by apply submseteq_skip|done].
  - destruct (key m), (key m'); try done. apply submseteq_swap.
  - destruct (key m); [by apply submseteq_cons|done].
  - by etrans.
Qed.

Lemma keys_elem k l : k ∈ keys l ↔ ∃ m, m ∈ l ∧ key m = Some k.
Proof. apply list_elem_of_omap. Qed.

Lemma keys_none l : Forall (λ m, key m = None) l → keys l = [].
Proof. unfold keys. induction 1 as [|m l Hm _ IH]; simpl; [done|]. by rewrite Hm. Qed.

Lemma keys_cons m k l : key m = Some k → keys (m :: l) = k :: keys l.
Proof. intros Hk. unfold keys. simpl. by rewrite Hk. Qed.

Lemma keys_one m k : key m = Some k → keys [m] = [k].
Proof. intros Hk. unfold keys. simpl. by rewrite Hk. Qed.

(** What a successful read returns does not depend on the target object. *)
Lemma rq_any d m m' p : rq_deserialize d m = (true, p) → rq_deserialize d m' = (true, p).
Proof. unfold rq_deserialize. by destruct (read_pod uint128 d) as [[n l]|]. Qed.

Lemma rr_any d n n' p :
  rr_deserialize d {| rr_nonce := n; rr_log := ∅ |} = (true, p) →
  rr_deserialize d {| rr_nonce := n'; rr_log := ∅ |} = (true, p).
Proof. unfold rr_deserialize. by destruct (read_pod uint128 d) as [[k l]|]. Qed.

(** ** The cluster as seen from its replicas *)

Record system := { rep : Z → Replica; net : list packet }.

Definition sent_to (d : Z) (l : list packet) : list vsr_message :=
  pk_msg <$> filter (λ p, pk_dst p = d) l.

(** Messages a replica keeps: its queue and its two collections. *)
Definition held (r : Replica) : list vsr_message :=
  (ib_message <$> message_queue_ r) ++ do_view_change_received_ (state_ r) ++
  recovery_responses_ (state_ r).

(** Everything on its way to replica [d] or kept by it. *)
Definition inbox (d : Z) (x : system) : list vsr_message := sent_to d (net x) ++ held (rep x d).

Lemma sent_to_app d l1 l2 : sent_to d (l1 ++ l2) = sent_to d l1 ++ sent_to d l2.
Proof. unfold sent_to. by rewrite filter_app, fmap_app. Qed.

(** Replica [i] becomes [r] and sends [out]. *)
Definition step_out (i : Z) (r : Replica) (out : list output) (x : system) : system :=
  {| rep := λ j, if decide (j = i) then r else rep x j;
     net := net x ++ concat (route i <$> out) |}.

Definition delivered (i d : Z) (out : list output) : list vsr_message :=
  sent_to d (concat (route i <$> out)).

Lemma delivered_app i d o1 o2 : delivered i d (o1 ++ o2) = delivered i d o1 ++ delivered i d o2.
Proof. unfold delivered. by rewrite fmap_app, concat_app, sent_to_app. Qed.

Definition out_msg (o : output) : vsr_message :=
  match o with send_message _ m | send_to_peer _ m | broadcast_to_peers m => m end.

Lemma delivered_elem i d out m : m ∈ delivered i d out → ∃ o, o ∈ out ∧ m = out_msg o.
Proof.
  unfold delivered, sent_to. intros (p & -> & [_ Hp]%list_elem_of_filter)%list_elem_of_fmap.
  apply list_elem_of_In, in_concat in Hp
    as (ps & (o & -> & Ho)%list_elem_of_In%list_elem_of_fmap & Hp%list_elem_of_In).
  exists o. split; [done|]. destruct o as [[c|] m|q m|m]; simpl in *.
  - case_bool_decide; [|by apply not_elem_of_nil in Hp]. by apply list_elem_of_singleton in Hp as ->.
  - by apply not_elem_of_nil in Hp.
  - destruct (_ && _); [|by apply not_elem_of_nil in Hp]. by apply list_elem_of_singleton in Hp as ->.
  - by apply list_elem_of_fmap in Hp as (q & -> & _).
Qed.

Lemma cluster_ids_elem i : i ∈ cluster_ids ↔ i = 0 ∨ i = 1 ∨ i = 2.
Proof. change cluster_ids with [0; 1; 2]. set_solver. Qed.

Lemma delivered_broadcast i d m :
  i ∈ cluster_ids → d ∈ cluster_ids →
  delivered i d [broadcast_to_peers m] = if decide (d = i) then [] else [m].
Proof.
  rewrite !cluster_ids_elem. intros [->|[->| ->]] [->|[->| ->]]; reflexivity.
Qed.

Lemma delivered_peer i d p m :
  i ∈ cluster_ids → d ∈ cluster_ids → p ∈ cluster_ids → p ≠ i →
  delivered i d [send_to_peer p m] = if decide (d = p) then [m] else [].
Proof.
  rewrite !cluster_ids_elem. intros [->|[->| ->]] [->|[->| ->]] [->|[->| ->]]; done.
Qed.

Lemma inbox_step i r out x d :
  inbox d (step_out i r out x)
  = (sent_to d (net x) ++ delivered i d out) ++ held (if decide (d = i) then r else rep x d).
Proof. unfold inbox. simpl. by rewrite sent_to_app. Qed.

(** ** Arithmetic of the three-replica cluster *)

Definition leader (v : Z) : Z := v mod 3.

Record static (i : Z) (s : ReplicaState) : Prop := {
  st_id : id_ s = i;
  st_f : fault_tolerance_f_ s = 1;
  st_size : size (cluster_config_ s) = 3%nat }.

Lemma leader_range v : 0 ≤ leader v < 3.
Proof. unfold leader. apply Z.mod_pos_bound. lia. Qed.

Lemma leader_member v : leader v ∈ cluster_ids.
Proof. pose proof (leader_range v). apply cluster_ids_elem. lia. Qed.

Lemma static_quorum i s n : static i s → quorum n s = (2 <=? Z.of_nat n).
Proof. intros [_ Hf _]. unfold quorum. by rewrite Hf. Qed.

Lemma static_primary i s : static i s → get_primary_id s = leader (view_ s).
Proof.
  intros [_ Hf _]. unfold get_primary_id. rewrite Hf. change (u32 (2 * 1 + 1)) with 3.
  apply i32_small. pose proof (leader_range (view_ s)). unfold leader in *. lia.
Qed.

Lemma static_is_primary i s : static i s → is_primary s = bool_decide (i = leader (view_ s)).
Proof.
  intros Hs. unfold is_primary. rewrite (static_primary i s Hs), (st_id _ _ Hs).
  case_bool_decide; [by apply Z.eqb_eq|by apply Z.eqb_neq].
Qed.

Lemma static_primary_for_view i s v : static i s → get_primary_id_for_view v s = leader v.
Proof.
  intros [_ _ Hs]. unfold get_primary_id_for_view. rewrite Hs. simpl.
  apply i32_small. pose proof (leader_range v). unfold leader in *. lia.
Qed.

Lemma cluster_ids_u8 i : i ∈ cluster_ids → u8 i = i.
Proof. rewrite cluster_ids_elem. intros [->|[->| ->]]; done. Qed.

(** ** The invariant *)

Abbreviation view_of x j := (view_ (state_ (rep x j))).
Abbreviation status_of x j := (status_ (state_ (rep x j))).
Abbreviation joined x j := (start_view_change_received_ (state_ (rep x j))).

(** Replica [j] will not send its DoViewChange for view [v] any more. *)
Definition dvc_done (r : Replica) (j v : Z) : Prop :=
  v < view_ (state_ r) ∨
  (v = view_ (state_ r) ∧
   (status_ (state_ r) ≠ ReplicaStatus.VIEW_CHANGE ∨ j ∉ start_view_change_received_ (state_ r))).

(** Nonces carry the number of the call of the generator. *)
Definition issued (n : uint128_t) (counter : Z) : Prop := low n mod 2 ^ 32 < counter.

Definition key_ok (x : system) (d : Z) (k : mkey) : Prop :=
  match k with
  | KSvc v j => j ∈ cluster_ids ∧ j ≠ d ∧ v ≤ view_of x j
  | KDvc v j => j ∈ cluster_ids ∧ d = leader v ∧ dvc_done (rep x j) j v
  | KRec n j => j ∈ cluster_ids ∧ j ≠ d ∧ issued n (nonce_counter (rep x j))
  | KResp n j => j ∈ cluster_ids ∧ j ≠ d ∧ issued n (nonce_counter (rep x d)) ∧
                 KRec n d ∉ keys (inbox j x)
  end.

(** The StartViewChange of [j] for the view of [d] will not come any more. *)
Definition svc_gone (x : system) (d j : Z) : Prop :=
  ¬ (KSvc (view_of x d) j ∈ keys (inbox d x)) ∧ view_of x d ≤ view_of x j.

(** A replica in a view change that has sent its DoViewChange cannot reach a quorum of
    StartViewChange messages again: one of the two others is used up. *)
Record svc_ok (x : system) (d : Z) : Prop := {
  sv_gone : ∀ j, j ∈ joined x d → j ∈ cluster_ids ∧ (j ≠ d → svc_gone x d j);
  sv_again : d ∈ joined x d ∨ ∃ j, j ∈ cluster_ids ∧ j ≠ d ∧ ¬ (j ∈ joined x d) ∧ svc_gone x d j }.

Record collected_ok (s : ReplicaState) : Prop := {
  co_dvcs : ∀ m, m ∈ do_view_change_received_ s →
    status_ s = ReplicaStatus.VIEW_CHANGE ∧ h_command (header m) = command.do_view_change ∧
    h_view (header m) = view_ s;
  co_responses : ∀ m, m ∈ recovery_responses_ s →
    status_ s = ReplicaStatus.RECOVERY ∧ h_command (header m) = command.recovery_response ∧
    view_ s ≤ h_view (header m) ∧ resp_nonce m = recovery_nonce_ s }.

(** [N] bounds the number of events so far. *)
Record within (N : Z) (r : Replica) : Prop := {
  wi_view : 0 ≤ view_ (state_ r) ≤ N;
  wi_counter : 0 ≤ nonce_counter r;
  wi_queue : nonce_counter r + Z.of_nat (length (message_queue_ r)) ≤ N }.

Record once (N : Z) (x : system) : Prop := {
  on_static : ∀ i, i ∈ cluster_ids → static i (state_ (rep x i));
  on_within : ∀ i, i ∈ cluster_ids → within N (rep x i);
  on_collected : ∀ i, i ∈ cluster_ids → collected_ok (state_ (rep x i));
  on_nodup : ∀ d, d ∈ cluster_ids → NoDup (keys (inbox d x));
  on_keys : ∀ d k, d ∈ cluster_ids → k ∈ keys (inbox d x) → key_ok x d k;
  on_svc : ∀ d, d ∈ cluster_ids → status_of x d = ReplicaStatus.VIEW_CHANGE → svc_ok x d;
  on_views : ∀ d m, d ∈ cluster_ids → m ∈ inbox d x →
    ∃ j, j ∈ cluster_ids ∧ h_view (header m) ≤ view_of x j;
  on_start : ∀ d m, d ∈ cluster_ids → m ∈ inbox d x →
    h_command (header m) = command.start_view → h_replica (header m) ≠ d }.

(** Only the values of [rep] matter. *)
Lemma once_ext N x x' : (∀ j, rep x j = rep x' j) → net x = net x' → once N x → once N x'.
Proof.
  intros Hr Hn [H1 H2 H3 H4 H5 H6 H7 H8].
  assert (∀ d, inbox d x' = inbox d x) as Hin by (intros d; unfold inbox; by rewrite Hr, Hn).
  split; intros; rewrite <- ?Hr in *; rewrite ?Hin in *; eauto.
  - specialize (H5 d k ltac:(done) ltac:(done)). destruct k; simpl in *; rewrite <- ?Hr, ?Hin; done.
  - destruct (H6 d) as [Hg Ha]; [done|done|].
    assert (∀ j, svc_gone x d j → svc_gone x' d j) as Hgone by (intros j; unfold svc_gone; by rewrite Hin, !Hr).
    split; rewrite <- Hr; [intros j Hj; destruct (Hg j Hj); auto|]. destruct Ha as [|(j & ?)]; [by left|].
    right. exists j. naive_solver.
  - destruct (H7 d m) as (j & Hj & Hle); [done|done|]. exists j. by rewrite <- Hr.
Qed.

(** ** A step of one replica *)

(** What the step of replica [i] from [r] to [r'] adds to the keys of [d]: those of the
    messages sent, and those it keeps for itself. *)
Definition new_keys (i : Z) (out : list output) (self : list mkey) (d : Z) : list mkey :=
  keys (delivered i d out) ++ if decide (d = i) then self else [].

Lemma new_keys_nil i d : new_keys i [] [] d = [].
Proof. unfold new_keys. by case_decide. Qed.

Section step.
Context (N : Z) (x : system) (i : Z) (r' : Replica) (out : list output) (self : list mkey).
Abbreviation r := (rep x i).
Abbreviation x' := (step_out i r' out x).
Abbreviation new := (new_keys i out self).

Hypothesis Hx : once N x.
Hypothesis Hi : i ∈ cluster_ids.
Hypothesis Hview : view_ (state_ r) ≤ view_ (state_ r').
Hypothesis Hdone : ∀ v, dvc_done r i v → dvc_done r' i v.
Hypothesis Hcounter : nonce_counter r ≤ nonce_counter r'.
Hypothesis Hheld : keys (held r') ⊆+ keys (held r) ++ self.
Hypothesis Hnew : ∀ d k, d ∈ cluster_ids → k ∈ new d → k ∉ keys (inbox d x).
Hypothesis Hnodup : ∀ d, d ∈ cluster_ids → NoDup (new d).
Hypothesis Hsvc : ∀ d v j, d ∈ cluster_ids → KSvc v j ∈ new d → j = i ∧ view_ (state_ r) < v.
Hypothesis Hrec : ∀ d n j, d ∈ cluster_ids → KRec n j ∈ new d → j = i ∧ ¬ issued n (nonce_counter r).

Lemma rep_other j : j ≠ i → rep x' j = rep x j.
Proof. intros Hj. simpl. by rewrite decide_False. Qed.

Lemma rep_self : rep x' i = r'.
Proof. simpl. by rewrite decide_True. Qed.

Lemma view_mono j : view_of x j ≤ view_of x' j.
Proof. destruct (decide (j = i)) as [->|Hj]; [by rewrite rep_self|rewrite rep_other by done; lia]. Qed.

Lemma inbox_keys d : keys (inbox d x') ⊆+ keys (inbox d x) ++ new d.
Proof.
  rewrite inbox_step. unfold inbox, new_keys. rewrite !keys_app. destruct (decide (d = i)) as [->|Hd].
  - rewrite <- !(assoc_L (++)). apply submseteq_app; [done|].
    rewrite (Permutation_app_comm (keys (held r)) (keys (delivered i i out) ++ self)), <- (assoc_L (++)).
    apply submseteq_app; [done|]. by rewrite (Permutation_app_comm self).
  - rewrite app_nil_r, <- !(assoc_L (++)). by rewrite (Permutation_app_comm (keys (delivered i d out))).
Qed.

Lemma inbox_key d k : k ∈ keys (inbox d x') → k ∈ keys (inbox d x) ∨ k ∈ new d.
Proof. intros H. apply elem_of_app. eapply elem_of_submseteq; [exact H|apply inbox_keys]. Qed.

Lemma step_nodup d : d ∈ cluster_ids → NoDup (keys (inbox d x')).
Proof.
  intros Hd. destruct (submseteq_Permutation _ _ (inbox_keys d)) as [l Hl].
  assert (NoDup (keys (inbox d x) ++ new d)) as Hnd.
  { apply NoDup_app. split_and!; [by apply (on_nodup _ _ Hx)| |by apply Hnodup].
    intros k Hk Hk'. by apply (Hnew d k). }
  rewrite Hl in Hnd. by apply NoDup_app in Hnd as [? _].
Qed.

Lemma step_key_ok d k : d ∈ cluster_ids → key_ok x d k → k ∈ keys (inbox d x) → key_ok x' d k.
Proof.
  intros Hd Hk Hin. destruct k as [v j|v j|n j|n j]; unfold key_ok in *.
  - destruct Hk as (Hj & Hne & Hv). split_and!; [done|done|]. pose proof (view_mono j). lia.
  - destruct Hk as (Hj & Hl & Hdo). split_and!; [done|done|].
    destruct (decide (j = i)) as [->|Hji]; [rewrite rep_self; auto|by rewrite rep_other].
  - destruct Hk as (Hj & Hne & Hs). split_and!; [done|done|]. unfold issued in *.
    destruct (decide (j = i)) as [->|Hji]; [rewrite rep_self; lia|by rewrite rep_other].
  - destruct Hk as (Hj & Hne & Hs & Hno). split_and!; [done|done| |].
    + unfold issued in *. destruct (decide (d = i)) as [->|Hdi]; [rewrite rep_self; lia|by rewrite rep_other].
    + intros [H|H]%inbox_key; [done|]. apply Hrec in H as [-> Hfresh]; [|done]. done.
Qed.

Lemma step_svc_gone d j : d ∈ cluster_ids → d ≠ i → svc_gone x d j → svc_gone x' d j.
Proof.
  intros Hd Hdi [Hk Hv]. unfold svc_gone. rewrite (rep_other d) by done.
  pose proof (view_mono j). split; [|lia]. intros [H0|H0]%inbox_key; [done|].
  apply Hsvc in H0 as [-> Hlt]; [|done]. lia.
Qed.

Lemma step_once :
  static i (state_ r') → within N r' → collected_ok (state_ r') →
  (∀ d k, d ∈ cluster_ids → k ∈ new d → key_ok x' d k) →
  (status_ (state_ r') = ReplicaStatus.VIEW_CHANGE → svc_ok x' i) →
  (∀ d m, m ∈ delivered i d out → h_view (header m) ≤ view_ (state_ r')) →
  (∀ m, m ∈ held r' → m ∈ held r ∨
     h_view (header m) ≤ view_ (state_ r') ∧ h_command (header m) ≠ command.start_view) →
  (∀ d m, d ∈ cluster_ids → m ∈ delivered i d out →
     h_command (header m) = command.start_view → h_replica (header m) ≠ d) →
  once N x'.
Proof.
  intros Hst Hwi Hco Hkeys Hsvcs Hdel Hh Hstart. split.
  1-3: intros j Hj; destruct (decide (j = i)) as [->|Hji];
    [by rewrite rep_self|rewrite rep_other by done; by apply (Hx)].
  - apply step_nodup.
  - intros d k Hd [Hk|Hk]%inbox_key; [|by apply Hkeys]. apply step_key_ok; [done| |done]. by apply (on_keys _ _ Hx).
  - intros d Hd. destruct (decide (d = i)) as [->|Hdi]; [by rewrite rep_self|].
    rewrite (rep_other d) by done. intros Hs. destruct (on_svc _ _ Hx d Hd Hs) as [Hg Ha].
    split; rewrite (rep_other d) by done.
    + intros j Hj. apply Hg in Hj as [Hj Hgone]. split; [done|]. intros Hne. by apply step_svc_gone, Hgone.
    + destruct Ha as [Ha|(j & Hj & Hne & Hnin & Hgone)]; [by left|right].
      exists j. split_and!; [done..|]. by apply step_svc_gone.
  - intros d m Hd. rewrite inbox_step, !elem_of_app. intros Hm.
    assert (m ∈ inbox d x ∨ h_view (header m) ≤ view_ (state_ r')) as [Hold|Hnew'].
    { unfold inbox. rewrite elem_of_app. case_decide; subst; naive_solver. }
    + destruct (on_views _ _ Hx d m Hd Hold) as (j & Hj & Hle). exists j. split; [done|].
      pose proof (view_mono j). lia.
    + exists i. by rewrite rep_self.
  - intros d m Hd. rewrite inbox_step, !elem_of_app. intros [[Hm|Hm]|Hm] Hc.
    + apply (on_start _ _ Hx d m Hd); [|done]. unfold inbox. rewrite elem_of_app. auto.
    + by apply Hstart.
    + case_decide; subst; [apply Hh in Hm as [Hm|[_ Hm]]; [|done]|];
        (apply (on_start _ _ Hx); [done| |done]; unfold inbox; rewrite elem_of_app; auto).
Qed.
End step.

(** ** Steps that send none of the counted messages *)

Definition unkeyed (i v : Z) (o : output) : Prop :=
  key (out_msg o) = None ∧ h_view (header (out_msg o)) ≤ v ∧
  (h_command (header (out_msg o)) = command.start_view →
   o = broadcast_to_peers (out_msg o) ∧ h_replica (header (out_msg o)) = i).

Lemma unkeyed_delivered v i d out : Forall (unkeyed i v) out → keys (delivered i d out) = [].
Proof.
  rewrite Forall_forall. intros H. apply keys_none, Forall_forall.
  intros m (o & Ho & ->)%delivered_elem. by apply H.
Qed.

Lemma unkeyed_start v i d out m :
  Forall (unkeyed i v) out → i ∈ cluster_ids → d ∈ cluster_ids → m ∈ delivered i d out →
  h_command (header m) = command.start_view → h_replica (header m) ≠ d.
Proof.
  intros Hall Hi Hd. induction Hall as [|o out Ho Hall IH]; [intros H; by apply not_elem_of_nil in H|].
  change (o :: out) with ([o] ++ out). rewrite delivered_app, elem_of_app. intros [Hm|Hm]; [|by apply IH].
  pose proof (delivered_elem _ _ _ _ Hm) as (o' & ->%list_elem_of_singleton & ->).
  intros Hc. destruct Ho as (_ & _ & Ho). destruct (Ho Hc) as [Hb ->]. intros <-.
  rewrite Hb, delivered_broadcast, decide_True in Hm by done. by apply not_elem_of_nil in Hm.
Qed.

Record quiet_step (r r' : Replica) : Prop := {
  qs_static : ∀ i, static i (state_ r) → static i (state_ r');
  qs_counter : nonce_counter r' = nonce_counter r;
  qs_queue : (length (message_queue_ r') ≤ length (message_queue_ r))%nat;
  qs_view : view_ (state_ r) ≤ view_ (state_ r');
  qs_changing : status_ (state_ r') = ReplicaStatus.VIEW_CHANGE →
    status_ (state_ r) = ReplicaStatus.VIEW_CHANGE ∧ view_ (state_ r') = view_ (state_ r) ∧
    start_view_change_received_ (state_ r') = start_view_change_received_ (state_ r);
  qs_held : held r' ⊆+ held r }.

#[export] Instance quiet_preorder : PreOrder quiet_step.
Proof.
  split; [by split|]. intros r1 r2 r3 [H1 H2 H3 H4 H5 H6] [J1 J2 J3 J4 J5 J6].
  split; [naive_solver|congruence|lia|lia| |by etrans].
  intros H. destruct (J5 H) as (Hs & -> & ->). by apply H5.
Qed.

Lemma frame_static i r r' : frame r r' → static i (state_ r) → static i (state_ r').
Proof. intros [Hi Hf Hc _ _ _] [H1 H2 H3]. split; congruence. Qed.

Lemma quiet_done r r' i v : quiet_step r r' → dvc_done r i v → dvc_done r' i v.
Proof.
  intros [_ _ _ Hv Hch _]. unfold dvc_done. intros [Hlt|[-> Hd]]; [left; lia|].
  destruct (decide (view_ (state_ r) = view_ (state_ r'))) as [Heq|]; [|left; lia]. right. split; [done|].
  destruct (decide (status_ (state_ r') = ReplicaStatus.VIEW_CHANGE)) as [Hs|]; [|by left].
  destruct (Hch Hs) as (Hs' & _ & ->). naive_solver.
Qed.

(** The keys of a step without new ones. *)
Lemma quiet_inbox x i r' out d v :
  held r' ⊆+ held (rep x i) → Forall (unkeyed i v) out →
  keys (inbox d (step_out i r' out x)) ⊆+ keys (inbox d x).
Proof.
  intros Hh Hout. rewrite inbox_step. unfold inbox. rewrite !keys_app.
  rewrite (unkeyed_delivered v) by done. rewrite app_nil_r. apply submseteq_app; [done|].
  case_decide; [subst; by apply keys_submseteq|done].
Qed.

Lemma quiet_once N x i r' out :
  once N x → i ∈ cluster_ids → quiet_step (rep x i) r' → collected_ok (state_ r') →
  view_ (state_ r') ≤ N → Forall (unkeyed i (view_ (state_ r'))) out → once N (step_out i r' out x).
Proof.
  intros Hx Hi Hq Hco HN Hout. pose proof Hq as [Hst Hc Hlen Hv Hch Hh].
  pose proof (on_within _ _ Hx i Hi) as [Hw1 Hw2 Hw3].
  assert (∀ d, new_keys i out [] d = []) as Hnone.
  { intros d. unfold new_keys. rewrite (unkeyed_delivered (view_ (state_ r'))) by done. by case_decide. }
  eapply (step_once N x i r' out []); try done;
    try (intros d; intros; rewrite Hnone in *; first [exfalso; by eapply not_elem_of_nil | by apply NoDup_nil_2]).
  - intros v. by apply quiet_done.
  - by rewrite Hc.
  - rewrite app_nil_r. by apply keys_submseteq.
  - apply Hst. by apply (on_static _ _ Hx).
  - split; [lia|lia|]. rewrite Hc. lia.
  - intros Hs. destruct (Hch Hs) as (Hs0 & Hv0 & Hj0). destruct (on_svc _ _ Hx i Hi Hs0) as [Hg Ha].
    assert (∀ j, svc_gone x i j → svc_gone (step_out i r' out x) i j) as Hgone.
    { intros j [Hk Hle]. unfold svc_gone. rewrite rep_self, Hv0. split.
      - contradict Hk. eapply elem_of_submseteq; [exact Hk|]. by eapply quiet_inbox.
      - etrans; [exact Hle|]. apply view_mono. lia. }
    split; rewrite rep_self, Hj0.
    + intros j Hj. apply Hg in Hj as [Hj Hgj]. split; [done|]. intros Hne. by apply Hgone, Hgj.
    + destruct Ha as [Ha|(j & Hj & Hne & Hnin & Hgj)]; [by left|right]. exists j. split_and!; auto.
  - intros d m (o & Ho & ->)%delivered_elem. rewrite Forall_forall in Hout. by apply Hout.
  - intros m Hm. left. by eapply elem_of_submseteq.
  - intros d m. by eapply unkeyed_start.
Qed.

(** Taking the front of the queue away. *)
Lemma pop_held r front rest :
  message_queue_ r = front :: rest → held r = ib_message front :: held (r <| message_queue_ := rest |>).
Proof. intros Hq. unfold held. by rewrite Hq. Qed.

(** ** Handlers *)

(** Execution only sends replies. *)
Definition is_reply (v : Z) (o : output) : Prop :=
  h_command (header (out_msg o)) = command.reply ∧ h_view (header (out_msg o)) = v.

Lemma execute_loop_replies fuel r : Forall (is_reply (view_ (state_ r))) (execute_loop fuel r).2.
Proof.
  revert r. induction fuel as [|fuel IH]; intros r; simpl; [constructor|].
  destruct (_ <? _); [|constructor]. destruct (log_ (state_ r) !! _) as [e|]; [|constructor].
  set (op := u64 (last_executed_op_ (state_ r) + 1)).
  pose proof (execute_op_spec op e r) as Hr1. pose proof (execute_op_outputs op e r) as Ho.
  destruct (execute_op op e r) as [r1 o1]. simpl in Hr1, Ho. specialize (IH r1).
  destruct (execute_loop fuel r1) as [r2 o2]. simpl in *. subst r1. apply Forall_app. split; [|exact IH].
  apply Forall_forall. intros o (_ & c & res & -> & _)%Ho. done.
Qed.

Lemma execute_replies r : Forall (is_reply (view_ (state_ r))) (execute_commited_ops r).2.
Proof. apply execute_loop_replies. Qed.

Lemma advance_replies r : Forall (is_reply (view_ (state_ r))) (advance_primary_commit_number r).2.
Proof.
  unfold advance_primary_commit_number. destruct (is_primary _); cbn [negb]; [|constructor].
  destruct (advance_loop_shape (S (size (log_ (state_ r)))) (state_ r)) as [c ->].
  pose proof (execute_replies (r <| state_ := (state_ r) <| commit_ := c |> |>)) as H. exact H.
Qed.

Lemma replies_unkeyed i v out : Forall (is_reply v) out → Forall (unkeyed i v) out.
Proof.
  intros H. eapply Forall_impl; [exact H|]. intros o [Hc Hv]. unfold unkeyed, key. rewrite Hc, Hv. done.
Qed.

(** A step in which status, view and collections stay as they are. *)
Lemma same_quiet r r' :
  frame r r' → status_ (state_ r') = status_ (state_ r) → view_ (state_ r') = view_ (state_ r) →
  start_view_change_received_ (state_ r') = start_view_change_received_ (state_ r) →
  do_view_change_received_ (state_ r') = do_view_change_received_ (state_ r) →
  recovery_responses_ (state_ r') = recovery_responses_ (state_ r) → quiet_step r r'.
Proof.
  intros Hf Hs Hv Hj Hd Hr. split.
  - intros i. by apply frame_static.
  - apply Hf.
  - by rewrite (frame_queue _ _ Hf).
  - lia.
  - rewrite Hs, Hj. done.
  - unfold held. by rewrite Hd, Hr, (frame_queue _ _ Hf).
Qed.

Lemma same_collected s s' :
  status_ s' = status_ s → view_ s' = view_ s → recovery_nonce_ s' = recovery_nonce_ s →
  do_view_change_received_ s' = do_view_change_received_ s →
  recovery_responses_ s' = recovery_responses_ s → collected_ok s → collected_ok s'.
Proof. intros Hs Hv Hn Hd Hr [H1 H2]. split; rewrite ?Hs, ?Hv, ?Hn, ?Hd, ?Hr; done. Qed.

Section handlers.
Context (env : Env).

(** The handlers of normal operation and pings. *)
Definition ordinary (c : command.t) : Prop :=
  match c with
  | command.start_view_change | command.do_view_change | command.start_view
  | command.recovery | command.recovery_response => False
  | _ => True
  end.

#[global] Instance ordinary_dec c : Decision (ordinary c).
Proof. destruct c; simpl; apply _. Defined.

Lemma ordinary_same inb r :
  ordinary (h_command (header (ib_message inb))) →
  let s := state_ r in let s' := state_ (dispatch env inb r).1 in
  status_ s' = status_ s ∧ view_ s' = view_ s ∧ recovery_nonce_ s' = recovery_nonce_ s ∧
  start_view_change_received_ s' = start_view_change_received_ s ∧
  do_view_change_received_ s' = do_view_change_received_ s ∧
  recovery_responses_ s' = recovery_responses_ s.
Proof.
  unfold dispatch. destruct (h_command _); simpl; try done; intros _.
  - unfold handle_request. simpl. repeat case_match; done.
  - unfold handle_prepare. simpl. case_match; [reshape|]; done.
  - unfold handle_prepare_ok. case_match; [reshape|]; done.
  - unfold handle_commit. simpl. case_match; [reshape|]; done.
Qed.

Lemma ordinary_unkeyed i inb r :
  ordinary (h_command (header (ib_message inb))) → 0 ≤ view_ (state_ r) →
  Forall (unkeyed i (view_ (state_ r))) (dispatch env inb r).2.
Proof.
  intros Hc Hv. unfold dispatch. destruct (h_command _); simpl in *; try done.
  - apply Forall_singleton. unfold unkeyed. simpl. done.
  - unfold handle_request. simpl. repeat case_match; try constructor; try done.
  - unfold handle_prepare. simpl. case_match.
    + match goal with |- context [execute_commited_ops ?r'] =>
        pose proof (execute_replies r') as Hex; destruct (execute_commited_ops r') as [r1 o1] end.
      apply Forall_cons_2; [done|]. apply replies_unkeyed. exact Hex.
    + by apply Forall_singleton.
  - unfold handle_prepare_ok. case_match; [|constructor]. apply replies_unkeyed.
    match goal with |- context [advance_primary_commit_number ?r'] =>
      pose proof (advance_replies r') as Hex end. exact Hex.
  - unfold handle_commit. simpl. case_match; [|constructor]. apply replies_unkeyed.
    match goal with |- context [execute_commited_ops ?r'] =>
      pose proof (execute_replies r') as Hex end. exact Hex.
Qed.
End handlers.

(** A DoViewChange message or a recovery response is added to the collection. *)
Definition add_dvc (m : vsr_message) (r : Replica) : Replica :=
  r <| state_ := (state_ r) <| do_view_change_received_ := do_view_change_received_ (state_ r) ++ [m] |> |>.
Definition add_response (m : vsr_message) (r : Replica) : Replica :=
  r <| state_ := (state_ r) <| recovery_responses_ := recovery_responses_ (state_ r) ++ [m] |> |>.

Lemma add_dvc_held m r : held (add_dvc m r) ≡ₚ m :: held r.
Proof. unfold held. simpl. solve_Permutation. Qed.

Lemma add_response_held m r : held (add_response m r) ≡ₚ m :: held r.
Proof. unfold held. simpl. solve_Permutation. Qed.

(** Nothing is collected outside view changes and recoveries. *)
Lemma collected_normal s :
  do_view_change_received_ s = [] → recovery_responses_ s = [] → collected_ok s.
Proof. intros H1 H2. split; rewrite ?H1, ?H2; intros m Hm; by apply not_elem_of_nil in Hm. Qed.

Lemma no_dvcs s : collected_ok s → status_ s ≠ ReplicaStatus.VIEW_CHANGE → do_view_change_received_ s = [].
Proof.
  intros [H _] Hs. destruct (do_view_change_received_ s) as [|m l]; [done|].
  destruct (H m) as [Hs' _]; [set_solver|done].
Qed.

Lemma no_responses s : collected_ok s → status_ s ≠ ReplicaStatus.RECOVERY → recovery_responses_ s = [].
Proof.
  intros [_ H] Hs. destruct (recovery_responses_ s) as [|m l]; [done|].
  destruct (H m) as [Hs' _]; [set_solver|done].
Qed.

Section view_change.
Context (env : Env).

Lemma do_view_change_quiet inb r r' out :
  status_ (state_ r) = ReplicaStatus.VIEW_CHANGE → collected_ok (state_ (add_dvc (ib_message inb) r)) →
  handle_do_view_change env inb r = (r', out) →
  quiet_step (add_dvc (ib_message inb) r) r' ∧ collected_ok (state_ r') ∧
  view_ (state_ r') = view_ (state_ r) ∧ Forall (unkeyed (u8 (id_ (state_ r))) (view_ (state_ r))) out.
Proof.
  intros Hs Hco. unfold handle_do_view_change. simpl. case_match; [|by intros [= <- <-]].
  destruct (do_view_change_received_ (state_ r) ++ [ib_message inb]) as [|first rest] eqn:Hr;
    [by destruct (do_view_change_received_ (state_ r))|].
  destruct (select_log _ _ first rest) as [[bp bo] mc].
  match goal with |- context [execute_commited_ops ?r1] =>
    pose proof (execute_replies r1) as Hex; destruct (execute_shape r1) as (m & k & Hsh);
    destruct (execute_commited_ops r1) as [r2 o2] end.
  simpl in Hex, Hsh. intros [= <- <-]. subst r2. pose proof (no_responses _ Hco) as Hnr.
  simpl in Hnr. rewrite Hs in Hnr. specialize (Hnr ltac:(done)). split_and!; [|by apply collected_normal|done|].
  - split; simpl; try done; [by intros i []|]. unfold held. simpl. rewrite Hnr.
    rewrite !app_nil_r. by apply submseteq_inserts_r.
  - apply Forall_cons_2; [|apply replies_unkeyed; exact Hex]. done.
Qed.

Lemma start_view_quiet i inb r r' out :
  static i (state_ r) → status_ (state_ r) = ReplicaStatus.VIEW_CHANGE → collected_ok (state_ r) →
  do_view_change_received_ (state_ r) = [] → h_view (header (ib_message inb)) = view_ (state_ r) →
  handle_start_view env inb r = (r', out) →
  quiet_step r r' ∧ collected_ok (state_ r') ∧ view_ (state_ r') = view_ (state_ r) ∧
  Forall (unkeyed i (view_ (state_ r))) out.
Proof.
  intros Hst Hs Hco Hd Hv. unfold handle_start_view.
  pose proof (no_responses _ Hco) as Hnr. rewrite Hs in Hnr. specialize (Hnr ltac:(done)).
  destruct (sv_deserialize _ _) as [[] p]; cbn [negb]; [|intros [= <- <-]; split_and!; done || constructor].
  simpl. destruct (refresh_client_table_shape
    ((state_ r) <| view_ := h_view (header (ib_message inb)) |> <| op_ := h_op (header (ib_message inb)) |>
       <| commit_ := h_commit (header (ib_message inb)) |> <| log_ := sv_log p |>
       <| status_ := ReplicaStatus.NORMAL |>)) as [ct Hct]. simpl in Hct. rewrite Hct. clear Hct.
  match goal with |- context [execute_commited_ops ?r1] =>
    pose proof (execute_replies r1) as Hex; destruct (execute_shape r1) as (m & k & Hsh);
    destruct (execute_commited_ops r1) as [r2 o2] end.
  simpl in Hex, Hsh. intros [= <- <-]. subst r2. split_and!; simpl.
  - split; simpl; try done; [by intros ? []|lia].
  - apply collected_normal; simpl; done.
  - done.
  - apply Forall_app. split; [apply replies_unkeyed; by rewrite <- Hv|]. apply Forall_forall.
    assert (∀ fuel k p s o, o ∈ retroactive_oks fuel k p s → ∃ op, o = send_to_peer p (prepare_ok_msg op s)) as Hoks.
    { induction fuel as [|fuel IH]; intros k' p' s o; simpl; [intros H; by apply not_elem_of_nil in H|].
      destruct (_ <=? _); [|intros H; by apply not_elem_of_nil in H].
      intros [H|H]%elem_of_app; [|by eapply IH]. destruct (log_ s !! k'); [|by apply not_elem_of_nil in H].
      apply list_elem_of_singleton in H as ->. eauto. }
    intros o (op & ->)%Hoks. unfold unkeyed. simpl. split_and!; [done|lia|done].
Qed.

Lemma recovery_response_quiet inb r r' out :
  status_ (state_ r) = ReplicaStatus.RECOVERY → collected_ok (state_ r) →
  h_command (header (ib_message inb)) = command.recovery_response →
  view_ (state_ r) ≤ h_view (header (ib_message inb)) →
  handle_recovery_response env inb r = (r', out) →
  quiet_step (add_response (ib_message inb) r) r' ∧ collected_ok (state_ r') ∧
  (view_ (state_ r') = view_ (state_ r) ∨
   ∃ m, m ∈ ib_message inb :: held r ∧ view_ (state_ r') = h_view (header m)) ∧
  Forall (is_reply (view_ (state_ r'))) out.
Proof.
  intros Hs Hco Hc Hv. unfold handle_recovery_response.
  assert (quiet_step (add_response (ib_message inb) r) r) as Hback.
  { split; simpl; try done; [by intros ? []|]. rewrite add_response_held. by apply submseteq_cons. }
  destruct (rr_deserialize (payload (ib_message inb)) _) as [[] p] eqn:Hp; cbn [negb];
    [|intros [= <- <-]; split_and!; auto].
  destruct (uint128_eqb _ _) eqn:Hn; cbn [negb]; [|intros [= <- <-]; split_and!; auto].
  apply uint128_eqb_eq in Hn. apply (rr_any _ _ (U128 0 0)) in Hp.
  assert (collected_ok (state_ (add_response (ib_message inb) r))) as Hco1.
  { split; simpl; [apply Hco|]. intros m [Hm|Hm]%elem_of_app; [by apply (co_responses _ Hco)|].
    apply list_elem_of_singleton in Hm as ->. split_and!; [done|done|done|].
    unfold resp_nonce. by rewrite Hp. }
  simpl. destruct (quorum _ _); [|intros [= <- <-]; split_and!; [done|done|by left|constructor]].
  destruct (recovery_responses_ (state_ r) ++ [ib_message inb]) as [|first rest] eqn:Hr;
    [by destruct (recovery_responses_ (state_ r))|].
  destruct (best_response_spec first rest) as [Hin _].
  assert (view_ (state_ r) ≤ h_view (header (foldl better_response first rest))) as Hle.
  { rewrite <- Hr in Hin. by apply (co_responses _ Hco1) in Hin as (_ & _ & ? & _). }
  set (best := foldl better_response first rest) in *.
  destruct (rr_deserialize (payload best) _) as [b bp].
  match goal with |- context [refresh_client_table ?s] =>
    destruct (refresh_client_table_shape s) as [ct Hct] end. rewrite Hct. clear Hct.
  match goal with |- context [execute_commited_ops ?r1] =>
    pose proof (execute_replies r1) as Hex; destruct (execute_shape r1) as (m & k & Hsh);
    destruct (execute_commited_ops r1) as [r2 o2] end.
  simpl in Hex, Hsh. intros [= <- <-]. subst r2. split_and!; simpl.
  - split; simpl; try done; [by intros ? []|]. unfold held. simpl. rewrite app_nil_r.
    apply submseteq_app; [done|]. by apply submseteq_inserts_r.
  - apply collected_normal; simpl; [|done]. apply (no_dvcs _ Hco). by rewrite Hs.
  - right. exists best. split; [|done]. rewrite <- Hr in Hin. unfold held. set_solver.
  - exact Hex.
Qed.
End view_change.

(** ** Every micro step keeps the invariant *)

Lemma pop_quiet r front rest :
  message_queue_ r = front :: rest → quiet_step r (r <| message_queue_ := rest |>).
Proof.
  intros Hq. split; simpl; try done; [rewrite Hq; simpl; lia|].
  rewrite (pop_held _ _ _ Hq). by apply submseteq_cons.
Qed.

Lemma add_dvc_quiet r front rest :
  message_queue_ r = front :: rest →
  quiet_step r (add_dvc (ib_message front) (r <| message_queue_ := rest |>)).
Proof.
  intros Hq. split; try done; [by intros ? []|simpl; rewrite Hq; simpl; lia|].
  by rewrite add_dvc_held, (pop_held _ _ _ Hq).
Qed.

Lemma add_response_quiet r front rest :
  message_queue_ r = front :: rest →
  quiet_step r (add_response (ib_message front) (r <| message_queue_ := rest |>)).
Proof.
  intros Hq. split; try done; [by intros ? []|simpl; rewrite Hq; simpl; lia|].
  by rewrite add_response_held, (pop_held _ _ _ Hq).
Qed.

Lemma rr_nonce_round n log m :
  is_u128 n → rr_nonce (rr_deserialize (rr_serialize {| rr_nonce := n; rr_log := log |}) m).2 = n.
Proof.
  intros Hn. unfold rr_deserialize, rr_serialize, write_pod. cbn [rr_nonce rr_log].
  rewrite app_nil_l, write_log_app, (read_pod_write uint128) by done. by destruct (read_log_from_buffer _ _).
Qed.

Lemma rq_wf d m p : rq_deserialize d m = (true, p) → is_u128 (rq_nonce p).
Proof.
  unfold rq_deserialize. destruct (read_pod uint128 d) as [[n l]|] eqn:Hr; [|done].
  intros [= <-]. apply (read_pod_inv uint128) in Hr as (_ & _ & Hn). done.
Qed.

(** The view change of [i] goes on as before. *)
Lemma svc_same x i r' out :
  status_ (state_ (rep x i)) = ReplicaStatus.VIEW_CHANGE → svc_ok x i →
  view_ (state_ r') = view_ (state_ (rep x i)) →
  start_view_change_received_ (state_ r') = start_view_change_received_ (state_ (rep x i)) →
  (∀ k, k ∈ keys (inbox i (step_out i r' out x)) → k ∈ keys (inbox i x)) → svc_ok (step_out i r' out x) i.
Proof.
  intros Hs [Hg Ha] Hv Hj Hk.
  assert (∀ j, svc_gone x i j → svc_gone (step_out i r' out x) i j) as Hgone.
  { intros j [H Hle]. unfold svc_gone. rewrite rep_self, Hv. split; [by intros ?%Hk|].
    etrans; [exact Hle|]. apply view_mono. lia. }
  split; rewrite rep_self, Hj.
  - intros j Hin. destruct (Hg j Hin). auto.
  - destruct Ha as [|(j & ? & ? & ? & ?)]; [by left|right]. exists j. auto.
Qed.

(** Without [i] and one other replica there is no quorum of three. *)
Lemma no_quorum (X : gset Z) i j :
  i ∈ cluster_ids → j ∈ cluster_ids → i ≠ j → (∀ k, k ∈ X → k ∈ cluster_ids) → i ∉ X → j ∉ X →
  (size X < 2)%nat.
Proof.
  intros Hi Hj Hne HX HiX HjX. set (Y := {[i; j]} ∪ X).
  assert (size Y = (2 + size X)%nat) as HY.
  { unfold Y. rewrite size_union by set_solver. rewrite size_union by set_solver. by rewrite !size_singleton. }
  assert (size Y ≤ size (list_to_set cluster_ids : gset Z))%nat as Hle.
  { apply subseteq_size. intros k [[->%elem_of_singleton| ->%elem_of_singleton]%elem_of_union|Hk]%elem_of_union;
      apply elem_of_list_to_set; auto. }
  change (size (list_to_set cluster_ids : gset Z)) with 3%nat in Hle. lia.
Qed.

Section micro.
Context (env : Env) (N : Z) (x : system) (i : Z).
Context (Hx : once N x) (Hi : i ∈ cluster_ids) (HN : N < 2 ^ 32).
Context (front : inbound_message) (rest : list inbound_message).
Context (Hq : message_queue_ (rep x i) = front :: rest).
Abbreviation m := (ib_message front).
Abbreviation r0 := ((rep x i) <| message_queue_ := rest |>).

Lemma front_perm : inbox i x ≡ₚ m :: sent_to i (net x) ++ held r0.
Proof. unfold inbox. rewrite (pop_held _ _ _ Hq). by rewrite <- Permutation_middle. Qed.

Lemma front_inbox : m ∈ inbox i x.
Proof. rewrite front_perm. set_solver. Qed.

Lemma front_key k :
  key m = Some k → k ∈ keys (inbox i x) ∧ key_ok x i k ∧ k ∉ keys (sent_to i (net x) ++ held r0).
Proof.
  intros Hk. assert (k ∈ keys (inbox i x)) as Hin by (apply keys_elem; eauto using front_inbox).
  split_and!; [done|by apply (on_keys _ _ Hx)|].
  pose proof (on_nodup _ _ Hx i Hi) as Hnd.
  rewrite (omap_Permutation key _ _ front_perm : keys _ ≡ₚ keys _) in Hnd. unfold keys in Hnd at 1. simpl in Hnd.
  rewrite Hk in Hnd. by apply NoDup_cons in Hnd as [? _].
Qed.

Lemma rest_within : within N r0.
Proof. destruct (on_within _ _ Hx i Hi) as [H1 H2 H3]. rewrite Hq in H3. simpl in H3. split; simpl; [done|done|lia]. Qed.

(** An answer to a recovery request. *)
Lemma recovery_request_once r' out :
  h_command (header m) = command.recovery → handle_recovery_request env front r0 = (r', out) →
  once N (step_out i r' out x).
Proof.
  intros Hc. unfold handle_recovery_request.
  pose proof (on_collected _ _ Hx i Hi) as Hco. pose proof rest_within as Hwi.
  destruct (rq_deserialize _ _) as [[] p] eqn:Hrq; cbn [negb]; last first.
  { intros [= <- <-]. apply quiet_once; [done|done|by eapply pop_quiet|done|apply Hwi|constructor]. }
  pose proof (rq_wf _ _ _ Hrq) as Hwf. apply (rq_any _ _ {| rq_nonce := U128 0 0 |}) in Hrq.
  set (j := h_replica (header m)). set (n := rq_nonce p) in *.
  assert (key m = Some (KRec n j)) as Hk by (unfold key, rec_nonce; rewrite Hc, Hrq; done).
  destruct (front_key _ Hk) as (Hin & (Hj & Hji & Hiss) & Hno). pose proof (on_static _ _ Hx i Hi) as Hst.
  intros [= <- <-]. match goal with |- context [send_to_peer j ?msg] => set (resp := msg) end.
  assert (∀ d, d ∈ cluster_ids → delivered i d [send_to_peer j resp] = if decide (d = j) then [resp] else []) as Hdel.
  { intros d Hd. by apply delivered_peer. }
  assert (key resp = Some (KResp n i)) as Hkr.
  { unfold key, resp. simpl. unfold resp_nonce. simpl.
    rewrite rr_nonce_round by done. by rewrite (st_id _ _ Hst), cluster_ids_u8. }
  assert (∀ d, d ∈ cluster_ids → new_keys i [send_to_peer j resp] [] d = if decide (d = j) then [KResp n i] else []) as Hnk.
  { intros d Hd. unfold new_keys. rewrite Hdel by done.
    destruct (decide (d = j)), (decide (d = i)); rewrite ?(keys_one _ _ Hkr); done. }
  assert (∀ d k, d ∈ cluster_ids → k ∈ new_keys i [send_to_peer j resp] [] d → d = j ∧ k = KResp n i) as Hnk'.
  { intros d k Hd. rewrite Hnk by done. case_decide; [by intros ->%list_elem_of_singleton|].
    intros Hz. by apply not_elem_of_nil in Hz. }
  assert (inbox i (step_out i r0 [send_to_peer j resp] x) = sent_to i (net x) ++ held r0) as Hown.
  { by rewrite inbox_step, decide_True, Hdel, decide_False, app_nil_r. }
  pose proof (pop_held _ _ _ Hq) as Hheld.
  cut (once N (step_out i r0 [send_to_peer j resp] x)); [intros H; exact H|].
  apply (step_once N x i r0 [send_to_peer j resp] []); try done.
  - rewrite app_nil_r, Hheld. apply keys_submseteq. by apply submseteq_cons.
  - intros d k Hd [-> ->]%Hnk'; [|done]. intros Hin'.
    by apply (on_keys _ _ Hx) in Hin' as (_ & _ & _ & Hin').
  - intros d Hd. rewrite Hnk by done. case_decide; [apply NoDup_singleton|constructor].
  - intros d v k Hd [_ ?]%Hnk'; done.
  - intros d v k Hd [_ ?]%Hnk'; done.
  - intros d k Hd [-> ->]%Hnk'; [|done]. unfold key_ok. rewrite Hown. rewrite rep_other by done. done.
  - intros Hs. apply svc_same; [done|by apply (on_svc _ _ Hx)|done|done|].
    intros k. rewrite Hown, (omap_Permutation key _ _ front_perm : keys _ ≡ₚ keys _). unfold keys at 2. simpl.
    destruct (key m); set_solver.
  - intros d m' (o & ->%list_elem_of_singleton & ->)%delivered_elem. simpl. done.
  - intros m' Hm'. left. rewrite Hheld. apply elem_of_cons. by right.
  - intros d m' Hd (o & ->%list_elem_of_singleton & ->)%delivered_elem. done.
Qed.

(** A StartViewChange of the current view, during a view change. *)
Section start_view_change.
Context (Hc : h_command (header m) = command.start_view_change).
Context (Hv : h_view (header m) = view_of x i) (Hs : status_of x i = ReplicaStatus.VIEW_CHANGE).
Abbreviation j := (h_replica (header m)).
Abbreviation v := (view_of x i).

Lemma svc_front :
  j ∈ cluster_ids ∧ j ≠ i ∧ v ≤ view_of x j ∧ KSvc v j ∈ keys (inbox i x) ∧
  KSvc v j ∉ keys (sent_to i (net x) ++ held r0).
Proof.
  assert (key m = Some (KSvc v j)) as Hk by (unfold key; by rewrite Hc, Hv).
  destruct (front_key _ Hk) as (Hin & (Hj & Hji & Hle) & Hno). done.
Qed.

(** Old StartViewChange messages stay used up. *)
Lemma svc_gone_mono r' out k :
  view_ (state_ r') = v →
  (∀ k, KSvc v k ∈ keys (inbox i (step_out i r' out x)) → KSvc v k ∈ keys (sent_to i (net x) ++ held r0)) →
  svc_gone x i k ∨ k = j → svc_gone (step_out i r' out x) i k.
Proof.
  intros Hv' Hin Hk. destruct svc_front as (Hj & Hji & Hle & Hjin & Hjno).
  unfold svc_gone. rewrite rep_self, Hv'. split.
  - intros H%Hin. destruct Hk as [[Hno _]| ->]; [|done]. apply Hno.
    rewrite (omap_Permutation key _ _ front_perm : keys _ ≡ₚ keys _). unfold keys in *. simpl. destruct (key m); set_solver.
  - etrans; [|apply view_mono; lia]. destruct Hk as [[_ ?]| ->]; done.
Qed.

(** Not yet a quorum. *)
Lemma svc_wait_once :
  let r1 := r0 <| state_ := (state_ r0) <| start_view_change_received_ := {[j]} ∪ joined x i |> |> in
  once N (step_out i r1 [] x).
Proof.
  intros r1. destruct svc_front as (Hj & Hji & Hle & Hjin & Hjno).
  destruct (on_svc _ _ Hx i Hi Hs) as [Hg Ha]. pose proof rest_within as Hwi.
  assert (held r1 = held r0) as Hh by done. pose proof (pop_held _ _ _ Hq) as Hheld.
  assert (inbox i (step_out i r1 [] x) = sent_to i (net x) ++ held r0) as Hown.
  { rewrite inbox_step, decide_True by done. unfold delivered. simpl. by rewrite app_nil_r. }
  assert (∀ k, svc_gone x i k ∨ k = j → svc_gone (step_out i r1 [] x) i k) as Hgone.
  { intros k. apply svc_gone_mono; [done|]. intros k'. by rewrite Hown. }
  apply (step_once N x i r1 [] []); try done;
    try (intros d; intros; rewrite new_keys_nil in *; first [exfalso; by eapply not_elem_of_nil | by apply NoDup_nil_2]).
  - intros v'. unfold dvc_done. simpl. intros [?|[? [?|?]]]; [by left|right; auto|right]. split; [done|right]. set_solver.
  - rewrite app_nil_r, Hh, Hheld. apply keys_submseteq. by apply submseteq_cons.
  - destruct (on_static _ _ Hx i Hi). by split.
  - by destruct Hwi.
  - eapply same_collected, (on_collected _ _ Hx i Hi); done.
  - intros _. split; rewrite rep_self; simpl.
    + intros k [->%elem_of_singleton|Hk]%elem_of_union; [auto|]. apply Hg in Hk as [Hk Hgk]. auto.
    + destruct Ha as [Ha|(k & Hk & Hki & Hknin & Hgk)]; [left; set_solver|right].
      exists k. split_and!; [done|done| |by apply Hgone; left].
      intros [->%elem_of_singleton|?]%elem_of_union; [|done]. by apply (proj1 Hgk).
  - intros d m' H. by apply not_elem_of_nil in H.
  - intros m' Hm'. left. rewrite Hheld. apply elem_of_cons. by right.
  - intros d m' _ H. by apply not_elem_of_nil in H.
Qed.

(** A quorum is only reached before the DoViewChange was sent. *)
Lemma svc_quorum_own : (2 ≤ size ({[j]} ∪ joined x i))%nat → i ∈ joined x i.
Proof.
  intros Hsz. destruct svc_front as (Hj & Hji & Hle & Hjin & Hjno).
  destruct (on_svc _ _ Hx i Hi Hs) as [Hg [Ha|(k & Hk & Hki & Hknin & Hgk)]]; [done|].
  destruct (decide (i ∈ joined x i)) as [|Hnin]; [done|].
  assert (k ≠ j) as Hkj by (intros ->; by apply (proj1 Hgk)).
  pose proof (no_quorum ({[j]} ∪ joined x i) i k Hi Hk) as H. exfalso.
  enough (size ({[j]} ∪ joined x i) < 2)%nat by lia. apply H; [done| |set_solver|set_solver].
  intros k' [->%elem_of_singleton|Hk']%elem_of_union; [done|]. by apply Hg.
Qed.

(** The DoViewChange is sent, or kept if [i] leads the new view. *)
Lemma dvc_sent_once r1 out self :
  i ∈ joined x i →
  static i (state_ r1) → nonce_counter r1 = nonce_counter (rep x i) → message_queue_ r1 = rest →
  view_ (state_ r1) = v → status_ (state_ r1) = ReplicaStatus.VIEW_CHANGE →
  start_view_change_received_ (state_ r1) = ∅ → collected_ok (state_ r1) →
  keys (held r1) ⊆+ keys (held r0) ++ self →
  (∀ m', m' ∈ held r1 → m' ∈ held r0 ∨ h_view (header m') ≤ v ∧ h_command (header m') ≠ command.start_view) →
  (∀ d, d ∈ cluster_ids → new_keys i out self d = if decide (d = leader v) then [KDvc v i] else []) →
  Forall (λ o, h_view (header (out_msg o)) ≤ v ∧ h_command (header (out_msg o)) ≠ command.start_view) out →
  once N (step_out i r1 out x).
Proof.
  intros Hown Hst Hct Hqu Hv1 Hs1 Hsv1 Hco Hheld Hm1 Hnk Hout.
  destruct svc_front as (Hj & Hji & Hle & Hjin & Hjno). pose proof rest_within as Hwi.
  pose proof (pop_held _ _ _ Hq) as Hh0. rewrite Forall_forall in Hout.
  assert (∀ d k, d ∈ cluster_ids → k ∈ new_keys i out self d → d = leader v ∧ k = KDvc v i) as Hnk'.
  { intros d k Hd. rewrite Hnk by done. case_decide; [by intros ->%list_elem_of_singleton|].
    intros Hz. by apply not_elem_of_nil in Hz. }
  assert (keys (held r1) ⊆+ keys (held (rep x i)) ++ self) as Hheld'.
  { etrans; [exact Hheld|]. apply submseteq_app; [|done]. rewrite Hh0. apply keys_submseteq. by apply submseteq_cons. }
  apply (step_once N x i r1 out self); try done.
  - by rewrite Hv1.
  - intros v'. unfold dvc_done. rewrite Hv1, Hs1, Hsv1. intros [?|[? ?]]; [by left|right]. split; [done|right; set_solver].
  - by rewrite Hct.
  - intros d k Hd [-> ->]%Hnk'; [|done]. intros Hin.
    apply (on_keys _ _ Hx) in Hin as (_ & _ & [Hlt|[_ [?|?]]]); [lia|done|done|done].
  - intros d Hd. rewrite Hnk by done. case_decide; [apply NoDup_singleton|constructor].
  - intros d v' k Hd [_ ?]%Hnk'; done.
  - intros d v' k Hd [_ ?]%Hnk'; done.
  - destruct Hwi as [W1 W2 W3]. split; rewrite ?Hv1, ?Hct, ?Hqu; done.
  - intros d k Hd [-> ->]%Hnk'; [|done]. unfold key_ok. rewrite rep_self. split_and!; [done|done|].
    right. rewrite Hv1, Hsv1. split; [done|right; set_solver].
  - intros _. split; rewrite rep_self, Hsv1; [intros k Hk; set_solver|]. right.
    exists j. split_and!; [done|done|set_solver|]. apply svc_gone_mono; [done| |by right].
    intros k Hk. rewrite inbox_step, decide_True in Hk by done. rewrite !keys_app in Hk. rewrite keys_app.
    apply elem_of_app in Hk as [[Hk|Hk]%elem_of_app|Hk].
    + set_solver.
    + destruct (Hnk' i (KSvc v k)) as [_ ?]; [done| |done]. unfold new_keys. set_solver.
    + eapply elem_of_submseteq in Hk; [|exact Hheld]. apply elem_of_app in Hk as [Hk|Hk]; [set_solver|].
      destruct (Hnk' i (KSvc v k)) as [_ ?]; [done| |done]. unfold new_keys. rewrite decide_True by done. set_solver.
  - intros d m' (o & Ho & ->)%delivered_elem. rewrite Hv1. by apply Hout.
  - intros m' Hm'. rewrite Hh0, Hv1. apply Hm1 in Hm'. clear -Hm'. set_solver.
  - intros d m' _ (o & Ho & ->)%delivered_elem ?. by apply Hout in Ho as [_ ?].
Qed.

Lemma svc_once r' out : handle_start_view_change env front r0 = (r', out) → once N (step_out i r' out x).
Proof.
  unfold handle_start_view_change. cbv zeta. pose proof (on_static _ _ Hx i Hi) as Hst.
  set (s1 := (state_ r0) <| start_view_change_received_ := {[j]} ∪ start_view_change_received_ (state_ r0) |>).
  rewrite (static_quorum i s1) by (by destruct Hst). destruct (_ <=? _) eqn:Hle; last first.
  { intros [= <- <-]. exact svc_wait_once. }
  apply Z.leb_le in Hle. assert (i ∈ joined x i) as Hown by (apply svc_quorum_own; exact (proj2 (Nat2Z.inj_le 2 _) Hle)).
  set (s2 := s1 <| start_view_change_received_ := ∅ |>). assert (static i s2) as Hst2 by (by destruct Hst).
  rewrite (static_primary_for_view i s2) by done. rewrite (st_id _ _ Hst2).
  change (view_ s2) with v. set (dvc := do_view_change_msg s2).
  assert (key dvc = Some (KDvc v i)) as Hkd.
  { unfold key, dvc, do_view_change_msg. simpl. by rewrite (st_id _ _ Hst), cluster_ids_u8. }
  assert (collected_ok s2) as Hco2 by (eapply same_collected, (on_collected _ _ Hx i Hi); done).
  set (r2 := r0 <| state_ := s2 |>). assert (held r2 = held r0) as Hh2 by done.
  destruct (leader v =? i) eqn:Hlead; [apply Z.eqb_eq in Hlead|apply Z.eqb_neq in Hlead].
  - destruct (handle_do_view_change env _ r2) as [r3 o3] eqn:Hd. intros [= <- <-].
    assert (collected_ok (state_ (add_dvc dvc r2))) as Hco3.
    { split; simpl; [|apply Hco2]. intros m' [Hm'|Hm']%elem_of_app; [by apply (co_dvcs _ Hco2)|].
      by apply list_elem_of_singleton in Hm' as ->. }
    assert (once N (step_out i (add_dvc dvc r2) [] x)) as H1.
    { apply (dvc_sent_once (add_dvc dvc r2) [] [KDvc v i]); try done.
      - by destruct Hst2.
      - rewrite (omap_Permutation key _ _ (add_dvc_held dvc r2) : keys _ ≡ₚ keys _), Hh2.
        change (omap key (dvc :: held r0)) with (keys (dvc :: held r0)).
        rewrite (keys_cons _ _ _ Hkd). by rewrite (Permutation_cons_append _ (KDvc v i)).
      - intros m'. rewrite add_dvc_held, Hh2. intros [->|?]%elem_of_cons; [right; split; [simpl; lia|done]|by left].
      - intros d Hd'. unfold new_keys, delivered. simpl. rewrite Hlead. done. }
    destruct (do_view_change_quiet env {| ib_connection := None; ib_message := dvc |} r2 _ _ Hs Hco3 Hd) as (Hqt & Hco & Hv3 & Hout).
    eapply (once_ext N (step_out i r3 o3 (step_out i (add_dvc dvc r2) [] x))).
    + intros k. simpl. by case_decide.
    + simpl. by rewrite app_nil_r.
    + apply quiet_once; try done; [by rewrite rep_self|rewrite Hv3; apply rest_within|].
      change (id_ (state_ r2)) with (id_ (state_ (rep x i))) in Hout.
      rewrite (st_id _ _ Hst), cluster_ids_u8 in Hout by done. rewrite Hv3. exact Hout.
  - intros [= <- <-]. apply (dvc_sent_once r2 [send_to_peer (leader v) dvc] []); try done.
    + by rewrite app_nil_r.
    + intros m' Hm'. by left.
    + intros d Hd. unfold new_keys. rewrite delivered_peer by (done || apply leader_member).
      destruct (decide (d = leader v)), (decide (d = i)); rewrite ?(keys_one _ _ Hkd); done.
    + apply Forall_singleton. split; [simpl; lia|done].
Qed.
End start_view_change.

(** *** Dispatching the front of the queue *)

Lemma dispatch_once r' out :
  is_stale m (state_ (rep x i)) = false → can_process front (state_ (rep x i)) = true →
  dispatch env front r0 = (r', out) → once N (step_out i r' out x).
Proof.
  intros Hstale Hcan Hd. pose proof (on_static _ _ Hx i Hi) as Hst.
  pose proof (on_collected _ _ Hx i Hi) as Hco. pose proof rest_within as Hwi.
  pose proof (pop_quiet _ _ _ Hq) as Hpop.
  destruct (decide (ordinary (h_command (header m)))) as [Ho|Ho].
  { pose proof (ordinary_same env front r0 Ho) as (H1 & H2 & H3 & H4 & H5 & H6).
    pose proof (dispatch_frame env front r0) as Hf.
    pose proof (ordinary_unkeyed env i front r0 Ho ltac:(apply Hwi)) as Hu.
    rewrite Hd in *. simpl in *. apply quiet_once; try done.
    - etrans; [exact Hpop|]. by apply same_quiet.
    - by eapply same_collected.
    - rewrite H2. apply Hwi.
    - by rewrite H2. }
  unfold dispatch, can_process, is_stale in *.
  destruct (h_command (header m)) eqn:Hc; try (exfalso; by apply Ho); simpl in Hstale.
  - (* start_view_change *)
    apply andb_true_iff in Hcan as [Hv%Z.eqb_eq Hs%bool_decide_eq_true]. by apply svc_once.
  - (* do_view_change *)
    unfold check_can_process_do_view_change in Hcan.
    destruct (h_view (header m) =? view_of x i) eqn:Hv; [apply Z.eqb_eq in Hv|done]. simpl in Hcan.
    case_bool_decide as Hs; [|done].
    assert (collected_ok (state_ (add_dvc m r0))) as Hco1.
    { split; simpl; [|apply Hco]. intros m' [Hm'|Hm']%elem_of_app; [by apply (co_dvcs _ Hco)|].
      by apply list_elem_of_singleton in Hm' as ->. }
    assert (status_ (state_ r0) = ReplicaStatus.VIEW_CHANGE) as Hs0 by exact Hs.
    destruct (do_view_change_quiet env front r0 r' out Hs0 Hco1 Hd) as (Hqt & Hco' & Hv' & Hout).
    apply quiet_once; try done.
    + etrans; [by eapply add_dvc_quiet|exact Hqt].
    + rewrite Hv'. apply Hwi.
    + rewrite Hv'. simpl in Hout. by rewrite (st_id _ _ Hst), cluster_ids_u8 in Hout.
  - (* start_view *)
    unfold check_can_process_start_view in Hcan.
    destruct (h_view (header m) =? view_of x i) eqn:Hv; [apply Z.eqb_eq in Hv|done]. simpl in Hcan.
    case_bool_decide as Hs; [|done]. simpl in Hcan.
    rewrite (static_primary_for_view i) in Hcan by done.
    destruct (h_replica (header m) =? _) eqn:Hr; [apply Z.eqb_eq in Hr|done].
    assert (do_view_change_received_ (state_ (rep x i)) = []) as Hnd.
    { destruct (do_view_change_received_ (state_ (rep x i))) as [|m' l] eqn:Hl; [done|].
      destruct (co_dvcs _ Hco m') as (_ & Hc' & Hv'); [rewrite Hl; set_solver|].
      assert (KDvc (view_of x i) (h_replica (header m')) ∈ keys (inbox i x)) as Hk.
      { apply keys_elem. exists m'. unfold key, inbox, held. rewrite Hc', Hv', Hl. split; [set_solver|done]. }
      apply (on_keys _ _ Hx) in Hk as (_ & Hlead & _); [|done].
      exfalso. apply (on_start _ _ Hx i m Hi front_inbox Hc). congruence. }
    pose proof (start_view_quiet env i front r0 r' out) as Hqsv. simpl in Hqsv.
    destruct (Hqsv Hst Hs Hco Hnd Hv Hd) as (Hqt & Hco' & Hv' & Hout).
    apply quiet_once; try done; [by etrans|rewrite Hv'; apply Hwi|by rewrite Hv'].
  - (* recovery *) by apply recovery_request_once.
  - (* recovery_response *)
    apply bool_decide_eq_true in Hcan. apply Z.ltb_ge in Hstale.
    pose proof (recovery_response_quiet env front r0 r' out) as Hqrr. simpl in Hqrr.
    destruct (Hqrr Hcan Hco Hc Hstale Hd) as (Hqt & Hco' & Hv' & Hout).
    apply quiet_once; try done.
    + etrans; [by eapply add_response_quiet|exact Hqt].
    + destruct Hv' as [->|(m' & Hm' & ->)]; [apply Hwi|].
      destruct (on_views _ _ Hx i m' Hi) as (j & Hj & Hle).
      { rewrite front_perm. clear -Hm'. set_solver. }
      destruct (on_within _ _ Hx j Hj) as [[_ ?] _ _]. lia.
    + by apply replies_unkeyed.
Qed.
End micro.

(** *** Starting a view change or a recovery *)

(** A broadcast of one counted message. *)
Lemma broadcast_new i msg k d :
  i ∈ cluster_ids → d ∈ cluster_ids → key msg = Some k →
  new_keys i [broadcast_to_peers msg] [] d = if decide (d = i) then [] else [k].
Proof.
  intros Hi Hd Hk. unfold new_keys. rewrite delivered_broadcast by done.
  case_decide; by rewrite ?(keys_one _ _ Hk).
Qed.

Lemma broadcast_new_elem i msg k d k' :
  i ∈ cluster_ids → d ∈ cluster_ids → key msg = Some k →
  k' ∈ new_keys i [broadcast_to_peers msg] [] d → d ≠ i ∧ k' = k.
Proof.
  intros Hi Hd Hk. rewrite (broadcast_new i msg k d) by done. case_decide.
  - intros Hz. by apply not_elem_of_nil in Hz.
  - by intros ->%list_elem_of_singleton.
Qed.

Lemma initiate_view_change_once N x i r r' out :
  once N x → i ∈ cluster_ids → N < 2 ^ 32 → status_of x i = ReplicaStatus.NORMAL → view_of x i + 1 ≤ N →
  state_ r = state_ (rep x i) → message_queue_ r = message_queue_ (rep x i) →
  nonce_counter r = nonce_counter (rep x i) →
  initiate_view_change r = (r', out) → once N (step_out i r' out x).
Proof.
  intros Hx Hi HN Hs Hv Hst Hqu Hct. pose proof (on_static _ _ Hx i Hi) as Hstat.
  pose proof (on_within _ _ Hx i Hi) as [W1 W2 W3]. pose proof (on_collected _ _ Hx i Hi) as Hco.
  unfold initiate_view_change, enter_new_view. rewrite Hst, (bool_decide_eq_true_2 _ Hs). simpl.
  rewrite u32_small by rlia. intros [= <- <-].
  match goal with |- context [broadcast_to_peers ?msg] => set (svc := msg) end.
  match goal with |- once N (step_out i ?r1 _ x) => set (r' := r1) end.
  assert (key svc = Some (KSvc (view_of x i + 1) i)) as Hk.
  { unfold key, svc. simpl. by rewrite (st_id _ _ Hstat), cluster_ids_u8. }
  assert (∀ d k, d ∈ cluster_ids → k ∈ new_keys i [broadcast_to_peers svc] [] d →
    d ≠ i ∧ k = KSvc (view_of x i + 1) i) as Hnk by (intros; by eapply broadcast_new_elem).
  assert (recovery_responses_ (state_ (rep x i)) = []) as Hnr by (apply no_responses; [done|by rewrite Hs]).
  apply (step_once N x i r' [broadcast_to_peers svc] []); try done.
  - simpl. lia.
  - intros v. unfold dvc_done. simpl. intros [?|[-> _]]; left; lia.
  - simpl. by rewrite Hct.
  - rewrite app_nil_r. apply keys_submseteq. unfold held. simpl. rewrite Hnr, Hqu, app_nil_r.
    by apply submseteq_inserts_r.
  - intros d k Hd [Hdi ->]%Hnk Hin; [|done]. apply (on_keys _ _ Hx) in Hin as (_ & _ & Hle); [lia|done].
  - intros d Hd. rewrite (broadcast_new _ _ _ _ Hi Hd Hk). case_decide; [constructor|apply NoDup_singleton].
  - intros d v j Hd [_ [= -> ->]]%Hnk; [|done]. split; [done|lia].
  - intros d v j Hd [_ ?]%Hnk; done.
  - by destruct Hstat.
  - split; simpl; rewrite ?Hct, ?Hqu; lia.
  - by apply collected_normal.
  - intros d k Hd [Hdi ->]%Hnk; [|done]. unfold key_ok. rewrite rep_self. simpl. split_and!; [done|done|lia].
  - intros _. split; rewrite rep_self; simpl; rewrite (st_id _ _ Hstat).
    + by intros j ->%elem_of_singleton.
    + left. set_solver.
  - intros d m (o & ->%list_elem_of_singleton & ->)%delivered_elem. simpl. lia.
  - intros m Hm. left. unfold held in *. simpl in Hm. rewrite Hnr, app_nil_r, Hqu in Hm. set_solver.
  - intros d m _ (o & ->%list_elem_of_singleton & ->)%delivered_elem. done.
Qed.

Lemma nonce_wf id ts c : is_u32 c → is_u128 (generate_nonce id ts c).1.
Proof. intros Hc. split; simpl; [apply u64_range|]. apply lor_u64; [apply u64_range|rlia]. Qed.

Lemma nonce_issued i ts c :
  i ∈ cluster_ids → is_u32 c → low (generate_nonce i ts c).1 mod 2 ^ 32 = c.
Proof.
  intros Hi Hc. apply (nonce_low_parts i c); [|done]. apply cluster_ids_elem in Hi. rlia.
Qed.

Lemma initiate_recovery_once env N x i r' out :
  once N x → i ∈ cluster_ids → N < 2 ^ 32 → status_of x i = ReplicaStatus.NORMAL →
  message_queue_ (rep x i) ≠ [] → initiate_recovery env (rep x i) = (r', out) →
  once N (step_out i (r' <| message_queue_ := [] |>) out x).
Proof.
  intros Hx Hi HN Hs Hq. pose proof (on_static _ _ Hx i Hi) as Hstat.
  pose proof (on_within _ _ Hx i Hi) as [W1 W2 W3]. pose proof (on_collected _ _ Hx i Hi) as Hco.
  assert (1 ≤ length (message_queue_ (rep x i)))%nat as Hlen by (destruct (message_queue_ (rep x i)); simpl; [done|lia]).
  unfold initiate_recovery. rewrite (bool_decide_eq_false_2 (status_ _ = _)) by (by rewrite Hs). simpl.
  rewrite (st_id _ _ Hstat), u32_small by rlia. intros [= <- <-].
  match goal with |- context [rq_serialize {| rq_nonce := ?n0 |}] => set (n := n0) end.
  assert (is_u32 (nonce_counter (rep x i))) as Hu by rlia.
  assert (is_u128 n) as Hn by exact (nonce_wf i _ _ Hu).
  assert (low n mod 2 ^ 32 = nonce_counter (rep x i)) as Hlow by exact (nonce_issued i _ _ Hi Hu).
  match goal with |- context [broadcast_to_peers ?msg] => set (rq := msg) end.
  match goal with |- once N (step_out i ?r1 _ x) => set (r' := r1) end.
  assert (key rq = Some (KRec n i)) as Hk.
  { assert (rec_nonce rq = n) as Hrn.
    { unfold rec_nonce. change (payload rq) with (rq_serialize {| rq_nonce := n |}). by rewrite rq_round. }
    unfold key. rewrite Hrn. simpl. by rewrite cluster_ids_u8. }
  assert (∀ d k, d ∈ cluster_ids → k ∈ new_keys i [broadcast_to_peers rq] [] d → d ≠ i ∧ k = KRec n i) as Hnk
    by (intros; by eapply broadcast_new_elem).
  assert (do_view_change_received_ (state_ (rep x i)) = []) as Hnd by (apply no_dvcs; [done|by rewrite Hs]).
  assert (held r' = []) as Hh by (unfold held; simpl; by rewrite Hnd).
  apply (step_once N x i r' [broadcast_to_peers rq] []); try done.
  - intros v. unfold dvc_done. simpl. intros [?|[-> _]]; [by left|right]. split; [done|by left].
  - simpl. lia.
  - rewrite Hh. apply submseteq_nil_l.
  - intros d k Hd [Hdi ->]%Hnk Hin; [|done]. apply (on_keys _ _ Hx) in Hin as (_ & _ & Hle); [|done].
    unfold issued in Hle. lia.
  - intros d Hd. rewrite (broadcast_new _ _ _ _ Hi Hd Hk). case_decide; [constructor|apply NoDup_singleton].
  - intros d v j Hd [_ ?]%Hnk; done.
  - intros d v j Hd [_ [= -> ->]]%Hnk; [|done]. split; [done|]. unfold issued. lia.
  - by destruct Hstat.
  - split; simpl; lia.
  - by apply collected_normal.
  - intros d k Hd [Hdi ->]%Hnk; [|done]. unfold key_ok. rewrite rep_self. split_and!; [done|done|].
    change (nonce_counter r') with (nonce_counter (rep x i) + 1). unfold issued. lia.
  - intros d m (o & ->%list_elem_of_singleton & ->)%delivered_elem. simpl. lia.
  - intros m Hm. rewrite Hh in Hm. by apply not_elem_of_nil in Hm.
  - intros d m _ (o & ->%list_elem_of_singleton & ->)%delivered_elem. done.
Qed.

Lemma micro_once env N x i r' out :
  once N x → i ∈ cluster_ids → N < 2 ^ 32 → micro env (rep x i) out r' → once N (step_out i r' out x).
Proof.
  intros Hx Hi HN Hm. pose proof (on_within _ _ Hx i Hi) as [W1 W2 W3].
  inversion Hm as [r front rest Hq Hst|r front rest r1 o Hq Hst Hc Hd|r front rest r1 o Hq Hst Hc Hs Hh]; subst.
  - apply quiet_once; [done|done|by eapply pop_quiet|by apply (on_collected _ _ Hx)|apply W1|constructor].
  - by eapply dispatch_once.
  - unfold handle_stuck in Hh. rewrite Hq, (bool_decide_eq_true_2 _ Hs) in Hh.
    destruct (determine_state_action _ _) eqn:Ha.
    + injection Hh as <- <-. apply quiet_once; [done|done|done|by apply (on_collected _ _ Hx)|apply W1|constructor].
    + eapply initiate_view_change_once; try done.
      destruct (on_views _ _ Hx i (ib_message front) Hi) as (j & Hj & Hle); [by eapply front_inbox|].
      destruct (on_within _ _ Hx j Hj) as [[_ ?] _ _].
      unfold determine_state_action in Ha. repeat case_match; try done. simplify_eq.
      match goal with H : (_ <? _) = true |- _ => apply Z.ltb_lt in H end. lia.
    + destruct (initiate_recovery env (rep x i)) as [r2 o2] eqn:Hr. injection Hh as <- <-.
      eapply initiate_recovery_once; try done. by rewrite Hq.
Qed.

Lemma step_out_app x i r1 o1 r2 o2 N :
  once N (step_out i r2 o2 (step_out i r1 o1 x)) → once N (step_out i r2 (o1 ++ o2) x).
Proof.
  apply once_ext; simpl; [intros k; by case_decide|]. by rewrite fmap_app, concat_app, (assoc_L (++)).
Qed.

Lemma micros_once env N x i r r' out :
  once N x → i ∈ cluster_ids → N < 2 ^ 32 → r = rep x i → micros env r out r' → once N (step_out i r' out x).
Proof.
  intros Hx Hi HN Hr Hm. revert x Hx Hr. induction Hm as [r|r o r1 o' r2 Hm _ IH]; intros x Hx ->.
  - eapply once_ext, Hx; simpl; [intros k; case_decide; by subst|by rewrite app_nil_r].
  - apply (step_out_app _ _ r1). apply IH; [by eapply micro_once|by rewrite rep_self].
Qed.
