(* ===== verification/Refinement.v ===== *)
(** * The replicas implement the protocol

    A simulation between the cluster of [Cluster] (the handlers of
    [src/server/replica.cpp] with their messages as bytes) and the transition system of
    [Protocol]: every micro step of a replica corresponds to steps of the protocol.
    The state of a replica is related to an abstract one whose log is a list; every
    message under way is justified by abstract messages that were sent. *)
From S2P Require Import Prelude Types Serialization KeyValue ReplicaState Replica Execution Handlers Queue ViewChange Recovery Normal Cluster Protocol Exchange.

Definition id_set : gset Z := list_to_set cluster_ids.

Abbreviation steps := (asteps id_set 1 leader).
Abbreviation moved := (moves id_set 1 leader).
Abbreviation acked_by M := (has_acked leader M).

Lemma id_set_elem i : i ∈ id_set ↔ i ∈ cluster_ids.
Proof. apply elem_of_list_to_set. Qed.

Lemma id_quorum (Q : gset Z) : (∀ j, j ∈ Q → j ∈ cluster_ids) → (2 ≤ size Q)%nat → aquorum id_set 1 Q.
Proof. intros HQ Hs. split; [intros j Hj; by apply id_set_elem, HQ|lia]. Qed.

Lemma id_quorums_meet Q1 Q2 : aquorum id_set 1 Q1 → aquorum id_set 1 Q2 → ∃ i, i ∈ Q1 ∧ i ∈ Q2.
Proof.
  intros [H1 S1] [H2 S2]. destruct (set_choose_or_empty (Q1 ∩ Q2)) as [[i Hi]|He]; [exists i; set_solver|].
  assert (size (Q1 ∪ Q2) ≤ size id_set)%nat as Hle by (apply subseteq_size; set_solver).
  rewrite size_union in Hle by set_solver. change (size id_set) with 3%nat in Hle. lia.
Qed.

Lemma leader_in v : leader v ∈ id_set.
Proof. apply id_set_elem, leader_member. Qed.

(** ** Logs *)

(** A log with operations 1, 2, ... as a list; acknowledgements are left out. *)
Definition log_rel (log : gmap Z log_entry) (l : list log_entry) : Prop :=
  ∀ k, strip_entry <$> log !! k = if decide (1 ≤ k) then l !! Z.to_nat (k - 1) else None.

Definition entry_ok (e : log_entry) : Prop := entry_wf e ∧ is_u64 (Z.of_nat (length (le_payload e))).

Lemma log_rel_empty : log_rel ∅ [].
Proof. intros k. rewrite lookup_empty. simpl. by case_decide. Qed.

Lemma log_rel_strip log l : log_rel (strip_acks log) l ↔ log_rel log l.
Proof.
  unfold log_rel, strip_acks. split; intros H k; specialize (H k); rewrite lookup_fmap in *;
    rewrite <- H; by destruct (log !! k) as [[]|].
Qed.

Lemma log_rel_lookup log l k e :
  log_rel log l → log !! k = Some e → 1 ≤ k ≤ Z.of_nat (length l) ∧ l !! Z.to_nat (k - 1) = Some (strip_entry e).
Proof.
  intros Hr He. specialize (Hr k). rewrite He in Hr. simpl in Hr. case_decide; [|done].
  symmetry in Hr. split; [|done]. apply lookup_lt_Some in Hr. lia.
Qed.

Lemma log_rel_keys log l : log_rel log l → Z.of_nat (length l) < 2 ^ 64 → log_keys log.
Proof. intros Hr Hl k e He. apply (log_rel_lookup log l) in He; [lia|done]. Qed.

(** Appending the next operation. *)
Lemma log_rel_snoc log l k e :
  log_rel log l → k = Z.of_nat (length l) + 1 → log_rel (<[k := e]> log) (l ++ [strip_entry e]).
Proof.
  intros Hr -> j. destruct (decide (j = Z.of_nat (length l) + 1)) as [->|Hj].
  - rewrite lookup_insert_eq, decide_True by lia. simpl. rewrite lookup_app_r by lia.
    by replace (Z.to_nat (Z.of_nat (length l) + 1 - 1) - length l)%nat with 0%nat by lia.
  - rewrite lookup_insert_ne by done. rewrite (Hr j). case_decide; [|done].
    destruct (decide (Z.to_nat (j - 1) < length l)%nat).
    + by rewrite lookup_app_l.
    + rewrite lookup_app_r by lia. rewrite lookup_ge_None_2 by lia.
      symmetry. apply lookup_ge_None_2. simpl. lia.
Qed.

(** Changing the acknowledgements of an entry. *)
Lemma log_rel_acks log l k e a :
  log_rel log l → log !! k = Some e → log_rel (<[k := e <| le_acks := a |>]> log) l.
Proof.
  intros Hr He j. destruct (decide (j = k)) as [->|Hj].
  - rewrite lookup_insert_eq. rewrite <- (Hr k), He. done.
  - rewrite lookup_insert_ne by done. apply Hr.
Qed.

Lemma log_rel_wf log l :
  log_rel log l → Forall entry_ok l → Z.of_nat (length l) < 2 ^ 64 → log_wf log.
Proof.
  intros Hr Hl Hlen. split.
  - assert (size log ≤ length l)%nat; [|rlia].
    rewrite <- size_dom. transitivity (size (list_to_set (seqZ 1 (Z.of_nat (length l))) : gset Z));
      [|rewrite size_list_to_set, length_seqZ by apply NoDup_seqZ; lia].
    apply subseteq_size. intros k [e He]%elem_of_dom. apply (log_rel_lookup log l) in He as [Hk _]; [|done].
    apply elem_of_list_to_set, elem_of_seqZ. lia.
  - intros k e He. apply (log_rel_lookup log l) in He as [Hk He]; [|done].
    rewrite Forall_forall in Hl. destruct (Hl (strip_entry e)) as [[H1 H2 H3 H4] H5]; [by eapply list_elem_of_lookup_2|].
    split; [rlia|]. split; [by split|done].
Qed.

(** Logs that were read from a message carry no acknowledgements. *)
Definition unacked (log : gmap Z log_entry) : Prop := ∀ k e, log !! k = Some e → le_acks e = ∅.

Lemma strip_unacked log : unacked (strip_acks log).
Proof. intros k e. unfold strip_acks. rewrite lookup_fmap. by destruct (log !! k); intros [= <-]. Qed.

(** ** The simulation relation *)

Definition abs_status (st : ReplicaStatus.t) : Status.t :=
  match st with
  | ReplicaStatus.NORMAL => Status.Normal
  | ReplicaStatus.VIEW_CHANGE => Status.Changing
  | ReplicaStatus.RECOVERY => Status.Recovering
  end.

(** The abstract state of a replica with log [l]. *)
Definition abs_state (s : ReplicaState) (l : alog) : arep :=
  {| a_status := abs_status (status_ s); a_view := view_ s; a_last := last_normal_view_ s;
     a_log := l; a_commit := commit_ s; a_nonce := recovery_nonce_ s |}.

Definition rep_rel (s : ReplicaState) (a : arep) : Prop :=
  a = abs_state s (a_log a) ∧ log_rel (log_ s) (a_log a) ∧ op_ s = Z.of_nat (length (a_log a)).

(** Acknowledgements collected in the current view were sent. *)
Definition acks_ok (M : list amsg) (s : ReplicaState) : Prop :=
  status_ s = ReplicaStatus.NORMAL →
  ∀ k e j, log_ s !! k = Some e → j ∈ le_acks e → j ∈ cluster_ids ∧ acked_by M j (view_ s) (Z.to_nat k).

(** What justifies a message on its way to [d]. *)
Definition msg_ok (M : list amsg) (d : Z) (m : vsr_message) : Prop :=
  let h := header m in
  match h_command h with
  | command.request => message_wf m ∧ is_u64 (Z.of_nat (length (payload m)))
  | command.prepare =>
      1 ≤ h_op h ∧ APrepare (h_view h) (Z.to_nat (h_op h)) (entry_of (h_view h) m ∅) ∈ M ∧
      ACommit (h_view h) (h_commit h) ∈ M
  | command.prepare_ok =>
      h_replica h ∈ cluster_ids ∧ AOk (h_view h) (Z.to_nat (h_op h)) (h_replica h) ∈ M
  | command.commit => ACommit (h_view h) (h_commit h) ∈ M
  | command.do_view_change => ∃ w log l,
      (∀ v0, dvc_deserialize (payload m) {| dvc_last_normal_view := v0; dvc_log := ∅ |}
         = (true, {| dvc_last_normal_view := w; dvc_log := log |})) ∧
      log_rel log l ∧ unacked log ∧ h_op h = Z.of_nat (length l) ∧
      ADvc (h_view h) (h_replica h) w l (h_commit h) ∈ M
  | command.start_view => ∃ log l,
      sv_deserialize (payload m) {| sv_log := ∅ |} = (true, {| sv_log := log |}) ∧
      log_rel log l ∧ unacked log ∧ h_op h = Z.of_nat (length l) ∧
      ASv (h_view h) l (h_commit h) ∈ M
  | command.recovery_response => ∃ n log l,
      (∀ n0, rr_deserialize (payload m) {| rr_nonce := n0; rr_log := ∅ |}
         = (true, {| rr_nonce := n; rr_log := log |})) ∧
      log_rel log l ∧ unacked log ∧ h_op h = Z.of_nat (length l) ∧
      AResp d n (h_replica h) (h_view h) l (h_commit h) ∈ M
  | _ => True
  end.

Lemma msg_ok_mono M M' d m : (∀ a, a ∈ M → a ∈ M') → msg_ok M d m → msg_ok M' d m.
Proof. intros H. unfold msg_ok. destruct (h_command (header m)); naive_solver. Qed.

Lemma acks_ok_mono M M' s : (∀ a, a ∈ M → a ∈ M') → acks_ok M s → acks_ok M' s.
Proof.
  intros H Hs Hn k e j He Hj. destruct (Hs Hn k e j He Hj) as [Hj' Ha]. split; [done|].
  by eapply has_acked_mono.
Qed.

Record good (y : asys) : Prop := {
  gd_inv : aok id_set 1 leader y;
  gd_bounded : bounded y;
  gd_entries : entries_ok entry_ok y }.

Lemma good_steps y y' :
  good y → steps y y' → (∀ v k e, APrepare v k e ∈ a_sent y' → entry_ok e) → good y'.
Proof.
  intros [H1 H2 H3] Hs HP. split.
  - eapply asteps_ok; [apply leader_in|done|done].
  - by eapply asteps_bounded.
  - by eapply asteps_entries.
Qed.

(** Messages waiting in the queues of the cluster. *)
Definition waiting (x : system) : Z :=
  foldr Z.add 0 ((λ i, Z.of_nat (length (message_queue_ (rep x i)))) <$> cluster_ids).

Lemma waiting_nonneg x : 0 ≤ waiting x.
Proof. unfold waiting. change cluster_ids with [0; 1; 2]. simpl. lia. Qed.

(** The requests waiting there. *)
Definition message_request (m : vsr_message) : option request :=
  let h := header m in
  if bool_decide (h_command h = command.request) then Some ((h_client h, h_request h), (h_operation h, payload m)) else None.
Definition queued_requests (r : Replica) : list request := omap (λ b, message_request (ib_message b)) (message_queue_ r).
Definition waiting_requests (x : system) : list request := concat ((λ i, queued_requests (rep x i)) <$> cluster_ids).

(** In what follows, [B] are the requests that clients have sent. *)
Section requests.
Context (B : list request).

Record sim (N : Z) (x : system) (y : asys) : Prop := {
  sm_good : good y;
  sm_rep : ∀ i, i ∈ cluster_ids → rep_rel (state_ (rep x i)) (a_reps y i);
  sm_acks : ∀ i, i ∈ cluster_ids → acks_ok (a_sent y) (state_ (rep x i));
  sm_msgs : ∀ d m, d ∈ cluster_ids → m ∈ inbox d x → msg_ok (a_sent y) d m;
  sm_issued : ∀ i n j v l c, i ∈ cluster_ids → AResp i n j v l c ∈ a_sent y →
    issued n (nonce_counter (rep x i));
  sm_budget : Z.of_nat (prepared (a_sent y)) + waiting x ≤ N;
  sm_requests : prepared_requests (a_sent y) ++ waiting_requests x ⊆+ B }.

Lemma sim_ext N x x' y : (∀ j, rep x j = rep x' j) → net x = net x' → sim N x y → sim N x' y.
Proof.
  intros Hr Hn [H1 H2 H3 H4 H5 H6 H7].
  assert (∀ d, inbox d x' = inbox d x) as Hin by (intros d; unfold inbox; by rewrite Hr, Hn).
  split; intros; rewrite <- ?Hr; eauto; [rewrite Hin in *; eauto|..].
  - unfold waiting in *. erewrite list_fmap_ext; [exact H6|]. intros k i _. simpl. by rewrite Hr.
  - unfold waiting_requests in *. erewrite list_fmap_ext; [exact H7|]. intros k i _. simpl. by rewrite Hr.
Qed.

Lemma waiting_step x i r' out :
  i ∈ cluster_ids →
  waiting (step_out i r' out x) = waiting x - Z.of_nat (length (message_queue_ (rep x i)))
    + Z.of_nat (length (message_queue_ r')).
Proof.
  intros Hi%cluster_ids_elem. unfold waiting. change cluster_ids with [0; 1; 2]. simpl.
  destruct Hi as [->|[->| ->]]; simpl; lia.
Qed.

Lemma waiting_requests_step x i r' out ms :
  i ∈ cluster_ids → ms ++ queued_requests r' ⊆+ queued_requests (rep x i) →
  ms ++ waiting_requests (step_out i r' out x) ⊆+ waiting_requests x.
Proof.
  intros Hi%cluster_ids_elem Hms. unfold waiting_requests. change cluster_ids with [0; 1; 2]. simpl. rewrite !app_nil_r.
  destruct Hi as [->|[->| ->]]; simpl; rewrite ?(assoc_L (++)).
  - by do 2 apply submseteq_skips_r.
  - apply submseteq_skips_r. rewrite (Permutation_app_comm ms), <- (assoc_L (++)). by apply submseteq_skips_l.
  - rewrite <- !(assoc_L (++)), Permutation_app_comm, <- !(assoc_L (++)), (Permutation_app_comm (queued_requests r')).
    by do 2 apply submseteq_skips_l.
Qed.

(** ** A step of one replica *)

Lemma sim_step N x y i r' out s' ms y' :
  sim N x y → i ∈ cluster_ids → moved i y s' ms y' →
  (∀ v k e, APrepare v k e ∈ ms → entry_ok e) →
  (∀ j n k v l c, j ∈ cluster_ids → AResp j n k v l c ∈ ms → issued n (nonce_counter (rep x j))) →
  (Z.of_nat (prepared ms) + Z.of_nat (length (message_queue_ r')) ≤ Z.of_nat (length (message_queue_ (rep x i)))) →
  prepared_requests ms ++ queued_requests r' ⊆+ queued_requests (rep x i) →
  nonce_counter (rep x i) ≤ nonce_counter r' →
  rep_rel (state_ r') s' → acks_ok (a_sent y') (state_ r') →
  (∀ m, m ∈ held r' → m ∈ held (rep x i) ∨ msg_ok (a_sent y') i m) →
  (∀ d m, d ∈ cluster_ids → m ∈ delivered i d out → msg_ok (a_sent y') d m) →
  sim N (step_out i r' out x) y'.
Proof.
  intros [H1 H2 H3 H4 H5 H6 H7] Hi Hmv HP HR Hq Hids Hct Hrep Hack Hh Hd.
  assert (∀ a, a ∈ a_sent y → a ∈ a_sent y') as Hold by (intros a; by eapply moves_old).
  pose proof Hmv as [Hsteps Hself Hother Hsent].
  assert (∀ j, rep (step_out i r' out x) j = if decide (j = i) then r' else rep x j) as Hrp by done.
  split.
  - eapply good_steps; [exact H1|exact Hsteps|]. intros v k e. rewrite Hsent.
    intros [H|H]%elem_of_app; [exact (en_msgs _ _ (gd_entries _ H1) _ H)|by eapply HP].
  - intros j Hj. rewrite Hrp. case_decide; [by subst|]. rewrite Hother by done. by apply H2.
  - intros j Hj. rewrite Hrp. case_decide; [by subst|]. eapply acks_ok_mono; [exact Hold|by apply H3].
  - intros d m Hdd. rewrite inbox_step, !elem_of_app. intros [[Hm|Hm]|Hm].
    + eapply msg_ok_mono; [exact Hold|]. apply H4; [done|]. unfold inbox. set_solver.
    + by apply Hd.
    + case_decide; subst.
      * apply Hh in Hm as [Hm|Hm]; [|done]. eapply msg_ok_mono; [exact Hold|]. apply H4; [done|]. unfold inbox. set_solver.
      * eapply msg_ok_mono; [exact Hold|]. apply H4; [done|]. unfold inbox. set_solver.
  - intros j n k v l c Hj. rewrite Hsent, Hrp. intros [H|H]%elem_of_app.
    + apply H5 in H; [|done]. unfold issued in *. case_decide; [subst; lia|done].
    + apply HR in H; [|done]. unfold issued in *. case_decide; [subst; lia|done].
  - rewrite waiting_step, Hsent, prepared_app by done. lia.
  - rewrite Hsent, prepared_requests_app, <- (assoc_L (++)). etrans; [|exact H7].
    apply submseteq_skips_l. by apply waiting_requests_step.
Qed.

(** Outputs that are justified wherever they go. *)
Definition outs_ok (M : list amsg) (out : list output) : Prop :=
  Forall (λ o, ∀ d, msg_ok M d (out_msg o)) out.

Lemma outs_delivered M i out d m : outs_ok M out → m ∈ delivered i d out → msg_ok M d m.
Proof. intros H (o & Ho & ->)%delivered_elem. unfold outs_ok in H. rewrite Forall_forall in H. by apply H. Qed.

Lemma replies_ok M v out : Forall (is_reply v) out → outs_ok M out.
Proof. intros H. eapply Forall_impl; [exact H|]. intros o [Hc _] d. unfold msg_ok. by rewrite Hc. Qed.

Lemma rep_rel_same s s' a :
  status_ s' = status_ s → view_ s' = view_ s → last_normal_view_ s' = last_normal_view_ s →
  log_ s' = log_ s → op_ s' = op_ s → commit_ s' = commit_ s → recovery_nonce_ s' = recovery_nonce_ s →
  rep_rel s a → rep_rel s' a.
Proof. unfold rep_rel, abs_state. intros -> -> -> -> -> -> ->. done. Qed.

Lemma acks_ok_same M s s' :
  (status_ s' = ReplicaStatus.NORMAL → status_ s = ReplicaStatus.NORMAL) → view_ s' = view_ s → log_ s' = log_ s →
  acks_ok M s → acks_ok M s'.
Proof. unfold acks_ok. intros Hs -> -> H Hn. by apply H, Hs. Qed.

(** ** Adopting the best of the collected logs *)

Lemma Forall_choose {A C} (R : A → C → Prop) (la : list A) :
  Forall (λ a, ∃ b, R a b) la → ∃ lb, Forall2 R la lb.
Proof. induction 1 as [|a la [b Hb] _ [lb IH]]; [by exists []|]. exists (b :: lb). by constructor. Qed.

(** The content of a DoViewChange message. *)
Definition dvc_for (env : Env) (M : list amsg) (v : Z) (m : vsr_message) (d : dvc) : Prop :=
  ∃ log, dvc_parsed env m {| dvc_last_normal_view := d_last d; dvc_log := log |} ∧
    log_rel log (d_log d) ∧ unacked log ∧ h_op (header m) = Z.of_nat (length (d_log d)) ∧
    d_from d = h_replica (header m) ∧ d_commit d = h_commit (header m) ∧
    ADvc v (d_from d) (d_last d) (d_log d) (d_commit d) ∈ M.

Lemma dvc_for_ok env M v i m :
  msg_ok M i m → h_command (header m) = command.do_view_change → h_view (header m) = v →
  ∃ d, dvc_for env M v m d.
Proof.
  intros Hm Hc <-. unfold msg_ok in Hm. rewrite Hc in Hm. destruct Hm as (w & log & l & Hp & Hr & Hu & Ho & Ha).
  exists {| d_from := h_replica (header m); d_last := w; d_log := l; d_commit := h_commit (header m) |}.
  exists log. unfold dvc_parsed. simpl. by rewrite Hp.
Qed.

(** The message whose payload is selected. *)
Lemma select_log_spec env s first rest bp bo mc :
  Forall (λ m, ∃ p, dvc_parsed env m p) (first :: rest) → select_log env s first rest = (bp, bo, mc) →
  (∃ m, m ∈ first :: rest ∧ dvc_parsed env m bp ∧ bo = h_op (header m)) ∧
  (∀ m p, m ∈ first :: rest → dvc_parsed env m p → dvc_le p (h_op (header m)) bp bo) ∧
  (mc = commit_ s ∨ ∃ m, m ∈ first :: rest ∧ mc = h_commit (header m)).
Proof.
  intros [[p Hp] Hall]%Forall_cons. unfold select_log. unfold dvc_parsed in Hp. rewrite Hp.
  intros (H1 & H2 & H3 & H4)%select_fold; [|done]. split_and!.
  - destruct H1 as [[= -> ->]|(m & Hm & Hpm & ->)]; [exists first|exists m]; (split; [set_solver|done]).
  - intros m p' [->|Hm]%elem_of_cons Hp'; [|by apply H3]. unfold dvc_parsed in Hp'. rewrite Hp in Hp'.
    by injection Hp' as <-.
  - destruct (foldl_max_in ((λ m, h_commit (header m)) <$> rest) (commit_ s `max` h_commit (header first))) as [Hm|Hm].
    + rewrite Hm in H4. destruct (Z.max_spec (commit_ s) (h_commit (header first))) as [[_ E]|[_ E]];
        rewrite E in H4; [right; exists first; set_solver|by left].
    + rewrite <- H4 in Hm. apply list_elem_of_fmap in Hm as (m & -> & Hm). right. exists m. set_solver.
Qed.

Lemma dvc_adopt env i y s l first rest bp bo mc :
  a_reps y i = abs_state s l → status_ s = ReplicaStatus.VIEW_CHANGE → i = leader (view_ s) →
  (∀ m, m ∈ first :: rest → msg_ok (a_sent y) i m ∧ h_command (header m) = command.do_view_change ∧
     h_view (header m) = view_ s) →
  NoDup ((λ m, h_replica (header m)) <$> first :: rest) → (1 ≤ length rest)%nat →
  select_log env s first rest = (bp, bo, mc) →
  ∃ y' l', moved i y {| a_status := Status.Normal; a_view := view_ s; a_last := last_normal_view_ s;
      a_log := l'; a_commit := mc; a_nonce := recovery_nonce_ s |} [ASv (view_ s) l' mc] y' ∧
    log_rel (dvc_log bp) l' ∧ unacked (dvc_log bp) ∧ bo = Z.of_nat (length l').
Proof.
  intros Ha Hs Hi Hmsgs Hnd Hlen Hsel.
  destruct (Forall_choose (dvc_for env (a_sent y) (view_ s)) (first :: rest)) as [D HD].
  { apply Forall_forall. intros m Hm. destruct (Hmsgs m Hm) as (Hok & Hc & Hv). by eapply dvc_for_ok. }
  assert (∀ m, m ∈ first :: rest → ∃ d, d ∈ D ∧ dvc_for env (a_sent y) (view_ s) m d) as Hfor.
  { intros m [k Hk]%list_elem_of_lookup. destruct (Forall2_lookup_l _ _ _ _ _ HD Hk) as (d & Hd & Hmd).
    exists d. split; [by eapply list_elem_of_lookup_2|done]. }
  assert (∀ d, d ∈ D → ∃ m, m ∈ first :: rest ∧ dvc_for env (a_sent y) (view_ s) m d) as Hfrom.
  { intros d [k Hk]%list_elem_of_lookup. destruct (Forall2_lookup_r _ _ _ _ _ HD Hk) as (m & Hm & Hmd).
    exists m. split; [by eapply list_elem_of_lookup_2|done]. }
  assert (d_from <$> D = (λ m, h_replica (header m)) <$> first :: rest) as Hsend.
  { clear -HD. induction HD as [|m d ms D (log & _ & _ & _ & _ & E & _) _ IH]; [done|]. rewrite !fmap_cons, E. by f_equal. }
  destruct (select_log_spec _ _ _ _ _ _ _ ltac:(apply Forall_forall; intros m (d & _ & log & Hp & _)%Hfor; eauto) Hsel)
    as ((mb & Hmb & Hpb & Hbo) & Hbest & Hmc).
  destruct (Hfor mb Hmb) as (db & Hdb & log & Hpl & Hrel & Hun & Hop & _).
  unfold dvc_parsed in Hpb, Hpl. rewrite Hpb in Hpl. injection Hpl as Hbp. rewrite Hbp. simpl.
  assert (a_status (abs_state s l) = Status.Changing) as Hch by (simpl; by rewrite Hs).
  assert (astep id_set 1 leader y (update i {| a_status := Status.Normal; a_view := view_ s; a_last := last_normal_view_ s;
      a_log := d_log db; a_commit := mc; a_nonce := recovery_nonce_ s |} [ASv (view_ s) (d_log db) mc] y)) as Hstep.
  { apply (a_start id_set 1 leader y i (abs_state s l) D db mc); try done.
    - intros d (m & Hm & lg & _ & _ & _ & _ & _ & _ & Had)%Hfrom. exact Had.
    - by rewrite Hsend.
    - rewrite <- (length_fmap d_from), Hsend, length_fmap. simpl. lia.
    - intros d (m & Hm & lg & Hp & _ & _ & Ho & _)%Hfrom. specialize (Hbest m _ Hm Hp).
      unfold dvc_le, dvc_better in *. rewrite Hbp in Hbest. simpl in Hbest. rewrite Hbo in Hbest. lia.
    - destruct Hmc as [->|(m & Hm & ->)]; [by left|right]. destruct (Hfor m Hm) as (d & Hd & lg & _ & _ & _ & _ & _ & E & _).
      by exists d. }
  apply moves_one in Hstep. exists (update i {| a_status := Status.Normal; a_view := view_ s; a_last := last_normal_view_ s;
      a_log := d_log db; a_commit := mc; a_nonce := recovery_nonce_ s |} [ASv (view_ s) (d_log db) mc] y), (d_log db).
  split_and!; [exact Hstep|done|done|]. by rewrite Hbo.
Qed.

(** Abstract messages that neither prepare an operation nor answer a recovery. *)
Definition plain (m : amsg) : Prop :=
  match m with APrepare _ _ _ | AResp _ _ _ _ _ _ => False | _ => True end.

Lemma plain_prepared ms : Forall plain ms → prepared ms = 0%nat.
Proof. unfold prepared. induction 1 as [|m ms Hm _ IH]; [done|]. rewrite filter_cons. by destruct m. Qed.

Lemma plain_requests ms : Forall plain ms → prepared_requests ms = [].
Proof. intros Hms%plain_prepared. apply nil_length_inv. by rewrite prepared_requests_length. Qed.

(** What a handler during a view change achieves, on the abstract side. *)
Record change_result (i : Z) (y : asys) (r1 r' : Replica) (out : list output) (s' : arep) (ms : list amsg) (y' : asys)
    : Prop := {
  cr_moved : moved i y s' ms y';
  cr_plain : Forall plain ms;
  cr_rep : rep_rel (state_ r') s';
  cr_acks : acks_ok (a_sent y') (state_ r');
  cr_outs : outs_ok (a_sent y') out;
  cr_received : ∀ m, m ∈ do_view_change_received_ (state_ r') → m ∈ do_view_change_received_ (state_ r1);
  cr_responses : recovery_responses_ (state_ r') = recovery_responses_ (state_ r1) }.

Lemma do_view_change_result env i y inb r r' out :
  let s := state_ r in
  rep_rel s (a_reps y i) → static i s → status_ s = ReplicaStatus.VIEW_CHANGE → i = leader (view_ s) →
  good y → Z.of_nat (prepared (a_sent y)) < 2 ^ 64 →
  (∀ m, m ∈ do_view_change_received_ s ++ [ib_message inb] →
     msg_ok (a_sent y) i m ∧ h_command (header m) = command.do_view_change ∧ h_view (header m) = view_ s) →
  NoDup ((λ m, h_replica (header m)) <$> do_view_change_received_ s ++ [ib_message inb]) →
  handle_do_view_change env inb r = (r', out) →
  ∃ s' ms y', change_result i y (add_dvc (ib_message inb) r) r' out s' ms y'.
Proof.
  cbv zeta. intros (Ha & Hlog & Hop) Hst Hs Hlead Hgood Hprep Hmsgs Hnd. unfold handle_do_view_change. cbv zeta.
  set (s1 := (state_ r) <| do_view_change_received_ := do_view_change_received_ (state_ r) ++ [ib_message inb] |>).
  rewrite (static_quorum i s1) by (by destruct Hst). destruct (2 <=? _) eqn:Hq; last first.
  { intros [= <- <-]. exists (a_reps y i), [], y. split; try done; [apply moves_none| |constructor].
    intros Hn. exfalso. change (status_ (state_ r) = ReplicaStatus.NORMAL) in Hn. congruence. }
  apply Z.leb_le in Hq. change (do_view_change_received_ s1) with (do_view_change_received_ (state_ r) ++ [ib_message inb]) in *.
  destruct (do_view_change_received_ (state_ r) ++ [ib_message inb]) as [|first rest] eqn:Hr;
    [by destruct (do_view_change_received_ (state_ r))|].
  set (s2 := s1 <| do_view_change_received_ := [] |>).
  destruct (select_log env s2 first rest) as [[bp bo] mc] eqn:Hsel.
  destruct (dvc_adopt env i y s2 (a_log (a_reps y i)) first rest bp bo mc) as (y' & l' & Hmv & Hrel & Hun & Hbo); try done.
  { simpl in Hq. lia. }
  set (s3 := s2 <| log_ := dvc_log bp |> <| op_ := bo |> <| commit_ := mc |> <| status_ := ReplicaStatus.NORMAL |>).
  match goal with |- context [execute_commited_ops ?r1] => change r1 with (r <| state_ := s3 |>) end.
  pose proof (execute_replies (r <| state_ := s3 |>)) as Hex.
  destruct (execute_shape (r <| state_ := s3 |>)) as (m1 & k1 & Hsh).
  destruct (execute_commited_ops (r <| state_ := s3 |>)) as [r2 o2]. simpl in Hex, Hsh. intros [= <- <-]. subst r2.
  assert (ASv (view_ s3) l' mc ∈ a_sent y') as Hsv by (eapply moves_new; [exact Hmv|by apply list_elem_of_singleton]).
  assert (Forall entry_ok l' ∧ Z.of_nat (length l') < 2 ^ 64) as [Hent Hlen].
  { assert (good y') as [_ Hb He].
    { eapply good_steps; [done|apply Hmv|]. intros v k e. rewrite (mv_sent _ _ _ _ _ _ _ _ Hmv).
      intros [H|H]%elem_of_app; [exact (en_msgs _ _ (gd_entries _ Hgood) _ H)|by apply list_elem_of_singleton in H]. }
    split; [exact (en_msgs _ _ He _ Hsv)|]. pose proof (bd_msgs _ Hb) as Hm. rewrite Forall_forall in Hm.
    specialize (Hm _ Hsv). rewrite (mv_sent _ _ _ _ _ _ _ _ Hmv), prepared_app in Hm. simpl in Hm.
    rewrite (plain_prepared [ASv _ _ _]) in Hm by (by apply Forall_singleton). lia. }
  eexists _, _, y'. split; [exact Hmv|by apply Forall_singleton| | | |by intros m ?%not_elem_of_nil|done].
  - unfold rep_rel. split_and!; [done|done|done].
  - intros _ k e j He Hj. change (log_ (state_ (with_machine (r <| state_ := s3 |>) m1 k1))) with (dvc_log bp) in He.
    apply Hun in He. rewrite He in Hj. set_solver.
  - apply Forall_cons_2; [|by eapply replies_ok]. intros d. unfold msg_ok. simpl.
    exists (strip_acks (dvc_log bp)), l'. split_and!.
    + apply sv_round. by eapply log_rel_wf.
    + by apply log_rel_strip.
    + apply strip_unacked.
    + done.
    + exact Hsv.
Qed.

(** Senders of counted messages are distinct. *)
Lemma senders_nodup (K : Z → mkey) msgs :
  (∀ m, m ∈ msgs → key m = Some (K (h_replica (header m)))) →
  NoDup (keys msgs) → NoDup ((λ m, h_replica (header m)) <$> msgs).
Proof.
  intros Hall Hnd. apply (NoDup_fmap_1 K).
  replace (K <$> ((λ m, h_replica (header m)) <$> msgs)) with (keys msgs); [done|]. clear Hnd.
  induction msgs as [|m msgs IH]; [done|].
  rewrite (keys_cons m (K (h_replica (header m)))) by (apply Hall; set_solver). simpl. f_equal.
  apply IH. intros m' Hm'. apply Hall. set_solver.
Qed.

Lemma keys_part N x i l1 : once N x → i ∈ cluster_ids → l1 ⊆+ inbox i x → NoDup (keys l1).
Proof.
  intros Hx Hi Hsub. destruct (submseteq_Permutation _ _ (keys_submseteq _ _ Hsub)) as [k Hk].
  pose proof (on_nodup _ _ Hx i Hi) as Hn. rewrite Hk in Hn. by apply NoDup_app in Hn as [? _].
Qed.

(** The content of a recovery response to the nonce [n] of [i]. *)
Definition resp_for (M : list amsg) (i : Z) (n : uint128_t) (m : vsr_message) (d : dvc) : Prop :=
  ∃ log, (∀ n0, rr_deserialize (payload m) {| rr_nonce := n0; rr_log := ∅ |} = (true, {| rr_nonce := n; rr_log := log |})) ∧
    log_rel log (d_log d) ∧ unacked log ∧ h_op (header m) = Z.of_nat (length (d_log d)) ∧
    d_from d = h_replica (header m) ∧ d_last d = h_view (header m) ∧ d_commit d = h_commit (header m) ∧
    AResp i n (d_from d) (d_last d) (d_log d) (d_commit d) ∈ M.

Lemma resp_for_ok M i n m :
  msg_ok M i m → h_command (header m) = command.recovery_response → resp_nonce m = n →
  ∃ d, resp_for M i n m d.
Proof.
  intros Hm Hc Hn. unfold msg_ok in Hm. rewrite Hc in Hm. destruct Hm as (n' & log & l & Hp & Hr & Hu & Ho & Ha).
  unfold resp_nonce in Hn. rewrite Hp in Hn. simpl in Hn. subst n'.
  exists {| d_from := h_replica (header m); d_last := h_view (header m); d_log := l; d_commit := h_commit (header m) |}.
  exists log. done.
Qed.

(** Adopting the best of the responses of all others. *)
Lemma recovery_adopt i y s l first rest :
  i ∈ cluster_ids → a_reps y i = abs_state s l → status_ s = ReplicaStatus.RECOVERY →
  (∀ m, m ∈ first :: rest → (∃ d, resp_for (a_sent y) i (recovery_nonce_ s) m d) ∧ view_ s ≤ h_view (header m) ∧
     h_replica (header m) ∈ cluster_ids ∧ h_replica (header m) ≠ i) →
  NoDup ((λ m, h_replica (header m)) <$> first :: rest) → (1 ≤ length rest)%nat →
  let best := foldl better_response first rest in
  ∃ log l' y', (∀ n0, rr_deserialize (payload best) {| rr_nonce := n0; rr_log := ∅ |}
      = (true, {| rr_nonce := recovery_nonce_ s; rr_log := log |})) ∧
    log_rel log l' ∧ unacked log ∧ h_op (header best) = Z.of_nat (length l') ∧
    moved i y {| a_status := Status.Normal; a_view := h_view (header best); a_last := last_normal_view_ s;
      a_log := l'; a_commit := h_commit (header best); a_nonce := U128 0 0 |} [] y'.
Proof.
  intros Hi Ha Hs Hmsgs Hnd Hlen best.
  destruct (Forall_choose (resp_for (a_sent y) i (recovery_nonce_ s)) (first :: rest)) as [D HD].
  { apply Forall_forall. intros m Hm. by apply Hmsgs. }
  assert (∀ m, m ∈ first :: rest → ∃ d, d ∈ D ∧ resp_for (a_sent y) i (recovery_nonce_ s) m d) as Hfor.
  { intros m [k Hk]%list_elem_of_lookup. destruct (Forall2_lookup_l _ _ _ _ _ HD Hk) as (d & Hd & Hmd).
    exists d. split; [by eapply list_elem_of_lookup_2|done]. }
  assert (∀ d, d ∈ D → ∃ m, m ∈ first :: rest ∧ resp_for (a_sent y) i (recovery_nonce_ s) m d) as Hfrom.
  { intros d [k Hk]%list_elem_of_lookup. destruct (Forall2_lookup_r _ _ _ _ _ HD Hk) as (m & Hm & Hmd).
    exists m. split; [by eapply list_elem_of_lookup_2|done]. }
  assert (d_from <$> D = (λ m, h_replica (header m)) <$> first :: rest) as Hsend.
  { clear -HD. induction HD as [|m d ms D (log & _ & _ & _ & _ & E & _) _ IH]; [done|]. rewrite !fmap_cons, E. by f_equal. }
  destruct (best_response_spec first rest) as [Hbin Hbest]. fold best in Hbin, Hbest.
  destruct (Hfor best Hbin) as (db & Hdb & log & Hp & Hrel & Hun & Hop & Hfr & Hvw & Hcm & Hresp).
  assert (a_status (abs_state s l) = Status.Recovering) as Hst by (simpl; by rewrite Hs).
  assert (astep id_set 1 leader y (update i {| a_status := Status.Normal; a_view := d_last db; a_last := last_normal_view_ s;
      a_log := d_log db; a_commit := d_commit db; a_nonce := U128 0 0 |} [] y)) as Hstep.
  { apply (a_recovered id_set 1 leader y i (abs_state s l) D db (U128 0 0)); try done.
    - intros d (m & Hm & lg & _ & _ & _ & _ & _ & Hv & _ & Had)%Hfrom. destruct (Hmsgs m Hm) as (_ & Hle & _).
      simpl. split; [lia|done].
    - intros j Hj%id_set_elem Hji. rewrite Hsend.
      destruct (decide (j ∈ (λ m, h_replica (header m)) <$> first :: rest)) as [|Hnin]; [done|]. exfalso.
      set (S := list_to_set ((λ m, h_replica (header m)) <$> first :: rest) : gset Z).
      assert (∀ k, k ∈ S → k ∈ cluster_ids ∧ k ≠ i) as HS.
      { intros k. unfold S. rewrite elem_of_list_to_set. intros (m & -> & Hm)%list_elem_of_fmap. by apply Hmsgs. }
      assert (size S < 2)%nat as Hsz.
      { apply (no_quorum S i j); try done; [intros k Hk; by apply HS|intros Hk; by apply HS in Hk as [_ ?]|].
        unfold S. by rewrite elem_of_list_to_set. }
      unfold S in Hsz. rewrite size_list_to_set, length_fmap in Hsz by done. simpl in Hsz. lia.
    - intros d (m & Hm & lg & _ & _ & _ & Ho & _ & Hv & _)%Hfrom. specialize (Hbest m Hm).
      unfold response_le, dvc_better in *. rewrite Hv, Hvw. lia. }
  apply moves_one in Hstep. rewrite Hvw, Hcm in Hstep. exists log, (d_log db). eexists. split_and!; done.
Qed.

Section handlers.
Context (env : Env) (N : Z) (x : system) (y : asys) (i : Z).
Context (Hsim : sim N x y) (Honce : once N x) (Hi : i ∈ cluster_ids) (HN : N < 2 ^ 32).
Context (front : inbound_message) (rest : list inbound_message).
Context (Hq : message_queue_ (rep x i) = front :: rest).
Abbreviation m := (ib_message front).
Abbreviation h := (header m).
Abbreviation s := (state_ (rep x i)).
Abbreviation r0 := ((rep x i) <| message_queue_ := rest |>).
Abbreviation a := (a_reps y i).
Abbreviation l := (a_log a).

Definition simulated (r' : Replica) (out : list output) : Prop :=
  ∃ y', steps y y' ∧ sim N (step_out i r' out x) y'.

Lemma rep_i : a = abs_state s l.
Proof. apply (sm_rep _ _ _ Hsim i Hi). Qed.

Lemma log_i : log_rel (log_ s) l.
Proof. apply (sm_rep _ _ _ Hsim i Hi). Qed.

Lemma op_i : op_ s = Z.of_nat (length l).
Proof. apply (sm_rep _ _ _ Hsim i Hi). Qed.

Lemma room : Z.of_nat (length l) + 1 ≤ N ∧ 0 ≤ commit_ s ≤ N.
Proof.
  pose proof (sm_good _ _ _ Hsim) as [_ [Hl Hc _] _]. specialize (Hl i). specialize (Hc i).
  rewrite rep_i in Hc at 1 2. simpl in Hc. pose proof (sm_budget _ _ _ Hsim) as Hb.
  assert (1 ≤ waiting x); [|lia]. pose proof (cluster_ids_elem i) as [Hid _]. specialize (Hid Hi).
  unfold waiting. change cluster_ids with [0; 1; 2]. simpl.
  assert (1 ≤ Z.of_nat (length (message_queue_ (rep x i)))) as H1 by (rewrite Hq; simpl; lia).
  destruct Hid as [->|[->| ->]]; lia.
Qed.

Lemma message_ok : msg_ok (a_sent y) i m.
Proof. apply (sm_msgs _ _ _ Hsim); [done|]. by eapply front_inbox. Qed.

Lemma log_i_wf : log_wf (log_ s).
Proof.
  eapply log_rel_wf; [exact log_i|apply (sm_good _ _ _ Hsim)|]. pose proof room. lia.
Qed.

(** The step of a handler that leaves the queue behind the front alone. *)
Lemma finish r' out s' ms y' :
  moved i y s' ms y' → frame r0 r' → prepared_requests ms ⊆+ option_list (message_request m) →
  (∀ v k e, APrepare v k e ∈ ms → entry_ok e) →
  (∀ j n k v l c, j ∈ cluster_ids → AResp j n k v l c ∈ ms → issued n (nonce_counter (rep x j))) →
  rep_rel (state_ r') s' → acks_ok (a_sent y') (state_ r') →
  (∀ m', m' ∈ do_view_change_received_ (state_ r') → m' ∈ do_view_change_received_ s ∨ msg_ok (a_sent y') i m') →
  (∀ m', m' ∈ recovery_responses_ (state_ r') → m' ∈ recovery_responses_ s ∨ msg_ok (a_sent y') i m') →
  (∀ d m', d ∈ cluster_ids → m' ∈ delivered i d out → msg_ok (a_sent y') d m') →
  simulated r' out.
Proof.
  intros Hmv Hf Hp HP HR Hrep Hack Hdv Hre Hd. exists y'. split; [apply Hmv|].
  pose proof (frame_queue _ _ Hf) as Hqu. pose proof (frame_counter _ _ Hf) as Hct. simpl in Hqu, Hct.
  assert (queued_requests (rep x i) = option_list (message_request m) ++ queued_requests r') as Hids
    by (unfold queued_requests; rewrite Hqu, Hq; simpl; by destruct (message_request m)).
  eapply sim_step; try done.
  - apply submseteq_length in Hp. rewrite prepared_requests_length in Hp. rewrite Hqu, Hq. simpl.
    assert (length (option_list (message_request m)) ≤ 1)%nat by (destruct (message_request m); simpl; lia). lia.
  - rewrite Hids. by apply submseteq_skips_r.
  - by rewrite Hct.
  - intros m'. unfold held. rewrite Hqu, Hq, !elem_of_app. simpl. rewrite elem_of_cons. naive_solver.
Qed.

(** Nothing changes that the protocol talks about. *)
Lemma silent r' out :
  frame r0 r' → rep_rel (state_ r') a → acks_ok (a_sent y) (state_ r') →
  do_view_change_received_ (state_ r') = do_view_change_received_ s →
  recovery_responses_ (state_ r') = recovery_responses_ s →
  outs_ok (a_sent y) out → simulated r' out.
Proof.
  intros Hf Hrep Hack Hdv Hre Hout. eapply (finish r' out); [apply moves_none|done|apply submseteq_nil_l|..]; try done.
  - intros v k e H. by apply not_elem_of_nil in H.
  - intros j n k v l' c _ H. by apply not_elem_of_nil in H.
  - rewrite Hdv. auto.
  - rewrite Hre. auto.
  - intros d m' _. by apply outs_delivered.
Qed.

Lemma fields_i :
  a_status a = abs_status (status_ s) ∧ a_view a = view_ s ∧ a_last a = last_normal_view_ s ∧
  a_commit a = commit_ s ∧ a_nonce a = recovery_nonce_ s.
Proof. rewrite rep_i. done. Qed.

(** *** Normal operation *)

Section normal.
Context (Hs : status_ s = ReplicaStatus.NORMAL).

Definition normal_with (l' : alog) (c : Z) : arep :=
  {| a_status := Status.Normal; a_view := view_ s; a_last := last_normal_view_ s; a_log := l';
     a_commit := c; a_nonce := recovery_nonce_ s |}.

Lemma normal_i : a = normal_with l (commit_ s).
Proof. rewrite rep_i at 1. unfold abs_state. by rewrite Hs. Qed.

Lemma mv_request e :
  i = leader (view_ s) →
  ∃ y', moved i y (normal_with (l ++ [e]) (commit_ s))
    [ACommit (view_ s) (commit_ s); APrepare (view_ s) (S (length l)) e] y'.
Proof.
  intros Hp. pose proof normal_i as Ha. destruct fields_i as (F1 & F2 & F3 & F4 & F5). rewrite Hs in F1.
  pose proof (moves_one id_set 1 leader i y _ _ (a_announce id_set 1 leader y i a eq_refl F1)) as M1.
  match type of M1 with moves _ _ _ _ _ _ _ ?y1 => set (y1' := y1) in * end.
  assert (a_reps y1' i = a) as Ha1 by apply M1.
  pose proof (moves_one id_set 1 leader i y1' _ _
    (a_request id_set 1 leader y1' i a e Ha1 F1 ltac:(by rewrite F2))) as M2.
  pose proof (moves_trans _ _ _ _ _ _ _ _ _ _ _ M1 M2) as M. rewrite F2, F3, F4, F5 in M. by eexists.
Qed.

(** A Prepare, and the commit number it carries. *)
Lemma mv_prepare e c :
  i ≠ leader (view_ s) → APrepare (view_ s) (S (length l)) e ∈ a_sent y →
  (c = commit_ s ∨ ACommit (view_ s) c ∈ a_sent y) →
  ∃ y', moved i y (normal_with (l ++ [e]) c) [AOk (view_ s) (S (length l)) i] y'.
Proof.
  intros Hp Hm Hc. destruct fields_i as (F1 & F2 & F3 & F4 & F5). rewrite Hs in F1.
  pose proof (moves_one id_set 1 leader i y _ _
    (a_prepare id_set 1 leader y i a e eq_refl F1 ltac:(rewrite F2; congruence) ltac:(by rewrite F2))) as M1.
  rewrite F2, F3, F4, F5 in M1. destruct Hc as [->|Hc]; [by eexists|].
  match type of M1 with moves _ _ _ _ _ ?s1 _ ?y1 => set (y1' := y1) in *; set (s1' := s1) in * end.
  assert (ACommit (a_view s1') c ∈ a_sent y1') as Hc1 by (eapply moves_old; [exact M1|exact Hc]).
  pose proof (moves_one id_set 1 leader i y1' _ _
    (a_learn id_set 1 leader y1' i s1' c (mv_self _ _ _ _ _ _ _ _ M1) eq_refl Hc1)) as M2.
  pose proof (moves_trans _ _ _ _ _ _ _ _ _ _ _ M1 M2) as M. simpl in M. by eexists.
Qed.

Lemma mv_learn c : ACommit (view_ s) c ∈ a_sent y → ∃ y', moved i y (normal_with l c) [] y'.
Proof.
  intros Hc. destruct fields_i as (F1 & F2 & F3 & F4 & F5). rewrite Hs in F1.
  pose proof (moves_one id_set 1 leader i y _ _
    (a_learn id_set 1 leader y i a c eq_refl F1 ltac:(by rewrite F2))) as M. rewrite F2, F3, F5 in M. by eexists.
Qed.

Lemma rep_rel_normal s' l' c :
  status_ s' = ReplicaStatus.NORMAL → view_ s' = view_ s → last_normal_view_ s' = last_normal_view_ s →
  recovery_nonce_ s' = recovery_nonce_ s → commit_ s' = c → log_rel (log_ s') l' →
  op_ s' = Z.of_nat (length l') → rep_rel s' (normal_with l' c).
Proof.
  intros H1 H2 H3 H4 <- H6 H7. unfold rep_rel, abs_state, normal_with. simpl. by rewrite H1, H2, H3, H4.
Qed.
End normal.

Lemma request_sim r' out :
  h_command h = command.request → can_process front s = true →
  handle_request front r0 = (r', out) → simulated r' out.
Proof.
  intros Hc Hcan Hd. pose proof room as [Hlen Hcom]. pose proof message_ok as Hm.
  pose proof (on_static _ _ Honce i Hi) as Hst. unfold msg_ok in Hm. rewrite Hc in Hm. destruct Hm as [Hwf Hpl].
  unfold can_process, check_can_process_request in Hcan. rewrite Hc in Hcan.
  apply andb_true_iff in Hcan as [Hs%bool_decide_eq_true Hp]. rewrite (static_is_primary i) in Hp by done.
  apply bool_decide_eq_true in Hp.
  pose proof (dispatch_frame env front r0) as Hf. unfold dispatch in Hf. rewrite Hc, Hd in Hf. simpl in Hf.
  destruct (Z.lt_ge_cases (request_number (client_entry (h_client h) (state_ r0))) (h_request h)) as [Hnew|Hold];
    last first.
  { unfold handle_request in Hd. cbv zeta in Hd.
    destruct (h_request h <? _) eqn:H1; [|destruct (_ =? _) eqn:H2].
    - injection Hd as <- <-. apply silent; try done.
      + eapply rep_rel_same, (sm_rep _ _ _ Hsim i Hi); done.
      + eapply acks_ok_same, (sm_acks _ _ _ Hsim i Hi); done.
      + constructor.
    - injection Hd as <- <-. apply silent; try done.
      + eapply rep_rel_same, (sm_rep _ _ _ Hsim i Hi); done.
      + eapply acks_ok_same, (sm_acks _ _ _ Hsim i Hi); done.
      + by apply Forall_singleton.
    - apply Z.ltb_ge in H1. apply Z.eqb_neq in H2. lia. }
  rewrite handle_request_new in Hd by (try done; simpl; rewrite op_i; rlia). injection Hd as <- <-.
  set (e := entry_of (view_ s) m {[id_ s]}).
  destruct (mv_request Hs (strip_entry e) Hp) as [y' M].
  assert (entry_ok (strip_entry e)) as He.
  { split; [|done]. split; simpl; try apply Hwf. destruct (on_within _ _ Honce i Hi). rlia. }
  eapply (finish _ _ _ _ y' M Hf); simpl.
  - unfold message_request. rewrite (bool_decide_eq_true_2 _ Hc). done.
  - intros v k e' Hin. by apply elem_of_cons in Hin as [?|[= -> -> ->]%list_elem_of_singleton].
  - intros j n k v l' c _ Hin. by apply elem_of_cons in Hin as [?|?%list_elem_of_singleton].
  - apply rep_rel_normal; simpl; try done.
    + apply log_rel_snoc; [exact log_i|rewrite op_i; done].
    + rewrite length_app, op_i. simpl. lia.
  - intros _ k e' j. simpl. destruct (decide (k = op_ s + 1)) as [->|Hk].
    + rewrite lookup_insert_eq. intros [= <-]. simpl. rewrite (st_id _ _ Hst). intros ->%elem_of_singleton.
      split; [done|]. right. split; [done|]. exists (strip_entry e). eapply moves_new; [exact M|].
      rewrite op_i. replace (Z.to_nat (Z.of_nat (length l) + 1)) with (S (length l)) by lia. set_solver.
    + rewrite lookup_insert_ne by done. intros He' Hj.
      destruct (sm_acks _ _ _ Hsim i Hi Hs k e' j He' Hj) as [Hj' Ha]. split; [done|].
      eapply has_acked_mono; [|exact Ha]. intros b. by eapply moves_old.
  - by left.
  - by left.
  - intros d m' Hdd. apply outs_delivered. apply Forall_singleton. intros d'. unfold msg_ok. simpl.
    rewrite op_i. split_and!; [lia| |].
    + eapply moves_new; [exact M|]. replace (Z.to_nat (Z.of_nat (length l) + 1)) with (S (length l)) by lia.
      apply elem_of_cons. right. apply list_elem_of_singleton. done.
    + eapply moves_new; [exact M|]. apply elem_of_cons. by left.
Qed.

(** Execution changes nothing that is related. *)
Lemma machine_rel r1 m1 k1 a1 : rep_rel (state_ r1) a1 → rep_rel (state_ (with_machine r1 m1 k1)) a1.
Proof. done. Qed.

Lemma machine_acks M r1 m1 k1 : acks_ok M (state_ r1) → acks_ok M (state_ (with_machine r1 m1 k1)).
Proof. done. Qed.

Lemma prepare_sim r' out :
  h_command h = command.prepare → can_process front s = true →
  handle_prepare env front r0 = (r', out) → simulated r' out.
Proof.
  intros Hc Hcan Hd. pose proof room as [Hlen Hcom]. pose proof message_ok as Hm.
  pose proof (on_static _ _ Honce i Hi) as Hst. unfold msg_ok in Hm. rewrite Hc in Hm.
  destruct Hm as (Hop & Hprep & Hcm).
  unfold can_process, check_can_process_prepare in Hcan. rewrite Hc in Hcan.
  apply andb_true_iff in Hcan as [[[Hs%bool_decide_eq_true Hp]%andb_true_iff Hv%Z.eqb_eq]%andb_true_iff Ho%Z.eqb_eq].
  rewrite (static_is_primary i) in Hp by done. apply negb_true_iff, bool_decide_eq_false in Hp.
  rewrite u64_small in Ho by (rewrite op_i; rlia).
  pose proof (dispatch_frame env front r0) as Hf. unfold dispatch in Hf. rewrite Hc, Hd in Hf. simpl in Hf.
  rewrite Hv in Hprep, Hcm. set (e := entry_of (view_ s) m ∅) in *.
  replace (Z.to_nat (h_op h)) with (S (length l)) in Hprep by (rewrite Ho, op_i; lia).
  set (c := if commit_ s <? h_commit h then h_commit h else commit_ s).
  destruct (mv_prepare Hs e c Hp Hprep) as [y' M]; [unfold c; case_match; auto|].
  set (s2 := s <| op_ := op_ s + 1 |> <| log_ := <[op_ s + 1 := e]> (log_ s) |> <| commit_ := c |>
    <| client_table_ := <[h_client h := {| request_number := h_request h; executed := false; result := [] |}]> (client_table_ s) |>).
  assert (rep_rel s2 (normal_with (l ++ [e]) c)) as Hrep.
  { apply rep_rel_normal; try done; simpl.
    - apply (log_rel_snoc _ _ _ e); [exact log_i|by rewrite op_i].
    - rewrite length_app, op_i. simpl. lia. }
  assert (acks_ok (a_sent y') s2) as Hack.
  { intros _ k e' j. simpl. destruct (decide (k = op_ s + 1)) as [->|Hk].
    - rewrite lookup_insert_eq. intros [= <-]. simpl. set_solver.
    - rewrite lookup_insert_ne by done. intros He' Hj.
      destruct (sm_acks _ _ _ Hsim i Hi Hs k e' j He' Hj) as [Hj' Ha]. split; [done|].
      eapply has_acked_mono; [|exact Ha]. intros b. by eapply moves_old. }
  assert (∃ m1 k1 o1, r' = with_machine ((touch_primary_contact env r0) <| state_ := s2 |>) m1 k1 ∧
    out = send_message (ib_connection front) (prepare_ok_msg (op_ s + 1) s) :: o1 ∧ Forall (is_reply (view_ s)) o1) as
    (m1 & k1 & o1 & -> & -> & Ho1).
  { unfold handle_prepare in Hd. cbv zeta in Hd. change (op_ (state_ (touch_primary_contact env r0))) with (op_ s) in Hd.
    rewrite u64_small in Hd by (rewrite op_i; rlia). simpl in Hd. unfold c in s2.
    destruct (commit_ s <? h_commit h) eqn:Hlt.
    - match type of Hd with context [execute_commited_ops ?r1] =>
        pose proof (execute_replies r1) as Hex; destruct (execute_shape r1) as (m1 & k1 & Hsh);
        destruct (execute_commited_ops r1) as [r2 o2] end.
      simpl in Hex, Hsh. injection Hd as <- <-. exists m1, k1, o2. rewrite Hsh. done.
    - injection Hd as <- <-. exists (machine_of s2), (last_executed_op_ s2), [].
      split_and!; [by destruct (rep x i) as [[] ? ? ? ? ? ?]|done|constructor]. }
  eapply (finish _ _ _ _ y' M Hf); try done.
  - apply submseteq_nil_l.
  - intros v k e' Hin. by apply list_elem_of_singleton in Hin.
  - intros j n k v l' c' _ Hin. by apply list_elem_of_singleton in Hin.
  - by left.
  - by left.
  - intros d m' Hdd. apply outs_delivered, Forall_cons_2; [|by eapply replies_ok].
    intros d'. unfold msg_ok. simpl. rewrite (st_id _ _ Hst), cluster_ids_u8 by done. split; [done|].
    eapply moves_new; [exact M|]. rewrite op_i.
    replace (Z.to_nat (Z.of_nat (length l) + 1)) with (S (length l)) by lia. by apply list_elem_of_singleton.
Qed.

Lemma commit_sim r' out :
  h_command h = command.commit → can_process front s = true →
  handle_commit env front r0 = (r', out) → simulated r' out.
Proof.
  intros Hc Hcan Hd. pose proof message_ok as Hm. unfold msg_ok in Hm. rewrite Hc in Hm.
  unfold can_process, check_can_process_commit in Hcan. rewrite Hc in Hcan.
  apply andb_true_iff in Hcan as [[Hs%bool_decide_eq_true _]%andb_true_iff Hv%Z.eqb_eq]. rewrite Hv in Hm.
  pose proof (dispatch_frame env front r0) as Hf. unfold dispatch in Hf. rewrite Hc, Hd in Hf. simpl in Hf.
  unfold handle_commit in Hd. simpl in Hd. destruct (commit_ s <? h_commit h) eqn:Hlt; last first.
  { injection Hd as <- <-. apply silent; try done; [apply (sm_rep _ _ _ Hsim i Hi)|apply (sm_acks _ _ _ Hsim i Hi)|constructor]. }
  destruct (mv_learn Hs (h_commit h) Hm) as [y' M].
  match type of Hd with execute_commited_ops ?r1 = _ =>
    pose proof (execute_replies r1) as Hex; destruct (execute_shape r1) as (m1 & k1 & Hsh);
    rewrite Hd in Hex, Hsh end. simpl in Hex, Hsh. subst r'.
  eapply (finish _ _ _ _ y' M Hf); try done.
  - apply submseteq_nil_l.
  - intros v k e' Hin. by apply not_elem_of_nil in Hin.
  - intros j n k v l' c' _ Hin. by apply not_elem_of_nil in Hin.
  - apply machine_rel, rep_rel_normal; try done; [exact log_i|exact op_i].
  - apply machine_acks. eapply acks_ok_same; [| | |eapply acks_ok_mono; [|apply (sm_acks _ _ _ Hsim i Hi)]]; try done.
    intros b. by eapply moves_old.
  - by left.
  - by left.
  - intros d m' Hdd. by eapply outs_delivered, replies_ok.
Qed.

Lemma prepare_ok_sim r' out :
  h_command h = command.prepare_ok → can_process front s = true →
  handle_prepare_ok front r0 = (r', out) → simulated r' out.
Proof.
  intros Hc Hcan Hd. pose proof room as [Hlen Hcom]. pose proof message_ok as Hm.
  pose proof (on_static _ _ Honce i Hi) as Hst. unfold msg_ok in Hm. rewrite Hc in Hm. destruct Hm as [Hj Hok].
  unfold can_process, check_can_process_prepare_ok in Hcan. rewrite Hc in Hcan.
  apply andb_true_iff in Hcan as [[Hs%bool_decide_eq_true Hp]%andb_true_iff Hv%Z.eqb_eq]. rewrite Hv in Hok.
  pose proof (dispatch_frame env front r0) as Hf. unfold dispatch in Hf. rewrite Hc, Hd in Hf. simpl in Hf.
  unfold handle_prepare_ok in Hd. simpl in Hd. destruct (log_ s !! h_op h) as [e|] eqn:He; last first.
  { injection Hd as <- <-. apply silent; try done; [apply (sm_rep _ _ _ Hsim i Hi)|apply (sm_acks _ _ _ Hsim i Hi)|constructor]. }
  set (log2 := <[h_op h := e <| le_acks := {[h_replica h]} ∪ le_acks e |>]> (log_ s)).
  set (s2 := s <| log_ := log2 |>).
  assert (log_rel log2 l) as Hlr by (apply log_rel_acks; [exact log_i|done]).
  assert (acks_ok (a_sent y) s2) as Hack2.
  { intros _ k e' j. simpl. unfold log2. destruct (decide (k = h_op h)) as [->|Hk].
    - rewrite lookup_insert_eq. intros [= <-]. simpl. intros [->%elem_of_singleton|Hin]%elem_of_union.
      + split; [done|]. by left.
      + by eapply (sm_acks _ _ _ Hsim i Hi Hs).
    - rewrite lookup_insert_ne by done. apply (sm_acks _ _ _ Hsim i Hi Hs). }
  assert (advance_primary_commit_number (r0 <| state_ := s2 |>) = (r', out)) as Hd2 by exact Hd. clear Hd.
  pose proof (advance_replies (r0 <| state_ := s2 |>)) as Hex. rewrite Hd2 in Hex. simpl in Hex.
  assert (log_keys log2) as Hkeys by (eapply log_rel_keys; [exact Hlr|lia]).
  unfold advance_primary_commit_number in Hd2. cbn [state_ setf] in Hd2.
  assert (is_primary s2 = true) as Hp2 by exact Hp. rewrite Hp2 in Hd2. cbn [negb] in Hd2.
  destruct (advance_loop_spec (S (size (log_ s2))) s2) as (n & Hadv & Hu & Hacked & _); [|exact Hkeys|].
  { change (commit_ s2) with (commit_ s). rlia. }
  rewrite Hadv in Hd2.
  match type of Hd2 with execute_commited_ops ?r1 = _ => destruct (execute_shape r1) as (m1 & k1 & Hsh);
    rewrite Hd2 in Hsh end. simpl in Hsh. subst r'.
  pose proof (normal_i Hs) as Ha.
  destruct (moves_advance id_set 1 leader i y (normal_with l (commit_ s)) n) as [y' M]; [done|done|apply Hcom| |].
  { simpl. intros k Hk. destruct (Hacked k Hk) as (e' & He' & Hq').
    apply (log_rel_lookup log2 l) in He' as Hk'; [|done]. split; [lia|]. exists (le_acks e').
    rewrite (static_quorum i) in Hq' by (by destruct Hst). apply Z.leb_le in Hq'. split.
    - apply id_quorum; [|lia]. intros j Hin. by apply (Hack2 Hs k e').
    - intros j Hin. by apply (Hack2 Hs k e'). }
  eapply (finish _ _ _ _ y' M Hf); try done.
  - apply submseteq_nil_l.
  - intros v k e' Hin. by apply not_elem_of_nil in Hin.
  - intros j n' k v l' c' _ Hin. by apply not_elem_of_nil in Hin.
  - assert (rep_rel (s2 <| commit_ := commit_ s + Z.of_nat n |>) (normal_with l (commit_ s + Z.of_nat n))) as Hrep
      by (apply rep_rel_normal; try done; exact op_i). exact Hrep.
  - apply machine_acks. eapply acks_ok_same; [| | |eapply acks_ok_mono; [|exact Hack2]]; try done.
    intros b. by eapply moves_old.
  - by left.
  - by left.
  - intros d m' Hdd. by eapply outs_delivered, replies_ok.
Qed.

(** *** View changes *)

Lemma budget_i : Z.of_nat (prepared (a_sent y)) < 2 ^ 64.
Proof.
  pose proof (sm_budget _ _ _ Hsim) as Hb. pose proof (waiting_nonneg x). lia.
Qed.

Lemma inbox_ok m' : m' ∈ inbox i x → msg_ok (a_sent y) i m'.
Proof. by apply (sm_msgs _ _ _ Hsim). Qed.

Lemma received_inbox m' : m' ∈ do_view_change_received_ s → m' ∈ inbox i x.
Proof. intros H. unfold inbox, held. set_solver. Qed.

Lemma responses_inbox m' : m' ∈ recovery_responses_ s → m' ∈ inbox i x.
Proof. intros H. unfold inbox, held. set_solver. Qed.

Lemma received_dvcs m' :
  m' ∈ do_view_change_received_ s →
  msg_ok (a_sent y) i m' ∧ h_command (header m') = command.do_view_change ∧ h_view (header m') = view_ s.
Proof.
  intros H. destruct (co_dvcs _ (on_collected _ _ Honce i Hi) m' H) as (_ & Hc & Hv).
  split_and!; [by apply inbox_ok, received_inbox|done|done].
Qed.

Lemma plain_no_prepare ms v k e : Forall plain ms → APrepare v k e ∈ ms → entry_ok e.
Proof. rewrite Forall_forall. intros H Hin. by apply H in Hin. Qed.

Lemma plain_no_resp ms j n k v l' c : Forall plain ms → AResp j n k v l' c ∈ ms → issued n (nonce_counter (rep x j)).
Proof. rewrite Forall_forall. intros H Hin. by apply H in Hin. Qed.

(** Nothing is prepared or answered. *)
Lemma finish_plain r' out s' ms y' :
  moved i y s' ms y' → frame r0 r' → Forall plain ms →
  rep_rel (state_ r') s' → acks_ok (a_sent y') (state_ r') →
  (∀ m', m' ∈ do_view_change_received_ (state_ r') → m' ∈ do_view_change_received_ s ∨ msg_ok (a_sent y') i m') →
  (∀ m', m' ∈ recovery_responses_ (state_ r') → m' ∈ recovery_responses_ s ∨ msg_ok (a_sent y') i m') →
  (∀ d m', d ∈ cluster_ids → m' ∈ delivered i d out → msg_ok (a_sent y') d m') →
  simulated r' out.
Proof.
  intros Hmv Hf P. eapply (finish _ _ _ _ y' Hmv Hf).
  - rewrite plain_requests by done. apply submseteq_nil_l.
  - intros v k e. by apply plain_no_prepare.
  - intros j n k v l' c _. by apply plain_no_resp.
Qed.

Lemma change_finish r1 r' out y0 ms0 s1 s' ms y' :
  moved i y s1 ms0 y0 → Forall plain ms0 → change_result i y0 r1 r' out s' ms y' → frame r0 r' →
  (∀ m', m' ∈ do_view_change_received_ (state_ r1) → m' ∈ do_view_change_received_ s ∨ msg_ok (a_sent y0) i m') →
  recovery_responses_ (state_ r1) = recovery_responses_ s → simulated r' out.
Proof.
  intros M0 P0 [C1 C2 C3 C4 C5 C6 C7] Hf Hrec Hresp.
  assert (Forall plain (ms0 ++ ms)) as P by (apply Forall_app; done).
  pose proof (moves_trans _ _ _ _ _ _ _ _ _ _ _ M0 C1) as M.
  eapply (finish_plain r' out s' (ms0 ++ ms) y' M Hf P); try done.
  - intros m' Hm'. apply C6, Hrec in Hm' as [?|?]; [by left|right]. eapply msg_ok_mono; [|done].
    intros b. by eapply moves_old.
  - intros m'. rewrite C7, Hresp. by left.
  - intros d m' _. by apply outs_delivered.
Qed.

Lemma dvc_sim r' out :
  h_command h = command.do_view_change → can_process front s = true →
  handle_do_view_change env front r0 = (r', out) → simulated r' out.
Proof.
  intros Hc Hcan Hd. pose proof (on_static _ _ Honce i Hi) as Hst. pose proof message_ok as Hm.
  unfold can_process, check_can_process_do_view_change in Hcan. rewrite Hc in Hcan.
  destruct (h_view h =? view_ s) eqn:Hv; [apply Z.eqb_eq in Hv|done]. simpl in Hcan.
  case_bool_decide as Hs; [|done]. cbn [negb] in Hcan.
  rewrite (static_primary_for_view i), (st_id _ _ Hst) in Hcan by done.
  destruct (leader (view_ s) =? i) eqn:Hlead; [apply Z.eqb_eq in Hlead|done].
  assert (∀ m', m' ∈ do_view_change_received_ s ++ [m] →
    msg_ok (a_sent y) i m' ∧ h_command (header m') = command.do_view_change ∧ h_view (header m') = view_ s) as Hall.
  { intros m' [Hm'|Hm']%elem_of_app; [by apply received_dvcs|]. by apply list_elem_of_singleton in Hm' as ->. }
  assert (NoDup ((λ m', h_replica (header m')) <$> do_view_change_received_ s ++ [m])) as Hnd.
  { apply (senders_nodup (KDvc (view_ s))).
    - intros m' (_ & Hc' & Hv')%Hall. unfold key. by rewrite Hc', Hv'.
    - eapply keys_part; [done|done|]. rewrite (front_perm _ _ _ _ Hq). unfold held. simpl.
      rewrite (Permutation_app_comm (do_view_change_received_ s) [m]). simpl. apply submseteq_skip.
      apply submseteq_inserts_l, submseteq_inserts_l. by apply submseteq_inserts_r. }
  assert (dispatch env front r0 = (r', out)) as Hdis by (unfold dispatch; by rewrite Hc).
  pose proof (dispatch_frame env front r0) as Hf. rewrite Hdis in Hf.
  destruct (do_view_change_result env i y front r0 r' out) as (s' & ms & y' & Hres); try done.
  - apply (sm_rep _ _ _ Hsim i Hi).
  - apply Hsim.
  - apply budget_i.
  - eapply change_finish; [apply moves_none|constructor|exact Hres|done| |done].
    simpl. intros m' [?|Hm']%elem_of_app; [by left|right]. by apply list_elem_of_singleton in Hm' as ->.
Qed.

(** The replica sends its DoViewChange. *)
Lemma mv_send_dvc :
  status_ s = ReplicaStatus.VIEW_CHANGE →
  ∃ y', moved i y a [ADvc (view_ s) i (last_normal_view_ s) l (commit_ s)] y'.
Proof.
  intros Hs. destruct fields_i as (F1 & F2 & F3 & F4 & F5). rewrite Hs in F1.
  pose proof (moves_one id_set 1 leader i y _ _
    (a_send_dvc id_set 1 leader y i a ltac:(by apply id_set_elem) eq_refl F1)) as M.
  rewrite F2, F3, F4 in M. by eexists.
Qed.

Lemma dvc_msg_ok M s2 d :
  id_ s2 = i → view_ s2 = view_ s → op_ s2 = op_ s → commit_ s2 = commit_ s →
  last_normal_view_ s2 = last_normal_view_ s → log_ s2 = log_ s → is_u32 (last_normal_view_ s) →
  ADvc (view_ s) i (last_normal_view_ s) l (commit_ s) ∈ M → msg_ok M d (do_view_change_msg s2).
Proof.
  intros H1 H2 H3 H4 H5 H6 Hu HM. unfold msg_ok, do_view_change_msg. simpl. rewrite H1, H2, H3, H4, H5, H6.
  exists (last_normal_view_ s), (strip_acks (log_ s)), l. rewrite cluster_ids_u8 by done. split_and!.
  - intros v0. apply dvc_round; [exact log_i_wf|done].
  - apply log_rel_strip, log_i.
  - apply strip_unacked.
  - exact op_i.
  - exact HM.
Qed.

Lemma last_normal_u32 : is_u32 (last_normal_view_ s).
Proof.
  pose proof (gd_inv _ (sm_good _ _ _ Hsim)) as [Hinv _]. destruct (ai_view _ _ _ _ Hinv i) as [Hv _].
  destruct fields_i as (_ & F2 & F3 & _). rewrite F2, F3 in Hv.
  destruct (on_within _ _ Honce i Hi). rlia.
Qed.

(** As long as a replica counts its own StartViewChange it has not received a
    DoViewChange message of its own. *)
Lemma own_dvc_fresh m' :
  status_ s = ReplicaStatus.VIEW_CHANGE → i ∈ start_view_change_received_ s → m' ∈ do_view_change_received_ s →
  h_replica (header m') ≠ i.
Proof.
  intros Hs Hown Hm' Hji. destruct (received_dvcs m' Hm') as (_ & Hc' & Hv').
  assert (KDvc (view_ s) i ∈ keys (inbox i x)) as Hk.
  { apply keys_elem. exists m'. split; [by apply received_inbox|]. unfold key. by rewrite Hc', Hv', Hji. }
  apply (on_keys _ _ Honce) in Hk as (_ & _ & [Hlt|[_ [?|?]]]); [lia|done|done|done].
Qed.

Lemma svc_sim r' out :
  h_command h = command.start_view_change → can_process front s = true →
  handle_start_view_change env front r0 = (r', out) → simulated r' out.
Proof.
  intros Hc Hcan Hd. pose proof (on_static _ _ Honce i Hi) as Hst.
  unfold can_process, check_can_process_start_view_change in Hcan. rewrite Hc in Hcan.
  apply andb_true_iff in Hcan as [Hv%Z.eqb_eq Hs%bool_decide_eq_true].
  assert (dispatch env front r0 = (r', out)) as Hdis by (unfold dispatch; by rewrite Hc).
  pose proof (dispatch_frame env front r0) as Hf. rewrite Hdis in Hf. clear Hdis.
  unfold handle_start_view_change in Hd. cbv zeta in Hd.
  set (s1 := (state_ r0) <| start_view_change_received_ := {[h_replica h]} ∪ start_view_change_received_ (state_ r0) |>) in Hd.
  rewrite (static_quorum i s1) in Hd by (by destruct Hst). destruct (2 <=? _) eqn:Hle; last first.
  { injection Hd as <- <-. apply silent; try done; [|intros Hn|constructor].
    - eapply rep_rel_same, (sm_rep _ _ _ Hsim i Hi); done.
    - exfalso. change (status_ s = ReplicaStatus.NORMAL) in Hn. congruence. }
  apply Z.leb_le in Hle.
  assert (i ∈ start_view_change_received_ s) as Hown.
  { eapply svc_quorum_own; try done. exact (proj2 (Nat2Z.inj_le 2 _) Hle). }
  set (s2 := s1 <| start_view_change_received_ := ∅ |>) in Hd. assert (static i s2) as Hst2 by (by destruct Hst).
  rewrite (static_primary_for_view i s2), (st_id _ _ Hst2) in Hd by done. change (view_ s2) with (view_ s) in Hd.
  destruct (mv_send_dvc Hs) as [y1 M1].
  assert (∀ d, msg_ok (a_sent y1) d (do_view_change_msg s2)) as Hdvc.
  { intros d. eapply dvc_msg_ok; try done; [apply Hst2|apply last_normal_u32|].
    eapply moves_new; [exact M1|by apply list_elem_of_singleton]. }
  destruct (leader (view_ s) =? i) eqn:Hlead; [apply Z.eqb_eq in Hlead|]; last first.
  { injection Hd as <- <-. eapply (finish_plain _ _ _ _ y1 M1 Hf); try done.
    - by apply Forall_singleton.
    - eapply rep_rel_same, (sm_rep _ _ _ Hsim i Hi); done.
    - intros Hn. exfalso. change (status_ s = ReplicaStatus.NORMAL) in Hn. congruence.
    - by left.
    - by left.
    - intros d m' _. apply outs_delivered. by apply Forall_singleton. }
  set (r2 := r0 <| state_ := s2 |>) in Hd. set (inb := {| ib_connection := None; ib_message := do_view_change_msg s2 |}) in Hd.
  assert (good y1) as Hgood1.
  { eapply good_steps; [apply Hsim|apply M1|]. intros v k e. rewrite (mv_sent _ _ _ _ _ _ _ _ M1).
    intros [H|H]%elem_of_app; [|by apply list_elem_of_singleton in H].
    exact (en_msgs _ _ (gd_entries _ (sm_good _ _ _ Hsim)) _ H). }
  destruct (do_view_change_result env i y1 inb r2 r' out) as (s' & ms & y' & Hres); try done.
  - rewrite (mv_self _ _ _ _ _ _ _ _ M1). eapply rep_rel_same, (sm_rep _ _ _ Hsim i Hi); done.
  - rewrite (mv_sent _ _ _ _ _ _ _ _ M1), prepared_app, (plain_prepared [ADvc _ _ _ _ _]) by (by apply Forall_singleton).
    pose proof budget_i. lia.
  - intros m' [Hm'|Hm']%elem_of_app; [|by apply list_elem_of_singleton in Hm' as ->].
    destruct (received_dvcs m' Hm') as (H1 & H2 & H3). split_and!; [|done|done].
    eapply msg_ok_mono; [|exact H1]. intros b. by eapply moves_old.
  - rewrite fmap_app. apply NoDup_app. split_and!; [| |apply NoDup_singleton].
    + apply (senders_nodup (KDvc (view_ s))).
      * intros m' (_ & Hc' & Hv')%received_dvcs. unfold key. by rewrite Hc', Hv'.
      * eapply keys_part; [done|done|]. unfold inbox, held. apply submseteq_inserts_l, submseteq_inserts_l.
        by apply submseteq_inserts_r.
    + intros j (m' & -> & Hm')%list_elem_of_fmap Hj. apply list_elem_of_singleton in Hj.
      apply (own_dvc_fresh m' Hs Hown Hm'). rewrite Hj. simpl. by rewrite (st_id _ _ Hst), cluster_ids_u8.
  - eapply change_finish; [exact M1|by apply Forall_singleton|exact Hres|done| |done].
    simpl. intros m' [?|Hm']%elem_of_app; [by left|right]. by apply list_elem_of_singleton in Hm' as ->.
Qed.

(** Adopting the log of a new view. *)
Lemma mv_adopt l' c ks :
  status_ s = ReplicaStatus.VIEW_CHANGE → ASv (view_ s) l' c ∈ a_sent y →
  Forall (λ k, (k ≤ length l')%nat) ks →
  ∃ y', moved i y (normal_with l' c) ((λ k, AOk (view_ s) k i) <$> ks) y'.
Proof.
  intros Hs Hm Hks. destruct fields_i as (F1 & F2 & F3 & F4 & F5). rewrite Hs in F1.
  pose proof (moves_one id_set 1 leader i y _ _
    (a_adopt id_set 1 leader y i a l' c ks eq_refl F1 ltac:(by rewrite F2) Hks)) as M.
  rewrite F2, F3, F5 in M. by eexists.
Qed.

Lemma start_view_sim r' out :
  h_command h = command.start_view → can_process front s = true →
  handle_start_view env front r0 = (r', out) → simulated r' out.
Proof.
  intros Hc Hcan Hd. pose proof (on_static _ _ Honce i Hi) as Hst. pose proof message_ok as Hm.
  unfold can_process, check_can_process_start_view in Hcan. rewrite Hc in Hcan.
  destruct (h_view h =? view_ s) eqn:Hv; [apply Z.eqb_eq in Hv|done]. simpl in Hcan.
  case_bool_decide as Hs; [|done]. clear Hcan.
  unfold msg_ok in Hm. rewrite Hc in Hm. destruct Hm as (log & l' & Hp & Hrel & Hun & Hop & Hsv). rewrite Hv in Hsv.
  assert (dispatch env front r0 = (r', out)) as Hdis by (unfold dispatch; by rewrite Hc).
  pose proof (dispatch_frame env front r0) as Hf. rewrite Hdis in Hf. clear Hdis.
  assert (0 ≤ h_commit h < 2 ^ 32 ∧ Z.of_nat (length l') < 2 ^ 32) as [Hcm Hll].
  { pose proof (bd_msgs _ (gd_bounded _ (sm_good _ _ _ Hsim))) as Hb. rewrite Forall_forall in Hb.
    specialize (Hb _ Hsv). simpl in Hb. pose proof (sm_budget _ _ _ Hsim). pose proof (waiting_nonneg x). lia. }
  unfold handle_start_view in Hd. rewrite Hp in Hd. cbn [negb sv_log] in Hd. cbv zeta in Hd.
  match type of Hd with context [refresh_client_table ?s0] =>
    destruct (refresh_client_table_shape s0) as [ct Hct] end. rewrite Hct in Hd. clear Hct.
  match type of Hd with context [execute_commited_ops ?r1] =>
    pose proof (execute_replies r1) as Hex; destruct (execute_shape r1) as (m1 & k1 & Hsh);
    destruct (execute_commited_ops r1) as [r2 o2] end.
  simpl in Hex, Hsh. subst r2. simpl in Hd. injection Hd as <- <-.
  rewrite u64_small by rlia. rewrite retroactive_oks_spec by (simpl; lia). simpl.
  set (ops := logged_between log (h_commit h + 1 - 1) (h_op h)).
  destruct (mv_adopt l' (h_commit h) (Z.to_nat <$> ops) Hs Hsv) as [y' M].
  { apply Forall_forall. intros k (j & -> & Hj)%list_elem_of_fmap. apply logged_between_elem in Hj as [Hj _]. lia. }
  assert (Forall plain ((λ k, AOk (view_ s) k i) <$> (Z.to_nat <$> ops))) as P.
  { apply Forall_forall. by intros b (k & -> & _)%list_elem_of_fmap. }
  eapply (finish_plain _ _ _ _ y' M Hf P).
  - unfold rep_rel, abs_state, normal_with. simpl. rewrite Hv. done.
  - intros _ k e j He Hj. simpl in He. apply Hun in He. rewrite He in Hj. set_solver.
  - by left.
  - by left.
  - intros d m' _. apply outs_delivered, Forall_app. split; [by eapply replies_ok|]. apply Forall_forall.
    intros o (k & -> & Hk)%list_elem_of_fmap d'. unfold msg_ok. simpl.
    rewrite (st_id _ _ Hst), cluster_ids_u8, Hv by done. split; [done|]. eapply moves_new; [exact M|].
    apply list_elem_of_fmap. exists (Z.to_nat k). split; [done|]. apply list_elem_of_fmap. eauto.
Qed.

(** *** Recovery *)

Lemma recovery_request_sim r' out :
  h_command h = command.recovery → can_process front s = true →
  handle_recovery_request env front r0 = (r', out) → simulated r' out.
Proof.
  intros Hc Hcan Hd. pose proof (on_static _ _ Honce i Hi) as Hst.
  unfold can_process, check_can_process_recovery_request in Hcan. rewrite Hc in Hcan.
  apply bool_decide_eq_true in Hcan as Hs.
  assert (dispatch env front r0 = (r', out)) as Hdis by (unfold dispatch; by rewrite Hc).
  pose proof (dispatch_frame env front r0) as Hf. rewrite Hdis in Hf. clear Hdis.
  unfold handle_recovery_request in Hd.
  destruct (rq_deserialize _ _) as [[] p] eqn:Hrq; cbn [negb] in Hd; last first.
  { injection Hd as <- <-. apply silent; try done; [apply (sm_rep _ _ _ Hsim i Hi)|apply (sm_acks _ _ _ Hsim i Hi)|constructor]. }
  pose proof (rq_wf _ _ _ Hrq) as Hwf. apply (rq_any _ _ {| rq_nonce := U128 0 0 |}) in Hrq.
  set (j := h_replica h) in *. set (n := rq_nonce p) in *.
  assert (key m = Some (KRec n j)) as Hk by (unfold key, rec_nonce; rewrite Hc, Hrq; done).
  destruct (front_key N x i Honce Hi HN front rest Hq _ Hk) as (_ & (Hj & Hji & Hiss) & _).
  destruct fields_i as (F1 & F2 & F3 & F4 & F5). rewrite Hs in F1.
  pose proof (moves_one id_set 1 leader i y _ _ (a_respond id_set 1 leader y i a j n eq_refl F1)) as M.
  rewrite F2, F4 in M. match type of M with moves _ _ _ _ _ _ _ ?y1 => set (y' := y1) in *; clearbody y' end.
  injection Hd as <- <-. eapply (finish _ _ _ _ y' M Hf).
  - apply submseteq_nil_l.
  - intros v k e Hin. by apply list_elem_of_singleton in Hin.
  - intros j' n' k v l' c _ [= -> -> -> -> -> ->]%list_elem_of_singleton. done.
  - apply (sm_rep _ _ _ Hsim i Hi).
  - eapply acks_ok_mono; [|apply (sm_acks _ _ _ Hsim i Hi)]. intros b. by eapply moves_old.
  - by left.
  - by left.
  - intros d m' Hdd. rewrite delivered_peer by done.
    destruct (decide (d = j)) as [->|]; [|intros Hz; by apply not_elem_of_nil in Hz].
    intros ->%list_elem_of_singleton. unfold msg_ok. simpl.
    exists n, (strip_acks (log_ s)), l. rewrite (st_id _ _ Hst), cluster_ids_u8 by done. split_and!.
    + intros n0. apply rr_round; [exact log_i_wf|done].
    + apply log_rel_strip, log_i.
    + apply strip_unacked.
    + exact op_i.
    + eapply moves_new; [exact M|]. by apply list_elem_of_singleton.
Qed.

(** The responses to the current recovery, with the one at the front of the queue. *)
Lemma responses_known :
  h_command h = command.recovery_response → view_ s ≤ h_view h → resp_nonce m = recovery_nonce_ s →
  (∀ m', m' ∈ recovery_responses_ s ++ [m] → msg_ok (a_sent y) i m' ∧
    h_command (header m') = command.recovery_response ∧ view_ s ≤ h_view (header m') ∧
    resp_nonce m' = recovery_nonce_ s ∧ KResp (recovery_nonce_ s) (h_replica (header m')) ∈ keys (inbox i x)) ∧
  NoDup ((λ m', h_replica (header m')) <$> recovery_responses_ s ++ [m]).
Proof.
  intros Hc Hv Hrn. pose proof (on_collected _ _ Honce i Hi) as Hco.
  assert (∀ m', m' ∈ recovery_responses_ s ++ [m] → m' ∈ inbox i x ∧ h_command (header m') = command.recovery_response ∧
    view_ s ≤ h_view (header m') ∧ resp_nonce m' = recovery_nonce_ s) as Hall.
  { intros m' [Hm'|Hm']%elem_of_app.
    - destruct (co_responses _ Hco m' Hm') as (_ & H1 & H2 & H3). split_and!; try done. by apply responses_inbox.
    - apply list_elem_of_singleton in Hm' as ->. split_and!; try done. by eapply front_inbox. }
  assert (∀ m', m' ∈ recovery_responses_ s ++ [m] →
    key m' = Some (KResp (recovery_nonce_ s) (h_replica (header m')))) as Hkeys.
  { intros m' (_ & H1 & _ & H2)%Hall. unfold key. by rewrite H1, H2. }
  split.
  - intros m' Hm'. destruct (Hall m' Hm') as (H1 & H2 & H3 & H4). split_and!; try done; [by apply inbox_ok|].
    apply keys_elem. exists m'. split; [done|by apply Hkeys].
  - apply (senders_nodup (KResp (recovery_nonce_ s))); [done|]. eapply keys_part; [done|done|].
    rewrite (front_perm _ _ _ _ Hq). unfold held. simpl.
    rewrite (Permutation_app_comm (recovery_responses_ s) [m]). simpl. apply submseteq_skip.
    apply submseteq_inserts_l, submseteq_inserts_l, submseteq_inserts_l. done.
Qed.

Lemma recovery_response_sim r' out :
  h_command h = command.recovery_response → is_stale m s = false → can_process front s = true →
  handle_recovery_response env front r0 = (r', out) → simulated r' out.
Proof.
  intros Hc Hstale Hcan Hd. pose proof (on_static _ _ Honce i Hi) as Hst. pose proof message_ok as Hm.
  unfold can_process, check_can_process_recovery_response in Hcan. rewrite Hc in Hcan.
  apply bool_decide_eq_true in Hcan as Hs. unfold is_stale in Hstale. rewrite Hc in Hstale. simpl in Hstale.
  apply Z.ltb_ge in Hstale.
  assert (dispatch env front r0 = (r', out)) as Hdis by (unfold dispatch; by rewrite Hc).
  pose proof (dispatch_frame env front r0) as Hf. rewrite Hdis in Hf. clear Hdis.
  pose proof Hm as Hm0. unfold msg_ok in Hm0. rewrite Hc in Hm0. destruct Hm0 as (n & log & l0 & Hp & _).
  unfold handle_recovery_response in Hd. rewrite Hp in Hd. cbn [negb rr_nonce] in Hd.
  change (recovery_nonce_ (state_ r0)) with (recovery_nonce_ s) in Hd.
  destruct (uint128_eqb n (recovery_nonce_ s)) eqn:Hn; cbn [negb] in Hd; last first.
  { injection Hd as <- <-. apply silent; try done; [apply (sm_rep _ _ _ Hsim i Hi)|apply (sm_acks _ _ _ Hsim i Hi)|constructor]. }
  apply uint128_eqb_eq in Hn. assert (resp_nonce m = recovery_nonce_ s) as Hrn by (unfold resp_nonce; by rewrite Hp).
  cbv zeta in Hd. set (s1 := (state_ r0) <| recovery_responses_ := recovery_responses_ (state_ r0) ++ [m] |>) in Hd.
  rewrite (static_quorum i s1) in Hd by (by destruct Hst). destruct (2 <=? _) eqn:Hle; last first.
  { injection Hd as <- <-. eapply (finish_plain _ _ _ _ y (moves_none _ _ _ i y) Hf (Forall_nil_2 _)); try done.
    - eapply rep_rel_same, (sm_rep _ _ _ Hsim i Hi); done.
    - intros H. exfalso. change (status_ s = ReplicaStatus.NORMAL) in H. congruence.
    - by left.
    - intros m' [Hm'|Hm']%elem_of_app; [by left|right]. by apply list_elem_of_singleton in Hm' as ->.
    - intros d m' _ Hin. by apply not_elem_of_nil in Hin. }
  apply Z.leb_le in Hle.
  change (recovery_responses_ s1) with (recovery_responses_ s ++ [m]) in *.
  destruct (responses_known Hc Hstale Hrn) as [Hall Hnd].
  destruct (recovery_responses_ s ++ [m]) as [|first rest'] eqn:Hr; [by destruct (recovery_responses_ s)|].
  destruct (recovery_adopt i y s l first rest') as (lg & l' & y' & Hpb & Hrel & Hun & Hop & M); try done.
  { exact rep_i. }
  { intros m' Hm'. destruct (Hall m' Hm') as (H1 & H2 & H3 & H4 & Hk).
    apply (on_keys _ _ Honce) in Hk as (H5 & H6 & _); [|done].
    split_and!; [by apply resp_for_ok|done|exact H5|exact H6]. }
  { simpl in Hle. lia. }
  set (best := foldl better_response first rest') in *. rewrite Hpb in Hd. cbn [rr_log] in Hd.
  match type of Hd with context [refresh_client_table ?s0] =>
    destruct (refresh_client_table_shape s0) as [ct Hct] end. rewrite Hct in Hd. clear Hct.
  match type of Hd with context [execute_commited_ops ?r1] =>
    pose proof (execute_replies r1) as Hex; destruct (execute_shape r1) as (m1 & k1 & Hsh);
    destruct (execute_commited_ops r1) as [r2 o2] end.
  simpl in Hex, Hsh. subst r2. simpl in Hd. injection Hd as <- <-.
  eapply (finish_plain _ _ _ _ y' M Hf (Forall_nil_2 _)).
  - unfold rep_rel, abs_state. simpl. done.
  - intros _ k e j He Hj. simpl in He. apply Hun in He. rewrite He in Hj. set_solver.
  - by left.
  - intros m' Hin. by apply not_elem_of_nil in Hin.
  - intros d m' _. by eapply outs_delivered, replies_ok.
Qed.

Lemma dispatch_sim r' out :
  is_stale m s = false → can_process front s = true → dispatch env front r0 = (r', out) → simulated r' out.
Proof.
  intros Hstale Hcan Hd. pose proof (dispatch_frame env front r0) as Hf. rewrite Hd in Hf. unfold dispatch in Hd.
  assert (∀ o, outs_ok (a_sent y) o → simulated r0 o) as Hsame.
  { intros o Ho. apply silent; try done; [apply (sm_rep _ _ _ Hsim i Hi)|apply (sm_acks _ _ _ Hsim i Hi)]. }
  destruct (h_command h) eqn:Hc; try (injection Hd as <- <-; apply Hsame; by constructor).
  - by apply request_sim.
  - by apply prepare_sim.
  - by apply prepare_ok_sim.
  - by apply commit_sim.
  - by apply svc_sim.
  - by apply dvc_sim.
  - by apply start_view_sim.
  - by apply recovery_request_sim.
  - by apply recovery_response_sim.
Qed.
End handlers.

(** ** Timeouts, heartbeats and recoveries *)

Section steps.
Context (env : Env) (N : Z) (x : system) (y : asys) (i : Z).
Context (Hsim : sim N x y) (Honce : once N x) (Hi : i ∈ cluster_ids) (HN : N < 2 ^ 32).
Abbreviation s := (state_ (rep x i)).
Abbreviation a := (a_reps y i).
Abbreviation l := (a_log a).

Lemma view_change_sim r r' out :
  status_ s = ReplicaStatus.NORMAL → view_ s + 1 < 2 ^ 32 →
  state_ r = s → message_queue_ r = message_queue_ (rep x i) → nonce_counter r = nonce_counter (rep x i) →
  initiate_view_change r = (r', out) → simulated N x y i r' out.
Proof.
  intros Hs Hv Hst Hqu Hct. destruct (on_within _ _ Honce i Hi) as [W1 _ _].
  destruct (fields_i N x y i Hsim Hi) as (F1 & F2 & F3 & F4 & F5). rewrite Hs in F1.
  unfold initiate_view_change, enter_new_view. rewrite Hst, (bool_decide_eq_true_2 _ Hs). simpl.
  rewrite u32_small by rlia. intros [= <- <-].
  pose proof (moves_one id_set 1 leader i y _ _ (a_timeout id_set 1 leader y i a eq_refl F1)) as M.
  rewrite F2, F4, F5 in M. match type of M with moves _ _ _ _ _ _ _ ?y1 => exists y1; set (y' := y1) in *; clearbody y' end.
  split; [apply M|]. destruct (sm_rep _ _ _ Hsim i Hi) as (_ & Hlog & Hop).
  eapply (sim_step _ _ _ _ _ _ _ _ _ Hsim Hi M); simpl.
  - intros v k e H. by apply not_elem_of_nil in H.
  - intros j n k v l' c _ H. by apply not_elem_of_nil in H.
  - rewrite Hqu. change (prepared []) with 0%nat. lia.
  - unfold queued_requests. simpl. by rewrite Hqu.
  - by rewrite Hct.
  - done.
  - intros H. done.
  - intros m. unfold held. simpl. rewrite Hqu. left. set_solver.
  - intros d m _. apply outs_delivered. by apply Forall_singleton.
Qed.

Lemma recovery_sim r' out :
  status_ s = ReplicaStatus.NORMAL → message_queue_ (rep x i) ≠ [] →
  (leader (view_ s) = i → ∃ j, j ∈ cluster_ids ∧ view_ s < view_of x j) →
  initiate_recovery env (rep x i) = (r', out) → simulated N x y i (r' <| message_queue_ := [] |>) out.
Proof.
  intros Hs Hq Hp. pose proof (on_static _ _ Honce i Hi) as Hst. destruct (on_within _ _ Honce i Hi) as [W1 W2 W3].
  assert (1 ≤ length (message_queue_ (rep x i)))%nat as Hlen by (destruct (message_queue_ (rep x i)); simpl; [done|lia]).
  destruct (fields_i N x y i Hsim Hi) as (F1 & F2 & F3 & F4 & F5). rewrite Hs in F1.
  unfold initiate_recovery. rewrite (bool_decide_eq_false_2 (status_ _ = _)) by (by rewrite Hs).
  assert (is_u32 (nonce_counter (rep x i))) as Hu by rlia.
  set (g := generate_nonce _ _ _). simpl. rewrite u32_small by rlia. intros [= <- <-].
  set (n := U128 (high g.1) (low g.1)).
  assert (low n mod 2 ^ 32 = nonce_counter (rep x i)) as Hlow.
  { unfold n, g. cbn [low]. change (id_ (s <| status_ := ReplicaStatus.RECOVERY |>)) with (id_ s).
    rewrite (st_id _ _ Hst). by apply nonce_issued. }
  assert (∀ j v l' c, AResp i n j v l' c ∉ a_sent y) as Hfresh.
  { intros j v l' c H. apply (sm_issued _ _ _ Hsim) in H; [|done]. unfold issued in H. lia. }
  assert (leader (a_view a) = i → ∃ j, j ∈ id_set ∧ j ≠ i ∧ a_view a < a_view (a_reps y j)) as Hp'.
  { rewrite F2. intros (j & Hj & Hlt)%Hp. exists j. destruct (fields_i N x y j Hsim Hj) as (_ & E & _). rewrite E.
    split_and!; [by apply id_set_elem|intros ->; lia|done]. }
  pose proof (moves_one id_set 1 leader i y _ _ (a_recover id_set 1 leader y i a n eq_refl F1 Hfresh Hp')) as M.
  rewrite F2, F3, F4 in M. match type of M with moves _ _ _ _ _ _ _ ?y1 => exists y1; set (y' := y1) in *; clearbody y' end.
  split; [apply M|]. destruct (sm_rep _ _ _ Hsim i Hi) as (_ & Hlog & Hop).
  eapply (sim_step _ _ _ _ _ _ _ _ _ Hsim Hi M); simpl.
  - intros v k e H. by apply not_elem_of_nil in H.
  - intros j n' k v l' c _ H. by apply not_elem_of_nil in H.
  - change (prepared []) with 0%nat. lia.
  - apply submseteq_nil_l.
  - lia.
  - done.
  - intros H. done.
  - intros m. unfold held. simpl. left. set_solver.
  - intros d m _. apply outs_delivered. by apply Forall_singleton.
Qed.

Lemma heartbeat_sim : simulated N x y i (rep x i) (send_commit_message_if_needed (rep x i)).
Proof.
  pose proof (on_static _ _ Honce i Hi) as Hst.
  assert (∀ y' ms out, moved i y a ms y' → Forall plain ms → outs_ok (a_sent y') out →
    simulated N x y i (rep x i) out) as Hgen.
  { intros y' ms out M P Hout. exists y'. split; [apply M|].
    eapply (sim_step _ _ _ _ _ _ _ _ _ Hsim Hi M).
    - intros v k e. by apply plain_no_prepare.
    - intros j n k v l' c _. by apply plain_no_resp.
    - rewrite plain_prepared by done. lia.
    - by rewrite plain_requests.
    - lia.
    - apply (sm_rep _ _ _ Hsim i Hi).
    - eapply acks_ok_mono; [|apply (sm_acks _ _ _ Hsim i Hi)]. intros b. by eapply moves_old.
    - by left.
    - intros d m _. by apply outs_delivered. }
  unfold send_commit_message_if_needed. destruct (negb _ || _) eqn:Hc.
  - apply (Hgen y [] []); [apply moves_none|constructor|constructor].
  - apply orb_false_iff in Hc as [_ Hs]. apply negb_false_iff, bool_decide_eq_true in Hs.
    destruct (fields_i N x y i Hsim Hi) as (F1 & F2 & F3 & F4 & F5). rewrite Hs in F1.
    pose proof (moves_one id_set 1 leader i y _ _ (a_announce id_set 1 leader y i a eq_refl F1)) as M.
    rewrite F2, F4 in M. match type of M with moves _ _ _ _ _ _ _ ?y1 => set (y' := y1) in *; clearbody y' end.
    apply (Hgen y' _ _ M); [by apply Forall_singleton|]. apply Forall_singleton. intros d. unfold msg_ok. simpl.
    eapply moves_new; [exact M|]. by apply list_elem_of_singleton.
Qed.

(** *** Micro steps *)

Lemma micro_sim r' out : micro env (rep x i) out r' → simulated N x y i r' out.
Proof.
  intros Hm. destruct (on_within _ _ Honce i Hi) as [W1 W2 W3].
  inversion Hm as [r front rest Hq Hst|r front rest r1 o Hq Hst Hc Hd|r front rest r1 o Hq Hst Hc Hs Hh]; subst.
  - eapply (silent N x y i Hsim Hi front rest Hq); try done;
      [apply (sm_rep _ _ _ Hsim i Hi)|apply (sm_acks _ _ _ Hsim i Hi)|constructor].
  - by eapply dispatch_sim.
  - unfold handle_stuck in Hh. rewrite Hq, (bool_decide_eq_true_2 _ Hs) in Hh.
    destruct (on_views _ _ Honce i (ib_message front) Hi) as (j & Hj & Hle); [by eapply front_inbox|].
    destruct (on_within _ _ Honce j Hj) as [[_ Wj] _ _].
    destruct (determine_state_action _ _) eqn:Ha.
    + injection Hh as <- <-. exists y. split; [apply rtc_refl|].
      eapply sim_ext, Hsim; simpl; [intros k; case_decide; by subst|by rewrite app_nil_r].
    + eapply view_change_sim; try done. unfold determine_state_action in Ha. repeat case_match; try done.
      match goal with H : (_ <? _) = true |- _ => apply Z.ltb_lt in H end. lia.
    + destruct (initiate_recovery env (rep x i)) as [r2 o2] eqn:Hr. injection Hh as <- <-.
      apply recovery_sim; [done|by rewrite Hq| |done]. intros Hp. exists j. split; [done|].
      unfold determine_state_action in Ha. destruct (_ <? _) eqn:Hlt; [apply Z.ltb_lt in Hlt; lia|].
      rewrite (static_is_primary i), Hp, bool_decide_eq_true_2 in Ha by (done || by apply (on_static _ _ Honce)). done.
Qed.
End steps.

Lemma sim_app N x i r1 o1 r2 o2 y :
  sim N (step_out i r2 o2 (step_out i r1 o1 x)) y → sim N (step_out i r2 (o1 ++ o2) x) y.
Proof.
  apply sim_ext; simpl; [intros k; by case_decide|]. by rewrite fmap_app, concat_app, (assoc_L (++)).
Qed.

(** What a replica does at once, and what it sends: a micro step, or a view change after a
    timeout or nothing that concerns its state and its queue, without answering clients. *)
Definition no_reply (o : output) : Prop := h_command (header (out_msg o)) ≠ command.reply.

Definition local_step (env : Env) (r : Replica) (out : list output) (r' : Replica) : Prop :=
  micro env r out r' ∨
  Forall no_reply out ∧
  ∃ r0, state_ r0 = state_ r ∧ message_queue_ r0 = message_queue_ r ∧ (r' = r0 ∨ r' = (initiate_view_change r0).1).

(** A relation between what a replica has sent, the replica and the protocol that such
    steps preserve as long as the cluster follows the protocol. *)
Definition follows (env : Env) (N : Z) (i : Z) (P : list output → Replica → asys → Prop) : Prop :=
  ∀ x y x' y' o out, sim N x y → sim N x' y' → steps y y' → local_step env (rep x i) out (rep x' i) →
    P o (rep x i) y → P (o ++ out) (rep x' i) y'.

(** What a whole pass over the queue does, the protocol can do. *)
Lemma micros_sim env N x y i r r' out P o :
  follows env N i P → sim N x y → once N x → i ∈ cluster_ids → N < 2 ^ 32 → r = rep x i → micros env r out r' →
  P o r y → ∃ y', steps y y' ∧ sim N (step_out i r' out x) y' ∧ P (o ++ out) r' y'.
Proof.
  intros HP Hsim Hx Hi HN Hr Hm. revert x y o Hsim Hx Hr.
  induction Hm as [r|r o1 r1 o' r2 Hm _ IH]; intros x y o Hsim Hx -> HPy.
  - exists y. rewrite app_nil_r. split_and!; [apply rtc_refl| |done].
    eapply sim_ext, Hsim; simpl; [intros k; case_decide; by subst|by rewrite app_nil_r].
  - destruct (micro_sim env N x y i Hsim Hx Hi HN r1 o1 Hm) as (y1 & Hs1 & Hsim1).
    assert (P (o ++ o1) r1 y1) as HP1.
    { pose proof (HP x y (step_out i r1 o1 x) y1 o o1 Hsim Hsim1 Hs1) as H. rewrite rep_self in H. apply H; [by left|done]. }
    destruct (IH (step_out i r1 o1 x) y1 (o ++ o1)) as (y2 & Hs2 & Hsim2 & HP2);
      [done|by eapply micro_once|by rewrite rep_self|done|].
    exists y2. rewrite (assoc_L (++)). split_and!; [by etrans|by apply (sim_app _ _ _ r1)|done].
Qed.
End requests.
