(* ===== verification/Agreement.v ===== *)
(** * Agreement

    The events of a cluster ([Cluster.cluster_step]: deliveries, losses, client
    messages, queue processing, timers) preserve the relation to the protocol of
    [Protocol]; so what its safety argument says of committed operations holds of the
    replicas of [src/server/replica.cpp]. *)
From S2P Require Import Prelude Types Serialization KeyValue ReplicaState Replica Execution Handlers Queue Cluster Protocol Exchange Refinement.

(** ** Events that are considered *)

(** Clients send requests and pings, as [src/client/client_main.cpp] does; processes
    are not restarted. *)
Definition client_message (m : vsr_message) : Prop :=
  (h_command (header m) = command.request ∨ h_command (header m) = command.ping) ∧
  h_view (header m) = 0 ∧ message_wf m ∧ is_u64 (Z.of_nat (length (payload m))).

Definition admissible (ce : cluster_event) : Prop :=
  match ce with
  | ce_client _ _ m => client_message m
  | ce_restart _ => False
  | _ => True
  end.

(** The requests sent by clients in these events. *)
Definition event_requests (ce : cluster_event) : list request :=
  match ce with ce_client _ _ m => option_list (message_request m) | _ => [] end.
Definition run_requests (ces : list cluster_event) : list request := concat (event_requests <$> ces).

Lemma run_requests_app ces1 ces2 : run_requests (ces1 ++ ces2) = run_requests ces1 ++ run_requests ces2.
Proof. unfold run_requests. by rewrite fmap_app, concat_app. Qed.

Lemma run_requests_elem ces q :
  q ∈ run_requests ces → ∃ dst connection m, ce_client dst connection m ∈ ces ∧ h_command (header m) = command.request ∧
    q = ((h_client (header m), h_request (header m)), (h_operation (header m), payload m)).
Proof.
  induction ces as [|ce ces IH]; [by intros ?%not_elem_of_nil|]. unfold run_requests in *. simpl.
  intros [Hq|Hq]%elem_of_app.
  - destruct ce as [| |dst conn m| | | |]; simpl in Hq; try by apply not_elem_of_nil in Hq.
    unfold message_request in Hq. case_bool_decide as Hc; [|by apply not_elem_of_nil in Hq].
    apply list_elem_of_singleton in Hq. exists dst, conn, m. split; [by left|done].
  - destruct (IH Hq) as (dst & conn & m & Hm & H). exists dst, conn, m. split; [by right|done].
Qed.

(** ** Only clients send requests *)

Definition no_request (m : vsr_message) : Prop := h_command (header m) ≠ command.request.
Definition outs_no_request : list output → Prop := Forall (λ o, no_request (out_msg o)).

Lemma no_request_message m : no_request m → message_request m = None.
Proof. intros Hm. unfold message_request. by rewrite bool_decide_eq_false_2. Qed.

Lemma replies_no_request v out : Forall (is_reply v) out → outs_no_request out.
Proof. intros H. eapply Forall_impl; [exact H|]. intros o [Hc _]. unfold no_request. by rewrite Hc. Qed.

Lemma execute_no_request r : outs_no_request (execute_commited_ops r).2.
Proof. eapply replies_no_request, execute_replies. Qed.

Lemma retroactive_no_request fuel k p s : outs_no_request (retroactive_oks fuel k p s).
Proof.
  revert k. induction fuel as [|fuel IH]; intros k; [constructor|]. simpl.
  destruct (k <=? op_ s); [|constructor]. apply Forall_app. split; [|apply IH].
  destruct (log_ s !! k); by repeat constructor.
Qed.

(** Splits off the outputs of execution. *)
Ltac executed :=
  match goal with |- context [execute_commited_ops ?r0] =>
    pose proof (execute_no_request r0); destruct (execute_commited_ops r0) as [? ?] end;
  simpl in *; try done.

Lemma do_view_change_no_request env inb r : outs_no_request (handle_do_view_change env inb r).2.
Proof.
  unfold handle_do_view_change. simpl. destruct (quorum _ _); [|constructor].
  destruct (_ ++ _); [constructor|]. destruct (select_log _ _ _ _) as [[bp bo] mc]. executed. by constructor.
Qed.

Lemma dispatch_no_request env inb r : outs_no_request (dispatch env inb r).2.
Proof.
  unfold dispatch. destruct (h_command _); try by repeat constructor.
  - unfold handle_request. simpl. repeat case_match; by repeat constructor.
  - unfold handle_prepare. cbv zeta. case_match; [executed|]; by repeat constructor.
  - unfold handle_prepare_ok. case_match; [eapply replies_no_request, advance_replies|constructor].
  - unfold handle_commit. cbv zeta. case_match; [apply execute_no_request|constructor].
  - unfold handle_start_view_change. simpl. case_match; [|constructor]. case_match; [|by repeat constructor].
    apply do_view_change_no_request.
  - apply do_view_change_no_request.
  - unfold handle_start_view. destruct (sv_deserialize _ _) as [[] p]; [|constructor]. cbn [negb].
    executed. apply Forall_app. split; [done|apply retroactive_no_request].
  - unfold handle_recovery_request. destruct (rq_deserialize _ _) as [[] p]; by repeat constructor.
  - unfold handle_recovery_response. destruct (rr_deserialize _ _) as [[] p]; [|constructor]. cbn [negb].
    destruct (negb _); [constructor|]. simpl. destruct (quorum _ _); [|constructor].
    destruct (_ ++ _); [constructor|]. destruct (rr_deserialize _ _) as [? bp]. executed.
Qed.

Lemma handle_stuck_no_request env r : outs_no_request (handle_stuck env r).2.
Proof.
  unfold handle_stuck. destruct (message_queue_ r); [constructor|].
  case_bool_decide; [|constructor]. destruct (determine_state_action _ _); [constructor|by repeat constructor|].
  unfold initiate_recovery. case_bool_decide; simpl; by repeat constructor.
Qed.

Lemma micros_no_request env r out r' : micros env r out r' → outs_no_request out.
Proof.
  induction 1 as [|r o r1 o' r2 Hm _ IH]; [constructor|]. apply Forall_app. split; [|done].
  destruct Hm as [r front rest Hq Hst|r front rest r' o Hq Hst Hc Hd|r front rest r' o Hq Hst Hc Hn Hh]; [constructor|..].
  - pose proof (dispatch_no_request env front (r <| message_queue_ := rest |>)) as H. by rewrite Hd in H.
  - pose proof (handle_stuck_no_request env r) as H. by rewrite Hh in H.
Qed.

Lemma event_no_request env e r : outs_no_request (handle_event env e r).2.
Proof.
  destruct e as [c m| | |]; cbn [handle_event].
  - constructor.
  - destruct (posted r) as [|n]; [constructor|].
    destruct (process_message_queue env (r <| posted := n |>)) as [r' o] eqn:Hp. by eapply micros_no_request, process_micros.
  - unfold send_commit_message_if_needed. simpl. case_match; by repeat constructor.
  - unfold check_primary_liveness. destruct (_ && _); [|constructor]. destruct (_ <? _); [|constructor]. by repeat constructor.
Qed.

(** ** Steps that only move messages *)

Record rerouted (x x' : system) : Prop := {
  rr_state : ∀ j, j ∈ cluster_ids → state_ (rep x' j) = state_ (rep x j) ∧
                                    nonce_counter (rep x' j) = nonce_counter (rep x j);
  rr_inbox : ∀ d, d ∈ cluster_ids → ∃ new, inbox d x' ⊆+ new ++ inbox d x ∧ Forall client_message new }.

Lemma client_unkeyed m : client_message m → key m = None ∧ h_command (header m) ≠ command.start_view.
Proof. intros ([Hc|Hc] & _); unfold key; rewrite Hc; done. Qed.

Lemma rerouted_keys x x' d : rerouted x x' → d ∈ cluster_ids → keys (inbox d x') ⊆+ keys (inbox d x).
Proof.
  intros [_ Hin] Hd. destruct (Hin d Hd) as (new & Hsub & Hnew). apply keys_submseteq in Hsub.
  rewrite keys_app, (keys_none new) in Hsub; [done|]. eapply Forall_impl; [exact Hnew|]. intros m Hm. by apply client_unkeyed.
Qed.

Lemma rerouted_elem x x' d m :
  rerouted x x' → d ∈ cluster_ids → m ∈ inbox d x' → m ∈ inbox d x ∨ client_message m.
Proof.
  intros [_ Hin] Hd Hm. destruct (Hin d Hd) as (new & Hsub & Hnew). rewrite Forall_forall in Hnew.
  eapply elem_of_submseteq in Hsub; [|exact Hm]. apply elem_of_app in Hsub as [?|?]; auto.
Qed.

Lemma rerouted_once N N' x x' :
  once N x → rerouted x x' → (∀ j, j ∈ cluster_ids → within N' (rep x' j)) → once N' x'.
Proof.
  intros Hx Hr Hw. pose proof Hr as [Hst _].
  assert (∀ d k, d ∈ cluster_ids → k ∈ keys (inbox d x') → k ∈ keys (inbox d x)) as Hk.
  { intros d k Hd H. eapply elem_of_submseteq; [exact H|by apply rerouted_keys]. }
  assert (∀ j, j ∈ cluster_ids → state_ (rep x' j) = state_ (rep x j)) as Hs by (intros j Hj; by apply Hst).
  assert (∀ j, j ∈ cluster_ids → nonce_counter (rep x' j) = nonce_counter (rep x j)) as Hc by (intros j Hj; by apply Hst).
  assert (∀ d j, d ∈ cluster_ids → j ∈ cluster_ids → svc_gone x d j → svc_gone x' d j) as Hgone.
  { intros d j Hd Hj [H1 H2]. unfold svc_gone. rewrite !Hs by done. split; [|done]. contradict H1. by apply Hk. }
  split.
  - intros i Hi. rewrite Hs by done. by apply (on_static _ _ Hx).
  - done.
  - intros i Hi. rewrite Hs by done. by apply (on_collected _ _ Hx).
  - intros d Hd. destruct (submseteq_Permutation _ _ (rerouted_keys _ _ d Hr Hd)) as [l Hl].
    pose proof (on_nodup _ _ Hx d Hd) as Hn. rewrite Hl in Hn. by apply NoDup_app in Hn as [? _].
  - intros d k Hd Hin. apply Hk, (on_keys _ _ Hx) in Hin; [|done|done].
    destruct k as [v j|v j|n j|n j]; unfold key_ok, dvc_done in *; destruct Hin as (Hj & Hin);
      rewrite ?Hs, ?Hc by done; try done.
    destruct Hin as (H1 & H2 & H3). split_and!; try done. contradict H3. by apply Hk.
  - intros d Hd. rewrite Hs by done. intros Hvc. destruct (on_svc _ _ Hx d Hd Hvc) as [Hg Ha].
    split; rewrite Hs by done.
    + intros j Hj. apply Hg in Hj as [Hj Hgj]. split; [done|]. intros Hne. by apply Hgone, Hgj.
    + destruct Ha as [|(j & Hj & Hne & Hnin & Hgj)]; [by left|right]. exists j. split_and!; try done. by apply Hgone.
  - intros d m Hd [Hm|Hm]%(rerouted_elem x); [..|done|done].
    + destruct (on_views _ _ Hx d m Hd Hm) as (j & Hj & Hle). exists j. by rewrite Hs.
    + exists d. split; [done|]. destruct Hm as (_ & -> & _). apply (Hw d Hd).
  - intros d m Hd [Hm|Hm]%(rerouted_elem x); [..|done|done]; [by apply (on_start _ _ Hx)|].
    intros Hc'. by apply client_unkeyed in Hm as [_ ?].
Qed.

Lemma client_msg_ok M d m : client_message m → msg_ok M d m.
Proof. intros (Hc & _ & Hwf & Hl). unfold msg_ok. by destruct Hc as [-> | ->]. Qed.

Lemma rerouted_sim B B' N N' x x' y :
  sim B N x y → rerouted x x' → Z.of_nat (prepared (a_sent y)) + waiting x' ≤ N' →
  prepared_requests (a_sent y) ++ waiting_requests x' ⊆+ B' → sim B' N' x' y.
Proof.
  intros [H1 H2 H3 H4 H5 H6 H7] Hr Hb Hids. pose proof Hr as [Hst _].
  split; [done|..|done|done].
  - intros i Hi. destruct (Hst i Hi) as [-> _]. by apply H2.
  - intros i Hi. destruct (Hst i Hi) as [-> _]. by apply H3.
  - intros d m Hd [Hm|Hm]%(rerouted_elem x); [by apply H4|by apply client_msg_ok|done|done].
  - intros i n j v l c Hi H. destruct (Hst i Hi) as [_ ->]. by eapply H5.
Qed.

(** ** Clusters *)

Definition system_of (c : Cluster) : system :=
  {| rep := λ i, default (new_replica i main_cluster_config) (cl_replicas c !! i); net := cl_network c |}.

(** The cluster is related to the protocol state [y] after at most [N] events, in which
    clients sent the requests [B]. *)
Record linked (B : list request) (N : Z) (c : Cluster) (y : asys) : Prop := {
  lk_members : ∀ i, is_Some (cl_replicas c !! i) ↔ i ∈ cluster_ids;
  lk_net : Forall (λ p, no_request (pk_msg p)) (cl_network c);
  lk_once : once N (system_of c);
  lk_sim : sim B N (system_of c) y }.

Lemma within_more N r : within N r → within (N + 1) r.
Proof. intros [H1 H2 H3]. split; lia. Qed.

Lemma once_more N x : once N x → once (N + 1) x.
Proof.
  intros H. eapply rerouted_once; [exact H| |].
  - split; [done|]. intros d _. by exists [].
  - intros j Hj. by apply within_more, (on_within _ _ H).
Qed.

Lemma sim_more B N x y : sim B N x y → sim B (N + 1) x y.
Proof. intros []. split; try done. lia. Qed.

Lemma linked_more B N c y : linked B N c y → linked B (N + 1) c y.
Proof. intros [H1 H2 H3 H4]. split; [done|done|by apply once_more|by apply sim_more]. Qed.

Lemma route_no_request i out :
  outs_no_request out → Forall (λ p, no_request (pk_msg p)) (concat (route i <$> out)).
Proof.
  induction 1 as [|o out Ho _ IH]; [constructor|]. simpl. apply Forall_app. split; [|done].
  destruct o as [[p|] m|p m|m]; simpl in *; [by case_match; repeat constructor|constructor|by case_match; repeat constructor|].
  apply Forall_fmap, Forall_forall. done.
Qed.

Section cluster_steps.
Context (env : Env).

(** A step of replica [i]. *)
Definition with_replica (i : Z) (r : Replica) (out : list output) (c : Cluster) : Cluster :=
  {| cl_replicas := <[i := r]> (cl_replicas c); cl_network := cl_network c ++ concat (route i <$> out) |}.

Lemma with_replica_linked B N c y' i r out :
  (∀ j, is_Some (cl_replicas c !! j) ↔ j ∈ cluster_ids) → i ∈ cluster_ids →
  Forall (λ p, no_request (pk_msg p)) (cl_network c) → outs_no_request out →
  once N (step_out i r out (system_of c)) → sim B N (step_out i r out (system_of c)) y' →
  linked B N (with_replica i r out c) y'.
Proof.
  intros Hm Hi Hn Hout Ho Hs.
  assert (∀ j, rep (step_out i r out (system_of c)) j = rep (system_of (with_replica i r out c)) j) as Hr.
  { intros j. simpl. case_decide as Hj; [subst; by rewrite lookup_insert_eq|by rewrite lookup_insert_ne]. }
  split.
  - intros j. simpl. rewrite lookup_insert_is_Some, Hm. split; [intros [<-|[_ ?]]; done|].
    intros Hj. destruct (decide (i = j)); auto.
  - apply Forall_app. split; [done|by apply route_no_request].
  - eapply once_ext, Ho; [exact Hr|done].
  - eapply sim_ext, Hs; [exact Hr|done].
Qed.

(** Replica [i] changes nothing but its queue, by at most one client message, its count
    of posted tasks and its clock. *)
Lemma local_rerouted x i r :
  state_ r = state_ (rep x i) → nonce_counter r = nonce_counter (rep x i) →
  message_queue_ r = message_queue_ (rep x i) → rerouted x (step_out i r [] x).
Proof.
  intros Hs Hc Hq. split.
  - intros j _. simpl. by case_decide; subst.
  - intros d _. exists []. split; [|constructor]. rewrite inbox_step. unfold delivered, inbox, held. simpl.
    rewrite app_nil_r. case_decide; [subst; by rewrite Hq, Hs|done].
Qed.

Lemma local_linked B N c y i r :
  linked B N c y → i ∈ cluster_ids → state_ r = state_ (rep (system_of c) i) →
  nonce_counter r = nonce_counter (rep (system_of c) i) →
  message_queue_ r = message_queue_ (rep (system_of c) i) →
  once N (step_out i r [] (system_of c)) ∧ sim B N (step_out i r [] (system_of c)) y.
Proof.
  intros [Hm _ Ho Hsim] Hi Hs Hc Hq. pose proof (local_rerouted _ _ _ Hs Hc Hq) as Hr. split.
  - eapply rerouted_once; [exact Ho|exact Hr|]. intros j Hj.
    destruct (on_within _ _ Ho j Hj) as [H1 H2 H3]. simpl. case_decide; [subst j|done].
    split; rewrite ?Hs, ?Hc, ?Hq; done.
  - eapply rerouted_sim; [exact Hsim|exact Hr|..].
    + rewrite waiting_step by done. rewrite Hq. pose proof (sm_budget _ _ _ _ Hsim). lia.
    + etrans; [|apply (sm_requests _ _ _ _ Hsim)]. apply submseteq_skips_l.
      apply (waiting_requests_step _ _ _ _ []); [done|]. unfold queued_requests. by rewrite Hq.
Qed.

(** *** Timers and queue processing *)

(** Replica [i] has done something on its own and sent [out], and [P] holds of it. *)
Definition acted (B : list request) (N : Z) (c : Cluster) (y : asys) (i : Z) (P : list output → Replica → asys → Prop)
    (out : list output) (c' : Cluster) : Prop :=
  ∃ y', steps y y' ∧ linked B N c' y' ∧ P out (rep (system_of c') i) y' ∧
    ∀ j, j ≠ i → rep (system_of c') j = rep (system_of c) j.

Section event.
Context (B : list request) (N : Z) (c : Cluster) (y : asys) (i : Z) (r : Replica) (P : list output → Replica → asys → Prop).
Context (Hl : linked B N c y) (HN : N + 1 < 2 ^ 32) (HF : follows B env (N + 1) i P).
Context (Hr : cl_replicas c !! i = Some r) (HP : P [] r y).

Lemma event_member : i ∈ cluster_ids.
Proof. apply (lk_members _ _ _ _ Hl). eauto. Qed.

Lemma event_rep : rep (system_of c) i = r.
Proof. simpl. by rewrite Hr. Qed.

Lemma event_done r' out y' :
  outs_no_request out → steps y y' → once (N + 1) (step_out i r' out (system_of c)) →
  sim B (N + 1) (step_out i r' out (system_of c)) y' → P out r' y' → acted B (N + 1) c y i P out (with_replica i r' out c).
Proof.
  intros Hnr Hs Ho Hsim HP'. destruct Hl as [Hm Hnet _ _]. pose proof event_member. exists y'.
  split_and!; [done|by eapply with_replica_linked|..].
  - simpl. by rewrite lookup_insert_eq.
  - intros j Hj. simpl. by rewrite lookup_insert_ne.
Qed.

Lemma event_local r0 out0 y' :
  (∃ r1, state_ r1 = state_ r ∧ message_queue_ r1 = message_queue_ r ∧ (r0 = r1 ∨ r0 = (initiate_view_change r1).1)) →
  Forall no_reply out0 → steps y y' → sim B (N + 1) (step_out i r0 out0 (system_of c)) y' → P out0 r0 y'.
Proof.
  intros H1 H0 H2 H3. pose proof (HF _ _ _ _ [] out0 (sim_more _ _ _ _ (lk_sim _ _ _ _ Hl)) H3 H2) as H.
  rewrite rep_self, event_rep in H. apply H; [by right|done].
Qed.

(** The replica as it is, but for its clock and its count of posted tasks. *)
Lemma event_same r0 :
  state_ r0 = state_ r → message_queue_ r0 = message_queue_ r → nonce_counter r0 = nonce_counter r →
  once (N + 1) (step_out i r0 [] (system_of c)) ∧ sim B (N + 1) (step_out i r0 [] (system_of c)) y ∧ P [] r0 y.
Proof.
  intros H1 H2 H3. destruct (local_linked _ _ _ _ i r0 (linked_more _ _ _ _ Hl) event_member) as [Ho Hs];
    [by rewrite event_rep..|]. split_and!; [done|done|]. eapply event_local; [by eauto 10|constructor|apply rtc_refl|exact Hs].
Qed.

Lemma event_idle r0 :
  state_ r0 = state_ r → message_queue_ r0 = message_queue_ r → nonce_counter r0 = nonce_counter r →
  acted B (N + 1) c y i P [] (with_replica i r0 [] c).
Proof.
  intros H1 H2 H3. destruct (event_same r0 H1 H2 H3) as (Ho & Hs & HP0).
  apply (event_done _ _ y); [constructor|apply rtc_refl|done..].
Qed.

Lemma process_acted r' out :
  handle_event env ev_process_queue r = (r', out) → acted B (N + 1) c y i P out (with_replica i r' out c).
Proof.
  intros Hev. pose proof (event_no_request env ev_process_queue r) as Hnr. rewrite Hev in Hnr. simpl in Hev.
  destruct (posted r) as [|n] eqn:Hpo; [injection Hev as <- <-; by apply event_idle|].
  set (r1 := r <| posted := n |>) in Hev. destruct (event_same r1) as (Ho1 & Hs1 & HP1); [done..|].
  apply process_micros in Hev. pose proof event_member as Hi.
  destruct (micros_sim B env (N + 1) _ y i r1 r' out P [] HF Hs1 Ho1 Hi HN) as (y' & Hst & Hsim' & HP');
    [by rewrite rep_self|done|done|].
  apply (micros_once env (N + 1) _ i r1 r' out) in Ho1; [|done|done|by rewrite rep_self|done].
  apply (event_done _ _ y'); [done|done|by apply (step_out_app _ _ r1 [])|by apply (sim_app _ _ _ _ r1 [])|done].
Qed.

Lemma heartbeat_acted : acted B (N + 1) c y i P (send_commit_message_if_needed r) (with_replica i r (send_commit_message_if_needed r) c).
Proof.
  destruct (linked_more _ _ _ _ Hl) as [_ _ Ho Hsim]. pose proof event_member as Hi. pose proof event_rep as Hrep.
  destruct (heartbeat_sim B (N + 1) (system_of c) y i Hsim Ho Hi) as (y' & Hst & Hsim'). rewrite Hrep in Hsim'.
  apply (event_done _ _ y'); [apply (event_no_request env ev_heartbeat r)|done| |done|].
  - apply quiet_once; rewrite ?Hrep; try done; rewrite <- Hrep.
    + by apply (on_collected _ _ Ho).
    + apply (on_within _ _ Ho i Hi).
    + unfold send_commit_message_if_needed. case_match; [constructor|]. by apply Forall_singleton.
  - eapply event_local; [by eauto 10| |done|exact Hsim'].
    unfold send_commit_message_if_needed. case_match; by repeat constructor.
Qed.

Lemma liveness_acted r' out :
  handle_event env ev_liveness r = (r', out) → acted B (N + 1) c y i P out (with_replica i r' out c).
Proof.
  intros Hev. pose proof (event_no_request env ev_liveness r) as Hnr. rewrite Hev in Hnr. simpl in Hev.
  unfold check_primary_liveness in Hev. destruct (negb _ && _) eqn:Hg; [|injection Hev as <- <-; by apply event_idle].
  apply andb_true_iff in Hg as [_ Hs%bool_decide_eq_true]. set (r1 := r <| clock_reads := S (clock_reads r) |>) in Hev.
  destruct (_ <? _); [|injection Hev as <- <-; by apply event_idle].
  destruct (linked_more _ _ _ _ Hl) as [_ _ Ho Hsim]. pose proof event_member as Hi. pose proof event_rep as Hrep.
  destruct (on_within _ _ (lk_once _ _ _ _ Hl) i Hi) as [[_ Hv] _ _]. rewrite Hrep in Hv.
  destruct (view_change_sim B (N + 1) (system_of c) y i Hsim Ho Hi HN r1 r' out) as (y' & Hst & Hsim');
    rewrite ?Hrep; try done; [lia|].
  apply (event_done _ _ y'); [done|done| |done|].
  - eapply (initiate_view_change_once (N + 1) _ i r1); rewrite ?Hrep; try done. lia.
  - eapply event_local; [exists r1; split_and!; [done|done|right; by rewrite Hev]| |done|exact Hsim'].
    injection Hev as _ <-. by repeat constructor.
Qed.
End event.

Lemma local_event_linked B N c y i e P :
  linked B N c y → N + 1 < 2 ^ 32 → (e = ev_process_queue ∨ e = ev_heartbeat ∨ e = ev_liveness) →
  follows B env (N + 1) i P → P [] (rep (system_of c) i) y →
  acted B (N + 1) c y i P (outputs_of env i e c) (on_replica env i e c).
Proof.
  intros Hl HN He HF HP. unfold on_replica, outputs_of. destruct (cl_replicas c !! i) as [r|] eqn:Hr; last first.
  { exists y. split_and!; [apply rtc_refl|by apply linked_more|done|done]. }
  assert (P [] r y) as HPr by (simpl in HP; by rewrite Hr in HP).
  destruct (handle_event env e r) as [r' out] eqn:Hev. fold (with_replica i r' out c).
  destruct He as [-> |[-> | ->]].
  - by eapply process_acted.
  - injection Hev as <- <-. by apply heartbeat_acted.
  - by eapply liveness_acted.
Qed.

(** A cluster whose network changed and where at most one message was queued. *)
Lemma rerouted_linked B B' N c c' y :
  linked B N c y → Forall (λ p, no_request (pk_msg p)) (cl_network c') → (∀ j, is_Some (cl_replicas c' !! j) ↔ j ∈ cluster_ids) →
  rerouted (system_of c) (system_of c') →
  (∀ j, j ∈ cluster_ids → (length (message_queue_ (rep (system_of c') j)) ≤ S (length (message_queue_ (rep (system_of c) j))))%nat) →
  waiting (system_of c') ≤ waiting (system_of c) + 1 →
  waiting_requests (system_of c') ⊆+ waiting_requests (system_of c) ++ B' → linked (B ++ B') (N + 1) c' y.
Proof.
  intros [Hm _ Ho Hs] Hn Hm' Hr Hq Hw Hids. split; [done|done| |].
  - eapply rerouted_once; [exact Ho|exact Hr|]. intros j Hj. destruct (on_within _ _ Ho j Hj) as [H1 H2 H3].
    destruct Hr as [Hst _]. destruct (Hst j Hj) as [E1 E2]. specialize (Hq j Hj). split; rewrite ?E1, ?E2; lia.
  - eapply rerouted_sim; [exact Hs|exact Hr|..].
    + pose proof (sm_budget _ _ _ _ Hs). lia.
    + etrans; [apply submseteq_skips_l, Hids|]. rewrite (assoc_L (++)). apply submseteq_skips_r, (sm_requests _ _ _ _ Hs).
Qed.

Lemma enqueue_held conn m r : held (enqueue_message conn m r) ≡ₚ m :: held r.
Proof. unfold held. simpl. rewrite fmap_app. simpl. solve_Permutation. Qed.

Lemma waiting_requests_more x i r' out ids :
  i ∈ cluster_ids → queued_requests r' = queued_requests (rep x i) ++ ids →
  waiting_requests (step_out i r' out x) ⊆+ waiting_requests x ++ ids.
Proof.
  intros Hi%cluster_ids_elem Hids. unfold waiting_requests. change cluster_ids with [0; 1; 2]. simpl. rewrite !app_nil_r.
  destruct Hi as [->|[->| ->]]; simpl; rewrite Hids; apply Permutation_submseteq; solve_Permutation.
Qed.

Lemma enqueue_linked B N c c' y i conn m :
  linked B N c y → cl_replicas c' = cl_replicas c → Forall (λ p, no_request (pk_msg p)) (cl_network c') →
  (∀ d, d ∈ cluster_ids → ∃ new,
     sent_to d (cl_network c') ++ (if decide (d = i) then [m] else []) ⊆+ new ++ sent_to d (cl_network c) ∧
     Forall client_message new) →
  linked (B ++ option_list (message_request m)) (N + 1) (on_replica env i (ev_message conn m) c') y.
Proof.
  intros Hl Hc Hnet Hin. pose proof (lk_members _ _ _ _ Hl) as Hm. unfold on_replica.
  destruct (cl_replicas c' !! i) as [r|] eqn:Hr.
  - rewrite Hc in Hr. assert (i ∈ cluster_ids) as Hi by (apply Hm; eauto). simpl.
    set (r' := enqueue_message conn m r).
    assert (∀ j, rep (system_of {| cl_replicas := <[i := r']> (cl_replicas c'); cl_network := cl_network c' ++ [] |}) j
      = if decide (j = i) then r' else rep (system_of c) j) as Hrep.
    { intros j. simpl. rewrite Hc. case_decide; [subst; by rewrite lookup_insert_eq|by rewrite lookup_insert_ne]. }
    assert (rep (system_of c) i = r) as Hri by (simpl; by rewrite Hr).
    apply (rerouted_linked B _ N c); [done|by rewrite app_nil_r|..].
    + intros j. simpl. rewrite Hc, lookup_insert_is_Some, Hm. split; [intros [<-|[_ ?]]; done|].
      intros Hj. destruct (decide (i = j)); auto.
    + split.
      * intros j _. rewrite Hrep. case_decide; [subst j; by rewrite Hri|done].
      * intros d Hd. destruct (Hin d Hd) as (new & Hsub & Hnew). exists new. split; [|done].
        unfold inbox. rewrite Hrep. simpl net. rewrite app_nil_r, (assoc_L (++)).
        case_decide as Hdi; [subst d|].
        -- rewrite Hri. etrans; [|apply submseteq_app; [exact Hsub|done]]. rewrite <- (assoc_L (++)).
           apply submseteq_app; [done|]. unfold r'. by rewrite enqueue_held.
        -- rewrite app_nil_r in Hsub. by apply submseteq_app.
    + intros j _. rewrite Hrep. case_decide; [subst j; rewrite Hri; unfold r'; simpl; rewrite length_app; simpl; lia|lia].
    + assert (waiting (system_of {| cl_replicas := <[i := r']> (cl_replicas c'); cl_network := cl_network c' ++ [] |})
        = waiting (step_out i r' [] (system_of c))) as ->.
      { unfold waiting. f_equal. apply list_fmap_ext. intros k j _. by rewrite Hrep. }
      rewrite waiting_step, Hri by done. unfold r'. simpl. rewrite length_app. simpl. lia.
    + assert (waiting_requests (system_of {| cl_replicas := <[i := r']> (cl_replicas c'); cl_network := cl_network c' ++ [] |})
        = waiting_requests (step_out i r' [] (system_of c))) as ->.
      { unfold waiting_requests. f_equal. apply list_fmap_ext. intros k j _. by rewrite Hrep. }
      apply waiting_requests_more; [done|]. rewrite Hri. unfold queued_requests, r'. simpl. rewrite omap_app. simpl.
      by destruct (message_request m).
  - assert (i ∉ cluster_ids) as Hi by (rewrite <- Hm, <- Hc, Hr; by intros [? [=]]).
    assert (∀ j, rep (system_of c') j = rep (system_of c) j) as Hrep by (intros j; simpl; by rewrite Hc).
    apply (rerouted_linked B _ N c); [done|done|by rewrite Hc|..].
    + split; [intros j _; by rewrite Hrep|]. intros d Hd. destruct (Hin d Hd) as (new & Hsub & Hnew). exists new.
      split; [|done]. rewrite decide_False, app_nil_r in Hsub by (intros ->; done). unfold inbox. rewrite Hrep, (assoc_L (++)).
      by apply submseteq_app.
    + intros j _. rewrite Hrep. lia.
    + unfold waiting. erewrite (list_fmap_ext _ (λ i, Z.of_nat (length (message_queue_ (rep (system_of c) i)))));
        [lia|]. intros k j _. by rewrite Hrep.
    + unfold waiting_requests. erewrite (list_fmap_ext _ (λ i, queued_requests (rep (system_of c) i)));
        [by apply submseteq_inserts_r|]. intros k j _. by rewrite Hrep.
Qed.

Lemma sent_to_remove d k l p :
  l !! k = Some p → sent_to d l ≡ₚ sent_to d (take k l ++ drop (S k) l) ++ (if decide (d = pk_dst p) then [pk_msg p] else []).
Proof.
  intros Hk. rewrite <- (take_drop_middle l k p Hk) at 1. rewrite !sent_to_app.
  change (p :: drop (S k) l) with ([p] ++ drop (S k) l). rewrite sent_to_app. unfold sent_to at 2. rewrite filter_cons, filter_nil.
  case_decide as H1; case_decide as H2; try congruence; simpl; rewrite ?app_nil_r; [|done].
  rewrite <- Permutation_middle. by rewrite (Permutation_cons_append (_ ++ _)).
Qed.

Lemma remove_no_request k c :
  Forall (λ p, no_request (pk_msg p)) (cl_network c) → Forall (λ p, no_request (pk_msg p)) (cl_network (remove_packet k c)).
Proof. intros H. apply Forall_app. split; [by apply Forall_take|by apply Forall_drop]. Qed.

(** Relations between what a replica has sent in an event, the replica and the protocol
    that hold at the end of an event ([P]) if others hold at its start ([Q]). *)
Record tracked (B : list request) (N : Z) (P : Z → list output → Replica → asys → Prop) (Q : Z → Replica → asys → Prop) : Prop := {
  tr_start : ∀ i r y, Q i r y → P i [] r y;
  tr_follows : ∀ i, i ∈ cluster_ids → follows B env N i (P i);
  tr_stable : ∀ i r r' y y', aok id_set 1 leader y → steps y y' → state_ r' = state_ r → Q i r y → Q i r' y' }.

Lemma message_state i conn m c j :
  state_ (rep (system_of (on_replica env i (ev_message conn m) c)) j) = state_ (rep (system_of c) j).
Proof.
  unfold on_replica. destruct (cl_replicas c !! i) as [r|] eqn:Hr; [|done]. simpl.
  destruct (decide (j = i)) as [->|Hj]; [by rewrite lookup_insert_eq, Hr|by rewrite lookup_insert_ne].
Qed.

Lemma step_linked B N c y ce P Q :
  linked B N c y → N + 1 < 2 ^ 32 → admissible ce →
  tracked B (N + 1) P Q → (∀ i, i ∈ cluster_ids → Q i (rep (system_of c) i) y) →
  ∃ y', steps y y' ∧ linked (B ++ event_requests ce) (N + 1) (cluster_step env ce c) y' ∧
    ∀ i, i ∈ cluster_ids → P i (event_outputs env i ce c) (rep (system_of (cluster_step env ce c)) i) y'.
Proof.
  intros Hl HN Had [T1 T2 T3] HQ. pose proof (lk_net _ _ _ _ Hl) as Hnet. pose proof (lk_members _ _ _ _ Hl) as Hm.
  pose proof (gd_inv _ (sm_good _ _ _ _ (lk_sim _ _ _ _ Hl))) as Hok.
  assert (∀ c' B', linked B' (N + 1) c' y → (∀ j, state_ (rep (system_of c') j) = state_ (rep (system_of c) j)) →
    ∃ y', steps y y' ∧ linked B' (N + 1) c' y' ∧ ∀ i, i ∈ cluster_ids → P i [] (rep (system_of c') i) y') as Hmove.
  { intros c' B' H1 H2. exists y. split_and!; [apply rtc_refl|done|]. intros j Hj.
    apply T1. eapply T3; [exact Hok|apply rtc_refl|apply H2|by apply HQ]. }
  assert (∀ i e, e = ev_process_queue ∨ e = ev_heartbeat ∨ e = ev_liveness →
    ∃ y', steps y y' ∧ linked B (N + 1) (on_replica env i e c) y' ∧
      ∀ j, j ∈ cluster_ids → P j (if decide (i = j) then outputs_of env j e c else []) (rep (system_of (on_replica env i e c)) j) y') as Hlocal.
  { intros i e He. destruct (decide (i ∈ cluster_ids)) as [Hi|Hi].
    - destruct (local_event_linked B N c y i e (P i) Hl HN He (T2 i Hi) (T1 _ _ _ (HQ i Hi))) as (y' & H1 & H2 & H3 & H4).
      exists y'. split_and!; [done|done|]. intros j Hj. destruct (decide (i = j)) as [<-|Hne]; [done|].
      rewrite H4 by done. apply T1. eapply T3; [exact Hok|exact H1|done|by apply HQ].
    - assert (on_replica env i e c = c) as ->; [|
        destruct (Hmove c B) as (y' & H1 & H2 & H3); [by apply linked_more|done|exists y'; split_and!; try done;
        intros j Hj; rewrite decide_False by (by intros ->); by apply H3]].
      unfold on_replica. destruct (cl_replicas c !! i) eqn:Hr; [|done]. destruct Hi. apply Hm. by rewrite Hr. }
  destruct ce as [k|k|dst conn m|i|i|i|i]; cbn [cluster_step event_requests event_outputs admissible] in *; rewrite ?app_nil_r.
  - destruct (cl_network c !! k) as [p|] eqn:Hk; [|by apply Hmove; [apply linked_more|]].
    assert (message_request (pk_msg p) = None) as Hid
      by (apply no_request_message; rewrite Forall_forall in Hnet; by eapply Hnet, list_elem_of_lookup_2).
    replace B with (B ++ option_list (message_request (pk_msg p))) by (rewrite Hid; apply app_nil_r).
    apply Hmove; [|intros j; exact (message_state _ _ _ _ j)].
    eapply enqueue_linked; [exact Hl|done|by apply remove_no_request|]. intros d Hd. exists []. split; [|constructor]. simpl.
    by rewrite <- (sent_to_remove d k _ p Hk).
  - rewrite <- (app_nil_r B). apply Hmove; [|done].
    apply (rerouted_linked B _ N c); [done|by apply remove_no_request|done| |simpl; lia|unfold waiting; simpl; lia|
      by rewrite app_nil_r].
    split; [done|]. intros d Hd. exists []. split; [|constructor]. unfold inbox. simpl. apply submseteq_app; [|done].
    destruct (cl_network c !! k) as [p|] eqn:Hk.
    + rewrite (sent_to_remove d k _ p Hk). by apply submseteq_inserts_r.
    + apply lookup_ge_None in Hk. rewrite take_ge, drop_ge, app_nil_r by lia. done.
  - apply Hmove; [|intros j; exact (message_state _ _ _ _ j)].
    eapply enqueue_linked; [exact Hl|done|done|]. intros d Hd. case_decide.
    + exists [m]. split; [|by apply Forall_singleton].
      by rewrite (Permutation_app_comm (sent_to d (cl_network c)) [m]).
    + exists []. split; [by rewrite app_nil_r|constructor].
  - apply Hlocal; auto.
  - apply Hlocal; auto.
  - apply Hlocal; auto.
  - done.
Qed.

Lemma run_linked ces B N c y :
  linked B N c y → N + Z.of_nat (length ces) < 2 ^ 32 → Forall admissible ces →
  ∃ y', steps y y' ∧ linked (B ++ run_requests ces) (N + Z.of_nat (length ces)) (cluster_run env ces c) y'.
Proof.
  revert B N c y. induction ces as [|ce ces IH]; intros B N c y Hl HN Had.
  - exists y. split; [apply rtc_refl|]. simpl. by rewrite Z.add_0_r, app_nil_r.
  - apply Forall_cons in Had as [Hce Had]. simpl in HN.
    destruct (step_linked B N c y ce (λ _ _ _ _, True) (λ _ _ _, True) Hl ltac:(lia) Hce) as (y1 & Hs1 & Hl1 & _);
      [by split|done|].
    destruct (IH _ (N + 1) _ y1 Hl1 ltac:(lia) Had) as (y2 & Hs2 & Hl2).
    exists y2. split; [by etrans|]. unfold run_requests in *. simpl. rewrite (assoc_L (++)). simpl length.
    by replace (N + Z.of_nat (S (length ces))) with (N + 1 + Z.of_nat (length ces)) by lia.
Qed.

(** ** The initial state *)

Lemma initial_replica i :
  i ∈ cluster_ids → rep (system_of (new_cluster env)) i = run env (new_replica i main_cluster_config).
Proof. rewrite cluster_ids_elem. intros [->|[->| ->]]; reflexivity. Qed.

Lemma initial_inbox d : d ∈ cluster_ids → inbox d (system_of (new_cluster env)) = [].
Proof. intros Hd. unfold inbox. rewrite initial_replica by done. done. Qed.

Lemma initial_linked : linked [] 0 (new_cluster env) ainit.
Proof.
  split.
  - intros i. unfold new_cluster. simpl. rewrite cluster_ids_elem. split.
    + intros [r Hr]. revert Hr. rewrite !lookup_insert_Some, lookup_empty. naive_solver.
    + intros [->|[->| ->]]; by eexists.
  - constructor.
  - split.
    + intros i Hi. rewrite initial_replica by done. done.
    + intros i Hi. rewrite initial_replica by done. split; simpl; lia.
    + intros i Hi. rewrite initial_replica by done. by apply collected_normal.
    + intros d Hd. rewrite initial_inbox by done. constructor.
    + intros d k Hd. rewrite initial_inbox by done. intros H. by apply not_elem_of_nil in H.
    + intros d Hd. rewrite initial_replica by done. done.
    + intros d m Hd. rewrite initial_inbox by done. intros H. by apply not_elem_of_nil in H.
    + intros d m Hd. rewrite initial_inbox by done. intros H. by apply not_elem_of_nil in H.
  - split.
    + split; [split; [apply ainit_inv|apply ainit_rinv]|..].
      * split; simpl; [lia|lia|constructor].
      * split; simpl; [constructor|]. intros m H. by apply not_elem_of_nil in H.
    + intros i Hi. rewrite initial_replica by done. split_and!; [done|apply log_rel_empty|done].
    + intros i Hi. rewrite initial_replica by done. intros _ k e j. simpl. by rewrite lookup_empty.
    + intros d m Hd. rewrite initial_inbox by done. intros H. by apply not_elem_of_nil in H.
    + intros i n j v l c _ H. by apply not_elem_of_nil in H.
    + done.
    + done.
Qed.
End cluster_steps.

(** ** Properties *)

(** What a replica has committed, seen through the relation. *)
Lemma committed_linked B N c y i k x :
  linked B N c y → committed i k c = Some x →
  let s := a_reps y i in
  1 ≤ k ∧ k ≤ a_commit s ∧ (Z.to_nat k ≤ length (a_log s))%nat ∧
  ∃ e, a_log s !! Z.to_nat (k - 1) = Some e ∧ x = (le_client_id e, le_payload e).
Proof.
  cbv zeta. intros [Hm _ _ Hsim] Hc. unfold committed, state_of in Hc.
  destruct (cl_replicas c !! i) as [r|] eqn:Hr; [|done]. simpl in Hc.
  assert (i ∈ cluster_ids) as Hi by (apply Hm; eauto).
  destruct (k <=? commit_ (state_ r)) eqn:Hk; [apply Z.leb_le in Hk|done].
  destruct (log_ (state_ r) !! k) as [e|] eqn:He; [|done]. injection Hc as <-.
  destruct (sm_rep _ _ _ _ Hsim i Hi) as (Ha & Hlog & _). simpl in Ha, Hlog. rewrite Hr in Ha, Hlog. simpl in Ha, Hlog.
  apply (log_rel_lookup _ _ _ _ Hlog) in He as [Hrange He].
  assert (a_commit (a_reps y i) = commit_ (state_ r)) as -> by (by rewrite Ha).
  split_and!; [lia|lia|lia|]. exists (strip_entry e). done.
Qed.

(** C3: The cluster implements the replication protocol: after any sequence of
    deliveries, losses, client messages, queue processing and timer events in which no
    process is restarted, the replicas and the messages under way are related to a
    state that the abstract transition system of [Protocol] can reach. *)
Theorem cluster_refines_protocol env ces :
  Forall admissible ces → Z.of_nat (length ces) < 2 ^ 32 →
  ∃ y, steps ainit y ∧ linked (run_requests ces) (Z.of_nat (length ces)) (cluster_run env ces (new_cluster env)) y.
Proof. intros Had Hlen. by apply (run_linked env ces [] 0 _ _ (initial_linked env)). Qed.

(** C2: Agreement and durability: if no process is restarted, what a replica of the
    three-replica cluster has committed as operation [k] is what every replica that has
    committed operation [k] then or later has there, across message losses and delays,
    timeouts, view changes and recoveries. *)
Theorem committed_operations_agree env ces1 ces2 i j k x x' :
  Forall admissible (ces1 ++ ces2) → Z.of_nat (length (ces1 ++ ces2)) < 2 ^ 32 →
  let c1 := cluster_run env ces1 (new_cluster env) in
  let c2 := cluster_run env ces2 c1 in
  committed i k c1 = Some x → committed j k c2 = Some x' → x = x'.
Proof.
  rewrite length_app. intros [Had1 Had2]%Forall_app Hlen c1 c2 Hx Hx'.
  destruct (run_linked env ces1 [] 0 _ _ (initial_linked env) ltac:(lia) Had1) as (y1 & Hs1 & Hl1).
  destruct (run_linked env ces2 _ _ _ _ Hl1 ltac:(lia) Had2) as (y2 & Hs2 & Hl2).
  destruct (committed_linked _ _ _ _ _ _ _ Hl1 Hx) as (Hk & Hc1 & Hn1 & e1 & He1 & ->).
  destruct (committed_linked _ _ _ _ _ _ _ Hl2 Hx') as (_ & Hc2 & Hn2 & e2 & He2 & ->).
  pose proof (committed_logs_agree id_set 1 leader leader_in id_quorums_meet y1 y2 i j (Z.to_nat k)
    (gd_inv _ (sm_good _ _ _ _ (lk_sim _ _ _ _ Hl1))) Hs2 ltac:(lia) ltac:(lia) Hn1 ltac:(lia) Hn2) as Heq.
  assert (Some e1 = Some e2) as [= ->]; [|done].
  rewrite <- He1, <- He2. rewrite <- (lookup_take_lt (a_log (a_reps y1 i)) (Z.to_nat k)) by lia.
  by rewrite Heq, lookup_take_lt by lia.
Qed.

(** What a replica holds in its log was requested. *)
Lemma requested ces N c y i k e :
  linked (run_requests ces) N c y → a_log (a_reps y i) !! k = Some e →
  ∃ dst connection m, ce_client dst connection m ∈ ces ∧ h_command (header m) = command.request ∧
    request_of e = ((h_client (header m), h_request (header m)), (h_operation (header m), payload m)).
Proof.
  intros Hl He. destruct (sm_good _ _ _ _ (lk_sim _ _ _ _ Hl)) as [[Hy _] _ _].
  destruct (held_prepared id_set 1 leader y i _ _ Hy He) as [v Hp]. apply run_requests_elem.
  eapply elem_of_submseteq; [|apply (sm_requests _ _ _ _ (lk_sim _ _ _ _ Hl))].
  apply elem_of_app. left. apply prepared_requests_elem. eauto.
Qed.

(** C8: Nothing is committed that no client asked for: if no process is restarted, what a
    replica has committed is the payload of a request that a client sent, under the id of
    that client. *)
Theorem committed_operations_requested env ces i k x :
  Forall admissible ces → Z.of_nat (length ces) < 2 ^ 32 →
  committed i k (cluster_run env ces (new_cluster env)) = Some x →
  ∃ dst connection m, ce_client dst connection m ∈ ces ∧ h_command (header m) = command.request ∧
    x = (h_client (header m), payload m).
Proof.
  intros Had Hlen Hx. destruct (run_linked env ces [] 0 _ _ (initial_linked env) Hlen Had) as (y & _ & Hl).
  destruct (committed_linked _ _ _ _ _ _ _ Hl Hx) as (_ & _ & _ & e & He & ->).
  destruct (requested _ _ _ _ _ _ _ Hl He) as (dst & conn & m & Hm & Hc & Hq). exists dst, conn, m.
  injection Hq as -> _ _ ->. done.
Qed.

(** C15: No counter of a replica wraps around: after [n] events without a restart, the
    view, the operation number and the commit number of every replica are at most [n],
    and the log is exactly the operations [1] to [op_]. *)
Theorem counters_bounded_by_events env ces i s :
  Forall admissible ces → Z.of_nat (length ces) < 2 ^ 32 →
  state_of i (cluster_run env ces (new_cluster env)) = Some s →
  let n := Z.of_nat (length ces) in
  0 ≤ view_ s ≤ n ∧ 0 ≤ op_ s ≤ n ∧ 0 ≤ commit_ s ≤ n ∧ ∀ k, is_Some (log_ s !! k) ↔ 1 ≤ k ≤ op_ s.
Proof.
  intros Had Hlen Hs. cbv zeta.
  destruct (run_linked env ces [] 0 _ _ (initial_linked env) Hlen Had) as (y & _ & [Hm _ Ho Hsim]). simpl Z.add in *.
  unfold state_of in Hs. destruct (cl_replicas _ !! i) as [r|] eqn:Hr; [|done]. injection Hs as <-.
  assert (i ∈ cluster_ids) as Hi by (apply Hm; eauto).
  assert (rep (system_of (cluster_run env ces (new_cluster env))) i = r) as Hrep by (simpl; by rewrite Hr).
  destruct (on_within _ _ Ho i Hi) as [W _ _]. destruct (sm_rep _ _ _ _ Hsim i Hi) as (Ha & Hlog & Hop).
  destruct (gd_bounded _ (sm_good _ _ _ _ Hsim)) as [Bl Bc _]. specialize (Bl i). specialize (Bc i).
  rewrite Ha in Bc. simpl a_commit in Bc. rewrite Hrep in *. rewrite Hr in Bc. simpl in Bc. pose proof (sm_budget _ _ _ _ Hsim) as Hb.
  pose proof (waiting_nonneg (system_of (cluster_run env ces (new_cluster env)))).
  split_and!; try lia. intros k. split.
  - intros [e He]. apply (log_rel_lookup _ _ _ _ Hlog) in He. lia.
  - intros Hk. specialize (Hlog k). rewrite decide_True in Hlog by lia.
    destruct (lookup_lt_is_Some_2 (a_log (a_reps y i)) (Z.to_nat (k - 1))) as [e He]; [lia|]. rewrite He in Hlog.
    by destruct (log_ (state_ r) !! k).
Qed.

(** ** Witnesses *)

(** A client writes; replica 0 commits with replica 1, and its heartbeat tells replica 1. *)
Definition commit_everywhere : list cluster_event := [ce_heartbeat 0; ce_deliver 0; ce_process 1].

Lemma client_request_message c p :
  message_wf (client_request c p) → is_u64 (Z.of_nat (length p)) → client_message (client_request c p).
Proof. intros Hwf Hp. split; [by left|]. split; [done|]. split; [exact Hwf|exact Hp]. Qed.

(** Checks concrete events. *)
Ltac check_admissible :=
  repeat (apply Forall_cons; split;
    [first [exact I | assumption | apply client_request_message; [split|]; vm_compute; first [done | split; done]]|]);
  by apply Forall_nil.

Lemma commit_first_admissible : Forall admissible (commit_first ++ commit_everywhere).
Proof. check_admissible. Qed.

Lemma committed_operations_agree_witness :
  committed 0 1 (cluster_run fast_env commit_first (new_cluster fast_env)) = Some (U128 1 1, lit "k v") ∧
  (U128 1 1, lit "k v") = (U128 1 1, lit "k v").
Proof.
  split; [vm_compute; reflexivity|].
  apply (committed_operations_agree fast_env commit_first commit_everywhere 0 1 1);
    [exact commit_first_admissible|vm_compute; reflexivity|vm_compute; reflexivity|vm_compute; reflexivity].
Defined.

Lemma cluster_refines_protocol_witness :
  ∃ y, steps ainit y ∧ linked [((U128 1 1, 1), (operation.set, lit "k v"))] 10 (cluster_run fast_env (commit_first ++ commit_everywhere) (new_cluster fast_env)) y.
Proof.
  exact (cluster_refines_protocol fast_env (commit_first ++ commit_everywhere) commit_first_admissible
    ltac:(vm_compute; reflexivity)).
Defined.

Lemma counters_bounded_by_events_witness :
  ∃ s, state_of 1 (cluster_run fast_env (commit_first ++ commit_everywhere) (new_cluster fast_env)) = Some s ∧
    op_ s = 1 ∧ 0 ≤ op_ s ≤ 10.
Proof.
  eexists. split; [vm_compute; reflexivity|]. split; [reflexivity|].
  refine (proj1 (proj2 (counters_bounded_by_events fast_env (commit_first ++ commit_everywhere) 1 _
    commit_first_admissible _ _))); vm_compute; reflexivity.
Defined.

Lemma committed_operations_requested_witness :
  ∃ dst connection m, ce_client dst connection m ∈ commit_first ++ commit_everywhere ∧
    h_command (header m) = command.request ∧ (U128 1 1, lit "k v") = (h_client (header m), payload m).
Proof.
  refine (committed_operations_requested fast_env (commit_first ++ commit_everywhere) 1 1 _ commit_first_admissible _ _);
    vm_compute; reflexivity.
Defined.
