(* ===== verification/Machine.v ===== *)
(** * The store, the client table and the replies

    What the handlers of [src/server/replica.cpp] do to the store and the client table, and
    which replies they send: every handler executes a run of operations of the log, and
    answers clients with the results of these. *)
From S2P Require Import Prelude Types Serialization KeyValue ReplicaState Replica Execution Handlers Queue Recovery Cluster Protocol Exchange Refinement.

(** ** The client table *)

(** [t] comes from the client table [t0] and the log: no request is marked executed in [t]
    that is not in [t0], and request numbers are those of [t0] or of operations of the log. *)
Record derived (log : gmap Z log_entry) (t t0 : gmap uint128_t client_table_entry) : Prop := {
  dv_executed : ∀ c ce, t !! c = Some ce → executed ce = true →
    ∃ ce0, t0 !! c = Some ce0 ∧ request_number ce0 = request_number ce ∧ executed ce0 = true;
  dv_known : ∀ c ce, t !! c = Some ce →
    request_number ce = 0 ∨ (∃ ce0, t0 !! c = Some ce0 ∧ request_number ce0 = request_number ce) ∨
    ∃ k e, log !! k = Some e ∧ request_id e = (c, request_number ce) }.

Lemma derived_refl log t : derived log t t.
Proof. split; intros c ce; eauto 10. Qed.

Lemma derived_trans log t1 t2 t3 : derived log t1 t2 → derived log t2 t3 → derived log t1 t3.
Proof.
  intros [H1 K1] [H2 K2]. split.
  - intros c ce Hc He. destruct (H1 c ce Hc He) as (ce1 & Hc1 & <- & He1). by apply H2.
  - intros c ce Hc. destruct (K1 c ce Hc) as [?|[(ce1 & Hc1 & <-)|?]]; [by left|by apply K2|by right; right].
Qed.

Lemma derived_insert log t t0 c ce :
  derived log t t0 → executed ce = false → (∃ k e, log !! k = Some e ∧ request_id e = (c, request_number ce)) →
  derived log (<[c := ce]> t) t0.
Proof.
  intros [H K] He Hk. split; intros c' ce'; rewrite lookup_insert_Some.
  - intros [[_ <-]|[_ Hc]]; [congruence|by apply H].
  - intros [[<- <-]|[_ Hc]]; [by auto|by apply K].
Qed.

Lemma derived_same log t c : derived log (<[c := default default_client_entry (t !! c)]> t) t.
Proof.
  destruct (t !! c) as [ce|] eqn:Hc; simpl; [rewrite insert_id by done; apply derived_refl|].
  destruct (derived_refl log t) as [H K]. split; intros c' ce'; rewrite lookup_insert_Some.
  - intros [[_ <-]|[_ Hc']]; [done|by apply H].
  - intros [[_ <-]|[_ Hc']]; [by left|by apply K].
Qed.

(** A request entered together with its operation. *)
Lemma derived_new log t k e ce :
  executed ce = false → request_number ce = le_request_num e →
  derived (<[k := e]> log) (<[le_client_id e := ce]> t) t.
Proof.
  intros He Hn. apply derived_insert; [apply derived_refl|done|]. exists k, e. rewrite lookup_insert_eq.
  split; [done|]. unfold request_id. by rewrite Hn.
Qed.

Lemma refresh_derived s : derived (log_ s) (client_table_ (refresh_client_table s)) (client_table_ s).
Proof.
  unfold refresh_client_table.
  assert (∀ kv, kv ∈ items (log_ s) → log_ s !! kv.1 = Some kv.2) as Hall.
  { intros [k e]. rewrite items_perm. apply elem_of_map_to_list. }
  revert Hall. generalize (log_ s) at 2 3 as log. generalize (items (log_ s)) as l. intros l log. revert s.
  induction l as [|kv l IH]; intros s Hall; [apply derived_refl|]. simpl.
  eapply derived_trans; [apply IH; intros kv' Hin; apply Hall; by right|].
  unfold refresh_client, set_client_entry, client_entry. simpl. case_match; [|apply derived_same].
  apply derived_insert; [apply derived_refl|done|]. exists kv.1, kv.2. split; [apply Hall; by left|done].
Qed.

(** ** Replies *)

(** [o] is the reply to the operation [e] executed in the store [sm]. *)
Definition answers (o : output) (e : log_entry) (sm : gmap (list byte) (list byte)) : Prop :=
  let m := out_msg o in
  request_id e = (h_client (header m), h_request (header m)) ∧
  payload m = (apply_operation (le_op_type e) (le_payload e) sm).2.

Lemma execute_op_answers op e r o : o ∈ (execute_op op e r).2 → answers o e (state_machine_ (state_ r)).
Proof.
  unfold execute_op, reply_outputs, set_client_entry. simpl.
  destruct (negb _ || negb _); [|by intros ?%not_elem_of_nil].
  destruct (apply_operation _ _ _) as [sm res] eqn:Happ. simpl. case_match; [|by intros ?%not_elem_of_nil].
  repeat case_match; try by intros ?%not_elem_of_nil.
  intros ->%list_elem_of_singleton. unfold answers. simpl. by rewrite Happ.
Qed.

Lemma execute_loop_answers fuel r o :
  is_u64 (last_executed_op_ (state_ r)) → is_u64 (commit_ (state_ r)) → o ∈ (execute_loop fuel r).2 →
  let es := ready fuel (log_ (state_ r)) (last_executed_op_ (state_ r)) (commit_ (state_ r)) in
  ∃ (j : nat) e, es !! j = Some e ∧ answers o e (foldl exec_entry (machine_of (state_ r)) (take j es)).1.
Proof.
  revert r. induction fuel as [|fuel IH]; intros r Hl Hc; [by intros ?%not_elem_of_nil|]. simpl.
  case_match eqn:Hlt; [|by intros ?%not_elem_of_nil]. apply Z.ltb_lt in Hlt. rewrite u64_small by rlia.
  case_match eqn:He; [|by intros ?%not_elem_of_nil].
  destruct (execute_op _ _ r) as [r1 o1] eqn:Hop.
  pose proof (execute_op_spec (last_executed_op_ (state_ r) + 1) l r) as Hr1.
  pose proof (execute_op_answers (last_executed_op_ (state_ r) + 1) l r o) as Ho1.
  rewrite Hop in Hr1, Ho1. simpl in Hr1, Ho1. subst r1. specialize (IH (with_machine r (exec_entry (machine_of (state_ r)) l)
    (last_executed_op_ (state_ r) + 1))). destruct (execute_loop fuel _) as [r2 o2]. simpl.
  intros [Ho|Ho]%elem_of_app; [by exists 0%nat, l; auto|].
  destruct IH as (j & e & Hj & Ha); [simpl; rlia|done|done|]. exists (S j), e. split; [done|].
  simpl. by rewrite machine_of_with in Ha.
Qed.

(** ** Steps *)

(** Operations are executed from the store in [s] and a client table that knows no more
    executed requests: the ones after those already executed, or, when a recovery ends,
    all from the first one; the replies in [out] are the answers to some of them. *)
Record machine_step (s s' : ReplicaState) (out : list output) : Prop := {
  ms_exec : ∃ base t es,
    ((base = last_executed_op_ s ∧ derived (log_ s') t (client_table_ s)) ∨
     (base = 0 ∧ status_ s = ReplicaStatus.RECOVERY ∧ derived (log_ s') t ∅)) ∧
    machine_of s' = foldl exec_entry (state_machine_ s, t) es ∧
    last_executed_op_ s' = base + Z.of_nat (length es) ∧
    (es = [] ∨ es = ready (S (size (log_ s'))) (log_ s') base (commit_ s')) ∧
    (∀ o, o ∈ out → no_reply o ∨
       ∃ (j : nat) e, es !! j = Some e ∧ answers o e (foldl exec_entry (state_machine_ s, t) (take j es)).1);
  ms_status : status_ s' = ReplicaStatus.RECOVERY →
    status_ s = ReplicaStatus.RECOVERY ∧ last_executed_op_ s' = last_executed_op_ s }.

(** Nothing is executed. *)
Lemma machine_idle s s' out :
  state_machine_ s' = state_machine_ s → last_executed_op_ s' = last_executed_op_ s →
  derived (log_ s') (client_table_ s') (client_table_ s) →
  (status_ s' = ReplicaStatus.RECOVERY → status_ s = ReplicaStatus.RECOVERY) → Forall no_reply out → machine_step s s' out.
Proof.
  intros H1 H2 H3 H4 H5. split; [|auto]. exists (last_executed_op_ s), (client_table_ s'), []. split_and!.
  - by left.
  - unfold machine_of. by rewrite H1.
  - rewrite H2. simpl. lia.
  - by left.
  - rewrite Forall_forall in H5. intros o Ho. left. by apply H5.
Qed.

(** Operations are executed in state [s1]. *)
Lemma machine_executed s r1 s' out :
  let s1 := state_ r1 in
  state_machine_ s1 = state_machine_ s →
  ((last_executed_op_ s1 = last_executed_op_ s ∧ derived (log_ s1) (client_table_ s1) (client_table_ s)) ∨
   (last_executed_op_ s1 = 0 ∧ status_ s = ReplicaStatus.RECOVERY ∧ derived (log_ s1) (client_table_ s1) ∅)) →
  is_u64 (last_executed_op_ s) → is_u64 (commit_ s') → status_ s1 ≠ ReplicaStatus.RECOVERY →
  (∀ o, o ∈ out → no_reply o ∨ o ∈ (execute_commited_ops r1).2) →
  let s2 := state_ (execute_commited_ops r1).1 in
  machine_of s' = machine_of s2 → last_executed_op_ s' = last_executed_op_ s2 →
  log_ s' = log_ s2 → commit_ s' = commit_ s2 → status_ s' = status_ s2 → machine_step s s' out.
Proof.
  cbv zeta. intros Hsm Hbase Hl Hc Hst Hout Hm2 Hl2 Hlog Hcom Hstat.
  assert (is_u64 (commit_ (state_ r1))) as Hc1.
  { destruct (execute_shape r1) as (m & k & H). rewrite H in Hcom. simpl in Hcom. by rewrite <- Hcom. }
  assert (is_u64 (last_executed_op_ (state_ r1))) as Hl1 by (destruct Hbase as [[-> _]|[-> _]]; rlia).
  rewrite (execute_commited_ops_spec r1 Hl1 Hc1) in Hm2, Hl2, Hlog, Hcom, Hstat.
  rewrite machine_of_with in Hm2. simpl in Hl2, Hlog, Hcom, Hstat. split; [|congruence].
  exists (last_executed_op_ (state_ r1)), (client_table_ (state_ r1)), (ready_entries (state_ r1)). split_and!.
  - rewrite Hlog. destruct Hbase as [[-> Hw]|[-> Hw]]; [by left|by right].
  - by rewrite Hm2, <- Hsm.
  - done.
  - right. unfold ready_entries. by rewrite Hlog, Hcom.
  - intros o [Ho|Ho]%Hout; [by left|right]. rewrite <- Hsm. by apply (execute_loop_answers (S (size (log_ (state_ r1))))).
Qed.

(** The handler ends with the execution of operations. *)
Ltac executes Hc :=
  match goal with
  | Hex : execute_commited_ops ?r1 = _ |- _ => eapply (machine_executed _ r1); [..|exact Hc| | | | | | |]; rewrite ?Hex
  | _ => match type of Hc with context [execute_commited_ops ?r1] => eapply (machine_executed _ r1); [..|exact Hc| | | | | | |] end
  end; try done.

(** The handler executes nothing and sends no reply. *)
Ltac idles := intros _; apply machine_idle; [done|done|try apply derived_refl|done|by repeat constructor].

Section dispatch.
Context (env : Env).

Lemma machine_refl s out : Forall no_reply out → machine_step s s out.
Proof. intros Hout. apply machine_idle; [done|done|apply derived_refl|done|done]. Qed.

Lemma do_view_change_machine inb r :
  let s := state_ r in let s' := state_ (handle_do_view_change env inb r).1 in
  status_ s ≠ ReplicaStatus.RECOVERY → is_u64 (last_executed_op_ s) → is_u64 (commit_ s') →
  machine_step s s' (handle_do_view_change env inb r).2.
Proof.
  cbv zeta. intros Hst Hl. unfold handle_do_view_change. simpl. destruct (quorum _ _); [|idles].
  destruct (_ ++ _) as [|first rest]; [idles|].
  destruct (select_log _ _ _ _) as [[bp bo] mc]. destruct (execute_commited_ops _) as [r1 o1] eqn:Hex.
  intros Hc. executes Hc.
  - left. split; [done|apply derived_refl].
  - intros o [->|Ho]%elem_of_cons; [by left|by right].
Qed.

(** Finds the state in which operations are executed, and the client table there. *)
Ltac executes_refreshed :=
  match goal with |- context [refresh_client_table ?s0] =>
    pose proof (refresh_derived s0) as Hct; destruct (refresh_client_table_shape s0) as [ct Heq]; rewrite Heq in * end;
  destruct (execute_commited_ops _) as [r1 o1] eqn:Hex.

Lemma prepare_machine inb r :
  let s := state_ r in let s' := state_ (handle_prepare env inb r).1 in
  status_ s = ReplicaStatus.NORMAL → is_u64 (last_executed_op_ s) → is_u64 (commit_ s') →
  machine_step s s' (handle_prepare env inb r).2.
Proof.
  cbv zeta. intros Hs Hl. unfold handle_prepare. cbv zeta.
  case_match; [|idles; simpl; by apply (derived_new _ _ _ {| le_client_id := _ |})].
  destruct (execute_commited_ops _) as [r1 o1] eqn:Hex. intros Hc. executes Hc; simpl; [|by rewrite Hs|].
  - left. split; [done|]. by apply (derived_new _ _ _ {| le_client_id := _ |}).
  - intros o [->|Ho]%elem_of_cons; [by left|by right].
Qed.

Lemma prepare_ok_machine inb r :
  let s := state_ r in let s' := state_ (handle_prepare_ok inb r).1 in
  status_ s = ReplicaStatus.NORMAL → is_u64 (last_executed_op_ s) → is_u64 (commit_ s') →
  machine_step s s' (handle_prepare_ok inb r).2.
Proof.
  cbv zeta. intros Hs Hl. unfold handle_prepare_ok. case_match; [|intros _; by apply machine_refl].
  unfold advance_primary_commit_number. case_match; [idles|].
  match goal with |- context [advance_loop ?f ?s0] => destruct (advance_loop_shape f s0) as [c ->] end.
  intros Hc. executes Hc; simpl; [|by rewrite Hs|by auto]. left. split; [done|apply derived_refl].
Qed.

Lemma retroactive_oks_no_reply fuel op p s : Forall no_reply (retroactive_oks fuel op p s).
Proof.
  revert op. induction fuel as [|fuel IH]; intros op; [constructor|]. simpl. case_match; [|constructor].
  apply Forall_app. split; [|apply IH]. case_match; by repeat constructor.
Qed.

Lemma start_view_machine inb r :
  let s := state_ r in let s' := state_ (handle_start_view env inb r).1 in
  is_u64 (last_executed_op_ s) → is_u64 (commit_ s') → machine_step s s' (handle_start_view env inb r).2.
Proof.
  cbv zeta. intros Hl. unfold handle_start_view.
  destruct (sv_deserialize _ _) as [[] p]; [|intros _; by apply machine_refl]. cbv zeta. cbn [negb].
  executes_refreshed. intros Hc. executes Hc; [by left|]. cbn [snd].
  intros o [Ho|Ho]%elem_of_app; [by right|left].
  by apply (proj1 (Forall_forall _ _) (retroactive_oks_no_reply _ _ _ _)) in Ho.
Qed.

Lemma recovery_response_machine inb r :
  let s := state_ r in let s' := state_ (handle_recovery_response env inb r).1 in
  status_ s = ReplicaStatus.RECOVERY → is_u64 (last_executed_op_ s) → is_u64 (commit_ s') →
  machine_step s s' (handle_recovery_response env inb r).2.
Proof.
  cbv zeta. intros Hs Hl. unfold handle_recovery_response.
  destruct (rr_deserialize _ _) as [[] p]; [|intros _; by apply machine_refl]. cbv zeta. cbn [negb].
  destruct (negb _); [intros _; by apply machine_refl|]. simpl. destruct (quorum _ _); [|idles].
  destruct (_ ++ _) as [|first rest]; [idles|].
  destruct (rr_deserialize _ _) as [? bp]. executes_refreshed.
  intros Hc. executes Hc; [|by auto]. right. by split_and!.
Qed.

(** A request with the number of the last one of its client, which is answered from the
    client table. *)
Definition duplicate (inb : inbound_message) (s : ReplicaState) : Prop :=
  let h := header (ib_message inb) in
  h_command h = command.request ∧ request_number (client_entry (h_client h) s) = h_request h.

Lemma request_machine inb r :
  let s := state_ r in let s' := state_ (handle_request inb r).1 in
  h_command (header (ib_message inb)) = command.request →
  ∃ out, machine_step s s' out ∧ (out = (handle_request inb r).2 ∨ duplicate inb s).
Proof.
  cbv zeta. intros Hcmd. unfold handle_request. cbv zeta. case_match; [|case_match eqn:Heq].
  - eexists. split; [|by left]. apply machine_idle; [done|done|apply derived_same|done|constructor].
  - exists []. split; [apply machine_idle; [done|done|apply derived_same|done|constructor]|right].
    split; [done|]. by apply Z.eqb_eq.
  - eexists. split; [|by left]. apply machine_idle; [done|done| |done|by repeat constructor].
    simpl. by apply (derived_new _ _ _ {| le_client_id := _ |}).
Qed.

(** What a handler does, and the replies it sends, apart from the answer to a duplicate
    request. *)
Lemma dispatch_machine inb r :
  let s := state_ r in let s' := state_ (dispatch env inb r).1 in
  can_process inb s = true → is_u64 (last_executed_op_ s) → is_u64 (commit_ s') →
  ∃ out, machine_step s s' out ∧ (out = (dispatch env inb r).2 ∨ duplicate inb s).
Proof.
  cbv zeta. intros Hcan Hl. destruct (decide (h_command (header (ib_message inb)) = command.request)) as [Hr|Hr].
  { intros _. unfold dispatch. rewrite Hr. by apply request_machine. }
  intros Hc. exists (dispatch env inb r).2. split; [|by left]. revert Hc. unfold dispatch, can_process in *.
  destruct (h_command _); try done; try (intros _; apply machine_refl; by repeat constructor).
  - apply andb_true_iff in Hcan as [[[Hs%bool_decide_eq_true _]%andb_true_iff _]%andb_true_iff _].
    by apply prepare_machine.
  - apply andb_true_iff in Hcan as [[Hs%bool_decide_eq_true _]%andb_true_iff _]. by apply prepare_ok_machine.
  - apply andb_true_iff in Hcan as [[Hs%bool_decide_eq_true _]%andb_true_iff _]. unfold handle_commit. cbv zeta.
    case_match; [|idles].
    intros Hc. executes Hc; simpl; [|by rewrite Hs|by auto]. left. split; [done|apply derived_refl].
  - apply andb_true_iff in Hcan as [_ Hs%bool_decide_eq_true]. unfold handle_start_view_change. cbv zeta.
    case_match; [|idles]. case_match; [|idles].
    intros Hc. eapply do_view_change_machine in Hc; [|simpl; by rewrite Hs|done].
    destruct Hc as [H1 H2]. split; [exact H1|exact H2].
  - unfold check_can_process_do_view_change in Hcan. repeat case_match; try done.
    match goal with H : negb (bool_decide _) = false |- _ => apply negb_false_iff, bool_decide_eq_true in H as Hs end.
    apply do_view_change_machine; [by rewrite Hs|done].
  - by apply start_view_machine.
  - unfold handle_recovery_request. destruct (rq_deserialize _ _) as [[] p]; intros _; apply machine_refl; by repeat constructor.
  - apply bool_decide_eq_true in Hcan as Hs. by apply recovery_response_machine.
Qed.
End dispatch.
