(* ===== verification/Store.v ===== *)
(** * The key-value stores

    What the replicas of [src/server/replica.cpp] hold in their stores: if no client
    request is sent twice, the store of a replica is the replay of the operations it
    counts as executed, in log order, and so stores agree; if a client sends a request
    again, they can differ for good.  The argument follows the store and the client table
    through the steps of a replica, next to the relation of [Refinement] between the
    cluster and the protocol. *)
From S2P Require Import Prelude Types Serialization KeyValue ReplicaState Replica Execution Handlers Queue Recovery Cluster Protocol Exchange Refinement Agreement Machine.

(** ** Replaying the log *)

(** [exec_entry] and [replay] do not look at acknowledgements. *)
Lemma foldl_exec_strip m es : foldl exec_entry m (strip_entry <$> es) = foldl exec_entry m es.
Proof. revert m. induction es as [|e es IH]; intros m; [done|]. simpl. apply IH. Qed.

Lemma replay_strip sm es : replay sm (strip_entry <$> es) = replay sm es.
Proof. revert sm. induction es as [|e es IH]; intros sm; [done|]. apply IH. Qed.

Lemma replay_app sm p q : replay sm (p ++ q) = replay (replay sm p) q.
Proof. apply foldl_app. Qed.

(** Replaying [q] over a store whose keys [q] writes anyway is replaying it alone. *)
Lemma replay_over S q : dom S ⊆ dom (replay ∅ q) → replay S q = replay ∅ q.
Proof.
  intros Hd. rewrite <- (map_empty_union S), replay_union. apply map_eq. intros k. rewrite lookup_union.
  destruct (replay ∅ q !! k) as [v|] eqn:Hk; [by destruct (S !! k)|].
  rewrite (proj1 (not_elem_of_dom S k)); [done|]. intros Hin. apply Hd, elem_of_dom in Hin as [? ?]. congruence.
Qed.

Lemma replay_dom_union S q : dom (replay S q) = dom S ∪ dom (replay ∅ q).
Proof. rewrite <- (map_empty_union S) at 1. rewrite replay_union, dom_union_L. set_solver. Qed.

Lemma replay_dom_prefix p q : p `prefix_of` q → dom (replay ∅ p) ⊆ dom (replay ∅ q).
Proof. intros [t ->]. rewrite replay_app. apply replay_dom. Qed.

(** The requests marked executed are among those of [q]. *)
Definition executed_in (q : list log_entry) (t : gmap uint128_t client_table_entry) : Prop :=
  ∀ c ce, t !! c = Some ce → executed ce = true → (c, request_number ce) ∈ request_id <$> q.

Lemma executed_in_derived q log t t' : derived log t t' → executed_in q t' → executed_in q t.
Proof. intros Hw H c ce Hc He. destruct (dv_executed _ _ _ Hw c ce Hc He) as (ce' & Hc' & <- & He'). by apply H. Qed.

Lemma executed_in_check q t :
  bool_decide (map_Forall (λ c ce, executed ce = true → (c, request_number ce) ∈ request_id <$> q) t) → executed_in q t.
Proof. apply bool_decide_unpack. Qed.

Lemma executed_in_empty q : executed_in q ∅.
Proof. intros c ce. by rewrite lookup_empty. Qed.

(** The requests entered are among [ids]. *)
Definition known_in (ids : list (uint128_t * Z)) (t : gmap uint128_t client_table_entry) : Prop :=
  ∀ c ce, t !! c = Some ce → request_number ce = 0 ∨ (c, request_number ce) ∈ ids.

Lemma known_in_empty ids : known_in ids ∅.
Proof. intros c ce. by rewrite lookup_empty. Qed.

Lemma known_in_mono ids ids' t : ids ⊆ ids' → known_in ids t → known_in ids' t.
Proof. intros Hsub H c ce Hc. destruct (H c ce Hc); auto. Qed.

Lemma known_in_derived ids log t t' :
  derived log t t' → (∀ k e, log !! k = Some e → request_id e ∈ ids) → known_in ids t' → known_in ids t.
Proof.
  intros Hw Hlog H c ce Hc. destruct (dv_known _ _ _ Hw c ce Hc) as [?|[(ce' & Hc' & <-)|(k & e & He & <-)]];
    [by left|by apply H|right; by eapply Hlog].
Qed.

Lemma known_in_exec ids m es :
  (∀ e, e ∈ es → request_id e ∈ ids) → known_in ids m.2 → known_in ids (foldl exec_entry m es).2.
Proof.
  revert m. induction es as [|e es IH]; intros m Hes Hm; [done|]. simpl. apply IH; [intros e' ?; apply Hes; by right|].
  intros c ce. unfold exec_entry. destruct (negb _ || negb _) eqn:Hb.
  - destruct (apply_operation _ _ _). simpl. rewrite lookup_insert_Some.
    intros [[<- <-]|[_ Hc]]; [|by apply Hm]. right. apply Hes. by left.
  - simpl. rewrite lookup_insert_Some. intros [[<- <-]|[_ Hc]]; [|by apply Hm].
    apply orb_false_iff in Hb as [Hn%negb_false_iff%Z.eqb_eq _]. right. rewrite Hn. apply Hes. by left.
Qed.

(** Executing the operations [es] after [q] applies each of them, if the requests differ. *)
Lemma exec_replay sm t q es :
  NoDup (request_id <$> q ++ es) → executed_in q t →
  let m := foldl exec_entry (sm, t) es in m.1 = replay sm es ∧ executed_in (q ++ es) m.2.
Proof.
  revert sm t q. induction es as [|e es IH]; intros sm t q Hnd Ht; [by rewrite app_nil_r|].
  assert (¬ executed_already t e) as Hfresh.
  { intros (ce & Hce & Hn & Hx). rewrite fmap_app in Hnd. apply NoDup_app in Hnd as (_ & Hd & _).
    apply (Hd (request_id e)); [|by left]. unfold request_id at 1. rewrite <- Hn. by apply Ht. }
  destruct (exec_entry_fresh (sm, t) e Hfresh) as [H1 H2]. simpl in *.
  rewrite (cons_middle e), (assoc_L (++)) in Hnd |- *.
  destruct (exec_entry (sm, t) e) as [sm1 t1] eqn:He. simpl in *. subst sm1. apply IH; [done|].
  intros c ce Hc Hx.
  pose (e' := {| le_view := 0; le_op_type := le_op_type e; le_client_id := c; le_request_num := request_number ce;
                 le_payload := []; le_acks := ∅ |}).
  rewrite fmap_app. apply elem_of_app. destruct (H2 e') as [Heq|(ce' & Hc' & Hn & Hx')]; [by exists ce|right|left].
  - apply list_elem_of_singleton. exact Heq.
  - simpl in Hc', Hn. rewrite <- Hn. by apply Ht.
Qed.

(** ** Operations that are executed *)

(** [p] is a prefix of the log of replica [i] that the protocol has committed. *)
Definition solid (y : asys) (i : Z) (p : list log_entry) : Prop :=
  p `prefix_of` a_log (a_reps y i) ∧
  (p = [] ∨ ∃ v, 0 ≤ v ≤ log_view (a_reps y i) ∧ is_committed id_set 1 leader (a_sent y) v p).

Lemma solid_nil y i : solid y i [].
Proof. split; [apply prefix_nil|by left]. Qed.

Lemma solid_steps y y' i p : aok id_set 1 leader y → steps y y' → solid y i p → solid y' i p.
Proof.
  intros Hok Hs [Hp [->|(v & Hv & Hc)]]; [apply solid_nil|].
  destruct (asteps_grow id_set 1 leader leader_in y y' i Hok Hs) as [Hg _]. split.
  - eapply (asteps_keep id_set 1 leader leader_in id_quorums_meet); eauto.
  - right. exists v. split; [lia|]. eapply is_committed_mono; [|exact Hc]. intros m. by eapply asteps_sent.
Qed.

(** What a replica holds up to its commit number is. *)
Lemma solid_take y i (k : nat) :
  ainv id_set 1 leader y → Z.of_nat k ≤ a_commit (a_reps y i) → (k ≤ length (a_log (a_reps y i)))%nat →
  solid y i (take k (a_log (a_reps y i))).
Proof.
  intros Hy Hc Hl. split; [apply prefix_take|]. destruct k as [|k]; [by left|right].
  apply (held_committed id_set 1 leader id_quorums_meet y Hy i (S k)); [lia|done|done].
Qed.

(** Of two such prefixes, the shorter one is a prefix of the other. *)
Lemma solid_le y i p q : solid y i p → solid y i q → (length p ≤ length q)%nat → p `prefix_of` q.
Proof.
  intros [[t Hp] _] [[u Hq] _] Hle. rewrite Hp in Hq. apply (f_equal (take (length q))) in Hq.
  rewrite take_app_length, take_app_ge in Hq by done. rewrite <- Hq. by apply prefix_app_r.
Qed.

(** If no request was prepared twice, operations prepared at their places are different
    requests, those of a log among them. *)
Lemma prepared_ids_nodup M (p : list log_entry) :
  NoDup (fst <$> prepared_requests M) → (∀ k e, p !! k = Some e → ∃ v, APrepare v (S k) e ∈ M) → NoDup (request_id <$> p).
Proof.
  intros Hnd Hp. apply NoDup_alt. intros k k' id. rewrite !list_lookup_fmap_Some.
  intros (e & -> & He) (e' & Heq & He'). destruct (Hp _ _ He) as [v H]. destruct (Hp _ _ He') as [v' H'].
  pose proof (prepared_once _ _ _ _ _ _ _ Hnd H H' Heq). lia.
Qed.

Lemma log_ids_nodup y i :
  ainv id_set 1 leader y → NoDup (fst <$> prepared_requests (a_sent y)) → NoDup (request_id <$> a_log (a_reps y i)).
Proof.
  intros Hy Hnd. eapply prepared_ids_nodup; [exact Hnd|]. intros k e. by apply (held_prepared id_set 1 leader).
Qed.

(** The requests that were prepared. *)
Definition prepared_ids (y : asys) : list (uint128_t * Z) := fst <$> prepared_requests (a_sent y).

Lemma prepared_ids_steps y y' : steps y y' → prepared_ids y ⊆ prepared_ids y'.
Proof.
  intros Hs id (q & -> & (v & k & e & He & ->)%prepared_requests_elem)%list_elem_of_fmap.
  apply list_elem_of_fmap. exists (request_of e). split; [done|]. apply prepared_requests_elem. exists v, k, e.
  split; [by eapply asteps_sent|done].
Qed.

Lemma log_ids_prepared y i s k e :
  ainv id_set 1 leader y → rep_rel s (a_reps y i) → log_ s !! k = Some e → request_id e ∈ prepared_ids y.
Proof.
  intros Hy (_ & Hlog & _) [_ He]%(log_rel_lookup _ _ _ _ Hlog).
  destruct (held_prepared id_set 1 leader y i _ _ Hy He) as [v Hv].
  apply list_elem_of_fmap. exists (request_of (strip_entry e)). split; [done|]. apply prepared_requests_elem. eauto.
Qed.

(** ** The store of a replica *)

(** The store of replica [i] is [S] with the operations [q] executed over it; [q] are the
    first [last_executed_op_] operations of its log, and [S], left from before recoveries,
    has no keys that the operations [h], executed at some time, do not write. *)
Record store_of (y : asys) (i : Z) (s : ReplicaState) (S : gmap (list byte) (list byte)) (h q : list log_entry) : Prop := {
  kv_store : state_machine_ s = replay S q;
  kv_left : dom S ⊆ dom (replay ∅ h);
  kv_before : solid y i h;
  kv_last : last_executed_op_ s = Z.of_nat (length q);
  kv_ops : solid y i q;
  kv_table : executed_in q (client_table_ s);
  kv_known : known_in (prepared_ids y) (client_table_ s) }.

(** The same, where at most [H] operations had been executed before the last recovery. *)
Definition stored (H : Z) (i : Z) (s : ReplicaState) (y : asys) : Prop :=
  ∃ S h q, store_of y i s S h q ∧ Z.of_nat (length h) ≤ H.

Lemma stored_steps H i s y y' : aok id_set 1 leader y → steps y y' → stored H i s y → stored H i s y'.
Proof.
  intros Hok Hs (S & h & q & [H1 H2 H3 H4 H5 H6 H7] & Hh). exists S, h, q. split; [|done].
  split; try done; [by eapply solid_steps..|]. eapply known_in_mono; [by apply prepared_ids_steps|done].
Qed.

Lemma stored_le H H' i s y : H ≤ H' → stored H i s y → stored H' i s y.
Proof. intros Hle (S & h & q & Hs & Hh). exists S, h, q. split; [done|lia]. Qed.

(** Entries of the log read one after the other. *)
Lemma log_rel_segment log l (n : nat) es :
  log_rel log l → (∀ (k : nat) e, es !! k = Some e → log !! (Z.of_nat n + 1 + Z.of_nat k) = Some e) →
  ∀ q, q `prefix_of` l → length q = n → q ++ (strip_entry <$> es) = take (n + length es) l.
Proof.
  intros Hr Hes q [t ->] Hn. rewrite <- Hn, take_app_add. f_equal. apply list_eq_same_length with (length es).
  - rewrite length_take. destruct (decide (length es ≤ length t)%nat) as [|Hlt]; [lia|]. exfalso.
    destruct (lookup_lt_is_Some_2 es (length t)) as [e He]; [lia|].
    apply Hes, (log_rel_lookup _ _ _ _ Hr) in He as [Hk _]. rewrite length_app in Hk. lia.
  - by rewrite length_fmap.
  - intros k e1 e2 Hk. rewrite list_lookup_fmap_Some. intros (e & -> & He).
    rewrite lookup_take_lt by done. apply Hes, (log_rel_lookup _ _ _ _ Hr) in He as [_ He].
    rewrite lookup_app_r in He by lia. replace (_ - _)%nat with k in He by lia. congruence.
Qed.

(** Where the execution of operations starts. *)
Lemma machine_start H i s y y' base log t :
  aok id_set 1 leader y → steps y y' → stored H i s y →
  (status_ s = ReplicaStatus.RECOVERY → last_executed_op_ s ≤ H) → (∀ k e, log !! k = Some e → request_id e ∈ prepared_ids y') →
  ((base = last_executed_op_ s ∧ derived log t (client_table_ s)) ∨
   (base = 0 ∧ status_ s = ReplicaStatus.RECOVERY ∧ derived log t ∅)) →
  ∃ S h q, state_machine_ s = replay S q ∧ dom S ⊆ dom (replay ∅ h) ∧ solid y' i h ∧ solid y' i q ∧
    base = Z.of_nat (length q) ∧ executed_in q t ∧ known_in (prepared_ids y') t ∧ Z.of_nat (length h) ≤ H.
Proof.
  intros Hok Hs Hst HR Hlog Hb. apply (stored_steps _ _ _ _ _ Hok Hs) in Hst as (S & h & q & [H1 H2 H3 H4 H5 H6 H7] & Hh).
  destruct Hb as [[-> Hw]|(-> & Hr & Hw)].
  - exists S, h, q. split_and!; try done; [by eapply executed_in_derived|by eapply known_in_derived].
  - specialize (HR Hr). pose proof (executed_in_derived [] _ _ _ Hw (executed_in_empty _)) as He.
    pose proof (known_in_derived _ _ _ _ Hw Hlog (known_in_empty _)) as Hk.
    destruct (decide (length h ≤ length q)%nat) as [Hle|Hle].
    + exists (state_machine_ s), q, []. split_and!; try done; [|apply solid_nil|lia].
      rewrite H1, replay_dom_union. pose proof (replay_dom_prefix h q (solid_le _ _ _ _ H3 H5 Hle)). set_solver.
    + exists (state_machine_ s), h, []. split_and!; try done; [|apply solid_nil].
      rewrite H1, replay_dom_union. pose proof (replay_dom_prefix q h (solid_le _ _ _ _ H5 H3 ltac:(lia))). set_solver.
Qed.

(** The operations executed from there on, one after the other. *)
Lemma machine_ops y i s q base commit (es : list log_entry) :
  ainv id_set 1 leader y → rep_rel s (a_reps y i) → solid y i q → base = Z.of_nat (length q) → commit = commit_ s →
  (es = [] ∨ es = ready (S (size (log_ s))) (log_ s) base commit) →
  ∀ j : nat, solid y i (q ++ (strip_entry <$> take j es)).
Proof.
  intros Hy (Ha & Hlog & _) Hq -> -> Hes j.
  assert (∀ (k : nat) e, take j es !! k = Some e → log_ s !! (Z.of_nat (length q) + 1 + Z.of_nat k) = Some e ∧
    Z.of_nat (length q) + 1 + Z.of_nat k ≤ commit_ s) as Hready.
  { intros k e [He _]%lookup_take_Some. revert He. destruct Hes as [->| ->]; [by rewrite lookup_nil|]. apply ready_lookup. }
  pose proof (log_rel_segment _ _ (length q) (take j es) Hlog (λ k e Hk, proj1 (Hready k e Hk)) q (proj1 Hq) eq_refl) as Hseg.
  set (fs := take j es) in *. destruct (decide (length fs = 0)%nat) as [Hz|Hnz].
  { apply nil_length_inv in Hz. rewrite Hz. simpl. by rewrite app_nil_r. }
  assert (length q + length fs ≤ length (a_log (a_reps y i)))%nat as Hle.
  { apply (f_equal length) in Hseg. rewrite length_app, length_fmap, length_take in Hseg. lia. }
  rewrite Hseg. apply solid_take; [done| |done].
  destruct (lookup_lt_is_Some_2 fs (pred (length fs))) as [e0 He0]; [lia|].
  apply Hready in He0 as [_ He0]. rewrite Ha. simpl. lia.
Qed.

(** [o] is the reply to a committed operation, executed after those before it. *)
Definition answered (S : gmap (list byte) (list byte)) (y : asys) (i : Z) (o : output) : Prop :=
  ∃ p e, solid y i (p ++ [e]) ∧ answers o e (replay S p).
Definition served (S : gmap (list byte) (list byte)) (y : asys) (i : Z) (out : list output) : Prop :=
  ∀ o, o ∈ out → no_reply o ∨ answered S y i o.

Lemma served_steps S y y' i out : aok id_set 1 leader y → steps y y' → served S y i out → served S y' i out.
Proof.
  intros Hok Hs H o Ho. destruct (H o Ho) as [?|(p & e & Hp & He)]; [by left|right].
  exists p, e. split; [by eapply solid_steps|done].
Qed.

Lemma served_app S y i o1 o2 : served S y i o1 → served S y i o2 → served S y i (o1 ++ o2).
Proof. intros H1 H2 o [Ho|Ho]%elem_of_app; auto. Qed.

Lemma served_none S y i out : Forall no_reply out → served S y i out.
Proof. intros H o Ho. left. by apply (proj1 (Forall_forall _ _) H). Qed.

Lemma stored_machine H i s s' out y y' :
  aok id_set 1 leader y → steps y y' → ainv id_set 1 leader y' → NoDup (fst <$> prepared_requests (a_sent y')) →
  rep_rel s' (a_reps y' i) → stored H i s y → (status_ s = ReplicaStatus.RECOVERY → last_executed_op_ s ≤ H) →
  machine_step s s' out → ∃ S h q, store_of y' i s' S h q ∧ Z.of_nat (length h) ≤ H ∧ served S y' i out.
Proof.
  intros Hok Hs Hy' Hnd Hrel Hst HR [(base & t & es & Hb & Hm & Hl & Hes & Hout) _].
  pose proof (λ k e, log_ids_prepared y' i s' k e Hy' Hrel) as Hids.
  destruct (machine_start _ _ _ _ _ _ _ _ Hok Hs Hst HR Hids Hb) as (S & h & q & H1 & H2 & H3 & H4 & H5 & H6 & H7 & H8).
  pose proof (machine_ops y' i s' q base _ es Hy' Hrel H4 H5 eq_refl Hes) as Hops.
  assert (∀ j : nat, let m := foldl exec_entry (state_machine_ s, t) (take j es) in
    m.1 = replay S (q ++ (strip_entry <$> take j es)) ∧ executed_in (q ++ (strip_entry <$> take j es)) m.2) as Hrun.
  { intros j. destruct (exec_replay (state_machine_ s) t q (strip_entry <$> take j es)) as [E1 E2]; [|done|].
    - destruct (Hops j) as [[u Hu] _]. pose proof (log_ids_nodup y' i Hy' Hnd) as Hn.
      rewrite Hu, fmap_app in Hn. by apply NoDup_app in Hn as [? _].
    - rewrite foldl_exec_strip in E1, E2. split; [|done]. by rewrite E1, replay_app, <- H1. }
  exists S, h, (q ++ (strip_entry <$> es)). split_and!; [|done|].
  - specialize (Hrun (length es)). specialize (Hops (length es)). rewrite firstn_all in Hrun, Hops.
    rewrite <- Hm in Hrun. destruct Hrun as [E1 E2]. split; try done.
    + rewrite length_app, length_fmap. lia.
    + change (client_table_ s') with (machine_of s').2. rewrite Hm. apply known_in_exec; [|done].
      intros e. destruct Hes as [->| ->]; [by intros ?%not_elem_of_nil|].
      intros [k [He _]%ready_lookup]%list_elem_of_lookup. by eapply Hids.
  - intros o Ho. destruct (Hout o Ho) as [?|(j & e & He & Ha)]; [by left|right].
    exists (q ++ (strip_entry <$> take j es)), (strip_entry e). split.
    + pose proof (Hops (Datatypes.S j)) as Hj. rewrite (take_S_r _ _ _ He), fmap_app, (assoc_L (++)) in Hj. exact Hj.
    + destruct (Hrun j) as [<- _]. exact Ha.
Qed.

Lemma stored_same H i s s' y :
  state_machine_ s' = state_machine_ s → client_table_ s' = client_table_ s → last_executed_op_ s' = last_executed_op_ s →
  stored H i s y → stored H i s' y.
Proof.
  intros E1 E2 E3 (S & h & q & [H1 H2 H3 H4 H5 H6 H7] & Hh). exists S, h, q. split; [|done].
  split; by rewrite ?E1, ?E2, ?E3.
Qed.

(** During an event, a replica that starts to recover has an empty queue and so does not
    go on; at the start of an event no more than [H] operations are executed. *)
Definition store_ok (H : Z) (i : Z) (r : Replica) (y : asys) : Prop :=
  stored H i (state_ r) y ∧
  (status_ (state_ r) = ReplicaStatus.RECOVERY → last_executed_op_ (state_ r) ≤ H ∨ message_queue_ r = []).
Definition store_start (H : Z) (i : Z) (r : Replica) (y : asys) : Prop :=
  stored H i (state_ r) y ∧ last_executed_op_ (state_ r) ≤ H.

Lemma handle_stuck_store env r :
  let r' := (handle_stuck env r).1 in
  state_machine_ (state_ r') = state_machine_ (state_ r) ∧ client_table_ (state_ r') = client_table_ (state_ r) ∧
  last_executed_op_ (state_ r') = last_executed_op_ (state_ r) ∧
  (status_ (state_ r') = ReplicaStatus.RECOVERY → r' = r ∨ message_queue_ r' = []) ∧
  Forall no_reply (handle_stuck env r).2.
Proof.
  cbv zeta. unfold handle_stuck. destruct (message_queue_ r) as [|front rest]; [by split_and!; auto|].
  case_bool_decide as Hs; [|by split_and!; auto]. destruct (determine_state_action _ _); [by split_and!; auto| |].
  - unfold initiate_view_change, enter_new_view. simpl. case_match; split_and!; try done; by repeat constructor.
  - unfold initiate_recovery. case_bool_decide as Hr; simpl; split_and!; auto; by repeat constructor.
Qed.

(** Requests are numbered from 1. *)
Definition from_one (B : list request) : Prop := Forall (λ q, 1 ≤ q.1.2) B.

(** With nothing executed before a recovery, nothing is left. *)
Lemma left_empty S h (y : asys) i s q : store_of y i s S h q → Z.of_nat (length h) ≤ 0 → S = ∅.
Proof.
  intros [_ Hd _ _ _ _ _] Hh. destruct h; [|simpl in Hh; lia]. apply dom_empty_inv_L. set_solver.
Qed.

Section requests.
Context (env : Env) (B : list request) (N : Z) (HB : NoDup (fst <$> B)) (HN : N < 2 ^ 32).

Lemma sim_prepared_nodup x y : sim B N x y → NoDup (fst <$> prepared_requests (a_sent y)).
Proof.
  intros Hsim. destruct (submseteq_Permutation _ _ (sm_requests _ _ _ _ Hsim)) as [u Hu].
  rewrite Hu, !fmap_app, !NoDup_app in HB. by destruct HB as [[? _] _].
Qed.

(** So no duplicate is answered from the client table. *)
Lemma no_duplicate H i x y front rest :
  from_one B → sim B N x y → i ∈ cluster_ids → message_queue_ (rep x i) = front :: rest →
  stored H i (state_ (rep x i)) y → ¬ duplicate front (state_ (rep x i)).
Proof.
  intros Hnum Hsim Hi Hq (S & h & q & [_ _ _ _ _ _ Hk] & _) [Hcmd Heq].
  pose proof (sm_requests _ _ _ _ Hsim) as Hsub. set (m := ib_message front) in *.
  assert (((h_client (header m), h_request (header m)), (h_operation (header m), payload m)) ∈ waiting_requests x) as Hw.
  { apply list_elem_of_In, in_concat. exists (queued_requests (rep x i)). split; apply list_elem_of_In.
    - apply list_elem_of_fmap. eauto.
    - unfold queued_requests. rewrite Hq. simpl. unfold message_request. fold m. rewrite bool_decide_true by done. by left. }
  assert (1 ≤ h_request (header m)) as Hge.
  { assert (∀ q, q ∈ waiting_requests x → q ∈ B) as HwB
      by (intros q' Hq'; eapply elem_of_submseteq; [|exact Hsub]; apply elem_of_app; by right).
    apply HwB in Hw. by apply (proj1 (Forall_forall _ _) Hnum) in Hw. }
  destruct (submseteq_Permutation _ _ Hsub) as [u Hu]. pose proof HB as HB'. rewrite Hu, !fmap_app, !NoDup_app in HB'.
  destruct HB' as [(_ & Hd & _) _]. unfold client_entry in Heq.
  destruct (client_table_ (state_ (rep x i)) !! h_client (header m)) as [ce|] eqn:Hce; simpl in Heq; [|lia].
  destruct (Hk _ _ Hce) as [Hz|Hin]; [lia|]. apply (Hd _ Hin). rewrite Heq. apply list_elem_of_fmap. eexists; split; [|exact Hw]. done.
Qed.

Lemma store_micro H x y x' y' i out :
  sim B N x y → sim B N x' y' → steps y y' → i ∈ cluster_ids →
  micro env (rep x i) out (rep x' i) → store_ok H i (rep x i) y →
  store_ok H i (rep x' i) y' ∧ (H = 0 → from_one B → served ∅ y' i out).
Proof.
  intros Hsim Hsim' Hs Hi Hm [Hst HR]. pose proof (sim_prepared_nodup _ _ Hsim') as Hnd.
  pose proof (gd_inv _ (sm_good _ _ _ _ Hsim)) as Hok. pose proof (gd_inv _ (sm_good _ _ _ _ Hsim')) as [Hy' _].
  pose proof (sm_rep _ _ _ _ Hsim' i Hi) as Hrep'. pose proof (sm_budget _ _ _ _ Hsim') as Hb'.
  pose proof (bd_commit _ (gd_bounded _ (sm_good _ _ _ _ Hsim')) i) as Hc'. pose proof (waiting_nonneg x') as Hw'.
  assert (is_u64 (commit_ (state_ (rep x' i)))) as Hcom by (destruct Hrep' as (Ha & _); rewrite Ha in Hc'; simpl in Hc'; rlia).
  assert (is_u64 (last_executed_op_ (state_ (rep x i)))) as Hlast.
  { destruct Hst as (S & h & q & [_ _ _ -> [Hq _] _ _] & _). apply prefix_length in Hq.
    pose proof (bd_log _ (gd_bounded _ (sm_good _ _ _ _ Hsim)) i). pose proof (sm_budget _ _ _ _ Hsim).
    pose proof (waiting_nonneg x). rlia. }
  pose proof (λ front rest Hn Hq, no_duplicate H i x y front rest Hn Hsim Hi Hq Hst) as Hdup.
  remember (rep x i) as r eqn:Er. remember (rep x' i) as r' eqn:Er'. clear Er Er'.
  destruct Hm as [r front rest Hq _|r front rest r' out Hq _ Hcan Hd|r front rest r' out Hq _ _ _ Hh];
    rewrite Hq in HR; (assert (status_ (state_ r) = ReplicaStatus.RECOVERY → last_executed_op_ (state_ r) ≤ H) as HR'
      by (intros Hr; by destruct (HR Hr))).
  - split; [|intros _ _; by apply served_none]. split; [by eapply stored_steps|]. intros Hr. left. by apply HR'.
  - set (r0 := r <| message_queue_ := rest |>) in *.
    pose proof (dispatch_machine env front r0 Hcan Hlast) as Hms.
    rewrite Hd in Hms. destruct (Hms Hcom) as (o & Hmo & Ho). cbn [fst snd] in Hmo, Ho.
    destruct (stored_machine H i (state_ r) (state_ r') o y y' Hok Hs Hy' Hnd Hrep' Hst HR' Hmo) as (S & h & q & Hso & Hh & Hserved).
    split; [split|].
    + by exists S, h, q.
    + intros Hr. left. destruct (ms_status _ _ _ Hmo Hr) as [H1 H2]. rewrite H2. by apply HR'.
    + intros -> Hnum. rewrite <- (left_empty _ _ _ _ _ _ Hso Hh). destruct Ho as [<-|Ho]; [done|].
      by destruct (Hdup front rest Hnum Hq).
  - pose proof (handle_stuck_store env r) as (E1 & E2 & E3 & E4 & E5). rewrite Hh in E1, E2, E3, E4, E5. cbn [fst snd] in *.
    split; [|intros _ _; by apply served_none]. split.
    + by apply (stored_same _ _ (state_ r)), (stored_steps _ _ _ y).
    + intros Hr. rewrite E3. destruct (E4 Hr) as [-> |?]; [left; by apply HR'|by right].
Qed.

(** What holds during an event of replica [i]: if its store is the replay of the log at
    the start, so are its replies. *)
Definition store_told (H : Z) (i : Z) (out : list output) (r : Replica) (y : asys) : Prop :=
  store_ok H i r y ∧ (H = 0 → from_one B → served ∅ y i out).

Lemma store_follows H i : i ∈ cluster_ids → follows B env N i (store_told H i).
Proof.
  intros Hi x y x' y' o out Hsim Hsim' Hs Hl [[Hst HR] Hsv].
  pose proof (gd_inv _ (sm_good _ _ _ _ Hsim)) as Hok.
  assert (∀ s', state_machine_ s' = state_machine_ (state_ (rep x i)) → client_table_ s' = client_table_ (state_ (rep x i)) →
    last_executed_op_ s' = last_executed_op_ (state_ (rep x i)) → stored H i s' y') as Hsame
    by (intros s' E1 E2 E3; by apply (stored_same _ _ (state_ (rep x i))), (stored_steps _ _ _ y)).
  assert ((H = 0 → from_one B → served ∅ y' i out) → H = 0 → from_one B → served ∅ y' i (o ++ out)) as Happ.
  { intros H1 H2 H3. apply served_app; [|by apply H1]. eapply served_steps; [exact Hok|exact Hs|by apply Hsv]. }
  destruct Hl as [Hm|(Hno & r0 & E1 & E2 & Hr)].
  - destruct (store_micro H x y x' y' i out) as [H1 H2]; try done. split; [done|by apply Happ].
  - split; [|apply Happ; intros _ _; by apply served_none]. destruct Hr as [Hr|Hr]; rewrite Hr.
    + split; [by apply Hsame; rewrite E1|]. by rewrite E1, E2.
    + unfold initiate_view_change, enter_new_view. split; [|done]. apply Hsame; simpl; case_match; by rewrite E1.
Qed.
End requests.

(** ** Runs *)

(** How many operations replica [i] counts as executed after the events [ces]. *)
Definition executed_by (env : Env) (i : Z) (ces : list cluster_event) : Z :=
  default 0 (last_executed_op_ <$> state_of i (cluster_run env ces (new_cluster env))).

(** It is as many as ever before: after a recovery, which may adopt a smaller commit
    number than the replica had before, it has caught up again. *)
Definition caught_up (env : Env) (i : Z) (ces : list cluster_event) : Prop :=
  ∀ ces0, ces0 `prefix_of` ces → executed_by env i ces0 ≤ executed_by env i ces.

(** The replica has caught up and is not recovering. *)
Definition settled (env : Env) (i : Z) (ces : list cluster_event) : Prop :=
  caught_up env i ces ∧
  ∀ s, state_of i (cluster_run env ces (new_cluster env)) = Some s → status_ s ≠ ReplicaStatus.RECOVERY.

Lemma caught_up_check env i ces :
  forallb (λ n, executed_by env i (take n ces) <=? executed_by env i ces) (seq 0 (length ces)) = true →
  caught_up env i ces.
Proof.
  intros H ces0 [t ->]. destruct t as [|ce t]; [rewrite app_nil_r; lia|].
  rewrite forallb_forall in H. specialize (H (length ces0)). rewrite take_app_length in H.
  apply Z.leb_le, H, in_seq. rewrite length_app. simpl. lia.
Qed.

#[export] Instance settled_dec env i ces : Decision (settled env i ces).
Proof.
  refine (cast_if_and
    (decide (Forall (λ n, executed_by env i (take n ces) ≤ executed_by env i ces) (seq 0 (length ces))))
    (decide ((status_ <$> state_of i (cluster_run env ces (new_cluster env))) ≠ Some ReplicaStatus.RECOVERY))).
  - rename select (Forall _ _) into Hf. rename select (_ ≠ _) into Hs. split.
    + apply caught_up_check, forallb_forall. intros n Hn. rewrite Forall_forall in Hf.
      by apply Z.leb_le, Hf, list_elem_of_In.
    + intros s Hst Hr. apply Hs. by rewrite Hst, <- Hr.
  - intros [_ Hs]. rename select (¬ _) into Hn. apply Hn. intros Hr. apply fmap_Some in Hr as (s & Hst & Hr). by eapply Hs.
  - intros [Hc _]. rename select (¬ _) into Hn. apply Hn, Forall_forall. intros n _. apply Hc, prefix_take.
Defined.

Section runs.
Context (env : Env).

Record kept (ces : list cluster_event) (y : asys) : Prop := {
  kp_linked : linked (run_requests ces) (Z.of_nat (length ces)) (cluster_run env ces (new_cluster env)) y;
  kp_stores : ∃ H : Z → Z, ∀ i, i ∈ cluster_ids →
    store_start (H i) i (rep (system_of (cluster_run env ces (new_cluster env))) i) y ∧
    ∃ ces0, ces0 `prefix_of` ces ∧ H i ≤ executed_by env i ces0 }.

Lemma executed_rep c y B N ces i :
  c = cluster_run env ces (new_cluster env) → linked B N c y → i ∈ cluster_ids →
  executed_by env i ces = last_executed_op_ (state_ (rep (system_of c) i)).
Proof.
  intros -> Hl Hi. unfold executed_by, state_of. simpl. apply (lk_members _ _ _ _ Hl) in Hi as [r ->]. done.
Qed.

Lemma kept_initial : kept [] ainit.
Proof.
  split; [apply initial_linked|]. exists (λ _, 0). intros i Hi. simpl cluster_run. rewrite initial_replica by done.
  split; [|exists []; split; [done|]].
  - split; [|done]. exists ∅, [], []. split; [|done]. split; try done; try apply solid_nil.
  - rewrite (executed_rep _ _ _ _ [] i eq_refl (initial_linked env) Hi). simpl cluster_run. by rewrite initial_replica.
Qed.

(** What is left from before recoveries does not matter in a replica that has caught up. *)
Lemma caught_up_stored ces y i :
  kept ces y → i ∈ cluster_ids → caught_up env i ces →
  stored 0 i (state_ (rep (system_of (cluster_run env ces (new_cluster env))) i)) y.
Proof.
  intros [Hl [H HH]] Hi Hc. destruct (HH i Hi) as [[(S & h & q & [H1 H2 H3 H4 H5 H6 H7] & Hh) _] (ces0 & Hp & Hle)].
  apply Hc in Hp. rewrite (executed_rep _ _ _ _ ces i eq_refl Hl Hi), H4 in Hp.
  exists ∅, [], q. split; [|done]. split; try done; [|apply solid_nil]. rewrite H1. apply replay_over. etrans; [exact H2|].
  apply replay_dom_prefix, (solid_le y i); [done|done|lia].
Qed.

(** What is followed through an event after [ces]. *)
Definition event_told (ces : list cluster_event) (H : Z → Z) (i : Z) (out : list output) (r : Replica) (y : asys) : Prop :=
  store_told (run_requests ces) (H i) i out r y ∧
  (settled env i ces → store_told (run_requests ces) 0 i out r y).
Definition event_start (ces : list cluster_event) (H : Z → Z) (i : Z) (r : Replica) (y : asys) : Prop :=
  store_start (H i) i r y ∧ (settled env i ces → stored 0 i (state_ r) y ∧ status_ (state_ r) ≠ ReplicaStatus.RECOVERY).

Lemma event_tracked ces H N :
  NoDup (fst <$> run_requests ces) → N < 2 ^ 32 → tracked env (run_requests ces) N (event_told ces H) (event_start ces H).
Proof.
  intros Hnd HN. split.
  - intros i r z [[H1 H2] H3]. split; [|intros Hse; destruct (H3 Hse) as [H4 H5]];
      (split; [split; [done|]|intros _ _; by apply served_none]); [intros _; by left|done].
  - intros i Hi x y x' y' o out Hsim Hsim' Hs Hl [H1 H2].
    pose proof (λ H, store_follows env (run_requests ces) N Hnd HN H i Hi x y x' y' o out Hsim Hsim' Hs Hl) as HF.
    split; [by apply HF|]. intros Hse. by apply HF, H2.
  - intros i r r' z z' Hok Hsz E [[H1 H2] H3]. split; [split|intros Hse; destruct (H3 Hse) as [H4 H5]; split]; rewrite E; try done;
      by eapply stored_steps.
Qed.

Lemma kept_step ces ce y :
  kept ces y → Z.of_nat (length (ces ++ [ce])) < 2 ^ 32 → admissible ce → NoDup (fst <$> run_requests ces) →
  ∃ y', steps y y' ∧ kept (ces ++ [ce]) y' ∧
    (from_one (run_requests ces) → ∀ i, i ∈ cluster_ids → settled env i ces →
     served ∅ y' i (event_outputs env i ce (cluster_run env ces (new_cluster env)))).
Proof.
  rewrite length_app. simpl. intros Hk Hlen Had Hnd. pose proof Hk as [Hl [H HH]]. set (c := cluster_run env ces (new_cluster env)) in *.
  destruct (step_linked env _ _ c y ce (event_told ces H) (event_start ces H) Hl) as (y' & Hs & Hl' & Hst); [lia|done| | |].
  - by apply event_tracked; [|lia].
  - intros i Hi. split; [by apply HH|]. intros [Hse1 Hse2]. split; [by apply (caught_up_stored ces)|].
    apply Hse2. unfold state_of. simpl. fold c. by apply (lk_members _ _ _ _ Hl) in Hi as [r ->].
  - exists y'. split_and!; [done| |intros Hnum i Hi Hse; by apply (Hst i Hi)].
    assert (cluster_run env (ces ++ [ce]) (new_cluster env) = cluster_step env ce c) as Hrun
      by (unfold cluster_run; rewrite foldl_app; done).
    assert (linked (run_requests (ces ++ [ce])) (Z.of_nat (length (ces ++ [ce]))) (cluster_step env ce c) y') as Hl1.
    { unfold run_requests. rewrite fmap_app, concat_app, length_app. simpl. rewrite app_nil_r.
      by replace (Z.of_nat (length ces + 1)) with (Z.of_nat (length ces) + 1) by lia. }
    split; rewrite Hrun; [done|].
    exists (λ i, Z.max (H i) (last_executed_op_ (state_ (rep (system_of (cluster_step env ce c)) i)))).
    intros i Hi. destruct (Hst i Hi) as [[[H1 H2] _] _]. split; [split; [|lia]|].
    + eapply stored_le; [|exact H1]. lia.
    + destruct (Z.max_spec (H i) (last_executed_op_ (state_ (rep (system_of (cluster_step env ce c)) i)))) as [[_ ->]|[_ ->]].
      * exists (ces ++ [ce]). split; [done|]. by rewrite (executed_rep _ _ _ _ (ces ++ [ce]) i (eq_sym Hrun) Hl1 Hi).
      * destruct (HH i Hi) as [_ (ces0 & Hp & Hle)]. exists ces0. split; [by apply prefix_app_r|done].
Qed.

Lemma kept_run ces2 ces1 y :
  kept ces1 y → Z.of_nat (length (ces1 ++ ces2)) < 2 ^ 32 → Forall admissible ces2 → NoDup (fst <$> run_requests (ces1 ++ ces2)) →
  ∃ y', steps y y' ∧ kept (ces1 ++ ces2) y'.
Proof.
  revert ces1 y. induction ces2 as [|ce ces2 IH]; intros ces1 y Hk Hlen Had Hnd.
  { exists y. rewrite app_nil_r. split; [apply rtc_refl|done]. }
  apply Forall_cons in Had as [Hce Had]. rewrite (cons_middle ce), (assoc_L (++)) in *.
  destruct (kept_step ces1 ce y Hk) as (y1 & Hs1 & Hk1 & _); [rewrite length_app in Hlen; lia|done| |].
  { rewrite !run_requests_app, !fmap_app, !NoDup_app in Hnd. by destruct Hnd as [[? _] _]. }
  destruct (IH _ y1 Hk1 Hlen Had Hnd) as (y2 & Hs2 & Hk2). exists y2. split; [by etrans|done].
Qed.
End runs.

(** Operations committed at two replicas, at the same time or one later than the other,
    agree as far as both go. *)
Lemma solid_agree y y' i j p q :
  aok id_set 1 leader y → steps y y' → solid y i p → solid y' j q → length p = length q → p = q.
Proof.
  intros Hok Hs Hp [_ Hq] Hlen. destruct Hq as [->|(v' & Hv' & Hq)]; [by apply nil_length_inv|].
  destruct Hp as [_ [->|(v & Hv & Hp)]]; [symmetry; by apply nil_length_inv|].
  destruct (asteps_ok id_set 1 leader leader_in y y' Hok Hs) as [Hy' _].
  eapply is_committed_mono in Hp; [|intros m; by apply (asteps_sent id_set 1 leader y y' m)].
  destruct (decide (v ≤ v')).
  - eapply (committed_agree id_set 1 leader id_quorums_meet y' Hy'); [done|done|lia|done].
  - symmetry. eapply (committed_agree id_set 1 leader id_quorums_meet y' Hy'); [done|done|lia|done].
Qed.

(** The store of a replica that has caught up. *)
Lemma caught_up_store env ces y i s :
  kept env ces y → state_of i (cluster_run env ces (new_cluster env)) = Some s → caught_up env i ces →
  ∃ q, solid y i q ∧ last_executed_op_ s = Z.of_nat (length q) ∧ state_machine_ s = replay ∅ q ∧
    rep_rel s (a_reps y i).
Proof.
  intros Hk Hs Hc. pose proof (kp_linked _ _ _ Hk) as Hl.
  unfold state_of in Hs. destruct (cl_replicas _ !! i) as [r|] eqn:Hr; [|done]. injection Hs as <-.
  assert (i ∈ cluster_ids) as Hi by (apply (lk_members _ _ _ _ Hl); eauto).
  assert (rep (system_of (cluster_run env ces (new_cluster env))) i = r) as Hrep by (simpl; by rewrite Hr).
  destruct (caught_up_stored env ces y i Hk Hi Hc) as (S & h & q & Hso & Hh). rewrite Hrep in Hso.
  pose proof (left_empty _ _ _ _ _ _ Hso Hh) as ->. destruct Hso as [H1 H2 H3 H4 H5 H6 H7].
  pose proof (sm_rep _ _ _ _ (lk_sim _ _ _ _ Hl) i Hi) as Hrel. rewrite Hrep in Hrel. by exists q.
Qed.

Lemma caught_up_agree env ces1 ces2 y1 y2 i j s1 s2 :
  kept env ces1 y1 → steps y1 y2 → kept env ces2 y2 →
  state_of i (cluster_run env ces1 (new_cluster env)) = Some s1 → caught_up env i ces1 →
  state_of j (cluster_run env ces2 (new_cluster env)) = Some s2 → caught_up env j ces2 →
  last_executed_op_ s1 = last_executed_op_ s2 → state_machine_ s1 = state_machine_ s2.
Proof.
  intros Hk1 Hst Hk2 Hs1 Hc1 Hs2 Hc2 Heq.
  destruct (caught_up_store _ _ _ _ _ Hk1 Hs1 Hc1) as (q1 & Hq1 & Hl1 & -> & _).
  destruct (caught_up_store _ _ _ _ _ Hk2 Hs2 Hc2) as (q2 & Hq2 & Hl2 & -> & _).
  f_equal. eapply solid_agree; [|exact Hst|exact Hq1|exact Hq2|lia].
  apply (gd_inv _ (sm_good _ _ _ _ (lk_sim _ _ _ _ (kp_linked _ _ _ Hk1)))).
Qed.

(** Two states of a run in which no request is sent twice. *)
Lemma kept_two env ces1 ces2 :
  Forall admissible (ces1 ++ ces2) → Z.of_nat (length (ces1 ++ ces2)) < 2 ^ 32 → NoDup (fst <$> run_requests (ces1 ++ ces2)) →
  ∃ y1 y2, kept env ces1 y1 ∧ steps y1 y2 ∧ kept env (ces1 ++ ces2) y2.
Proof.
  intros [Had1 Had2]%Forall_app Hlen Hnd.
  destruct (kept_run env ces1 [] ainit (kept_initial env)) as (y1 & _ & Hk1); [rewrite length_app in Hlen; simpl; lia|done| |].
  { rewrite run_requests_app, fmap_app, NoDup_app in Hnd. by destruct Hnd as [? _]. }
  destruct (kept_run env ces2 ces1 y1 Hk1 Hlen Had2 Hnd) as (y2 & Hst & Hk2). eauto.
Qed.

(** The entries of a log that are ready, in a log that has them. *)
Lemma ready_rel log l (k n : nat) :
  log_rel log l → (k ≤ n ≤ length l)%nat →
  strip_entry <$> ready (S (size log)) log (Z.of_nat k) (Z.of_nat n) = drop k (take n l).
Proof.
  intros Hr Hn. set (es := ready (S (size log)) log (Z.of_nat k) (Z.of_nat n)).
  assert (length es = n - k)%nat as Hlen.
  { pose proof (ready_length (S (size log)) log (Z.of_nat k) (Z.of_nat n) ltac:(lia)) as Hle. fold es in Hle.
    pose proof (ready_size (S (size log)) log (Z.of_nat k) (Z.of_nat n)) as Hsz. fold es in Hsz.
    destruct (ready_maximal (S (size log)) log (Z.of_nat k) (Z.of_nat n)) as [Hm|Hm];
      [lia|fold es; lia|fold es in Hm; lia|fold es in Hm].
    destruct (decide (n - k ≤ length es)%nat) as [|Hlt]; [lia|]. exfalso.
    specialize (Hr (Z.of_nat k + Z.of_nat (length es) + 1)). rewrite Hm, decide_True in Hr by lia. simpl in Hr.
    symmetry in Hr. apply lookup_ge_None in Hr. lia. }
  assert (take k l ++ (strip_entry <$> es) = take (k + length es) l) as Hseg.
  { apply (log_rel_segment log l k es); [done| |apply prefix_take|rewrite length_take; lia].
    intros j e He. by apply ready_lookup in He as [He _]. }
  apply (f_equal (drop k)) in Hseg. rewrite drop_app_length' in Hseg by (rewrite length_take; lia).
  rewrite Hseg. do 2 f_equal. lia.
Qed.

(** The first [n] entries of a log that has them. *)
Lemma committed_prefix_rel log l q :
  log_rel log l → q `prefix_of` l → strip_entry <$> committed_prefix log (Z.of_nat (length q)) = q.
Proof.
  intros Hr [u ->]. unfold committed_prefix. rewrite (ready_rel log (q ++ u) 0) by (rewrite ?length_app; done || lia).
  by rewrite drop_0, take_app_length.
Qed.

(** ** A request that is prepared twice *)

(** A backup that has executed the operations [done] of its log and not yet [todo]. *)
Record backup_at (s : ReplicaState) (done todo : list log_entry) : Prop := {
  ba_log : log_rel (log_ s) (done ++ todo);
  ba_op : op_ s = Z.of_nat (length (done ++ todo));
  ba_last : last_executed_op_ s = Z.of_nat (length done);
  ba_commit : commit_ s ≤ Z.of_nat (length (done ++ todo));
  ba_table : executed_in done (client_table_ s) }.

(** The entry that a Prepare adds to the log. *)
Definition prepared_entry (s : ReplicaState) (m : vsr_message) : log_entry :=
  {| le_view := view_ s; le_op_type := h_operation (header m); le_client_id := h_client (header m);
     le_request_num := h_request (header m); le_payload := payload m; le_acks := ∅ |}.

(** A backup prepares the next operation and then learns that it is committed. *)
Definition prepare_and_commit (env : Env) (pm cm : inbound_message) (r : Replica) : ReplicaState :=
  state_ (handle_commit env cm (handle_prepare env pm r).1).1.

Lemma prepare_and_commit_spec env pm cm r done todo :
  let s := state_ r in let n := Z.of_nat (length (done ++ todo)) + 1 in
  let e := prepared_entry s (ib_message pm) in
  backup_at s done todo → n < 2 ^ 64 →
  h_commit (header (ib_message pm)) ≤ commit_ s → h_commit (header (ib_message cm)) = n →
  let s' := prepare_and_commit env pm cm r in
  machine_of s' = foldl exec_entry (state_machine_ s,
    <[le_client_id e := {| request_number := le_request_num e; executed := false; result := [] |}]> (client_table_ s)) (todo ++ [e]) ∧
  last_executed_op_ s' = n ∧ log_rel (log_ s') (done ++ todo ++ [e]).
Proof.
  cbv zeta. intros [H1 H2 H3 H4 H5] Hn Hp Hc. unfold prepare_and_commit, handle_prepare. cbv zeta.
  set (e := prepared_entry (state_ r) (ib_message pm)). set (l := done ++ todo) in *.
  assert (u64 (op_ (state_ r) + 1) = Z.of_nat (length l) + 1) as Hop by (rewrite H2; apply u64_small; rlia).
  destruct (_ <? _) eqn:Hlt; [apply Z.ltb_lt in Hlt; simpl in Hlt; lia|]. clear Hlt. unfold handle_commit. cbv zeta.
  destruct (_ <? _) eqn:Hlt; [|apply Z.ltb_ge in Hlt; simpl in Hlt; lia]. clear Hlt.
  match goal with |- context [execute_commited_ops ?r1] => set (r2 := r1) end.
  assert (log_rel (log_ (state_ r2)) (l ++ [e])) as Hlog by (apply (log_rel_snoc _ _ _ e); [done|exact Hop]).
  assert (last_executed_op_ (state_ r2) = Z.of_nat (length done) ∧ commit_ (state_ r2) = Z.of_nat (length (l ++ [e]))) as [Hl2 Hc2].
  { split; [exact H3|]. rewrite length_app. simpl. lia. }
  assert (strip_entry <$> ready_entries (state_ r2) = todo ++ [e]) as Hes.
  { unfold ready_entries. rewrite Hl2, Hc2, (ready_rel _ (l ++ [e])) by (try done; unfold l; rewrite !length_app; lia).
    rewrite take_ge by done. unfold l. by rewrite <- (assoc_L (++)), drop_app_length. }
  rewrite execute_commited_ops_spec by (rewrite ?Hl2, ?Hc2; unfold l in *; rewrite ?length_app in *; simpl; rlia).
  split_and!.
  - rewrite machine_of_with, <- foldl_exec_strip, Hes. reflexivity.
  - simpl. apply (f_equal length) in Hes. rewrite length_fmap, length_app in Hes. simpl in Hes.
    unfold l. rewrite Hes, length_app. simpl in Hl2. rewrite Hl2. lia.
  - rewrite (assoc_L (++)). exact Hlog.
Qed.

(** Entries of other clients do not touch the table entry of [c]. *)
Lemma exec_others c m es :
  Forall (λ f, le_client_id f ≠ c) es → (foldl exec_entry m es).2 !! c = m.2 !! c.
Proof.
  revert m. induction es as [|f es IH]; intros m; [done|]. intros [Hf Hes]%Forall_cons. simpl. rewrite IH by done.
  unfold exec_entry. destruct (negb _ || negb _); [destruct (apply_operation _ _ _)|]; simpl; by rewrite lookup_insert_ne.
Qed.

(** An operation that is executed among others is passed over afterwards. *)
Lemma exec_passed_over S t q es1 e es2 e' :
  NoDup (request_id <$> q ++ es1 ++ e :: es2) → executed_in q t → Forall (λ f, le_client_id f ≠ le_client_id e) es2 →
  request_id e' = request_id e →
  (foldl exec_entry (S, t) ((es1 ++ e :: es2) ++ [e'])).1 = replay S (es1 ++ e :: es2).
Proof.
  intros Hnd Ht Hoth Hid. destruct (exec_replay S t q (es1 ++ e :: es2)) as [E1 _]; [done|done|].
  rewrite foldl_app. cbn [foldl]. injection Hid as Hc Hn.
  assert (∃ ce, (foldl exec_entry (S, t) (es1 ++ e :: es2)).2 !! le_client_id e' = Some ce ∧
    request_number ce = le_request_num e' ∧ executed ce = true) as (ce & H1 & H2 & H3).
  { rewrite foldl_app. cbn [foldl]. rewrite Hc, Hn, exec_others by done. apply exec_entry_executed. }
  by rewrite (exec_entry_skip _ _ ce).
Qed.

(** An operation whose request is not marked as executed is applied. *)
Lemma exec_applied S t q es e :
  NoDup (request_id <$> q ++ es ++ [e]) → executed_in q t →
  (foldl exec_entry (S, t) (es ++ [e])).1 = (apply_operation (le_op_type e) (le_payload e) (replay S es)).1.
Proof. intros Hnd Ht. destruct (exec_replay S t q (es ++ [e])) as [-> _]; [done|done|]. by rewrite replay_app. Qed.

(** A request that is entered again as not executed. *)
Lemma executed_in_reset q1 e q2 t ce :
  executed ce = false → executed_in (q1 ++ e :: q2) t → executed_in (q1 ++ q2) (<[le_client_id e := ce]> t).
Proof.
  intros Hce Ht c ce'. rewrite lookup_insert_Some. intros [[_ <-]|[Hne Hc]] Hx; [congruence|].
  specialize (Ht c ce' Hc Hx). rewrite fmap_app, elem_of_app, fmap_cons, elem_of_cons in Ht.
  rewrite fmap_app, elem_of_app. destruct Ht as [?|[Heq|?]]; [by left| |by right].
  destruct Hne. unfold request_id in Heq. congruence.
Qed.

(** ** Properties *)

(** C5: The store is the replay of the log: if clients never send a request twice and no
    process is restarted, then whatever messages are lost or delayed and however many
    timeouts, view changes and recoveries there are, the store of a replica that has
    caught up with itself is what executing operations [1] to [last_executed_op_] of its
    log from the empty store gives, each once and in order. *)
Theorem store_is_replay env ces i s :
  Forall admissible ces → Z.of_nat (length ces) < 2 ^ 32 → NoDup (fst <$> run_requests ces) →
  state_of i (cluster_run env ces (new_cluster env)) = Some s → caught_up env i ces →
  let es := committed_prefix (log_ s) (last_executed_op_ s) in
  last_executed_op_ s = Z.of_nat (length es) ∧ state_machine_ s = replay ∅ es.
Proof.
  intros Had Hlen Hnd Hs Hc. destruct (kept_run env ces [] ainit (kept_initial env) Hlen Had Hnd) as (y & _ & Hk).
  destruct (caught_up_store _ _ _ _ _ Hk Hs Hc) as (q & [Hq _] & Hl & Hm & _ & Hlog & _). cbv zeta.
  pose proof (committed_prefix_rel _ _ _ Hlog Hq) as Hes. rewrite <- Hl in Hes. split.
  - apply (f_equal length) in Hes. rewrite length_fmap in Hes. lia.
  - rewrite Hm, <- Hes. apply replay_strip.
Qed.

(** C4: Stores agree: if clients never send a request twice and no process is restarted,
    two replicas that have caught up with themselves and count the same number of
    operations as executed hold the same store, also when they do so at different times. *)
Theorem stores_agree env ces1 ces2 i j s1 s2 :
  Forall admissible (ces1 ++ ces2) → Z.of_nat (length (ces1 ++ ces2)) < 2 ^ 32 → NoDup (fst <$> run_requests (ces1 ++ ces2)) →
  state_of i (cluster_run env ces1 (new_cluster env)) = Some s1 → caught_up env i ces1 →
  state_of j (cluster_run env (ces1 ++ ces2) (new_cluster env)) = Some s2 → caught_up env j (ces1 ++ ces2) →
  last_executed_op_ s1 = last_executed_op_ s2 → state_machine_ s1 = state_machine_ s2.
Proof.
  intros Had Hlen Hnd Hs1 Hc1 Hs2 Hc2. destruct (kept_two env ces1 ces2 Had Hlen Hnd) as (y1 & y2 & Hk1 & Hst & Hk2).
  by eapply (caught_up_agree env ces1 (ces1 ++ ces2) y1 y2).
Qed.

(** ** A request sent twice *)


(** The first client's write reaches replica 2; replica 0 commits, executes and answers
    it.  The answer may be lost. *)
Definition first_write : list cluster_event :=
  [ce_client 0 100 (client_request (U128 1 1) (lit "x 1")); ce_process 0; ce_lose 0; ce_deliver 0; ce_process 2;
   ce_deliver 0; ce_process 0].

(** Replicas 1 and 2 time out and change to view 1, where replica 1 adopts the log of
    replica 2; replica 0 follows. *)
Definition to_view_1 : list cluster_event :=
  [ce_liveness 1; ce_liveness 2; ce_deliver 0; ce_process 0; ce_lose 1; ce_deliver 0; ce_deliver 0; ce_process 2; ce_process 1;
   ce_lose 0; ce_lose 0; ce_deliver 0; ce_process 1; ce_deliver 0; ce_process 0; ce_lose 1; ce_deliver 0; ce_process 2].

(** Another client writes, and the first one sends its request again to the new primary;
    all of it is committed everywhere. *)
Definition second_write_and_retry : list cluster_event :=
  [ce_client 1 200 (client_request (U128 2 2) (lit "x 2")); ce_client 1 100 (client_request (U128 1 1) (lit "x 1")); ce_process 1] ++
  replicate 6 (ce_deliver 0) ++ [ce_process 1; ce_process 0; ce_process 2; ce_process 1; ce_process 0; ce_process 2] ++
  replicate 4 (ce_deliver 0) ++ [ce_process 1; ce_process 1; ce_process 1; ce_heartbeat 1; ce_deliver 0; ce_deliver 0; ce_process 0; ce_process 2].

Definition after_retry : list cluster_event := first_write ++ to_view_1 ++ second_write_and_retry.

(** The end of that run: status, counters, log and store of a replica. *)
Definition ends (i : Z) (c : Cluster) (log : option (gmap Z log_entry)) (store : gmap (list byte) (list byte)) : Prop :=
  (λ s, (status_ s, commit_ s, last_executed_op_ s)) <$> state_of i c = Some (ReplicaStatus.NORMAL, 3, 3) ∧
  (λ s, strip_acks (log_ s)) <$> state_of i c = log ∧ state_machine_ <$> state_of i c = Some store.

#[local] Instance ends_dec i c log store : Decision (ends i c log store).
Proof. unfold ends. apply _. Defined.

(** A request sent again after a view change makes stores differ for good.  The new
    primary has not entered the operations of the log it adopted into its client table, so
    it prepares the request a second time, as operation 3.  The new primary and replica 2
    execute operation 1 and pass over operation 3; replica 0, which executed operation 1 in
    the view before, executes operation 3 as well, because [handle_prepare] marks the
    request as not executed.  In the end all replicas have executed the same three
    operations, nothing is under way, and replica 0 holds [x = 1] where the others hold
    [x = 2]. *)
Theorem stores_diverge :
  let c := cluster_run fast_env after_retry (new_cluster fast_env) in
  let log := (λ s, strip_acks (log_ s)) <$> state_of 0 c in
  Forall admissible after_retry ∧ cl_network c = [] ∧
  ends 0 c log {[ lit "x" := lit "1" ]} ∧ ends 1 c log {[ lit "x" := lit "2" ]} ∧ ends 2 c log {[ lit "x" := lit "2" ]}.
Proof.
  cbv zeta. split; [check_admissible|]. split; [vm_compute; reflexivity|].
  apply (bool_decide_unpack _). vm_compute. exact I.
Qed.

(** ** Witnesses *)

(** The second write, without the retry. *)
Definition second_write : list cluster_event :=
  [ce_client 1 200 (client_request (U128 2 2) (lit "x 2")); ce_process 1] ++
  replicate 4 (ce_deliver 0) ++ [ce_process 1; ce_process 0; ce_process 2; ce_process 1] ++
  replicate 2 (ce_deliver 0) ++ [ce_process 1; ce_process 1; ce_heartbeat 1; ce_deliver 0; ce_deliver 0; ce_process 0; ce_process 2].

(** Replica 0, the primary of view 0, ends up with both writes. *)
Lemma store_is_replay_witness :
  ∃ s, state_of 0 (cluster_run fast_env (first_write ++ to_view_1 ++ second_write) (new_cluster fast_env)) = Some s ∧
    state_machine_ s = replay ∅ (committed_prefix (log_ s) 2).
Proof.
  eexists. split; [vm_compute; reflexivity|].
  refine (proj2 (store_is_replay fast_env (first_write ++ to_view_1 ++ second_write) 0 _ _ _ _ _ _));
    [check_admissible|vm_compute; reflexivity| |vm_compute; reflexivity|apply caught_up_check; vm_compute; reflexivity].
  vm_compute. repeat constructor; set_solver.
Defined.

(** The new primary commits the first write in view 1 and then holds the store that
    replica 0 had in view 0. *)
Definition commit_in_view_1 : list cluster_event := to_view_1 ++ [ce_deliver 0; ce_deliver 0; ce_process 1].

Lemma stores_agree_witness :
  ∃ s1 s2, state_of 0 (cluster_run fast_env first_write (new_cluster fast_env)) = Some s1 ∧
    state_of 1 (cluster_run fast_env (first_write ++ commit_in_view_1) (new_cluster fast_env)) = Some s2 ∧
    state_machine_ s1 = state_machine_ s2.
Proof.
  do 2 eexists. split; [vm_compute; reflexivity|]. split; [vm_compute; reflexivity|].
  refine (stores_agree fast_env first_write commit_in_view_1 0 1 _ _ _ _ _ _ _ _ _ _);
    [check_admissible|vm_compute; reflexivity| |vm_compute; reflexivity|apply caught_up_check; vm_compute; reflexivity
    |vm_compute; reflexivity|apply caught_up_check; vm_compute; reflexivity|vm_compute; reflexivity].
  vm_compute. repeat constructor; set_solver.
Defined.

(** Two backups prepare a write of [x = 1] by client 1 and one of [x = 2] by client 2; one
    of them also learns that they are committed.  Then the first write is prepared again. *)
Definition write_x (client : uint128_t) (v : list byte) (commit : Z) : inbound_message :=
  {| ib_connection := Some 0;
     ib_message := {| header := zero_header <| h_command := command.prepare |> <| h_operation := operation.set |>
       <| h_client := client |> <| h_request := 1 |> <| h_commit := commit |>; payload := v |} |}.
Definition committed_until (n : Z) : inbound_message :=
  {| ib_connection := Some 0;
     ib_message := {| header := zero_header <| h_command := command.commit |> <| h_commit := n |>; payload := [] |} |}.

Definition slow_backup : Replica :=
  (handle_prepare fast_env (write_x (U128 2 2) (lit "x 2") 0)
    (handle_prepare fast_env (write_x (U128 1 1) (lit "x 1") 0) (new_replica 2 main_cluster_config)).1).1.
Definition fast_backup : Replica := (handle_commit fast_env (committed_until 2) slow_backup).1.

