(* ===== verification/Replies.v ===== *)
(** * What clients are told

    The replies of the replicas of [src/server/replica.cpp] to clients: all replies of a run
    are results of one sequence of operations, executed one after the other from the empty
    store; an operation comes after all those that were answered before its request was
    sent. *)
From S2P Require Import Prelude Types Serialization KeyValue ReplicaState Replica Execution Handlers Queue Recovery Cluster Protocol Exchange Refinement Agreement Machine Store.

(** ** The agreed sequence of operations *)

(** [p] is a sequence of operations that the protocol has committed. *)
Definition agreed (y : asys) (p : list log_entry) : Prop :=
  p = [] ∨ ∃ v, 0 ≤ v ∧ is_committed id_set 1 leader (a_sent y) v p.

Lemma solid_agreed y i p : solid y i p → agreed y p.
Proof. intros [_ [->|(v & Hv & Hp)]]; [by left|right]. exists v. split; [lia|done]. Qed.

Lemma agreed_steps y y' p : steps y y' → agreed y p → agreed y' p.
Proof.
  intros Hs [->|(v & Hv & Hp)]; [by left|right]. exists v. split; [done|].
  eapply is_committed_mono; [|exact Hp]. intros m. by eapply asteps_sent.
Qed.

(** Two of them: one is a prefix of the other. *)
Lemma agreed_total y p q : ainv id_set 1 leader y → agreed y p → agreed y q → p `prefix_of` q ∨ q `prefix_of` p.
Proof.
  intros Hy [->|(v & Hv & Hp)]; [intros _; left; apply prefix_nil|].
  intros [->|(w & Hw & Hq)]; [right; apply prefix_nil|].
  assert (∀ v w p q, 0 ≤ v ≤ w → is_committed id_set 1 leader (a_sent y) v p → is_committed id_set 1 leader (a_sent y) w q →
    (length p ≤ length q)%nat ∨ v < w → p `prefix_of` q ∨ q `prefix_of` p) as Hgen.
  { clear -Hy. intros v w p q Hvw Hp Hq Hlen. destruct Hq as [(l & Hl & Hql) _].
    apply (prefix_weak_total p q l); [|done]. apply prefix_length in Hql as Hle.
    apply (committed_in_log id_set 1 leader id_quorums_meet y Hy w l v p); [done|done|lia|lia]. }
  destruct (decide (v < w ∨ v = w ∧ (length p ≤ length q)%nat)).
  - apply (Hgen v w p q); [lia|done|done|lia].
  - apply or_comm, (Hgen w v q p); [lia|done|done|lia].
Qed.

(** Its operations were prepared at their places, and are different requests. *)
Lemma agreed_prepared y p k e :
  ainv id_set 1 leader y → agreed y p → p !! k = Some e → ∃ v, APrepare v (S k) e ∈ a_sent y.
Proof.
  intros Hy [->|(v & Hv & (l & Hl & Hpl) & _)] He; [done|].
  eapply (valid_log_prepared id_set 1 leader y v); [done|done|done|by eapply prefix_lookup_Some].
Qed.

Lemma agreed_nodup y p :
  ainv id_set 1 leader y → NoDup (fst <$> prepared_requests (a_sent y)) → agreed y p → NoDup (request_id <$> p).
Proof.
  intros Hy Hnd Hp. eapply prepared_ids_nodup; [exact Hnd|]. intros k e. by apply agreed_prepared.
Qed.

(** Clients sent the requests. *)
Lemma agreed_requested B N c y p k e :
  linked B N c y → agreed y p → p !! k = Some e → request_of e ∈ B.
Proof.
  intros Hl Hp He. destruct (sm_good _ _ _ _ (lk_sim _ _ _ _ Hl)) as [[Hy _] _ _].
  destruct (agreed_prepared y p _ _ Hy Hp He) as [v H].
  eapply elem_of_submseteq; [|apply (sm_requests _ _ _ _ (lk_sim _ _ _ _ Hl))].
  apply elem_of_app. left. apply prepared_requests_elem. eauto.
Qed.

(** Finitely many of them are prefixes of one. *)
Lemma agreed_join {A} (y : asys) (R : A → list log_entry → Prop) (xs : list A) L :
  ainv id_set 1 leader y → agreed y L → (∀ a p q, R a p → p `prefix_of` q → R a q) →
  (∀ a, a ∈ xs → ∃ p, agreed y p ∧ R a p) → ∃ L', agreed y L' ∧ L `prefix_of` L' ∧ ∀ a, a ∈ xs → R a L'.
Proof.
  intros Hy HL Hmono. induction xs as [|a xs IH]; intros Hxs; [exists L; split_and!; [done|done|by intros a ?%not_elem_of_nil]|].
  destruct IH as (L1 & H1 & H2 & H3); [intros b Hb; apply Hxs; by right|].
  destruct (Hxs a) as (p & Hp & Ha); [by left|].
  destruct (agreed_total y L1 p Hy H1 Hp) as [Hpre|Hpre].
  - exists p. split_and!; [done|by etrans|]. intros b [->|Hb]%elem_of_cons; [done|]. eapply Hmono; [by apply H3|done].
  - exists L1. split_and!; [done|done|]. intros b [->|Hb]%elem_of_cons; [|by apply H3]. by eapply Hmono.
Qed.

(** ** Replies *)

(** Reply [m] is explained by the sequence [L] of operations: it answers one of them with
    the result of executing it after the ones before it.  When it is sent, after the
    requests [B], all of these have been requested. *)
Definition explains (B : list request) (m : vsr_message) (L : list log_entry) : Prop :=
  ∃ (k : nat) e, L !! k = Some e ∧
    request_id e = (h_client (header m), h_request (header m)) ∧
    payload m = (apply_operation (le_op_type e) (le_payload e) (replay ∅ (take k L))).2 ∧
    ∀ (j : nat) e', (j ≤ k)%nat → L !! j = Some e' → request_of e' ∈ B.

Lemma explains_prefix B m L L' : explains B m L → L `prefix_of` L' → explains B m L'.
Proof.
  intros (k & e & He & Hid & Hp & HB) [t ->]. pose proof (lookup_lt_Some _ _ _ He) as Hk.
  exists k, e. rewrite take_app_le by lia. split_and!; [by apply lookup_app_l_Some|done|done|].
  intros j e' Hj. rewrite lookup_app_l by lia. by apply HB.
Qed.

Lemma answered_explains B N c y i o :
  linked B N c y → answered ∅ y i o → ∃ L, agreed y L ∧ explains B (out_msg o) L.
Proof.
  intros Hl (p & e & Hp & Hid & Hpay). exists (p ++ [e]). apply solid_agreed in Hp. split; [done|].
  exists (length p), e. rewrite take_app_length, lookup_app_r, Nat.sub_diag by done. split_and!; try done.
  intros j e' _ He'. by eapply agreed_requested.
Qed.

(** The replies a run of events sends, with the requests sent before each: those of
    replicas that have caught up with themselves when they send them. *)
Definition replied (env : Env) (ces : list cluster_event) (B : list request) (m : vsr_message) : Prop :=
  ∃ ces1 ce ces2 i o, ces = ces1 ++ ce :: ces2 ∧ i ∈ cluster_ids ∧ settled env i ces1 ∧
    o ∈ event_outputs env i ce (cluster_run env ces1 (new_cluster env)) ∧
    out_msg o = m ∧ h_command (header m) = command.reply ∧ B = run_requests ces1.

Lemma replied_last env ces ce B m :
  replied env (ces ++ [ce]) B m → replied env ces B m ∨
  ∃ i o, i ∈ cluster_ids ∧ settled env i ces ∧ o ∈ event_outputs env i ce (cluster_run env ces (new_cluster env)) ∧
    out_msg o = m ∧ h_command (header m) = command.reply ∧ B = run_requests ces.
Proof.
  intros (ces1 & ce' & ces2 & i & o & Heq & H). destruct ces2 as [|ce2 ces2 _] using rev_ind.
  - apply app_inj_tail in Heq as [-> ->]. right. by exists i, o.
  - rewrite app_comm_cons, (assoc_L (++)) in Heq. apply app_inj_tail in Heq as [-> _]. left. by exists ces1, ce', ces2, i, o.
Qed.

(** An event in which a replica sends something brings no request. *)
Lemma event_requests_none env i ce c o ces :
  o ∈ event_outputs env i ce c → run_requests (ces ++ [ce]) = run_requests ces.
Proof.
  intros Ho. rewrite run_requests_app.
  destruct ce; try (simpl in Ho; by apply not_elem_of_nil in Ho); apply app_nil_r.
Qed.

Section runs.
Context (env : Env).

(** All replies so far are explained by one committed sequence of operations. *)
Definition told (ces : list cluster_event) (y : asys) : Prop :=
  ∃ L, agreed y L ∧ ∀ B m, replied env ces B m → explains B m L.

Lemma told_step ces ce y :
  kept env ces y → told ces y → Z.of_nat (length (ces ++ [ce])) < 2 ^ 32 → admissible ce → NoDup (fst <$> run_requests ces) →
  from_one (run_requests ces) → ∃ y', steps y y' ∧ kept env (ces ++ [ce]) y' ∧ told (ces ++ [ce]) y'.
Proof.
  intros Hk (L & HL & Htold) Hlen Had Hnd Hnum.
  destruct (kept_step env ces ce y Hk Hlen Had Hnd) as (y' & Hs & Hk' & Hsv). exists y'. split_and!; [done|done|].
  set (c := cluster_run env ces (new_cluster env)) in *.
  destruct (gd_inv _ (sm_good _ _ _ _ (lk_sim _ _ _ _ (kp_linked _ _ _ Hk')))) as [Hy' _].
  set (R := λ (io : Z * output) p, settled env io.1 ces → io.2 ∈ event_outputs env io.1 ce c →
    h_command (header (out_msg io.2)) = command.reply → explains (run_requests ces) (out_msg io.2) p).
  destruct (agreed_join y' R (i ← cluster_ids; (pair i) <$> event_outputs env i ce c) L Hy') as (L' & HL' & Hpre & Hnew).
  - by eapply agreed_steps.
  - intros io p q HR Hpq H1 H2 H3. eapply explains_prefix; [by apply HR|done].
  - intros io (i & (o & -> & Ho)%list_elem_of_fmap & Hi)%list_elem_of_bind.
    destruct (decide (settled env i ces)) as [Hse|Hse]; [|exists []; split; [by left|by intros ?]].
    destruct (Hsv Hnum i Hi Hse o Ho) as [Hno|Ha]; [exists []; split; [by left|by intros _ _ ?]|].
    assert (run_requests (ces ++ [ce]) = run_requests ces) as Hreq by (by eapply event_requests_none).
    destruct (answered_explains _ _ _ _ _ _ (kp_linked _ _ _ Hk') Ha) as (p & Hp & He). rewrite Hreq in He. exists p. split; [done|]. by intros _ _ _.
  - exists L'. split; [done|]. intros B m [Hm|(i & o & Hi & Hse & Ho & <- & Hcmd & ->)]%replied_last.
    + eapply explains_prefix; [by apply Htold|done].
    + apply (Hnew (i, o)); try done. apply list_elem_of_bind. exists i. split; [|done]. by apply list_elem_of_fmap_2.
Qed.

Lemma told_run ces :
  Forall admissible ces → Z.of_nat (length ces) < 2 ^ 32 → NoDup (fst <$> run_requests ces) → from_one (run_requests ces) →
  ∃ y, kept env ces y ∧ told ces y.
Proof.
  induction ces as [|ce ces IH] using rev_ind; intros Had Hlen Hnd Hnum.
  { exists ainit. split; [apply kept_initial|]. exists []. split; [by left|].
    intros B m (ces1 & ce & ces2 & i & o & Heq & _). by destruct ces1. }
  apply Forall_app in Had as [Had Hce]. apply Forall_cons in Hce as [Hce _]. rewrite run_requests_app, fmap_app in Hnd.
  apply NoDup_app in Hnd as [Hnd _]. unfold from_one in Hnum. rewrite run_requests_app in Hnum. apply Forall_app in Hnum as [Hnum _].
  destruct IH as (y & Hk & Ht); [done|rewrite length_app in Hlen; lia|done|done|].
  destruct (told_step ces ce y Hk Ht Hlen Hce Hnd Hnum) as (y' & _ & Hk' & Ht'). by exists y'.
Qed.

(** What a replica has executed is part of such a sequence. *)
Lemma executed_agreed ces y i s :
  kept env ces y → state_of i (cluster_run env ces (new_cluster env)) = Some s →
  i ∈ cluster_ids ∧ agreed y (strip_entry <$> committed_prefix (log_ s) (last_executed_op_ s)).
Proof.
  intros [Hl [H HH]] Hs. unfold state_of in Hs. destruct (cl_replicas _ !! i) as [r|] eqn:Hr; [|done]. injection Hs as <-.
  assert (i ∈ cluster_ids) as Hi by (apply (lk_members _ _ _ _ Hl); eauto). split; [done|].
  assert (rep (system_of (cluster_run env ces (new_cluster env))) i = r) as Hrep by (simpl; by rewrite Hr).
  pose proof (sm_rep _ _ _ _ (lk_sim _ _ _ _ Hl) i Hi) as (_ & Hlog & _).
  destruct (HH i Hi) as [[(S & h & q & [_ _ _ H4 H5 _ _] & _) _] _]. rewrite Hrep in *.
  rewrite H4, (committed_prefix_rel _ _ _ Hlog (proj1 H5)). by eapply solid_agreed.
Qed.
End runs.

(** ** Properties *)

(** C1: Replies are linearizable: if clients number their requests from 1, send none twice and no
    process is restarted, then whatever is lost or delayed and however many view changes and
    recoveries there are, there is one sequence of operations, each requested by a client and
    none twice, that extends what every replica has executed and explains every reply: a reply is
    the result of executing its operation after the operations before it in the sequence,
    from the empty store; and all of these were requested before the reply was sent, so an
    operation requested later comes later.  This is about replies of replicas that have
    caught up with themselves. *)
Theorem replies_linearizable env ces :
  Forall admissible ces → Z.of_nat (length ces) < 2 ^ 32 → NoDup (fst <$> run_requests ces) →
  Forall (λ q, 1 ≤ q.1.2) (run_requests ces) →
  ∃ L, NoDup (request_id <$> L) ∧ (∀ e, e ∈ L → request_of e ∈ run_requests ces) ∧
    (∀ i s, state_of i (cluster_run env ces (new_cluster env)) = Some s →
       strip_entry <$> committed_prefix (log_ s) (last_executed_op_ s) `prefix_of` L) ∧
    ∀ B m, replied env ces B m → explains B m L.
Proof.
  intros Had Hlen Hnd Hnum. destruct (told_run env ces Had Hlen Hnd Hnum) as (y & Hk & L & HL & Hrep).
  pose proof (kp_linked _ _ _ Hk) as Hl. destruct (gd_inv _ (sm_good _ _ _ _ (lk_sim _ _ _ _ Hl))) as [Hy _].
  destruct (agreed_join y (λ i p, ∀ s, state_of i (cluster_run env ces (new_cluster env)) = Some s →
    strip_entry <$> committed_prefix (log_ s) (last_executed_op_ s) `prefix_of` p) cluster_ids L Hy HL)
    as (L' & HL' & Hpre & Hex).
  - intros i p q Hp Hpq s Hs. etrans; [by apply Hp|done].
  - intros i _. destruct (state_of i _) as [s|] eqn:Hs; [|by exists []; split; [left|]].
    eexists. split; [by apply (executed_agreed env ces y i s)|]. by intros s' [= <-].
  - exists L'. split_and!.
    + eapply agreed_nodup; [done| |done]. by eapply sim_prepared_nodup, (lk_sim _ _ _ _ Hl).
    + intros e [k He]%list_elem_of_lookup. by eapply agreed_requested.
    + intros i s Hs. apply (Hex i); [|done]. by eapply executed_agreed.
    + intros B m Hm. eapply explains_prefix; [by apply Hrep|done].
Qed.

(** ** A replica that has not caught up *)

(** A client reads the key that the other client writes. *)
Definition read_x : vsr_message :=
  {| header := zero_header <| h_command := command.request |> <| h_operation := operation.get |>
       <| h_client := U128 2 2 |> <| h_request := 1 |>; payload := lit "x" |}.

Lemma read_x_message : client_message read_x.
Proof. split; [by left|]. split; [done|]. split; [split|]; vm_compute; first [done | split; done]. Qed.

(** The read and the write reach replica 2 as operations 1 and 2; replica 0 commits,
    executes and answers both. *)
Definition read_then_write : list cluster_event :=
  [ce_client 0 200 read_x; ce_client 0 100 (client_request (U128 1 1) (lit "x 1")); ce_process 0; ce_process 0;
   ce_lose 0; ce_lose 1; ce_deliver 0; ce_deliver 0; ce_process 2; ce_process 2; ce_deliver 0; ce_deliver 0;
   ce_process 0; ce_process 0].

(** Replicas 1 and 2 change to view 1 and do not know yet that the operations are
    committed.  The StartView message makes replica 0 recover with their commit number 0. *)
Definition recover_in_view_1 : list cluster_event :=
  [ce_liveness 1; ce_liveness 2; ce_lose 0; ce_deliver 0; ce_process 2; ce_lose 0; ce_deliver 0; ce_process 1;
   ce_deliver 0; ce_process 1; ce_deliver 1; ce_process 2; ce_deliver 0; ce_process 0; ce_lose 0; ce_lose 0;
   ce_deliver 0; ce_deliver 0; ce_process 1; ce_process 2; ce_deliver 0; ce_deliver 0; ce_process 0; ce_process 0].

(** The view changes to 2, where acknowledgements are lost, and to 3, where replica 0 is
    the primary again. *)
Definition through_view_2 : list cluster_event :=
  [ce_liveness 0; ce_liveness 2; ce_deliver 0; ce_deliver 0; ce_deliver 0; ce_lose 0; ce_process 0; ce_process 1; ce_process 2;
   ce_deliver 0; ce_process 2; ce_lose 0; ce_lose 0; ce_deliver 0; ce_process 0; ce_deliver 0; ce_process 1] ++
  replicate 5 (ce_lose 0).
Definition to_view_3 : list cluster_event :=
  [ce_liveness 0; ce_liveness 1; ce_deliver 0; ce_deliver 0; ce_deliver 0; ce_lose 0; ce_process 0; ce_process 1; ce_process 2;
   ce_deliver 0; ce_process 0; ce_lose 0; ce_lose 0; ce_deliver 0; ce_process 1; ce_deliver 0; ce_process 2;
   ce_deliver 0; ce_deliver 0; ce_lose 0; ce_deliver 0; ce_deliver 0].

Definition back_to_primary : list cluster_event := read_then_write ++ recover_in_view_1 ++ through_view_2 ++ to_view_3.

(** The replies that replica [i] sends in the event [ce] after the events [ces]. *)
Definition replies_in (i : Z) (ces : list cluster_event) (ce : cluster_event) : list vsr_message :=
  filter (λ m, h_command (header m) = command.reply)
    (out_msg <$> event_outputs fast_env i ce (cluster_run fast_env ces (new_cluster fast_env))).

(** A reply to the read in view [v]. *)
Definition reply_to_read (v : Z) (res : list byte) : vsr_message :=
  {| header := zero_header <| h_command := command.reply |> <| h_client := U128 2 2 |> <| h_request := 1 |> <| h_view := v |>;
     payload := res |}.

Lemma first_in {A} (x : A) l : head l = Some x → x ∈ l.
Proof. destruct l; [done|]. intros [= ->]. by left. Qed.

Lemma explains_once L B B' m m' :
  NoDup (request_id <$> L) → explains B m L → explains B' m' L →
  (h_client (header m), h_request (header m)) = (h_client (header m'), h_request (header m')) → payload m = payload m'.
Proof.
  intros Hnd (k & e & He & Hid & -> & _) (k' & e' & He' & Hid' & -> & _) Heq.
  assert (k = k') as <-.
  { eapply (NoDup_lookup _ _ _ (request_id e) Hnd); apply list_lookup_fmap_Some; [by exists e|exists e'].
    split; [congruence|done]. }
  by rewrite He in He'; injection He' as <-.
Qed.

(** C30: A replica that has not caught up contradicts itself.  Recovery sets replica 0 back to
    operation 0 but keeps its store; when it is the primary again, it executes the read a
    second time in the store that the later write has left, and answers the client with
    [1] where it answered [NOT_FOUND] before.  The request was sent once, nothing was
    restarted, and no sequence of operations explains both replies. *)
Theorem recovered_replica_contradicts_reply :
  let m1 := reply_to_read 0 (lit "NOT_FOUND") in let m2 := reply_to_read 3 (lit "1") in
  Forall admissible back_to_primary ∧ NoDup (fst <$> run_requests back_to_primary) ∧
  m1 ∈ replies_in 0 (take 12 back_to_primary) (ce_process 0) ∧ m2 ∈ replies_in 0 back_to_primary (ce_process 0) ∧
  ¬ ∃ L B1 B2, NoDup (request_id <$> L) ∧ explains B1 m1 L ∧ explains B2 m2 L.
Proof.
  cbv zeta. pose proof read_x_message. split; [check_admissible|].
  split; [vm_compute; repeat constructor; set_solver|].
  split; [apply first_in; vm_compute; reflexivity|]. split; [apply first_in; vm_compute; reflexivity|].
  intros (L & B1 & B2 & Hnd & H1 & H2). pose proof (explains_once L B1 B2 _ _ Hnd H1 H2 eq_refl). done.
Qed.

(** ** Witnesses *)

(** After the change to view 1, another client reads what was written in view 0. *)
Definition read_in_view_1 : list cluster_event :=
  first_write ++ to_view_1 ++ [ce_client 1 200 read_x; ce_process 1] ++
  replicate 4 (ce_deliver 0) ++ [ce_process 1; ce_process 0; ce_process 2; ce_process 1] ++ replicate 2 (ce_deliver 0).

Lemma replies_linearizable_witness :
  ∃ L, NoDup (request_id <$> L) ∧ explains (run_requests read_in_view_1) (reply_to_read 1 (lit "1")) L.
Proof.
  pose proof read_x_message. destruct (replies_linearizable fast_env (read_in_view_1 ++ [ce_process 1])) as (L & HL & _ & _ & Hrep).
  - check_admissible.
  - vm_compute. reflexivity.
  - vm_compute. repeat constructor; set_solver.
  - vm_compute. by repeat constructor.
  - exists L. split; [exact HL|]. apply Hrep.
    exists read_in_view_1, (ce_process 1), [], 1, (send_message (Some 200) (reply_to_read 1 (lit "1"))).
    split; [reflexivity|]. split; [apply (bool_decide_unpack _); vm_compute; exact I|].
    split; [apply (bool_decide_unpack _); vm_compute; exact I|]. split; [|split; [reflexivity|split; reflexivity]].
    assert (event_outputs fast_env 1 (ce_process 1) (cluster_run fast_env read_in_view_1 (new_cluster fast_env))
      = [send_message (Some 200) (reply_to_read 1 (lit "1"))]) as -> by (vm_compute; reflexivity). by left.
Defined.
