(* ===== verification/Session.v ===== *)
(** * The client program and the cluster

    A session of the client program of [src/client/client_main.cpp]: lines of input,
    interleaved with what happens on its connections.  It numbers its requests and writes
    each of them to one connection, so a cluster that it drives alone meets the condition
    of [Store] that no request is sent twice. *)
From S2P Require Import Prelude Types Serialization KeyValue Message ReplicaState Replica Execution Handlers Queue Recovery Client Cluster Protocol Exchange Refinement Agreement Machine Store Replies.

Section session.
Context (blake3 : list byte → list byte).

(** What a line of input sends, as it is read at the other end of the connection. *)
Definition line_sends (o : option (vsr_message * option Z)) : list vsr_message :=
  match o with Some (m, Some _) => [prepare_message blake3 m] | _ => [] end.

(** [session n c ms]: after [n] lines of input the client is in state [c], and has sent
    the messages [ms].  The loop of [handle_user_input] runs in one thread; requests of the
    connections complete in another.  A string is shorter than [2 ^ 63] bytes. *)
Inductive session : nat → Client → list vsr_message → Prop :=
  | session_start : session 0 client_main []
  | session_line n c ms line c' o :
      session n c ms → Z.of_nat (length line) < 2 ^ 63 → handle_line blake3 line c = Some (c', o) →
      session (S n) c' (ms ++ line_sends o)
  | session_network n c ms id cl l1 p l2 room r cl' :
      session n c ms → clients c !! id = Some cl → in_flight cl = l1 ++ p :: l2 →
      complete room p r (cl <| in_flight := l1 ++ l2 |>) = Some cl' →
      session n (c <| clients := <[id := cl']> (clients c) |>) ms.

(** ** What is sent *)

(** The messages that commands stand for. *)
Inductive typed : vsr_message → Prop :=
  | typed_ping : typed ping_message
  | typed_get k : is_token k → typed (get_message k)
  | typed_set k v : is_token k → is_token v → typed (set_message k v).

Lemma read_word_inv ss w r :
  read_word ss = Some (w, r) → is_token w ∧ (length w + length r ≤ length ss)%nat.
Proof.
  assert (∀ s, (length (word s).1 + length (word s).2 = length s)%nat ∧ Forall (λ c, isspace c = false) (word s).1) as Hw.
  { induction s as [|c s [IH1 IH2]]; [done|]. simpl. destruct (isspace c) eqn:Hc; [done|].
    destruct (word s) as [w0 r0]. simpl in *. split; [lia|by constructor]. }
  unfold read_word. intros H.
  assert (length (skip_ws ss) ≤ length ss ∧ match skip_ws ss with [] => True | c :: _ => isspace c = false end)%nat as [Hl Hs].
  { clear. induction ss as [|c s [IH1 IH2]]; [done|]. simpl. destruct (isspace c) eqn:Hc; [split; [lia|done]|done]. }
  destruct (skip_ws ss) as [|c s] eqn:Hsk; [done|]. destruct (Hw (c :: s)) as [H1 H2].
  destruct (word (c :: s)) as [w0 r0] eqn:Hws. injection H as -> ->. simpl in H1, H2, Hl. split; [|lia]. split; [|done].
  simpl in Hws. rewrite Hs in Hws. destruct (word s). by injection Hws as <- _.
Qed.

Lemma handle_line_sends line c c' o :
  handle_line blake3 line c = Some (c', o) →
  (o = None ∧ c' = c) ∨
  ∃ msg to, o = Some (numbered msg c, to) ∧ typed msg ∧ (length (payload msg) ≤ 2 * length line + 1)%nat ∧
    next_request_number c' = u32 (next_request_number c + 1).
Proof.
  assert (∀ n msg total c0, next_request_number (send_loop blake3 n msg total c0).1 = next_request_number c0) as Hloop.
  { induction n as [|n IH]; intros msg total c0; [done|]. simpl. repeat case_match; try done; by rewrite IH. }
  assert (∀ msg, typed msg → (length (payload msg) ≤ 2 * length line + 1)%nat →
    (let '(c', to) := client_send_message blake3 msg (Z.of_nat (length CLUSTER_CONFIG)) c in
     Some (c', Some (numbered msg c, to))) = Some (c', o) →
    (o = None ∧ c' = c) ∨ ∃ msg to, o = Some (numbered msg c, to) ∧ typed msg ∧
      (length (payload msg) ≤ 2 * length line + 1)%nat ∧ next_request_number c' = u32 (next_request_number c + 1)) as Hsend.
  { intros msg Ht Hlen H. right. unfold client_send_message in H.
    match type of H with context [send_loop _ ?n ?m ?t ?c0] => pose proof (Hloop n m t c0) as Hn;
      destruct (send_loop blake3 n m t c0) as [c1 to] end.
    injection H as <- <-. simpl in Hn. eauto 10. }
  unfold handle_line. case_match; [done|]. destruct (read_word line) as [[cmd ss]|] eqn:Hcmd; [|intros [= <- <-]; auto].
  apply read_word_inv in Hcmd as [_ Hcmd].
  destruct (bool_decide (cmd = lit "help")); [intros [= <- <-]; auto|].
  destruct (bool_decide (cmd = lit "status")); [intros [= <- <-]; auto|].
  destruct (bool_decide (cmd = lit "ping")); [apply Hsend; [constructor|simpl; lia]|].
  destruct (bool_decide (cmd = lit "get")).
  - destruct (read_word ss) as [[k s]|] eqn:Hk; [|intros [= <- <-]; auto]. apply read_word_inv in Hk as [Hk Hl].
    apply Hsend; [by constructor|]. simpl. unfold get_payload. lia.
  - destruct (bool_decide (cmd = lit "set")); [|intros [= <- <-]; auto].
    destruct (read_word ss) as [[k s]|] eqn:Hk; [|intros [= <- <-]; auto]. apply read_word_inv in Hk as [Hk Hl].
    destruct (read_word s) as [[v s']|] eqn:Hv; [|intros [= <- <-]; auto]. apply read_word_inv in Hv as [Hv Hl'].
    apply Hsend; [by constructor|]. simpl. unfold set_payload. rewrite !length_app. simpl. lia.
Qed.

(** A message sent before the number [next]. *)
Definition sent_before (next : Z) (m : vsr_message) : Prop :=
  (∃ msg c, typed msg ∧ m = prepare_message blake3 (numbered msg c)) ∧ client_message m ∧ 1 ≤ h_request (header m) < next.

Record session_inv (n : nat) (c : Client) (ms : list vsr_message) : Prop := {
  si_next : 1 ≤ next_request_number c ≤ Z.of_nat n + 1;
  si_sent : Forall (sent_before (next_request_number c)) ms;
  si_nodup : NoDup ((λ m, h_request (header m)) <$> ms) }.

Context (blake3_len : ∀ l, length (blake3 l) = 32%nat).

Lemma typed_client_message msg c :
  typed msg → is_u64 (Z.of_nat (length (payload msg))) → is_u32 (next_request_number c) →
  client_message (prepare_message blake3 (numbered msg c)).
Proof.
  intros Ht Hl Hn.
  assert (header_wf (header (numbered msg c))) as Hwf.
  { destruct Ht; (split; first [exact Hn | vm_compute; first [done | split; done]]). }
  split; [destruct Ht; [by right|by left..]|]. split; [by destruct Ht|]. split; [|exact Hl].
  by apply prepare_message_wf.
Qed.

Lemma session_keeps n c ms : session n c ms → Z.of_nat n + 1 < 2 ^ 32 → session_inv n c ms.
Proof.
  induction 1 as [|n c ms line c' o _ IH Hline Hh|n c ms id cl l1 p l2 room r cl' _ IH _ _ _]; intros Hn.
  - split; [simpl; lia|constructor|constructor].
  - destruct IH as [H1 H2 H3]; [lia|]. apply handle_line_sends in Hh as [[-> ->]|(msg & to & -> & Ht & Hlen & Hnext)].
    { simpl. rewrite app_nil_r. split; [lia|done|done]. }
    rewrite u32_small in Hnext by rlia.
    assert (Forall (sent_before (next_request_number c')) ms) as Hold.
    { eapply Forall_impl; [exact H2|]. intros m (Hm1 & Hm2 & Hm3). split_and!; [done|done|lia|lia]. }
    destruct to as [to|]; simpl; [|rewrite app_nil_r; split; [lia|done|done]]. split; [lia|..].
    + apply Forall_app. split; [done|]. apply Forall_singleton. split_and!; [by eauto| |simpl; lia|simpl; lia].
      apply typed_client_message; [done|rlia|rlia].
    + rewrite fmap_app. apply NoDup_app. split_and!; [done| |apply NoDup_singleton].
      intros k (m & -> & Hm)%list_elem_of_fmap Hk%list_elem_of_singleton.
      rewrite Forall_forall in H2. destruct (H2 m Hm) as (_ & _ & Hlt). rewrite Hk in Hlt. simpl in Hlt. lia.
  - destruct IH as [H1 H2 H3]; [done|]. by split.
Qed.

(** ** A cluster that the program drives *)

(** The messages that reach the replicas from outside the cluster. *)
Definition client_messages (ces : list cluster_event) : list vsr_message :=
  omap (λ ce, match ce with ce_client _ _ m => Some m | _ => None end) ces.

Definition no_restart (ce : cluster_event) : Prop := match ce with ce_restart _ => False | _ => True end.

(** The run [ces] of the cluster with a session of [n] lines: each of the messages sent
    reaches a replica at most once. *)
Record driven (n : nat) (ms : list vsr_message) (ces : list cluster_event) : Prop := {
  dr_session : ∃ c, session n c ms;
  dr_lines : Z.of_nat n + 1 < 2 ^ 32;
  dr_messages : client_messages ces ⊆+ ms;
  dr_restarts : Forall no_restart ces;
  dr_events : Z.of_nat (length ces) < 2 ^ 32 }.

Lemma client_messages_elem ces dst connection m : ce_client dst connection m ∈ ces → m ∈ client_messages ces.
Proof. intros H. apply list_elem_of_omap. by exists (ce_client dst connection m). Qed.

Lemma driven_sent n ms ces m : driven n ms ces → m ∈ client_messages ces → m ∈ ms ∧ ∃ next, sent_before next m.
Proof.
  intros [[c Hs] Hn Hsub _ _] Hm. apply session_keeps in Hs as [_ Hsent _]; [|done].
  eapply elem_of_submseteq in Hsub; [|exact Hm]. rewrite Forall_forall in Hsent. eauto.
Qed.

Lemma driven_admissible n ms ces : driven n ms ces → Forall admissible ces.
Proof.
  intros Hd. pose proof (dr_restarts _ _ _ Hd) as Hr. rewrite Forall_forall in Hr. apply Forall_forall. intros ce Hce.
  specialize (Hr ce Hce). destruct ce as [| |dst conn m| | | |]; try done.
  apply client_messages_elem in Hce. by destruct (driven_sent _ _ _ _ Hd Hce) as (_ & next & _ & ? & _).
Qed.

Lemma run_requests_messages ces : run_requests ces = omap message_request (client_messages ces).
Proof.
  induction ces as [|ce ces IH]; [done|].
  change (run_requests (ce :: ces)) with (event_requests ce ++ run_requests ces). rewrite IH.
  destruct ce as [| |dst conn m| | | |]; try done. simpl. by destruct (message_request m).
Qed.

Lemma requests_nodup ms :
  NoDup ((λ m, h_request (header m)) <$> ms) → NoDup (fst <$> omap message_request ms).
Proof.
  induction ms as [|m ms IH]; [intros _; constructor|]. rewrite fmap_cons. intros [Hni Hnd]%NoDup_cons. simpl.
  unfold message_request at 1. case_bool_decide; [|by apply IH]. simpl. apply NoDup_cons. split; [|by apply IH].
  intros (q & Hq & (m' & Hm' & Hmr)%list_elem_of_omap)%list_elem_of_fmap. apply Hni.
  unfold message_request in Hmr. case_bool_decide; [|done]. injection Hmr as <-. simpl in Hq. injection Hq as _ Hq.
  apply list_elem_of_fmap. by exists m'.
Qed.

Lemma driven_nodup n ms ces : driven n ms ces → NoDup (fst <$> run_requests ces).
Proof.
  intros [[c Hs] Hn Hsub _ _]. apply session_keeps in Hs as [_ _ Hnd]; [|done].
  rewrite run_requests_messages. apply requests_nodup. apply submseteq_Permutation in Hsub as [u Hu].
  rewrite Hu, fmap_app in Hnd. by apply NoDup_app in Hnd as [? _].
Qed.

(** A value in a replayed store was written by one of the operations. *)
Lemma replay_written sm es k v :
  replay sm es !! k = Some v →
  sm !! k = Some v ∨ ∃ e sm', e ∈ es ∧ sm' !! k ≠ Some v ∧ (apply_operation (le_op_type e) (le_payload e) sm').1 !! k = Some v.
Proof.
  revert sm. induction es as [|e es IH]; intros sm; [by left|]. simpl. intros [Hk|(e' & sm' & He' & H)]%IH.
  - destruct (decide (sm !! k = Some v)) as [|Hne]; [by left|right]. exists e, sm. split; [by left|done].
  - right. exists e', sm'. split; [by right|done].
Qed.

(** C7: End to end: in a cluster that one client process drives, whatever value a replica
    that has caught up with itself holds for a key, the user typed a [set] command for
    that key and value, and its request was sent. *)
Theorem stored_values_were_typed env n ms ces i s k v :
  driven n ms ces → state_of i (cluster_run env ces (new_cluster env)) = Some s → caught_up env i ces →
  state_machine_ s !! k = Some v → ∃ c, prepare_message blake3 (numbered (set_message k v) c) ∈ ms.
Proof.
  intros Hd Hs Hc Hkv. pose proof (driven_admissible _ _ _ Hd) as Had. pose proof (driven_nodup _ _ _ Hd) as Hnd.
  destruct (kept_run env ces [] ainit (kept_initial env) (dr_events _ _ _ Hd) Had Hnd) as (y & _ & Hk).
  destruct (caught_up_store _ _ _ _ _ Hk Hs Hc) as (q & [[u Hu] _] & _ & Hm & _). simpl app in *.
  rewrite Hm in Hkv. apply replay_written in Hkv as [?|(e & sm & He & Hno & Hw)]; [done|].
  apply list_elem_of_lookup in He as [p He].
  assert (a_log (a_reps y i) !! p = Some e) as Hp by (rewrite Hu; by apply lookup_app_l_Some).
  destruct (requested _ _ _ _ _ _ _ (kp_linked _ _ _ Hk) Hp) as (dst & conn & m & Hce & Hreq & Hq).
  apply client_messages_elem in Hce. destruct (driven_sent _ _ _ _ Hd Hce) as (Hin & next & (msg & c & Ht & ->) & _).
  injection Hq as _ _ Hty Hpl. rewrite Hty, Hpl in Hw.
  destruct Ht as [|k' Hk'|k' v' Hk' Hv']; [done| |].
  - destruct Hno. change ((apply_operation operation.get (get_payload k') sm).1 !! k = Some v) in Hw. by rewrite apply_get in Hw.
  - change ((apply_operation operation.set (set_payload k' v') sm).1 !! k = Some v) in Hw. rewrite apply_set in Hw by done.
    simpl in Hw. apply lookup_insert_Some in Hw as [[-> ->]|[_ ?]]; [by exists c|done].
Qed.

(** A cluster that one client process drives keeps its stores equal: the program sends
    no request twice, so two replicas that have caught up with themselves and count the
    same number of operations as executed hold the same store, also at different times. *)
Theorem session_stores_agree env n ms ces1 ces2 i j s1 s2 :
  driven n ms (ces1 ++ ces2) →
  state_of i (cluster_run env ces1 (new_cluster env)) = Some s1 → caught_up env i ces1 →
  state_of j (cluster_run env (ces1 ++ ces2) (new_cluster env)) = Some s2 → caught_up env j (ces1 ++ ces2) →
  last_executed_op_ s1 = last_executed_op_ s2 → state_machine_ s1 = state_machine_ s2.
Proof.
  intros Hd Hs1 Hc1 Hs2 Hc2.
  destruct (kept_two env ces1 ces2 (driven_admissible _ _ _ Hd) (dr_events _ _ _ Hd) (driven_nodup _ _ _ Hd))
    as (y1 & y2 & Hk1 & Hst & Hk2).
  by eapply (caught_up_agree env ces1 (ces1 ++ ces2) y1 y2).
Qed.

Lemma driven_from_one n ms ces : driven n ms ces → from_one (run_requests ces).
Proof.
  intros Hd. apply Forall_forall. intros q. rewrite run_requests_messages. intros (m & Hm & Hq)%list_elem_of_omap.
  destruct (driven_sent _ _ _ _ Hd Hm) as (_ & next & _ & _ & Hn & _). unfold message_request in Hq.
  case_bool_decide; [|done]. by injection Hq as <-.
Qed.

(** C6: End to end: in a cluster that one client process drives, there is one sequence of
    commands that the user typed, none of them twice, that explains every reply of replicas that
    have caught up with themselves: a reply is the result of executing its command after
    the commands before it in the sequence, from the empty store, and all of these were
    sent before the reply. *)
Theorem session_replies_linearizable env n ms ces :
  driven n ms ces →
  ∃ L, NoDup (request_id <$> L) ∧
    (∀ e, e ∈ L → ∃ msg c, typed msg ∧ prepare_message blake3 (numbered msg c) ∈ ms ∧
       message_request (prepare_message blake3 (numbered msg c)) = Some (request_of e)) ∧
    ∀ B m, replied env ces B m → explains B m L.
Proof.
  intros Hd.
  destruct (told_run env ces (driven_admissible _ _ _ Hd) (dr_events _ _ _ Hd) (driven_nodup _ _ _ Hd) (driven_from_one _ _ _ Hd))
    as (y & Hk & L & HL & Hrep). exists L. pose proof (kp_linked _ _ _ Hk) as Hl. split_and!; [|clear Hrep|done].
  - eapply agreed_nodup; [| |exact HL].
    + apply (gd_inv _ (sm_good _ _ _ _ (lk_sim _ _ _ _ Hl))).
    + by eapply sim_prepared_nodup, (lk_sim _ _ _ _ Hl); apply (driven_nodup _ _ _ Hd).
  - intros e [k He]%list_elem_of_lookup. apply (agreed_requested _ _ _ _ _ _ _ Hl HL) in He.
    rewrite run_requests_messages in He. apply list_elem_of_omap in He as (m & Hm & Hq).
    destruct (driven_sent _ _ _ _ Hd Hm) as (Hin & next & (msg & c & Ht & ->) & _). by exists msg, c.
Qed.
End session.

(** A message goes to the current target if that is connected. *)
Lemma send_connected blake3 msg total c cl :
  0 < total → clients c !! current_target_replica_id c = Some cl → is_connected cl = true →
  ∃ c', client_send_message blake3 msg total c = (c', Some (current_target_replica_id c)).
Proof.
  intros Ht Hcl Hconn. unfold client_send_message. destruct (Z.to_nat total) as [|n] eqn:Hn; [lia|]. cbn [send_loop].
  simpl clients. simpl current_target_replica_id. rewrite Hcl, Hconn. eauto.
Qed.

(** ** Witnesses *)

(** The client connects to replica 0 and the user types one command. *)
Definition first_message : vsr_message :=
  prepare_message toy_hash (numbered (set_message (lit "x") (lit "1")) client_main).

Lemma first_session : ∃ c, session toy_hash 1 c [first_message].
Proof.
  assert (∃ c, session toy_hash 0 c [] ∧ next_request_number c = 1 ∧ current_target_replica_id c = 0 ∧
    ∃ cl, clients c !! 0 = Some cl ∧ is_connected cl = true) as (c & Hs & Hn & Ht & cl & Hcl & Hconn).
  { eexists. split.
    - eapply (session_network toy_hash 0 _ [] 0 _ [] (connect_request 5) [] true {| res := 0; bytes := [] |}).
      + eapply (session_network toy_hash 0 _ [] 0 _ [] connect_task [] true {| res := 5; bytes := [] |});
          [apply session_start|reflexivity..].
      + apply lookup_insert_eq.
      + reflexivity.
      + reflexivity.
    - split; [reflexivity|]. split; [reflexivity|]. eexists. split; [apply lookup_insert_eq|reflexivity]. }
  rewrite <- Ht in Hcl. destruct (send_connected toy_hash (set_message (lit "x") (lit "1")) 3 c cl) as [c' Hsend]; [done..|].
  exists c'. assert (first_message = prepare_message toy_hash (numbered (set_message (lit "x") (lit "1")) c)) as ->.
  { unfold first_message, numbered. by rewrite Hn. }
  apply (session_line toy_hash 0 c [] (lit "set x 1") c'
    (Some (numbered (set_message (lit "x") (lit "1")) c, Some (current_target_replica_id c))) Hs); [vm_compute; reflexivity|].
  transitivity (let '(c', to) := client_send_message toy_hash (set_message (lit "x") (lit "1")) 3 c in
    Some (c', Some (numbered (set_message (lit "x") (lit "1")) c, to))); [reflexivity|by rewrite Hsend].
Qed.

(** Its request is committed with replica 1, which then learns of it. *)
Definition serve_first : list cluster_event :=
  [ce_client 0 100 first_message; ce_process 0; ce_lose 1; ce_deliver 0; ce_process 1; ce_deliver 0; ce_process 0].

Lemma serve_first_driven ces : client_messages ces = [] → Forall no_restart ces → Z.of_nat (length ces) < 100 →
  driven toy_hash 1 [first_message] (serve_first ++ ces).
Proof.
  intros Hm Hr Hl. split.
  - apply first_session.
  - lia.
  - unfold client_messages in *. rewrite omap_app, Hm. done.
  - apply Forall_app. split; [by repeat constructor|done].
  - rewrite length_app. simpl. lia.
Qed.

Lemma stored_values_were_typed_witness :
  ∃ c, prepare_message toy_hash (numbered (set_message (lit "x") (lit "1")) c) ∈ [first_message].
Proof.
  refine (stored_values_were_typed toy_hash toy_hash_len fast_env 1 [first_message] (serve_first ++ []) 0 _ _ _
    (serve_first_driven [] eq_refl ltac:(constructor) ltac:(reflexivity)) _ _ _);
    [vm_compute; reflexivity|apply caught_up_check; vm_compute; reflexivity|vm_compute; reflexivity].
Defined.

Lemma session_stores_agree_witness :
  ∃ s1 s2, state_of 0 (cluster_run fast_env serve_first (new_cluster fast_env)) = Some s1 ∧
    state_of 1 (cluster_run fast_env (serve_first ++ commit_everywhere) (new_cluster fast_env)) = Some s2 ∧
    state_machine_ s1 = state_machine_ s2.
Proof.
  do 2 eexists. split; [vm_compute; reflexivity|]. split; [vm_compute; reflexivity|].
  refine (session_stores_agree toy_hash toy_hash_len fast_env 1 [first_message] serve_first commit_everywhere 0 1 _ _
    (serve_first_driven commit_everywhere eq_refl ltac:(by repeat constructor) ltac:(reflexivity)) _ _ _ _ _);
    [vm_compute; reflexivity|apply caught_up_check; vm_compute; reflexivity
    |vm_compute; reflexivity|apply caught_up_check; vm_compute; reflexivity|vm_compute; reflexivity].
Defined.

(** The reply to it. *)
Definition first_reply : vsr_message :=
  {| header := zero_header <| h_command := command.reply |> <| h_client := h_client (header first_message) |> <| h_request := 1 |>;
     payload := lit "SET x=1" |}.

Lemma session_replies_linearizable_witness :
  ∃ L, NoDup (request_id <$> L) ∧ explains (run_requests (take 6 serve_first)) first_reply L.
Proof.
  destruct (session_replies_linearizable toy_hash toy_hash_len fast_env 1 [first_message] (serve_first ++ [])
    (serve_first_driven [] eq_refl ltac:(constructor) ltac:(reflexivity))) as (L & HL & _ & Hrep).
  exists L. split; [exact HL|]. apply Hrep.
  exists (take 6 serve_first), (ce_process 0), [], 0, (send_message (Some 100) first_reply).
  split; [reflexivity|]. split; [apply (bool_decide_unpack _); vm_compute; exact I|].
  split; [apply (bool_decide_unpack _); vm_compute; exact I|]. split; [|split; [reflexivity|split; reflexivity]].
  assert (event_outputs fast_env 0 (ce_process 0) (cluster_run fast_env (take 6 serve_first) (new_cluster fast_env))
    = [send_message (Some 100) first_reply]) as -> by (vm_compute; reflexivity). by left.
Defined.
